(* ===== verification/_CoqProject ===== *)
-Q . S2P
Prelude.v
Text.v
Net.v
IpText.v
Protocol.v
Resolver.v
World.v
Interleave.v
Ownership.v
Talks.v
Stores.v
Dns.v
Adapter.v
Cidr.v
Ssrf.v
Routing.v
RoutingConcurrency.v
Tls.v
Sockmap.v
SockmapRelay.v
TcpAdapter.v
TcpConnections.v
TcpConfig.v
TcpServer.v
TcpRelay.v
TcpSessions.v
TcpGuarantees.v
TcpConcurrency.v
TcpExclusive.v
HttpHost.v
HttpPool.v
HttpPoolBounds.v
HttpHandler.v
HttpGuarantees.v
HttpServer.v
HttpWorkers.v
HttpConcurrency.v
HttpExclusive.v
HttpPermits.v
HttpLeaks.v
Smtp.v
SmtpGuarantees.v
SmtpConcurrency.v
SmtpExclusive.v
Progress.v
Cli.v
CliMain.v
Examples.v
