(* ===== verification/Prelude.v ===== *)
(** * utopia-proxy: root of the verification library

    utopia-proxy is a TCP, HTTP and SMTP proxy.  Its Rust crate
    ([src/rust/crates/utopia-proxy], called [crate] below) routes what a client
    sends first (a packet, a Host header, an EHLO domain) to a backend endpoint
    given by a resolver, checks that the endpoint is not an internal address,
    dials it and relays.  The program ([src/rust/bins/proxy]) reads environment
    variables, picks one of the three servers and runs it.  This library is a
    shallow embedding of that code, file by file, with the theorems that make
    it correct and the places where it is not.

    ** How code is modelled

    - Prelude, Text, Net, IpText: bytes, [Result], Rust's string, number and
      address functions; a [&str] is its UTF-8 bytes; machine integers are [Z]
      with their range checks and wrap-arounds written out.
    - World: the monad [M S E A] of stateful, fallible, asynchronous code.  All
      the world's answers (sockets, DNS, clock, user-supplied resolvers and
      callbacks) are functions of the whole history of events in the class
      [Env]: what is proved for every [Env] holds for every behaviour of
      clients, backends and kernel.  [wp] and [emits] are the program logic.
    - Stores: the moka cache, DashMap and the tokio semaphore as classes with
      laws, each inhabited by a concrete instance.  rustls ([Rustls] of Tls),
      libbpf and the [bpf] system call ([BpfLib] of Sockmap), the kernel's
      helper functions ([BpfHelpers] of SockmapRelay), the http crate ([HttpLib] of HttpPool),
      hyper's server side ([HyperServer] of HttpWorkers) and floating-point
      seconds ([Seconds] of Cli) are interfaces in the same way.
    - Interleave: a handler cut at its accesses to shared state ([prog]), the
      scheduler that interleaves any number of them ([sched_step]), and a logic
      ([sound], [sched_adequacy]) for invariants under every interleaving.  A
      step carries the destructors of what its task holds ([guarded]), which
      run when the task is dropped there ([drop_step]): hyper drops the future
      of a request whose client is gone.  Tasks of the TCP and SMTP servers are
      never dropped.  A handler thus exists twice: as a monadic program, about whose function
      theorems are proved, and as the [prog] of the same name with [_prog]
      after it, which [run] turns into the former (the lemmas [run_..._prog]).
    - Ownership: a second logic for the same programs ([owns]), in which a task
      owns connections: their history is its own as long as it holds them, and
      no other task touches them ([owned_inv_reachable] is its adequacy); [tidy]
      says moreover what a task leaves behind when it is dropped.
    - Talks: what a connection has carried ([talk_on]), read off its history.

    ** The parts of the program, and where they are

    - [crate/src/protocol.rs]: Protocol.  [resolver/], [error.rs],
      [connection_result.rs]: Resolver.
    - [dns.rs]: Dns ([resolve], [resolve_strict], the cache and its TTL).
    - [adapter/mod.rs]: Adapter ([route], [validate], [parse_endpoint],
      [is_blocked_ip]), over the state [Routing] (an adapter and the DNS).  Its
      theorems are in Cidr (the blocked ranges are their CIDR blocks), Ssrf
      ([validate]) and Routing ([route]); RoutingConcurrency has [route_prog],
      the same handler cut for concurrent requests.
    - [tls/]: Tls.  [sockmap/]: Sockmap, with the key of
      [src/src/Sockmap/relay.bpf.c]; SockmapRelay: its verdict program, and
      both halves together.
    - [adapter/tcp.rs]: TcpAdapter, with its lemmas in TcpConnections.
      [server/tcp/]: TcpConfig (configuration, socket options) and TcpServer
      (start, accept, a connection up to its clean-up); TcpRelay, TcpSessions
      and TcpGuarantees prove about them.  TcpConcurrency: the same connection
      as a program of single steps, any number at once on the ports of a server;
      TcpExclusive: who owns their connections and table entries, and what
      those carry.
    - [server/http/handler.rs]: HttpHost (the Host header) and HttpHandler
      ([handle], the pooled and the raw forwarder).  [pool.rs]: HttpPool, and
      HttpPoolBounds for tasks that use a pool at once.  [config.rs] and
      [server.rs]: HttpServer (binding, a worker's set-up and accept step) and
      HttpWorkers (the process: its workers, and the connections hyper serves
      with [handle]).  HttpGuarantees proves about [handle].  HttpConcurrency:
      pool, handler and worker rounds as programs of single steps, any number
      of clients at once on the workers of a process; HttpExclusive: who owns
      their connections, and which reply answers which request; HttpPermits:
      who holds the permits of the pools; HttpLeaks: who holds what is open.
    - [server/smtp/]: Smtp, with SmtpGuarantees; SmtpConcurrency: sessions as
      programs of single steps, any number at once; SmtpExclusive: who owns
      their connections, and what those carry.
    - [bins/proxy/src/main.rs]: Cli (from environment variables to the planned
      server) and CliMain (banner, log lines, exit code).
    - [crate/examples]: Examples.

    A method is a definition with its Rust name, prefixed or put into a file or
    Module where names collide ([TcpServer.start], [Smtp.handle_client],
    [TcpExample.main]); a struct is a Record with the same fields; [self] is the
    state of the monad, and a component's operations run inside its owner's
    state by [zoom].

    ** What is proved

    - SSRF safety: [validate] accepts nothing but allowed addresses
      ([validate_sound]); no interleaving of the requests of the HTTP process,
      of the connections of the TCP server or of the sessions of the SMTP server
      dials a blocked address given as a literal, and every host dialled goes
      back to a validated answer about what some client sent
      ([concurrent_http_never_dials_blocked],
      [concurrent_tcp_never_dials_blocked],
      [concurrent_smtp_never_dials_blocked]); for routing itself,
      [concurrent_routes_vetted] and [concurrent_routes_isolated].  An IPv4
      endpoint is dialled as it was validated ([validated_ipv4_dial]); an IPv6
      one is not ([validated_ipv6_misparsed]).
    - Confinement under the same interleavings: bytes, requests, replies and
      mail lines only travel between a client and a backend that was dialled
      for that client (for HTTP: over connections to the authority that its
      request is for), the proxy's own answers apart
      ([concurrent_connections_confined],
      [concurrent_requests_confined], [concurrent_sessions_confined]).  Over
      HTTP a reply is moreover the reply to the request it is written after
      ([concurrent_replies_matched]): no two tasks use a connection at once, if
      the kernel gives out no descriptor that is open ([fresh_descriptors]).
      All of this holds with requests dropped at any moment.
      The connections of a mail session and of its backend carry, under every
      interleaving, a dialogue of the SMTP machine ([concurrent_sessions_refine]).
      A TCP connection and its backend's are, under every interleaving, the two
      ends of a pipe ([concurrent_connections_piped]), provided that, besides, no
      client is given a descriptor another client had ([unused_descriptors]).
    - Function: a TCP connection alone is a pipe ([plain_connection_is_a_pipe]); the
      pooled and raw HTTP forwarders relay what they must
      ([forward_request_relays], [raw_reply_faithful]); SMTP sessions refine a
      line-by-line specification ([smtp_session_refines]; alone, with how a
      session ends).
    - Resources: under every interleaving, dropped requests included, pools keep
      their bounds and lose no permit ([concurrent_permits_kept]), and when all is over no connection
      is open but those idle in a pool ([concurrent_connections_released]).  Pools give a
      connection to one request at a time ([pool_exclusive]), a TCP connection leaves
      nothing behind ([connection_leaves_nothing]), sock hash entries do not
      leak ([sockmap_never_leaks]), and what the kernel relays follows the pairs
      that were inserted ([relay_follows_pairs]).
    - Equivalences and refinements: address ranges, connections and worker rounds as schedules of
      their programs ([connection_alone_is_a_schedule],
      [round_alone_is_a_schedule]), [acquire] as steps of the shared pool.
    - Termination: Progress shows that TCP connections, SMTP sessions and HTTP
      requests end when their peers send finitely much; a concurrently routed
      request ends within a fixed number of its own steps
      ([concurrent_route_finishes]).
    - Errors and configuration: statuses that the http
      crate accepts ([handle_status_valid]), exit codes ([main_exit_code]), the
      plans of the command line program, and the default deployment, which
      refuses everything ([default_deployment_refuses]).

    Lemmas not among the claims record defects with concrete runs, among them
    [overflow_unbounded], [padded_dot_breaks_body], [ipv6_peers_share_key],
    [several_workers_need_reuse_port], [validation_switched_on_late],
    [older_answer_overwrites] and [http_proxy_example_refuses].

    ** Fuel

    Only loops that a peer can keep going have fuel: [forward_serialised] and
    [try_read_loop] (TcpServer), [session_loop] (Smtp), [read_head] and
    [read_body] (HttpHandler), and the requests of a kept connection
    ([serve_connection]).  The programs of single steps have the same fuel, and
    [wait_permit] tries [patience] times for a permit of a pool, where the code
    waits up to a timeout; the concurrency theorems hold for every choice.
    Running out is a result of its own ([Ok None],
    [SmtpRunning], [StopRunning]), about which the safety theorems speak as
    well.  Every round of such a loop but the last takes a byte, a line or a
    spurious wake-up from a peer, so that any fuel above the input is enough
    and changes nothing: [tcp_connection_terminates],
    [smtp_session_terminates] and [http_request_terminates].

    ** Not modelled

    - The order in which tasks run: the concurrency theorems hold for every
      order and claim nothing about fairness.  The step relations of the single
      servers (TcpGuarantees, HttpWorkers, SmtpGuarantees) run a client's task
      as a whole.  What a descriptor that is reused early does is stated
      separately ([reused_descriptor_keeps_backend]).
    - The streams of one HTTP/2 connection are served one after another.  A
      user's request handler answers in one step.  The drop of a value that a map entry held before it was
      overwritten is no event.  References to a backend are not counted: it is
      closed with its table entry, although a task that was given it through a
      descriptor reused early may hold it longer.
    - tokio, hyper, rustls, hickory, moka and libbpf themselves; the bytes of
      TLS records; [copy_bidirectional] is one event.
    - The text of log lines of the servers, the set-up of the tracing library,
      and clap's parsing of the arguments (its result is an input of [main]).
    - The PHP original, tests, benchmarks, and the configuration for systems other than Linux.
    - Accessors that return a field unchanged. *)

From stdpp Require Export base option list strings gmap.
From Stdlib Require Export ZArith Lia.
From Stdlib Require Import Ascii.

#[global] Set Default Goal Selector "!".

(** ** Bytes

    A Rust [u8] is an [ascii] (its eight bits), a [&[u8]], [Vec<u8>] or the
    UTF-8 contents of a [String] is a [list ascii]. *)
Abbreviation bytes := (list ascii).

(** [B "text"] is the byte-string literal [b"text"]. *)
Definition B (s : string) : bytes := String.list_ascii_of_string s.
#[global] Arguments B s%_string : simpl never.

(** The numeric value of a byte and its inverse on [0 <= z < 256]. *)
Definition code (c : ascii) : Z := Z.of_N (N_of_ascii c).
Definition chr (z : Z) : ascii := ascii_of_N (Z.to_N z).

Definition CR : ascii := "013"%char.
Definition LF : ascii := "010"%char.
Definition CRLF : bytes := [CR; LF].

(** ** Fallible results: Rust's [Result<A, E>] *)
Inductive result (E A : Type) : Type :=
| Ok (a : A)
| Err (e : E).
Arguments Ok {E A} a.
Arguments Err {E A} e.

Definition is_ok {E A} (r : result E A) : bool :=
  match r with Ok _ => true | Err _ => false end.

Definition result_bind {E A C} (r : result E A) (f : A -> result E C) : result E C :=
  match r with Ok a => f a | Err e => Err e end.

(** [Result::map_err]. *)
Definition map_err {E F A} (f : E -> F) (r : result E A) : result F A :=
  match r with Ok a => Ok a | Err e => Err (f e) end.

(** [Option::ok_or]. *)
Definition ok_or {E A} (e : E) (o : option A) : result E A :=
  match o with Some a => Ok a | None => Err e end.

(** [Option::unwrap_or]. *)
Definition unwrap_or {A} (d : A) (o : option A) : A :=
  match o with Some a => a | None => d end.

Declare Scope proxy_scope.
Delimit Scope proxy_scope with proxy.
Notation "'let?' p := r 'in' k" :=
  (result_bind r (fun x => match x with p => k end))
  (at level 10, p pattern, r at level 100, k at level 200) : proxy_scope.
Open Scope proxy_scope.

#[export] Instance result_eq_dec {E A} `{EqDecision E, EqDecision A} : EqDecision (result E A).
Proof. solve_decision. Defined.

(** ** Automation shared by the files *)

Create HintDb proxy discriminated.
Create HintDb proxy_rw.

(** Splits every [match]/[if] on a variable-free scrutinee found in the goal
    or in a hypothesis, keeping the equation. *)
Ltac cases_in H :=
  repeat match type of H with
  | context [match ?x with _ => _ end] =>
      let E := fresh "E" in destruct x eqn:E; simplify_eq/=
  end.

Ltac cases_goal :=
  repeat match goal with
  | |- context [match ?x with _ => _ end] =>
      let E := fresh "E" in destruct x eqn:E; simplify_eq/=
  end.

(** Turns boolean tests of [Z], [nat] and conjunctions into propositions. *)
Ltac bool_to_prop :=
  repeat match goal with
  | H : (_ && _)%bool = true |- _ => apply andb_true_iff in H as [? ?]
  | H : (_ || _)%bool = false |- _ => apply orb_false_iff in H as [? ?]
  | H : negb _ = true |- _ => apply negb_true_iff in H
  | H : negb _ = false |- _ => apply negb_false_iff in H
  | H : (_ <=? _)%Z = true |- _ => apply Z.leb_le in H
  | H : (_ <=? _)%Z = false |- _ => apply Z.leb_gt in H
  | H : (_ <? _)%Z = true |- _ => apply Z.ltb_lt in H
  | H : (_ <? _)%Z = false |- _ => apply Z.ltb_ge in H
  | H : (_ =? _)%Z = true |- _ => apply Z.eqb_eq in H
  | H : (_ =? _)%Z = false |- _ => apply Z.eqb_neq in H
  | H : bool_decide _ = true |- _ => apply bool_decide_eq_true in H
  | H : bool_decide _ = false |- _ => apply bool_decide_eq_false in H
  end.

(** Evaluates the comparisons of literal lengths in the goal. *)
Ltac eval_lengths :=
  cbn [List.length];
  repeat match goal with
  | |- context [@bool_decide (?a < ?b)%nat ?d] =>
      let v := eval vm_compute in (@bool_decide (a < b)%nat d) in
      lazymatch v with true => idtac | false => idtac end;
      change (@bool_decide (a < b)%nat d) with v
  | |- context [@bool_decide (?a = ?b :> nat) ?d] =>
      let v := eval vm_compute in (@bool_decide (a = b) d) in
      lazymatch v with true => idtac | false => idtac end;
      change (@bool_decide (a = b) d) with v
  end;
  cbn [andb orb negb].

(** ** Record update

    [update eta f v r] is the record [r] with the field [f] set to [v]; [eta r]
    rebuilds [r] from its fields. *)
Ltac update eta f v r :=
  let e := eval cbv beta delta [eta] in (eta r) in
  let e := eval pattern (f r) in e in
  lazymatch e with ?set _ => let e := eval cbv beta in (set v) in exact e end.

(** ** Lemmas on bytes *)

Lemma code_range c : (0 <= code c < 256)%Z.
Proof.
  unfold code. pose proof (N_ascii_bounded c). lia.
Qed.

Lemma chr_code c : chr (code c) = c.
Proof. unfold chr, code. rewrite N2Z.id. apply ascii_N_embedding. Qed.

Lemma code_chr z : (0 <= z < 256)%Z -> code (chr z) = z.
Proof.
  intros Hz. unfold chr, code. rewrite N_ascii_embedding; lia.
Qed.

Lemma code_inj c d : code c = code d -> c = d.
Proof. intros H. by rewrite <- (chr_code c), H, chr_code. Qed.

#[export] Instance code_Inj : Inj (=) (=) code.
Proof. intros c d. apply code_inj. Qed.

(** A property of all 256 bytes holds when it holds by enumeration. *)
Definition all_bytes : bytes := map (fun n => ascii_of_nat n) (seq 0 256).

Lemma elem_of_all_bytes c : c ∈ all_bytes.
Proof.
  apply list_elem_of_fmap. exists (nat_of_ascii c). split.
  - by rewrite ascii_nat_embedding.
  - apply elem_of_seq. pose proof (nat_ascii_bounded c). lia.
Qed.

Lemma bytes_forall (P : ascii -> bool) : forallb P all_bytes = true -> forall c, P c = true.
Proof.
  rewrite forallb_forall. intros H c. apply H, list_elem_of_In, elem_of_all_bytes.
Qed.

#[export] Hint Resolve code_range : proxy.

(** ** Lemmas on lists *)

(** Regrouping of a history around its newest events. *)
Lemma app_cons1 {A} (l : list A) a t : l ++ a :: t = (l ++ [a]) ++ t.
Proof. by rewrite <- app_assoc. Qed.
Lemma app_cons2 {A} (l : list A) a b t : l ++ a :: b :: t = (l ++ [a; b]) ++ t.
Proof. by rewrite <- app_assoc. Qed.

(** A list is cut in one way only at the first occurrence of a separator. *)
Lemma app_cons_inv_notin {A} (x : A) (l1 l2 r1 r2 : list A) :
  x ∉ l1 -> x ∉ l2 -> l1 ++ x :: r1 = l2 ++ x :: r2 -> l1 = l2 /\ r1 = r2.
Proof.
  revert l2. induction l1 as [|a l1 IH]; intros [|b l2] H1 H2 E.
  - by simplify_eq/=.
  - simplify_eq/=. set_solver.
  - simplify_eq/=. set_solver.
  - simplify_eq/=. destruct (IH l2) as [-> ->]; set_solver.
Qed.
