(* ===== verification/Text.v ===== *)
(** * Text: the parts of Rust's [core::str], [core::num] and [core::char]
    that the proxy uses, over byte lists.

    A [&str] is the list of its UTF-8 bytes.  Operations the source applies to
    [char]s (Unicode white space) work on the decoded code points; operations
    on ASCII separators work on the bytes, which is what they do in Rust: an
    ASCII byte never occurs inside a multi-byte UTF-8 sequence. *)

From S2P Require Import Prelude.
From Stdlib Require Import Ascii.
Open Scope Z_scope.

(** ** ASCII classes ([u8::is_ascii_*], [char::is_ascii_*]) *)

Definition is_ascii_digit (c : ascii) : bool := (48 <=? code c) && (code c <=? 57).
Definition is_ascii_upper (c : ascii) : bool := (65 <=? code c) && (code c <=? 90).
Definition is_ascii_lower (c : ascii) : bool := (97 <=? code c) && (code c <=? 122).
Definition is_ascii_alphanumeric (c : ascii) : bool :=
  is_ascii_digit c || is_ascii_upper c || is_ascii_lower c.

(** [u8::is_ascii_whitespace]: space, tab, line feed, form feed, carriage
    return (not the vertical tab). *)
Definition is_ascii_whitespace (c : ascii) : bool :=
  (code c =? 32) || (code c =? 9) || (code c =? 10) || (code c =? 12) || (code c =? 13).

Definition to_ascii_uppercase (c : ascii) : ascii :=
  if is_ascii_lower c then chr (code c - 32) else c.
Definition to_ascii_lowercase (c : ascii) : ascii :=
  if is_ascii_upper c then chr (code c + 32) else c.

Definition bytes_upper (s : bytes) : bytes := map to_ascii_uppercase s.
Definition bytes_lower (s : bytes) : bytes := map to_ascii_lowercase s.

(** [eq_ignore_ascii_case]. *)
Definition eq_ignore_ascii_case (s t : bytes) : bool :=
  bool_decide (bytes_lower s = bytes_lower t).

(** [starts_with] / [ends_with] on slices. *)
Fixpoint starts_with (s p : bytes) : bool :=
  match p, s with
  | [], _ => true
  | c :: p', d :: s' => bool_decide (c = d) && starts_with s' p'
  | _ :: _, [] => false
  end.
Definition ends_with (s p : bytes) : bool := starts_with (rev s) (rev p).

(** ** Splitting at an ASCII separator *)

(** [str::split_once(c)]: around the first occurrence. *)
Fixpoint split_once (c : ascii) (s : bytes) : option (bytes * bytes) :=
  match s with
  | [] => None
  | d :: s' =>
      if bool_decide (d = c) then Some ([], s')
      else match split_once c s' with
           | Some (a, b) => Some (d :: a, b)
           | None => None
           end
  end.

(** [str::rsplit_once(c)]: around the last occurrence. *)
Fixpoint rsplit_once (c : ascii) (s : bytes) : option (bytes * bytes) :=
  match s with
  | [] => None
  | d :: s' =>
      match rsplit_once c s' with
      | Some (a, b) => Some (d :: a, b)
      | None => if bool_decide (d = c) then Some ([], s') else None
      end
  end.

(** [str::splitn(n, c)]: at most [n] pieces, the last one is the rest. *)
Fixpoint splitn (n : nat) (c : ascii) (s : bytes) : list bytes :=
  match n with
  | O => []
  | S O => [s]
  | S n' =>
      match split_once c s with
      | None => [s]
      | Some (a, b) => a :: splitn n' c b
      end
  end.

(** [str::split(c)]: all the pieces. *)
Fixpoint split (c : ascii) (s : bytes) : list bytes :=
  match s with
  | [] => [[]]
  | d :: s' =>
      if bool_decide (d = c) then [] :: split c s'
      else match split c s' with
           | p :: ps => (d :: p) :: ps
           | [] => [[d]]
           end
  end.

(** ** Unsigned integers in text *)

(** [char::to_digit(radix)]. *)
Definition digit_val (radix : Z) (c : ascii) : option Z :=
  let z := code c in
  let v :=
    if is_ascii_digit c then Some (z - 48)
    else if is_ascii_lower c then Some (z - 87)
    else if is_ascii_upper c then Some (z - 55)
    else None in
  match v with
  | Some d => if d <? radix then Some d else None
  | None => None
  end.

(** The checked accumulation loop of [from_str_radix]. *)
Fixpoint parse_digits (radix max acc : Z) (s : bytes) : option Z :=
  match s with
  | [] => Some acc
  | c :: s' =>
      match digit_val radix c with
      | None => None
      | Some d =>
          let acc' := acc * radix + d in
          if acc' <=? max then parse_digits radix max acc' s' else None
      end
  end.

(** [str::parse::<uN>()] for the unsigned type whose largest value is [max]:
    an optional leading [+], then at least one decimal digit, no overflow. *)
Definition parse_uint (max : Z) (s : bytes) : option Z :=
  match s with
  | [] => None
  | c :: s' =>
      if bool_decide (c = "+"%char)
      then match s' with [] => None | _ :: _ => parse_digits 10 max 0 s' end
      else parse_digits 10 max 0 s
  end.

Definition u16_max : Z := 65535.
Definition u64_max : Z := 18446744073709551615.
Definition parse_u16 : bytes -> option Z := parse_uint u16_max.
(** [usize] is 64 bits on the targets the proxy is built for. *)
Definition parse_usize : bytes -> option Z := parse_uint u64_max.
Definition parse_u64 : bytes -> option Z := parse_uint u64_max.

(** The character of a digit, lower case. *)
Definition digit_char (d : Z) : ascii := if d <? 10 then chr (48 + d) else chr (87 + d).

Fixpoint digits (radix : Z) (fuel : nat) (n : Z) : bytes :=
  match fuel with
  | O => []
  | S f => if n <? radix then [digit_char n]
           else digits radix f (n / radix) ++ [digit_char (n mod radix)]
  end.

Definition print_fuel (n : Z) : nat := S (Z.to_nat (Z.log2 n)).
(** [Display] of an unsigned integer and [{:x}]. *)
Definition print_dec (n : Z) : bytes := digits 10 (print_fuel n) n.
Definition print_hex (n : Z) : bytes := digits 16 (print_fuel n) n.

(** ** UTF-8 *)

Definition is_cont (c : ascii) : bool := (128 <=? code c) && (code c <=? 191).

(** The second byte allowed after the lead byte [x] of a 3- or 4-byte
    sequence: no overlong forms, no surrogates, nothing above [U+10FFFF]. *)
Definition second_ok (x : Z) (c : ascii) : bool :=
  let lo := if x =? 224 then 160 else if x =? 240 then 144 else 128 in
  let hi := if x =? 237 then 159 else if x =? 244 then 143 else 191 in
  (lo <=? code c) && (code c <=? hi).

(** One step of the decoder: [Some (Some cp, rest)] for a code point,
    [Some (None, rest)] after a maximal invalid sequence, [None] at the end. *)
Definition utf8_step (s : bytes) : option (option Z * bytes) :=
  match s with
  | [] => None
  | b0 :: s1 =>
      let x := code b0 in
      if x <? 128 then Some (Some x, s1)
      else if (194 <=? x) && (x <=? 223) then
        match s1 with
        | b1 :: s2 =>
            if is_cont b1 then Some (Some ((x - 192) * 64 + (code b1 - 128)), s2)
            else Some (None, s1)
        | [] => Some (None, s1)
        end
      else if (224 <=? x) && (x <=? 239) then
        match s1 with
        | b1 :: s2 =>
            if second_ok x b1 then
              match s2 with
              | b2 :: s3 =>
                  if is_cont b2
                  then Some (Some (((x - 224) * 64 + (code b1 - 128)) * 64 + (code b2 - 128)), s3)
                  else Some (None, s2)
              | [] => Some (None, s2)
              end
            else Some (None, s1)
        | [] => Some (None, s1)
        end
      else if (240 <=? x) && (x <=? 244) then
        match s1 with
        | b1 :: s2 =>
            if second_ok x b1 then
              match s2 with
              | b2 :: s3 =>
                  if is_cont b2 then
                    match s3 with
                    | b3 :: s4 =>
                        if is_cont b3
                        then Some (Some ((((x - 240) * 64 + (code b1 - 128)) * 64
                                          + (code b2 - 128)) * 64 + (code b3 - 128)), s4)
                        else Some (None, s3)
                    | [] => Some (None, s3)
                    end
                  else Some (None, s2)
              | [] => Some (None, s2)
              end
            else Some (None, s1)
        | [] => Some (None, s1)
        end
      else Some (None, s1)
  end.

(** [std::str::from_utf8]: the code points, or [None]. Every step consumes a
    byte, so [length s] steps are enough ([from_utf8_fuel]). *)
Fixpoint utf8_decode (fuel : nat) (s : bytes) : option (list Z) :=
  match utf8_step s with
  | None => Some []
  | Some (None, _) => None
  | Some (Some cp, rest) =>
      match fuel with
      | O => None
      | S f => match utf8_decode f rest with
               | Some cs => Some (cp :: cs)
               | None => None
               end
      end
  end.
Definition from_utf8 (s : bytes) : option (list Z) := utf8_decode (List.length s) s.

(** [char::encode_utf8]. *)
Definition utf8_encode (cp : Z) : bytes :=
  if cp <? 128 then [chr cp]
  else if cp <? 2048 then [chr (192 + cp / 64); chr (128 + cp mod 64)]
  else if cp <? 65536 then
    [chr (224 + cp / 4096); chr (128 + (cp / 64) mod 64); chr (128 + cp mod 64)]
  else [chr (240 + cp / 262144); chr (128 + (cp / 4096) mod 64);
        chr (128 + (cp / 64) mod 64); chr (128 + cp mod 64)].
Definition utf8_bytes (cs : list Z) : bytes := List.concat (map utf8_encode cs).

(** [String::from_utf8_lossy]: every maximal invalid sequence becomes
    [U+FFFD]. *)
Fixpoint utf8_lossy (fuel : nat) (s : bytes) : bytes :=
  match fuel with
  | O => []
  | S f =>
      match utf8_step s with
      | None => []
      | Some (Some cp, rest) => utf8_encode cp ++ utf8_lossy f rest
      | Some (None, rest) => utf8_encode 65533 ++ utf8_lossy f rest
      end
  end.
Definition from_utf8_lossy (s : bytes) : bytes := utf8_lossy (List.length s) s.

(** [char::is_whitespace]: the Unicode property [White_Space]. *)
Definition is_whitespace (c : Z) : bool :=
  ((9 <=? c) && (c <=? 13)) || (c =? 32) || (c =? 133) || (c =? 160) || (c =? 5760)
  || ((8192 <=? c) && (c <=? 8202)) || (c =? 8232) || (c =? 8233) || (c =? 8239)
  || (c =? 8287) || (c =? 12288).

(** [str::trim_start], [str::trim] on code points. *)
Fixpoint trim_start (cs : list Z) : list Z :=
  match cs with
  | [] => []
  | c :: cs' => if is_whitespace c then trim_start cs' else cs
  end.
Definition trim_chars (cs : list Z) : list Z := rev (trim_start (rev (trim_start cs))).

(** The characters before the first one satisfying [p], and those after it:
    [splitn(2, p)]. *)
Fixpoint split_at_char (p : Z -> bool) (cs : list Z) : list Z * option (list Z) :=
  match cs with
  | [] => ([], None)
  | c :: cs' => if p c then ([], Some cs')
                else let (a, b) := split_at_char p cs' in (c :: a, b)
  end.

(** The first piece of [str::split_whitespace]: leading white space is
    skipped, pieces are never empty. *)
Definition first_word (cs : list Z) : option (list Z) :=
  match trim_start cs with
  | [] => None
  | cs' => Some (fst (split_at_char is_whitespace cs'))
  end.
(** The first two pieces. *)
Definition first_two_words (cs : list Z) : option (list Z * option (list Z)) :=
  match trim_start cs with
  | [] => None
  | cs' => match split_at_char is_whitespace cs' with
           | (w, None) => Some (w, None)
           | (w, Some rest) => Some (w, first_word rest)
           end
  end.

(** [str::trim] of a valid [&str], as bytes. *)
Definition trim_str (s : bytes) : bytes :=
  match from_utf8 s with
  | Some cs => utf8_bytes (trim_chars cs)
  | None => s
  end.

#[global] Arguments print_dec : simpl never.
#[global] Arguments print_hex : simpl never.
#[global] Arguments parse_uint : simpl never.
#[global] Arguments from_utf8 : simpl never.
#[global] Arguments from_utf8_lossy : simpl never.

(** ** Lemmas *)

Lemma digit_char_val radix d :
  0 <= d < radix -> radix <= 16 -> digit_val radix (digit_char d) = Some d.
Proof.
  intros Hd Hr. assert (d < 16) by lia.
  unfold digit_val, digit_char, is_ascii_digit, is_ascii_lower, is_ascii_upper.
  destruct (d <? 10) eqn:E; bool_to_prop; rewrite code_chr by lia.
  - rewrite (proj2 (Z.leb_le 48 _)), (proj2 (Z.leb_le _ 57)) by lia. cbn.
    rewrite (proj2 (Z.ltb_lt _ radix)) by lia. f_equal. lia.
  - rewrite (proj2 (Z.leb_gt _ 57)) by lia. rewrite andb_false_r.
    rewrite (proj2 (Z.leb_le 97 _)), (proj2 (Z.leb_le _ 122)) by lia. cbn.
    rewrite (proj2 (Z.ltb_lt _ radix)) by lia. f_equal. lia.
Qed.

Lemma digit_val_range radix c d : digit_val radix c = Some d -> 0 <= d < radix.
Proof.
  unfold digit_val, is_ascii_digit, is_ascii_lower, is_ascii_upper.
  destruct ((48 <=? code c) && (code c <=? 57)) eqn:E1;
    [|destruct ((97 <=? code c) && (code c <=? 122)) eqn:E2;
      [|destruct ((65 <=? code c) && (code c <=? 90)) eqn:E3; [|done]]];
    destruct (_ <? radix) eqn:E; intros [= <-]; bool_to_prop; lia.
Qed.

Lemma parse_digits_app radix max acc s t :
  parse_digits radix max acc (s ++ t) =
  match parse_digits radix max acc s with
  | Some a => parse_digits radix max a t
  | None => None
  end.
Proof.
  revert acc. induction s as [|c s IH]; intros acc; cbn; [done|].
  destruct (digit_val radix c) as [d|]; [|done].
  destruct (acc * radix + d <=? max); [apply IH|done].
Qed.

Lemma log2_div_radix radix n :
  2 <= radix -> radix <= n -> (Z.to_nat (Z.log2 (n / radix)) < Z.to_nat (Z.log2 n))%nat.
Proof.
  intros Hr Hn.
  assert (0 < n / radix) by (apply Z.div_str_pos; lia).
  assert (Z.log2 (n / radix) < Z.log2 n); [|pose proof (Z.log2_nonneg (n / radix)); lia].
  assert (n / radix <= n / 2) by (apply Z.div_le_compat_l; lia).
  apply Z.le_lt_trans with (Z.log2 (n / 2)); [by apply Z.log2_le_mono|].
  change 2 with (2 ^ 1). rewrite <- Z.shiftr_div_pow2 by lia.
  rewrite Z.log2_shiftr by lia.
  assert (1 <= Z.log2 n); [|lia]. change 1 with (Z.log2 2). apply Z.log2_le_mono. lia.
Qed.

Lemma parse_digits_digits radix max fuel n :
  2 <= radix <= 16 -> 0 <= n <= max -> (Z.to_nat (Z.log2 n) < fuel)%nat ->
  parse_digits radix max 0 (digits radix fuel n) = Some n.
Proof.
  intros Hr. revert n. induction fuel as [|f IH]; intros n Hn Hf; [lia|].
  cbn [digits]. destruct (n <? radix) eqn:E; bool_to_prop.
  - cbn [parse_digits]. rewrite digit_char_val by lia.
    rewrite (proj2 (Z.leb_le _ max)) by lia. f_equal.
  - pose proof (log2_div_radix radix n ltac:(lia) ltac:(lia)).
    assert (n / radix <= n) by (apply Z.div_le_upper_bound; nia).
    pose proof (Z.div_pos n radix ltac:(lia) ltac:(lia)).
    rewrite parse_digits_app, IH by lia.
    pose proof (Z.mod_pos_bound n radix ltac:(lia)).
    cbn [parse_digits]. rewrite digit_char_val by lia.
    pose proof (Z.div_mod n radix ltac:(lia)).
    rewrite (proj2 (Z.leb_le _ max)) by lia. f_equal. lia.
Qed.

Lemma digits_nonempty radix f n : digits radix (S f) n <> [].
Proof.
  cbn. destruct (n <? radix); [done|]. intros [_ ?]%app_eq_nil. done.
Qed.

(** The characters [digits] produces. *)
Definition is_radix_digit (c : ascii) : bool := is_ascii_digit c || is_ascii_lower c.

Lemma digit_char_class d : 0 <= d < 16 -> is_radix_digit (digit_char d) = true.
Proof.
  intros Hd. unfold is_radix_digit, digit_char, is_ascii_digit, is_ascii_lower.
  destruct (d <? 10) eqn:E; bool_to_prop; rewrite code_chr by lia; lia.
Qed.

Lemma digits_class radix f n :
  2 <= radix <= 16 -> 0 <= n -> Forall (fun c => is_radix_digit c = true) (digits radix f n).
Proof.
  intros Hr. revert n. induction f as [|f IH]; intros n Hn; [constructor|].
  cbn. destruct (n <? radix) eqn:E; bool_to_prop.
  - repeat constructor. apply digit_char_class. lia.
  - apply Forall_app. split; [apply IH, Z.div_pos; lia|].
    repeat constructor. apply digit_char_class.
    pose proof (Z.mod_pos_bound n radix ltac:(lia)). lia.
Qed.

(** Decimal text reads back as the number, for every unsigned type. *)
Lemma parse_uint_print max n : 0 <= n <= max -> parse_uint max (print_dec n) = Some n.
Proof.
  intros Hn. unfold parse_uint, print_dec, print_fuel.
  assert (Hd := parse_digits_digits 10 max (S (Z.to_nat (Z.log2 n))) n
                  ltac:(lia) ltac:(lia) ltac:(lia)).
  pose proof (digits_class 10 (S (Z.to_nat (Z.log2 n))) n ltac:(lia) ltac:(lia)) as Hc.
  destruct (digits 10 _ n) as [|c s] eqn:E.
  { by apply digits_nonempty in E. }
  rewrite bool_decide_eq_false_2; [done|].
  intros ->. inversion Hc as [|? ? Hp]. by vm_compute in Hp.
Qed.

Lemma print_dec_nonempty n : print_dec n <> [].
Proof. apply digits_nonempty. Qed.

Lemma split_once_spec c s :
  match split_once c s with
  | Some (a, b) => s = a ++ c :: b /\ c ∉ a
  | None => c ∉ s
  end.
Proof.
  induction s as [|d s IH]; cbn; [set_solver|].
  case_bool_decide; subst; [set_solver|].
  destruct (split_once c s) as [[a b]|]; [destruct IH as [-> ?]|]; set_solver.
Qed.

Lemma split_once_app c a b : c ∉ a -> split_once c (a ++ c :: b) = Some (a, b).
Proof.
  intros Ha. pose proof (split_once_spec c (a ++ c :: b)) as H.
  destruct (split_once c (a ++ c :: b)) as [[a' b']|]; [|set_solver].
  destruct H as [E Ha']. by apply app_cons_inv_notin in E as [-> ->].
Qed.

Lemma split_once_notin c s : c ∉ s -> split_once c s = None.
Proof.
  intros Hs. pose proof (split_once_spec c s) as H.
  destruct (split_once c s) as [[a b]|]; [|done]. destruct H as [-> _]. set_solver.
Qed.

Lemma rsplit_once_spec c s :
  match rsplit_once c s with
  | Some (a, b) => s = a ++ c :: b /\ c ∉ b
  | None => c ∉ s
  end.
Proof.
  induction s as [|d s IH]; cbn; [set_solver|].
  destruct (rsplit_once c s) as [[a b]|]; [destruct IH as [-> ?]; set_solver|].
  case_bool_decide; subst; set_solver.
Qed.

Lemma parse_uint_range max s n : 0 <= max -> parse_uint max s = Some n -> 0 <= n <= max.
Proof.
  intros Hm.
  assert (Hgo : forall s acc n, 0 <= acc <= max -> parse_digits 10 max acc s = Some n ->
                0 <= n <= max).
  { clear. induction s as [|c s IH]; intros acc n Ha; cbn; [intros [=]; lia|].
    destruct (digit_val 10 c) as [d|] eqn:E; [|done].
    destruct (_ <=? max) eqn:El; [|done]. bool_to_prop. apply IH.
    apply digit_val_range in E. lia. }
  unfold parse_uint. destruct s as [|c s]; [done|].
  case_bool_decide; [destruct s; [done|]|]; apply Hgo; lia.
Qed.
