(* ===== verification/Net.v ===== *)
(** * Net: [std::net::{Ipv4Addr, Ipv6Addr, IpAddr}], their [FromStr] parser
    and their [Display].

    The SSRF check of the adapter parses a resolved host, classifies it and
    prints it back into the endpoint that is dialled, so the library models
    the standard library's parser ([core::net::parser]) and printers. *)

From S2P Require Import Prelude Text.
From Stdlib Require Import Ascii.
Open Scope Z_scope.

(** ** Addresses *)

(** Four octets. *)
Record Ipv4Addr : Type := mkIpv4 { o0 : ascii; o1 : ascii; o2 : ascii; o3 : ascii }.

(** Eight 16-bit groups, each its two octets in network order. *)
Record Ipv6Addr : Type := mkIpv6 {
  g0 : ascii * ascii; g1 : ascii * ascii; g2 : ascii * ascii; g3 : ascii * ascii;
  g4 : ascii * ascii; g5 : ascii * ascii; g6 : ascii * ascii; g7 : ascii * ascii }.

Inductive IpAddr : Type :=
| V4 (v4 : Ipv4Addr)
| V6 (v6 : Ipv6Addr).

#[export] Instance Ipv4Addr_eq_dec : EqDecision Ipv4Addr.
Proof. solve_decision. Defined.
#[export] Instance Ipv6Addr_eq_dec : EqDecision Ipv6Addr.
Proof. solve_decision. Defined.
#[export] Instance IpAddr_eq_dec : EqDecision IpAddr.
Proof. solve_decision. Defined.

(** [Ipv4Addr::octets]. *)
Definition octets (ip : Ipv4Addr) : list ascii := [o0 ip; o1 ip; o2 ip; o3 ip].

(** The value of a 16-bit group and the group of a value. *)
Definition group_val (g : ascii * ascii) : Z := code g.1 * 256 + code g.2.
Definition group_of (z : Z) : ascii * ascii := (chr (z / 256), chr (z mod 256)).

(** [Ipv6Addr::segments]. *)
Definition groups (ip : Ipv6Addr) : list (ascii * ascii) :=
  [g0 ip; g1 ip; g2 ip; g3 ip; g4 ip; g5 ip; g6 ip; g7 ip].
Definition segments (ip : Ipv6Addr) : list Z := map group_val (groups ip).

Definition ipv6_of_groups (gs : list (ascii * ascii)) : option Ipv6Addr :=
  match gs with
  | [a; b; c; d; e; f; g; h] => Some (mkIpv6 a b c d e f g h)
  | _ => None
  end.

Definition is_ipv4 (ip : IpAddr) : bool := match ip with V4 _ => true | V6 _ => false end.

(** The 32-bit value of an IPv4 address, the 128-bit value of an IPv6 one. *)
Definition ipv4_val (ip : Ipv4Addr) : Z :=
  ((code (o0 ip) * 256 + code (o1 ip)) * 256 + code (o2 ip)) * 256 + code (o3 ip).
Definition ipv6_val (ip : Ipv6Addr) : Z :=
  fold_left (fun acc s => acc * 65536 + s) (segments ip) 0.

(** [Ipv6Addr::is_loopback]: exactly [::1]. *)
Definition is_loopback (ip : Ipv6Addr) : bool :=
  bool_decide (segments ip = [0; 0; 0; 0; 0; 0; 0; 1]).

(** ** The parser

    A parser maps the remaining input to a value and the rest, or fails and
    leaves the input as it was ([read_atomically]). *)

Definition dot : ascii := "."%char.
Definition colon : ascii := ":"%char.

(** [read_given_char]. *)
Definition read_given_char (c : ascii) (s : bytes) : option bytes :=
  match s with
  | d :: s' => if bool_decide (d = c) then Some s' else None
  | [] => None
  end.

(** The longest run of digits of the radix, and what follows it. *)
Fixpoint take_digits (radix : Z) (s : bytes) : list Z * bytes :=
  match s with
  | [] => ([], [])
  | c :: s' =>
      match digit_val radix c with
      | Some d => let (ds, rest) := take_digits radix s' in (d :: ds, rest)
      | None => ([], s)
      end
  end.

Definition digits_value (radix : Z) (ds : list Z) : Z :=
  fold_left (fun acc d => acc * radix + d) ds 0.

(** [read_number(radix, Some(max_digits), allow_zero_prefix)] for a type whose
    largest value is [max]. *)
Definition read_number (radix : Z) (max_digits : nat) (allow_zero_prefix : bool) (max : Z)
    (s : bytes) : option (Z * bytes) :=
  let (ds, rest) := take_digits radix s in
  let n := List.length ds in
  if bool_decide (max_digits < n)%nat then None
  else if bool_decide (n = 0)%nat then None
  else if negb allow_zero_prefix && bool_decide (head s = Some "0"%char) && bool_decide (1 < n)%nat
  then None
  else if digits_value radix ds <=? max then Some (digits_value radix ds, rest) else None.

(** [read_separator(sep, index, inner)]. *)
Definition read_separator {A} (sep : ascii) (index : nat)
    (inner : bytes -> option (A * bytes)) (s : bytes) : option (A * bytes) :=
  match index with
  | O => inner s
  | S _ => match read_given_char sep s with Some s' => inner s' | None => None end
  end.

Definition read_octet (index : nat) (s : bytes) : option (Z * bytes) :=
  read_separator dot index (read_number 10 3 false 255) s.

(** [read_ipv4_addr]. *)
Definition read_ipv4_addr (s : bytes) : option (Ipv4Addr * bytes) :=
  match read_octet 0 s with
  | None => None
  | Some (a, s1) =>
      match read_octet 1 s1 with
      | None => None
      | Some (b, s2) =>
          match read_octet 2 s2 with
          | None => None
          | Some (c, s3) =>
              match read_octet 3 s3 with
              | None => None
              | Some (d, s4) => Some (mkIpv4 (chr a) (chr b) (chr c) (chr d), s4)
              end
          end
      end
  end.

(** [read_groups] with [limit] groups, of which [i] are read already: the
    groups, whether an embedded IPv4 address ended them, and the rest. *)
Fixpoint read_groups (limit i : nat) (s : bytes) : list (ascii * ascii) * bool * bytes :=
  match limit with
  | O => ([], false, s)
  | S more =>
      let group (_ : unit) :=
        match read_separator colon i (read_number 16 4 true 65535) s with
        | None => ([], false, s)
        | Some (g, s') =>
            let '(gs, v4, rest) := read_groups more (S i) s' in
            (group_of g :: gs, v4, rest)
        end in
      match more with
      | O => group tt
      | S _ =>
          match read_separator colon i read_ipv4_addr s with
          | Some (ip, rest) => ([(o0 ip, o1 ip); (o2 ip, o3 ip)], true, rest)
          | None => group tt
          end
      end
  end.

(** [read_ipv6_addr]. *)
Definition read_ipv6_addr (s : bytes) : option (Ipv6Addr * bytes) :=
  let '(head, head_ipv4, s1) := read_groups 8 0 s in
  let head_size := List.length head in
  if bool_decide (head_size = 8)%nat then
    match ipv6_of_groups head with Some ip => Some (ip, s1) | None => None end
  else if head_ipv4 then None
  else
    match read_given_char colon s1 with
    | None => None
    | Some s2 =>
        match read_given_char colon s2 with
        | None => None
        | Some s3 =>
            let '(tail, _, s4) := read_groups (8 - (head_size + 1)) 0 s3 in
            let zeros := replicate (8 - head_size - List.length tail) (group_of 0) in
            match ipv6_of_groups (head ++ zeros ++ tail) with
            | Some ip => Some (ip, s4)
            | None => None
            end
        end
    end.

(** [parse_with]: the whole input must be consumed. *)
Definition parse_with {A} (p : bytes -> option (A * bytes)) (s : bytes) : option A :=
  match p s with
  | Some (a, []) => Some a
  | _ => None
  end.

(** [read_ip_addr] and [<IpAddr as FromStr>::from_str]. *)
Definition read_ip_addr (s : bytes) : option (IpAddr * bytes) :=
  match read_ipv4_addr s with
  | Some (ip, rest) => Some (V4 ip, rest)
  | None =>
      match read_ipv6_addr s with
      | Some (ip, rest) => Some (V6 ip, rest)
      | None => None
      end
  end.
Definition parse_ipaddr (s : bytes) : option IpAddr := parse_with read_ip_addr s.

(** [<Ipv4Addr as FromStr>::from_str] rejects more than 15 bytes first. *)
Definition parse_ipv4 (s : bytes) : option Ipv4Addr :=
  if bool_decide (15 < List.length s)%nat then None else parse_with read_ipv4_addr s.

(** ** [Display] *)

Definition display_ipv4 (ip : Ipv4Addr) : bytes :=
  print_dec (code (o0 ip)) ++ dot :: print_dec (code (o1 ip))
  ++ dot :: print_dec (code (o2 ip)) ++ dot :: print_dec (code (o3 ip)).

(** The longest run of zero groups, as (start, length): the first of the
    longest ones. *)
Fixpoint zero_span (segs : list Z) (i : nat) (cur longest : nat * nat) : nat * nat :=
  match segs with
  | [] => longest
  | s :: segs' =>
      if s =? 0 then
        let cur := (if bool_decide (cur.2 = 0)%nat then i else cur.1, S cur.2) in
        zero_span segs' (S i) cur (if bool_decide (longest.2 < cur.2)%nat then cur else longest)
      else zero_span segs' (S i) (0, 0)%nat longest
  end.

Fixpoint fmt_subslice (chunk : list Z) : bytes :=
  match chunk with
  | [] => []
  | [s] => print_hex s
  | s :: chunk' => print_hex s ++ colon :: fmt_subslice chunk'
  end.

(** [Ipv6Addr::to_ipv4_mapped]. *)
Definition to_ipv4_mapped (ip : Ipv6Addr) : option Ipv4Addr :=
  if bool_decide (take 6 (segments ip) = [0; 0; 0; 0; 0; 65535])
  then Some (mkIpv4 (g6 ip).1 (g6 ip).2 (g7 ip).1 (g7 ip).2)
  else None.

Definition display_ipv6 (ip : Ipv6Addr) : bytes :=
  match to_ipv4_mapped ip with
  | Some v4 => B "::ffff:" ++ display_ipv4 v4
  | None =>
      let segs := segments ip in
      let '(start, len) := zero_span segs 0 (0, 0)%nat (0, 0)%nat in
      if bool_decide (1 < len)%nat then
        fmt_subslice (take start segs) ++ B "::" ++ fmt_subslice (drop (start + len) segs)
      else fmt_subslice segs
  end.

Definition display_ip (ip : IpAddr) : bytes :=
  match ip with V4 v4 => display_ipv4 v4 | V6 v6 => display_ipv6 v6 end.

(** ** Lemmas *)

Definition starts_with_digit (radix : Z) (s : bytes) : bool :=
  match s with
  | [] => false
  | c :: _ => match digit_val radix c with Some _ => true | None => false end
  end.

Lemma take_digits_app radix s ds rest :
  take_digits radix s = (ds, []) -> starts_with_digit radix rest = false ->
  take_digits radix (s ++ rest) = (ds, rest).
Proof.
  revert ds. induction s as [|c s IH]; intros ds E Hr; cbn in *.
  - simplify_eq. destruct rest as [|d rest]; cbn in *; [done|].
    by destruct (digit_val radix d).
  - destruct (digit_val radix c); [|done].
    destruct (take_digits radix s) as [ds' r'] eqn:E'. simplify_eq.
    by rewrite (IH _ eq_refl Hr).
Qed.

Lemma take_digits_suffix radix s ds rest : take_digits radix s = (ds, rest) -> rest `suffix_of` s.
Proof.
  revert ds. induction s as [|c s IH]; intros ds E; cbn in E; [by simplify_eq|].
  destruct (digit_val radix c); [|by simplify_eq].
  destruct (take_digits radix s) as [ds' r'] eqn:E'. simplify_eq.
  by apply suffix_cons_r, (IH ds').
Qed.

Lemma read_number_app radix md z max s v rest :
  s <> [] -> read_number radix md z max s = Some (v, []) ->
  starts_with_digit radix rest = false ->
  read_number radix md z max (s ++ rest) = Some (v, rest).
Proof.
  intros Hs E Hr. unfold read_number in *.
  destruct (take_digits radix s) as [ds r] eqn:Et.
  assert (r = []) as -> by (cases_in E; done).
  rewrite (take_digits_app _ _ _ _ Et Hr).
  assert (head (s ++ rest) = head s) as -> by (by destruct s).
  cases_in E. done.
Qed.

Lemma read_number_suffix radix md z max s v rest :
  read_number radix md z max s = Some (v, rest) -> rest `suffix_of` s.
Proof.
  unfold read_number. destruct (take_digits radix s) as [ds r] eqn:Et.
  intros E. cases_in E. by eapply take_digits_suffix.
Qed.

Lemma suffix_notin {A} (x : A) l1 l2 : l1 `suffix_of` l2 -> x ∉ l2 -> x ∉ l1.
Proof. intros [k ->]. set_solver. Qed.

(** Every octet's decimal text reads back as the octet. *)
Definition octet_reads (c : ascii) : bool :=
  bool_decide (read_number 10 3 false 255 (print_dec (code c)) = Some (code c, [])).

Lemma octet_reads_all c : octet_reads c = true.
Proof. revert c. apply bytes_forall. vm_compute. reflexivity. Qed.

Lemma read_number_octet c rest :
  starts_with_digit 10 rest = false ->
  read_number 10 3 false 255 (print_dec (code c) ++ rest) = Some (code c, rest).
Proof.
  apply read_number_app; [apply print_dec_nonempty|].
  exact (bool_decide_eq_true_1 _ (octet_reads_all c)).
Qed.

Lemma read_octet_0 c rest :
  starts_with_digit 10 rest = false ->
  read_octet 0 (print_dec (code c) ++ rest) = Some (code c, rest).
Proof. apply read_number_octet. Qed.

Lemma read_octet_S i c rest :
  starts_with_digit 10 rest = false ->
  read_octet (S i) (dot :: print_dec (code c) ++ rest) = Some (code c, rest).
Proof. apply read_number_octet. Qed.

(** An IPv4 address followed by anything that is not a digit is read back. *)
Lemma read_ipv4_display ip rest :
  starts_with_digit 10 rest = false ->
  read_ipv4_addr (display_ipv4 ip ++ rest) = Some (ip, rest).
Proof.
  intros Hr. unfold display_ipv4, read_ipv4_addr.
  rewrite <- app_assoc, read_octet_0 by done. cbn [app].
  rewrite <- app_assoc, read_octet_S by done. cbn [app].
  rewrite <- app_assoc, read_octet_S by done. cbn [app].
  rewrite read_octet_S by done. rewrite !chr_code. by destruct ip.
Qed.

Lemma parse_display_ipv4 ip : parse_ipaddr (display_ipv4 ip) = Some (V4 ip).
Proof.
  unfold parse_ipaddr, parse_with, read_ip_addr.
  rewrite <- (app_nil_r (display_ipv4 ip)), read_ipv4_display by done. done.
Qed.

(** The text of a number has neither a dot nor a colon. *)
Lemma radix_digits_no_sep s x :
  Forall (fun c => is_radix_digit c = true) s -> is_radix_digit x = false -> x ∉ s.
Proof. intros Hs Hx Hin. rewrite Forall_forall in Hs. specialize (Hs x Hin). congruence. Qed.

Lemma print_dec_class n : 0 <= n -> Forall (fun c => is_radix_digit c = true) (print_dec n).
Proof. intros. apply digits_class; lia. Qed.
Lemma print_hex_class n : 0 <= n -> Forall (fun c => is_radix_digit c = true) (print_hex n).
Proof. intros. apply digits_class; lia. Qed.

Lemma display_ipv4_no_colon ip : colon ∉ display_ipv4 ip.
Proof.
  unfold display_ipv4.
  assert (H : forall c, colon ∉ print_dec (code c)).
  { intros c. eapply radix_digits_no_sep; [|done].
    apply print_dec_class. pose proof (code_range c). lia. }
  rewrite !not_elem_of_app, !not_elem_of_cons, !not_elem_of_app, !not_elem_of_cons,
    !not_elem_of_app, !not_elem_of_cons.
  repeat split; auto; done.
Qed.

(** Text without a dot and without a colon is no IP literal. *)
Lemma read_given_char_in c s s' : read_given_char c s = Some s' -> c ∈ s.
Proof. destruct s as [|d s]; cbn; [done|]. case_bool_decide; set_solver. Qed.

Lemma read_ipv4_no_dot s : dot ∉ s -> read_ipv4_addr s = None.
Proof.
  intros Hs. unfold read_ipv4_addr.
  destruct (read_octet 0 s) as [[a s1]|] eqn:E0; [|done].
  apply read_number_suffix in E0. unfold read_octet at 1, read_separator.
  destruct (read_given_char dot s1) eqn:E1; [|done].
  apply read_given_char_in in E1. by apply (suffix_notin dot) in E0.
Qed.

Lemma read_groups_no_colon n i s : colon ∉ s -> read_groups n (S i) s = ([], false, s).
Proof.
  intros Hs. assert (read_given_char colon s = None) as E.
  { destruct (read_given_char colon s) eqn:E; [|done]. by apply read_given_char_in in E. }
  destruct n as [|[|n]]; cbn; unfold read_separator; rewrite ?E; done.
Qed.

Lemma read_groups_SS n i s :
  read_groups (S (S n)) i s =
  match read_separator colon i read_ipv4_addr s with
  | Some (ip, rest) => ([(o0 ip, o1 ip); (o2 ip, o3 ip)], true, rest)
  | None =>
      match read_separator colon i (read_number 16 4 true 65535) s with
      | None => ([], false, s)
      | Some (g, s') =>
          let '(gs, v4, rest) := read_groups (S n) (S i) s' in (group_of g :: gs, v4, rest)
      end
  end.
Proof. reflexivity. Qed.

Lemma read_ipv6_no_sep s : dot ∉ s -> colon ∉ s -> read_ipv6_addr s = None.
Proof.
  intros Hd Hc.
  assert (H : exists head rest, read_groups 8 0 s = (head, false, rest)
              /\ (List.length head <= 1)%nat /\ rest `suffix_of` s).
  { rewrite read_groups_SS. unfold read_separator. rewrite (read_ipv4_no_dot s Hd).
    destruct (read_number 16 4 true 65535 s) as [[g s']|] eqn:E.
    - pose proof (read_number_suffix _ _ _ _ _ _ _ E) as Hsuf.
      rewrite read_groups_no_colon by by eapply suffix_notin.
      eexists _, _. split; [done|]. split; [cbn; lia|done].
    - eexists _, _. split; [done|]. split; [cbn; lia|done]. }
  destruct H as (head & rest & E & Hl & Hsuf).
  unfold read_ipv6_addr. rewrite E. rewrite bool_decide_eq_false_2 by lia.
  destruct (read_given_char colon rest) eqn:E1; [|done].
  apply read_given_char_in in E1. by apply (suffix_notin colon) in Hsuf.
Qed.

Lemma parse_ipaddr_no_sep s : dot ∉ s -> colon ∉ s -> parse_ipaddr s = None.
Proof.
  intros Hd Hc. unfold parse_ipaddr, parse_with, read_ip_addr.
  by rewrite read_ipv4_no_dot, read_ipv6_no_sep.
Qed.

(** The text of an IPv6 address begins with a (possibly empty) group of
    hexadecimal digits followed by a colon. *)
Lemma group_val_range g : 0 <= group_val g < 65536.
Proof. unfold group_val. pose proof (code_range g.1). pose proof (code_range g.2). lia. Qed.

Lemma segments_range ip : Forall (fun s => 0 <= s < 65536) (segments ip).
Proof.
  apply Forall_map, Forall_true. intros g. apply group_val_range.
Qed.

Definition hex_prefix (s : bytes) : Prop :=
  exists h t, s = h ++ colon :: t /\ Forall (fun c => is_radix_digit c = true) h.

Lemma hex_prefix_app s t : hex_prefix s -> hex_prefix (s ++ t).
Proof.
  intros (h & u & -> & Hh). exists h, (u ++ t). by rewrite <- app_assoc.
Qed.

Lemma fmt_subslice_prefix chunk sep :
  Forall (fun s => 0 <= s < 65536) chunk ->
  head sep = Some colon \/ (2 <= List.length chunk)%nat ->
  hex_prefix (fmt_subslice chunk ++ sep).
Proof.
  intros Hr Hs. destruct chunk as [|s [|s' chunk]].
  - destruct sep as [|c sep]; cbn in Hs; [destruct Hs; [done|lia]|].
    destruct Hs as [[= ->]|]; [|cbn in *; lia]. exists [], sep. by cbn.
  - destruct sep as [|c sep]; cbn in Hs; [destruct Hs; [done|lia]|].
    destruct Hs as [[= ->]|]; [|cbn in *; lia].
    exists (print_hex s), sep. split; [done|]. apply print_hex_class.
    inversion Hr; lia.
  - exists (print_hex s), (fmt_subslice (s' :: chunk) ++ sep). split.
    + cbn [fmt_subslice]. by rewrite <- app_assoc.
    + apply print_hex_class. inversion Hr; lia.
Qed.

Lemma display_ipv6_prefix ip : hex_prefix (display_ipv6 ip).
Proof.
  unfold display_ipv6. destruct (to_ipv4_mapped ip) as [v4|].
  { apply hex_prefix_app. exists [], (B ":ffff:"). by repeat split. }
  pose proof (segments_range ip) as Hr.
  destruct (zero_span _ _ _ _) as [start len].
  case_bool_decide.
  - apply fmt_subslice_prefix; [by apply Forall_take|by left].
  - rewrite <- (app_nil_r (fmt_subslice _)).
    apply fmt_subslice_prefix; [done|right; cbn; lia].
Qed.
