(* ===== verification/IpText.v ===== *)
(** * IpText: the text of an IP address reads back as the address.

    The adapter prints the address a lookup gave, parses the text again, checks
    what it parsed and dials what it prints: nothing is lost on the way, for
    IPv6 as for IPv4. *)

From S2P Require Import Prelude Text Net.
From Stdlib Require Import Ascii.
Open Scope Z_scope.

(** ** Numbers *)

Lemma take_digits_snoc radix s ds d :
  0 <= d < radix -> radix <= 16 -> take_digits radix s = (ds, []) ->
  take_digits radix (s ++ [digit_char d]) = (ds ++ [d], []).
Proof.
  intros Hd Hr. revert ds. induction s as [|c s IH]; intros ds E; cbn in *.
  - injection E as <-. by rewrite digit_char_val.
  - destruct (digit_val radix c); [|done].
    destruct (take_digits radix s) as [ds' r']. injection E as <- ->.
    by rewrite (IH ds' eq_refl).
Qed.

Lemma take_digits_digits radix fuel n k :
  2 <= radix <= 16 -> 0 <= n < radix ^ Z.of_nat k -> (Z.to_nat (Z.log2 n) < fuel)%nat -> (1 <= k)%nat ->
  exists ds, take_digits radix (digits radix fuel n) = (ds, []) /\ digits_value radix ds = n
             /\ (1 <= List.length ds <= k)%nat.
Proof.
  intros Hr. revert n k. induction fuel as [|f IH]; intros n k Hn Hf Hk; [lia|].
  cbn [digits]. destruct (n <? radix) eqn:E; bool_to_prop.
  - exists [n]. cbn. rewrite digit_char_val by lia. split; [done|]. split; [lia|lia].
  - destruct k as [|[|k]]; [lia|cbn in Hn; lia|].
    pose proof (log2_div_radix radix n ltac:(lia) ltac:(lia)).
    pose proof (Z.mod_pos_bound n radix ltac:(lia)).
    pose proof (Z.div_mod n radix ltac:(lia)).
    destruct (IH (n / radix) (S k)) as (ds & Ht & Hv & Hl); [|lia|lia|].
    { split; [apply Z.div_pos; lia|]. apply Z.div_lt_upper_bound; [lia|].
      rewrite <- Z.pow_succ_r by lia. rewrite <- Nat2Z.inj_succ. lia. }
    exists (ds ++ [n mod radix]). split; [apply take_digits_snoc; [lia|lia|done]|].
    unfold digits_value in *. rewrite fold_left_app, length_app. cbn. rewrite Hv. lia.
Qed.

(** A group's text. *)
Lemma read_number_hex v rest :
  0 <= v < 65536 -> starts_with_digit 16 rest = false ->
  read_number 16 4 true 65535 (print_hex v ++ rest) = Some (v, rest).
Proof.
  intros Hv. apply read_number_app; [apply digits_nonempty|]. unfold read_number, print_hex, print_fuel.
  destruct (take_digits_digits 16 (S (Z.to_nat (Z.log2 v))) v 4) as (ds & -> & Hd & Hl);
    [lia|cbn; lia|lia|lia|].
  rewrite bool_decide_eq_false_2 by lia. rewrite bool_decide_eq_false_2 by lia. cbn [negb andb].
  rewrite Hd. by rewrite (proj2 (Z.leb_le v 65535)) by lia.
Qed.

Lemma group_of_val g : group_of (group_val g) = g.
Proof.
  destruct g as [a b]. unfold group_of, group_val. cbn [fst snd].
  pose proof (code_range b). replace ((code a * 256 + code b) / 256) with (code a).
  - replace ((code a * 256 + code b) mod 256) with (code b); [by rewrite !chr_code|].
    rewrite Z.add_comm, Z.mod_add by lia. by rewrite Z.mod_small by lia.
  - rewrite Z.div_add_l by lia. rewrite Z.div_small by lia. lia.
Qed.

(** ** Groups *)

(** The text of groups, and what is written before a group after the first. *)
Definition groups_text (gs : list (ascii * ascii)) : bytes := fmt_subslice (map group_val gs).
Definition glue (i : nat) : bytes := match i with O => [] | S _ => [colon] end.

Lemma groups_text_cons g g' gs :
  groups_text (g :: g' :: gs) = print_hex (group_val g) ++ colon :: groups_text (g' :: gs).
Proof. done. Qed.

(** What may follow the groups: nothing, or the [::]. *)
Definition groups_end (rest : bytes) : Prop := rest = [] \/ exists u, rest = colon :: colon :: u.

Lemma groups_end_digit radix rest : radix <= 16 -> groups_end rest -> starts_with_digit radix rest = false.
Proof.
  intros Hr [->|[u ->]]; [done|]. cbn. unfold digit_val. cbn. done.
Qed.

Lemma read_number_none radix md z max s : starts_with_digit radix s = false -> read_number radix md z max s = None.
Proof.
  intros Hs. unfold read_number. destruct s as [|c s]; cbn in *.
  - rewrite bool_decide_eq_false_2 by lia. done.
  - destruct (digit_val radix c); [done|]. rewrite bool_decide_eq_false_2 by (cbn; lia). done.
Qed.

Lemma read_ipv4_none s : starts_with_digit 10 s = false -> read_ipv4_addr s = None.
Proof.
  intros Hs. unfold read_ipv4_addr, read_octet at 1, read_separator. by rewrite read_number_none.
Qed.

(** At the end of the groups nothing more is read. *)
Lemma read_separated_end {A} radix (inner : bytes -> option (A * bytes)) i rest :
  radix <= 16 -> (forall s, starts_with_digit radix s = false -> inner s = None) ->
  groups_end rest -> read_separator colon i inner rest = None.
Proof.
  intros Hr Hinner He. destruct i as [|j]; cbn [read_separator].
  - apply Hinner. by apply groups_end_digit.
  - destruct He as [->|[u ->]]; [done|]. cbn. by apply Hinner.
Qed.

Lemma read_groups_end limit i rest : groups_end rest -> read_groups limit i rest = ([], false, rest).
Proof.
  intros He.
  assert (Hn : read_separator colon i (read_number 16 4 true 65535) rest = None).
  { apply (read_separated_end 16); [lia| |done]. apply read_number_none. }
  assert (H4 : read_separator colon i read_ipv4_addr rest = None).
  { apply (read_separated_end 10); [lia| |done]. apply read_ipv4_none. }
  destruct limit as [|[|limit]]; cbn [read_groups]; [done|by rewrite Hn|by rewrite H4, Hn].
Qed.

Lemma read_ipv4_separated i s : dot ∉ s -> read_separator colon i read_ipv4_addr s = None.
Proof.
  intros Hs. destruct i as [|i]; cbn; [by apply read_ipv4_no_dot|].
  destruct (read_given_char colon s) as [s'|] eqn:E; [|done].
  apply read_ipv4_no_dot. eapply suffix_notin; [|exact Hs].
  destruct s as [|c s]; [done|]. cbn in E. case_bool_decide; [|done]. injection E as <-. by apply suffix_cons_r.
Qed.

(** Text without a dot holds no embedded IPv4 address: the groups are read one
    by one. *)
Lemma read_groups_text gs limit i rest :
  (List.length gs <= limit)%nat -> gs <> [] -> groups_end rest ->
  dot ∉ glue i ++ groups_text gs ++ rest ->
  read_groups limit i (glue i ++ groups_text gs ++ rest) = (gs, false, rest).
Proof.
  revert limit i. induction gs as [|g gs IH]; intros limit i Hl Hne He Hdot; [done|].
  destruct limit as [|limit]; [cbn in Hl; lia|].
  set (tail := match gs with [] => rest | _ :: _ => glue 1 ++ groups_text gs ++ rest end).
  assert (Htext : groups_text (g :: gs) ++ rest = print_hex (group_val g) ++ tail).
  { unfold tail. destruct gs as [|g' gs]; [done|].
    rewrite groups_text_cons, <- app_assoc. done. }
  rewrite Htext in *.
  assert (Hrest : read_groups limit (S i) tail = (gs, false, rest)).
  { unfold tail. destruct gs as [|g' gs]; [by apply read_groups_end|].
    apply (IH limit (S i)); [cbn in *; lia|done|done|]. unfold tail in Hdot. set_solver. }
  assert (Hnum : read_separator colon i (read_number 16 4 true 65535)
                   (glue i ++ print_hex (group_val g) ++ tail) = Some (group_val g, tail)).
  { assert (Hn : read_number 16 4 true 65535 (print_hex (group_val g) ++ tail) = Some (group_val g, tail)).
    { apply read_number_hex; [apply group_val_range|]. unfold tail.
      destruct gs; [by apply groups_end_digit|done]. }
    destruct i as [|i]; exact Hn. }
  cbn [read_groups]. rewrite Hnum, Hrest, group_of_val. destruct limit; [done|].
  by rewrite read_ipv4_separated.
Qed.

Lemma read_groups_start gs limit rest :
  (List.length gs <= limit)%nat -> groups_end rest -> dot ∉ groups_text gs ++ rest ->
  read_groups limit 0 (groups_text gs ++ rest) = (gs, false, rest).
Proof.
  intros Hl He Hdot. destruct gs as [|g gs]; [by apply read_groups_end|].
  by apply (read_groups_text (g :: gs) limit 0).
Qed.

Lemma groups_text_no_dot gs : dot ∉ groups_text gs.
Proof.
  assert (Hg : forall g, dot ∉ print_hex (group_val g)).
  { intros g. eapply radix_digits_no_sep; [|done]. apply print_hex_class. pose proof (group_val_range g). lia. }
  induction gs as [|g [|g' gs] IH]; [set_solver|apply Hg|].
  rewrite groups_text_cons, not_elem_of_app, not_elem_of_cons. by repeat split.
Qed.

(** ** The run of zeros that the text leaves out *)

(** [run] is a run of zeros of [segs]. *)
Definition zero_run (segs : list Z) (run : nat * nat) : Prop :=
  (run.1 + run.2 <= List.length segs)%nat /\ take run.2 (drop run.1 segs) = replicate run.2 0.

Lemma zero_run_snoc segs i n rest :
  zero_run segs (i, n) -> drop (i + n) segs = 0 :: rest -> zero_run segs (i, S n).
Proof.
  intros [Hl Hz] Hd. cbn in *.
  assert (List.length (drop (i + n) segs) = S (List.length rest)) as Hlen by (by rewrite Hd).
  rewrite length_drop in Hlen. split; cbn [fst snd]; [lia|].
  rewrite (take_S_r _ _ 0), Hz; [by rewrite replicate_S_end|].
  change (Some 0) with ((0 :: rest) !! 0%nat). rewrite <- Hd, !lookup_drop. f_equal. lia.
Qed.

Lemma zero_span_run all segs i cur longest :
  drop i all = segs -> zero_run all cur -> (cur.2 = 0 \/ cur.1 + cur.2 = i)%nat -> zero_run all longest ->
  zero_run all (zero_span segs i cur longest).
Proof.
  revert i cur longest. induction segs as [|s segs IH]; intros i [st n] longest Hd Hc Hi Hl; [done|].
  cbn [zero_span fst snd] in *.
  assert (Hd' : drop (S i) all = segs) by (rewrite <- Nat.add_1_r, <- drop_drop, Hd; done).
  assert (H0 : zero_run all (0, 0)%nat) by (split; cbn; [lia|done]).
  destruct (s =? 0) eqn:E; [|by apply IH; [| |left|]]; bool_to_prop.
  set (cur' := (if bool_decide (n = 0)%nat then i else st, S n)).
  assert (Hcur : zero_run all cur' /\ (cur'.1 + cur'.2 = S i)%nat).
  { unfold cur'. case_bool_decide as En; cbn [fst snd]; [subst n|].
    - split; [|lia]. apply (zero_run_snoc _ _ _ segs); [|by rewrite Nat.add_0_r, Hd; subst].
      split; [cbn|done]. assert (List.length (drop i all) = S (List.length segs)) as Hlen by (by rewrite Hd).
      rewrite length_drop in Hlen. lia.
    - destruct Hi as [?|Hi]; [done|]. split; [|lia].
      apply (zero_run_snoc _ _ _ segs); [done|]. by rewrite Hi, Hd; subst. }
  destruct Hcur. apply IH; [done|done|by right|by case_bool_decide].
Qed.

Lemma zero_run_split segs st n :
  zero_run segs (st, n) -> segs = take st segs ++ replicate n 0 ++ drop (st + n) segs.
Proof. intros [Hl Hz]. cbn in *. rewrite <- Hz, <- drop_drop, take_drop. by rewrite take_drop. Qed.

(** The run that is left out, as groups. *)
Lemma zero_groups gs : map group_val gs = replicate (List.length gs) 0 -> gs = replicate (List.length gs) (group_of 0).
Proof.
  induction gs as [|g gs IH]; intros E; [done|]. cbn in *. injection E as Eg E. rewrite <- (IH E).
  by rewrite <- (group_of_val g), Eg.
Qed.

Lemma groups_split gs st n :
  zero_run (map group_val gs) (st, n) ->
  gs = take st gs ++ replicate n (group_of 0) ++ drop (st + n) gs.
Proof.
  intros [Hl Hz]. cbn in *. rewrite length_map in Hl. rewrite skipn_map, firstn_map in Hz.
  assert (List.length (take n (drop st gs)) = n) as Hn by (rewrite length_take, length_drop; lia).
  pose proof (zero_groups (take n (drop st gs))) as H. rewrite Hn in H. rewrite <- (H Hz).
  by rewrite <- drop_drop, !take_drop.
Qed.

(** ** The addresses *)

Lemma ipv6_of_groups_id ip : ipv6_of_groups (groups ip) = Some ip.
Proof. by destruct ip. Qed.

Lemma read_given_char_eq c s : read_given_char c (c :: s) = Some s.
Proof. cbn. by rewrite bool_decide_eq_true_2. Qed.

(** An address with a run of zeros left out reads back. *)
Lemma read_ipv6_compressed ip st n :
  zero_run (segments ip) (st, n) -> (1 < n)%nat ->
  read_ipv6_addr (groups_text (take st (groups ip)) ++ colon :: colon :: groups_text (drop (st + n) (groups ip)))
  = Some (ip, []).
Proof.
  intros Hz Hn. set (tl := drop (st + n) (groups ip)).
  assert (Hl : (st + n <= 8)%nat) by (by destruct Hz as [Hl _]).
  assert (Hh : List.length (take st (groups ip)) = st) by (rewrite length_take; cbn; lia).
  assert (Ht : List.length tl = (8 - (st + n))%nat) by (unfold tl; rewrite length_drop; done).
  unfold read_ipv6_addr. rewrite read_groups_start; [|lia|right; by eexists|].
  2: { rewrite not_elem_of_app, !not_elem_of_cons. by repeat split; try apply groups_text_no_dot. }
  rewrite Hh. rewrite bool_decide_eq_false_2 by lia. rewrite !read_given_char_eq.
  rewrite <- (app_nil_r (groups_text tl)), read_groups_start; [|lia|by left|].
  2: { rewrite app_nil_r. apply groups_text_no_dot. }
  replace (8 - st - List.length tl)%nat with n by lia.
  unfold tl. by rewrite <- groups_split, ipv6_of_groups_id.
Qed.

Lemma read_ipv6_full ip : read_ipv6_addr (groups_text (groups ip)) = Some (ip, []).
Proof.
  unfold read_ipv6_addr. rewrite <- (app_nil_r (groups_text _)), read_groups_start; [|done|by left|].
  - rewrite bool_decide_eq_true_2 by done. by rewrite ipv6_of_groups_id.
  - rewrite app_nil_r. apply groups_text_no_dot.
Qed.

Lemma groups_mapped ip v4 :
  to_ipv4_mapped ip = Some v4 ->
  groups ip = replicate 5 (group_of 0) ++ [group_of 65535; (o0 v4, o1 v4); (o2 v4, o3 v4)].
Proof.
  unfold to_ipv4_mapped. case_bool_decide as E; [|done]. intros [= <-].
  destruct ip as [a b c d e f [g g'] [h h']]. unfold segments in E. cbn [groups map take g0 g1 g2 g3 g4 g5] in E.
  assert (Eg : forall x v, group_val x = v -> x = group_of v) by (by intros x v <-; rewrite group_of_val).
  injection E as Ea%Eg Eb%Eg Ec%Eg Ed%Eg Ee%Eg Ef%Eg. cbn [groups]. by subst.
Qed.

Lemma read_ipv6_mapped ip v4 :
  to_ipv4_mapped ip = Some v4 -> read_ipv6_addr (B "::ffff:" ++ display_ipv4 v4) = Some (ip, []).
Proof.
  intros Hm. pose proof (groups_mapped _ _ Hm) as Hg.
  assert (Hv : read_groups 6 1 (colon :: display_ipv4 v4)
               = ([(o0 v4, o1 v4); (o2 v4, o3 v4)], true, [])).
  { rewrite read_groups_SS. cbn [read_separator read_given_char]. rewrite bool_decide_eq_true_2 by done.
    by rewrite <- (app_nil_r (display_ipv4 v4)), read_ipv4_display by done. }
  assert (Hf : read_groups 7 0 (B "ffff" ++ colon :: display_ipv4 v4)
               = ([group_of 65535; (o0 v4, o1 v4); (o2 v4, o3 v4)], true, [])).
  { rewrite read_groups_SS. cbn [read_separator]. rewrite read_ipv4_none by done.
    by rewrite (read_number_app 16 4 true 65535 (B "ffff") 65535), Hv. }
  change (B "::ffff:" ++ display_ipv4 v4) with (colon :: colon :: B "ffff" ++ colon :: display_ipv4 v4).
  unfold read_ipv6_addr. rewrite read_groups_end by (right; by eexists).
  cbn [List.length]. rewrite bool_decide_eq_false_2 by lia. rewrite !read_given_char_eq.
  change (8 - (0 + 1))%nat with 7%nat. rewrite Hf. cbn [List.length Nat.sub app].
  by rewrite <- Hg, ipv6_of_groups_id.
Qed.

Lemma read_display_ipv6 ip : read_ipv6_addr (display_ipv6 ip) = Some (ip, []).
Proof.
  unfold display_ipv6. destruct (to_ipv4_mapped ip) eqn:Em; [by apply read_ipv6_mapped|].
  destruct (zero_span (segments ip) 0 (0, 0)%nat (0, 0)%nat) as [st n] eqn:Ez.
  case_bool_decide; [|apply read_ipv6_full].
  unfold segments. rewrite firstn_map, skipn_map. apply read_ipv6_compressed; [|done].
  rewrite <- Ez. assert (zero_run (segments ip) (0, 0)%nat) by (split; cbn; [lia|done]).
  apply zero_span_run; [done|done|by left|done].
Qed.

(** The text of an IPv6 address is no IPv4 address. *)
Lemma display_ipv6_not_ipv4 ip : read_ipv4_addr (display_ipv6 ip) = None.
Proof.
  unfold display_ipv6. destruct (to_ipv4_mapped ip); [by apply read_ipv4_none|].
  destruct (zero_span _ _ _ _) as [st n]. apply read_ipv4_no_dot.
  unfold segments. case_bool_decide.
  - rewrite firstn_map, skipn_map, !not_elem_of_app. repeat split; try apply groups_text_no_dot.
    intros Hin. cbn in Hin. set_solver.
  - apply groups_text_no_dot.
Qed.

(** The text of every IP address, IPv4 or IPv6 (the longest run of zeros left
    out, an embedded IPv4 address), parses back to the address. *)
Theorem parse_display_ip ip : parse_ipaddr (display_ip ip) = Some ip.
Proof.
  destruct ip as [v4|v6]; [apply parse_display_ipv4|]. cbn [display_ip].
  unfold parse_ipaddr, parse_with, read_ip_addr. by rewrite display_ipv6_not_ipv4, read_display_ipv6.
Qed.
