(* ===== verification/Protocol.v ===== *)
(** * Protocol: the protocol enumeration ([src/protocol.rs]). *)

From S2P Require Import Prelude Text.
Open Scope Z_scope.

(** [enum Protocol]. *)
Inductive Protocol : Type :=
| Http | Smtp | Tcp | PostgreSQL | MySQL | MongoDB | Redis
| Memcached | Kafka | AMQP | ClickHouse | Cassandra | NATS | MSSQL
| Oracle | Elasticsearch | MQTT | GRPC | ZooKeeper | Etcd | Neo4j
| Couchbase | CockroachDB | TiDB | Pulsar | FTP | LDAP | RethinkDB.

#[export] Instance Protocol_eq_dec : EqDecision Protocol.
Proof. solve_decision. Defined.

(** [Protocol::as_str]. *)
Definition as_str (p : Protocol) : bytes :=
  match p with
  | Http => B "http"
  | Smtp => B "smtp"
  | Tcp => B "tcp"
  | PostgreSQL => B "postgresql"
  | MySQL => B "mysql"
  | MongoDB => B "mongodb"
  | Redis => B "redis"
  | Memcached => B "memcached"
  | Kafka => B "kafka"
  | AMQP => B "amqp"
  | ClickHouse => B "clickhouse"
  | Cassandra => B "cassandra"
  | NATS => B "nats"
  | MSSQL => B "mssql"
  | Oracle => B "oracle"
  | Elasticsearch => B "elasticsearch"
  | MQTT => B "mqtt"
  | GRPC => B "grpc"
  | ZooKeeper => B "zookeeper"
  | Etcd => B "etcd"
  | Neo4j => B "neo4j"
  | Couchbase => B "couchbase"
  | CockroachDB => B "cockroachdb"
  | TiDB => B "tidb"
  | Pulsar => B "pulsar"
  | FTP => B "ftp"
  | LDAP => B "ldap"
  | RethinkDB => B "rethinkdb"
  end.

(** [Display for Protocol]. *)
Definition display_protocol (p : Protocol) : bytes := as_str p.

(** [Protocol::from_port], a [u16] argument. *)
Definition from_port (port : Z) : Protocol :=
  if port =? 5432 then PostgreSQL
  else if port =? 3306 then MySQL
  else if port =? 27017 then MongoDB
  else if port =? 6379 then Redis
  else if port =? 11211 then Memcached
  else if port =? 9092 then Kafka
  else if port =? 5672 then AMQP
  else if port =? 9000 then ClickHouse
  else if port =? 9042 then Cassandra
  else if port =? 4222 then NATS
  else if port =? 1433 then MSSQL
  else if port =? 1521 then Oracle
  else if port =? 9200 then Elasticsearch
  else if port =? 1883 then MQTT
  else if port =? 50051 then GRPC
  else if port =? 2181 then ZooKeeper
  else if port =? 2379 then Etcd
  else if port =? 7687 then Neo4j
  else if port =? 11210 then Couchbase
  else if port =? 26257 then CockroachDB
  else if port =? 4000 then TiDB
  else if port =? 6650 then Pulsar
  else if port =? 21 then FTP
  else if port =? 389 then LDAP
  else if port =? 28015 then RethinkDB
  else Tcp.

(** [struct ProtocolParseError(String)]. *)
Record ProtocolParseError : Type := mkProtocolParseError { unknown_name : bytes }.

(** [<Protocol as FromStr>::from_str]. *)
Definition from_str (s : bytes) : result ProtocolParseError Protocol :=
  if bool_decide (s = B "http") then Ok Http
  else if bool_decide (s = B "smtp") then Ok Smtp
  else if bool_decide (s = B "tcp") then Ok Tcp
  else if bool_decide (s = B "postgresql") then Ok PostgreSQL
  else if bool_decide (s = B "mysql") then Ok MySQL
  else if bool_decide (s = B "mongodb") then Ok MongoDB
  else if bool_decide (s = B "redis") then Ok Redis
  else if bool_decide (s = B "memcached") then Ok Memcached
  else if bool_decide (s = B "kafka") then Ok Kafka
  else if bool_decide (s = B "amqp") then Ok AMQP
  else if bool_decide (s = B "clickhouse") then Ok ClickHouse
  else if bool_decide (s = B "cassandra") then Ok Cassandra
  else if bool_decide (s = B "nats") then Ok NATS
  else if bool_decide (s = B "mssql") then Ok MSSQL
  else if bool_decide (s = B "oracle") then Ok Oracle
  else if bool_decide (s = B "elasticsearch") then Ok Elasticsearch
  else if bool_decide (s = B "mqtt") then Ok MQTT
  else if bool_decide (s = B "grpc") then Ok GRPC
  else if bool_decide (s = B "zookeeper") then Ok ZooKeeper
  else if bool_decide (s = B "etcd") then Ok Etcd
  else if bool_decide (s = B "neo4j") then Ok Neo4j
  else if bool_decide (s = B "couchbase") then Ok Couchbase
  else if bool_decide (s = B "cockroachdb") then Ok CockroachDB
  else if bool_decide (s = B "tidb") then Ok TiDB
  else if bool_decide (s = B "pulsar") then Ok Pulsar
  else if bool_decide (s = B "ftp") then Ok FTP
  else if bool_decide (s = B "ldap") then Ok LDAP
  else if bool_decide (s = B "rethinkdb") then Ok RethinkDB
  else Err (mkProtocolParseError s).

(** Every protocol, in declaration order. *)
Definition all_protocols : list Protocol :=
  [Http; Smtp; Tcp; PostgreSQL; MySQL; MongoDB; Redis; Memcached; Kafka; AMQP; ClickHouse; Cassandra; NATS; MSSQL; Oracle; Elasticsearch; MQTT; GRPC; ZooKeeper; Etcd; Neo4j; Couchbase; CockroachDB; TiDB; Pulsar; FTP; LDAP; RethinkDB].

(** The port [from_port] maps to a protocol, if any. *)
Definition port_of (p : Protocol) : option Z :=
  match p with
  | Http | Smtp | Tcp => None
  | PostgreSQL => Some 5432
  | MySQL => Some 3306
  | MongoDB => Some 27017
  | Redis => Some 6379
  | Memcached => Some 11211
  | Kafka => Some 9092
  | AMQP => Some 5672
  | ClickHouse => Some 9000
  | Cassandra => Some 9042
  | NATS => Some 4222
  | MSSQL => Some 1433
  | Oracle => Some 1521
  | Elasticsearch => Some 9200
  | MQTT => Some 1883
  | GRPC => Some 50051
  | ZooKeeper => Some 2181
  | Etcd => Some 2379
  | Neo4j => Some 7687
  | Couchbase => Some 11210
  | CockroachDB => Some 26257
  | TiDB => Some 4000
  | Pulsar => Some 6650
  | FTP => Some 21
  | LDAP => Some 389
  | RethinkDB => Some 28015
  end.

(** ** Properties *)

Lemma all_protocols_complete p : p ∈ all_protocols.
Proof. destruct p; unfold all_protocols; set_solver. Qed.

(** Case analysis along the tests of a table lookup. *)
Ltac table_cases :=
  repeat match goal with
  | |- context [if ?b then _ else _] => destruct b eqn:?
  end; bool_to_prop.

Lemma from_str_as_str p : from_str (as_str p) = Ok p.
Proof. by destruct p. Qed.

Lemma from_str_ok s p : from_str s = Ok p -> as_str p = s.
Proof. unfold from_str. table_cases; intros [= <-]; by subst. Qed.

Lemma from_str_err s e : from_str s = Err e -> unknown_name e = s.
Proof. unfold from_str. table_cases; by intros [= <-]. Qed.

(** The names and the parser of [Protocol] are inverse to each other:
    [from_str] accepts exactly the 28 names and gives back the variant whose
    [Display] is the input; on any other input it fails with that input in the
    error. *)
Theorem protocol_names_roundtrip s :
  match from_str s with
  | Ok p => display_protocol p = s
  | Err e => unknown_name e = s /\ forall p, display_protocol p <> s
  end.
Proof.
  destruct (from_str s) as [p|e] eqn:E; [by apply from_str_ok|].
  split; [by apply from_str_err|]. intros p <-. by rewrite from_str_as_str in E.
Qed.

(** [from_port] is the table of well-known ports and nothing else: a port
    is mapped to a protocol other than the generic [Tcp] exactly when it is
    that protocol's registered port, so no two ports share a protocol and no
    port is ever mapped to [Http] or [Smtp]. *)
Theorem from_port_table port p :
  p <> Tcp -> from_port port = p <-> port_of p = Some port.
Proof.
  intros Hp. split.
  - intros <-. revert Hp. unfold from_port. table_cases; intros Hp; subst; try done.
  - intros H. destruct p; cbn in H; simplify_eq; reflexivity.
Qed.

Lemma from_port_table_witness :
  PostgreSQL <> Tcp /\ (from_port 5432 = PostgreSQL <-> port_of PostgreSQL = Some 5432).
Proof. split; [discriminate|apply (from_port_table 5432 PostgreSQL); discriminate]. Defined.
