(* ===== verification/World.v ===== *)
(** * World: the environment of the proxy and the monad its code runs in.

    Everything the source calls outside of itself (sockets, the clock, DNS,
    user-supplied resolvers and callbacks) is an oracle of the class [Env]: its
    answer is an arbitrary function of the whole history of I/O events so far.
    A theorem quantified over [Env] therefore covers every behaviour of peers,
    backends and kernel.  Stateful, fallible, asynchronous code is a value of
    [M S E A]: it maps the component's state and the history to a result (the
    [?] operator short-circuits on [Err]), the new state and the new history. *)

From S2P Require Import Prelude Text Net Protocol Resolver.
Open Scope Z_scope.

(** A socket, named by its raw file descriptor. *)
Abbreviation sock := Z (only parsing).

(** [tokio::time::timeout(d, op).await]: the operation's own result, or the
    timer fired first. *)
Inductive outcome (A : Type) : Type :=
| Done (r : result io_error A)
| Elapsed.
Arguments Done {A} r.
Arguments Elapsed {A}.

(** HTTP messages as hyper shows them: header names in lower case, in the order
    of the header map's iteration. *)
Abbreviation headers := (list (bytes * bytes)).
Record http_request : Type := mkHttpRequest {
  rq_method : bytes;
  rq_path_and_query : option bytes;
  rq_headers : headers }.
Record http_response : Type := mkHttpResponse {
  rs_status : Z;
  rs_headers : headers;
  rs_body : bytes }.

(** Calls on sockets made through [socket2] and [tokio::net]; [ListenOn] is
    [TcpListener::bind]. *)
Inductive socket_call : Type :=
| SocketNew (ipv6 : bool)
| SetNonblocking (s : sock)
| SetReuseAddress (s : sock)
| SetReusePort (s : sock)
| Bind (s : sock) (addr : IpAddr * Z)
| Listen (s : sock) (backlog : Z)
| ListenerFromStd (s : sock)
| ListenOn (host : bytes) (port : Z)
| Accept (s : sock)
| SetNodelay (s : sock)
| SetRecvBufferSize (s : sock) (size : Z)
| SetSendBufferSize (s : sock) (size : Z)
| SetTcpKeepalive (s : sock) (time interval retries : Z).

(** What the process did, and what it got back. *)
Inductive event : Type :=
| EvCallback (data : bytes) (r : option (result ResolverError ResolverResult))
| EvResolve (data : bytes) (r : result ResolverError ResolverResult)
| EvLookup (host : bytes) (r : outcome (list IpAddr))
| EvClock (t : Z)
| EvConnect (host : bytes) (port : Z) (r : outcome sock)
| EvNodelay (s : sock) (r : result io_error unit)
| EvSockopt (s : sock) (level name value : Z)
| EvWrite (s : sock) (data : bytes) (r : outcome unit)
| EvFlush (s : sock) (r : outcome unit)
| EvReadable (s : sock) (r : result io_error unit)
| EvRead (s : sock) (max : nat) (r : outcome bytes)
| EvReadLine (s : sock) (r : result io_error bytes)
| EvTlsAccept (s : sock) (r : result io_error unit)
| EvSelect (client_ready : bool)
| EvCopy (client backend : sock)
| EvCall (c : socket_call) (r : result io_error Z)
| EvSleep (d : Z)
| EvHttpHandshake (s : sock) (r : result io_error unit)
| EvHttpSend (s : sock) (rq : http_request) (body : bytes) (r : outcome (Z * headers))
| EvHttpRequestBody (r : outcome bytes)
| EvHttpResponseBody (s : sock) (r : outcome bytes)
| EvHttpRequest (s : sock) (rq : option http_request)
| EvHttpReply (s : sock) (rs : http_response)
| EvClose (s : sock).

(** The history, newest event first. *)
Abbreviation trace := (list event).

(** An operation awaited without a timeout: an oracle that lets it elapse counts
    as one that fails it. *)
Definition settle {A} (r : outcome A) : result io_error A :=
  match r with
  | Done r => r
  | Elapsed => Err (mkIoError TimedOut [])
  end.

Class Env : Type := {
  (** monotonic clock, in nanoseconds *)
  env_now : trace -> Z;
  (** [hickory_resolver]: initialisation, and [lookup_ip] under a timeout *)
  env_dns_init : result bytes unit;
  env_lookup : trace -> bytes -> Z -> outcome (list IpAddr);
  (** [TcpStream::connect] under a timeout: the new socket's descriptor *)
  env_connect : trace -> bytes -> Z -> Z -> outcome sock;
  (** the new descriptor for [SocketNew], [Accept] and [ListenOn], 0 otherwise *)
  env_call : trace -> socket_call -> result io_error Z;
  env_nodelay : trace -> sock -> result io_error unit;
  (** [write_all], [flush], [read] (at most that many bytes) *)
  env_write : trace -> sock -> bytes -> outcome unit;
  env_flush : trace -> sock -> outcome unit;
  env_readable : trace -> sock -> result io_error unit;
  env_read : trace -> sock -> nat -> outcome bytes;
  (** [BufReader::read_until(b'\n')] on a client socket *)
  env_read_line : trace -> sock -> result io_error bytes;
  (** [TlsAcceptor::accept] *)
  env_tls_accept : trace -> sock -> result io_error unit;
  (** [tokio::select!] between a readable client (true) and backend (false) *)
  env_select : trace -> bool;
  (** hyper's client connections: the handshake, whether the sender is ready,
      sending a request (status and headers of the reply), and collecting the
      body of the client's request and of a reply *)
  env_http_handshake : trace -> sock -> result io_error unit;
  env_http_ready : trace -> sock -> bool;
  env_http_send : trace -> sock -> http_request -> bytes -> outcome (Z * headers);
  env_http_request_body : trace -> outcome bytes;
  env_http_response_body : trace -> sock -> outcome bytes;
  (** the addresses [getsockname] and [getpeername] write; [None] on failure *)
  env_getsockname : trace -> sock -> option bytes;
  env_getpeername : trace -> sock -> option bytes }.

(** The part of the file system the proxy reads. *)
Class FileSystem : Type := {
  is_file : bytes -> bool;
  (** [File::open] and reading it to the end; the error is its text *)
  read_file : bytes -> result bytes bytes }.

(** ** The monad *)

Definition M (S E A : Type) : Type := S -> trace -> result E A * S * trace.

Definition ret {S E A} (a : A) : M S E A := fun s t => (Ok a, s, t).
Definition fail {S E A} (e : E) : M S E A := fun s t => (Err e, s, t).

Definition bind {S E A C} (m : M S E A) (f : A -> M S E C) : M S E C :=
  fun s t => match m s t with
             | (Ok a, s', t') => f a s' t'
             | (Err e, s', t') => (Err e, s', t')
             end.

Notation "x <- m ;; k" := (bind m (fun x => k))
  (at level 100, m at next level, k at level 200, right associativity) : proxy_scope.
Notation "' p <- m ;; k" := (bind m (fun x => match x with p => k end))
  (at level 100, p pattern, m at next level, k at level 200, right associativity) : proxy_scope.
Notation "m ;; k" := (bind m (fun _ => k))
  (at level 100, k at level 200, right associativity) : proxy_scope.

Definition get {S E} : M S E S := fun s t => (Ok s, s, t).
Definition put {S E} (s : S) : M S E unit := fun _ t => (Ok tt, s, t).
Definition modify {S E} (f : S -> S) : M S E unit := fun s t => (Ok tt, f s, t).
(** Lifts a pure fallible result ([?] on a [Result]). *)
Definition lift {S E A} (r : result E A) : M S E A := fun s t => (r, s, t).

(** Reifies the outcome, for [match call().await { Ok .. Err .. }]. *)
Definition attempt {S E F A} (m : M S E A) : M S F (result E A) :=
  fun s t => let '(r, s', t') := m s t in (Ok r, s', t').

(** [map_err]. *)
Definition with_err {S E F A} (f : E -> F) (m : M S E A) : M S F A :=
  fun s t => let '(r, s', t') := m s t in (map_err f r, s', t').

(** Runs an operation of a component inside the state of its owner. *)
Definition zoom {S X E A} (getx : S -> X) (setx : X -> S -> S) (m : M X E A) : M S E A :=
  fun s t => let '(r, x', t') := m (getx s) t in (r, setx x' s, t').

(** ** I/O operations: each one asks the oracle and records the answer. *)
Section Operations.
Context `{Env} {S E : Type}.

Definition io_event {A} (f : trace -> A) (ev : A -> event) : M S E A :=
  fun s t => let a := f t in (Ok a, s, ev a :: t).

Definition io_clock : M S E Z := io_event env_now EvClock.
Definition io_lookup (host : bytes) (limit : Z) : M S E (outcome (list IpAddr)) :=
  io_event (fun t => env_lookup t host limit) (EvLookup host).
Definition io_connect (host : bytes) (port limit : Z) : M S E (outcome sock) :=
  io_event (fun t => env_connect t host port limit) (EvConnect host port).
Definition io_nodelay (s : sock) : M S E (result io_error unit) :=
  io_event (fun t => env_nodelay t s) (EvNodelay s).
Definition io_sockopt (s : sock) (level name value : Z) : M S E unit :=
  io_event (fun _ => tt) (fun _ => EvSockopt s level name value).
Definition io_write (s : sock) (data : bytes) : M S E (outcome unit) :=
  io_event (fun t => env_write t s data) (EvWrite s data).
Definition io_flush (s : sock) : M S E (outcome unit) :=
  io_event (fun t => env_flush t s) (EvFlush s).
Definition io_readable (s : sock) : M S E (result io_error unit) :=
  io_event (fun t => env_readable t s) (EvReadable s).
Definition io_read (s : sock) (max : nat) : M S E (outcome bytes) :=
  io_event (fun t => env_read t s max) (EvRead s max).
Definition io_read_line (s : sock) : M S E (result io_error bytes) :=
  io_event (fun t => env_read_line t s) (EvReadLine s).
Definition io_tls_accept (s : sock) : M S E (result io_error unit) :=
  io_event (fun t => env_tls_accept t s) (EvTlsAccept s).
Definition io_select : M S E bool := io_event env_select EvSelect.
(** [tokio::io::copy_bidirectional] until both sides are done. *)
Definition io_copy_bidirectional (client backend : sock) : M S E unit :=
  io_event (fun _ => tt) (fun _ => EvCopy client backend).
Definition io_call (c : socket_call) : M S E (result io_error Z) :=
  io_event (fun t => env_call t c) (EvCall c).
Definition io_sleep (d : Z) : M S E unit := io_event (fun _ => tt) (fun _ => EvSleep d).
Definition io_http_handshake (s : sock) : M S E (result io_error unit) :=
  io_event (fun t => env_http_handshake t s) (EvHttpHandshake s).
Definition io_http_send (s : sock) (rq : http_request) (body : bytes)
  : M S E (outcome (Z * headers)) :=
  io_event (fun t => env_http_send t s rq body) (EvHttpSend s rq body).
Definition io_http_request_body : M S E (outcome bytes) :=
  io_event env_http_request_body EvHttpRequestBody.
Definition io_http_response_body (s : sock) : M S E (outcome bytes) :=
  io_event (fun t => env_http_response_body t s) (EvHttpResponseBody s).
Definition io_close (s : sock) : M S E unit :=
  io_event (fun _ => tt) (fun _ => EvClose s).
End Operations.

(** ** Reasoning

    [wp m Q s t]: running [m] from [s] and [t] ends in [Q].  The equations
    below are the rewriting rules of [wp]; [wp_step] applies them. *)

Definition wp {S E A} (m : M S E A) (Q : result E A -> S -> trace -> Prop)
    (s : S) (t : trace) : Prop :=
  let '(r, s', t') := m s t in Q r s' t'.

Section Wp.
Context {S E : Type}.
Implicit Types (s : S) (t : trace).

Lemma wp_mono {A} (m : M S E A) (Q R : result E A -> S -> trace -> Prop) s t :
  wp m Q s t -> (forall r s' t', Q r s' t' -> R r s' t') -> wp m R s t.
Proof. unfold wp. destruct (m s t) as [[r s'] t']. auto. Qed.

Lemma wp_bind {A C} (m : M S E A) (f : A -> M S E C) Q s t :
  wp m (fun r s' t' => match r with
                       | Ok a => wp (f a) Q s' t'
                       | Err e => Q (Err e) s' t'
                       end) s t ->
  wp (bind m f) Q s t.
Proof. unfold wp, bind. destruct (m s t) as [[[a|e] s'] t']; auto. Qed.

Lemma wp_ret {A} (a : A) (Q : result E A -> S -> trace -> Prop) s t :
  Q (Ok a) s t -> wp (ret a) Q s t.
Proof. done. Qed.
Lemma wp_fail {A} (e : E) (Q : result E A -> S -> trace -> Prop) s t :
  Q (Err e) s t -> wp (fail e) Q s t.
Proof. done. Qed.
Lemma wp_lift {A} (r : result E A) Q s t : Q r s t -> wp (lift r) Q s t.
Proof. done. Qed.
Lemma wp_get (Q : result E S -> S -> trace -> Prop) s t : Q (Ok s) s t -> wp get Q s t.
Proof. done. Qed.
Lemma wp_put s0 (Q : result E unit -> S -> trace -> Prop) s t :
  Q (Ok tt) s0 t -> wp (put s0) Q s t.
Proof. done. Qed.
Lemma wp_modify f (Q : result E unit -> S -> trace -> Prop) s t :
  Q (Ok tt) (f s) t -> wp (modify f) Q s t.
Proof. done. Qed.
Lemma wp_attempt {F A} (m : M S F A) (Q : result E (result F A) -> S -> trace -> Prop) s t :
  wp m (fun r s' t' => Q (Ok r) s' t') s t -> wp (attempt m) Q s t.
Proof. unfold wp, attempt. by destruct (m s t) as [[r s'] t']. Qed.
Lemma wp_with_err {F A} (f : F -> E) (m : M S F A) Q s t :
  wp m (fun r s' t' => Q (map_err f r) s' t') s t -> wp (with_err f m) Q s t.
Proof. unfold wp, with_err. by destruct (m s t) as [[r s'] t']. Qed.
Lemma wp_zoom {X A} (g : S -> X) (p : X -> S -> S) (m : M X E A) Q s t :
  wp m (fun r x' t' => Q r (p x' s) t') (g s) t -> wp (zoom g p m) Q s t.
Proof. unfold wp, zoom. by destruct (m (g s) t) as [[r x'] t']. Qed.
Lemma wp_io {A} `{Env} (f : trace -> A) ev (Q : result E A -> S -> trace -> Prop) s t :
  Q (Ok (f t)) s (ev (f t) :: t) -> wp (io_event f ev) Q s t.
Proof. done. Qed.

(** [wp] speaks about the run itself. *)
Lemma wp_run {A} (m : M S E A) Q s t r s' t' :
  wp m Q s t -> m s t = (r, s', t') -> Q r s' t'.
Proof. unfold wp. intros H E0. by rewrite E0 in H. Qed.
End Wp.

#[export] Hint Resolve wp_ret wp_fail wp_lift wp_get wp_put wp_modify wp_io : proxy.

(** One symbolic execution step: peels a [bind], a primitive or a [match]. *)
Ltac wp_step :=
  lazymatch goal with
  | |- wp (bind _ _) _ _ _ => apply wp_bind
  | |- wp (ret _) _ _ _ => apply wp_ret
  | |- wp (fail _) _ _ _ => apply wp_fail
  | |- wp (lift _) _ _ _ => apply wp_lift
  | |- wp get _ _ _ => apply wp_get
  | |- wp (put _) _ _ _ => apply wp_put
  | |- wp (modify _) _ _ _ => apply wp_modify
  | |- wp (attempt _) _ _ _ => apply wp_attempt
  | |- wp (with_err _ _) _ _ _ => apply wp_with_err
  | |- wp (zoom _ _ _) _ _ _ => apply wp_zoom
  | |- wp (io_event _ _) _ _ _ => apply wp_io
  | |- wp io_clock _ _ _ => apply wp_io
  | |- wp (io_lookup _ _) _ _ _ => apply wp_io
  | |- wp (io_connect _ _ _) _ _ _ => apply wp_io
  | |- wp (io_nodelay _) _ _ _ => apply wp_io
  | |- wp (io_sockopt _ _ _ _) _ _ _ => apply wp_io
  | |- wp (io_write _ _) _ _ _ => apply wp_io
  | |- wp (io_flush _) _ _ _ => apply wp_io
  | |- wp (io_readable _) _ _ _ => apply wp_io
  | |- wp (io_copy_bidirectional _ _) _ _ _ => apply wp_io
  | |- wp (io_read _ _) _ _ _ => apply wp_io
  | |- wp (io_read_line _) _ _ _ => apply wp_io
  | |- wp (io_tls_accept _) _ _ _ => apply wp_io
  | |- wp io_select _ _ _ => apply wp_io
  | |- wp (io_close _) _ _ _ => apply wp_io
  | |- wp (io_call _) _ _ _ => apply wp_io
  | |- wp (io_sleep _) _ _ _ => apply wp_io
  | |- wp (io_http_handshake _) _ _ _ => apply wp_io
  | |- wp (io_http_send _ _ _) _ _ _ => apply wp_io
  | |- wp io_http_request_body _ _ _ => apply wp_io
  | |- wp (io_http_response_body _) _ _ _ => apply wp_io
  | |- wp (match ?x with _ => _ end) _ _ _ => let E := fresh "E" in destruct x eqn:E
  | |- wp (let _ := _ in _) _ _ _ => cbv zeta
  end; cbn beta iota.
Ltac wp_steps := repeat wp_step.

(** ** What a program may do

    [emits P m]: whatever happens, [m] only extends the history, by events that
    satisfy [P]. *)

Definition extends (P : event -> Prop) (t t' : trace) : Prop :=
  exists l, t' = l ++ t /\ Forall P l.

Definition emits {S E A} (P : event -> Prop) (m : M S E A) : Prop :=
  forall s t, extends P t (m s t).2.

#[export] Instance extends_preorder P : PreOrder (extends P).
Proof.
  split.
  - intros t. by exists [].
  - intros t1 t2 t3 (l1 & -> & H1) (l2 & -> & H2). exists (l2 ++ l1).
    split; [by rewrite app_assoc|by apply Forall_app].
Qed.

Lemma extends_cons (P : event -> Prop) ev t : P ev -> extends P t (ev :: t).
Proof. intros HP. exists [ev]. split; [done|by constructor]. Qed.

Lemma extends_suffix (P : event -> Prop) t t' : extends P t t' -> t `suffix_of` t'.
Proof. intros (l & -> & _). by exists l. Qed.
Lemma extends_mono (P Q : event -> Prop) t t' :
  (forall ev, P ev -> Q ev) -> extends P t t' -> extends Q t t'.
Proof. intros HPQ (l & -> & Hl). exists l. split; [done|]. by eapply Forall_impl. Qed.

Lemma extends_forall (P : event -> Prop) t t' : extends P t t' -> Forall P t -> Forall P t'.
Proof. intros (l & -> & Hl) Ht. by apply Forall_app. Qed.

Section Emits.
Context {S E : Type} (P : event -> Prop).

Lemma emits_ret {A} (a : A) : emits P (S := S) (E := E) (ret a).
Proof. intros s t. reflexivity. Qed.
Lemma emits_fail {A} (e : E) : emits P (fail (S := S) (A := A) e).
Proof. intros s t. reflexivity. Qed.
Lemma emits_lift {A} (r : result E A) : emits P (S := S) (lift r).
Proof. intros s t. reflexivity. Qed.
Lemma emits_get : emits P (get (S := S) (E := E)).
Proof. intros s t. reflexivity. Qed.
Lemma emits_put s0 : emits P (put (S := S) (E := E) s0).
Proof. intros s t. reflexivity. Qed.
Lemma emits_modify f : emits P (modify (S := S) (E := E) f).
Proof. intros s t. reflexivity. Qed.
Lemma emits_io {A} (f : trace -> A) ev :
  (forall a, P (ev a)) -> emits P (io_event (S := S) (E := E) f ev).
Proof. intros HP s t. apply extends_cons, HP. Qed.

Lemma emits_bind {A C} (m : M S E A) (f : A -> M S E C) :
  emits P m -> (forall a, emits P (f a)) -> emits P (bind m f).
Proof.
  intros Hm Hf s t. unfold bind. specialize (Hm s t).
  destruct (m s t) as [[[a|e] s'] t']; [|done]. etrans; [exact Hm|apply Hf].
Qed.

Lemma emits_attempt {F A} (m : M S F A) : emits P m -> emits P (attempt (F := E) m).
Proof. intros Hm s t. specialize (Hm s t). unfold attempt. by destruct (m s t) as [[r s'] t']. Qed.
Lemma emits_with_err {F A} (f : F -> E) (m : M S F A) : emits P m -> emits P (with_err f m).
Proof. intros Hm s t. specialize (Hm s t). unfold with_err. by destruct (m s t) as [[r s'] t']. Qed.
Lemma emits_zoom {X A} (g : S -> X) (p : X -> S -> S) (m : M X E A) :
  emits P m -> emits P (zoom g p m).
Proof. intros Hm s t. specialize (Hm (g s) t). unfold zoom. by destruct (m (g s) t) as [[r s'] t']. Qed.

Lemma emits_mono {A} (Q : event -> Prop) (m : M S E A) :
  (forall ev, Q ev -> P ev) -> emits Q m -> emits P m.
Proof. intros HQ Hm s t. by eapply extends_mono, Hm. Qed.

(** Adds the events of a run to what is known of it. *)
Lemma wp_emits {A} (m : M S E A) Q s t :
  emits P m -> wp m Q s t -> wp m (fun r s' t' => Q r s' t' /\ extends P t t') s t.
Proof. intros Hm. specialize (Hm s t). unfold wp. by destruct (m s t) as [[r s'] t']. Qed.

Lemma emits_wp {A} (m : M S E A) s t : emits P m -> wp m (fun _ _ t' => extends P t t') s t.
Proof. intros Hm. specialize (Hm s t). unfold wp. by destruct (m s t) as [[r s'] t']. Qed.
End Emits.

#[export] Hint Resolve emits_ret emits_fail emits_lift emits_get emits_put emits_modify : proxy.

(** Proves [emits] goals by the shape of the program, up to the events. *)
Ltac emits_step :=
  lazymatch goal with
  | |- emits _ (bind _ _) => apply emits_bind; [|intros ?]
  | |- emits _ (attempt _) => apply emits_attempt
  | |- emits _ (with_err _ _) => apply emits_with_err
  | |- emits _ (zoom _ _ _) => apply emits_zoom
  | |- emits _ (match ?x with _ => _ end) => destruct x
  | |- emits _ (let _ := _ in _) => cbv zeta
  | |- emits _ _ => first [solve [auto with proxy nocore] | apply emits_io; intros ?]
  end.
Ltac emits_steps := repeat emits_step.

(** [inert P m]: [m] leaves the state alone and extends the history by events
    that satisfy [P]. *)
Definition inert {S E A} (P : event -> Prop) (m : M S E A) : Prop :=
  forall s t, (m s t).1.2 = s /\ extends P t (m s t).2.

Section Inert.
Context {S E : Type} (P : event -> Prop).

Lemma inert_ret {A} (a : A) : inert P (S := S) (E := E) (ret a).
Proof. by split. Qed.
Lemma inert_fail {A} (e : E) : inert P (fail (S := S) (A := A) e).
Proof. by split. Qed.
Lemma inert_lift {A} (r : result E A) : inert P (S := S) (lift r).
Proof. by split. Qed.
Lemma inert_get : inert P (get (S := S) (E := E)).
Proof. by split. Qed.
Lemma inert_io {A} (f : trace -> A) ev :
  (forall a, P (ev a)) -> inert P (io_event (S := S) (E := E) f ev).
Proof. intros HP s t. split; [done|]. apply extends_cons, HP. Qed.

Lemma inert_bind {A C} (m : M S E A) (f : A -> M S E C) :
  inert P m -> (forall a, inert P (f a)) -> inert P (bind m f).
Proof.
  intros Hm Hf s t. unfold bind. specialize (Hm s t).
  destruct (m s t) as [[[a|e] s'] t']; cbn in Hm; [|done]. destruct Hm as [-> Hm].
  split; [apply Hf|]. etrans; [exact Hm|apply Hf].
Qed.

Lemma inert_attempt {F A} (m : M S F A) : inert P m -> inert P (attempt (F := E) m).
Proof. intros Hm s t. specialize (Hm s t). unfold attempt. by destruct (m s t) as [[r s'] t']. Qed.

Lemma wp_inert {A} (m : M S E A) (Q : result E A -> S -> trace -> Prop) s t :
  inert P m -> (forall r l, Forall P l -> Q r s (l ++ t)) -> wp m Q s t.
Proof.
  intros Hm HQ. specialize (Hm s t). unfold wp. destruct (m s t) as [[r s'] t'].
  destruct Hm as [Hs (l & Ht & Hl)]. cbn in Hs, Ht. subst. by apply HQ.
Qed.

Lemma inert_emits {A} (Q : event -> Prop) (m : M S E A) :
  (forall ev, P ev -> Q ev) -> inert P m -> emits Q m.
Proof. intros HQ Hm s t. destruct (Hm s t) as [_ He]. by eapply extends_mono. Qed.
End Inert.

#[export] Hint Resolve inert_ret inert_fail inert_lift inert_get : proxy.

Ltac inert_step :=
  lazymatch goal with
  | |- inert _ (bind _ _) => apply inert_bind; [|intros ?]
  | |- inert _ (attempt _) => apply inert_attempt
  | |- inert _ (match ?x with _ => _ end) => destruct x
  | |- inert _ (let _ := _ in _) => cbv zeta
  | |- inert _ _ => first [solve [auto with proxy nocore] | apply inert_io; intros ?]
  end.
Ltac inert_steps := repeat inert_step.

(** [maintains I m]: [m] keeps the invariant [I] of state and history, however
    it ends. *)
Definition maintains {S E A} (I : S -> trace -> Prop) (m : M S E A) : Prop :=
  forall s t, I s t -> wp m (fun _ s' t' => I s' t') s t.

Section Maintains.
Context {S E : Type} (I : S -> trace -> Prop).

Lemma maintains_bind {A C} (m : M S E A) (f : A -> M S E C) :
  maintains I m -> (forall a, maintains I (f a)) -> maintains I (bind m f).
Proof.
  intros Hm Hf s t Hi. apply wp_bind. eapply wp_mono; [by apply Hm|].
  intros [a|e] s' t' Hi'; [by apply Hf|done].
Qed.
Lemma maintains_attempt {F A} (m : M S F A) : maintains I m -> maintains I (attempt (F := E) m).
Proof. intros Hm s t Hi. by apply wp_attempt, Hm. Qed.
(** A program that leaves the state alone keeps what its events keep. *)
Lemma maintains_inert {A} (P : event -> Prop) (m : M S E A) :
  (forall s t ev, I s t -> P ev -> I s (ev :: t)) -> inert P m -> maintains I m.
Proof.
  intros HI Hm s t Hi. eapply wp_inert; [done|]. intros r l Hl.
  induction Hl as [|ev l Hev _ IH]; [done|]. by apply HI.
Qed.
End Maintains.

Lemma maintains_with_err {S E F A} I (f : E -> F) (m : M S E A) :
  maintains I m -> maintains I (with_err f m).
Proof. intros Hm s t Hi. apply wp_with_err. by apply Hm. Qed.

Ltac maintains_step :=
  lazymatch goal with
  | |- maintains _ (bind _ _) => apply maintains_bind; [|intros ?]
  | |- maintains _ (attempt _) => apply maintains_attempt
  | |- maintains _ (with_err _ _) => apply maintains_with_err
  | |- maintains _ (match ?x with _ => _ end) => destruct x
  | |- maintains _ (let _ := _ in _) => cbv zeta
  end.

(** ** What went over a socket

    The bytes read from it, and the bytes given to [write_all] on it, in
    chronological order; the lines read from clients. *)
Fixpoint received (s : sock) (t : trace) : bytes :=
  match t with
  | [] => []
  | EvRead s' _ (Done (Ok data)) :: t' => received s t' ++ (if s' =? s then data else [])
  | _ :: t' => received s t'
  end.
Fixpoint sent (s : sock) (t : trace) : bytes :=
  match t with
  | [] => []
  | EvWrite s' data _ :: t' => sent s t' ++ (if s' =? s then data else [])
  | _ :: t' => sent s t'
  end.

Fixpoint lines_read (t : trace) : list bytes :=
  match t with
  | [] => []
  | EvReadLine _ (Ok (b :: line)) :: t' => lines_read t' ++ [b :: line]
  | _ :: t' => lines_read t'
  end.

Lemma received_app s l t : received s (l ++ t) = received s t ++ received s l.
Proof.
  induction l as [|ev l IH]; cbn; [by rewrite app_nil_r|].
  destruct ev; try done.
  match goal with r : outcome bytes |- _ => destruct r as [[d|]|] end; try done.
  by rewrite IH, app_assoc.
Qed.
Lemma sent_app s l t : sent s (l ++ t) = sent s t ++ sent s l.
Proof.
  induction l as [|ev l IH]; cbn; [by rewrite app_nil_r|].
  destruct ev; try done. by rewrite IH, app_assoc.
Qed.

Lemma lines_read_app l t : lines_read (l ++ t) = lines_read t ++ lines_read l.
Proof.
  induction l as [|ev l IH]; cbn; [by rewrite app_nil_r|].
  destruct ev as [| | | | | | | | | | |? [[|b line]|]| | | | | | | | | | | |]; try done.
  by rewrite IH, app_assoc.
Qed.

Lemma settle_ok {A} (r : outcome A) a : settle r = Ok a -> r = Done (Ok a).
Proof. destruct r as [[?|?]|]; naive_solver. Qed.

(** A read that ends a stream carries no bytes. *)
Lemma received_end s from max r :
  settle r = Ok [] \/ (exists e, settle r = Err e) -> forall l,
  received s (EvRead from max r :: l) = received s l.
Proof.
  intros Hr l. destruct r as [[d|e]|]; try done. destruct Hr as [[= ->]|[e [=]]].
  cbn. case_match; apply app_nil_r.
Qed.

(** Events that carry no bytes. *)
Definition no_data (ev : event) : Prop :=
  match ev with EvRead _ _ _ | EvWrite _ _ _ => False | _ => True end.
Lemma no_data_silent s l : Forall no_data l -> received s l = [] /\ sent s l = [].
Proof. induction 1 as [|ev l Hev _ IH]; [done|]. by destruct ev. Qed.

(** Proves that each event of a concrete history satisfies a predicate. *)
Ltac forall_events := repeat (apply Forall_cons_2; [solve [done | eauto]|]); apply Forall_nil_2.

(** ** Scripted environments, for concrete runs

    The clock counts events; everything not given succeeds. *)

(** [sockaddr_in] of a port of 127.0.0.1. *)
Definition loopback_sockaddr (port : Z) : bytes :=
  map chr [2; 0; port / 256; port mod 256; 127; 0; 0; 1; 0; 0; 0; 0; 0; 0; 0; 0].

Definition scripted_env
    (lookup : bytes -> outcome (list IpAddr))
    (connect : trace -> bytes -> Z -> outcome sock)
    (read : trace -> sock -> nat -> outcome bytes)
    (read_line : trace -> sock -> result io_error bytes)
    (select : trace -> bool) : Env := {|
  env_now t := Z.of_nat (List.length t);
  env_dns_init := Ok tt;
  env_lookup _ host _ := lookup host;
  env_connect t host port _ := connect t host port;
  env_call t _ := Ok (Z.of_nat (List.length t));
  env_nodelay _ _ := Ok tt;
  env_write _ _ _ := Done (Ok tt);
  env_flush _ _ := Done (Ok tt);
  env_readable _ _ := Ok tt;
  env_read := read;
  env_read_line := read_line;
  env_tls_accept _ _ := Ok tt;
  env_select := select;
  env_http_handshake _ _ := Ok tt;
  env_http_ready _ _ := true;
  env_http_send _ _ _ _ := Done (Ok (200, [(B "content-type", B "text/plain"); (B "connection", B "close")]));
  env_http_request_body _ := Done (Ok (B "request"));
  env_http_response_body _ _ := Done (Ok (B "reply"));
  env_getsockname t s := Some (loopback_sockaddr (40000 + Z.of_nat (List.length t) + s));
  env_getpeername _ s := Some (loopback_sockaddr (50000 + s)) |}.

(** Name servers that know a single name; no network otherwise. *)
Definition one_host_env (name : bytes) (ips : list IpAddr) : Env :=
  scripted_env
    (fun host => if bool_decide (host = name) then Done (Ok ips) else Done (Err (io_other [])))
    (fun _ _ _ => Elapsed) (fun _ _ _ => Elapsed) (fun _ _ => Ok []) (fun _ => true).
