(* ===== verification/Interleave.v ===== *)
(** * Interleave: tasks that share a state.

    The handlers are [async]: between two accesses to shared state any other
    task may run.  A [prog] is a handler cut at those accesses, [run] executes
    it alone (and is the monadic program of [World] it was cut from), [sched_step]
    lets any number of them interleave, and [sound] is the logic that carries
    an invariant of the shared state through every interleaving. *)

From S2P Require Import Prelude Text Net Protocol Resolver World.
Open Scope Z_scope.

(** ** Programs cut into atomic steps *)

(** Destructors, in the order in which they run; they do not fail. *)
Abbreviation destructors S := (list (M S Empty_set unit)).

(** A step [m] comes with what a task that is dropped there, while [m] is
    pending, still does: the destructors of what it holds. *)
Inductive prog (S E A : Type) : Type :=
| PDone (r : result E A)
| PStep {B : Type} (m : M S E B) (d : destructors S) (k : B -> prog S E A).
Arguments PDone {S E A} r.
Arguments PStep {S E A B} m d k.

(** One access to the shared state, or one I/O operation; what [d] destroys is
    held while it is pending. *)
Definition pending {S E A} (d : destructors S) (m : M S E A) : prog S E A := PStep m d (fun a => PDone (Ok a)).
Definition atom {S E A} (m : M S E A) : prog S E A := pending [] m.

Fixpoint pbind {S E A C} (p : prog S E A) (f : A -> prog S E C) : prog S E C :=
  match p with
  | PDone (Ok a) => f a
  | PDone (Err e) => PDone (Err e)
  | PStep m d k => PStep m d (fun b => pbind (k b) f)
  end.

(** A pure result, and a read of one field. *)
Definition pure {S E A} (r : result E A) : prog S E A := PDone r.
Definition read_field {S E A} (f : S -> A) : prog S E A := atom (s <- get ;; ret (f s)).

(** Running a component's program inside the state of its owner. *)
Fixpoint pzoom {S X E A} (g : S -> X) (p : X -> S -> S) (q : prog X E A) : prog S E A :=
  match q with
  | PDone r => PDone r
  | PStep m d k => PStep (zoom g p m) (map (zoom g p) d) (fun b => pzoom g p (k b))
  end.

(** [map_err] and matching on an outcome, of programs. *)
Fixpoint pwith_err {S E F A} (f : E -> F) (q : prog S E A) : prog S F A :=
  match q with
  | PDone r => PDone (map_err f r)
  | PStep m d k => PStep (with_err f m) d (fun b => pwith_err f (k b))
  end.
Fixpoint pattempt {S E F A} (q : prog S E A) : prog S F (result E A) :=
  match q with
  | PDone r => PDone (Ok r)
  | PStep m d k =>
      PStep (attempt m) d (fun r => match r with Ok b => pattempt (k b) | Err e => PDone (Ok (Err e)) end)
  end.

(** While [q] runs, its task holds what [d] destroys. *)
Fixpoint guarded {S E A} (d : destructors S) (q : prog S E A) : prog S E A :=
  match q with
  | PDone r => PDone r
  | PStep m d' k => PStep m (d' ++ d) (fun b => guarded d (k b))
  end.

(** The destructors as a program.  A task that is dropped meanwhile goes on. *)
Definition infallible {S E A} (m : M S Empty_set A) : M S E A := with_err (Empty_set_rect _) m.
Fixpoint unwind {S E} (d : destructors S) : prog S E unit :=
  match d with
  | [] => PDone (Ok tt)
  | m :: d' => PStep (infallible m) (m :: d') (fun _ => unwind d')
  end.

(** An I/O operation that leaves [ev] when its task is dropped while it is pending. *)
Definition awaiting {S E A} (ev : event) (m : M S E A) : prog S E A :=
  pending [io_event (fun _ => tt) (fun _ => ev)] m.

Declare Scope prog_scope.
Notation "x <~ p ;; k" := (pbind p (fun x => k))
  (at level 100, p at next level, k at level 200, right associativity) : prog_scope.
Notation "p ~;; k" := (pbind p (fun _ => k))
  (at level 100, k at level 200, right associativity) : prog_scope.

(** Without interference. *)
Fixpoint run {S E A} (p : prog S E A) : M S E A :=
  match p with
  | PDone r => lift r
  | PStep m _ k => bind m (fun b => run (k b))
  end.

(** ** Running alone is the monadic program *)

(** Programs that behave alike from every state and history. *)
Definition meq {S E A} (m1 m2 : M S E A) : Prop := forall s t, m1 s t = m2 s t.
Infix "≗" := meq (at level 70) : proxy_scope.

#[export] Instance meq_equivalence {S E A} : Equivalence (@meq S E A).
Proof. split; red; unfold meq; congruence. Qed.

#[export] Instance bind_proper {S E A C} :
  Proper (meq ==> pointwise_relation A meq ==> meq) (@bind S E A C).
Proof.
  intros m1 m2 Hm f1 f2 Hf s t. unfold bind. rewrite Hm.
  destruct (m2 s t) as [[[a|e] s'] t']; [apply Hf|done].
Qed.

Lemma bind_lift_ok {S E A C} (a : A) (f : A -> M S E C) : bind (lift (Ok a)) f ≗ f a.
Proof. done. Qed.
Lemma bind_assoc {S E A C D} (m : M S E A) (f : A -> M S E C) (g : C -> M S E D) :
  bind (bind m f) g ≗ bind m (fun a => bind (f a) g).
Proof. intros s t. unfold bind. by destruct (m s t) as [[[a|e] s'] t']. Qed.

Lemma run_atom {S E A} (m : M S E A) : run (atom m) ≗ m.
Proof. intros s t. cbn. unfold bind, lift. by destruct (m s t) as [[[a|e] s'] t']. Qed.

Lemma run_pbind {S E A C} (p : prog S E A) (f : A -> prog S E C) :
  run (pbind p f) ≗ bind (run p) (fun a => run (f a)).
Proof.
  induction p as [[a|e]|B m d k IH]; cbn; [done..|].
  rewrite bind_assoc. by apply bind_proper.
Qed.

(** [g] and [p] read and write one part of the states that satisfy [D]. *)
Record lens_on {S X : Type} (D : S -> Prop) (g : S -> X) (p : X -> S -> S) : Prop := {
  lens_keeps x s : D s -> D (p x s);
  lens_get_put x s : D s -> g (p x s) = x;
  lens_put_put x y s : D s -> p y (p x s) = p y s;
  lens_put_get s : D s -> p (g s) s = s }.
Definition lens {S X : Type} : (S -> X) -> (X -> S -> S) -> Prop := lens_on (fun _ => True).

Lemma run_pzoom_on {S X E A} (D : S -> Prop) (g : S -> X) (p : X -> S -> S) (q : prog X E A) s t :
  lens_on D g p -> D s -> run (pzoom g p q) s t = zoom g p (run q) s t.
Proof.
  intros [Hk Hgp Hpp Hpg]. revert s t. induction q as [r|B m d k IH]; intros s t HD; cbn.
  - unfold zoom, lift. by rewrite Hpg.
  - unfold zoom, bind. destruct (m (g s) t) as [[[b|e] x'] t']; [|done].
    rewrite IH by auto. unfold zoom. rewrite Hgp by done. destruct (run (k b) x' t') as [[r y] u].
    by rewrite Hpp.
Qed.
Lemma run_pzoom {S X E A} (g : S -> X) (p : X -> S -> S) (q : prog X E A) :
  lens g p -> run (pzoom g p q) ≗ zoom g p (run q).
Proof. intros Hl s t. by apply (run_pzoom_on (fun _ => True)). Qed.

Lemma run_pwith_err {S E F A} (f : E -> F) (q : prog S E A) :
  run (pwith_err f q) ≗ with_err f (run q).
Proof.
  induction q as [r|B m d k IH]; [done|]. intros s t. cbn. unfold with_err, bind.
  destruct (m s t) as [[[b|e] s'] t']; [apply IH|done].
Qed.

Lemma run_pattempt {S E F A} (q : prog S E A) : run (pattempt (F := F) q) ≗ attempt (run q).
Proof.
  induction q as [r|B m d k IH]; [done|]. intros s t. cbn. unfold attempt, bind.
  destruct (m s t) as [[[b|e] s'] t']; [apply IH|done].
Qed.

#[export] Instance zoom_proper {S X E A} (g : S -> X) (p : X -> S -> S) :
  Proper (meq ==> meq) (@zoom S X E A g p).
Proof. intros m1 m2 Hm s t. unfold zoom. by rewrite Hm. Qed.

Lemma run_pure {S E A} (r : result E A) : run (pure (S := S) r) ≗ lift r.
Proof. done. Qed.
Lemma run_read {S E A} (f : S -> A) : run (read_field (E := E) f) ≗ (s <- get ;; ret (f s)).
Proof. apply run_atom. Qed.

(** Reading a field of the state and going on. *)
Lemma run_read_bind {S E A C} (h : S -> A) (f : A -> prog S E C) (g : S -> M S E C) :
  (forall s t, run (f (h s)) s t = g s s t) -> run (pbind (read_field h) f) ≗ bind get g.
Proof. intros Hfg. rewrite run_pbind, run_read, bind_assoc. intros s t. apply Hfg. Qed.

(** From the runs at one state back to the programs. *)
Ltac pointwise :=
  match goal with
  | |- ?m1 ?s ?t = ?m2 ?s ?t => cut (m1 ≗ m2); [intros Hm; apply Hm|]
  end.

#[export] Instance with_err_proper {S E F A} (f : E -> F) : Proper (meq ==> meq) (@with_err S E F A f).
Proof. intros m1 m2 Hm s t. unfold with_err. by rewrite Hm. Qed.
#[export] Instance attempt_proper {S E F A} : Proper (meq ==> meq) (@attempt S E F A).
Proof. intros m1 m2 Hm s t. unfold attempt. by rewrite Hm. Qed.

(** An atomic step and the rest. *)
Lemma run_atom_bind {S E A C} (m : M S E A) (p : A -> prog S E C) (f : A -> M S E C) :
  (forall a, run (p a) ≗ f a) -> run (pbind (atom m) p) ≗ bind m f.
Proof. intros Hf. rewrite run_pbind, run_atom. by apply bind_proper. Qed.
Lemma run_pending_bind {S E A C} d (m : M S E A) (p : A -> prog S E C) (f : A -> M S E C) :
  (forall a, run (p a) ≗ f a) -> run (pbind (pending d m) p) ≗ bind m f.
Proof. apply (run_atom_bind m). Qed.
Lemma run_pure_bind {S E A C} (r : result E A) (p : A -> prog S E C) (f : A -> M S E C) :
  (forall a, run (p a) ≗ f a) -> run (pbind (pure r) p) ≗ bind (lift r) f.
Proof. intros Hf. rewrite run_pbind. by apply bind_proper. Qed.
Lemma run_call {S E A C} (q : prog S E A) (m : M S E A) (p : A -> prog S E C) (f : A -> M S E C) :
  run q ≗ m -> (forall a, run (p a) ≗ f a) -> run (pbind q p) ≗ bind m f.
Proof. intros Hq Hf. rewrite run_pbind, Hq. by apply bind_proper. Qed.

(** The steps of a sequential program, one after the other. *)
Ltac run_step :=
  lazymatch goal with
  | |- run (pbind (atom _) _) ≗ bind _ _ => apply run_atom_bind; intros ?
  | |- run (pbind (pending _ _) _) ≗ bind _ _ => apply run_pending_bind; intros ?
  | |- run (pbind (awaiting _ _) _) ≗ bind _ _ => apply run_pending_bind; intros ?
  | |- run (pbind (pure _) _) ≗ bind _ _ => apply run_pure_bind; intros ?
  | |- run (atom _) ≗ _ => apply run_atom
  | |- run (pure _) ≗ _ => done
  | |- run (match ?x with _ => _ end) ≗ _ => destruct x
  end.

Lemma run_guarded {S E A} d (q : prog S E A) : run (guarded d q) ≗ run q.
Proof. induction q as [r|B m d' k IH]; [done|]. cbn. by apply bind_proper. Qed.
Lemma run_pending {S E A} d (m : M S E A) : run (pending d m) ≗ m.
Proof. apply (run_atom m). Qed.
Lemma run_awaiting {S E A} ev (m : M S E A) : run (awaiting ev m) ≗ m.
Proof. apply run_pending. Qed.
Lemma run_unwind_cons {S E} (m : M S Empty_set unit) d :
  run (unwind (E := E) (m :: d)) ≗ bind (infallible m) (fun _ => run (unwind d)).
Proof. done. Qed.
Lemma run_unwind_one {S E} (m : M S Empty_set unit) : run (unwind (E := E) [m]) ≗ infallible m.
Proof.
  intros s t. cbn. unfold bind, infallible, with_err, lift. by destruct (m s t) as [[[[]|[]] s'] t'].
Qed.

(** Every step of [q] only extends the history, by events that satisfy [P]. *)
Fixpoint pemits {S E A} (P : event -> Prop) (q : prog S E A) : Prop :=
  match q with
  | PDone _ => True
  | PStep m d k => emits P m /\ Forall (emits P) d /\ forall b, pemits P (k b)
  end.

Lemma pemits_atom {S E A} P (m : M S E A) : emits P m -> pemits P (atom m).
Proof. by repeat constructor. Qed.
Lemma pemits_bind {S E A C} P (q : prog S E A) (f : A -> prog S E C) :
  pemits P q -> (forall a, pemits P (f a)) -> pemits P (pbind q f).
Proof.
  intros Hq Hf. induction q as [[a|e]|B m d k IH]; cbn in *; [apply Hf|done|].
  destruct Hq as (Hm & Hd & Hk). do 2 (split; [done|]). intros b. by apply IH.
Qed.
Lemma pemits_zoom {S X E A} P (g : S -> X) (put : X -> S -> S) (q : prog X E A) :
  pemits P q -> pemits P (pzoom g put q).
Proof.
  induction q as [r|B m d k IH]; cbn; [done|]. intros (Hm & Hd & Hk).
  split; [by apply emits_zoom|]. split; [|intros b; by apply IH].
  apply Forall_map. eapply Forall_impl; [exact Hd|]. intros m'. apply emits_zoom.
Qed.

(** ** The scheduler *)
Section Scheduler.
Context {K S E A : Type}.

(** [body k] is the task that serves the request [k]; [rely] is what the rest
    of the process may do to the shared state at any moment. *)
Variable body : K -> prog S E A.
Variable rely : S * trace -> S * trace -> Prop.

Record config : Type := mkConfig {
  tasks : list (K * prog S E A);
  shared : S;
  history : trace }.

(** The next atomic step of a task. *)
Definition step_task (p : prog S E A) (s : S) (t : trace) : option (prog S E A * S * trace) :=
  match p with
  | PDone _ => None
  | PStep m _ k =>
      let '(r, s', t') := m s t in
      Some (match r with Ok b => k b | Err e => PDone (Err e) end, s', t')
  end.

Inductive sched_step : config -> config -> Prop :=
| sched_spawn k ts s t :
    sched_step (mkConfig ts s t) (mkConfig (ts ++ [(k, body k)]) s t)
| sched_task i k p p' ts s t s' t' :
    ts !! i = Some (k, p) -> step_task p s t = Some (p', s', t') ->
    sched_step (mkConfig ts s t) (mkConfig (<[i := (k, p')]> ts) s' t')
| sched_rely ts s t s' t' :
    rely (s, t) (s', t') -> sched_step (mkConfig ts s t) (mkConfig ts s' t').

(** Tasks that may also be dropped at any moment: what is left of such a task
    are its destructors.  Its result, here [r], is for nobody. *)
Definition drop_at (r : result E A) (d : destructors S) : prog S E A := pbind (unwind d) (fun _ => PDone r).
Inductive drop_step : config -> config -> Prop :=
| drop_sched c c' : sched_step c c' -> drop_step c c'
| drop_task i k r B (m : M S E B) d f ts s t :
    ts !! i = Some (k, PStep m d f) -> drop_step (mkConfig ts s t) (mkConfig (<[i := (k, drop_at r d)]> ts) s t).

(** The same, decided by a list of task numbers. *)
Definition step_nth (c : config) (i : nat) : config :=
  match tasks c !! i with
  | Some (k, p) =>
      match step_task p (shared c) (history c) with
      | Some (p', s', t') => mkConfig (<[i := (k, p')]> (tasks c)) s' t'
      | None => c
      end
  | None => c
  end.
Definition schedule (l : list nat) (c : config) : config := fold_left step_nth l c.

Definition drop_nth (r : result E A) (i : nat) (c : config) : config :=
  match tasks c !! i with
  | Some (k, PStep m d f) => mkConfig (<[i := (k, drop_at r d)]> (tasks c)) (shared c) (history c)
  | _ => c
  end.

(** What each task came to. *)
Definition finished (c : config) : list (option (result E A)) :=
  map (fun kp => match kp.2 with PDone r => Some r | PStep _ _ _ => None end) (tasks c).

Lemma step_nth_sched c i : rtc sched_step c (step_nth c i).
Proof.
  unfold step_nth. destruct c as [ts s t]. cbn.
  destruct (ts !! i) as [[k p]|] eqn:Hi; [|done].
  destruct (step_task p s t) as [[[p' s'] t']|] eqn:Hp; [|done].
  by eapply rtc_once, sched_task.
Qed.

Lemma schedule_sched l c : rtc sched_step c (schedule l c).
Proof.
  revert c. induction l as [|i l IH]; intros c; [done|].
  etrans; [apply step_nth_sched|apply IH].
Qed.

Lemma rtc_drop c c' : rtc sched_step c c' -> rtc drop_step c c'.
Proof. intros Hr. eapply rtc_subrel; [|exact Hr]. apply drop_sched. Qed.
Lemma drop_nth_drop r i c : rtc drop_step c (drop_nth r i c).
Proof.
  unfold drop_nth. destruct c as [ts s t]. cbn. destruct (ts !! i) as [[k [r0|B m d f]]|] eqn:Hi; [done| |done].
  by eapply rtc_once, drop_task.
Qed.

(** A task scheduled without interruption does what [run] does. *)
Lemma run_sched p ts i k s t r s' t' :
  ts !! i = Some (k, p) -> run p s t = (r, s', t') ->
  rtc sched_step (mkConfig ts s t) (mkConfig (<[i := (k, PDone r)]> ts) s' t').
Proof.
  revert ts s t. induction p as [r0|B m d f IH]; intros ts s t Hi Hrun; cbn in Hrun.
  - injection Hrun as -> -> ->. by rewrite list_insert_id.
  - unfold bind in Hrun. destruct (m s t) as [[[b|e] s1] t1] eqn:Em.
    + eapply rtc_l.
      { eapply sched_task; [exact Hi|]. cbn. by rewrite Em. }
      specialize (IH b (<[i := (k, f b)]> ts) s1 t1).
      rewrite list_insert_insert_eq in IH. apply IH; [|done].
      apply list_lookup_insert_eq. by eapply lookup_lt_Some.
    + injection Hrun as <- <- <-. apply rtc_once.
      eapply sched_task; [exact Hi|]. cbn. by rewrite Em.
Qed.

(** ** Every task finishes *)

(** [p] is done after at most [n] of its own steps, whatever happens between. *)
Inductive within : nat -> prog S E A -> Prop :=
| within_done n r : within n (PDone r)
| within_step n B (m : M S E B) d k :
    (forall b, within n (k b)) -> within (1 + n)%nat (PStep m d k).

Lemma within_mono n n' p : within n p -> (n <= n')%nat -> within n' p.
Proof.
  intros Hw. revert n'. induction Hw as [|n B m d k Hk IH]; intros n' Hn; [constructor|].
  destruct n' as [|n']; [lia|]. apply within_step. intros b. apply IH. lia.
Qed.

Lemma within_next n p s t p' s' t' :
  within n p -> step_task p s t = Some (p', s', t') -> exists n', n = (1 + n')%nat /\ within n' p'.
Proof.
  intros [|n0 B m d k Hk]; cbn; [done|].
  destruct (m s t) as [[[b|e] s1] t1]; intros [= <- <- <-]; exists n0; by repeat constructor.
Qed.


(** Moves of an adversary: one step of a task, or any change at all of the
    shared state. *)
Definition move : Type := (nat + S * trace)%type.
Implicit Types (m : move) (l : list move).
Definition perform (c : config) (m : move) : config :=
  match m with
  | inl i => step_nth c i
  | inr (s, t) => mkConfig (tasks c) s t
  end.
Definition turns (i : nat) (l : list move) : nat :=
  length (List.filter (fun m => match m with inl j => bool_decide (i = j) | inr _ => false end) l).

Lemma perform_other c m i :
  m <> inl i -> tasks (perform c m) !! i = tasks c !! i.
Proof.
  intros Hm. destruct m as [j|[s t]]; [|done]. cbn. unfold step_nth.
  destruct (tasks c !! j) as [[k p]|]; [|done].
  destruct (step_task _ _ _) as [[[p' s'] t']|]; [|done].
  cbn. apply list_lookup_insert_ne. congruence.
Qed.

Lemma perform_turn n c i k p :
  tasks c !! i = Some (k, p) -> within (1 + n) p ->
  exists p', tasks (perform c (inl i)) !! i = Some (k, p') /\ within n p'.
Proof.
  intros Hi Hw. cbn. unfold step_nth. rewrite Hi.
  destruct (step_task p _ _) as [[[p' s'] t']|] eqn:Hp; cbn.
  - destruct (within_next _ _ _ _ _ _ _ Hw Hp) as (n' & [= ->] & Hw').
    exists p'. split; [|done]. apply list_lookup_insert_eq. by eapply lookup_lt_Some.
  - destruct p; [exists (PDone r)|by cbn in Hp; repeat case_match].
    split; [done|constructor].
Qed.

Lemma turns_cons_eq i l : turns i (inl i :: l) = (1 + turns i l)%nat.
Proof. unfold turns. cbn. by rewrite bool_decide_eq_true_2. Qed.
Lemma turns_cons_ne i m l : m <> inl i -> turns i (m :: l) = turns i l.
Proof.
  intros Hm. unfold turns. cbn. destruct m as [j|]; [|done].
  rewrite bool_decide_eq_false_2; [done|congruence].
Qed.

Lemma move_cases m i : m = inl i \/ m <> inl i.
Proof. destruct m as [j|]; [destruct (decide (i = j)); [left|right]; congruence|by right]. Qed.

(** Enough turns, whatever happens between them, finish a task. *)
Lemma within_finishes n l c i k p :
  tasks c !! i = Some (k, p) -> within n p -> (n <= turns i l)%nat ->
  exists r, tasks (fold_left perform l c) !! i = Some (k, PDone r).
Proof.
  revert n c p. induction l as [|m l IH]; intros n c p Hi Hw Hn.
  - cbn in *. destruct Hw; [by eexists|lia].
  - cbn. destruct (move_cases m i) as [->|Hm].
    + rewrite turns_cons_eq in Hn.
      destruct (perform_turn (n - 1) c i k p Hi) as (p' & Hi' & Hw').
      { eapply within_mono; [exact Hw|lia]. }
      eapply IH; [exact Hi'|exact Hw'|lia].
    + rewrite turns_cons_ne in Hn by done.
      eapply IH; [by rewrite perform_other|exact Hw|done].
Qed.
End Scheduler.
Arguments mkConfig {K S E A} _ _ _.
Arguments tasks {K S E A} _.
Arguments shared {K S E A} _.
Arguments history {K S E A} _.

(** Whenever [m] runs after [t0], it keeps [Inv]. *)
Definition keeps {S E A} (Inv : S -> trace -> Prop) (t0 : trace) (m : M S E A) : Prop :=
  forall s t, t0 `suffix_of` t -> Inv s t -> wp m (fun _ s' t' => Inv s' t' /\ t `suffix_of` t') s t.

(** [sound Inv Q t0 p]: from any moment after [t0] at which [Inv] holds, every
    step of [p], and what [p] does when it is dropped, re-establishes [Inv],
    whatever else happens between its steps as long as that keeps [Inv]; the
    result satisfies [Q] when it is produced. *)
Fixpoint sound {S E A} (Inv : S -> trace -> Prop) (Q : trace -> result E A -> Prop)
    (t0 : trace) (p : prog S E A) : Prop :=
  match p with
  | PDone r => Q t0 r
  | PStep m d k =>
      Forall (keeps Inv t0) d /\
      forall s t, t0 `suffix_of` t -> Inv s t ->
        wp m (fun r s' t' => Inv s' t' /\ t `suffix_of` t'
                /\ match r with
                   | Ok b => sound Inv Q t' (k b)
                   | Err e => Q t' (Err e)
                   end) s t
  end.

Lemma within_bind {S E A C} n n' (p : prog S E A) (f : A -> prog S E C) :
  within n p -> (forall a, within n' (f a)) -> within (n + n') (pbind p f).
Proof.
  intros Hp Hf. induction Hp as [n [a|e]|n B m d k _ IH]; cbn;
    [eapply within_mono; [apply Hf|lia]|constructor|by apply within_step].
Qed.

Lemma within_zoom {S X E A} (g : S -> X) (put : X -> S -> S) n (q : prog X E A) :
  within n q -> within n (pzoom g put q).
Proof. intros Hq. induction Hq; cbn; by constructor. Qed.

Lemma within_atom {S E A} (m : M S E A) : within 1 (atom m).
Proof. apply within_step. constructor. Qed.

Lemma keeps_later {S E A} (Inv : S -> trace -> Prop) t0 t1 (m : M S E A) :
  t0 `suffix_of` t1 -> keeps Inv t0 m -> keeps Inv t1 m.
Proof. intros Ht Hm s t Ht1. apply Hm. by etrans. Qed.

Section Sound.
Context {S E A : Type} (Inv : S -> trace -> Prop).

Lemma sound_later (Q : trace -> result E A -> Prop) t0 t1 (p : prog S E A) :
  (forall t t' r, t `suffix_of` t' -> Q t r -> Q t' r) ->
  t0 `suffix_of` t1 -> sound Inv Q t0 p -> sound Inv Q t1 p.
Proof.
  intros HQ Ht. destruct p as [r|B m d k]; cbn; [by apply HQ|].
  intros [Hd Hp]. split; [|intros s t Ht1; apply Hp; by etrans].
  eapply Forall_impl; [exact Hd|]. intros m'. by apply keeps_later.
Qed.

Lemma sound_bind {C} (Q : trace -> result E C -> Prop) (R : trace -> result E A -> Prop)
    t0 (p : prog S E A) (f : A -> prog S E C) :
  sound Inv R t0 p ->
  (forall a t, t0 `suffix_of` t -> R t (Ok a) -> sound Inv Q t (f a)) ->
  (forall e t, t0 `suffix_of` t -> R t (Err e) -> Q t (Err e)) ->
  sound Inv Q t0 (pbind p f).
Proof.
  revert t0. induction p as [[a|e]|B m d k IH]; intros t0 Hp Hf He; cbn in *; [by apply Hf|by apply He|].
  destruct Hp as [Hd Hp]. split; [done|]. intros s t Ht HI. eapply wp_mono; [by apply Hp|].
  intros r s' t' (HI' & Ht' & Hr). split; [done|]. split; [done|].
  destruct r as [b|e]; [apply IH; [done| |]|apply He; [by etrans|done]].
  - intros a t1 Ht1. apply Hf. etrans; [exact Ht|by etrans].
  - intros e t1 Ht1. apply He. etrans; [exact Ht|by etrans].
Qed.

Lemma sound_atom (Q : trace -> result E A -> Prop) t0 (m : M S E A) :
  (forall s t, t0 `suffix_of` t -> Inv s t ->
     wp m (fun r s' t' => Inv s' t' /\ t `suffix_of` t' /\ Q t' r) s t) ->
  sound Inv Q t0 (atom m).
Proof.
  intros Hm. split; [constructor|]. intros s t Ht HI. eapply wp_mono; [by apply Hm|].
  intros [a|e] s' t' (? & ? & ?); done.
Qed.

Lemma sound_mono (Q R : trace -> result E A -> Prop) t0 (p : prog S E A) :
  (forall t r, t0 `suffix_of` t -> Q t r -> R t r) -> sound Inv Q t0 p -> sound Inv R t0 p.
Proof.
  revert t0. induction p as [r|B m d k IH]; intros t0 HQ Hp; cbn in *; [by apply HQ|].
  destruct Hp as [Hd Hp]. split; [done|]. intros s t Ht HI. eapply wp_mono; [by apply Hp|].
  intros [b|e] s' t' (HI' & Ht' & Hr); split_and!; try done.
  - apply IH; [|done]. intros t1 r Ht1. apply HQ. etrans; [exact Ht|by etrans].
  - apply HQ; [by etrans|done].
Qed.
End Sound.

(** A reading of the state, and an I/O operation, leave the state as it is. *)
Lemma sound_read {S E A} (Inv : S -> trace -> Prop) (f : S -> A)
    (Q : trace -> result E A -> Prop) t0 :
  (forall s t, t0 `suffix_of` t -> Inv s t -> Q t (Ok (f s))) ->
  sound Inv Q t0 (atom (s <- get ;; ret (f s))).
Proof. intros HQ. apply sound_atom. intros s t Ht HI. wp_steps. by split_and!; [| |apply HQ]. Qed.

Lemma sound_io {S E A} `{Env} (Inv : S -> trace -> Prop) (f : trace -> A) ev
    (Q : trace -> result E A -> Prop) t0 :
  (forall s t e, Inv s t -> Inv s (e :: t)) ->
  (forall t, t0 `suffix_of` t -> Q (ev (f t) :: t) (Ok (f t))) ->
  sound Inv Q t0 (atom (S := S) (io_event f ev)).
Proof.
  intros HI HQ. apply sound_atom. intros s t Ht Hs. wp_step.
  split; [by apply HI|]. split; [by exists [ev (f t)]|by apply HQ].
Qed.

Lemma sound_with_err {S E F A} (Inv : S -> trace -> Prop) (f : E -> F)
    (Q : trace -> result F A -> Prop) t0 (q : prog S E A) :
  sound Inv (fun t r => Q t (map_err f r)) t0 q -> sound Inv Q t0 (pwith_err f q).
Proof.
  revert t0. induction q as [r|B m d k IH]; intros t0 Hq; cbn in *; [done|].
  destruct Hq as [Hd Hq]. split; [done|]. intros s t Ht HI. apply wp_with_err. eapply wp_mono; [by apply Hq|].
  intros [b|e] s' t' (? & ? & Hr); (split; [done|]); (split; [done|]); [by apply IH|exact Hr].
Qed.

Lemma sound_attempt {S E F A} (Inv : S -> trace -> Prop)
    (Q : trace -> result F (result E A) -> Prop) t0 (q : prog S E A) :
  sound Inv (fun t r => Q t (Ok r)) t0 q -> sound Inv Q t0 (pattempt q).
Proof.
  revert t0. induction q as [r|B m d k IH]; intros t0 Hq; cbn in *; [done|].
  destruct Hq as [Hd Hq]. split; [done|]. intros s t Ht HI. apply wp_attempt. eapply wp_mono; [by apply Hq|].
  intros [b|e] s' t' (? & ? & Hr); (split; [done|]); (split; [done|]); [by apply IH|exact Hr].
Qed.

(** Destructors, while a program runs, after it, and of tasks that are dropped. *)
Lemma sound_guarded {S E A} (Inv : S -> trace -> Prop) (Q : trace -> result E A -> Prop) t0 d (q : prog S E A) :
  Forall (keeps Inv t0) d -> sound Inv Q t0 q -> sound Inv Q t0 (guarded d q).
Proof.
  revert t0. induction q as [r|B m d' k IH]; intros t0 Hd Hq; cbn in *; [done|].
  destruct Hq as [Hd' Hq]. split; [apply Forall_app; by split|]. intros s t Ht HI.
  eapply wp_mono; [by apply Hq|]. intros [b|e] s' t' (? & ? & Hr); split_and!; try done.
  apply IH; [|done]. eapply Forall_impl; [exact Hd|]. intros m'. apply keeps_later. by etrans.
Qed.
Lemma sound_unwind {S E} (Inv : S -> trace -> Prop) t0 d :
  Forall (keeps Inv t0) d -> sound (E := E) Inv (fun _ r => r = Ok tt) t0 (unwind d).
Proof.
  revert t0. induction d as [|m d IH]; intros t0 Hd; [done|]. split; [done|].
  apply Forall_cons in Hd as [Hm Hd]. intros s t Ht HI. apply wp_with_err. eapply wp_mono; [by apply Hm|].
  intros [[]|[]] s' t' [HI' Ht']. split_and!; [done..|]. apply IH.
  eapply Forall_impl; [exact Hd|]. intros m'. apply keeps_later. by etrans.
Qed.
Lemma sound_unwind_then {S E A} (Inv : S -> trace -> Prop) (Q : trace -> result E A -> Prop) t0 d (k : prog S E A) :
  Forall (keeps Inv t0) d -> (forall t, t0 `suffix_of` t -> sound Inv Q t k) ->
  sound Inv Q t0 (pbind (unwind d) (fun _ => k)).
Proof. intros Hd Hk. eapply sound_bind; [by apply sound_unwind|intros [] t Ht _; by apply Hk|done]. Qed.
Lemma sound_pending {S E A C} (Inv : S -> trace -> Prop) (Q : trace -> result E C -> Prop) t0 d (m : M S E A)
    (k : A -> prog S E C) :
  Forall (keeps Inv t0) d -> sound Inv Q t0 (pbind (atom m) k) -> sound Inv Q t0 (pbind (pending d m) k).
Proof. intros Hd [_ Hm]. by split. Qed.

(** A component's invariant carries its programs into its owner's, if the owner
    can take back the component's new state and the events [P]. *)
Lemma sound_zoom {S X E A} (Inv : S -> trace -> Prop) (InvX : X -> trace -> Prop)
    (P : event -> Prop) (g : S -> X) (put : X -> S -> S) (Q : trace -> result E A -> Prop) t0
    (q : prog X E A) :
  (forall s t, Inv s t -> InvX (g s) t) ->
  (forall s t x t', Inv s t -> InvX x t' -> extends P t t' -> Inv (put x s) t') ->
  pemits P q -> sound InvX Q t0 q -> sound Inv Q t0 (pzoom g put q).
Proof.
  intros Hg Hput. revert t0. induction q as [r|B m d k IH]; intros t0 He Hq; cbn in *; [done|].
  destruct He as (Hm & Hd' & Hk), Hq as [Hd Hq]. split.
  { apply Forall_map. apply Forall_forall. intros m' Hin s t Ht HI. apply wp_zoom.
    pose proof (proj1 (Forall_forall _ _) Hd m' Hin (g s) t Ht (Hg s t HI)) as Hm'.
    pose proof (proj1 (Forall_forall _ _) Hd' m' Hin (g s) t) as Hx. unfold wp in *.
    destruct (m' (g s) t) as [[r x] t']. destruct Hm' as [HI' Ht']. split; [by eapply Hput|done]. }
  intros s t Ht HI. apply wp_zoom.
  specialize (Hq (g s) t Ht (Hg s t HI)). unfold wp in *. specialize (Hm (g s) t).
  destruct (m (g s) t) as [[r x] t']. destruct Hq as (HI' & Ht' & Hr).
  split; [by eapply Hput|]. split; [done|]. destruct r; [by apply IH|done].
Qed.

(** The same for a component that keeps its own account of the events. *)
Lemma keeps_zoom_own {S X E A} (Inv : S -> trace -> Prop) (InvX : X -> trace -> Prop)
    (g : S -> X) (put : X -> S -> S) t0 (m : M X E A) :
  (forall s t, Inv s t -> InvX (g s) t) ->
  (forall s t x t', Inv s t -> InvX x t' -> t `suffix_of` t' -> Inv (put x s) t') ->
  keeps InvX t0 m -> keeps Inv t0 (zoom g put m).
Proof.
  intros Hg Hput Hm s t Ht HI. apply wp_zoom. eapply wp_mono; [by apply Hm, Hg|].
  intros r x t' [HI' Ht']. split; [by eapply Hput|done].
Qed.
Lemma sound_zoom_own {S X E A} (Inv : S -> trace -> Prop) (InvX : X -> trace -> Prop)
    (g : S -> X) (put : X -> S -> S) (Q : trace -> result E A -> Prop) t0 (q : prog X E A) :
  (forall s t, Inv s t -> InvX (g s) t) ->
  (forall s t x t', Inv s t -> InvX x t' -> t `suffix_of` t' -> Inv (put x s) t') ->
  sound InvX Q t0 q -> sound Inv Q t0 (pzoom g put q).
Proof.
  intros Hg Hput. revert t0. induction q as [r|B m d k IH]; intros t0 Hq; cbn in *; [done|].
  destruct Hq as [Hd Hq]. split.
  { apply Forall_map. eapply Forall_impl; [exact Hd|]. intros m' Hm'. by eapply keeps_zoom_own. }
  intros s t Ht HI. apply wp_zoom. eapply wp_mono; [by apply Hq, Hg|].
  intros r x t' (HI' & Ht' & Hr). split; [by eapply Hput|]. split; [done|].
  destruct r; [by apply IH|done].
Qed.

(** An I/O operation whose event the invariant admits. *)
Lemma sound_event {S E A} `{Env} (Inv : S -> trace -> Prop) (f : trace -> A) ev
    (Q : trace -> result E A -> Prop) t0 :
  (forall s t, t0 `suffix_of` t -> Inv s t -> Inv s (ev (f t) :: t)) ->
  (forall t, t0 `suffix_of` t -> Q (ev (f t) :: t) (Ok (f t))) ->
  sound Inv Q t0 (atom (S := S) (io_event f ev)).
Proof.
  intros HI HQ. apply sound_atom. intros s t Ht Hs. wp_step.
  split; [by apply HI|]. split; [by exists [ev (f t)]|by apply HQ].
Qed.

(** ** Invariants of the history

    [admits ok Inv]: events that [ok] allows keep [Inv]. *)
Definition admits {S} (ok : trace -> event -> Prop) (Inv : S -> trace -> Prop) : Prop :=
  forall s t ev, ok (ev :: t) ev -> Inv s t -> Inv s (ev :: t).

Section Admits.
Context `{Env} {S E A C : Type} (Inv : S -> trace -> Prop).

Lemma sound_admitted ok (f : trace -> A) ev (Q : trace -> result E A -> Prop) t0 :
  admits ok Inv -> (forall t, t0 `suffix_of` t -> ok (ev (f t) :: t) (ev (f t))) ->
  (forall t, t0 `suffix_of` t -> Q (ev (f t) :: t) (Ok (f t))) ->
  sound Inv Q t0 (atom (io_event f ev)).
Proof. intros Ha Hev. apply sound_event. intros s t Ht HI. by apply Ha; [apply Hev|]. Qed.

(** A destructor that is an event, and the rest. *)
Lemma keeps_event ok ev t0 :
  admits ok Inv -> (forall t, t0 `suffix_of` t -> ok (ev :: t) ev) ->
  keeps (E := Empty_set) Inv t0 (io_event (fun _ => tt) (fun _ => ev)).
Proof. intros Ha Hev s t Ht HI. wp_step. split; [by apply Ha; [apply Hev|]|by exists [ev]]. Qed.

(** An I/O operation that is always allowed, and the rest. *)
Lemma sound_quiet ok (f : trace -> A) ev (Q : trace -> result E C -> Prop) (k : A -> prog S E C) t0 :
  admits ok Inv -> (forall t a, ok t (ev a)) ->
  (forall a t, t0 `suffix_of` t -> ev a ∈ t -> sound Inv Q t (k a)) ->
  sound Inv Q t0 (pbind (atom (io_event f ev)) k).
Proof.
  intros Ha Hev Hk.
  apply (sound_bind _ _ (fun t r => match r with Ok a => ev a ∈ t | Err _ => False end)).
  - eapply sound_admitted; [exact Ha|auto|]. intros t _. set_solver.
  - intros a t Ht Hin. by apply Hk.
  - done.
Qed.

(** A reading of shared state that says nothing in particular, and the rest. *)
Lemma sound_reading (f : S -> A) (Q : trace -> result E C -> Prop) (k : A -> prog S E C) t0 :
  (forall a t, t0 `suffix_of` t -> sound Inv Q t (k a)) -> sound Inv Q t0 (pbind (read_field f) k).
Proof.
  intros Hk. apply (sound_bind _ _ (fun _ r => is_ok r = true)); [by apply sound_read| |done].
  intros a t Ht _. by apply Hk.
Qed.

(** A part whose result does not matter, and the rest. *)
Lemma sound_then (Q : trace -> result E C -> Prop) (p : prog S E A) (k : A -> prog S E C) t0 :
  sound Inv (fun _ _ => True) t0 p -> (forall a t, t0 `suffix_of` t -> sound Inv Q t (k a)) ->
  (forall e t, Q t (Err e)) -> sound Inv Q t0 (pbind p k).
Proof.
  intros Hp Hk HE. apply (sound_bind _ _ (fun _ _ => True)); [done| |by intros e t _ _; apply HE].
  intros a t Ht _. by apply Hk.
Qed.

Lemma sound_map_err {F} (f : F -> E) (r : result F A) (Q : trace -> result E C -> Prop)
    (k : A -> prog S E C) t0 :
  (forall e t, Q t (Err e)) -> (forall a, r = Ok a -> sound Inv Q t0 (k a)) ->
  sound Inv Q t0 (pbind (pure (map_err f r)) k).
Proof. intros HE Hk. destruct r; [by apply Hk|apply HE]. Qed.
End Admits.

(** [data] was read from [fd] in one piece. *)
Definition chunk_from (fd : sock) (data : bytes) (t : trace) : Prop :=
  exists max, EvRead fd max (Done (Ok data)) ∈ t.
Lemma event_later (ev : event) t t' : t `suffix_of` t' -> ev ∈ t -> ev ∈ t'.
Proof. intros [l ->] Hin. set_solver. Qed.
Lemma chunk_from_later fd data t t' : t `suffix_of` t' -> chunk_from fd data t -> chunk_from fd data t'.
Proof. intros Ht [max Hin]. exists max. by eapply event_later. Qed.

(** Adequacy: invariant and postconditions hold in every reachable
    configuration. *)
Section Adequacy.
Context {K S E A : Type} (body : K -> prog S E A) (rely : S * trace -> S * trace -> Prop).
Context (Inv : S -> trace -> Prop) (Post : K -> trace -> result E A -> Prop).
Hypothesis rely_inv : forall s t s' t',
  Inv s t -> rely (s, t) (s', t') -> Inv s' t' /\ t `suffix_of` t'.
Hypothesis post_mono : forall k t t' r, t `suffix_of` t' -> Post k t r -> Post k t' r.
Hypothesis body_sound : forall k t, sound Inv (Post k) t (body k).

Definition sched_inv (c : config (K := K) (S := S) (E := E) (A := A)) : Prop :=
  Inv (shared c) (history c)
  /\ Forall (fun kp => sound Inv (Post kp.1) (history c) kp.2) (tasks c).

Lemma sched_inv_later ts (t t' : trace) :
  t `suffix_of` t' ->
  Forall (fun kp => sound Inv (Post kp.1) t kp.2) ts ->
  Forall (fun kp : K * prog S E A => sound Inv (Post kp.1) t' kp.2) ts.
Proof.
  intros Ht Hts. eapply Forall_impl; [exact Hts|]. intros [k p] Hp.
  eapply sound_later; [|done..]. intros ???. apply post_mono.
Qed.

Lemma sched_inv_step c c' : sched_inv c -> sched_step body rely c c' -> sched_inv c'.
Proof.
  intros [HI Hts] Hstep. destruct Hstep as [k ts s t|i k p p' ts s t s' t' Hi Hp|ts s t s' t' Hr].
  - split; [done|]. cbn in *. apply Forall_app. split; [done|]. by repeat constructor.
  - cbn in *. pose proof (proj1 (Forall_lookup _ _) Hts _ _ Hi) as Hk. cbn in Hk.
    destruct p as [r|B m d f]; [done|]. cbn in Hp, Hk.
    destruct Hk as [_ Hk]. specialize (Hk s t ltac:(done) HI). unfold wp in Hk.
    destruct (m s t) as [[r s1] t1]. injection Hp as <- <- <-.
    destruct Hk as (HI' & Ht & Hr). split; [done|].
    apply Forall_insert; [by eapply sched_inv_later|]. by destruct r.
  - destruct (rely_inv _ _ _ _ HI Hr) as [HI' Ht]. split; [done|]. by eapply sched_inv_later.
Qed.

Lemma sched_inv_reachable c c' :
  sched_inv c -> rtc (sched_step body rely) c c' -> sched_inv c'.
Proof. intros Hc Hr. induction Hr as [|? ? ? Hs _ IH]; [done|]. by eapply IH, sched_inv_step. Qed.

Lemma sched_adequacy s t c i k r :
  Inv s t -> rtc (sched_step body rely) (mkConfig [] s t) c ->
  tasks c !! i = Some (k, PDone r) -> Inv (shared c) (history c) /\ Post k (history c) r.
Proof.
  intros HI Hr Hi.
  destruct (sched_inv_reachable (mkConfig [] s t) c (conj HI (Forall_nil_2 _)) Hr) as [HI' Hts].
  split; [done|]. exact (proj1 (Forall_lookup _ _) Hts _ _ Hi).
Qed.
End Adequacy.

(** The same for tasks that may be dropped. *)
Section DropAdequacy.
Context {K S E A : Type} (body : K -> prog S E A) (rely : S * trace -> S * trace -> Prop).
Context (Inv : S -> trace -> Prop).
Hypothesis rely_inv : forall s t s' t',
  Inv s t -> rely (s, t) (s', t') -> Inv s' t' /\ t `suffix_of` t'.
Hypothesis body_sound : forall k t, sound Inv (fun _ _ => True) t (body k).

Abbreviation any_post := (fun (_ : K) (_ : trace) (_ : result E A) => True).

Lemma drop_inv_step c c' :
  sched_inv Inv any_post c -> drop_step body rely c c' -> sched_inv Inv any_post c'.
Proof.
  intros HI Hstep. destruct Hstep as [c c' Hs|i k r B m d f ts s t Hi].
  - eapply (sched_inv_step body rely Inv any_post); [exact rely_inv|done|exact body_sound|exact HI|exact Hs].
  - destruct HI as [HI Hts]. split; [done|]. cbn in *. apply Forall_insert; [done|].
    pose proof (proj1 (Forall_lookup _ _) Hts _ _ Hi) as [Hd _].
    by apply sound_unwind_then.
Qed.

Lemma drop_inv_reachable s t c :
  Inv s t -> rtc (drop_step body rely) (mkConfig [] s t) c -> Inv (shared c) (history c).
Proof.
  intros HI Hr. enough (sched_inv Inv any_post c) as [? _] by done.
  assert (Hc : sched_inv Inv any_post (mkConfig [] s t)) by (by split).
  clear HI. induction Hr as [|? ? ? Hs _ IH]; [done|]. by apply IH, (drop_inv_step _ _ Hc).
Qed.
End DropAdequacy.
