(* ===== verification/Ownership.v ===== *)
(** * Ownership: tasks that own parts of the world.

    [sound] of Interleave carries an invariant through every interleaving; what
    a task knows must then survive whatever the others do.  Here a task also
    owns tokens, which no other task has: what the invariant says about a token
    (that a socket is open, what has happened on it so far) stays as it is while
    the task holds it.  [owns Inv Q t0 h p]: a task that owns [h] and runs [p]
    keeps [Inv], which speaks of all tokens that are owned, and ends with tokens
    and a result that satisfy [Q].  The parameter [w] of [Inv] is what is
    reserved elsewhere, outside of the state that [p] works on. *)

From S2P Require Import Prelude Text Net Protocol Resolver World Interleave.
Open Scope Z_scope.
Open Scope prog_scope.

Section Owns.
Context {S E R W : Type} (Inv : W -> S -> trace -> list R -> Prop).
Implicit Types (h F : list R) (t : trace) (D : list R -> Prop) (d : destructors S).

(** From [h], the destructors leave tokens that satisfy [D]. *)
Fixpoint unwinds D (t0 : trace) h d : Prop :=
  match d with
  | [] => D h
  | m :: d' =>
      forall w F s t, t0 `suffix_of` t -> Inv w s t (h ++ F) ->
        wp m (fun _ s' t' => exists h', Inv w s' t' (h' ++ F) /\ t `suffix_of` t' /\ unwinds D t' h' d') s t
  end.

Fixpoint tidy {A} D (Q : trace -> list R -> result E A -> Prop) (t0 : trace) (h : list R)
    (p : prog S E A) : Prop :=
  match p with
  | PDone r => Q t0 h r
  | PStep m d k =>
      unwinds D t0 h d /\
      forall w F s t, t0 `suffix_of` t -> Inv w s t (h ++ F) ->
        wp m (fun r s' t' => exists h', Inv w s' t' (h' ++ F) /\ t `suffix_of` t'
                /\ match r with
                   | Ok b => tidy D Q t' h' (k b)
                   | Err e => Q t' h' (Err e)
                   end) s t
  end.

Lemma unwinds_later D t0 t1 h d : t0 `suffix_of` t1 -> unwinds D t0 h d -> unwinds D t1 h d.
Proof. intros Ht. destruct d as [|m d]; [done|]. intros Hd w F s t Ht1. apply Hd. by etrans. Qed.

Lemma unwinds_app D D' t0 h d d' :
  unwinds D' t0 h d -> (forall t h', t0 `suffix_of` t -> D' h' -> unwinds D t h' d') ->
  unwinds D t0 h (d ++ d').
Proof.
  revert t0 h. induction d as [|m d IH]; intros t0 h Hd Hd'; cbn in *; [by apply Hd'|].
  intros w F s t Ht HI. eapply wp_mono; [by eapply Hd|]. intros r s' t' (h' & HI' & Ht' & Hr).
  exists h'. split; [done|]. split; [done|]. apply IH; [done|]. intros t1 h1 Ht1. apply Hd'.
  etrans; [exact Ht|by etrans].
Qed.
Lemma unwinds_mono D D' t0 h d : (forall h', D' h' -> D h') -> unwinds D' t0 h d -> unwinds D t0 h d.
Proof. intros HD Hd. rewrite <- (app_nil_r d). eapply unwinds_app; [exact Hd|]. intros t h' _. apply HD. Qed.

Lemma owns_bind {A C D} (R1 : trace -> list R -> result E A -> Prop)
    (Q : trace -> list R -> result E C -> Prop) t0 h (p : prog S E A) (f : A -> prog S E C) :
  tidy D R1 t0 h p ->
  (forall a t h', t0 `suffix_of` t -> R1 t h' (Ok a) -> tidy D Q t h' (f a)) ->
  (forall e t h', t0 `suffix_of` t -> R1 t h' (Err e) -> Q t h' (Err e)) ->
  tidy D Q t0 h (pbind p f).
Proof.
  revert t0 h. induction p as [[a|e]|B m d k IH]; intros t0 h Hp Hf He; cbn in *; [by apply Hf|by apply He|].
  destruct Hp as [Hd Hp]. split; [done|]. intros w F s t Ht HI. eapply wp_mono; [by eapply Hp|].
  intros r s' t' (h' & HI' & Ht' & Hr). exists h'. split; [done|]. split; [done|].
  assert (Hl : t0 `suffix_of` t') by by etrans.
  destruct r as [b|e]; [|by apply He]. apply IH; [done|..].
  - intros a t1 h1 Ht1. apply Hf. by etrans.
  - intros e t1 h1 Ht1. apply He. by etrans.
Qed.

(** A step with nothing of its own to destroy. *)
Lemma tidy_atom {A} D (Q : trace -> list R -> result E A -> Prop) t0 h (m : M S E A) :
  D h ->
  (forall w F s t, t0 `suffix_of` t -> Inv w s t (h ++ F) ->
     wp m (fun r s' t' => exists h', Inv w s' t' (h' ++ F) /\ t `suffix_of` t' /\ Q t' h' r) s t) ->
  tidy D Q t0 h (atom m).
Proof.
  intros HD Hm. split; [done|]. intros w F s t Ht HI. eapply wp_mono; [by eapply Hm|].
  intros [a|e] s' t' (h' & ? & ? & ?); by exists h'.
Qed.

Lemma tidy_mono {A} D D' (Q Q' : trace -> list R -> result E A -> Prop) t0 h (p : prog S E A) :
  (forall h', D' h' -> D h') ->
  (forall t h' r, t0 `suffix_of` t -> Q t h' r -> Q' t h' r) -> tidy D' Q t0 h p -> tidy D Q' t0 h p.
Proof.
  intros HD. revert t0 h. induction p as [r|B m d k IH]; intros t0 h HQ Hp; cbn in *; [by apply HQ|].
  destruct Hp as [Hd Hp]. split; [by eapply unwinds_mono|]. intros w F s t Ht HI. eapply wp_mono; [by eapply Hp|].
  intros r s' t' (h' & HI' & Ht' & Hr). exists h'. split; [done|]. split; [done|].
  assert (Hl : t0 `suffix_of` t') by by etrans.
  destruct r as [b|e]; [|by apply HQ]. apply IH; [|done]. intros t1 h1 r Ht1. apply HQ. by etrans.
Qed.
Lemma owns_mono {A D} (Q Q' : trace -> list R -> result E A -> Prop) t0 h (p : prog S E A) :
  (forall t h' r, t0 `suffix_of` t -> Q t h' r -> Q' t h' r) -> tidy D Q t0 h p -> tidy D Q' t0 h p.
Proof. by apply tidy_mono. Qed.

(** A task keeps what its subprogram does not use. *)
Definition framed {A} (h2 : list R) (Q : trace -> list R -> result E A -> Prop)
    (t : trace) (h : list R) (r : result E A) : Prop := exists h1, h = h1 ++ h2 /\ Q t h1 r.
Definition beside h2 D h : Prop := exists h1, h = h1 ++ h2 /\ D h1.

Lemma unwinds_frame D t0 h h2 d : unwinds D t0 h d -> unwinds (beside h2 D) t0 (h ++ h2) d.
Proof.
  revert t0 h. induction d as [|m d IH]; intros t0 h Hd; cbn in *; [by exists h|].
  intros w F s t Ht HI. rewrite <- app_assoc in HI. eapply wp_mono; [by eapply Hd|].
  intros r s' t' (h' & HI' & Ht' & Hr). exists (h' ++ h2). rewrite <- app_assoc. auto.
Qed.
Lemma tidy_frame {A} D (Q : trace -> list R -> result E A -> Prop) t0 h h2 (p : prog S E A) :
  tidy D Q t0 h p -> tidy (beside h2 D) (framed h2 Q) t0 (h ++ h2) p.
Proof.
  revert t0 h. induction p as [r|B m d k IH]; intros t0 h Hp; cbn in *; [by exists h|].
  destruct Hp as [Hd Hp]. split; [by apply unwinds_frame|].
  intros w F s t Ht HI. rewrite <- app_assoc in HI. eapply wp_mono; [by eapply Hp|].
  intros r s' t' (h' & HI' & Ht' & Hr). exists (h' ++ h2). rewrite <- app_assoc. split; [done|].
  split; [done|]. destruct r as [b|e]; [by apply IH|by exists h'].
Qed.

(** While [p] runs, the destructors [d] are due. *)
Lemma tidy_guarded {A} D D' (Q : trace -> list R -> result E A -> Prop) t0 h d (p : prog S E A) :
  tidy D' Q t0 h p -> (forall t h', t0 `suffix_of` t -> D' h' -> unwinds D t h' d) ->
  tidy D Q t0 h (guarded d p).
Proof.
  revert t0 h. induction p as [r|B m d' k IH]; intros t0 h Hp HD; cbn in *; [done|].
  destruct Hp as [Hd Hp]. split; [by eapply unwinds_app|].
  intros w F s t Ht HI. eapply wp_mono; [by eapply Hp|].
  intros r s' t' (h' & HI' & Ht' & Hr). exists h'. split; [done|]. split; [done|].
  destruct r as [b|e]; [|done]. apply IH; [done|]. intros t1 h1 Ht1. apply HD. etrans; [exact Ht|by etrans].
Qed.
Lemma tidy_unwind D t0 h d : unwinds D t0 h d -> tidy D (fun _ h' r => D h' /\ r = Ok tt) t0 h (unwind d).
Proof.
  revert t0 h. induction d as [|m d IH]; intros t0 h Hd; [done|]. split; [done|]. cbn in Hd.
  intros w F s t Ht HI. apply wp_with_err. eapply wp_mono; [by eapply Hd|].
  intros [[]|[]] s' t' (h' & HI' & Ht' & Hr). exists h'. split_and!; [done..|by apply IH].
Qed.
Lemma tidy_unwind_then {A} D D' (Q : trace -> list R -> result E A -> Prop) t0 h d (k : prog S E A) :
  unwinds D' t0 h d -> (forall h', D' h' -> D h') ->
  (forall t h', t0 `suffix_of` t -> D' h' -> tidy D Q t h' k) ->
  tidy D Q t0 h (pbind (unwind d) (fun _ => k)).
Proof.
  intros Hd HD Hk. eapply owns_bind; [eapply tidy_mono; [exact HD| |by apply tidy_unwind]| |].
  - intros t h' r _ Hr. exact Hr.
  - intros [] t h' Ht [Hh _]. by apply Hk.
  - by intros e t h' _ [_ ?].
Qed.
End Owns.

(** Whatever a task that is dropped leaves behind. *)
Abbreviation owns Inv := (tidy Inv (fun _ => True)).

Section Affine.
Context {S E R W : Type} (Inv : W -> S -> trace -> list R -> Prop).

Lemma owns_atom {A} (Q : trace -> list R -> result E A -> Prop) t0 h (m : M S E A) :
  (forall w F s t, t0 `suffix_of` t -> Inv w s t (h ++ F) ->
     wp m (fun r s' t' => exists h', Inv w s' t' (h' ++ F) /\ t `suffix_of` t' /\ Q t' h' r) s t) ->
  owns Inv Q t0 h (atom m).
Proof. by apply tidy_atom. Qed.
Lemma owns_frame {A} (Q : trace -> list R -> result E A -> Prop) t0 h h2 (p : prog S E A) :
  owns Inv Q t0 h p -> owns Inv (framed h2 Q) t0 (h ++ h2) p.
Proof. intros Hp. eapply tidy_mono; [..|by apply tidy_frame]; done. Qed.
End Affine.

(** Outcomes as values, and errors renamed. *)
Lemma owns_attempt {S E F A R W} (Inv : W -> S -> trace -> list R -> Prop) {D}
    (Q : trace -> list R -> result F (result E A) -> Prop) t0 h (q : prog S E A) :
  tidy Inv D (fun t h' r => Q t h' (Ok r)) t0 h q -> tidy Inv D Q t0 h (pattempt q).
Proof.
  revert t0 h. induction q as [r|B m d k IH]; intros t0 h Hq; cbn in *; [done|].
  destruct Hq as [Hd Hq]. split; [done|].
  intros w G s t Ht HI. apply wp_attempt. eapply wp_mono; [by eapply Hq|].
  intros [b|e] s' t' (h' & ? & ? & Hr); exists h'; (split; [done|]); (split; [done|]); [by apply IH|exact Hr].
Qed.

Lemma owns_with_err {S E F A R W} (Inv : W -> S -> trace -> list R -> Prop) {D} (f : E -> F)
    (Q : trace -> list R -> result F A -> Prop) t0 h (q : prog S E A) :
  tidy Inv D (fun t h' r => Q t h' (map_err f r)) t0 h q -> tidy Inv D Q t0 h (pwith_err f q).
Proof.
  revert t0 h. induction q as [r|B m d k IH]; intros t0 h Hq; cbn in *; [done|].
  destruct Hq as [Hd Hq]. split; [done|].
  intros w G s t Ht HI. apply wp_with_err. eapply wp_mono; [by eapply Hq|].
  intros [b|e] s' t' (h' & ? & ? & Hr); exists h'; (split; [done|]); (split; [done|]); [by apply IH|exact Hr].
Qed.

(** A component's program inside its owner's state: what the rest of that state
    reserves is a parameter of the component's invariant. *)
Section Zoom.
Context {S X R W V : Type} (Inv : W -> S -> trace -> list R -> Prop) (InvX : V -> X -> trace -> list R -> Prop).
Context (g : S -> X) (put : X -> S -> S).
Hypothesis zooms : forall w s t G, Inv w s t G -> exists v, InvX v (g s) t G
  /\ forall x t' G', InvX v x t' G' -> t `suffix_of` t' -> Inv w (put x s) t' G'.

Lemma unwinds_zoom D t0 h d : unwinds InvX D t0 h d -> unwinds Inv D t0 h (map (zoom g put) d).
Proof.
  revert t0 h. induction d as [|m d IH]; intros t0 h Hd; cbn in *; [done|].
  intros w F s t Ht HI. apply wp_zoom. destruct (zooms _ _ _ _ HI) as (v & HX & Hput).
  eapply wp_mono; [by eapply Hd|]. intros r x t' (h' & HX' & Ht' & Hr). exists h'. auto.
Qed.
Lemma owns_zoom {E A D} (Q : trace -> list R -> result E A -> Prop) t0 h (q : prog X E A) :
  tidy InvX D Q t0 h q -> tidy Inv D Q t0 h (pzoom g put q).
Proof.
  revert t0 h. induction q as [r|B m d k IH]; intros t0 h Hq; cbn in *; [done|].
  destruct Hq as [Hd Hq]. split; [by apply unwinds_zoom|].
  intros w F s t Ht HI. apply wp_zoom. destruct (zooms _ _ _ _ HI) as (v & HX & Hput).
  eapply wp_mono; [by eapply Hq|]. intros r x t' (h' & HX' & Ht' & Hr). exists h'.
  split; [by apply Hput|]. split; [done|]. destruct r; [by apply IH|done].
Qed.
End Zoom.

(** The same for a task that keeps [kept] meanwhile. *)
Section ZoomKept.
Context {S X R W V : Type} (Inv : W -> S -> trace -> list R -> Prop) (InvX : V -> X -> trace -> list R -> Prop).
Context (g : S -> X) (put : X -> S -> S) (kept : list R).
Hypothesis zooms : forall w s t G, Inv w s t (kept ++ G) -> exists v, InvX v (g s) t G
  /\ forall x t' G', InvX v x t' G' -> t `suffix_of` t' -> Inv w (put x s) t' (kept ++ G').
Definition keeping (D : list R -> Prop) (h : list R) : Prop := exists h1, h = kept ++ h1 /\ D h1.

Lemma unwinds_zoom_kept D t0 h d :
  unwinds InvX D t0 h d -> unwinds Inv (keeping D) t0 (kept ++ h) (map (zoom g put) d).
Proof.
  revert t0 h. induction d as [|m d IH]; intros t0 h Hd; cbn in *; [by exists h|].
  intros w F s t Ht HI. rewrite <- app_assoc in HI. apply wp_zoom. destruct (zooms _ _ _ _ HI) as (v & HX & Hput).
  eapply wp_mono; [by eapply Hd|]. intros r x t' (h' & HX' & Ht' & Hr). exists (kept ++ h').
  rewrite <- app_assoc. auto.
Qed.
Lemma owns_zoom_kept {E A} D (Q : trace -> list R -> result E A -> Prop) t0 h (q : prog X E A) :
  tidy InvX D Q t0 h q ->
  tidy Inv (keeping D) (fun t h' r => keeping (fun h1 => Q t h1 r) h') t0 (kept ++ h) (pzoom g put q).
Proof.
  revert t0 h. induction q as [r|B m d k IH]; intros t0 h Hq; cbn in *; [by exists h|].
  destruct Hq as [Hd Hq]. split; [by apply unwinds_zoom_kept|].
  intros w F s t Ht HI. rewrite <- app_assoc in HI. apply wp_zoom. destruct (zooms _ _ _ _ HI) as (v & HX & Hput).
  eapply wp_mono; [by eapply Hq|]. intros r x t' (h' & HX' & Ht' & Hr). exists (kept ++ h').
  rewrite <- app_assoc. split; [by apply Hput|]. split; [done|]. destruct r; [by apply IH|by exists h'].
Qed.
End ZoomKept.

(** A component that touches nothing that is owned. *)
Section Silent.
Context {S X R W : Type} (Inv : W -> S -> trace -> list R -> Prop) (P : event -> Prop).
Context (g : S -> X) (put : X -> S -> S).
Hypothesis silent : forall w s t G x t', Inv w s t G -> extends P t t' -> Inv w (put x s) t' G.

Lemma unwinds_zoom_silent (D : list R -> Prop) t0 h d :
  D h -> Forall (emits P) d -> unwinds Inv D t0 h (map (zoom g put) d).
Proof.
  intros HD He. revert t0. induction He as [|m d Hm _ IH]; intros t0; cbn; [done|].
  intros w F s t Ht HI. apply wp_zoom. unfold wp. specialize (Hm (g s) t).
  destruct (m (g s) t) as [[r x] t']. cbn in Hm. exists h. split; [by eapply silent|]. split; [|done].
  destruct Hm as (l & -> & _). by exists l.
Qed.
Lemma tidy_zoom_silent {E A} (D : list R -> Prop) t0 h (q : prog X E A) :
  D h -> pemits P q -> tidy Inv D (fun _ h' _ => h' = h) t0 h (pzoom g put q).
Proof.
  intros HD. revert t0. induction q as [r|B m d k IH]; intros t0 He; cbn in *; [done|].
  destruct He as (Hm & Hd & Hk). split; [by apply unwinds_zoom_silent|].
  intros w F s t Ht HI. apply wp_zoom. unfold wp. specialize (Hm (g s) t).
  destruct (m (g s) t) as [[r x] t']. cbn in Hm. exists h. split; [by eapply silent|].
  split; [destruct Hm as (l & -> & _); by exists l|]. destruct r; [by apply IH|done].
Qed.
Lemma owns_zoom_silent {E A} t0 h (q : prog X E A) :
  pemits P q -> owns Inv (fun _ h' _ => h' = h) t0 h (pzoom g put q).
Proof. by apply tidy_zoom_silent. Qed.
End Silent.

(** Adequacy: if every task starts with nothing and the rest of the process
    respects what is owned, the invariant holds in every reachable
    configuration, tasks that are dropped included; and what a task still owns
    when it is over satisfies [L] of its outcome, or [D] where it was dropped. *)
Section Adequacy.
Context {K S E A R W : Type} (body : K -> prog S E A) (rely : S * trace -> S * trace -> Prop).
Context (Inv : W -> S -> trace -> list R -> Prop) (w : W) (D : list R -> Prop) (L : result E A -> list R -> Prop).
Hypothesis dropped_left : forall r h, D h -> L r h.
Hypothesis Inv_perm : forall s t G G', G ≡ₚ G' -> Inv w s t G -> Inv w s t G'.
Hypothesis rely_inv : forall s t G s' t',
  Inv w s t G -> rely (s, t) (s', t') -> Inv w s' t' G /\ t `suffix_of` t'.

Abbreviation task_owns := (tidy Inv D (fun _ h r => L r h)).
Hypothesis body_owns : forall k t, task_owns t [] (body k).

Definition left_inv (c : config (K := K) (S := S) (E := E) (A := A)) : Prop :=
  exists hs, Inv w (shared c) (history c) (concat hs)
    /\ Forall2 (fun kp h => task_owns (history c) h kp.2) (tasks c) hs.

Lemma owns_later t0 t1 h (p : prog S E A) : t0 `suffix_of` t1 -> task_owns t0 h p -> task_owns t1 h p.
Proof.
  intros Ht. destruct p as [r|B m d k]; [done|]. intros [Hd Hp].
  split; [by eapply unwinds_later|]. intros w' F s t Ht1. apply Hp. by etrans.
Qed.

Lemma concat_insert (hs : list (list R)) i h :
  hs !! i = Some h -> exists F, concat hs ≡ₚ h ++ F /\ forall h', concat (<[i := h']> hs) ≡ₚ h' ++ F.
Proof.
  revert i. induction hs as [|h0 hs IH]; intros [|i]; [done..| |].
  - intros [= ->]. by exists (concat hs).
  - intros Hi. destruct (IH i Hi) as (F & HF & HF'). exists (h0 ++ F). cbn. split.
    + rewrite HF. solve_Permutation.
    + intros h'. rewrite HF'. solve_Permutation.
Qed.

Lemma left_inv_step c c' : left_inv c -> sched_step body rely c c' -> left_inv c'.
Proof.
  intros (hs & HI & Hts) Hstep.
  assert (Hlater : forall t t' ts, t `suffix_of` t' ->
    Forall2 (fun (kp : K * prog S E A) h => task_owns t h kp.2) ts hs ->
    Forall2 (fun kp h => task_owns t' h kp.2) ts hs).
  { intros t t' ts Ht Hf. eapply Forall2_impl; [exact Hf|]. intros kp h. by apply owns_later. }
  destruct Hstep as [k ts s t|i k p p' ts s t s' t' Hi Hp|ts s t s' t' Hr]; cbn in *.
  - exists (hs ++ [[]]). rewrite concat_app. cbn. rewrite app_nil_r. split; [done|].
    apply Forall2_app; [done|]. constructor; [apply body_owns|constructor].
  - destruct (Forall2_lookup_l _ _ _ _ _ Hts Hi) as (h & Hh & Hk). cbn in Hk.
    destruct (concat_insert hs i h Hh) as (F & HF & HF').
    destruct p as [r|B m d f]; [done|]. cbn in Hp, Hk. destruct Hk as [_ Hk].
    specialize (Hk w F s t ltac:(done) (Inv_perm _ _ _ _ HF HI)). unfold wp in Hk.
    destruct (m s t) as [[r s1] t1]. injection Hp as <- <- <-.
    destruct Hk as (h' & HI' & Ht & Hr). exists (<[i := h']> hs). cbn.
    split; [by eapply Inv_perm; [symmetry; apply HF'|]|].
    apply Forall2_insert; [by eapply Hlater|]. by destruct r.
  - destruct (rely_inv _ _ _ _ _ HI Hr) as [HI' Ht]. exists hs. split; [done|]. by eapply Hlater.
Qed.

Lemma left_inv_drop c c' : left_inv c -> drop_step body rely c c' -> left_inv c'.
Proof.
  intros Hc Hstep. destruct Hstep as [c c' Hs|i k r B m d f ts s t Hi]; [by eapply left_inv_step|].
  destruct Hc as (hs & HI & Hts). destruct (Forall2_lookup_l _ _ _ _ _ Hts Hi) as (h & Hh & [Hd _]).
  exists hs. split; [done|]. cbn. rewrite <- (list_insert_id hs i h Hh). apply Forall2_insert; [done|].
  eapply tidy_unwind_then; [exact Hd|done|].
  intros t1 h1 _. apply dropped_left.
Qed.

Lemma left_inv_reachable s t c :
  Inv w s t [] -> rtc (drop_step body rely) (mkConfig [] s t) c -> left_inv c.
Proof.
  intros HI Hr. assert (Hc : left_inv (mkConfig [] s t)) by (by exists []).
  clear HI. induction Hr as [|? ? ? Hs _ IH]; [done|]. by apply IH, (left_inv_drop _ _ Hc).
Qed.

(** When every task is over, each left tokens that satisfy [L]. *)
Lemma left_inv_over c :
  left_inv c -> (forall i k p, tasks c !! i = Some (k, p) -> exists r, p = PDone r) ->
  exists hs, Inv w (shared c) (history c) (concat hs)
    /\ Forall2 (fun kp h => exists r, kp.2 = PDone r /\ L r h) (tasks c) hs.
Proof.
  intros (hs & HI & Hts) Hover. exists hs. split; [done|]. apply Forall2_same_length_lookup.
  split; [by eapply Forall2_length|]. intros i [k p] h Hi Hh.
  destruct (Hover i k p Hi) as [r ->]. exists r. split; [done|]. by apply (Forall2_lookup_lr _ _ _ _ _ _ Hts Hi Hh).
Qed.
End Adequacy.

(** Where the outcome does not matter. *)
Abbreviation owned_inv Inv w D := (left_inv Inv w D (fun _ h => D h)).
Section Outcomes.
Context {K S E A R W : Type} (body : K -> prog S E A) (rely : S * trace -> S * trace -> Prop).
Context (Inv : W -> S -> trace -> list R -> Prop) (w : W) (D : list R -> Prop).

Lemma owned_inv_reachable s t (c : config (K := K) (S := S) (E := E) (A := A)) :
  (forall s t G G', G ≡ₚ G' -> Inv w s t G -> Inv w s t G') ->
  (forall s t G s' t', Inv w s t G -> rely (s, t) (s', t') -> Inv w s' t' G /\ t `suffix_of` t') ->
  (forall k t, tidy Inv D (fun _ h _ => D h) t [] (body k)) ->
  Inv w s t [] -> rtc (drop_step body rely) (mkConfig [] s t) c -> owned_inv Inv w D c.
Proof. intros. by eapply left_inv_reachable. Qed.
Lemma owned_inv_over (c : config (K := K) (S := S) (E := E) (A := A)) :
  owned_inv Inv w D c -> (forall i k p, tasks c !! i = Some (k, p) -> exists r, p = PDone r) ->
  exists hs, Inv w (shared c) (history c) (concat hs) /\ Forall D hs.
Proof.
  intros HI Hover. destruct (left_inv_over _ _ _ _ _ HI Hover) as (hs & HI' & Hl). exists hs. split; [done|].
  eapply Forall2_Forall_r; [exact Hl|]. apply Forall_true. by intros [k p] h (r & _ & Hh).
Qed.
End Outcomes.

(** ** Programs that leave a part of the state as it is, and do only [P] *)

Definition spares {S X E A} (g : S -> X) (P : event -> Prop) (m : M S E A) : Prop :=
  forall s t, g (m s t).1.2 = g s /\ extends P t (m s t).2.
Fixpoint pspares {S X E A} (g : S -> X) (P : event -> Prop) (q : prog S E A) : Prop :=
  match q with
  | PDone _ => True
  | PStep m d k => spares g P m /\ Forall (spares g P) d /\ forall b, pspares g P (k b)
  end.

Section Spares.
Context {S X : Type} (g : S -> X) (P : event -> Prop).

Lemma spares_inert {E A} (m : M S E A) : inert P m -> spares g P m.
Proof. intros Hm s t. by destruct (Hm s t) as [-> He]. Qed.
Lemma spares_io {E A} (f : trace -> A) ev : (forall a, P (ev a)) -> spares (E := E) g P (io_event f ev).
Proof. intros Hev s t. split; [done|]. by apply extends_cons. Qed.
Lemma pspares_pending {E A} d (m : M S E A) : spares g P m -> Forall (spares g P) d -> pspares g P (pending d m).
Proof. intros Hm Hd. by split_and!. Qed.
Lemma pspares_bind {E A C} (q : prog S E A) (f : A -> prog S E C) :
  pspares g P q -> (forall a, pspares g P (f a)) -> pspares g P (pbind q f).
Proof.
  intros Hq Hf. induction q as [[a|e]|B m d k IH]; cbn in *; [apply Hf|done|].
  destruct Hq as (Hm & Hd & Hk). split_and!; [done..|]. intros b. by apply IH.
Qed.
Lemma pspares_attempt {E F A} (q : prog S E A) : pspares g P q -> pspares (E := F) g P (pattempt q).
Proof.
  induction q as [r|B m d k IH]; cbn; [done|]. intros (Hm & Hd & Hk). split_and!; [|done|].
  - intros s t. specialize (Hm s t). unfold attempt. by destruct (m s t) as [[r s'] t'].
  - intros [b|e]; [by apply IH|done].
Qed.
Lemma pspares_with_err {E F A} (f : E -> F) (q : prog S E A) : pspares g P q -> pspares g P (pwith_err f q).
Proof.
  induction q as [r|B m d k IH]; cbn; [done|]. intros (Hm & Hd & Hk). split_and!; [|done|].
  - intros s t. specialize (Hm s t). unfold with_err. by destruct (m s t) as [[r s'] t'].
  - intros b. by apply IH.
Qed.
Lemma pspares_guarded {E A} d (q : prog S E A) : Forall (spares g P) d -> pspares g P q -> pspares g P (guarded d q).
Proof.
  intros Hd. induction q as [r|B m d' k IH]; cbn; [done|]. intros (Hm & Hd' & Hk).
  split_and!; [done|apply Forall_app; by split|]. intros b. by apply IH.
Qed.
Lemma pspares_unwind {E} d : Forall (spares g P) d -> pspares (E := E) g P (unwind d).
Proof.
  induction 1 as [|m d Hm Hd IH]; cbn; [done|]. split_and!; [|by constructor|done].
  intros s t. specialize (Hm s t). unfold infallible, with_err. by destruct (m s t) as [[r s'] t'].
Qed.
(** A program on another part. *)
Lemma pspares_zoom {Y E A} (get : S -> Y) (put : Y -> S -> S) (q : prog Y E A) :
  (forall y s, g (put y s) = g s) -> pemits P q -> pspares g P (pzoom get put q).
Proof.
  intros Hput. assert (Hm : forall F B (m : M Y F B), emits P m -> spares g P (zoom get put m)).
  { intros F B m Hm s t. specialize (Hm (get s) t). unfold zoom. destruct (m (get s) t) as [[r y] t'].
    split; [apply Hput|exact Hm]. }
  induction q as [r|B m d k IH]; cbn; [done|]. intros (Hem & Hd & Hk). split_and!; [by apply Hm| |intros b; by apply IH].
  apply Forall_map. eapply Forall_impl; [exact Hd|]. intros m'. apply Hm.
Qed.

Lemma pspares_mono {E A} (P' : event -> Prop) (q : prog S E A) :
  (forall ev, P ev -> P' ev) -> pspares g P q -> pspares g P' q.
Proof.
  intros HP. assert (Hm : forall F B (m : M S F B), spares g P m -> spares g P' m).
  { intros F B m Hm s t. destruct (Hm s t) as [Hs He]. split; [done|by eapply extends_mono]. }
  induction q as [r|B m d k IH]; cbn; [done|]. intros (Hem & Hd & Hk). split_and!; [by apply Hm| |intros b; by apply IH].
  eapply Forall_impl; [exact Hd|]. intros m'. apply Hm.
Qed.

(** Such programs keep what is said of that part. *)
Lemma tidy_spares {E A R W} (Inv : W -> S -> trace -> list R -> Prop) (D : list R -> Prop) t0 h (q : prog S E A) :
  (forall w s t s' t' G, g s' = g s -> extends P t t' -> Inv w s t G -> Inv w s' t' G) ->
  D h -> pspares g P q -> tidy Inv D (fun _ h' _ => h' = h) t0 h q.
Proof.
  intros HI HD. revert t0. induction q as [r|B m d k IH]; intros t0; cbn; [done|]. intros (Hm & Hd & Hk). split.
  - clear -HI HD Hd. revert t0. induction Hd as [|m d Hm _ IH]; intros t0; cbn; [done|].
    intros w F s t _ Hi. unfold wp. specialize (Hm s t). destruct (m s t) as [[r s'] t']. destruct Hm as [Hs Ht].
    exists h. split; [by eapply HI|]. split; [by eapply extends_suffix|apply IH].
  - intros w F s t _ Hi. unfold wp. specialize (Hm s t). destruct (m s t) as [[r s'] t']. destruct Hm as [Hs Ht].
    exists h. split; [by eapply HI|]. split; [by eapply extends_suffix|]. destruct r; [by apply IH|done].
Qed.
End Spares.

(** One step of a proof that a program spares a part. *)
Ltac spares_step :=
  lazymatch goal with
  | |- pspares _ _ (pbind _ _) => apply pspares_bind; [|intros]
  | |- pspares _ _ (pure _) => exact I
  | |- pspares _ _ (PDone _) => exact I
  | |- pspares _ _ (pattempt _) => apply pspares_attempt
  | |- pspares _ _ (pwith_err _ _) => apply pspares_with_err
  | |- pspares _ _ (guarded _ _) => apply pspares_guarded
  | |- pspares _ _ (unwind _) => apply pspares_unwind
  | |- pspares _ _ (atom _) => apply pspares_pending
  | |- pspares _ _ (pending _ _) => apply pspares_pending
  | |- pspares _ _ (awaiting _ _) => apply pspares_pending
  | |- pspares _ _ (match ?x with _ => _ end) => destruct x
  | |- Forall _ [] => constructor
  | |- Forall _ (_ :: _) => constructor
  | |- spares _ _ _ => apply spares_io; intros; try exact I
  end.

(** ** Sockets as tokens

    A token is a socket with all that happened on it. *)

(** The sockets an event is about (options set on listeners and the like apart). *)
Definition socks_of (ev : event) : list sock :=
  match ev with
  | EvConnect _ _ (Done (Ok s)) | EvCall (Accept _) (Ok s) => [s]
  | EvNodelay s _ | EvSockopt s _ _ _ | EvWrite s _ _ | EvFlush s _ | EvReadable s _ | EvRead s _ _
  | EvReadLine s _ | EvTlsAccept s _ | EvHttpHandshake s _ | EvHttpSend s _ _ _
  | EvHttpResponseBody s _ | EvHttpRequest s _ | EvHttpReply s _ | EvClose s => [s]
  | EvCopy client backend => [client; backend]
  | _ => []
  end.

(** What happened on [s], newest first; whether it is a connection that was made
    or accepted, and is not closed. *)
Definition on_sock (s : sock) (t : trace) : trace := filter (fun ev => s ∈ socks_of ev) t.
Fixpoint is_open (s : sock) (t : trace) : bool :=
  match t with
  | [] => false
  | EvConnect _ _ (Done (Ok s')) :: t' | EvCall (Accept _) (Ok s') :: t' => (s' =? s) || is_open s t'
  | EvClose s' :: t' => negb (s' =? s) && is_open s t'
  | _ :: t' => is_open s t'
  end.

(** The kernel gives a new connection no descriptor that is open. *)
Definition fresh_descriptors `{Env} : Prop :=
  (forall t host port limit s, env_connect t host port limit = Done (Ok s) -> is_open s t = false)
  /\ (forall t listener s, env_call t (Accept listener) = Ok s -> is_open s t = false).

(** [P] of every event and the history before it. *)
Fixpoint always (P : event -> trace -> Prop) (t : trace) : Prop :=
  match t with
  | [] => True
  | ev :: t' => P ev t' /\ always P t'
  end.

Lemma always_at P l ev t : always P (l ++ ev :: t) -> P ev t.
Proof. induction l as [|ev' l IH]; cbn; intros [HP Ht]; [done|by apply IH]. Qed.

(** In a stretch of the history after [t0], exactly [evs] (newest first) happened
    on [s]. *)
Definition stretch (s : sock) (evs : trace) (t0 t : trace) : Prop :=
  exists l' l t1, t = l' ++ l ++ t1 /\ t0 `suffix_of` t1 /\ on_sock s l = evs.

Lemma stretch_later s evs t0 t t' : t `suffix_of` t' -> stretch s evs t0 t -> stretch s evs t0 t'.
Proof.
  intros [k ->] (l' & l & t1 & -> & Ht & Ho). exists (k ++ l'), l, t1. by rewrite <- !app_assoc.
Qed.

Lemma on_sock_app s l t : on_sock s (l ++ t) = on_sock s l ++ on_sock s t.
Proof. apply filter_app. Qed.

(** What happened on [s] since, by its logs then and now. *)
Lemma since_then s l t evs log : on_sock s (l ++ t) = evs ++ log -> on_sock s t = log -> on_sock s l = evs.
Proof. rewrite on_sock_app. intros Hl <-. by apply app_inv_tail in Hl. Qed.

Lemma on_sock_untouched s ev t : s ∉ socks_of ev -> on_sock s (ev :: t) = on_sock s t.
Proof. intros Hs. unfold on_sock. by rewrite filter_cons_False. Qed.
Lemma on_sock_touched s ev t : s ∈ socks_of ev -> on_sock s (ev :: t) = ev :: on_sock s t.
Proof. intros Hs. unfold on_sock. by rewrite filter_cons_True. Qed.

Lemma is_open_untouched s ev t : s ∉ socks_of ev -> is_open s (ev :: t) = is_open s t.
Proof.
  assert (Hne : forall s', s ∉ [s'] -> (s' =? s) = false).
  { intros s' Hs. apply Z.eqb_neq. intros ->. apply Hs. by left. }
  destruct ev as [| | | |? ? [[]|]| | | | | | | | | | |[] []| | | | | | | | ]; cbn; intros Hs; try done;
    by rewrite (Hne _ Hs).
Qed.

(** Nothing but its close event closes a socket. *)
Lemma is_open_stays s ev t : ev <> EvClose s -> is_open s t = true -> is_open s (ev :: t) = true.
Proof.
  intros Hev Ho. destruct ev as [| | | |? ? [[]|]| | | | | | | | | | |[] []| | | | | | | |s']; cbn; try done;
    try (rewrite Ho; by rewrite orb_true_r).
  rewrite Ho, andb_true_r. apply negb_true_iff, Z.eqb_neq. congruence.
Qed.

(** ** Sockets are in one place *)
Section Exclusive.
Context {N : Type} `{EqDecision N}.
Implicit Types (idle : N -> list sock) (t : trace) (G : list (sock * trace)) (w : sock -> Prop).

(** Every connection is owned by one task, idle once in one place (a pool), or
    reserved elsewhere; all of them are open, and the tokens know their
    history. *)
Record exclusive w idle t G : Prop := mkExclusive {
  ex_held : NoDup G.*1;
  ex_log : forall s log, (s, log) ∈ G -> is_open s t = true /\ on_sock s t = log;
  ex_reserved : forall s, w s -> is_open s t = true /\ s ∉ G.*1;
  ex_idle : forall name s, s ∈ idle name -> is_open s t = true /\ s ∉ G.*1 /\ ~ w s;
  ex_once : forall name, NoDup (idle name);
  ex_apart : forall name name' s, s ∈ idle name -> s ∈ idle name' -> name = name' }.

Lemma exclusive_perm w idle t G G' : G ≡ₚ G' -> exclusive w idle t G -> exclusive w idle t G'.
Proof.
  intros HG [H1' H2' H3' H4' H5' H6']. split; try done.
  - by rewrite <- HG.
  - intros s log. rewrite <- HG. apply H2'.
  - intros s. rewrite <- HG. apply H3'.
  - intros name s. rewrite <- HG. apply H4'.
Qed.

(** The idle connections, pointwise. *)
Lemma exclusive_idle w idle idle' t G :
  (forall name, idle' name = idle name) ->
  exclusive w idle t G -> exclusive w idle' t G.
Proof.
  intros Hp [H1' H2' H3' H4' H5' H6']. split; try done.
  - intros name s. rewrite Hp. apply H4'.
  - intros name. rewrite Hp. apply H5'.
  - intros name name' s. rewrite !Hp. apply H6'.
Qed.

(** An event on no connection that is open. *)
Lemma exclusive_elsewhere w idle t G ev :
  (forall s, is_open s t = true -> s ∉ socks_of ev) ->
  exclusive w idle t G -> exclusive w idle (ev :: t) G.
Proof.
  intros Hev [H1' H2' H3' H4' H5' H6'].
  assert (Ho : forall s, is_open s t = true -> is_open s (ev :: t) = true).
  { intros s Hs. rewrite is_open_untouched; [done|by apply Hev]. }
  split; try done.
  - intros s log Hin. destruct (H2' _ _ Hin) as [Hs Hl]. split; [by apply Ho|].
    rewrite on_sock_untouched; [done|by apply Hev].
  - intros s Hs. destruct (H3' _ Hs). split; [by apply Ho|done].
  - intros name s Hs. destruct (H4' _ _ Hs) as (? & ? & ?). split; [by apply Ho|done].
Qed.

(** An event on an owned connection. *)
Lemma exclusive_on_own w idle t G s log ev :
  socks_of ev = [s] -> ev <> EvClose s ->
  exclusive w idle t ((s, log) :: G) -> exclusive w idle (ev :: t) ((s, ev :: log) :: G).
Proof.
  intros Hev Hc [H1' H2' H3' H4' H5' H6'].
  assert (Hs : is_open s t = true /\ on_sock s t = log) by (apply H2'; left).
  assert (Ho : forall s', s' <> s -> is_open s' (ev :: t) = is_open s' t).
  { intros s' Hne. apply is_open_untouched. rewrite Hev. set_solver. }
  split; try done.
  - intros s' log' [[= -> ->]|Hin]%elem_of_cons.
    + destruct Hs as [Hs Hl]. split; [by apply is_open_stays|].
      rewrite on_sock_touched; [by rewrite Hl|]. rewrite Hev. set_solver.
    + cbn in H1'. apply NoDup_cons in H1' as [Hn _].
      assert (Hne : s' <> s). { intros ->. apply Hn, list_elem_of_fmap. by exists (s, log'). }
      destruct (H2' s' log') as [? ?]; [by right|]. rewrite Ho by done. split; [done|].
      rewrite on_sock_untouched; [done|]. rewrite Hev. set_solver.
  - intros s' Hw. destruct (H3' _ Hw) as [? ?]. split; [|done]. rewrite Ho; [done|set_solver].
  - intros name s' Hi. destruct (H4' _ _ Hi) as (? & ? & ?). split; [|done]. rewrite Ho; [done|set_solver].
Qed.

Lemma exclusive_forget w idle t G tok : exclusive w idle t (tok :: G) -> exclusive w idle t G.
Proof.
  intros [H1' H2' H3' H4' H5' H6']. cbn in *. apply NoDup_cons in H1' as [_ H1']. split; try done.
  - intros s log Hin. apply H2'. by right.
  - intros s Hw. destruct (H3' _ Hw). split; [done|set_solver].
  - intros name s Hi. destruct (H4' _ _ Hi) as (? & ? & ?). split; [done|set_solver].
Qed.

(** Closing an owned connection. *)
Lemma exclusive_close w idle t G s log :
  exclusive w idle t ((s, log) :: G) -> exclusive w idle (EvClose s :: t) G.
Proof.
  intros He. pose proof (exclusive_forget _ _ _ _ _ He) as [H1' H2' H3' H4' H5' H6'].
  destruct He as [Hh _ Hr Hi _ _]. cbn in Hh. apply NoDup_cons in Hh as [Hn _].
  assert (Ho : forall s', s' <> s -> is_open s' (EvClose s :: t) = is_open s' t).
  { intros s' Hne. apply is_open_untouched. set_solver. }
  split; try done.
  - intros s' log' Hin.
    assert (Hne : s' <> s). { intros ->. apply Hn, list_elem_of_fmap. by exists (s, log'). }
    rewrite Ho, on_sock_untouched by set_solver. by apply H2'.
  - intros s' Hw. destruct (Hr _ Hw) as [? ?]. rewrite Ho by set_solver. by apply H3'.
  - intros name s' Hs. destruct (Hi _ _ Hs) as (? & ? & ?). rewrite Ho by set_solver. by eapply H4'.
Qed.

(** A new connection is owned by who made it. *)
Lemma exclusive_open w idle t G s ev :
  is_open s t = false -> socks_of ev = [s] -> is_open s (ev :: t) = true ->
  exclusive w idle t G -> exclusive w idle (ev :: t) ((s, on_sock s (ev :: t)) :: G).
Proof.
  intros Hf Hev Hopen [H1' H2' H3' H4' H5' H6'].
  assert (Hne : forall s', is_open s' t = true -> s' <> s) by (intros s' Hs ->; congruence).
  assert (Ho : forall s', is_open s' t = true -> is_open s' (ev :: t) = true).
  { intros s' Hs. rewrite is_open_untouched; [done|]. rewrite Hev. specialize (Hne _ Hs). set_solver. }
  assert (HG : s ∉ G.*1).
  { intros ([s' log] & -> & Hin)%list_elem_of_fmap. by apply (Hne s'); [apply (H2' _ log)|]. }
  split.
  - cbn. by constructor.
  - intros s' log [[= -> ->]|Hin]%elem_of_cons; [done|]. destruct (H2' _ _ Hin) as [Hs Hl].
    split; [by apply Ho|]. rewrite on_sock_untouched; [done|]. rewrite Hev. specialize (Hne _ Hs). set_solver.
  - intros s' Hw. destruct (H3' _ Hw) as [Hs ?]. split; [by apply Ho|]. specialize (Hne _ Hs). set_solver.
  - intros name s' Hi. destruct (H4' _ _ Hi) as (Hs & ? & ?). split; [by apply Ho|]. specialize (Hne _ Hs). set_solver.
  - done.
  - done.
Qed.

(** An idle connection is taken out of its pool, and put back. *)
Lemma exclusive_take w idle idle' t G name s rest :
  idle name = s :: rest -> idle' name = rest ->
  (forall name', name' <> name -> idle' name' = idle name') ->
  exclusive w idle t G -> exclusive w idle' t ((s, on_sock s t) :: G).
Proof.
  intros Hi Hi' Hother [H1' H2' H3' H4' H5' H6'].
  assert (Hsub : forall name' s', s' ∈ idle' name' -> s' ∈ idle name' /\ s' <> s).
  { intros name' s' Hin. destruct (decide (name' = name)) as [->|Hne].
    - rewrite Hi' in Hin. rewrite Hi. split; [by right|]. intros ->.
      specialize (H5' name). rewrite Hi in H5'. by apply NoDup_cons in H5' as [? _].
    - rewrite Hother in Hin by done. split; [done|]. intros ->. apply Hne.
      apply (H6' name' name s); [done|]. rewrite Hi. by left. }
  destruct (H4' name s) as (Hs & HsG & Hsw); [rewrite Hi; by left|].
  split.
  - cbn. by constructor.
  - intros s' log [[= -> ->]|Hin]%elem_of_cons; [done|by apply H2'].
  - intros s' Hw. destruct (H3' _ Hw). split; [done|]. cbn. rewrite not_elem_of_cons. split; [|done].
    intros ->. done.
  - intros name' s' Hin. destruct (Hsub _ _ Hin) as [Hin' Hne]. destruct (H4' _ _ Hin') as (? & ? & ?).
    split; [done|]. split; [|done]. cbn. by rewrite not_elem_of_cons.
  - intros name'. destruct (decide (name' = name)) as [->|Hne].
    + rewrite Hi'. specialize (H5' name). rewrite Hi in H5'. by apply NoDup_cons in H5' as [_ ?].
    + rewrite Hother by done. apply H5'.
  - intros n1 n2 s' Hin1 Hin2. apply (H6' n1 n2 s'); by apply Hsub.
Qed.

Lemma exclusive_put w idle idle' t G name s log :
  idle' name = idle name ++ [s] ->
  (forall name', name' <> name -> idle' name' = idle name') ->
  exclusive w idle t ((s, log) :: G) -> exclusive w idle' t G.
Proof.
  intros Hi Hother He. pose proof (exclusive_forget _ _ _ _ _ He) as [H1' H2' H3' H4' H5' H6'].
  destruct He as [Hh Hl Hr Hid _ _]. cbn in Hh. apply NoDup_cons in Hh as [Hn _].
  assert (Hs : forall name', s ∉ idle name').
  { intros name' Hin. destruct (Hid _ _ Hin) as (_ & Hx & _). apply Hx. by left. }
  assert (Hin : forall name' s', s' ∈ idle' name' ->
            s' ∈ idle name' \/ s' = s /\ name' = name).
  { intros name' s' Hx. destruct (decide (name' = name)) as [->|Hne].
    - rewrite Hi in Hx. apply elem_of_app in Hx as [Hx|Hx%list_elem_of_singleton]; [by left|by right].
    - rewrite Hother in Hx by done. by left. }
  split; try done.
  - intros name' s' [Hx|[-> ->]]%Hin; [by eapply H4'|]. split; [by apply (Hl s log); left|].
    split; [done|]. intros Hw. destruct (Hr _ Hw) as [_ Hx]. apply Hx. by left.
  - intros name'. destruct (decide (name' = name)) as [->|Hne]; [|by rewrite Hother].
    rewrite Hi. apply NoDup_app. split; [done|]. split; [|apply NoDup_singleton].
    intros x Hx Hx'%list_elem_of_singleton. subst. by apply (Hs name).
  - intros n1 n2 s' [Hx|[-> ->]]%Hin [Hy|[Hz ->]]%Hin; try done; [by eapply H6'|subst; by apply Hs in Hx|by apply Hs in Hy].
Qed.

Lemma exclusive_nothing : exclusive (fun _ => False) (fun _ : N => []) [] [].
Proof.
  split; try done; [apply NoDup_nil_2|by intros ? ? ?%elem_of_nil|by intros ? ? ?%elem_of_nil|
    intros; apply NoDup_nil_2|by intros ? ? ? ?%elem_of_nil].
Qed.
End Exclusive.

(** What others may do: events of a kind, on no connection that is open. *)
Definition leaves_connections (P : event -> Prop) : trace -> trace -> Prop :=
  rtc (fun t t' => exists ev, t' = ev :: t /\ P ev /\ forall s, is_open s t = true -> s ∉ socks_of ev).

Lemma leaves_suffix P t t' : leaves_connections P t t' -> t `suffix_of` t'.
Proof. induction 1 as [|t t1 t2 (ev & -> & _) _ IH]; [done|]. etrans; [|exact IH]. by exists [ev]. Qed.

(** Events that open nothing, in a process that has no connection. *)
Definition opens_nothing (ev : event) : Prop :=
  match ev with EvConnect _ _ _ | EvCall (Accept _) _ => False | _ => True end.
Lemma opens_nothing_apart (P : event -> Prop) t t' :
  extends (fun ev => opens_nothing ev /\ P ev) t t' -> (forall s, is_open s t = false) ->
  leaves_connections P t t' /\ forall s, is_open s t' = false.
Proof.
  intros (l & -> & Hl) Ht. induction Hl as [|ev l [Hev HP] _ [IH Ho]]; [done|]. cbn. split.
  - eapply rtc_r; [exact IH|]. exists ev. split; [done|]. split; [done|]. intros s. by rewrite Ho.
  - intros s. destruct ev as [| | | | | | | | | | | | | | |[] ?| | | | | | | |]; cbn; try done. by rewrite Ho, andb_false_r.
Qed.

(** ** The invariant of processes whose tasks own connections

    Connections are in one place each ([idle] says where the shared state keeps
    some), and every event that happened was [ok]. *)
Section OwnInv.
Context {S N : Type} `{EqDecision N} (idle : S -> N -> list sock) (ok : event -> trace -> Prop).
Implicit Types (t : trace) (G : list (sock * trace)).

Definition own_inv (w : sock -> Prop) (s : S) t G : Prop := exclusive w (idle s) t G /\ always ok t.

(** The tokens know what happened; they are of different connections, all open. *)
Record knows (h : list (sock * trace)) t : Prop := mkKnows {
  knows_nodup : NoDup h.*1;
  knows_open : forall s log, (s, log) ∈ h -> is_open s t = true;
  knows_log : forall s log, (s, log) ∈ h -> on_sock s t = log }.

Lemma own_inv_perm w s t G G' : G ≡ₚ G' -> own_inv w s t G -> own_inv w s t G'.
Proof. intros HG [He Ht]. split; [by eapply exclusive_perm|done]. Qed.

Lemma own_inv_knows w s t h F : own_inv w s t (h ++ F) -> knows h t.
Proof.
  intros [[Hh Hl _ _ _ _] _]. rewrite fmap_app in Hh. apply NoDup_app in Hh as [Hh _].
  split; [done|..]; intros fd log Hin; apply (Hl fd log), elem_of_app; by left.
Qed.

Lemma own_inv_silent w s t G ev : socks_of ev = [] -> ok ev t -> own_inv w s t G -> own_inv w s (ev :: t) G.
Proof.
  intros Hev Hok [He Ht]. split; [|done]. apply exclusive_elsewhere; [|done].
  intros fd _. rewrite Hev. apply not_elem_of_nil.
Qed.
Lemma own_inv_on w s t G fd log ev :
  socks_of ev = [fd] -> ev <> EvClose fd -> ok ev t ->
  own_inv w s t ((fd, log) :: G) -> own_inv w s (ev :: t) ((fd, ev :: log) :: G).
Proof. intros Hev Hc Hok [He Ht]. split; [by apply exclusive_on_own|done]. Qed.
Lemma own_inv_close w s t G fd log :
  ok (EvClose fd) t -> own_inv w s t ((fd, log) :: G) -> own_inv w s (EvClose fd :: t) G.
Proof. intros Hok [He Ht]. split; [by eapply exclusive_close|done]. Qed.
Lemma own_inv_open w s t G fd ev :
  is_open fd t = false -> socks_of ev = [fd] -> is_open fd (ev :: t) = true -> ok ev t ->
  own_inv w s t G -> own_inv w s (ev :: t) ((fd, ev :: on_sock fd t) :: G) /\ fd ∉ G.*1.
Proof.
  intros Hf Hev Ho Hok [He Ht]. split.
  - split; [|done]. rewrite <- (on_sock_touched fd ev t) by (rewrite Hev; by left). by apply exclusive_open.
  - intros ([fd' log] & -> & Hin)%list_elem_of_fmap. cbn in Hf.
    destruct (ex_log _ _ _ _ He _ _ Hin) as [Hopen _]. congruence.
Qed.

(** A step of the others. *)
Lemma own_inv_leaves w s s' t t' G (P : event -> Prop) :
  (forall ev t, P ev -> ok ev t) -> (forall n, idle s' n = idle s n) -> leaves_connections P t t' ->
  own_inv w s t G -> own_inv w s' t' G.
Proof.
  intros Hok Hi Hl [He Ht]. apply (exclusive_idle _ _ _ _ _ Hi) in He.
  induction Hl as [|t t1 t2 (ev & -> & HP & Hev) _ IH]; [done|]. apply IH; [by apply exclusive_elsewhere|].
  split; [by apply Hok|done].
Qed.

(** ** Rules for I/O *)
Section Rules.
Context `{Env} {E A C : Type}.
Implicit Types (h : list (sock * trace)) (Q : trace -> list (sock * trace) -> result E C -> Prop).

Lemma tidy_silent D d (f : trace -> A) ev Q (k : A -> prog S E C) t0 h :
  unwinds own_inv D t0 h d -> (forall a, socks_of (ev a) = []) -> (forall t a, ok (ev a) t) ->
  (forall a t, t0 `suffix_of` t -> tidy own_inv D Q (ev a :: t) h (k a)) ->
  tidy own_inv D Q t0 h (pbind (pending d (io_event f ev)) k).
Proof.
  intros Hd Hev Hok Hk. split; [done|]. intros w F s t Ht HI. exists h. split; [by apply own_inv_silent|].
  split; [by eexists [_]|]. by apply Hk.
Qed.
Lemma owns_silent (f : trace -> A) ev Q (k : A -> prog S E C) t0 h :
  (forall a, socks_of (ev a) = []) -> (forall t a, ok (ev a) t) ->
  (forall a t, t0 `suffix_of` t -> owns own_inv Q (ev a :: t) h (k a)) ->
  owns own_inv Q t0 h (pbind (atom (io_event f ev)) k).
Proof. by apply (tidy_silent (fun _ => True) []). Qed.

Lemma tidy_on D d (f : trace -> A) ev Q (k : A -> prog S E C) t0 h fd log h1 :
  unwinds own_inv D t0 h d ->
  h ≡ₚ (fd, log) :: h1 -> (forall a, socks_of (ev a) = [fd]) -> (forall a, ev a <> EvClose fd) ->
  (forall t a, t0 `suffix_of` t -> knows h t -> ok (ev a) t) ->
  (forall a t, t0 `suffix_of` t -> knows h t -> tidy own_inv D Q (ev a :: t) ((fd, ev a :: log) :: h1) (k a)) ->
  tidy own_inv D Q t0 h (pbind (pending d (io_event f ev)) k).
Proof.
  intros Hd Hh Hev Hc Hok Hk. split; [done|]. intros w F s t Ht HI. pose proof (own_inv_knows _ _ _ _ _ HI) as Hkn.
  exists ((fd, ev (f t) :: log) :: h1). split; [|split; [by eexists [_]|by apply Hk]].
  apply own_inv_on; [done..|by apply Hok|]. eapply own_inv_perm; [|exact HI]. by rewrite Hh.
Qed.
Lemma owns_on (f : trace -> A) ev Q (k : A -> prog S E C) t0 h fd log h1 :
  h ≡ₚ (fd, log) :: h1 -> (forall a, socks_of (ev a) = [fd]) -> (forall a, ev a <> EvClose fd) ->
  (forall t a, t0 `suffix_of` t -> knows h t -> ok (ev a) t) ->
  (forall a t, t0 `suffix_of` t -> knows h t -> owns own_inv Q (ev a :: t) ((fd, ev a :: log) :: h1) (k a)) ->
  owns own_inv Q t0 h (pbind (atom (io_event f ev)) k).
Proof. by apply (tidy_on (fun _ => True) []). Qed.

Lemma owns_close Q (k : prog S E C) t0 h fd log h1 :
  h ≡ₚ (fd, log) :: h1 -> (forall t, ok (EvClose fd) t) ->
  (forall t, t0 `suffix_of` t -> owns own_inv Q (EvClose fd :: t) h1 k) ->
  owns own_inv Q t0 h (atom (io_close fd) ~;; k).
Proof.
  intros Hh Hok Hk. split; [done|]. intros w F s t Ht HI. exists h1. split; [|split; [by exists [EvClose fd]|by apply Hk]].
  apply (own_inv_close _ _ _ _ fd log); [done|]. eapply own_inv_perm; [|exact HI]. by rewrite Hh.
Qed.

(** Destructors: a connection that is closed, an operation that was under way. *)
Lemma unwinds_close D t0 h fd log h1 d :
  h ≡ₚ (fd, log) :: h1 -> (forall t, ok (EvClose fd) t) ->
  (forall t, t0 `suffix_of` t -> unwinds own_inv D (EvClose fd :: t) h1 d) ->
  unwinds own_inv D t0 h (io_close fd :: d).
Proof.
  intros Hh Hok Hd w F s t Ht HI. exists h1. split; [|split; [by exists [EvClose fd]|by apply Hd]].
  apply (own_inv_close _ _ _ _ fd log); [done|]. eapply own_inv_perm; [|exact HI]. by rewrite Hh.
Qed.
Lemma unwinds_on D t0 h fd log h1 ev d :
  h ≡ₚ (fd, log) :: h1 -> socks_of ev = [fd] -> ev <> EvClose fd -> (forall t, ok ev t) ->
  (forall t, t0 `suffix_of` t -> unwinds own_inv D (ev :: t) ((fd, ev :: log) :: h1) d) ->
  unwinds own_inv D t0 h (io_event (fun _ => tt) (fun _ => ev) :: d).
Proof.
  intros Hh Hev Hc Hok Hd w F s t Ht HI. exists ((fd, ev :: log) :: h1). split; [|split; [by exists [ev]|by apply Hd]].
  apply own_inv_on; [done..|]. eapply own_inv_perm; [|exact HI]. by rewrite Hh.
Qed.

Lemma owns_connect host port limit Q (k : outcome sock -> prog S E C) t0 h :
  fresh_descriptors -> (forall t o, ok (EvConnect host port o) t) ->
  (forall fd t, t0 `suffix_of` t -> fd ∉ h.*1 ->
     owns own_inv Q (EvConnect host port (Done (Ok fd)) :: t)
       ((fd, EvConnect host port (Done (Ok fd)) :: on_sock fd t) :: h) (k (Done (Ok fd)))) ->
  (forall o t, t0 `suffix_of` t -> (forall fd, o <> Done (Ok fd)) ->
     owns own_inv Q (EvConnect host port o :: t) h (k o)) ->
  owns own_inv Q t0 h (pbind (atom (io_connect host port limit)) k).
Proof.
  intros [Hf _] Hok Hk He. split; [done|]. intros w F s t Ht HI. specialize (Hf t host port limit).
  unfold wp, io_connect, io_event. destruct (env_connect t host port limit) as [[fd|e]|] eqn:Ec.
  - destruct (own_inv_open w s t (h ++ F) fd (EvConnect host port (Done (Ok fd)))) as [HI' Hn];
      [by apply Hf|done|cbn; by rewrite Z.eqb_refl|done|done|].
    eexists (_ :: h). split; [exact HI'|]. split; [by eexists [_]|]. apply Hk; [done|].
    intros Hin. apply Hn. rewrite fmap_app. apply elem_of_app. by left.
  - exists h. split; [by apply own_inv_silent|]. split; [by eexists [_]|]. by apply He.
  - exists h. split; [by apply own_inv_silent|]. split; [by eexists [_]|]. by apply He.
Qed.

Lemma owns_accept listener Q (k : result io_error sock -> prog S E C) t0 h :
  fresh_descriptors -> (forall t o, ok (EvCall (Accept listener) o) t) ->
  (forall fd t, t0 `suffix_of` t ->
     owns own_inv Q (EvCall (Accept listener) (Ok fd) :: t)
       ((fd, EvCall (Accept listener) (Ok fd) :: on_sock fd t) :: h) (k (Ok fd))) ->
  (forall e t, t0 `suffix_of` t -> owns own_inv Q (EvCall (Accept listener) (Err e) :: t) h (k (Err e))) ->
  owns own_inv Q t0 h (pbind (atom (io_call (Accept listener))) k).
Proof.
  intros [_ Hf] Hok Hk He. split; [done|]. intros w F s t Ht HI. specialize (Hf t listener).
  unfold wp, io_call, io_event. destruct (env_call t (Accept listener)) as [fd|e] eqn:Ec.
  - destruct (own_inv_open w s t (h ++ F) fd (EvCall (Accept listener) (Ok fd))) as [HI' Hn];
      [by apply Hf|done|cbn; by rewrite Z.eqb_refl|done|done|].
    eexists (_ :: h). split; [exact HI'|]. split; [by eexists [_]|]. by apply Hk.
  - exists h. split; [by apply own_inv_silent|]. split; [by eexists [_]|]. by apply He.
Qed.
End Rules.
End OwnInv.

(** ** A kernel that numbers connections upwards *)
Definition top (t : trace) : Z := fold_right (fun ev n => fold_right Z.max n (socks_of ev)) 0 t.

Lemma top_mono (ev : event) t : top t <= top (ev :: t).
Proof. cbn. induction (socks_of ev); cbn; [done|lia]. Qed.
Lemma open_below_top s t : is_open s t = true -> s <= top t.
Proof.
  induction t as [|ev t IH]; [done|]. pose proof (top_mono ev t) as Hm.
  destruct (decide (s ∈ socks_of ev)) as [Hin|Hn].
  - intros _. cbn. clear IH Hm. revert Hin. induction (socks_of ev) as [|x l IH]; [by intros ?%elem_of_nil|].
    cbn. intros [->|Hl]%elem_of_cons; [lia|]. specialize (IH Hl). lia.
  - rewrite is_open_untouched by done. intros Hs. specialize (IH Hs). lia.
Qed.
Lemma closed_above_top t : is_open (1 + top t) t = false.
Proof. destruct (is_open _ t) eqn:E; [|done]. apply open_below_top in E. lia. Qed.

Definition numbered (e : Env) : Env := {|
  env_now := @env_now e;
  env_dns_init := @env_dns_init e;
  env_lookup := @env_lookup e;
  env_connect t _ _ _ := Done (Ok (1 + top t));
  env_call t _ := Ok (1 + top t);
  env_nodelay := @env_nodelay e;
  env_write := @env_write e;
  env_flush := @env_flush e;
  env_readable := @env_readable e;
  env_read := @env_read e;
  env_read_line := @env_read_line e;
  env_tls_accept := @env_tls_accept e;
  env_select := @env_select e;
  env_http_handshake := @env_http_handshake e;
  env_http_ready := @env_http_ready e;
  env_http_send := @env_http_send e;
  env_http_request_body := @env_http_request_body e;
  env_http_response_body := @env_http_response_body e;
  env_getsockname := @env_getsockname e;
  env_getpeername := @env_getpeername e |}.

Lemma numbered_fresh e : @fresh_descriptors (numbered e).
Proof.
  split.
  - intros t host port limit s [= <-]. apply closed_above_top.
  - intros t listener s [= <-]. apply closed_above_top.
Qed.
