(* ===== verification/Talks.v ===== *)
(** * Talks: what connections carried.

    A token of Ownership knows the history of its connection; here that history
    is summed up: how the connection was made, and the bytes that went over it
    since.  The rules are those of Ownership, for tokens known by what they
    carried. *)

From S2P Require Import Prelude Text Net Protocol Resolver World Interleave Ownership.
Open Scope Z_scope.
Open Scope prog_scope.

(** ** What a connection carried *)

(** What it was dialled as, if it was not accepted; the lines read from it, what
    was written to it, the chunks read from it. *)
Record talk : Type := mkTalk {
  tk_dialled : option (bytes * Z);
  tk_lines : list bytes;
  tk_sent : bytes;
  tk_received : bytes }.
Definition silence (dialled : option (bytes * Z)) : talk := mkTalk dialled [] [] [].

Definition opens (s : sock) (ev : event) : bool :=
  match ev with
  | EvConnect _ _ (Done (Ok s')) | EvCall (Accept _) (Ok s') => s' =? s
  | _ => false
  end.
(** The events on [s] since it was opened last, *)
Fixpoint since_opened (s : sock) (t : trace) : trace :=
  match t with
  | [] => []
  | ev :: t' =>
      if opens s ev then []
      else if bool_decide (s ∈ socks_of ev) then ev :: since_opened s t' else since_opened s t'
  end.
(** how that was, *)
Fixpoint dialled (s : sock) (t : trace) : option (bytes * Z) :=
  match t with
  | [] => None
  | ev :: t' => if opens s ev then match ev with EvConnect host port _ => Some (host, port) | _ => None end else dialled s t'
  end.
(** and what it carried since. *)
Definition talk_on (s : sock) (t : trace) : talk :=
  let l := since_opened s t in mkTalk (dialled s t) (lines_read l) (sent s l) (received s l).

(** What an event on [s] adds. *)
Definition talk_step (ev : event) (x : talk) : talk :=
  match ev with
  | EvReadLine _ (Ok (b :: line)) => mkTalk (tk_dialled x) (tk_lines x ++ [b :: line]) (tk_sent x) (tk_received x)
  | EvWrite _ data _ => mkTalk (tk_dialled x) (tk_lines x) (tk_sent x ++ data) (tk_received x)
  | EvRead _ _ (Done (Ok data)) => mkTalk (tk_dialled x) (tk_lines x) (tk_sent x) (tk_received x ++ data)
  | _ => x
  end.

Lemma opens_touches s ev : opens s ev = true -> s ∈ socks_of ev.
Proof.
  destruct ev as [| | | |? ? [[]|]| | | | | | | | | | |[] []| | | | | | | | ]; try done;
    intros E%Z.eqb_eq; subst; by left.
Qed.
Lemma since_opened_log s t : since_opened s (on_sock s t) = since_opened s t.
Proof.
  induction t as [|ev t IH]; [done|]. destruct (decide (s ∈ socks_of ev)) as [Hs|Hs].
  - rewrite on_sock_touched by done. cbn [since_opened]. by rewrite IH.
  - rewrite on_sock_untouched by done. cbn [since_opened]. rewrite IH, bool_decide_eq_false_2 by done.
    destruct (opens s ev) eqn:E; [|done]. by apply opens_touches in E.
Qed.
Lemma dialled_log s t : dialled s (on_sock s t) = dialled s t.
Proof.
  induction t as [|ev t IH]; [done|]. destruct (decide (s ∈ socks_of ev)) as [Hs|Hs].
  - rewrite on_sock_touched by done. cbn [dialled]. by rewrite IH.
  - rewrite on_sock_untouched by done. cbn [dialled]. rewrite IH.
    destruct (opens s ev) eqn:E; [|done]. by apply opens_touches in E.
Qed.
Lemma talk_on_log s t : talk_on s (on_sock s t) = talk_on s t.
Proof. unfold talk_on. by rewrite since_opened_log, dialled_log. Qed.

Lemma talk_on_cons s ev t :
  socks_of ev = [s] -> opens s ev = false -> talk_on s (ev :: t) = talk_step ev (talk_on s t).
Proof.
  intros Hs Ho. unfold talk_on. cbn [since_opened dialled]. rewrite Ho, bool_decide_eq_true_2 by (rewrite Hs; by left).
  generalize (since_opened s t) as l, (dialled s t) as d. intros l d.
  destruct ev as [| | | | | | | |? ? ?| |? ? [[data|]|]|? [[|b line]|]| | | | | | | | | | | |];
    cbn in *; try done; injection Hs as ->; by rewrite Z.eqb_refl.
Qed.
Lemma talk_on_opened s ev t :
  opens s ev = true ->
  talk_on s (ev :: t) = silence (match ev with EvConnect host port _ => Some (host, port) | _ => None end).
Proof. intros Ho. unfold talk_on. cbn [since_opened dialled]. by rewrite Ho. Qed.

(** ** Tokens, by what they carried *)
Definition talks (h : list (sock * trace)) : list (sock * talk) := (fun tok => (tok.1, talk_on tok.1 tok.2)) <$> h.
Definition talk_say (data : bytes) (x : talk) : talk := mkTalk (tk_dialled x) (tk_lines x) (tk_sent x ++ data) (tk_received x).
Definition talk_hear (data : bytes) (x : talk) : talk := mkTalk (tk_dialled x) (tk_lines x) (tk_sent x) (tk_received x ++ data).

Lemma talks_split h s x rest :
  talks h ≡ₚ (s, x) :: rest ->
  exists log h1, h ≡ₚ (s, log) :: h1 /\ talk_on s log = x /\ talks h1 = rest.
Proof.
  intros Hh. symmetry in Hh. apply Permutation_map_inv in Hh as ([|[s' log] h1] & Hm & Hp); [done|].
  injection Hm as -> -> Hm. by exists log, h1.
Qed.
Lemma talks_socks h : (talks h).*1 = h.*1.
Proof. unfold talks. rewrite <- list_fmap_compose. done. Qed.
Lemma talks_known h t s x : knows h t -> (s, x) ∈ talks h -> is_open s t = true /\ talk_on s t = x.
Proof.
  intros Hk ([s' log] & [= -> ->] & Hin)%list_elem_of_fmap. cbn. split; [by eapply knows_open|].
  by rewrite <- (knows_log _ _ Hk s' log Hin), talk_on_log.
Qed.


(** ** Rules *)
Section TalkRules.
Context `{Env} {S N : Type} `{EqDecision N} (idle : S -> N -> list sock) (ok : event -> trace -> Prop).
Context {E A C : Type}.
Implicit Types (h : list (sock * trace)) (t : trace) (Q : trace -> list (sock * trace) -> result E C -> Prop).
Abbreviation Inv := (own_inv idle ok).

Lemma owns_talk_on (f : trace -> A) ev Q t0 h (k : A -> prog S E C) s x rest :
  talks h ≡ₚ (s, x) :: rest ->
  (forall a, socks_of (ev a) = [s]) -> (forall a, ev a <> EvClose s) -> (forall a, opens s (ev a) = false) ->
  (forall t a, t0 `suffix_of` t -> knows h t -> ok (ev a) t) ->
  (forall a t h', t0 `suffix_of` t -> talks h' ≡ₚ (s, talk_step (ev a) x) :: rest -> owns Inv Q t h' (k a)) ->
  owns Inv Q t0 h (pbind (atom (io_event f ev)) k).
Proof.
  intros (log & h1 & Hh & <- & <-)%talks_split Hev Hc Ho Hok Hk.
  eapply owns_on; [done..|by intros; apply Hok|]. intros a t Ht _. apply Hk; [by apply suffix_cons_r|].
  cbn. by rewrite talk_on_cons.
Qed.

Lemma owns_talk_close Q t0 h (k : unit -> prog S E C) s x rest :
  talks h ≡ₚ (s, x) :: rest -> (forall t, ok (EvClose s) t) ->
  (forall t h', t0 `suffix_of` t -> talks h' ≡ₚ rest -> owns Inv Q t h' (k tt)) ->
  owns Inv Q t0 h (pbind (atom (io_close s)) k).
Proof.
  intros (log & h1 & Hh & _ & <-)%talks_split Hok Hk. split; [done|]. intros w F r t Ht HI. exists h1.
  split; [|split; [by exists [EvClose s]|apply Hk; [by apply suffix_cons_r|done]]].
  apply (own_inv_close _ _ _ _ _ _ s log); [done|]. eapply own_inv_perm; [|exact HI]. by rewrite Hh.
Qed.

Lemma owns_talk_connect host port lim Q t0 h (k : outcome sock -> prog S E C) :
  fresh_descriptors -> (forall t o, ok (EvConnect host port o) t) ->
  (forall fd t h', t0 `suffix_of` t -> talks h' ≡ₚ (fd, silence (Some (host, port))) :: talks h ->
     owns Inv Q t h' (k (Done (Ok fd)))) ->
  (forall o t, t0 `suffix_of` t -> (forall fd, o <> Done (Ok fd)) -> owns Inv Q t h (k o)) ->
  owns Inv Q t0 h (pbind (atom (io_connect host port lim)) k).
Proof.
  intros Hf Hev Hok He. apply owns_connect; [done..| |].
  - intros fd t Ht _. apply Hok; [by apply suffix_cons_r|]. cbn.
    by rewrite talk_on_opened by (cbn; apply Z.eqb_refl).
  - intros o t Ht. apply He. by apply suffix_cons_r.
Qed.
End TalkRules.

(** Events that carry nothing: on [s], or on no connection. *)
Definition carries_nothing (s : sock) (ev : event) : Prop :=
  socks_of ev = []
  \/ socks_of ev = [s] /\ ev <> EvClose s /\ opens s ev = false /\ forall x, talk_step ev x = x.

Lemma own_inv_nothing {S N : Type} `{EqDecision N} (idle : S -> N -> list sock) (ok : event -> trace -> Prop)
    w st t h F s x rest l :
  Forall (fun ev => carries_nothing s ev /\ forall t, ok ev t) l ->
  talks h ≡ₚ (s, x) :: rest -> own_inv idle ok w st t (h ++ F) ->
  exists h', own_inv idle ok w st (l ++ t) (h' ++ F) /\ talks h' ≡ₚ (s, x) :: rest.
Proof.
  intros Hl Hh HI. induction Hl as [|ev l [Hev Hok] _ IH]; [by exists h|].
  destruct IH as (h1 & HI1 & Hh1). cbn. destruct Hev as [Hev|(Hev & Hc & Ho & Hx)].
  - exists h1. split; [by apply own_inv_silent|done].
  - apply talks_split in Hh1 as (log & h2 & Hp & <- & <-). exists ((s, ev :: log) :: h2). split.
    + apply own_inv_on; [done..|]. eapply own_inv_perm; [|exact HI1]. by rewrite Hp.
    + cbn. by rewrite talk_on_cons, Hx.
Qed.
