(* ===== verification/Stores.v ===== *)
(** * Stores: the third-party containers the proxy keeps its state in, as
    interfaces.

    [moka::future::Cache], [dashmap::DashMap] and [tokio::sync::Semaphore] are
    not part of the repository.  Each is a class of operations with the laws
    its documentation promises; the components are developed against the class
    and every law class is inhabited below, so that no theorem is vacuous. *)

From S2P Require Import Prelude.
Open Scope Z_scope.

(** ** [moka::future::Cache]: bounded, with a time to live

    [now] is the clock reading the cache takes itself. *)
Class TtlCache (K V C : Type) : Type := {
  cache_new : Z -> Z -> C;                       (* max_capacity, time_to_live *)
  cache_get : C -> Z -> K -> option V;
  cache_insert : C -> Z -> K -> V -> C;
  cache_invalidate_all : C -> C;
  (** the time to live it was built with *)
  cache_ttl : C -> Z;
  (** [cache_holds c k v t]: the last insertion under [k] was [v], at [t] *)
  cache_holds : C -> K -> V -> Z -> Prop }.

Class TtlCacheLaws (K V C : Type) `{TtlCache K V C} : Prop := {
  (** a hit is the last value inserted under the key, not yet expired; entries
      may be evicted at any time, so there is no converse *)
  cache_get_held c now k v :
    cache_get c now k = Some v -> exists t, cache_holds c k v t /\ now <= t + cache_ttl c;
  cache_holds_det c k v t v' t' :
    cache_holds c k v t -> cache_holds c k v' t' -> v = v' /\ t = t';
  cache_insert_holds c now k v : cache_holds (cache_insert c now k v) k v now;
  cache_new_empty cap ttl k v t : ~ cache_holds (cache_new cap ttl) k v t;
  cache_new_ttl cap ttl : cache_ttl (cache_new cap ttl) = ttl;
  cache_insert_held c now k v k' v' t' :
    cache_holds (cache_insert c now k v) k' v' t' ->
    (k' = k /\ v' = v /\ t' = now) \/ (k' <> k /\ cache_holds c k' v' t');
  cache_insert_ttl c now k v : cache_ttl (cache_insert c now k v) = cache_ttl c;
  cache_invalidated c k v t : ~ cache_holds (cache_invalidate_all c) k v t;
  cache_invalidate_ttl c : cache_ttl (cache_invalidate_all c) = cache_ttl c }.

(** ** [dashmap::DashMap]: a concurrent map whose calls are atomic *)
Class KvStore (K V T : Type) : Type := {
  kv_empty : T;
  kv_get : T -> K -> option V;
  kv_insert : T -> K -> V -> T;
  kv_remove : T -> K -> T }.

Class KvStoreLaws (K V T : Type) `{EqDecision K} `{KvStore K V T} : Prop := {
  kv_get_empty k : kv_get kv_empty k = None;
  kv_get_insert m k v k' :
    kv_get (kv_insert m k v) k' = if decide (k = k') then Some v else kv_get m k';
  kv_get_remove m k k' :
    kv_get (kv_remove m k) k' = if decide (k = k') then None else kv_get m k' }.

(** ** [tokio::sync::Semaphore] *)
Class Semaphore (T : Type) : Type := {
  sem_new : nat -> T;
  sem_available : T -> nat;
  (** [acquire] when it can be granted at once *)
  sem_acquire : T -> option T;
  (** dropping a permit *)
  sem_release : T -> T }.

Class SemaphoreLaws (T : Type) `{Semaphore T} : Prop := {
  sem_new_available n : sem_available (sem_new n) = n;
  sem_acquire_some s s' : sem_acquire s = Some s' -> sem_available s = S (sem_available s');
  sem_acquire_none s : sem_acquire s = None -> sem_available s = 0%nat;
  sem_release_available s : sem_available (sem_release s) = S (sem_available s) }.

(** ** Instances *)

(** An association list of (key, (value, insertion time)) that keeps
    everything: one of the caches the laws allow. *)
Record AssocCache (K V : Type) : Type := mkAssocCache {
  ac_ttl : Z;
  ac_entries : list (K * (V * Z)) }.
Arguments mkAssocCache {K V} _ _.
Arguments ac_ttl {K V} _.
Arguments ac_entries {K V} _.

Section AssocCache.
Context {K V : Type} `{EqDecision K}.

Fixpoint assoc (k : K) (l : list (K * (V * Z))) : option (V * Z) :=
  match l with
  | [] => None
  | (k', x) :: l' => if decide (k = k') then Some x else assoc k l'
  end.

#[export] Instance assoc_cache : TtlCache K V (AssocCache K V) := {
  cache_new _ ttl := mkAssocCache ttl [];
  cache_get c now k :=
    match assoc k (ac_entries c) with
    | Some (v, t) => if now <=? t + ac_ttl c then Some v else None
    | None => None
    end;
  cache_insert c now k v := mkAssocCache (ac_ttl c) ((k, (v, now)) :: ac_entries c);
  cache_invalidate_all c := mkAssocCache (ac_ttl c) [];
  cache_ttl := ac_ttl;
  cache_holds c k v t := assoc k (ac_entries c) = Some (v, t) }.

#[export] Instance assoc_cache_laws : TtlCacheLaws K V (AssocCache K V).
Proof.
  split; cbn; try done.
  - intros c now k v. destruct (assoc k (ac_entries c)) as [[v' t]|]; [|done].
    destruct (now <=? t + ac_ttl c) eqn:E; [|done]. intros [= <-]. bool_to_prop. eauto.
  - naive_solver.
  - intros c now k v. by rewrite decide_True.
  - intros c now k v k' v' t'. case_decide; naive_solver.
Qed.
End AssocCache.

Section MapStore.
Context {K V : Type} `{Countable K}.

#[export] Instance gmap_store : KvStore K V (gmap K V) := {
  kv_empty := ∅;
  kv_get m k := m !! k;
  kv_insert m k v := <[k := v]> m;
  kv_remove m k := delete k m }.

#[export] Instance gmap_store_laws : KvStoreLaws K V (gmap K V).
Proof.
  split; cbn; intros.
  - apply lookup_empty.
  - apply lookup_insert.
  - apply lookup_delete.
Qed.
End MapStore.

#[export] Instance nat_semaphore : Semaphore nat := {
  sem_new n := n;
  sem_available n := n;
  sem_acquire n := match n with O => None | S n' => Some n' end;
  sem_release := S }.

#[export] Instance nat_semaphore_laws : SemaphoreLaws nat.
Proof. split; cbn; try done; intros [|n]; naive_solver. Qed.
