(* ===== verification/Dns.v ===== *)
(** * Dns: the process-wide DNS resolver with its TTL cache ([src/dns.rs]). *)

From S2P Require Import Prelude Text Net IpText Protocol Resolver World Stores.
Open Scope Z_scope.

(** [enum DnsError]. *)
Inductive DnsError : Type :=
| NotResolvable (host : bytes)
| DnsTimeout
| ResolverInit (message : bytes).

(** Seconds to the nanoseconds a [Duration] is measured in. *)
Definition from_secs (s : Z) : Z := s * 1000000000.
Definition from_millis (ms : Z) : Z := ms * 1000000.

Section Dns.
Context `{Env} {C : Type} `{TtlCache bytes IpAddr C}.

(** The statics: [TTL_SECONDS], and [CACHE], a [Lazy] that is built on its
    first use with the value [TTL_SECONDS] has at that moment. *)
Record Dns : Type := mkDns { ttl_seconds : Z; dns_cache : option C }.

Definition dns_initial : Dns := mkDns 60 None.

(** [set_ttl] and [ttl]. *)
Definition set_ttl (seconds : Z) (d : Dns) : Dns := mkDns seconds (dns_cache d).
Definition ttl (d : Dns) : Z := ttl_seconds d.

(** Dereferencing the [Lazy]. *)
Definition force_cache (d : Dns) : C :=
  match dns_cache d with
  | Some c => c
  | None => cache_new 10000 (from_secs (ttl_seconds d))
  end.

(** [clear]. *)
Definition dns_clear (d : Dns) : Dns :=
  mkDns (ttl_seconds d) (Some (cache_invalidate_all (force_cache d))).

(** [CACHE.get(host)] and [CACHE.insert(host, ip)]. *)
Definition dns_cache_get {E} (host : bytes) : M Dns E (option IpAddr) :=
  fun d t =>
    let c := force_cache d in
    (Ok (cache_get c (env_now t) host), mkDns (ttl_seconds d) (Some c), t).
Definition dns_cache_insert {E} (host : bytes) (ip : IpAddr) : M Dns E unit :=
  fun d t =>
    let c := force_cache d in
    (Ok tt, mkDns (ttl_seconds d) (Some (cache_insert c (env_now t) host ip)), t).

(** The preferred address of an answer: the first IPv4 one, else the first. *)
Definition pick_ip (ips : list IpAddr) : option IpAddr :=
  match List.find is_ipv4 ips with
  | Some ip => Some ip
  | None => head ips
  end.

(** [resolve]: the address as text, or the input back. *)
Definition resolve {E} (host : bytes) (lookup_timeout : Z) : M Dns E bytes :=
  if bool_decide (host = []) then ret host
  else match parse_ipaddr host with
  | Some _ => ret host
  | None =>
      cached <- dns_cache_get host ;;
      match cached with
      | Some ip => ret (display_ip ip)
      | None =>
          match env_dns_init with
          | Err _ => ret host
          | Ok _ =>
              r <- io_lookup host lookup_timeout ;;
              match r with
              | Done (Ok ips) =>
                  match pick_ip ips with
                  | None => ret host
                  | Some ip => dns_cache_insert host ip ;; ret (display_ip ip)
                  end
              | _ => ret host
              end
          end
      end
  end.

(** [resolve_strict]. *)
Definition resolve_strict (host : bytes) (lookup_timeout : Z) : M Dns DnsError IpAddr :=
  if bool_decide (host = []) then fail (NotResolvable host)
  else match parse_ipaddr host with
  | Some ip => ret ip
  | None =>
      cached <- dns_cache_get host ;;
      match cached with
      | Some ip => ret ip
      | None =>
          lift (map_err ResolverInit env_dns_init) ;;
          r <- io_lookup host lookup_timeout ;;
          match r with
          | Done (Ok ips) =>
              ip <- lift (ok_or (NotResolvable host) (pick_ip ips)) ;;
              dns_cache_insert host ip ;; ret ip
          | Done (Err _) => fail (NotResolvable host)
          | Elapsed => fail DnsTimeout
          end
      end
  end.
End Dns.
Arguments Dns C : clear implicits.
Arguments mkDns {C} _ _.
Arguments ttl_seconds {C} _.
Arguments dns_cache {C} _.

(** ** Properties *)
Section Properties.
Context `{Env} {C : Type} `{TtlCacheLaws bytes IpAddr C}.

Lemma pick_ip_in ips ip : pick_ip ips = Some ip -> ip ∈ ips.
Proof.
  unfold pick_ip. destruct (List.find is_ipv4 ips) eqn:E.
  - intros [= <-]. apply list_elem_of_In. by apply find_some in E as [? _].
  - destruct ips; cbn; [done|]. intros [= <-]. set_solver.
Qed.

Lemma pick_ip_none ips : pick_ip ips = None -> ips = [].
Proof. unfold pick_ip. destruct (List.find is_ipv4 ips); [done|]. by destruct ips. Qed.

(** An IPv6 address is picked only when the answer has no IPv4 one. *)
Lemma pick_ip_prefers_v4 ips v6 v4 : pick_ip ips = Some (V6 v6) -> V4 v4 ∉ ips.
Proof.
  unfold pick_ip. destruct (List.find is_ipv4 ips) eqn:E.
  - intros [= ->]. by apply find_some in E as [_ ?].
  - intros _ Hin%list_elem_of_In. by apply (find_none _ _ E) in Hin.
Qed.

(** [ip] is what a successful lookup of [host] in the history yields. *)
Definition looked_up (t : trace) (host : bytes) (ip : IpAddr) : Prop :=
  exists ips, EvLookup host (Done (Ok ips)) ∈ t /\ pick_ip ips = Some ip.

(** Invariant: the cache only holds answers to lookups of the same name. *)
Definition dns_inv (d : Dns C) (t : trace) : Prop :=
  forall k ip t0, cache_holds (force_cache d) k ip t0 -> looked_up t k ip.

Lemma looked_up_cons t ev host ip : looked_up t host ip -> looked_up (ev :: t) host ip.
Proof. intros (ips & ? & ?). exists ips. set_solver. Qed.

Lemma dns_inv_cons d ev t : dns_inv d t -> dns_inv d (ev :: t).
Proof. intros Hi k ip t0 Hh. eapply looked_up_cons, Hi, Hh. Qed.

Lemma dns_inv_initial t : dns_inv dns_initial t.
Proof. intros k ip t0 Hh. by apply cache_new_empty in Hh. Qed.

Lemma dns_inv_clear d t : dns_inv (dns_clear d) t.
Proof. intros k ip t0 Hh. by apply cache_invalidated in Hh. Qed.

Lemma dns_inv_force d t :
  dns_inv d t -> dns_inv (mkDns (ttl_seconds d) (Some (force_cache d))) t.
Proof. done. Qed.

Lemma dns_inv_insert d t host ip :
  dns_inv d t -> looked_up t host ip ->
  dns_inv (mkDns (ttl_seconds d) (Some (cache_insert (force_cache d) (env_now t) host ip))) t.
Proof.
  intros Hi Hl k ip' t0 Hh. cbn in Hh.
  apply cache_insert_held in Hh as [(-> & -> & _)|[_ Hh]]; [done|by eapply Hi].
Qed.

(** The two reasons [resolve] gives for its answer. *)
Definition resolved (host out : bytes) (t : trace) : Prop :=
  out = host \/ exists ip, out = display_ip ip /\ looked_up t host ip.

(** What [resolve] does, as a rule of the program logic. *)
Lemma wp_resolve {E} host lim (Q : result E bytes -> Dns C -> trace -> Prop) d t :
  dns_inv d t ->
  (forall out d' t', resolved host out t' -> dns_inv d' t' ->
     (exists l, t' = l ++ t) -> Q (Ok out) d' t') ->
  wp (resolve host lim) Q d t.
Proof.
  intros Hi HQ. unfold resolve.
  assert (Hself : forall d', dns_inv d' t -> Q (Ok host) d' t).
  { intros d' Hd'. apply HQ; [by left|done|by exists []]. }
  case_bool_decide; [by apply wp_ret, Hself|].
  destruct (parse_ipaddr host); [by apply wp_ret, Hself|].
  apply wp_bind. unfold wp at 1, dns_cache_get.
  destruct (cache_get _ _ _) as [ip|] eqn:Eg.
  { apply wp_ret, HQ; [|done|by exists []].
    apply cache_get_held in Eg as (t0 & Hh & _). right. eauto. }
  destruct env_dns_init; [|by apply wp_ret, Hself].
  wp_step. wp_step.
  assert (Hnew : forall r, Q (Ok host) (mkDns (ttl_seconds d) (Some (force_cache d)))
                  (EvLookup host r :: t)).
  { intros r. apply HQ; [by left|by apply dns_inv_cons|by exists [EvLookup host r]]. }
  destruct (env_lookup t host lim) as [[ips|e]|]; [|by apply wp_ret..].
  destruct (pick_ip ips) as [ip|] eqn:Ep; [|by apply wp_ret].
  assert (Hl : looked_up (EvLookup host (Done (Ok ips)) :: t) host ip).
  { exists ips. split; [set_solver|done]. }
  apply wp_bind. unfold wp at 1, dns_cache_insert. apply wp_ret, HQ.
  - right. eauto.
  - by apply dns_inv_insert; [apply dns_inv_cons|].
  - by eexists [_].
Qed.

(** [resolve] never fails and its answer is the input itself or the text
    of an address that a lookup of that very name returned (now or earlier,
    through the cache); the cache keeps holding only such addresses. *)
Theorem resolve_contract {E} host lim d t :
  dns_inv d t ->
  exists out d' t', resolve (E := E) host lim d t = (Ok out, d', t')
    /\ resolved host out t' /\ dns_inv d' t'.
Proof.
  intros Hi.
  assert (W : wp (E := E) (resolve host lim)
    (fun r d' t' => exists out, r = Ok out /\ resolved host out t' /\ dns_inv d' t') d t).
  { apply wp_resolve; [done|]. eauto. }
  unfold wp in W. destruct (resolve host lim d t) as [[r d'] t'].
  destruct W as (out & -> & ? & ?). eauto 6.
Qed.

(** [resolve] and [resolve_strict] make the same lookup and leave the same
    cache: where the strict variant returns an address, [resolve] returns its
    text (or the literal it was written as); where it fails, [resolve] gives
    the input back. *)
Theorem resolve_strict_agrees {E} host lim d t :
  match resolve_strict host lim d t, resolve (E := E) host lim d t with
  | (Ok ip, d1, t1), (r2, d2, t2) =>
      (r2 = Ok (display_ip ip) \/ (r2 = Ok host /\ parse_ipaddr host = Some ip))
      /\ d1 = d2 /\ t1 = t2
  | (Err _, d1, t1), (r2, d2, t2) => r2 = Ok host /\ d1 = d2 /\ t1 = t2
  end.
Proof.
  unfold resolve_strict, resolve.
  case_bool_decide; [done|].
  destruct (parse_ipaddr host); [by split; [right|]|].
  unfold bind, dns_cache_get. destruct (cache_get _ _ _); [by split; [left|]|].
  unfold lift, map_err. destruct env_dns_init; [|done].
  unfold io_lookup, io_event.
  destruct (env_lookup t host lim) as [[ips|e]|]; [|done..].
  destruct (pick_ip ips); [|done]. by split; [left|].
Qed.

(** C27: the detour through text loses nothing: to [resolve] a host and parse the
    text it gives, as the endpoint validation does, is to resolve it strictly:
    the same lookup, the same cache, the same address, IPv4 or IPv6; and the
    text that comes back parses to nothing exactly when the strict variant
    reports an error. *)
Theorem resolve_text_roundtrip {E} host lim d t :
  let '(r, d', t') := resolve_strict host lim d t in
  (out <- resolve (E := E) host lim ;; ret (parse_ipaddr out)) d t
  = (Ok (match r with Ok ip => Some ip | Err _ => None end), d', t').
Proof.
  unfold resolve_strict, resolve. unfold bind at 1.
  case_bool_decide; [by subst host|].
  destruct (parse_ipaddr host) as [ip|] eqn:Ep; [cbn; by rewrite Ep|].
  unfold bind, dns_cache_get. destruct (cache_get _ _ _); [cbn; by rewrite parse_display_ip|].
  unfold lift, map_err. destruct env_dns_init; [|cbn; by rewrite Ep].
  unfold io_lookup, io_event.
  destruct (env_lookup t host lim) as [[ips|e]|]; [|cbn; by rewrite Ep..].
  destruct (pick_ip ips); cbn; [by rewrite parse_display_ip|by rewrite Ep].
Qed.

(** [set_ttl] does not take effect for future cache entries once the
    cache has been used: the entries inserted afterwards still live for the
    TTL the cache was built with. *)
Theorem set_ttl_after_first_use seconds host ip t d :
  is_Some (dns_cache d) ->
  let d' := (dns_cache_insert (E := Empty_set) host ip (set_ttl seconds d) t).1.2 in
  ttl d' = seconds /\ cache_ttl (force_cache d') = cache_ttl (force_cache d).
Proof.
  destruct d as [n [c|]]; intros [c' Hc]; [|done]. cbn.
  split; [done|apply cache_insert_ttl].
Qed.
End Properties.

(** ** Witnesses *)

Definition dns_example_env : Env :=
  one_host_env (B "example.com") [V4 (mkIpv4 (chr 93) (chr 184) (chr 216) (chr 34))].
Abbreviation dns_example_cache := (AssocCache bytes IpAddr).

Lemma resolve_contract_witness :
  exists out d' t',
    @resolve dns_example_env dns_example_cache _ Empty_set (B "example.com") 1 dns_initial []
      = (Ok out, d', t')
    /\ resolved (B "example.com") out t' /\ dns_inv d' t'.
Proof. exact (@resolve_contract dns_example_env dns_example_cache _ _ Empty_set (B "example.com") 1
                dns_initial [] (dns_inv_initial [])). Defined.

Lemma set_ttl_after_first_use_witness :
  let d := dns_clear (C := dns_example_cache) dns_initial in
  let d' := (@dns_cache_insert dns_example_env dns_example_cache _ Empty_set
               (B "a") (V6 (mkIpv6 (group_of 0) (group_of 0) (group_of 0) (group_of 0)
                              (group_of 0) (group_of 0) (group_of 0) (group_of 1)))
               (set_ttl 5 d) []).1.2 in
  ttl d' = 5 /\ cache_ttl (force_cache d') = from_secs 60.
Proof.
  exact (@set_ttl_after_first_use dns_example_env dns_example_cache _ _ 5 (B "a")
           (V6 (mkIpv6 (group_of 0) (group_of 0) (group_of 0) (group_of 0)
                  (group_of 0) (group_of 0) (group_of 0) (group_of 1))) []
           (dns_clear dns_initial) (mk_is_Some _ _ eq_refl)).
Defined.
