(* ===== verification/Adapter.v ===== *)
(** * Adapter: routing, routing cache and SSRF validation
    ([src/adapter/mod.rs]). *)

From S2P Require Import Prelude Text Net Protocol Resolver World Stores Dns.
Open Scope Z_scope.

(** ** Blocked address ranges *)

(** [is_blocked_ipv4]. *)
Definition is_blocked_ipv4 (ip : Ipv4Addr) : bool :=
  let a := code (o0 ip) in
  let b := code (o1 ip) in
  if a =? 10 then true
  else if (a =? 172) && ((16 <=? b) && (b <=? 31)) then true
  else if (a =? 192) && (b =? 168) then true
  else if a =? 127 then true
  else if (a =? 169) && (b =? 254) then true
  else if 224 <=? a then true
  else if a =? 0 then true
  else false.

(** [is_blocked_ipv6]. *)
Definition is_blocked_ipv6 (ip : Ipv6Addr) : bool :=
  if is_loopback ip then true
  else
    let seg i := nth i (segments ip) 0 in
    if Z.land (seg 0%nat) 0xffc0 =? 0xfe80 then true
    else if Z.land (seg 0%nat) 0xfe00 =? 0xfc00 then true
    else if (seg 0%nat =? 0) && (seg 1%nat =? 0) && (seg 2%nat =? 0) && (seg 3%nat =? 0)
            && (seg 4%nat =? 0) && (seg 5%nat =? 0xffff)
    then true
    else false.

(** [is_blocked_ip]. *)
Definition is_blocked_ip (ip : IpAddr) : bool :=
  match ip with
  | V4 v4 => is_blocked_ipv4 v4
  | V6 v6 => is_blocked_ipv6 v6
  end.

(** ** Endpoints *)

(** [Adapter::parse_endpoint]. *)
Definition parse_endpoint (endpoint : bytes) (default_port : Z) : bytes * Z :=
  match split_once colon endpoint with
  | Some (host, port_str) =>
      match port_str with
      | [] => (host, default_port)
      | _ :: _ => (host, unwrap_or default_port (parse_u16 port_str))
      end
  | None => (endpoint, default_port)
  end.

Section Adapter.
Context `{Env} {CD : Type} `{TtlCache bytes IpAddr CD}.

(** [struct CacheEntry]. *)
Record CacheEntry : Type := mkCacheEntry { ce_endpoint : bytes; ce_inserted_at : Z }.

Context {CR : Type} `{TtlCache bytes CacheEntry CR}.

(** A [dyn Resolver] and an [OnResolveFn]: user code, which may keep state
    and do I/O, so its answer depends on the history. *)
Definition Resolve : Type := trace -> bytes -> result ResolverError ResolverResult.
Definition OnResolveFn : Type :=
  trace -> bytes -> option (result ResolverError ResolverResult).

(** [struct Adapter]. *)
Record Adapter : Type := mkAdapter {
  a_resolver : option Resolve;
  a_protocol : Protocol;
  a_cache : CR;
  a_cache_ttl : Z;
  a_skip_validation : bool;
  a_on_resolve : option OnResolveFn }.

Definition DNS_TIMEOUT : Z := from_millis 1000.
Definition CACHE_CAPACITY : Z := 10000.

(** [Adapter::new]. *)
Definition adapter_new (resolver : option Resolve) (protocol : Protocol) : Adapter :=
  mkAdapter resolver protocol (cache_new CACHE_CAPACITY (from_secs 3600)) 0 false None.

(** [set_on_resolve], [set_skip_validation], [set_cache_ttl]. *)
Definition set_on_resolve (f : OnResolveFn) (a : Adapter) : Adapter :=
  mkAdapter (a_resolver a) (a_protocol a) (a_cache a) (a_cache_ttl a)
    (a_skip_validation a) (Some f).
Definition set_skip_validation (skip : bool) (a : Adapter) : Adapter :=
  mkAdapter (a_resolver a) (a_protocol a) (a_cache a) (a_cache_ttl a) skip (a_on_resolve a).
Definition set_cache_ttl (seconds : Z) (a : Adapter) : Adapter :=
  mkAdapter (a_resolver a) (a_protocol a) (a_cache a) (from_secs seconds)
    (a_skip_validation a) (a_on_resolve a).
Definition set_cache (c : CR) (a : Adapter) : Adapter :=
  mkAdapter (a_resolver a) (a_protocol a) c (a_cache_ttl a)
    (a_skip_validation a) (a_on_resolve a).

(** What routing works on: the adapter and the process-wide DNS state. *)
Record Routing : Type := mkRouting { r_adapter : Adapter; r_dns : Dns CD }.
Definition on_adapter (f : Adapter -> Adapter) (s : Routing) : Routing :=
  mkRouting (f (r_adapter s)) (r_dns s).
Definition set_dns (d : Dns CD) (s : Routing) : Routing := mkRouting (r_adapter s) d.

(** [Adapter::validate]. *)
Definition validate (endpoint : bytes) : M Routing ResolverError bytes :=
  let parts := splitn 3 colon endpoint in
  if bool_decide (2 < List.length parts)%nat then
    fail (internal (B "Invalid endpoint format: " ++ endpoint))
  else
    let host := nth 0 parts [] in
    let part1 := nth 1 parts [] in
    let has_port := bool_decide (List.length parts = 2)%nat && bool_decide (part1 <> []) in
    port <- (if has_port
             then lift (ok_or (internal (B "Invalid port number: " ++ part1)) (parse_u16 part1))
             else ret 0) ;;
    if has_port && negb ((1 <=? port) && (port <=? 65535)) then
      fail (internal (B "Invalid port number: " ++ print_dec port))
    else
      resolved <- zoom r_dns set_dns (resolve host DNS_TIMEOUT) ;;
      ip <- lift (ok_or (internal (B "Cannot resolve hostname: " ++ host))
                    (parse_ipaddr resolved)) ;;
      if is_blocked_ip ip then
        fail (forbidden (B "Access to private/reserved IP address is forbidden: "
                         ++ display_ip ip))
      else
        ret (if has_port then display_ip ip ++ colon :: print_dec port else display_ip ip).

Definition call_resolver {S E} (f : Resolve) (data : bytes)
  : M S E (result ResolverError ResolverResult) :=
  io_event (fun t => f t data) (EvResolve data).
Definition call_callback {S E} (f : OnResolveFn) (data : bytes)
  : M S E (option (result ResolverError ResolverResult)) :=
  io_event (fun t => f t data) (EvCallback data).

(** [resolve_via_resolver]. *)
Definition resolve_via_resolver (data : bytes) : M Routing ResolverError ResolverResult :=
  s <- get ;;
  match a_resolver (r_adapter s) with
  | Some f => r <- call_resolver f data ;; lift r
  | None => fail (not_found (B "No resolver or resolve callback configured"))
  end.

(** The override callback first, then the resolver. *)
Definition resolution (data : bytes) : M Routing ResolverError ResolverResult :=
  s <- get ;;
  match a_on_resolve (r_adapter s) with
  | Some callback =>
      r <- call_callback callback data ;;
      match r with
      | Some r => lift r
      | None => resolve_via_resolver data
      end
  | None => resolve_via_resolver data
  end.

(** [self.cache.get(data)] and [self.cache.insert(..)]. *)
Definition cache_lookup {E} (data : bytes) : M Routing E (option CacheEntry) :=
  fun s t => (Ok (cache_get (a_cache (r_adapter s)) (env_now t) data), s, t).
Definition cache_store {E} (data : bytes) (entry : CacheEntry) : M Routing E unit :=
  fun s t =>
    let c := cache_insert (a_cache (r_adapter s)) (env_now t) data entry in
    (Ok tt, on_adapter (set_cache c) s, t).

Definition cached_key : bytes := B "cached".

(** The cache hit of [route], if the cache is on and the entry is fresh. *)
Definition fresh_entry (cache_ttl : Z) (data : bytes)
  : M Routing ResolverError (option CacheEntry) :=
  if cache_ttl =? 0 then ret None
  else
    hit <- cache_lookup data ;;
    match hit with
    | Some entry =>
        now <- io_clock ;;
        ret (if now - ce_inserted_at entry <? cache_ttl then Some entry else None)
    | None => ret None
    end.

(** [Adapter::route]. *)
Definition route (data : bytes) : M Routing ResolverError ConnectionResult :=
  s <- get ;;
  let cache_ttl := a_cache_ttl (r_adapter s) in
  let protocol := a_protocol (r_adapter s) in
  hit <- fresh_entry cache_ttl data ;;
  match hit with
  | Some entry =>
      ret (connection_result_new (ce_endpoint entry) protocol {[ cached_key := B "true" ]})
  | None =>
      res <- resolution data ;;
      if bool_decide (rr_endpoint res = []) then
        fail (not_found (B "Resolver returned empty endpoint for: " ++ from_utf8_lossy data))
      else
        s' <- get ;;
        endpoint <- (if a_skip_validation (r_adapter s') then ret (rr_endpoint res)
                     else validate (rr_endpoint res)) ;;
        (if cache_ttl =? 0 then ret tt
         else now <- io_clock ;; cache_store data (mkCacheEntry endpoint now)) ;;
        ret (connection_result_new endpoint protocol
               (<[ cached_key := B "false" ]> (rr_metadata res)))
  end.
End Adapter.
Arguments Adapter CR : clear implicits.
Arguments Routing CD CR : clear implicits.
Arguments mkAdapter {CR} _ _ _ _ _ _.
Arguments mkRouting {CD CR} _ _.
