(* ===== verification/Cidr.v ===== *)
(** * Cidr: the blocked address ranges of [Adapter] against their CIDR
    specification. *)

From S2P Require Import Prelude Text Net Protocol Resolver World Stores Dns Adapter.
Open Scope Z_scope.

(** ** CIDR specification *)

(** [addr], a [w]-bit address, is in [base/len]. *)
Definition in_cidr (w : Z) (addr : Z) (cidr : Z * Z) : Prop :=
  addr / 2 ^ (w - cidr.2) = cidr.1 / 2 ^ (w - cidr.2).

(** 10/8, 172.16/12, 192.168/16, 127/8, 169.254/16, 224/4, 240/4, 0/8. *)
Definition blocked_v4_cidrs : list (Z * Z) :=
  [(0x0a000000, 8); (0xac100000, 12); (0xc0a80000, 16); (0x7f000000, 8);
   (0xa9fe0000, 16); (0xe0000000, 4); (0xf0000000, 4); (0, 8)].

(** ::1/128, fe80::/10, fc00::/7, ::ffff:0:0/96. *)
Definition blocked_v6_cidrs : list (Z * Z) :=
  [(1, 128); (0xfe80 * 2 ^ 112, 10); (0xfc00 * 2 ^ 112, 7); (0xffff * 2 ^ 32, 96)].

(** Evaluates the quotients of literals in the goal. *)
Ltac eval_divs :=
  repeat match goal with
  | |- context [?a / 2 ^ ?k] =>
      let v := eval vm_compute in (a / 2 ^ k) in
      lazymatch v with
      | Z0 => idtac
      | Zpos _ => idtac
      end;
      change (a / 2 ^ k) with v
  end.

Lemma ipv4_val_split ip :
  let a := code (o0 ip) in let b := code (o1 ip) in
  ipv4_val ip / 2 ^ 28 = a / 16 /\ ipv4_val ip / 2 ^ 24 = a
  /\ ipv4_val ip / 2 ^ 20 = a * 16 + b / 16 /\ ipv4_val ip / 2 ^ 16 = a * 256 + b.
Proof.
  unfold ipv4_val.
  pose proof (code_range (o0 ip)). pose proof (code_range (o1 ip)).
  pose proof (code_range (o2 ip)). pose proof (code_range (o3 ip)).
  cbn zeta. change (2 ^ 28) with 268435456. change (2 ^ 24) with 16777216.
  change (2 ^ 20) with 1048576. change (2 ^ 16) with 65536.
  repeat split; Z.div_mod_to_equations; lia.
Qed.

(** C18: [is_blocked_ipv4] blocks an address exactly when it lies in one of the
    private, loopback, link-local, multicast, reserved or unspecified ranges
    10.0.0.0/8, 172.16.0.0/12, 192.168.0.0/16, 127.0.0.0/8, 169.254.0.0/16,
    224.0.0.0/4, 240.0.0.0/4 and 0.0.0.0/8. *)
Theorem is_blocked_ipv4_cidrs ip :
  is_blocked_ipv4 ip = true <-> Exists (in_cidr 32 (ipv4_val ip)) blocked_v4_cidrs.
Proof.
  unfold blocked_v4_cidrs, in_cidr. rewrite !Exists_cons, Exists_nil. cbn [fst snd].
  destruct (ipv4_val_split ip) as (H28 & H24 & H20 & H16).
  change (32 - 8) with 24. change (32 - 12) with 20. change (32 - 16) with 16.
  change (32 - 4) with 28. rewrite H28, H24, H20, H16. eval_divs.
  pose proof (code_range (o0 ip)). pose proof (code_range (o1 ip)).
  clear H28 H24 H20 H16. unfold is_blocked_ipv4. cbn zeta.
  split.
  - table_cases; intros ?; bool_to_prop; try discriminate; Z.div_mod_to_equations; lia.
  - intros Hb. table_cases; try reflexivity; exfalso; Z.div_mod_to_equations; lia.
Qed.

(** Masking the high [a] bits of an [a + k]-bit value clears the low [k]. *)
Lemma land_high_bits a k x :
  0 <= a -> 0 <= k -> 0 <= x < 2 ^ (a + k) ->
  Z.land x (Z.shiftl (Z.ones a) k) = (x / 2 ^ k) * 2 ^ k.
Proof.
  intros Ha Hk Hx. rewrite <- Z.shiftl_mul_pow2, <- Z.shiftr_div_pow2 by done.
  assert (E : Z.land (Z.shiftr x k) (Z.ones a) = Z.shiftr x k).
  { rewrite Z.land_ones by done. apply Z.mod_small.
    rewrite Z.shiftr_div_pow2 by done. rewrite Z.pow_add_r in Hx by done.
    pose proof (Z.pow_pos_nonneg 2 k ltac:(lia) Hk).
    split; [apply Z.div_pos; lia|apply Z.div_lt_upper_bound; lia]. }
  rewrite <- E, Z.shiftl_land. apply Z.bits_inj'. intros n Hn.
  rewrite !Z.land_spec, !Z.shiftl_spec by done.
  destruct (Z.ltb_spec n k).
  - rewrite !(Z.testbit_neg_r _ (n - k)) by lia. by rewrite !andb_false_r.
  - rewrite Z.shiftr_spec by lia. do 2 f_equal. lia.
Qed.

(** The quotient of a value by a power of two that divides its low part. *)
Lemma div_high s r n k :
  0 <= n -> 0 <= k -> 0 <= r < 2 ^ n -> (s * 2 ^ n + r) / 2 ^ (n + k) = s / 2 ^ k.
Proof.
  intros Hn Hk Hr. rewrite Z.pow_add_r by done.
  pose proof (Z.pow_pos_nonneg 2 n ltac:(lia) Hn).
  rewrite <- Z.div_div by (try apply Z.pow_pos_nonneg; lia).
  rewrite Z.div_add_l, (Z.div_small r) by lia. f_equal. lia.
Qed.

(** Value of a list of 16-bit groups, most significant first. *)
Definition groups_val (l : list Z) : Z := fold_left (fun acc s => acc * 65536 + s) l 0.

Lemma groups_val_app l1 l2 :
  groups_val (l1 ++ l2) = groups_val l1 * 65536 ^ Z.of_nat (List.length l2) + groups_val l2.
Proof.
  unfold groups_val. rewrite fold_left_app.
  generalize (fold_left (fun acc s => acc * 65536 + s) l1 0) as a. clear l1.
  assert (H : forall l a b, fold_left (fun acc s => acc * 65536 + s) l (a + b)
    = a * 65536 ^ Z.of_nat (List.length l) + fold_left (fun acc s => acc * 65536 + s) l b).
  { clear. induction l as [|x l IH]; intros a b; cbn [fold_left List.length].
    - change (65536 ^ Z.of_nat 0) with 1. lia.
    - replace ((a + b) * 65536 + x) with (a * 65536 + (b * 65536 + x)) by lia.
      rewrite IH, Nat2Z.inj_succ, Z.pow_succ_r by lia. lia. }
  intros a. rewrite <- (Z.add_0_r a) at 1. apply H.
Qed.

Lemma groups_val_range l :
  Forall (fun s => 0 <= s < 65536) l -> 0 <= groups_val l < 65536 ^ Z.of_nat (List.length l).
Proof.
  induction l as [|x l IH] using rev_ind; intros Hl; [done|].
  apply Forall_app in Hl as [Hl Hx]. inversion Hx; subst. specialize (IH Hl).
  rewrite groups_val_app, length_app. cbn [List.length].
  rewrite Nat2Z.inj_add, Z.pow_add_r by lia.
  change (65536 ^ Z.of_nat 1) with 65536. change (groups_val [x]) with x. lia.
Qed.

(** A range given by a prefix of whole groups and a quotient of the next. *)
Lemma in_cidr_groups ip n k (base len : Z) :
  (n <= 8)%nat -> 0 <= k -> 128 - len = 16 * Z.of_nat (8 - n) + k ->
  in_cidr 128 (ipv6_val ip) (base, len) <->
  groups_val (take n (segments ip)) / 2 ^ k = base / 2 ^ (128 - len).
Proof.
  intros Hn Hk Hlen. unfold in_cidr. cbn [fst snd].
  change (ipv6_val ip) with (groups_val (segments ip)).
  pose proof (segments_range ip) as Hr.
  rewrite <- (take_drop n (segments ip)) at 1. rewrite groups_val_app.
  assert (Hd : List.length (drop n (segments ip)) = (8 - n)%nat) by (rewrite length_drop; done).
  pose proof (groups_val_range (drop n (segments ip)) ltac:(by apply Forall_drop)) as Hv.
  rewrite Hd in *. change 65536 with (2 ^ 16) in *.
  rewrite <- Z.pow_mul_r in * by lia. rewrite Hlen, div_high by lia. done.
Qed.

(** C19: [is_blocked_ipv6] blocks an address exactly when it is the loopback
    ::1 or lies in fe80::/10 (link-local), fc00::/7 (unique local) or
    ::ffff:0:0/96 (IPv4-mapped). *)
Theorem is_blocked_ipv6_cidrs ip :
  is_blocked_ipv6 ip = true <-> Exists (in_cidr 128 (ipv6_val ip)) blocked_v6_cidrs.
Proof.
  unfold blocked_v6_cidrs. rewrite !Exists_cons, Exists_nil.
  rewrite (in_cidr_groups ip 8 0 1 128) by lia.
  rewrite (in_cidr_groups ip 1 6 _ 10) by lia.
  rewrite (in_cidr_groups ip 1 9 _ 7) by lia.
  rewrite (in_cidr_groups ip 6 0 _ 96) by lia.
  unfold is_blocked_ipv6, is_loopback.
  pose proof (segments_range ip) as Hr. unfold segments, groups in *. cbn [map] in *.
  repeat match goal with H : Forall _ (_ :: _) |- _ => inversion_clear H end.
  repeat match goal with
  | |- context [group_val ?g] => let s := fresh "s" in set (s := group_val g) in *; clearbody s
  end.
  cbn [take nth]. unfold groups_val. cbn [fold_left]. cbn zeta.
  assert (L1 : Z.land s 0xffc0 = s / 2 ^ 6 * 2 ^ 6) by (apply (land_high_bits 10 6); lia).
  assert (L2 : Z.land s 0xfe00 = s / 2 ^ 9 * 2 ^ 9) by (apply (land_high_bits 7 9); lia).
  rewrite L1, L2. clear L1 L2.
  eval_divs. change (2 ^ 6) with 64. change (2 ^ 9) with 512. change (2 ^ 0) with 1.
  rewrite !Z.div_1_r.
  split.
  - case_bool_decide as Hl; [injection Hl; intros; subst; left; reflexivity|].
    table_cases; intros ?; try discriminate; Z.div_mod_to_equations; lia.
  - intros Hb. case_bool_decide as Hl; [reflexivity|].
    table_cases; try reflexivity; exfalso.
    destruct Hb as [Hb|Hb]; [apply Hl; repeat f_equal; lia|].
    Z.div_mod_to_equations. lia.
Qed.
