(* ===== verification/Ssrf.v ===== *)
(** * Ssrf: what the endpoint validation of [Adapter] guarantees: the
    soundness of [validate], and what becomes of a validated endpoint when
    [parse_endpoint] takes it apart again to dial it. *)

From S2P Require Import Prelude Text Net IpText Protocol Resolver World Stores Dns Adapter.
Open Scope Z_scope.

(** ** The shape of a validated endpoint *)

(** The text [validate] builds for an address and an optional port. *)
Definition endpoint_text (ip : IpAddr) (port : option Z) : bytes :=
  match port with
  | Some p => display_ip ip ++ colon :: print_dec p
  | None => display_ip ip
  end.

Definition valid_port (p : Z) : Prop := 1 <= p <= 65535.

(** [out] names an allowed address, with or without a port. *)
Definition vetted (out : bytes) (ip : IpAddr) (port : option Z) : Prop :=
  out = endpoint_text ip port /\ is_blocked_ip ip = false
  /\ match port with Some p => valid_port p | None => True end.

Lemma display_ip_nonempty ip : display_ip ip <> [].
Proof.
  destruct ip as [v4|v6]; cbn.
  - unfold display_ipv4. intros [E _]%app_eq_nil. by apply print_dec_nonempty in E.
  - destruct (display_ipv6_prefix v6) as (h & u & -> & _). by intros [_ ?]%app_eq_nil.
Qed.

Lemma endpoint_text_nonempty ip port : endpoint_text ip port <> [].
Proof.
  destruct port; cbn; [intros [E _]%app_eq_nil|intros E]; by apply display_ip_nonempty in E.
Qed.

(** The host and the optional port an endpoint is written with. *)
Definition endpoint_host (endpoint : bytes) : bytes :=
  match split_once colon endpoint with Some (h, _) => h | None => endpoint end.
Definition endpoint_port (endpoint : bytes) : option bytes :=
  match split_once colon endpoint with
  | Some (_, p) => if bool_decide (p = []) then None else Some p
  | None => None
  end.

Lemma splitn_3 s :
  splitn 3 colon s =
  match split_once colon s with
  | None => [s]
  | Some (a, b) => match split_once colon b with
                   | None => [a; b]
                   | Some (b1, b2) => [a; b1; b2]
                   end
  end.
Proof.
  cbn. destruct (split_once colon s) as [[a b]|]; [|done].
  by destruct (split_once colon b) as [[? ?]|].
Qed.

Section Validate.
Context `{Env} {CD CR : Type} `{TtlCacheLaws bytes IpAddr CD} `{TtlCache bytes CacheEntry CR}.
Implicit Types s : Routing CD CR.

(** [ip] is the literal [host] or comes from a lookup of [host]. *)
Definition host_address (t : trace) (host : bytes) (ip : IpAddr) : Prop :=
  parse_ipaddr host = Some ip \/ looked_up t host ip.

Definition validate_post (endpoint : bytes) s (r : result ResolverError bytes)
    (s' : Routing CD CR) (t' : trace) : Prop :=
  r_adapter s' = r_adapter s /\ dns_inv (r_dns s') t' /\
  match r with
  | Ok out =>
      exists ip port,
        vetted out ip port /\ host_address t' (endpoint_host endpoint) ip
        /\ match endpoint_port endpoint with
           | Some text => exists p, port = Some p /\ parse_u16 text = Some p
           | None => port = None
           end
  | Err e => error_code e = INTERNAL \/ error_code e = FORBIDDEN
  end.

(** The part of [validate] that follows the syntactic checks. *)
Lemma wp_validate_resolved endpoint host port (has_port : bool) (p : Z) s t :
  dns_inv (r_dns s) t ->
  endpoint_host endpoint = host ->
  port = (if has_port then Some p else None) ->
  (has_port = true -> valid_port p) ->
  match endpoint_port endpoint with
  | Some text => exists q, port = Some q /\ parse_u16 text = Some q
  | None => port = None
  end ->
  wp (resolved <- zoom r_dns set_dns (resolve host DNS_TIMEOUT) ;;
      ip <- lift (ok_or (internal (B "Cannot resolve hostname: " ++ host))
                    (parse_ipaddr resolved)) ;;
      if is_blocked_ip ip then
        fail (forbidden (B "Access to private/reserved IP address is forbidden: "
                         ++ display_ip ip))
      else
        ret (if has_port then display_ip ip ++ colon :: print_dec p else display_ip ip))
    (validate_post endpoint s) s t.
Proof.
  intros Hi Hh -> Hp Hport. wp_step. wp_step. apply wp_resolve; [done|].
  intros out d' t' Hres Hi' _. wp_step. wp_step.
  destruct (parse_ipaddr out) as [ip|] eqn:Eip; cbn [ok_or].
  2: { split; [done|]. split; [done|]. by left. }
  destruct (is_blocked_ip ip) eqn:Eb; [apply wp_fail|apply wp_ret].
  { split; [done|]. split; [done|]. by right. }
  split; [done|]. split; [done|].
  exists ip, (if has_port then Some p else None). split; [|split].
  - split; [by destruct has_port|]. split; [done|]. destruct has_port; auto.
  - rewrite Hh. destruct Hres as [->|(ip' & -> & Hl)]; [by left|]. rewrite parse_display_ip in Eip.
    injection Eip as <-. by right.
  - done.
Qed.

Lemma wp_validate endpoint s t :
  dns_inv (r_dns s) t -> wp (validate endpoint) (validate_post endpoint s) s t.
Proof.
  intros Hi. unfold validate. rewrite splitn_3.
  assert (Herr : forall m, validate_post endpoint s (Err (internal m)) s t).
  { intros m. split; [done|]. split; [done|]. by left. }
  pose proof (eq_refl (endpoint_host endpoint)) as Hh.
  pose proof (eq_refl (endpoint_port endpoint)) as Hp.
  unfold endpoint_host at 2 in Hh. unfold endpoint_port at 2 in Hp.
  destruct (split_once colon endpoint) as [[host rest]|] eqn:E1.
  2: { eval_lengths. wp_step. wp_step.
       eapply wp_validate_resolved with (port := None) (has_port := false) (p := 0); try done.
       by rewrite Hp. }
  destruct (split_once colon rest) as [[? ?]|] eqn:E2;
    [eval_lengths; by apply wp_fail|].
  eval_lengths. cbn [nth]. destruct (decide (rest = [])) as [->|Hne].
  - rewrite (bool_decide_eq_false_2 ([] <> [])) by auto. cbn [andb].
    wp_step. wp_step.
    eapply wp_validate_resolved with (port := None) (has_port := false) (p := 0); try done.
    by rewrite Hp.
  - rewrite (bool_decide_eq_true_2 (rest <> [])) by done. cbn [andb].
    rewrite bool_decide_eq_false_2 in Hp by done.
    wp_step. wp_step. destruct (parse_u16 rest) as [p|] eqn:Ep; cbn [ok_or]; [|apply Herr].
    destruct ((1 <=? p) && (p <=? 65535)) eqn:Er; cbn [negb]; [|apply wp_fail, Herr].
    bool_to_prop.
    eapply wp_validate_resolved with (port := Some p) (has_port := true); try done.
    rewrite Hp. eauto.
Qed.
End Validate.

(** ** Properties *)
Section Properties.
Context `{Env} {CD CR : Type} `{TtlCacheLaws bytes IpAddr CD} `{TtlCache bytes CacheEntry CR}.

(** C15: soundness of [validate]: whatever the DNS answers, an endpoint is
    accepted only if it names (literally, or through a lookup of exactly its
    host) an address outside the blocked ranges; the result is that address
    with the requested port, which is in 1..=65535; every refusal is an
    [Internal] or a [Forbidden] error; the adapter is left unchanged. *)
Theorem validate_sound endpoint (s : Routing CD CR) t :
  dns_inv (r_dns s) t ->
  let '(r, s', t') := validate endpoint s t in validate_post endpoint s r s' t'.
Proof. apply wp_validate. Qed.

(** [validate] rejects a malformed endpoint before any DNS lookup: more
    than one colon, or a port that is not a decimal number in 1..=65535, is
    an [Internal] error and neither the state nor the history changes. *)
Theorem validate_rejects_malformed endpoint (s : Routing CD CR) t :
  match split_once colon endpoint with
  | Some (_, rest) =>
      colon ∈ rest
      \/ (rest <> [] /\ match parse_u16 rest with Some p => ~ valid_port p | None => True end)
  | None => False
  end ->
  exists m, validate endpoint s t = (Err (internal m), s, t).
Proof.
  unfold validate. rewrite splitn_3.
  destruct (split_once colon endpoint) as [[host rest]|] eqn:E1; [|done].
  pose proof (split_once_spec colon rest) as Hrest.
  destruct (split_once colon rest) as [[b1 b2]|] eqn:E2.
  { intros _. eval_lengths. by eexists. }
  intros [?|[Hne Hp]]; [done|]. eval_lengths. cbn [nth].
  rewrite (bool_decide_eq_true_2 (rest <> [])) by done. unfold bind, lift. cbn [andb].
  destruct (parse_u16 rest) as [p|]; cbn [ok_or]; [|by eexists].
  destruct ((1 <=? p) && (p <=? 65535)) eqn:Er; cbn [negb]; [|by eexists].
  bool_to_prop. unfold valid_port in Hp. lia.
Qed.
End Properties.

(** How an admitted endpoint is taken apart. *)
Lemma parse_endpoint_vetted_v4 out ip port default_port :
  vetted out (V4 ip) port ->
  parse_endpoint out default_port = (display_ipv4 ip, unwrap_or default_port port).
Proof.
  intros (-> & _ & Hp). unfold parse_endpoint, endpoint_text, display_ip.
  pose proof (display_ipv4_no_colon ip) as Hc.
  destruct port as [p|]; [|by rewrite split_once_notin].
  rewrite split_once_app by done. unfold valid_port in Hp.
  pose proof (parse_uint_print u16_max p ltac:(unfold u16_max; lia)) as Hprint.
  pose proof (print_dec_nonempty p).
  destruct (print_dec p) eqn:E; [done|]. rewrite <- E in *.
  unfold parse_u16. by rewrite Hprint.
Qed.

Lemma parse_endpoint_vetted_v6 out ip port default_port :
  vetted out (V6 ip) port ->
  exists h u, display_ipv6 ip = h ++ colon :: u
              /\ fst (parse_endpoint out default_port) = h /\ parse_ipaddr h = None.
Proof.
  intros (-> & _ & _). unfold endpoint_text, display_ip.
  destruct (display_ipv6_prefix ip) as (h & u & Ed & Hh).
  assert (Hcol : colon ∉ h) by by eapply radix_digits_no_sep.
  assert (Hdot : dot ∉ h) by by eapply radix_digits_no_sep.
  assert (Hp : forall v, fst (parse_endpoint (h ++ colon :: v) default_port) = h).
  { intros v. unfold parse_endpoint. rewrite split_once_app by done. by destruct v. }
  exists h, u. split; [done|]. split; [|by apply parse_ipaddr_no_sep].
  rewrite Ed. destruct port; [rewrite <- app_assoc|]; apply Hp.
Qed.

(** Taking an admitted endpoint apart never yields a blocked literal. *)
Lemma vetted_dial out ip port default_port ip' :
  vetted out ip port ->
  parse_ipaddr (fst (parse_endpoint out default_port)) = Some ip' -> is_blocked_ip ip' = false.
Proof.
  intros Hv Hparse. destruct ip as [v4|v6].
  - rewrite (parse_endpoint_vetted_v4 _ _ _ default_port Hv) in Hparse. cbn in Hparse.
    rewrite parse_display_ipv4 in Hparse. injection Hparse as <-. apply Hv.
  - destruct (parse_endpoint_vetted_v6 _ _ _ default_port Hv) as (h & u & _ & Hh & Hp).
    by rewrite Hh, Hp in Hparse.
Qed.

(** A dialled host that is an IP literal is not a blocked one. *)
Definition safe_dial (ev : event) : Prop :=
  match ev with
  | EvConnect host _ _ => forall ip, parse_ipaddr host = Some ip -> is_blocked_ip ip = false
  | _ => True
  end.

(** Any event but dialling and hyper's dealings with a client. *)
Definition no_dial (ev : event) : Prop :=
  match ev with
  | EvConnect _ _ _ | EvHttpRequest _ _ | EvHttpReply _ _ => False
  | _ => True
  end.
Lemma no_dial_safe ev : no_dial ev -> safe_dial ev.
Proof. by destruct ev. Qed.

(** C16: no time-of-check/time-of-use gap for IPv4: when an endpoint validated
    as the IPv4 address [ip] is taken apart for dialling, the host is the text
    of [ip] (an IP literal, so no second DNS lookup decides the target), that
    literal parses to the very address that was checked, and the port is the
    validated one or the default. *)
Theorem validated_ipv4_dial out ip port default_port :
  vetted out (V4 ip) port ->
  parse_endpoint out default_port = (display_ipv4 ip, unwrap_or default_port port)
  /\ parse_ipaddr (fst (parse_endpoint out default_port)) = Some (V4 ip)
  /\ is_blocked_ip (V4 ip) = false.
Proof.
  intros Hv. rewrite (parse_endpoint_vetted_v4 _ _ _ default_port Hv).
  split; [done|]. split; [apply parse_display_ipv4|apply Hv].
Qed.

(** C17: for IPv6 the guarantee fails: taking apart an endpoint validated as an
    IPv6 address never gives that address back.  The dialled host is the text
    before the first colon of the address, which is not an IP literal at all,
    so the validated address is never dialled and the host is looked up
    again. *)
Theorem validated_ipv6_misparsed out ip port default_port :
  vetted out (V6 ip) port ->
  let host := fst (parse_endpoint out default_port) in
  host <> display_ipv6 ip /\ parse_ipaddr host = None.
Proof.
  intros Hv. destruct (parse_endpoint_vetted_v6 _ _ _ default_port Hv) as (h & u & Ed & Hh & Hp).
  cbn zeta. rewrite Hh. split; [|done].
  rewrite Ed. intros E. apply (f_equal List.length) in E.
  rewrite length_app in E. cbn in E. lia.
Qed.

(** ** Witnesses *)

Definition google_v6 : Ipv6Addr :=
  unwrap_or (mkIpv6 (group_of 0) (group_of 0) (group_of 0) (group_of 0) (group_of 0)
               (group_of 0) (group_of 0) (group_of 0))
    (ipv6_of_groups (map group_of [0x2001; 0x4860; 0x4860; 0; 0; 0; 0; 0x8888])).

Lemma validated_ipv4_dial_witness :
  vetted (B "8.8.8.8:443") (V4 (mkIpv4 (chr 8) (chr 8) (chr 8) (chr 8))) (Some 443)
  /\ parse_endpoint (B "8.8.8.8:443") 80 = (B "8.8.8.8", 443).
Proof.
  assert (V : vetted (B "8.8.8.8:443") (V4 (mkIpv4 (chr 8) (chr 8) (chr 8) (chr 8))) (Some 443)).
  { split; [vm_compute; reflexivity|split; [vm_compute; reflexivity|split; lia]]. }
  split; [exact V|].
  exact (proj1 (validated_ipv4_dial _ _ _ 80 V)).
Defined.

Lemma validated_ipv6_misparsed_witness :
  vetted (B "2001:4860:4860::8888:443") (V6 google_v6) (Some 443)
  /\ fst (parse_endpoint (B "2001:4860:4860::8888:443") 80) = B "2001"
  /\ parse_ipaddr (fst (parse_endpoint (B "2001:4860:4860::8888:443") 80)) = None.
Proof.
  assert (V : vetted (B "2001:4860:4860::8888:443") (V6 google_v6) (Some 443)).
  { split; [vm_compute; reflexivity|split; [vm_compute; reflexivity|split; lia]]. }
  split; [exact V|]. split; [vm_compute; reflexivity|].
  exact (proj2 (validated_ipv6_misparsed _ _ _ 80 V)).
Defined.

Definition ssrf_example_routing : Routing dns_example_cache (AssocCache bytes CacheEntry) :=
  mkRouting (adapter_new None Http) dns_initial.

Lemma validate_sound_witness :
  let run := @validate dns_example_env dns_example_cache _ (AssocCache bytes CacheEntry)
               (B "example.com:443") ssrf_example_routing [] in
  fst (fst run) = Ok (B "93.184.216.34:443")
  /\ let '(r, s', t') := run in
     validate_post (B "example.com:443") ssrf_example_routing r s' t'.
Proof.
  split; [vm_compute; reflexivity|].
  exact (@validate_sound dns_example_env dns_example_cache (AssocCache bytes CacheEntry) _ _
           (B "example.com:443") ssrf_example_routing [] (dns_inv_initial [])).
Defined.

Lemma validate_rejects_malformed_witness :
  exists m, @validate dns_example_env dns_example_cache _ (AssocCache bytes CacheEntry)
              (B "example.com:70000") ssrf_example_routing []
            = (Err (internal m), ssrf_example_routing, []).
Proof.
  apply (@validate_rejects_malformed dns_example_env dns_example_cache
           (AssocCache bytes CacheEntry) _ (B "example.com:70000") ssrf_example_routing []).
  right. split; [discriminate|vm_compute; exact I].
Defined.
