(* ===== verification/Routing.v ===== *)
(** * Routing: what [Adapter::route] guarantees to the servers.

    Everything the servers need of an adapter is stated here for an arbitrary
    resolver, callback, DNS and cache: where endpoints come from, what is
    cached, and what a cache hit may skip. *)

From S2P Require Import Prelude Text Net Protocol Resolver World Stores Dns Adapter Ssrf.
Open Scope Z_scope.

Section Routing.
Context `{Env} {CD CR : Type} `{TtlCacheLaws bytes IpAddr CD} `{TtlCacheLaws bytes CacheEntry CR}.
Implicit Types (s : Routing CD CR) (a : Adapter CR) (t : trace).

(** Every cached endpoint satisfies [P]. *)
Definition entries_ok (P : bytes -> Prop) a : Prop :=
  forall k e n, cache_holds (a_cache a) k e n -> P (ce_endpoint e).

(** Two adapters that differ in their cache only. *)
Definition same_config a1 a2 : Prop :=
  a_resolver a1 = a_resolver a2 /\ a_protocol a1 = a_protocol a2
  /\ a_cache_ttl a1 = a_cache_ttl a2 /\ a_skip_validation a1 = a_skip_validation a2
  /\ a_on_resolve a1 = a_on_resolve a2.

#[export] Instance same_config_equivalence : Equivalence same_config.
Proof. split; red; unfold same_config; intuition congruence. Qed.

Lemma set_cache_config c a : same_config a (set_cache c a).
Proof. done. Qed.

(** An address admissible under the adapter's setting. *)
Definition admissible (skip : bool) (out : bytes) : Prop :=
  if skip then out <> [] else exists ip port, vetted out ip port.

Lemma wp_resolution (data : bytes) (Q : result ResolverError ResolverResult -> Routing CD CR -> trace -> Prop) s t :
  (forall r l, Forall (fun ev => match ev with
                                 | EvResolve d _ | EvCallback d _ => d = data
                                 | _ => False
                                 end) l -> Q r s (l ++ t)) ->
  wp (resolution data) Q s t.
Proof.
  intros HQ.
  assert (Hvia : forall l t1, t1 = l ++ t ->
    Forall (fun ev => match ev with EvResolve d _ | EvCallback d _ => d = data | _ => False end) l ->
    wp (resolve_via_resolver data) Q s t1).
  { intros l t1 -> Hl. unfold resolve_via_resolver. wp_step. wp_step.
    destruct (a_resolver (r_adapter s)) as [f|].
    - wp_step. unfold call_resolver. wp_step. apply wp_lift.
      apply (HQ _ (EvResolve data (f (l ++ t) data) :: l)). by constructor.
    - apply wp_fail. by apply HQ. }
  unfold resolution. wp_step. wp_step.
  destruct (a_on_resolve (r_adapter s)) as [f|]; [|by apply (Hvia [])].
  wp_step. unfold call_callback. wp_step.
  destruct (f t data) as [r|].
  - apply wp_lift, (HQ r [EvCallback data (Some r)]). by repeat constructor.
  - apply (Hvia [EvCallback data None]); [done|by repeat constructor].
Qed.

Definition route_post (P : bytes -> Prop) s (r : result ResolverError ConnectionResult)
    (s' : Routing CD CR) (t' : trace) : Prop :=
  dns_inv (r_dns s') t' /\ entries_ok P (r_adapter s')
  /\ same_config (r_adapter s) (r_adapter s')
  /\ match r with
     | Ok cr => P (cr_endpoint cr) /\ cr_protocol cr = a_protocol (r_adapter s)
     | Err _ => r_adapter s' = r_adapter s
     end.

Lemma dns_inv_app (d : Dns CD) l t : dns_inv d t -> dns_inv d (l ++ t).
Proof. intros Hi. induction l; [done|]. by apply dns_inv_cons. Qed.

Lemma entries_ok_store (P : bytes -> Prop) s (data : bytes) e now :
  entries_ok P (r_adapter s) -> P (ce_endpoint e) ->
  entries_ok P (set_cache (cache_insert (a_cache (r_adapter s)) now data e) (r_adapter s)).
Proof.
  intros He Hp k e' t0 Hh. cbn in Hh.
  apply cache_insert_held in Hh as [(_ & -> & _)|[_ Hh]]; [done|by eapply He].
Qed.

(** The second half of [route]: an endpoint was resolved. *)
Lemma wp_route_store (P : bytes -> Prop) (data : bytes) (ttl : Z) (out : bytes) (m : metadata_map) (proto : Protocol) s0 s t :
  dns_inv (r_dns s) t -> entries_ok P (r_adapter s) -> r_adapter s = r_adapter s0 ->
  proto = a_protocol (r_adapter s0) -> P out ->
  wp ((if ttl =? 0 then ret tt
       else now <- io_clock ;; cache_store data (mkCacheEntry out now)) ;;
      ret (connection_result_new out proto m))
    (route_post P s0) s t.
Proof.
  intros Hi He Ha -> HP. wp_step. destruct (ttl =? 0).
  - apply wp_ret, wp_ret. repeat split; try (rewrite Ha; done); done.
  - wp_step. wp_step. unfold cache_store, wp at 1. apply wp_ret.
    split; [by apply dns_inv_cons|]. split; [by apply entries_ok_store|].
    rewrite <- Ha. split; [apply set_cache_config|done].
Qed.

Lemma wp_route (P : bytes -> Prop) (data : bytes) s t :
  dns_inv (r_dns s) t -> entries_ok P (r_adapter s) ->
  (forall out, admissible (a_skip_validation (r_adapter s)) out -> P out) ->
  wp (route data) (route_post P s) s t.
Proof.
  intros Hi He Hadm. unfold route. wp_step. wp_step. wp_step.
  assert (Hmiss : forall l, wp
    (res <- resolution data ;;
     if bool_decide (rr_endpoint res = []) then
       fail (not_found (B "Resolver returned empty endpoint for: " ++ from_utf8_lossy data))
     else
       s' <- get ;;
       endpoint <- (if a_skip_validation (r_adapter s') then ret (rr_endpoint res)
                    else validate (rr_endpoint res)) ;;
       (if a_cache_ttl (r_adapter s) =? 0 then ret tt
        else now <- io_clock ;; cache_store data (mkCacheEntry endpoint now)) ;;
       ret (connection_result_new endpoint (a_protocol (r_adapter s))
              (<[ cached_key := B "false" ]> (rr_metadata res))))
    (route_post P s) s (l ++ t)).
  { intros l. wp_step. apply wp_resolution. intros r l' _.
    assert (Hi' : dns_inv (r_dns s) (l' ++ l ++ t)) by (by rewrite app_assoc; apply dns_inv_app).
    destruct r as [res|e]; [|by repeat split].
    case_bool_decide as Hne; [by apply wp_fail; repeat split|].
    wp_step. wp_step. wp_step. destruct (a_skip_validation (r_adapter s)) eqn:Es.
    - apply wp_ret. apply wp_route_store; try done. by apply Hadm.
    - eapply wp_mono; [by apply wp_validate|].
      intros r1 s1 t1 (Ha & Hi1 & Hr). destruct r1 as [out|e].
      + destruct Hr as (ip & port & Hv & _).
        apply wp_route_store; try done; [by rewrite Ha|].
        apply Hadm. by exists ip, port.
      + split; [done|]. rewrite Ha. by split. }
  unfold fresh_entry. destruct (a_cache_ttl (r_adapter s) =? 0) eqn:Ez.
  { apply wp_ret. apply (Hmiss []). }
  wp_step. unfold cache_lookup, wp at 1.
  destruct (cache_get _ _ _) as [e|] eqn:Eg; [|apply wp_ret, (Hmiss [])].
  wp_step. wp_step. apply wp_ret.
  destruct (_ <? _); [|apply (Hmiss [EvClock (env_now t)])].
  apply wp_ret. apply cache_get_held in Eg as (t0 & Hh & _).
  split; [by apply dns_inv_cons|]. split; [done|]. split; [done|].
  split; [by eapply He|done].
Qed.

(** A request that misses the cache, on an adapter without a callback. *)
Lemma wp_route_miss (data : bytes) (f : Resolve) (Q : result ResolverError ConnectionResult -> Routing CD CR -> trace -> Prop) s t :
  a_resolver (r_adapter s) = Some f -> a_on_resolve (r_adapter s) = None ->
  (forall now k, cache_get (a_cache (r_adapter s)) now k = None) ->
  match f t data with
  | Ok res =>
      wp (if bool_decide (rr_endpoint res = []) then
            fail (not_found (B "Resolver returned empty endpoint for: " ++ from_utf8_lossy data))
          else
            s' <- get ;;
            endpoint <- (if a_skip_validation (r_adapter s') then ret (rr_endpoint res)
                         else validate (rr_endpoint res)) ;;
            (if a_cache_ttl (r_adapter s) =? 0 then ret tt
             else now <- io_clock ;; cache_store data (mkCacheEntry endpoint now)) ;;
            ret (connection_result_new endpoint (a_protocol (r_adapter s))
                   (<[ cached_key := B "false" ]> (rr_metadata res))))
        Q s (EvResolve data (f t data) :: t)
  | Err e => Q (Err e) s (EvResolve data (f t data) :: t)
  end ->
  wp (route data) Q s t.
Proof.
  intros Hr Ho Hc HQ. unfold route. wp_step. wp_step. cbv zeta. wp_step.
  assert (Hf : fresh_entry (a_cache_ttl (r_adapter s)) data s t = (Ok None, s, t)).
  { unfold fresh_entry. destruct (_ =? 0); [done|]. unfold bind, cache_lookup. by rewrite Hc. }
  unfold wp at 1. rewrite Hf. wp_step. unfold resolution. wp_step. wp_step. rewrite Ho.
  unfold resolve_via_resolver. wp_step. wp_step. rewrite Hr. wp_step. unfold call_resolver.
  wp_step. apply wp_lift. by destruct (f t data).
Qed.

(** What routing does to the outside world: it asks the callback, the
    resolver, the DNS and the clock, and nothing else. *)
Definition routing_event (ev : event) : Prop :=
  match ev with
  | EvCallback _ _ | EvResolve _ _ | EvLookup _ _ | EvClock _ => True
  | _ => False
  end.

Lemma emits_resolve {E} host lim : emits routing_event (resolve (E := E) (C := CD) host lim).
Proof.
  unfold resolve. emits_steps; try done.
  all: intros s t; unfold dns_cache_get, dns_cache_insert; reflexivity.
Qed.

Lemma emits_route (data : bytes) : emits routing_event (route (CD := CD) (CR := CR) data).
Proof.
  unfold route, fresh_entry, resolution, resolve_via_resolver, validate.
  emits_steps; try done; try apply emits_resolve.
  all: intros s t; reflexivity.
Qed.

(** ** Replay of a cached route *)

Lemma fresh_entry_hit (data : bytes) s t e :
  a_cache_ttl (r_adapter s) <> 0 ->
  cache_get (a_cache (r_adapter s)) (env_now t) data = Some e ->
  env_now t - ce_inserted_at e < a_cache_ttl (r_adapter s) ->
  route data s t =
    (Ok (connection_result_new (ce_endpoint e) (a_protocol (r_adapter s))
           {[ cached_key := B "true" ]}), s, EvClock (env_now t) :: t).
Proof.
  intros Hz Hg Hf. unfold route, fresh_entry, bind, get. cbn zeta.
  rewrite (proj2 (Z.eqb_neq _ _) Hz). unfold cache_lookup. rewrite Hg.
  unfold io_clock, io_event, ret. by rewrite (proj2 (Z.ltb_lt _ _) Hf).
Qed.

(** The entry a successful [route] leaves in the cache. *)
Lemma wp_route_cached (data : bytes) s t :
  a_cache_ttl (r_adapter s) <> 0 -> dns_inv (r_dns s) t ->
  wp (route data)
    (fun r s' _ => match r with
       | Ok cr => exists e n, cache_holds (a_cache (r_adapter s')) data e n
                              /\ ce_endpoint e = cr_endpoint cr
       | Err _ => True
       end) s t.
Proof.
  intros Hz Hi. unfold route. wp_step. wp_step. wp_step.
  pose proof (proj2 (Z.eqb_neq _ _) Hz) as Ez. rewrite Ez.
  assert (Hmiss : forall l, wp
    (res <- resolution data ;;
     if bool_decide (rr_endpoint res = []) then
       fail (not_found (B "Resolver returned empty endpoint for: " ++ from_utf8_lossy data))
     else
       s' <- get ;;
       endpoint <- (if a_skip_validation (r_adapter s') then ret (rr_endpoint res)
                    else validate (rr_endpoint res)) ;;
       (now <- io_clock ;; cache_store data (mkCacheEntry endpoint now)) ;;
       ret (connection_result_new endpoint (a_protocol (r_adapter s))
              (<[ cached_key := B "false" ]> (rr_metadata res))))
    (fun r s' _ => match r with
       | Ok cr => exists e n, cache_holds (a_cache (r_adapter s')) data e n
                              /\ ce_endpoint e = cr_endpoint cr
       | Err _ => True
       end) s (l ++ t)).
  { intros l. wp_step. apply wp_resolution. intros r l' _.
    destruct r as [res|e]; [|done]. case_bool_decide; [by apply wp_fail|].
    wp_step. wp_step. wp_step. destruct (a_skip_validation (r_adapter s)) eqn:Es.
    - apply wp_ret. wp_step. wp_step. wp_step. unfold cache_store, wp at 1. apply wp_ret.
      eexists _, _. split; [apply cache_insert_holds|done].
    - eapply wp_mono.
      { apply wp_validate. rewrite app_assoc. by apply dns_inv_app. }
      intros r1 s1 t1 _. destruct r1 as [out|e]; [|done].
      wp_step. wp_step. wp_step. unfold cache_store, wp at 1. apply wp_ret.
      eexists _, _. split; [apply cache_insert_holds|done]. }
  unfold fresh_entry. rewrite Ez. cbv iota.
  wp_step. unfold cache_lookup, wp at 1.
  destruct (cache_get _ _ _) as [e|] eqn:Eg; [|apply wp_ret, (Hmiss [])].
  wp_step. wp_step. apply wp_ret.
  destruct (_ <? _); [|apply (Hmiss [EvClock (env_now t)])].
  apply wp_ret. apply cache_get_held in Eg as (n & Hh & _). by exists e, n.
Qed.
End Routing.

(** ** Reachable routing states *)
Section Reachable.
Context `{Env} {CD CR : Type} `{TtlCacheLaws bytes IpAddr CD} `{TtlCacheLaws bytes CacheEntry CR}.

(** What may happen to an adapter that validates: requests are routed, other
    tasks do I/O, the DNS cache is cleared or its TTL set, the routing TTL
    or the callback is changed.  Validation is not switched off. *)
Inductive routing_step : Routing CD CR * trace -> Routing CD CR * trace -> Prop :=
| step_route data s t r s' t' :
    route data s t = (r, s', t') -> routing_step (s, t) (s', t')
| step_other ev s t : routing_step (s, t) (s, ev :: t)
| step_dns_clear s t : routing_step (s, t) (set_dns (dns_clear (r_dns s)) s, t)
| step_cache_ttl seconds s t :
    routing_step (s, t) (on_adapter (set_cache_ttl seconds) s, t)
| step_on_resolve f s t : routing_step (s, t) (on_adapter (set_on_resolve f) s, t).

Definition routing_initial (resolver : option Resolve) (p : Protocol) : Routing CD CR * trace :=
  (mkRouting (adapter_new resolver p) dns_initial, []).

Definition is_vetted (out : bytes) : Prop := exists ip port, vetted out ip port.

Definition routing_inv (st : Routing CD CR * trace) : Prop :=
  dns_inv (r_dns st.1) st.2 /\ entries_ok is_vetted (r_adapter st.1)
  /\ a_skip_validation (r_adapter st.1) = false.

Lemma route_inv data s t r s' t' :
  routing_inv (s, t) -> route data s t = (r, s', t') ->
  routing_inv (s', t') /\ match r with Ok cr => is_vetted (cr_endpoint cr) | Err _ => True end.
Proof.
  intros (Hi & He & Hs) Hr. cbn in *.
  assert (W : wp (route data) (route_post is_vetted s) s t).
  { apply wp_route; [done..|]. by rewrite Hs. }
  apply (wp_run _ _ _ _ _ _ _ W) in Hr as (Hi' & He' & Hcfg & Hres).
  destruct Hcfg as (_ & _ & _ & Hs' & _).
  split; [split; [done|split; [done|cbn; congruence]]|]. destruct r; [by destruct Hres|done].
Qed.

Lemma routing_inv_initial resolver p : routing_inv (routing_initial resolver p).
Proof.
  split; [apply dns_inv_initial|]. split; [|done].
  intros k e n Hh. by apply cache_new_empty in Hh.
Qed.

Lemma routing_inv_step st st' : routing_inv st -> routing_step st st' -> routing_inv st'.
Proof.
  intros Hst Hstep. destruct Hstep as [? ? ? ? ? ? Hr| | | |].
  { by eapply route_inv. }
  all: destruct Hst as (Hi & He & Hs); cbn in *.
  - split; [by apply dns_inv_cons|done].
  - split; [apply dns_inv_clear|done].
  - done.
  - done.
Qed.

Lemma routing_inv_reachable resolver p st :
  rtc routing_step (routing_initial resolver p) st -> routing_inv st.
Proof.
  intros Hr. remember (routing_initial resolver p) as st0 eqn:E.
  assert (Hst0 : routing_inv st0) by (subst; apply routing_inv_initial). clear E.
  induction Hr as [|? ? ? Hstep _ IH]; [done|]. by eapply IH, routing_inv_step.
Qed.
(** ** Dialling only what was vetted

    The invariant of the servers: routing is sound, and nothing dialled so far
    is a blocked literal. *)
Definition dial_inv (r : Routing CD CR) t : Prop := routing_inv (r, t) /\ Forall safe_dial t.

Lemma dial_inv_initial resolver p : dial_inv (fst (routing_initial resolver p)) [].
Proof. split; [apply routing_inv_initial|constructor]. Qed.

Lemma routing_inv_extends r l t : routing_inv (r, t) -> routing_inv (r, l ++ t).
Proof.
  intros (Hi & He & Hs). cbn in *. split; [by apply dns_inv_app|]. done.
Qed.

Lemma dial_inv_events P r t t' :
  (forall ev, P ev -> safe_dial ev) -> dial_inv r t -> extends P t t' -> dial_inv r t'.
Proof.
  intros HP [Hr Ht] He. split.
  - destruct He as (l & -> & _). by apply routing_inv_extends.
  - eapply extends_forall; [|done]. by eapply extends_mono.
Qed.

Lemma wp_route_dial data r t :
  dial_inv r t ->
  wp (route data) (fun res r' t' => dial_inv r' t' /\
        match res with Ok cr => is_vetted (cr_endpoint cr) | Err _ => True end) r t.
Proof.
  intros [Hr Ht]. unfold wp. pose proof (emits_route (CD := CD) (CR := CR) data r t) as He.
  destruct (route data r t) as [[res r'] t'] eqn:E.
  destruct (route_inv _ _ _ _ _ _ Hr E) as [Hr1 Hres]. split; [|done]. split; [done|].
  eapply extends_forall; [|exact Ht]. eapply extends_mono; [|exact He]. by intros [].
Qed.
End Reachable.

(** ** Properties *)
Section Properties.
Context `{Env} {CD CR : Type} `{TtlCacheLaws bytes IpAddr CD} `{TtlCacheLaws bytes CacheEntry CR}.

(** SSRF safety of routing.  After any sequence of routed requests,
    cache expiries, DNS answers and configuration changes (validation staying
    on), when [route] answers with an endpoint and that endpoint is taken
    apart to be dialled, then, if the host is an IP literal, it is not a
    blocked address: neither the resolver, nor the callback, nor the DNS, nor
    the caches can make the proxy dial a private or reserved literal. *)
Theorem routed_literal_never_blocked resolver p (s : Routing CD CR) t data cr s' t' default_port ip :
  rtc routing_step (routing_initial resolver p) (s, t) ->
  route data s t = (Ok cr, s', t') ->
  parse_ipaddr (fst (parse_endpoint (cr_endpoint cr) default_port)) = Some ip ->
  is_blocked_ip ip = false.
Proof.
  intros Hreach%routing_inv_reachable Hroute Hparse.
  apply route_inv in Hroute as [_ (ip' & port & Hv)]; [|done].
  exact (vetted_dial _ _ _ _ _ Hv Hparse).
Qed.

(** [route] caches successes only and keeps the adapter's configuration:
    an error leaves the whole adapter unchanged, a success changes nothing
    but the cache, the answer carries the adapter's protocol, and its
    endpoint is never empty, with or without validation. *)
Theorem route_frame data (s : Routing CD CR) t :
  dns_inv (r_dns s) t -> entries_ok (fun out => out <> []) (r_adapter s) ->
  let '(r, s', t') := route data s t in
  dns_inv (r_dns s') t' /\ entries_ok (fun out => out <> []) (r_adapter s')
  /\ same_config (r_adapter s) (r_adapter s')
  /\ match r with
     | Ok cr => cr_endpoint cr <> [] /\ cr_protocol cr = a_protocol (r_adapter s)
     | Err _ => r_adapter s' = r_adapter s
     end.
Proof.
  intros Hi He. apply (wp_route (fun out => out <> [])); [done..|].
  intros out. unfold admissible. destruct (a_skip_validation _); [done|].
  intros (ip & port & -> & _). apply endpoint_text_nonempty.
Qed.

(** A cached route is replayed: with caching on, once [route] has
    answered [data] and as long as the cache still returns an entry for it
    that is younger than the TTL, [route] gives the same endpoint and
    protocol again, marked as cached, without consulting the callback, the
    resolver or the DNS (the only I/O is one clock reading). *)
Theorem route_replays_cached_endpoint data (s s1 : Routing CD CR) t t1 t2 cr e :
  dns_inv (r_dns s) t -> a_cache_ttl (r_adapter s) <> 0 ->
  route data s t = (Ok cr, s1, t1) ->
  cache_get (a_cache (r_adapter s1)) (env_now t2) data = Some e ->
  env_now t2 - ce_inserted_at e < a_cache_ttl (r_adapter s) ->
  route data s1 t2 =
    (Ok (connection_result_new (cr_endpoint cr) (cr_protocol cr)
           {[ cached_key := B "true" ]}), s1, EvClock (env_now t2) :: t2).
Proof.
  intros Hi Hz Hroute Hget Hfresh.
  pose proof (wp_route (fun _ => True) data s t Hi (fun _ _ _ _ => I) (fun _ _ => I)) as W1.
  pose proof (wp_route_cached data s t Hz Hi) as W2.
  apply (wp_run _ _ _ _ _ _ _ W1) in Hroute as Hpost.
  apply (wp_run _ _ _ _ _ _ _ W2) in Hroute as (e' & n & Hheld & <-).
  destruct Hpost as (_ & _ & (_ & Hproto & Httl & _) & _ & Hp).
  apply cache_get_held in Hget as Hg. destruct Hg as (n' & Hheld' & _).
  destruct (cache_holds_det _ _ _ _ _ _ Hheld Hheld') as [-> _].
  rewrite Hp, Hproto. rewrite Httl in Hz, Hfresh. by apply fresh_entry_hit.
Qed.
End Properties.

(** ** Witnesses *)

Definition route_example_resolver : Resolve :=
  fun _ _ => Ok (resolver_result_new (B "example.com:443")).

Definition route_example_state : Routing dns_example_cache (AssocCache bytes CacheEntry) :=
  on_adapter (set_cache_ttl 60) (mkRouting (adapter_new (Some route_example_resolver) Http) dns_initial).

(** The first routing of a run, and where it leads. *)
Definition route_example_run :=
  @route dns_example_env dns_example_cache _ (AssocCache bytes CacheEntry) _
    (B "db") route_example_state [].

Definition route_example_result : ConnectionResult :=
  connection_result_new (B "93.184.216.34:443") Http {[ cached_key := B "false" ]}.

Lemma route_example_run_ok :
  route_example_run = (Ok route_example_result, route_example_run.1.2, route_example_run.2).
Proof. vm_compute. reflexivity. Qed.

Lemma routed_literal_never_blocked_witness :
  parse_ipaddr (fst (parse_endpoint (cr_endpoint route_example_result) 80))
    = Some (V4 (mkIpv4 (chr 93) (chr 184) (chr 216) (chr 34)))
  /\ is_blocked_ip (V4 (mkIpv4 (chr 93) (chr 184) (chr 216) (chr 34))) = false.
Proof.
  assert (Hp : parse_ipaddr (fst (parse_endpoint (cr_endpoint route_example_result) 80))
               = Some (V4 (mkIpv4 (chr 93) (chr 184) (chr 216) (chr 34)))).
  { vm_compute. reflexivity. }
  split; [exact Hp|].
  refine (routed_literal_never_blocked (Some route_example_resolver) Http route_example_state
            [] (B "db") route_example_result _ _ 80 _ _ route_example_run_ok Hp).
  apply rtc_once. exact (step_cache_ttl 60 _ []).
Defined.

Lemma route_frame_witness :
  let '(r, s', t') := route_example_run in
  r = Ok route_example_result /\ dns_inv (r_dns s') t'.
Proof.
  pose proof (@route_frame dns_example_env _ _ _ _ _ _ (B "db") route_example_state [] (dns_inv_initial [])
                (fun k e n Hh => False_ind _ (cache_new_empty _ _ _ _ _ Hh))) as W.
  fold route_example_run in W.
  rewrite route_example_run_ok in W |- *. split; [reflexivity|exact (proj1 W)].
Defined.

Lemma route_replays_cached_endpoint_witness :
  @route dns_example_env dns_example_cache _ (AssocCache bytes CacheEntry) _
    (B "db") route_example_run.1.2 route_example_run.2
  = (Ok (connection_result_new (B "93.184.216.34:443") Http {[ cached_key := B "true" ]}),
     route_example_run.1.2, EvClock 3 :: route_example_run.2).
Proof.
  refine (@route_replays_cached_endpoint dns_example_env _ _ _ _ _ _ (B "db") route_example_state _ [] _ _
            route_example_result (mkCacheEntry (B "93.184.216.34:443") 2)
            (dns_inv_initial []) _ route_example_run_ok _ _).
  - vm_compute. discriminate.
  - vm_compute. reflexivity.
  - vm_compute. reflexivity.
Defined.
