(* ===== verification/RoutingConcurrency.v ===== *)
(** * RoutingConcurrency: many requests routed at once.

    [Adapter::route] awaits the cache, the resolver and the DNS; while one
    request waits, others are routed through the same adapter, and the
    adapter is reconfigured.  [route_prog] is [route] cut at every access to
    shared state and every I/O operation. *)

From S2P Require Import Prelude Text Net IpText Protocol Resolver World Stores Dns Adapter Ssrf Routing Interleave.
Open Scope Z_scope.
Open Scope prog_scope.

(** ** The handlers, cut at their accesses to shared state *)
Section Progs.
Context `{Env} {CD CR : Type} `{TtlCache bytes IpAddr CD} `{TtlCache bytes CacheEntry CR}.

Definition PR (A : Type) : Type := prog (Routing CD CR) ResolverError A.

(** [dns::resolve]: the cache lookup, the DNS query and the insertion are
    separate accesses. *)
Definition resolve_prog {E} (host : bytes) (lookup_timeout : Z) : prog (Dns CD) E bytes :=
  if bool_decide (host = []) then pure (Ok host)
  else match parse_ipaddr host with
  | Some _ => pure (Ok host)
  | None =>
      cached <~ atom (dns_cache_get host) ;;
      match cached with
      | Some ip => pure (Ok (display_ip ip))
      | None =>
          match env_dns_init with
          | Err _ => pure (Ok host)
          | Ok _ =>
              r <~ atom (io_lookup host lookup_timeout) ;;
              match r with
              | Done (Ok ips) =>
                  match pick_ip ips with
                  | None => pure (Ok host)
                  | Some ip => atom (dns_cache_insert host ip) ~;; pure (Ok (display_ip ip))
                  end
              | _ => pure (Ok host)
              end
          end
      end
  end.

(** [Adapter::validate]: only [dns::resolve] touches shared state. *)
Definition validate_prog (endpoint : bytes) : PR bytes :=
  let parts := splitn 3 colon endpoint in
  if bool_decide (2 < List.length parts)%nat then
    pure (Err (internal (B "Invalid endpoint format: " ++ endpoint)))
  else
    let host := nth 0 parts [] in
    let part1 := nth 1 parts [] in
    let has_port := bool_decide (List.length parts = 2)%nat && bool_decide (part1 <> []) in
    port <~ (if has_port
             then pure (ok_or (internal (B "Invalid port number: " ++ part1)) (parse_u16 part1))
             else pure (Ok 0)) ;;
    if has_port && negb ((1 <=? port) && (port <=? 65535)) then
      pure (Err (internal (B "Invalid port number: " ++ print_dec port)))
    else
      resolved <~ pzoom r_dns set_dns (resolve_prog host DNS_TIMEOUT) ;;
      ip <~ pure (ok_or (internal (B "Cannot resolve hostname: " ++ host))
                    (parse_ipaddr resolved)) ;;
      if is_blocked_ip ip then
        pure (Err (forbidden (B "Access to private/reserved IP address is forbidden: "
                              ++ display_ip ip)))
      else
        pure (Ok (if has_port then display_ip ip ++ colon :: print_dec port else display_ip ip)).

Definition resolve_via_resolver_prog (data : bytes) : PR ResolverResult :=
  resolver <~ read_field (fun s => a_resolver (r_adapter s)) ;;
  match resolver with
  | Some f => r <~ atom (call_resolver f data) ;; pure r
  | None => pure (Err (not_found (B "No resolver or resolve callback configured")))
  end.

Definition resolution_prog (data : bytes) : PR ResolverResult :=
  on_resolve <~ read_field (fun s => a_on_resolve (r_adapter s)) ;;
  match on_resolve with
  | Some callback =>
      r <~ atom (call_callback callback data) ;;
      match r with
      | Some r => pure r
      | None => resolve_via_resolver_prog data
      end
  | None => resolve_via_resolver_prog data
  end.

Definition fresh_entry_prog (cache_ttl : Z) (data : bytes) : PR (option CacheEntry) :=
  if cache_ttl =? 0 then pure (Ok None)
  else
    hit <~ atom (cache_lookup data) ;;
    match hit with
    | Some entry =>
        now <~ atom io_clock ;;
        pure (Ok (if now - ce_inserted_at entry <? cache_ttl then Some entry else None))
    | None => pure (Ok None)
    end.

(** [Adapter::route]: [cache_ttl] is read once, at the start;
    [skip_validation] after the resolution. *)
Definition route_prog (data : bytes) : PR ConnectionResult :=
  conf <~ read_field (fun s => (a_cache_ttl (r_adapter s), a_protocol (r_adapter s))) ;;
  let '(cache_ttl, protocol) := conf in
  hit <~ fresh_entry_prog cache_ttl data ;;
  match hit with
  | Some entry =>
      pure (Ok (connection_result_new (ce_endpoint entry) protocol
                  {[ cached_key := B "true" ]}))
  | None =>
      res <~ resolution_prog data ;;
      if bool_decide (rr_endpoint res = []) then
        pure (Err (not_found (B "Resolver returned empty endpoint for: "
                              ++ from_utf8_lossy data)))
      else
        skip <~ read_field (fun s => a_skip_validation (r_adapter s)) ;;
        endpoint <~ (if skip : bool then pure (Ok (rr_endpoint res))
                     else validate_prog (rr_endpoint res)) ;;
        (if cache_ttl =? 0 then pure (Ok tt)
         else now <~ atom io_clock ;; atom (cache_store data (mkCacheEntry endpoint now))) ~;;
        pure (Ok (connection_result_new endpoint protocol
                    (<[ cached_key := B "false" ]> (rr_metadata res))))
  end.

(** ** Alone, the cut handlers are the handlers *)

Lemma run_resolve_prog {E} host lim : run (resolve_prog (E := E) host lim) ≗ resolve host lim.
Proof.
  unfold resolve_prog, resolve. case_bool_decide; [done|].
  destruct (parse_ipaddr host); [done|].
  rewrite run_pbind, run_atom. apply bind_proper; [done|]. intros [ip|]; [done|].
  destruct env_dns_init; [|done].
  rewrite run_pbind, run_atom. apply bind_proper; [done|].
  intros [[ips|e]|]; [|done..]. destruct (pick_ip ips); [|done].
  by rewrite run_pbind, run_atom.
Qed.

Lemma dns_lens : lens (r_dns (CD := CD) (CR := CR)) set_dns.
Proof. split; [done|done|done|by intros []]. Qed.

Lemma run_validate_prog endpoint : run (validate_prog endpoint) ≗ validate endpoint.
Proof.
  unfold validate_prog, validate. cbv zeta. case_bool_decide; [done|].
  rewrite run_pbind. apply bind_proper; [by case_match|]. intros port.
  case_match; [done|].
  rewrite run_pbind, (run_pzoom _ _ _ dns_lens), run_resolve_prog.
  apply bind_proper; [done|]. intros resolved.
  rewrite run_pbind. apply bind_proper; [done|]. intros ip. by case_match.
Qed.

Lemma run_resolution_prog data : run (resolution_prog data) ≗ resolution data.
Proof.
  assert (Hvia : run (resolve_via_resolver_prog data) ≗ resolve_via_resolver data).
  { apply run_read_bind. intros s t. by destruct (a_resolver (r_adapter s)). }
  apply run_read_bind. intros s t. pointwise.
  destruct (a_on_resolve (r_adapter s)); [|apply Hvia].
  rewrite run_pbind, run_atom. apply bind_proper; [done|].
  intros [r|]; [done|apply Hvia].
Qed.

Lemma run_fresh_entry_prog ttl data : run (fresh_entry_prog ttl data) ≗ fresh_entry ttl data.
Proof.
  unfold fresh_entry_prog, fresh_entry. case_match; [done|].
  rewrite run_pbind, run_atom. apply bind_proper; [done|]. intros [entry|]; [|done].
  rewrite run_pbind, run_atom. by apply bind_proper.
Qed.

Lemma run_route_prog data : run (route_prog data) ≗ route data.
Proof.
  apply run_read_bind. intros s t. pointwise.
  rewrite run_pbind, run_fresh_entry_prog. apply bind_proper; [done|]. intros [entry|]; [done|].
  rewrite run_pbind, run_resolution_prog. apply bind_proper; [done|]. intros res.
  case_match; [done|]. apply run_read_bind. intros s1 t1. pointwise.
  rewrite run_pbind. apply bind_proper; [by case_match; [|apply run_validate_prog]|]. intros out.
  rewrite run_pbind. apply bind_proper; [|done]. case_match; [done|].
  rewrite run_pbind, run_atom. apply bind_proper; [done|]. intros now. by rewrite run_atom.
Qed.
End Progs.

(** ** Where a routed endpoint comes from *)
Section Provenance.
Context `{Env} {CD CR : Type} `{TtlCacheLaws bytes IpAddr CD} `{TtlCacheLaws bytes CacheEntry CR}.
Implicit Types (s : Routing CD CR) (t : trace).

(** The resolver or the callback answered [res] when asked about [data]. *)
Definition answer (t : trace) (data : bytes) (res : ResolverResult) : Prop :=
  EvResolve data (Ok res) ∈ t \/ EvCallback data (Some (Ok res)) ∈ t.

(** [out] is what validation makes of [endpoint], with the host as it is
    written or as a lookup of exactly that host gave it. *)
Definition validated_from (t : trace) (endpoint out : bytes) : Prop :=
  exists ip port, vetted out ip port /\ host_address t (endpoint_host endpoint) ip
    /\ match endpoint_port endpoint with
       | Some text => exists p, port = Some p /\ parse_u16 text = Some p
       | None => port = None
       end.

(** [out] goes back to an answer about [data], validated unless validation
    may be off. *)
Definition routed_from (may_skip : bool) (t : trace) (data out : bytes) : Prop :=
  exists res, answer t data res
    /\ (validated_from t (rr_endpoint res) out
        \/ may_skip = true /\ out = rr_endpoint res /\ out <> []).

Lemma looked_up_later t t' host ip : t `suffix_of` t' -> looked_up t host ip -> looked_up t' host ip.
Proof. intros [l ->] (ips & Hin & Hp). exists ips. split; [set_solver|done]. Qed.

Lemma host_address_later t t' host ip :
  t `suffix_of` t' -> host_address t host ip -> host_address t' host ip.
Proof.
  intros Ht [?|Hl]; [by left|]. right. by eapply looked_up_later.
Qed.

Lemma answer_later t t' data res : t `suffix_of` t' -> answer t data res -> answer t' data res.
Proof. intros [l ->] [?|?]; [left|right]; set_solver. Qed.

Lemma validated_from_later t t' endpoint out :
  t `suffix_of` t' -> validated_from t endpoint out -> validated_from t' endpoint out.
Proof.
  intros Ht (ip & port & Hv & Hh & Hp). exists ip, port.
  split; [done|]. split; [by eapply host_address_later|done].
Qed.

Lemma routed_from_later may_skip t t' data out :
  t `suffix_of` t' -> routed_from may_skip t data out -> routed_from may_skip t' data out.
Proof.
  intros Ht (res & Ha & Hv). exists res. split; [by eapply answer_later|].
  destruct Hv as [Hv|Hs]; [left; by eapply validated_from_later|by right].
Qed.

Lemma dns_inv_later (d : Dns CD) t t' : t `suffix_of` t' -> dns_inv d t -> dns_inv d t'.
Proof. intros [l ->]. apply dns_inv_app. Qed.

(** What the tasks share: DNS entries answer their name, cached endpoints go
    back to an answer about their key, and validation is on if it must be. *)
Definition shared_inv (may_skip : bool) (s : Routing CD CR) (t : trace) : Prop :=
  dns_inv (r_dns s) t
  /\ (forall k e n, cache_holds (a_cache (r_adapter s)) k e n ->
        routed_from may_skip t k (ce_endpoint e))
  /\ (a_skip_validation (r_adapter s) = true -> may_skip = true).

Lemma shared_inv_later may_skip s t t' :
  t `suffix_of` t' -> shared_inv may_skip s t -> shared_inv may_skip s t'.
Proof.
  intros Ht (Hd & Hc & Hs). split; [by eapply dns_inv_later|]. split; [|done].
  intros k e n Hh. eapply routed_from_later; [exact Ht|by eapply Hc].
Qed.

Lemma shared_inv_cons may_skip s t ev : shared_inv may_skip s t -> shared_inv may_skip s (ev :: t).
Proof. apply shared_inv_later. by exists [ev]. Qed.

(** What else happens meanwhile: other tasks' I/O, the DNS cache cleared or
    its TTL set, the adapter reconfigured. *)
Inductive reconfigured (may_skip : bool) : Routing CD CR * trace -> Routing CD CR * trace -> Prop :=
| other_io ev s t : reconfigured may_skip (s, t) (s, ev :: t)
| dns_cleared s t : reconfigured may_skip (s, t) (set_dns (dns_clear (r_dns s)) s, t)
| dns_ttl_set seconds s t :
    reconfigured may_skip (s, t) (set_dns (set_ttl seconds (r_dns s)) s, t)
| cache_ttl_set seconds s t :
    reconfigured may_skip (s, t) (on_adapter (set_cache_ttl seconds) s, t)
| on_resolve_set f s t : reconfigured may_skip (s, t) (on_adapter (set_on_resolve f) s, t)
| validation_set skip s t :
    (skip = true -> may_skip = true) ->
    reconfigured may_skip (s, t) (on_adapter (set_skip_validation skip) s, t).

Lemma dns_inv_set_ttl seconds (d : Dns CD) t : dns_inv d t -> dns_inv (set_ttl seconds d) t.
Proof.
  intros Hi k ip n Hh. unfold force_cache, set_ttl in Hh. cbn in Hh.
  destruct (dns_cache d) eqn:E; [|by apply cache_new_empty in Hh].
  eapply Hi. unfold force_cache. by rewrite E.
Qed.

Lemma shared_inv_rely may_skip s t s' t' :
  shared_inv may_skip s t -> reconfigured may_skip (s, t) (s', t') ->
  shared_inv may_skip s' t' /\ t `suffix_of` t'.
Proof.
  intros Hinv Hr. inversion Hr; subst.
  { split; [by apply shared_inv_cons|by exists [ev]]. }
  all: destruct Hinv as (Hd & Hc & Hs); split; [|done]; split_and!; try done.
  - apply dns_inv_clear.
  - by apply dns_inv_set_ttl.
Qed.

(** ** The steps keep the invariant *)

Lemma sound_pure {S E A} (Inv : S -> trace -> Prop) (Q : trace -> result E A -> Prop) t0 r :
  Q t0 r -> sound Inv Q t0 (pure r).
Proof. done. Qed.

Ltac later := first [done | by etrans | by eapply suffix_cons_r | by exists [_]].

Lemma sound_resolve may_skip host lim t0 :
  sound (E := ResolverError) (shared_inv may_skip)
    (fun t r => match r with Ok out => resolved host out t | Err _ => True end) t0
    (pzoom r_dns set_dns (resolve_prog host lim)).
Proof.
  unfold resolve_prog. case_bool_decide; [by left|].
  destruct (parse_ipaddr host); [by left|]. split; [constructor|]. intros s t _ Hinv.
  destruct Hinv as (Hd & Hrest). unfold wp. cbn.
  split; [by split; [apply (dns_inv_force _ _ Hd)|]|]. split; [done|].
  destruct (cache_get _ _ _) as [ip|] eqn:Eg; cbn.
  { apply cache_get_held in Eg as (n & Hh & _). right. eauto. }
  destruct env_dns_init; [|by left]. split; [constructor|]. intros s1 t1 Ht1 Hinv1. cbn.
  unfold wp. cbn. generalize (env_lookup t1 host lim). intros r.
  split; [destruct s1; by apply shared_inv_cons|]. split; [by exists [EvLookup host r]|].
  destruct r as [[ips|e]|]; [|by left..].
  destruct (pick_ip ips) as [ip|] eqn:Ep; [|by left]. cbn. split; [constructor|]. intros s2 t2 Ht2 (Hd2 & Hrest2).
  assert (Hl : looked_up t2 host ip).
  { eapply looked_up_later; [exact Ht2|]. exists ips. split; [set_solver|done]. }
  unfold wp. cbn. split; [by split; [apply dns_inv_insert|]|].
  split; [done|]. right. eauto.
Qed.

Definition validated_post (endpoint : bytes) (t : trace) (r : result ResolverError bytes) : Prop :=
  match r with Ok out => validated_from t endpoint out | Err _ => True end.

Lemma sound_validate_resolved may_skip endpoint host port (has_port : bool) p t0 :
  endpoint_host endpoint = host ->
  port = (if has_port then Some p else None) ->
  (has_port = true -> valid_port p) ->
  match endpoint_port endpoint with
  | Some text => exists q, port = Some q /\ parse_u16 text = Some q
  | None => port = None
  end ->
  sound (shared_inv may_skip) (validated_post endpoint) t0
    (resolved <~ pzoom r_dns set_dns (resolve_prog host DNS_TIMEOUT) ;;
     ip <~ pure (ok_or (internal (B "Cannot resolve hostname: " ++ host))
                   (parse_ipaddr resolved)) ;;
     if is_blocked_ip ip then
       pure (Err (forbidden (B "Access to private/reserved IP address is forbidden: "
                             ++ display_ip ip)))
     else
       pure (Ok (if has_port then display_ip ip ++ colon :: print_dec p else display_ip ip))).
Proof.
  intros Hh -> Hp Hport. eapply sound_bind; [apply sound_resolve| |done].
  intros out t Ht Hres. cbn. destruct (parse_ipaddr out) as [ip|] eqn:Eip; cbn; [|done].
  destruct (is_blocked_ip ip) eqn:Eb; cbn; [done|].
  exists ip, (if has_port then Some p else None). split; [|split].
  - split; [by destruct has_port|]. split; [done|]. destruct has_port; auto.
  - rewrite Hh. destruct Hres as [->|(ip' & -> & Hl)]; [by left|]. rewrite parse_display_ip in Eip.
    injection Eip as <-. by right.
  - done.
Qed.

(** [validate_prog] along the cases of the endpoint's text. *)
Lemma sound_validate may_skip endpoint t0 :
  sound (shared_inv may_skip) (validated_post endpoint) t0 (validate_prog endpoint).
Proof.
  unfold validate_prog. rewrite splitn_3.
  pose proof (eq_refl (endpoint_host endpoint)) as Hh.
  pose proof (eq_refl (endpoint_port endpoint)) as Hp.
  unfold endpoint_host at 2 in Hh. unfold endpoint_port at 2 in Hp.
  destruct (split_once colon endpoint) as [[host rest]|] eqn:E1.
  2: { eval_lengths.
       by apply (sound_validate_resolved may_skip endpoint endpoint None false 0 t0); try rewrite Hp. }
  destruct (split_once colon rest) as [[? ?]|] eqn:E2; [by eval_lengths|].
  eval_lengths. cbn [nth]. destruct (decide (rest = [])) as [->|Hne].
  - rewrite (bool_decide_eq_false_2 ([] <> [])) by auto. cbn [andb pbind pure].
    by apply (sound_validate_resolved may_skip endpoint host None false 0 t0); try rewrite Hp.
  - rewrite (bool_decide_eq_true_2 (rest <> [])) by done. cbn [andb].
    rewrite bool_decide_eq_false_2 in Hp by done.
    destruct (parse_u16 rest) as [p|] eqn:Ep; cbn [ok_or pbind pure]; [|done].
    destruct ((1 <=? p) && (p <=? 65535)) eqn:Er; cbn [negb]; [|done].
    bool_to_prop.
    apply (sound_validate_resolved may_skip endpoint host (Some p) true p t0); try done.
    rewrite Hp. eauto.
Qed.

Definition resolution_post (data : bytes) (t : trace) (r : result ResolverError ResolverResult)
  : Prop := match r with Ok res => answer t data res | Err _ => True end.

Lemma sound_resolution may_skip data t0 :
  sound (shared_inv may_skip) (resolution_post data) t0 (resolution_prog data).
Proof.
  assert (Hvia : forall t1, sound (shared_inv may_skip) (resolution_post data) t1
                              (resolve_via_resolver_prog data)).
  { intros t1. eapply (sound_bind _ _ (fun _ _ => True)); [by apply sound_read| |done].
    intros [f|] t2 _ _; [|done].
    eapply (sound_bind _ _ (fun t r => match r with Ok a => EvResolve data a ∈ t | _ => True end)).
    - apply sound_io; [by intros; apply shared_inv_cons|set_solver].
    - intros [res|e] t3 _ Hin; [by left|done].
    - done. }
  eapply (sound_bind _ _ (fun _ _ => True)); [by apply sound_read| |done].
  intros [f|] t2 _ _; [|apply Hvia].
  eapply (sound_bind _ _ (fun t r => match r with Ok a => EvCallback data a ∈ t | _ => True end)).
  - apply sound_io; [by intros; apply shared_inv_cons|set_solver].
  - intros [[res|e]|] t3 _ Hin; [by right|done|apply Hvia].
  - done.
Qed.

Lemma sound_fresh_entry may_skip ttl data t0 :
  sound (shared_inv may_skip)
    (fun t r => match r with
                | Ok (Some e) => routed_from may_skip t data (ce_endpoint e)
                | _ => True
                end) t0 (fresh_entry_prog ttl data).
Proof.
  unfold fresh_entry_prog. case_match; [done|].
  eapply (sound_bind _ _ (fun t r => match r with
    | Ok (Some e) => routed_from may_skip t data (ce_endpoint e) | _ => True end)).
  - apply sound_atom. intros s t _ Hinv. unfold wp, cache_lookup.
    split; [done|]. split; [done|].
    destruct (cache_get _ _ _) as [e|] eqn:Eg; [|done].
    apply cache_get_held in Eg as (n & Hh & _). by eapply Hinv.
  - intros [e|] t _ Hr; [|done].
    eapply (sound_bind _ _ (fun _ _ => True)); [| |done].
    + apply sound_io; [by intros; apply shared_inv_cons|done].
    + intros now t1 Ht1 _. cbn. destruct (_ <? _); [by eapply routed_from_later|done].
  - done.
Qed.

(** Storing an endpoint that goes back to an answer about its key. *)
Lemma shared_inv_store may_skip s t data out now :
  shared_inv may_skip s t -> routed_from may_skip t data out ->
  shared_inv may_skip
    (on_adapter (set_cache (cache_insert (a_cache (r_adapter s)) (env_now t) data
                              (mkCacheEntry out now))) s) t.
Proof.
  intros (Hd & Hc & Hs) Hout. split; [done|]. split; [|done].
  intros k e n Hh. cbn in Hh.
  apply cache_insert_held in Hh as [(-> & -> & _)|[_ Hh]]; [done|by eapply Hc].
Qed.

Lemma sound_store may_skip ttl data out t0 :
  routed_from may_skip t0 data out ->
  sound (E := ResolverError) (shared_inv may_skip) (fun _ _ => True) t0
    (if ttl =? 0 then pure (Ok tt)
     else now <~ atom io_clock ;; atom (cache_store data (mkCacheEntry out now))).
Proof.
  intros Hout. case_match; [done|].
  eapply (sound_bind _ _ (fun _ _ => True)); [| |done].
  { apply sound_io; [by intros; apply shared_inv_cons|done]. }
  intros now t1 Ht1 _. apply sound_atom. intros s t Ht Hinv. unfold wp, cache_store.
  split; [|by split]. apply shared_inv_store; [done|].
  eapply routed_from_later; [|exact Hout]. by etrans.
Qed.

Definition routed_post (may_skip : bool) (data : bytes) (t : trace)
    (r : result ResolverError ConnectionResult) : Prop :=
  match r with Ok cr => routed_from may_skip t data (cr_endpoint cr) | Err _ => True end.

Lemma routed_post_later may_skip data t t' r :
  t `suffix_of` t' -> routed_post may_skip data t r -> routed_post may_skip data t' r.
Proof. destruct r; [apply routed_from_later|done]. Qed.

Lemma sound_route may_skip data t0 :
  sound (shared_inv may_skip) (routed_post may_skip data) t0 (route_prog data).
Proof.
  eapply (sound_bind _ _ (fun _ _ => True)); [by apply sound_read| |done].
  intros [ttl protocol] t1 _ _.
  eapply sound_bind; [apply sound_fresh_entry| |done].
  intros [e|] t2 _ Hhit; [done|].
  eapply sound_bind; [apply sound_resolution| |done].
  intros res t3 _ Hans. case_bool_decide as Hne; [done|].
  eapply (sound_bind _ _ (fun _ r => match r with Ok skip => skip = true -> may_skip = true
                                              | Err _ => True end)); [| |done].
  { apply sound_read. intros s t _ Hinv. apply Hinv. }
  intros skip t4 Ht4 Hskip.
  eapply (sound_bind _ _ (fun t r => match r with
     | Ok out => routed_from may_skip t data out | Err _ => True end)); [| |done].
  { destruct skip.
    - exists res. split; [by eapply answer_later|]. right. by auto.
    - eapply sound_mono; [|apply sound_validate]. intros t [out|] Ht Hv; [|done].
      exists res. split; [|by left]. eapply answer_later; [|exact Hans]. by etrans. }
  intros out t5 Ht5 Hout.
  eapply (sound_bind _ _ (fun _ _ => True)); [by apply sound_store| |done].
  intros _ t6 Ht6 _. by eapply routed_from_later.
Qed.
End Provenance.

(** Routing only asks; it dials and sends nothing. *)
Section Events.
Context `{Env} {CD CR : Type} `{TtlCache bytes IpAddr CD} `{TtlCache bytes CacheEntry CR}.

Lemma pemits_read {S E A} P (f : S -> A) : pemits P (read_field (E := E) f).
Proof. apply pemits_atom. by emits_steps. Qed.

Ltac pemits_step :=
  lazymatch goal with
  | |- pemits _ (pbind _ _) => apply pemits_bind; [|intros]
  | |- pemits _ (pzoom _ _ _) => apply pemits_zoom
  | |- pemits _ (pure _) => exact I
  | |- pemits _ (read_field _) => apply pemits_read
  | |- pemits _ (atom _) => apply pemits_atom
  | |- pemits _ (match ?x with _ => _ end) => destruct x
  | |- emits _ (io_event _ _) => apply emits_io; done
  | |- emits _ _ => first [apply emits_io; done|by intros s t]
  end.

Lemma pemits_route data : pemits routing_event (route_prog (CD := CD) (CR := CR) data).
Proof.
  unfold route_prog, fresh_entry_prog, resolution_prog, resolve_via_resolver_prog, validate_prog, resolve_prog.
  repeat pemits_step.
Qed.
End Events.

(** ** Properties *)
Section Properties.
Context `{Env} {CD CR : Type} `{TtlCacheLaws bytes IpAddr CD} `{TtlCacheLaws bytes CacheEntry CR}.

(** Requests being routed: [route_prog] of each request's data. *)
Abbreviation routers := (config (K := bytes) (S := Routing CD CR) (E := ResolverError)
                       (A := ConnectionResult)).
Definition routers_step (may_skip : bool) : routers -> routers -> Prop :=
  sched_step route_prog (reconfigured may_skip).
Definition routers_initial (resolver : option Resolve) (p : Protocol) : routers :=
  mkConfig [] (mkRouting (adapter_new resolver p) dns_initial) [].

Lemma shared_inv_initial may_skip resolver p :
  shared_inv (CD := CD) (CR := CR) may_skip (mkRouting (adapter_new resolver p) dns_initial) [].
Proof.
  split; [apply dns_inv_initial|]. split; [|done].
  intros k e n Hh. by apply cache_new_empty in Hh.
Qed.

Lemma routers_reachable may_skip resolver p c i data r :
  rtc (routers_step may_skip) (routers_initial resolver p) c ->
  tasks c !! i = Some (data, PDone r) -> routed_post may_skip data (history c) r.
Proof.
  intros Hr Hi. eapply sched_adequacy in Hr as [_ Hp]; [exact Hp|..|exact Hi].
  - apply shared_inv_rely.
  - intros ????. apply routed_post_later.
  - intros ??. apply sound_route.
  - apply shared_inv_initial.
Qed.

(** No part of a handler takes more than so many steps. *)
Lemma within_resolve {E} host lim : within 3 (resolve_prog (CD := CD) (E := E) host lim).
Proof.
  unfold resolve_prog. case_bool_decide; [constructor|].
  destruct (parse_ipaddr host); [constructor|].
  apply (within_bind 1 2); [apply within_atom|]. intros [ip|]; [constructor|].
  destruct env_dns_init; [|constructor].
  apply (within_bind 1 1); [apply within_atom|]. intros [[ips|e]|]; [|constructor..].
  destruct (pick_ip ips); [|constructor].
  apply (within_bind 1 0); [apply within_atom|constructor].
Qed.

Lemma within_validate endpoint :
  within 3 (validate_prog (CD := CD) (CR := CR) endpoint).
Proof.
  unfold validate_prog. cbv zeta. case_bool_decide; [constructor|].
  apply (within_bind 0 3); [case_match; constructor|]. intros port.
  case_match; [constructor|].
  apply (within_bind 3 0); [apply within_zoom, within_resolve|]. intros out.
  apply (within_bind 0 0); [constructor|]. intros ip. case_match; constructor.
Qed.

Lemma within_resolution data : within 4 (resolution_prog (CD := CD) (CR := CR) data).
Proof.
  assert (Hvia : within 2 (resolve_via_resolver_prog (CD := CD) (CR := CR) data)).
  { apply (within_bind 1 1); [apply within_atom|]. intros [f|]; [|constructor].
    apply (within_bind 1 0); [apply within_atom|]. intros r. constructor. }
  apply (within_bind 1 3); [apply within_atom|]. intros [f|].
  - apply (within_bind 1 2); [apply within_atom|]. intros [r|]; [constructor|exact Hvia].
  - eapply within_mono; [exact Hvia|lia].
Qed.

Lemma within_route data : within 13 (route_prog (CD := CD) (CR := CR) data).
Proof.
  apply (within_bind 1 12); [apply within_atom|]. intros [ttl protocol].
  apply (within_bind 2 10).
  { unfold fresh_entry_prog. case_match; [constructor|].
    apply (within_bind 1 1); [apply within_atom|]. intros [e|]; [|constructor].
    apply (within_bind 1 0); [apply within_atom|]. intros now. constructor. }
  intros [e|]; [constructor|].
  apply (within_bind 4 6); [apply within_resolution|]. intros res.
  case_bool_decide; [constructor|].
  apply (within_bind 1 5); [apply within_atom|]. intros skip.
  apply (within_bind 3 2); [case_match; [constructor|apply within_validate]|]. intros out.
  apply (within_bind 2 0); [|constructor]. case_match; [constructor|].
  apply (within_bind 1 1); [apply within_atom|]. intros now. apply within_atom.
Qed.

(** C14: isolation of concurrent requests: however any number of requests
    interleave with each other, with other I/O, with DNS cache clears and with
    every reconfiguration of the adapter (validation switched on and off
    included), an endpoint [route] answers for [data] goes back to an answer
    the resolver or the callback gave about that very [data], never about
    another request's: it is that answer, or what validation made of it, the
    address being the literal host or one a lookup of exactly that host
    returned. *)
Theorem concurrent_routes_isolated resolver p c i data cr :
  rtc (routers_step true) (routers_initial resolver p) c ->
  tasks c !! i = Some (data, PDone (Ok cr)) ->
  exists res, answer (history c) data res
    /\ (validated_from (history c) (rr_endpoint res) (cr_endpoint cr)
        \/ cr_endpoint cr = rr_endpoint res /\ cr_endpoint cr <> []).
Proof.
  intros Hr Hi. destruct (routers_reachable _ _ _ _ _ _ _ Hr Hi) as (res & Ha & Hv).
  exists res. split; [done|]. destruct Hv as [Hv|(_ & Hv)]; [by left|by right].
Qed.

(** SSRF safety of concurrent routing: as long as validation is not
    switched off, no interleaving of requests, DNS answers, cache contents and
    reconfigurations makes [route] answer with an endpoint that dials a blocked
    literal; the endpoint is the validated form of an answer about the same
    request. *)
Theorem concurrent_routes_vetted resolver p c i data cr default_port :
  rtc (routers_step false) (routers_initial resolver p) c ->
  tasks c !! i = Some (data, PDone (Ok cr)) ->
  (exists res, answer (history c) data res
     /\ validated_from (history c) (rr_endpoint res) (cr_endpoint cr))
  /\ (forall ip, parse_ipaddr (fst (parse_endpoint (cr_endpoint cr) default_port)) = Some ip ->
        is_blocked_ip ip = false).
Proof.
  intros Hr Hi. destruct (routers_reachable _ _ _ _ _ _ _ Hr Hi) as (res & Ha & Hv).
  destruct Hv as [Hv|[? _]]; [|done]. split; [by exists res|].
  destruct Hv as (ip & port & Hv & _). intros ip2. by eapply vetted_dial.
Qed.

(** Refinement: a request routed while nothing else runs does exactly what
    [route] does, from any state and with any other requests suspended in the
    middle of theirs: the interleaving machine has the runs of the sequential
    definition. *)
Theorem route_alone_is_a_schedule may_skip (ts : list (bytes * PR ConnectionResult)) i data
    (s s' : Routing CD CR) t t' r :
  ts !! i = Some (data, route_prog data) ->
  route data s t = (r, s', t') ->
  rtc (routers_step may_skip) (mkConfig ts s t) (mkConfig (<[i := (data, PDone r)]> ts) s' t').
Proof. intros Hi Hr. eapply run_sched; [exact Hi|]. by rewrite run_route_prog. Qed.

End Properties.

(** ** Witnesses *)

(** Two requests for two databases, in lock step. *)
Definition concurrency_example_resolver : Resolve :=
  fun _ data => Ok (resolver_result_new
    (if bool_decide (data = B "a") then B "8.8.8.8:5432" else B "1.1.1.1:5432")).

Abbreviation example_routing := (Routing dns_example_cache (AssocCache bytes CacheEntry)).
Definition concurrency_example_state : example_routing :=
  on_adapter (set_cache_ttl 60)
    (mkRouting (adapter_new (Some concurrency_example_resolver) PostgreSQL) dns_initial).

Definition example_body (data : bytes) : PR (CD := dns_example_cache) ConnectionResult :=
  @route_prog dns_example_env dns_example_cache (AssocCache bytes CacheEntry) _ _ data.

Definition concurrency_example :=
  schedule (concat (repeat [0; 1]%nat 13))
    (mkConfig [(B "a", example_body (B "a")); (B "b", example_body (B "b"))]
       concurrency_example_state []).

Definition concurrency_example_result (out : bytes) : ConnectionResult :=
  connection_result_new out PostgreSQL {[ cached_key := B "false" ]}.

Lemma concurrency_example_finished :
  finished concurrency_example
  = [Some (Ok (concurrency_example_result (B "8.8.8.8:5432")));
     Some (Ok (concurrency_example_result (B "1.1.1.1:5432")))].
Proof. vm_compute. reflexivity. Qed.

Lemma concurrency_example_reachable may_skip :
  rtc (@routers_step dns_example_env dns_example_cache (AssocCache bytes CacheEntry) _ _ may_skip)
    (routers_initial (Some concurrency_example_resolver) PostgreSQL) concurrency_example.
Proof.
  eapply rtc_l; [apply sched_rely, (cache_ttl_set _ 60)|].
  eapply rtc_l; [apply (sched_spawn _ _ (B "a"))|].
  eapply rtc_l; [apply (sched_spawn _ _ (B "b"))|].
  apply schedule_sched.
Qed.

Lemma concurrency_example_task :
  tasks concurrency_example !! 1%nat
  = Some (B "b", PDone (Ok (concurrency_example_result (B "1.1.1.1:5432")))).
Proof. vm_compute. reflexivity. Qed.

Lemma concurrent_routes_isolated_witness :
  exists res, answer (history concurrency_example) (B "b") res
    /\ (validated_from (history concurrency_example) (rr_endpoint res) (B "1.1.1.1:5432")
        \/ B "1.1.1.1:5432" = rr_endpoint res /\ B "1.1.1.1:5432" <> []).
Proof.
  exact (@concurrent_routes_isolated dns_example_env _ _ _ _ _ _ _ _ _ 1%nat (B "b") _
           (concurrency_example_reachable true) concurrency_example_task).
Defined.

Lemma concurrent_routes_vetted_witness :
  (exists res, answer (history concurrency_example) (B "b") res
     /\ validated_from (history concurrency_example) (rr_endpoint res) (B "1.1.1.1:5432"))
  /\ parse_ipaddr (fst (parse_endpoint (B "1.1.1.1:5432") 80))
     = Some (V4 (mkIpv4 (chr 1) (chr 1) (chr 1) (chr 1)))
  /\ is_blocked_ip (V4 (mkIpv4 (chr 1) (chr 1) (chr 1) (chr 1))) = false.
Proof.
  pose proof (@concurrent_routes_vetted dns_example_env _ _ _ _ _ _ _ _ _ 1%nat (B "b") _ 80
                (concurrency_example_reachable false) concurrency_example_task) as [Hp Hd].
  split; [exact Hp|].
  assert (Hip : parse_ipaddr (fst (parse_endpoint (B "1.1.1.1:5432") 80))
     = Some (V4 (mkIpv4 (chr 1) (chr 1) (chr 1) (chr 1)))) by (vm_compute; reflexivity).
  split; [exact Hip|exact (Hd _ Hip)].
Defined.

Lemma route_alone_is_a_schedule_witness :
  let '(r, s', t') := @route dns_example_env dns_example_cache _ (AssocCache bytes CacheEntry) _
                        (B "a") concurrency_example_state [] in
  rtc (@routers_step dns_example_env dns_example_cache (AssocCache bytes CacheEntry) _ _ false)
    (mkConfig [(B "a", example_body (B "a"))] concurrency_example_state [])
    (mkConfig [(B "a", PDone r)] s' t').
Proof.
  destruct (@route dns_example_env dns_example_cache _ (AssocCache bytes CacheEntry) _
              (B "a") concurrency_example_state []) as [[r s'] t'] eqn:E.
  exact (@route_alone_is_a_schedule dns_example_env _ _ _ _ false
           [(B "a", example_body (B "a"))] 0%nat (B "a") _ _ _ _ _ eq_refl E).
Defined.


(** ** What the cache does not promise *)

(** The answer of the last request, and the address it dials. *)
Definition last_endpoint (c : config (K := bytes) (S := example_routing) (E := ResolverError)
    (A := ConnectionResult)) : option bytes :=
  match last (finished c) with Some (Some (Ok cr)) => Some (cr_endpoint cr) | _ => None end.

(** The whole of request [i]. *)
Definition all_of (i : nat) : list nat := repeat i 13.

Definition private_resolver : Resolve := fun _ _ => Ok (resolver_result_new (B "10.0.0.7:5432")).

(** An endpoint cached while validation was off outlives its being switched
    on: the private address is served, unvalidated, to requests that come
    after [set_skip_validation(false)]. *)
Definition unvalidated_first :=
  schedule (all_of 0)
    (mkConfig [(B "a", example_body (B "a"))]
       (on_adapter (set_skip_validation true)
          (on_adapter (set_cache_ttl 60)
             (mkRouting (adapter_new (Some private_resolver) PostgreSQL) dns_initial))) []).
Definition unvalidated_second :=
  schedule (all_of 1)
    (mkConfig (tasks unvalidated_first ++ [(B "a", example_body (B "a"))])
       (on_adapter (set_skip_validation false) (shared unvalidated_first))
       (history unvalidated_first)).

Lemma validation_switched_on_late :
  a_skip_validation (r_adapter (shared unvalidated_second)) = false
  /\ last_endpoint unvalidated_second = Some (B "10.0.0.7:5432")
  /\ is_blocked_ip (V4 (mkIpv4 (chr 10) (chr 0) (chr 0) (chr 7))) = true.
Proof. vm_compute. by split_and!. Qed.

(** Two requests for the same data miss the cache together.  The one that was
    answered first, with the older backend, stores last: the older answer
    replaces the newer one, with a fresh time stamp. *)
Definition moving_resolver : Resolve := fun t _ =>
  Ok (resolver_result_new
        (if existsb (fun ev => match ev with EvResolve _ _ => true | _ => false end) t
         then B "8.8.8.8:5432" else B "1.1.1.1:5432")).
Definition overtaken :=
  schedule ([0; 0; 0; 0; 0] ++ all_of 1 ++ all_of 0 ++ all_of 2)%nat
    (mkConfig (repeat (B "a", example_body (B "a")) 3)
       (on_adapter (set_cache_ttl 60)
          (mkRouting (adapter_new (Some moving_resolver) PostgreSQL) dns_initial)) []).

Lemma older_answer_overwrites :
  map (fun r => match r with Some (Ok cr) => Some (cr_endpoint cr) | _ => None end)
    (finished overtaken)
  = [Some (B "1.1.1.1:5432"); Some (B "8.8.8.8:5432"); Some (B "1.1.1.1:5432")].
Proof. vm_compute. reflexivity. Qed.
