(* ===== verification/Tls.v ===== *)
(** * Tls: TLS configuration and detection of TLS requests
    ([src/tls/mod.rs], [src/tls/context.rs]).

    The rustls library is the interface [Rustls], the file system [FileSystem]
    of World; what they answer is arbitrary. *)

From Stdlib Require Import Ascii.
From S2P Require Import Prelude Text Net World.
Open Scope Z_scope.

(** ** Detection *)

Definition PG_SSL_REQUEST : bytes := map chr [0; 0; 0; 8; 4; 0xd2; 0x16; 0x2f].
Definition PG_SSL_RESPONSE_OK : ascii := "S"%char.
Definition PG_SSL_RESPONSE_REJECT : ascii := "N"%char.
Definition MYSQL_CLIENT_SSL_FLAG : Z := 0x800.
Definition MIN_TLS_VERSION : Z := 32.

Definition DEFAULT_CIPHERS : bytes :=
  B "ECDHE-ECDSA-AES128-GCM-SHA256:ECDHE-RSA-AES128-GCM-SHA256:" ++
  B "ECDHE-ECDSA-AES256-GCM-SHA384:ECDHE-RSA-AES256-GCM-SHA384:" ++
  B "ECDHE-ECDSA-CHACHA20-POLY1305:ECDHE-RSA-CHACHA20-POLY1305:" ++
  B "DHE-RSA-AES128-GCM-SHA256:DHE-RSA-AES256-GCM-SHA384".

(** [Tls::is_postgresql_ssl_request]. *)
Definition is_postgresql_ssl_request (data : bytes) : bool :=
  bool_decide (List.length data = 8%nat) && bool_decide (data = PG_SSL_REQUEST).

(** [data[i]] as an unsigned integer, for an index within bounds. *)
Definition byte_at (data : bytes) (i : nat) : Z := code (nth i data "000"%char).

(** [Tls::is_mysql_ssl_request]. *)
Definition is_mysql_ssl_request (data : bytes) : bool :=
  if bool_decide (List.length data < 36)%nat then false
  else if negb (byte_at data 3 =? 1) then false
  else
    let cap_low := Z.lor (byte_at data 4) (Z.shiftl (byte_at data 5) 8) in
    negb (Z.land cap_low MYSQL_CLIENT_SSL_FLAG =? 0).

(** ** Configuration *)

(** [struct Tls]. *)
Record Tls : Type := mkTls {
  tls_certificate : bytes;
  tls_key : bytes;
  tls_ca : bytes;
  tls_require_client_cert : bool;
  tls_ciphers : bytes;
  tls_min_protocol : Z }.

(** [Tls::new] and the builders. *)
Definition tls_new (certificate key : bytes) : Tls :=
  mkTls certificate key [] false DEFAULT_CIPHERS MIN_TLS_VERSION.
Definition with_ca (ca : bytes) (t : Tls) : Tls :=
  mkTls (tls_certificate t) (tls_key t) ca (tls_require_client_cert t) (tls_ciphers t)
    (tls_min_protocol t).
Definition with_client_cert_required (required : bool) (t : Tls) : Tls :=
  mkTls (tls_certificate t) (tls_key t) (tls_ca t) required (tls_ciphers t) (tls_min_protocol t).
Definition with_ciphers (ciphers : bytes) (t : Tls) : Tls :=
  mkTls (tls_certificate t) (tls_key t) (tls_ca t) (tls_require_client_cert t) ciphers
    (tls_min_protocol t).
Definition with_min_protocol (v : Z) (t : Tls) : Tls :=
  mkTls (tls_certificate t) (tls_key t) (tls_ca t) (tls_require_client_cert t) (tls_ciphers t) v.

Section Validate.
Context `{FileSystem}.

(** [Tls::validate]. *)
Definition tls_validate (t : Tls) : result bytes unit :=
  if bool_decide (tls_certificate t = []) then Err (B "TLS certificate path is empty")
  else if negb (is_file (tls_certificate t)) then
    Err (B "TLS certificate file not readable: " ++ tls_certificate t)
  else if bool_decide (tls_key t = []) then Err (B "TLS key path is empty")
  else if negb (is_file (tls_key t)) then
    Err (B "TLS private key file not readable: " ++ tls_key t)
  else if tls_require_client_cert t && bool_decide (tls_ca t = []) then
    Err (B "CA certificate path is required when client certificate verification is enabled")
  else if bool_decide (tls_ca t <> []) && negb (is_file (tls_ca t)) then
    Err (B "TLS CA certificate file not readable: " ++ tls_ca t)
  else Ok tt.
End Validate.

(** [Tls::is_mutual]. *)
Definition is_mutual (t : Tls) : bool :=
  tls_require_client_cert t && bool_decide (tls_ca t <> []).

(** ** The rustls server configuration *)

(** rustls and rustls_pemfile: errors are their texts. *)
Class Rustls (Cert Key Roots Verifier Config : Type) : Type := {
  pem_certs : bytes -> result bytes (list Cert);
  pem_private_key : bytes -> result bytes (option Key);
  roots_empty : Roots;
  roots_add : Roots -> Cert -> result bytes Roots;
  client_verifier : Roots -> result bytes Verifier;
  (** [with_client_cert_verifier] ([None] for [NoClientAuth]) and
      [with_single_cert] *)
  server_config : option Verifier -> list Cert -> Key -> result bytes Config }.

Section Context.
Context `{FileSystem} `{Rustls Cert Key Roots Verifier Config}.

(** [load_certs] and [load_private_key]. *)
Definition load_certs (path : bytes) : result bytes (list Cert) :=
  let? file := map_err (fun e => B "open " ++ path ++ B ": " ++ e) (read_file path) in
  map_err (fun e => B "parse certs from " ++ path ++ B ": " ++ e) (pem_certs file).

Definition load_private_key (path : bytes) : result bytes Key :=
  let? file := map_err (fun e => B "open " ++ path ++ B ": " ++ e) (read_file path) in
  let? key := map_err (fun e => B "parse key from " ++ path ++ B ": " ++ e)
                (pem_private_key file) in
  ok_or (B "no private key found in " ++ path) key.

(** The loop that fills the root store. *)
Fixpoint add_roots (roots : Roots) (certs : list Cert) : result bytes Roots :=
  match certs with
  | [] => Ok roots
  | cert :: rest =>
      let? roots' := map_err (fun e => B "failed to add CA cert: " ++ e) (roots_add roots cert) in
      add_roots roots' rest
  end.

(** [TlsContext::rustls_server_config]. *)
Definition rustls_server_config (t : Tls) : result bytes Config :=
  let? certs := load_certs (tls_certificate t) in
  let? key := load_private_key (tls_key t) in
  let? verifier :=
    (if tls_require_client_cert t && bool_decide (tls_ca t <> []) then
       let? ca_certs := load_certs (tls_ca t) in
       let? roots := add_roots roots_empty ca_certs in
       let? v := map_err (fun e => B "failed to build client verifier: " ++ e)
                   (client_verifier roots) in
       Ok (Some v)
     else Ok None) in
  map_err (fun e => B "failed to install server cert: " ++ e) (server_config verifier certs key).

(** A root store made of exactly these certificates, in order. *)
Inductive trusts : list Cert -> Roots -> Prop :=
| trusts_empty : trusts [] roots_empty
| trusts_add certs cert roots roots' :
    trusts certs roots -> roots_add roots cert = Ok roots' -> trusts (certs ++ [cert]) roots'.

Lemma add_roots_trusts certs certs0 roots roots' :
  trusts certs0 roots -> add_roots roots certs = Ok roots' -> trusts (certs0 ++ certs) roots'.
Proof.
  revert certs0 roots. induction certs as [|cert certs IH]; intros certs0 roots Ht; cbn.
  - intros [= <-]. by rewrite app_nil_r.
  - destruct (roots_add roots cert) as [r|e] eqn:E; [|done]. cbn. intros Hr.
    rewrite (cons_middle cert certs0 certs), app_assoc.
    eapply IH; [|done]. by econstructor.
Qed.
End Context.

(** ** Properties *)

(** The MySQL detection tests exactly the documented things: at least 36
    bytes, sequence number 1, and bit 11 (CLIENT_SSL) of the little-endian
    capability word at offset 4, which is bit 3 of byte 5. *)
Theorem mysql_ssl_request_bits data :
  is_mysql_ssl_request data = true <->
  (36 <= List.length data)%nat /\ byte_at data 3 = 1 /\ Z.testbit (byte_at data 5) 3 = true.
Proof.
  unfold is_mysql_ssl_request.
  assert (Hbit : forall c d : ascii,
    negb (Z.land (Z.lor (code c) (Z.shiftl (code d) 8)) MYSQL_CLIENT_SSL_FLAG =? 0)
    = Z.testbit (code d) 3).
  { intros c d. unfold MYSQL_CLIENT_SSL_FLAG. change 0x800 with (2 ^ 11).
    rewrite Z.land_comm.
    replace (Z.land _ _ =? 0) with (negb (Z.testbit (Z.lor (code c) (Z.shiftl (code d) 8)) 11)).
    { rewrite negb_involutive, Z.lor_spec, Z.shiftl_spec by lia.
      pose proof (code_range c). rewrite (Z.bits_above_log2 (code c) 11); [done|lia|].
      destruct (decide (code c = 0)) as [->|]; [done|].
      apply Z.log2_lt_pow2; lia. }
    destruct (Z.testbit _ 11) eqn:Et; cbn; symmetry.
    - apply Z.eqb_neq. intros Hz. apply (f_equal (fun z => Z.testbit z 11)) in Hz.
      rewrite Z.land_spec, Et, Z.bits_0 in Hz. done.
    - apply Z.eqb_eq, Z.bits_inj'. intros n Hn. rewrite Z.land_spec, Z.bits_0.
      rewrite Z.pow2_bits_eqb by lia. destruct (Z.eqb_spec 11 n); [by subst|done]. }
  unfold byte_at in *. rewrite Hbit.
  case_bool_decide; [split; [done|lia]|].
  destruct (Z.eqb_spec (code (nth 3 data "000"%char)) 1); cbn; naive_solver lia.
Qed.

(** The PostgreSQL detection accepts exactly one message: length 8 and
    request code 80877103 (0x04D2162F), both big-endian. *)
Theorem postgresql_ssl_request_unique data :
  is_postgresql_ssl_request data = true <->
  List.length data = 8%nat
  /\ fold_left (fun acc c => acc * 256 + code c) data 0 = 8 * 2 ^ 32 + 80877103.
Proof.
  unfold is_postgresql_ssl_request. rewrite andb_true_iff, !bool_decide_eq_true. split.
  - intros [Hl ->]. split; [done|reflexivity].
  - intros [Hl Hv]. split; [done|].
    do 8 (destruct data as [|? data]; [done|]). destruct data; [|done]. clear Hl. cbn in Hv.
    repeat match goal with c : ascii |- _ =>
      pose proof (code_range c); rewrite <- (chr_code c); generalize dependent (code c); clear c
    end. intros. unfold PG_SSL_REQUEST. cbn [map].
    rewrite !code_chr in Hv by lia. repeat f_equal; lia.
Qed.

Section Mutual.
Context `{FileSystem} `{Rustls Cert Key Roots Verifier Config}.

(** C35: mutual TLS is enforced: when a configuration that asks for client
    certificates passes [validate], a server configuration built from it always
    carries a client verifier, and that verifier trusts exactly the
    certificates of the CA file, all of them. *)
Theorem client_certs_enforced t config :
  tls_require_client_cert t = true ->
  tls_validate t = Ok tt -> rustls_server_config t = Ok config ->
  exists certs key roots ca_certs v,
    server_config (Some v) certs key = Ok config
    /\ client_verifier roots = Ok v
    /\ load_certs (tls_ca t) = Ok ca_certs /\ trusts ca_certs roots.
Proof.
  intros Hreq Hval. unfold tls_validate in Hval. rewrite Hreq in Hval. cbn [andb] in Hval.
  assert (Hca : tls_ca t <> []) by (intros E; rewrite E in Hval; cases_in Hval).
  unfold rustls_server_config. rewrite Hreq, bool_decide_eq_true_2 by done. cbn [andb].
  destruct (load_certs (tls_certificate t)) as [certs|]; [|done].
  destruct (load_private_key (tls_key t)) as [key|]; [|done]. cbn [result_bind].
  destruct (load_certs (tls_ca t)) as [ca_certs|] eqn:Eca; [|done]. cbn [result_bind].
  destruct (add_roots roots_empty ca_certs) as [roots|] eqn:Er; [|done]. cbn [result_bind].
  destruct (client_verifier roots) as [v|] eqn:Ev; [|done]. cbn [result_bind map_err].
  destruct (server_config (Some v) certs key) as [c|] eqn:Ec; [|done]. intros [= <-].
  exists certs, key, roots, ca_certs, v. split_and!; try done.
  apply (add_roots_trusts ca_certs [] roots_empty roots); [constructor|done].
Qed.

(** [validate] accepts exactly the configurations whose certificate and
    key files exist, whose CA file, if named, exists, and which name a CA when
    they demand client certificates; in particular requiring certificates then
    means [is_mutual]. *)
Theorem tls_validate_iff t :
  tls_validate t = Ok tt <->
  (tls_certificate t <> [] /\ is_file (tls_certificate t) = true)
  /\ (tls_key t <> [] /\ is_file (tls_key t) = true)
  /\ (tls_ca t <> [] -> is_file (tls_ca t) = true)
  /\ (tls_require_client_cert t = true -> is_mutual t = true).
Proof.
  unfold tls_validate, is_mutual.
  repeat case_bool_decide; destruct (is_file (tls_certificate t)), (is_file (tls_key t)),
    (is_file (tls_ca t)), (tls_require_client_cert t); naive_solver.
Qed.
End Mutual.

(** ** Witness *)

Definition example_files : FileSystem := {|
  is_file path := bool_decide (path <> []);
  read_file path := Ok path |}.

(** Certificates and keys are file names; a verifier is its root store. *)
Definition example_rustls : Rustls bytes bytes (list bytes) (list bytes) (option (list bytes)) := {|
  pem_certs file := Ok [file];
  pem_private_key file := Ok (Some file);
  roots_empty := [];
  roots_add roots cert := Ok (roots ++ [cert]);
  client_verifier roots := Ok roots;
  server_config v _ _ := Ok v |}.

#[local] Existing Instances example_files example_rustls.

Definition mutual_example : Tls :=
  with_client_cert_required true (with_ca (B "ca.pem") (tls_new (B "cert.pem") (B "key.pem"))).

Lemma client_certs_enforced_witness :
  rustls_server_config mutual_example = Ok (Some [B "ca.pem"])
  /\ exists certs key roots ca_certs v,
    server_config (Some v) certs key = Ok (Some [B "ca.pem"])
    /\ client_verifier roots = Ok v
    /\ load_certs (tls_ca mutual_example) = Ok ca_certs /\ trusts ca_certs roots.
Proof.
  split; [reflexivity|].
  exact (client_certs_enforced mutual_example (Some [B "ca.pem"]) eq_refl eq_refl eq_refl).
Defined.
