(* ===== verification/Sockmap.v ===== *)
(** * Sockmap: the kernel relay's user-space half
    ([src/sockmap/tuple.rs], [src/sockmap/linux.rs], [src/sockmap/mod.rs]),
    and the key computation of the BPF program
    ([src/src/Sockmap/relay.bpf.c]).  The Linux configuration is modelled.

    libbpf and the kernel's sock hash are the interface [BpfLib]. *)

From Stdlib Require Import Ascii.
From S2P Require Import Prelude Text Net World.
Open Scope Z_scope.

(** ** Machine integers as bytes *)

(** [to_le_bytes] at a width of [n] bytes. *)
Fixpoint le_bytes (n : nat) (z : Z) : bytes :=
  match n with
  | O => []
  | S n' => chr (z mod 256) :: le_bytes n' (z / 256)
  end.

(** [from_le_bytes] and [from_be_bytes]. *)
Fixpoint le_val (s : bytes) : Z :=
  match s with
  | [] => 0
  | c :: s' => code c + 256 * le_val s'
  end.
Definition be_val (s : bytes) : Z := fold_left (fun acc c => acc * 256 + code c) s 0.

(** Wrap-around of [u32] and [u64]. *)
Definition u32 (z : Z) : Z := z mod 2 ^ 32.
Definition u64 (z : Z) : Z := z mod 2 ^ 64.

(** ** The tuple key *)

(** [tuple::tuple_key]. *)
Definition tuple_key (local_port : Z) (remote_port_be_bytes : ascii * ascii)
    (remote_ip_be_bytes : ascii * ascii * ascii * ascii) : Z :=
  let '(p0, p1) := remote_port_be_bytes in
  let '(a, b, c, d) := remote_ip_be_bytes in
  let rport_le := le_val [p0; p1] in
  let rip_le := le_val [a; b; c; d] in
  let k := Z.land local_port 0xffff in
  let k := u64 (Z.shiftl k 16) in
  let k := Z.lor k (Z.land rport_le 0xffff) in
  let k := u64 (Z.shiftl k 32) in
  Z.lor k rip_le.

(** The fields of [struct __sk_buff] that [relay.bpf.c] reads, all [__u32]. *)
Record sk_buff : Type := mkSkBuff {
  skb_local_port : Z;
  skb_remote_port : Z;
  skb_remote_ip4 : Z }.

(** [tuple_key] of [relay.bpf.c]. *)
Definition bpf_tuple_key (skb : sk_buff) : Z :=
  let k := Z.land (skb_local_port skb) 0xffff in
  let k := Z.lor (u64 (Z.shiftl k 16)) (Z.land (Z.shiftr (skb_remote_port skb) 16) 0xffff) in
  Z.lor (u64 (Z.shiftl k 32)) (skb_remote_ip4 skb).

(** What a little-endian kernel shows the program for a connection: the local
    port in host order, the network-order remote port in the high half of its
    word, the network-order remote address as it lies in memory. *)
Definition skb_of (local_port : Z) (remote_port_be : ascii * ascii)
    (remote_ip_be : ascii * ascii * ascii * ascii) : sk_buff :=
  let '(p0, p1) := remote_port_be in
  let '(a, b, c, d) := remote_ip_be in
  mkSkBuff local_port (u32 (Z.shiftl (le_val [p0; p1]) 16)) (le_val [a; b; c; d]).

(** [buf[i]] of a 16-byte socket address. *)
Definition addr_byte (buf : bytes) (i : nat) : ascii := nth i buf "000"%char.

(** [getsockname_inet] and [getpeername_inet]: the address in a zeroed buffer of
    16 bytes, cut to it. *)
Definition in_buffer_16 (addr : bytes) : bytes := take 16 (addr ++ replicate 16 "000"%char).
Definition getsockname_inet `{Env} (t : trace) (fd : sock) : option bytes :=
  in_buffer_16 <$> env_getsockname t fd.
Definition getpeername_inet `{Env} (t : trace) (fd : sock) : option bytes :=
  in_buffer_16 <$> env_getpeername t fd.

(** [build_tuple_key]. *)
Definition build_tuple_key `{Env} (t : trace) (fd : sock) : option Z :=
  local ← getsockname_inet t fd;
  peer ← getpeername_inet t fd;
  let local_port := be_val [addr_byte local 2; addr_byte local 3] in
  if local_port =? 0 then None
  else
    Some (tuple_key local_port (addr_byte peer 2, addr_byte peer 3)
            (addr_byte peer 4, addr_byte peer 5, addr_byte peer 6, addr_byte peer 7)).

(** ** libbpf *)

(** [struct BpfProgAttachAttr], all [u32]. *)
Record BpfProgAttachAttr : Type := mkBpfProgAttachAttr {
  target_fd : Z;
  attach_bpf_fd : Z;
  attach_type : Z;
  attach_flags : Z }.

(** An opened object file is a [U], a loaded one an [Obj]; the contents of its
    maps are part of it.  Errors are their texts. *)
Class BpfLib (U Obj : Type) : Type := {
  bpf_open_file : bytes -> result bytes U;
  bpf_load : U -> result bytes Obj;
  (** names and descriptors of its maps and programs *)
  bpf_maps : Obj -> list (bytes * Z);
  bpf_progs : Obj -> list (bytes * Z);
  (** the [bpf] system call: command, attribute and its size; when it returns a
      negative number, the text of [last_os_error] *)
  sys_bpf : Obj -> Z -> BpfProgAttachAttr -> Z -> result bytes Obj;
  (** [None]: the update failed *)
  bpf_map_update : Obj -> bytes -> bytes -> bytes -> option Obj;
  bpf_map_delete : Obj -> bytes -> bytes -> Obj;
  bpf_map_lookup : Obj -> bytes -> bytes -> option bytes }.

Class BpfLibLaws (U Obj : Type) `{BpfLib U Obj} : Prop := {
  bpf_lookup_update o m k v o' k' :
    bpf_map_update o m k v = Some o' ->
    bpf_map_lookup o' m k' = if decide (k = k') then Some v else bpf_map_lookup o m k';
  bpf_lookup_delete o m k k' :
    bpf_map_lookup (bpf_map_delete o m k) m k'
      = if decide (k = k') then None else bpf_map_lookup o m k';
  bpf_update_maps o m k v o' : bpf_map_update o m k v = Some o' -> bpf_maps o' = bpf_maps o;
  bpf_delete_maps o m k : bpf_maps (bpf_map_delete o m k) = bpf_maps o;
  (** maps are created empty; attaching a program does not change them *)
  bpf_load_empty u o m k : bpf_load u = Ok o -> bpf_map_lookup o m k = None;
  bpf_attach_lookup o cmd attr size o' m k :
    sys_bpf o cmd attr size = Ok o' -> bpf_map_lookup o' m k = bpf_map_lookup o m k;
  bpf_attach_maps o cmd attr size o' : sys_bpf o cmd attr size = Ok o' -> bpf_maps o' = bpf_maps o }.

Definition BPF_PROG_ATTACH : Z := 8.
Definition BPF_SK_SKB_STREAM_VERDICT : Z := 5.
Definition peers_name : bytes := B "peers".
Definition relay_name : bytes := B "relay".

Section Sockmap.
Context `{Env} `{FileSystem} `{BpfLib U Obj}.

(** [find_map], [find_map_fd] and [find_prog_fd]. *)
Definition find_map (o : Obj) (name : bytes) : option (bytes * Z) :=
  List.find (fun m => bool_decide (fst m = name)) (bpf_maps o).
Definition find_map_fd (o : Obj) (name : bytes) : option Z := option_map snd (find_map o name).
Definition find_prog_fd (o : Obj) (name : bytes) : option Z :=
  option_map snd (List.find (fun p => bool_decide (fst p = name)) (bpf_progs o)).

(** ** [linux::Inner] *)

Record Inner : Type := mkInner {
  in_object : Obj;
  in_peers_fd : Z;
  in_allocated_pairs : gmap sock (Z * Z) }.

Definition set_object (o : Obj) (i : Inner) : Inner :=
  mkInner o (in_peers_fd i) (in_allocated_pairs i).

(** [Inner::load]. *)
Definition inner_load (path : bytes) : result bytes Inner :=
  if negb (is_file path) then Err (B "BPF object not found: " ++ path)
  else
    let? opened := map_err (fun e => B "open_file: " ++ e) (bpf_open_file path) in
    let? object := map_err (fun e => B "load: " ++ e) (bpf_load opened) in
    let? peers_fd := ok_or (B "map 'peers' not found") (find_map_fd object peers_name) in
    let? prog_fd := ok_or (B "program 'relay' not found") (find_prog_fd object relay_name) in
    let? object := map_err (fun e => B "bpf_prog_attach failed: " ++ e)
                     (sys_bpf object BPF_PROG_ATTACH
                        (mkBpfProgAttachAttr (u32 peers_fd) (u32 prog_fd) BPF_SK_SKB_STREAM_VERDICT 0) 16) in
    Ok (mkInner object peers_fd ∅).

(** [Inner::insert_pair]. *)
Definition inner_insert_pair (t : trace) (accept_fd backend_fd : sock) (i : Inner) : bool * Inner :=
  match build_tuple_key t accept_fd with
  | None => (false, i)
  | Some self_key =>
      match build_tuple_key t backend_fd with
      | None => (false, i)
      | Some peer_key =>
          match find_map (in_object i) peers_name with
          | None => (false, i)
          | Some _ =>
              let self_key_bytes := le_bytes 8 self_key in
              let peer_key_bytes := le_bytes 8 peer_key in
              let backend_val := le_bytes 4 (u32 backend_fd) in
              let accept_val := le_bytes 4 (u32 accept_fd) in
              match bpf_map_update (in_object i) peers_name self_key_bytes backend_val with
              | None => (false, i)
              | Some o1 =>
                  match bpf_map_update o1 peers_name peer_key_bytes accept_val with
                  | None => (false, set_object (bpf_map_delete o1 peers_name self_key_bytes) i)
                  | Some o2 =>
                      (true, mkInner o2 (in_peers_fd i)
                               (<[accept_fd := (self_key, peer_key)]> (in_allocated_pairs i)))
                  end
              end
          end
      end
  end.

(** [Inner::remove_pair]. *)
Definition inner_remove_pair (accept_fd : sock) (i : Inner) : Inner :=
  match in_allocated_pairs i !! accept_fd with
  | None => i
  | Some (k0, k1) =>
      let i := mkInner (in_object i) (in_peers_fd i) (delete accept_fd (in_allocated_pairs i)) in
      match find_map (in_object i) peers_name with
      | None => i
      | Some _ =>
          set_object (bpf_map_delete (bpf_map_delete (in_object i) peers_name (le_bytes 8 k0))
                        peers_name (le_bytes 8 k1)) i
      end
  end.

(** [Drop for Inner]. *)
Definition inner_drop (i : Inner) : Inner :=
  fold_left (fun i fd => inner_remove_pair fd i)
    (map fst (map_to_list (in_allocated_pairs i))) i.

(** ** [Sockmap] *)

Record Sockmap : Type := mkSockmap {
  sm_bpf_object_path : bytes;
  sm_available : bool;
  sm_last_error : bytes;
  sm_inner : option Inner }.

Definition sockmap_new (bpf_object_path : bytes) : Sockmap :=
  mkSockmap bpf_object_path false [] None.

(** [Sockmap::load].  A loader that is replaced is dropped. *)
Definition sockmap_load (s : Sockmap) : bool * Sockmap :=
  match inner_load (sm_bpf_object_path s) with
  | Ok inner => (true, mkSockmap (sm_bpf_object_path s) true [] (Some inner))
  | Err e => (false, mkSockmap (sm_bpf_object_path s) false e (sm_inner s))
  end.

(** [Sockmap::insert_pair]. *)
Definition sockmap_insert_pair (t : trace) (accept_fd backend_fd : sock) (s : Sockmap)
  : bool * Sockmap :=
  if negb (sm_available s) then (false, s)
  else
    match sm_inner s with
    | Some inner =>
        let '(ok, inner') := inner_insert_pair t accept_fd backend_fd inner in
        (ok, mkSockmap (sm_bpf_object_path s) (sm_available s) (sm_last_error s) (Some inner'))
    | None => (false, s)
    end.

(** [Sockmap::remove_pair]. *)
Definition sockmap_remove_pair (accept_fd : sock) (s : Sockmap) : Sockmap :=
  match sm_inner s with
  | Some inner =>
      mkSockmap (sm_bpf_object_path s) (sm_available s) (sm_last_error s)
        (Some (inner_remove_pair accept_fd inner))
  | None => s
  end.

(** [Sockmap::close]. *)
Definition sockmap_close (s : Sockmap) : Sockmap :=
  mkSockmap (sm_bpf_object_path s) false (sm_last_error s) None.
End Sockmap.
Arguments Inner Obj : clear implicits.
Arguments Sockmap Obj : clear implicits.

(** ** The key *)

Lemma le_val_range s : 0 <= le_val s < 256 ^ Z.of_nat (List.length s).
Proof.
  induction s as [|c s IH]; cbn [le_val List.length]; [done|].
  rewrite Nat2Z.inj_succ, Z.pow_succ_r by lia. pose proof (code_range c). lia.
Qed.

Lemma le_bytes_length n z : List.length (le_bytes n z) = n.
Proof. revert z. induction n; intros z; cbn; [done|by f_equal]. Qed.

Lemma le_val_le_bytes n z : 0 <= z < 256 ^ Z.of_nat n -> le_val (le_bytes n z) = z.
Proof.
  revert z. induction n as [|n IH]; intros z Hz; cbn [le_bytes le_val].
  - cbn in Hz. lia.
  - rewrite Nat2Z.inj_succ, Z.pow_succ_r in Hz by lia.
    rewrite IH by (split; [apply Z.div_pos; lia|apply Z.div_lt_upper_bound; lia]).
    rewrite code_chr by (apply Z.mod_pos_bound; lia).
    pose proof (Z.div_mod z 256 ltac:(lia)). lia.
Qed.

Lemma le_bytes_inj n y z :
  0 <= y < 256 ^ Z.of_nat n -> 0 <= z < 256 ^ Z.of_nat n ->
  le_bytes n y = le_bytes n z -> y = z.
Proof. intros Hy Hz E. by rewrite <- (le_val_le_bytes n y), E, le_val_le_bytes. Qed.

Lemma le_val_inj s1 s2 :
  List.length s1 = List.length s2 -> le_val s1 = le_val s2 -> s1 = s2.
Proof.
  revert s2. induction s1 as [|c s1 IH]; intros [|d s2] Hl Hv; cbn in *; try done.
  pose proof (code_range c). pose proof (code_range d).
  assert (code c = code d) as ->%code_inj by lia. f_equal. apply IH; lia.
Qed.

(** Shifting left and filling the freed bits is arithmetic. *)
Lemma lor_shiftl_add x y n : 0 <= n -> 0 <= y < 2 ^ n -> Z.lor (Z.shiftl x n) y = x * 2 ^ n + y.
Proof.
  intros Hn Hy. rewrite <- Z.shiftl_mul_pow2 by done. rewrite <- Z.add_lor_land.
  replace (Z.land (Z.shiftl x n) y) with 0; [lia|].
  symmetry. apply Z.bits_inj'. intros m Hm. rewrite Z.land_spec, Z.bits_0.
  destruct (decide (m < n)).
  - by rewrite Z.shiftl_spec_low.
  - destruct (decide (y = 0)) as [->|]; [by rewrite Z.bits_0, andb_false_r|].
    rewrite (Z.bits_above_log2 y); [apply andb_false_r|lia|].
    apply Z.lt_le_trans with n; [apply Z.log2_lt_pow2; lia|lia].
Qed.

Lemma land_ones_small z n : 0 <= n -> 0 <= z < 2 ^ n -> Z.land z (Z.ones n) = z.
Proof. intros. rewrite Z.land_ones by done. by apply Z.mod_small. Qed.

(** The key in closed form. *)
Lemma pack_key lp rp ip :
  0 <= lp < 2 ^ 16 -> 0 <= rp < 2 ^ 16 -> 0 <= ip < 2 ^ 32 ->
  Z.lor (u64 (Z.shiftl (Z.lor (u64 (Z.shiftl (Z.land lp 0xffff) 16)) (Z.land rp 0xffff)) 32)) ip
  = lp * 2 ^ 48 + rp * 2 ^ 32 + ip.
Proof.
  intros Hl Hr Hi. change 0xffff with (Z.ones 16). rewrite !land_ones_small by lia.
  unfold u64. rewrite (Z.mod_small (Z.shiftl lp 16)) by (rewrite Z.shiftl_mul_pow2; lia).
  rewrite lor_shiftl_add by lia.
  rewrite Z.mod_small by (rewrite Z.shiftl_mul_pow2; lia).
  rewrite lor_shiftl_add by lia. lia.
Qed.

Lemma tuple_key_value lp p0 p1 a b c d :
  0 <= lp < 2 ^ 16 ->
  tuple_key lp (p0, p1) (a, b, c, d)
  = lp * 2 ^ 48 + le_val [p0; p1] * 2 ^ 32 + le_val [a; b; c; d].
Proof.
  intros Hl. unfold tuple_key. apply pack_key; [done|..].
  - apply (le_val_range [p0; p1]).
  - apply (le_val_range [a; b; c; d]).
Qed.

Lemma tuple_key_range lp p ip : 0 <= lp < 2 ^ 16 -> 0 <= tuple_key lp p ip < 2 ^ 64.
Proof.
  intros Hl. destruct p as [p0 p1], ip as [[[a b] c] d]. rewrite tuple_key_value by done.
  pose proof (le_val_range [p0; p1]). pose proof (le_val_range [a; b; c; d]). cbn in *. lia.
Qed.

(** User space and the kernel program compute the same key: for every
    connection, [tuple_key] of the raw socket-address bytes is what [tuple_key]
    of [relay.bpf.c] computes from the fields the kernel shows for that
    connection, so a relayed segment always finds the entry of its socket. *)
Theorem tuple_key_matches_bpf lp p ip :
  0 <= lp < 2 ^ 16 -> bpf_tuple_key (skb_of lp p ip) = tuple_key lp p ip.
Proof.
  intros Hl. destruct p as [p0 p1], ip as [[[a b] c] d].
  rewrite tuple_key_value by done. unfold bpf_tuple_key, skb_of. cbn [skb_local_port skb_remote_port skb_remote_ip4].
  pose proof (le_val_range [p0; p1]) as Hp. pose proof (le_val_range [a; b; c; d]).
  cbn [List.length] in *. unfold u32.
  rewrite (Z.mod_small (Z.shiftl _ 16)) by (rewrite Z.shiftl_mul_pow2; lia).
  rewrite Z.shiftr_shiftl_l by lia. rewrite Z.shiftl_0_r. by apply pack_key.
Qed.

(** Distinct IPv4 connections never share a key, and every key fits 64
    bits: local port, remote port bytes and remote address bytes can be read
    back from it. *)
Theorem tuple_key_injective lp1 p1 ip1 lp2 p2 ip2 :
  0 <= lp1 < 2 ^ 16 -> 0 <= lp2 < 2 ^ 16 ->
  le_bytes 8 (tuple_key lp1 p1 ip1) = le_bytes 8 (tuple_key lp2 p2 ip2) ->
  lp1 = lp2 /\ p1 = p2 /\ ip1 = ip2.
Proof.
  intros H1 H2 E. apply le_bytes_inj in E; [|by apply tuple_key_range..].
  destruct p1 as [a0 a1], ip1 as [[[a b] c] d], p2 as [b0 b1], ip2 as [[[a' b'] c'] d'].
  rewrite !tuple_key_value in E by done.
  pose proof (le_val_range [a0; a1]). pose proof (le_val_range [a; b; c; d]).
  pose proof (le_val_range [b0; b1]). pose proof (le_val_range [a'; b'; c'; d']).
  cbn [List.length] in *.
  assert (lp1 = lp2 /\ le_val [a0; a1] = le_val [b0; b1]
          /\ le_val [a; b; c; d] = le_val [a'; b'; c'; d']) as (-> & Ep & Ei) by lia.
  apply le_val_inj in Ep; [|done]. apply le_val_inj in Ei; [|done]. by simplify_eq.
Qed.

(** A [sockaddr_in6], all 28 bytes; [getpeername_inet] asks for 16. *)
Definition sockaddr_in6 (family : ascii * ascii) (port : ascii * ascii)
    (flowinfo : ascii * ascii * ascii * ascii) (addr : Ipv6Addr) : bytes :=
  let '(f0, f1) := family in
  let '(p0, p1) := port in
  let '(a, b, c, d) := flowinfo in
  [f0; f1; p0; p1; a; b; c; d] ++ concat (map (fun g => [fst g; snd g]) (groups addr)) ++ replicate 4 "000"%char.

(** The key of an IPv6 connection ignores the remote address: the address
    family is not checked and bytes 4 to 7 of a [sockaddr_in6] are the flow
    label, so two IPv6 peers that use the same ports get the same key. *)
Theorem ipv6_peers_share_key `{Env} t fd1 fd2 local fam port flow addr1 addr2 :
  env_getsockname t fd1 = Some local -> env_getsockname t fd2 = Some local ->
  env_getpeername t fd1 = Some (sockaddr_in6 fam port flow addr1) ->
  env_getpeername t fd2 = Some (sockaddr_in6 fam port flow addr2) ->
  build_tuple_key t fd1 = build_tuple_key t fd2.
Proof.
  intros Hl1 Hl2 Hp1 Hp2. unfold build_tuple_key, getsockname_inet, getpeername_inet. rewrite Hl1, Hl2, Hp1, Hp2.
  by destruct fam, port, flow as [[[] ]].
Qed.

(** ** The pair table *)
Section Pairs.
Context `{Env} `{FileSystem} `{BpfLibLaws U Obj}.
Implicit Types (i : Inner Obj) (t : trace).

(** What the kernel finds under a key. *)
Definition peer_of i (key : Z) : option bytes :=
  bpf_map_lookup (in_object i) peers_name (le_bytes 8 key).

(** Every entry of the kernel map belongs to an allocated pair. *)
Definition tracked i : Prop :=
  forall k v, bpf_map_lookup (in_object i) peers_name k = Some v ->
  exists fd k0 k1, in_allocated_pairs i !! fd = Some (k0, k1)
                   /\ (k = le_bytes 8 k0 \/ k = le_bytes 8 k1).

Definition pairs_inv i : Prop :=
  is_Some (find_map (in_object i) peers_name) /\ tracked i.

Lemma inner_load_inv path i : inner_load path = Ok i -> pairs_inv i.
Proof.
  unfold inner_load. destruct (is_file path); [|done]. cbn.
  destruct (bpf_open_file path) as [u|]; [|done]. cbn.
  destruct (bpf_load u) as [o|] eqn:El; [|done]. cbn.
  unfold find_map_fd. destruct (find_map o peers_name) eqn:Em; [|done]. cbn.
  destruct (find_prog_fd o relay_name); [|done]. cbn.
  destruct (sys_bpf o _ _ _) as [o'|] eqn:Ea; [|done]. cbn. intros [= <-].
  split; cbn.
  - unfold find_map. rewrite (bpf_attach_maps _ _ _ _ _ Ea). fold (find_map o peers_name). rewrite Em. eauto.
  - intros k v. cbn. rewrite (bpf_attach_lookup _ _ _ _ _ _ _ Ea).
    by rewrite (bpf_load_empty _ _ _ _ El).
Qed.

(** The branches of [insert_pair]. *)
Lemma inner_insert_pair_cases t a b i :
  (exists i', inner_insert_pair t a b i = (false, i')
     /\ in_allocated_pairs i' = in_allocated_pairs i
     /\ find_map (in_object i') peers_name = find_map (in_object i) peers_name
     /\ forall k v, bpf_map_lookup (in_object i') peers_name k = Some v ->
                    bpf_map_lookup (in_object i) peers_name k = Some v)
  \/ (exists i' self_key peer_key, inner_insert_pair t a b i = (true, i')
     /\ build_tuple_key t a = Some self_key /\ build_tuple_key t b = Some peer_key
     /\ in_allocated_pairs i' = <[a := (self_key, peer_key)]> (in_allocated_pairs i)
     /\ find_map (in_object i') peers_name = find_map (in_object i) peers_name
     /\ forall k, bpf_map_lookup (in_object i') peers_name k =
          if decide (le_bytes 8 peer_key = k) then Some (le_bytes 4 (u32 a))
          else if decide (le_bytes 8 self_key = k) then Some (le_bytes 4 (u32 b))
          else bpf_map_lookup (in_object i) peers_name k).
Proof.
  unfold inner_insert_pair.
  destruct (build_tuple_key t a) as [self|]; [|left; by eexists].
  destruct (build_tuple_key t b) as [peer|]; [|left; by eexists].
  destruct (find_map (in_object i) peers_name) eqn:Em; [|left; by eexists].
  destruct (bpf_map_update (in_object i) peers_name _ _) as [o1|] eqn:E1; [|left; by eexists].
  destruct (bpf_map_update o1 peers_name _ _) as [o2|] eqn:E2.
  - right. eexists _, self, peer. split; [done|]. cbn.
    do 3 (split; [done|]). split.
    + unfold find_map. by rewrite (bpf_update_maps _ _ _ _ _ E2), (bpf_update_maps _ _ _ _ _ E1).
    + intros k. rewrite (bpf_lookup_update _ _ _ _ _ k E2).
      by rewrite (bpf_lookup_update _ _ _ _ _ k E1).
  - left. eexists. split; [done|]. cbn. split; [done|]. split.
    + unfold find_map. by rewrite bpf_delete_maps, (bpf_update_maps _ _ _ _ _ E1).
    + intros k v. rewrite bpf_lookup_delete. case_decide as Hk; [done|].
      rewrite (bpf_lookup_update _ _ _ _ _ k E1). by rewrite decide_False.
Qed.

Lemma inner_insert_pair_inv t a b i :
  in_allocated_pairs i !! a = None -> pairs_inv i -> pairs_inv (inner_insert_pair t a b i).2.
Proof.
  intros Hfresh [Hfd Htr].
  destruct (inner_insert_pair_cases t a b i)
    as [(i' & -> & Ha & Hfd' & Hl)|(i' & s & p & -> & _ & _ & Ha & Hfd' & Hl)]; cbn.
  - split; [by rewrite Hfd'|]. intros k v Hk%Hl. rewrite Ha. by eapply Htr.
  - split; [by rewrite Hfd'|]. intros k v. rewrite Hl, Ha.
    case_decide; [intros _; exists a, s, p; rewrite lookup_insert_eq; auto|].
    case_decide; [intros _; exists a, s, p; rewrite lookup_insert_eq; auto|].
    intros (fd & k0 & k1 & Hp & Hk)%Htr. exists fd, k0, k1. split; [|done].
    rewrite lookup_insert_ne; [done|]. congruence.
Qed.

(** What [remove_pair] does to the map and to the table. *)
Lemma inner_remove_pair_lookup a i k0 k1 k :
  is_Some (find_map (in_object i) peers_name) -> in_allocated_pairs i !! a = Some (k0, k1) ->
  bpf_map_lookup (in_object (inner_remove_pair a i)) peers_name k =
    if decide (k = le_bytes 8 k0 \/ k = le_bytes 8 k1) then None
    else bpf_map_lookup (in_object i) peers_name k.
Proof.
  intros [f Hf] Ha. unfold inner_remove_pair. rewrite Ha. cbn. rewrite Hf. cbn.
  rewrite !bpf_lookup_delete. repeat case_decide; naive_solver.
Qed.

Lemma inner_remove_pair_table a i :
  in_allocated_pairs (inner_remove_pair a i) = delete a (in_allocated_pairs i).
Proof.
  unfold inner_remove_pair. destruct (in_allocated_pairs i !! a) as [[k0 k1]|] eqn:E.
  - cbn. by destruct (find_map _ _).
  - by rewrite delete_id.
Qed.

Lemma inner_remove_pair_inv a i : pairs_inv i -> pairs_inv (inner_remove_pair a i).
Proof.
  intros [Hfd Htr]. destruct (in_allocated_pairs i !! a) as [[k0 k1]|] eqn:E.
  - split.
    + unfold inner_remove_pair. rewrite E. cbn. destruct Hfd as [f Hf]. rewrite Hf. cbn.
      unfold find_map in *. rewrite !bpf_delete_maps. eauto.
    + intros k v. rewrite (inner_remove_pair_lookup _ _ _ _ _ Hfd E).
      case_decide as Hk; [done|]. intros (fd & j0 & j1 & Hp & Hj)%Htr.
      exists fd, j0, j1. split; [|done]. rewrite inner_remove_pair_table.
      rewrite lookup_delete_ne; [done|]. intros ->. naive_solver.
  - unfold inner_remove_pair. by rewrite E.
Qed.

(** Dropping removes the pairs one by one until none is left. *)
Lemma inner_remove_pairs_inv fds i :
  pairs_inv i ->
  let i' := fold_left (fun i fd => inner_remove_pair fd i) fds i in
  pairs_inv i' /\ forall fd, in_allocated_pairs i' !! fd
                    = if decide (fd ∈ fds) then None else in_allocated_pairs i !! fd.
Proof.
  revert i. induction fds as [|x fds IH]; intros i Hi; cbn.
  - split; [done|]. intros fd. by rewrite decide_False by set_solver.
  - destruct (IH _ (inner_remove_pair_inv x i Hi)) as [Hi' Hl]. split; [done|]. intros fd.
    rewrite Hl, inner_remove_pair_table.
    destruct (decide (fd = x)) as [->|Hne].
    + rewrite lookup_delete_eq, (decide_True (P := x ∈ x :: fds)) by set_solver. by case_decide.
    + rewrite lookup_delete_ne by done. repeat case_decide; set_solver.
Qed.

Lemma inner_drop_empty i k :
  pairs_inv i -> bpf_map_lookup (in_object (inner_drop i)) peers_name k = None.
Proof.
  intros Hi. destruct (inner_remove_pairs_inv (map fst (map_to_list (in_allocated_pairs i))) i Hi)
    as [[_ Htr] Hl].
  fold (inner_drop i) in *. destruct (bpf_map_lookup _ _ k) as [v|] eqn:E; [|done].
  destruct (Htr _ _ E) as (fd & k0 & k1 & Hp & _).
  rewrite Hl in Hp. case_decide as Hin; [done|]. destruct Hin.
  apply list_elem_of_fmap. exists (fd, (k0, k1)). split; [done|].
  by apply elem_of_map_to_list.
Qed.

(** Histories of the table: pairs are inserted for client descriptors that have
    none, and removed. *)
Inductive pairs_step : Inner Obj -> Inner Obj -> Prop :=
| step_insert t a b i :
    in_allocated_pairs i !! a = None -> pairs_step i (inner_insert_pair t a b i).2
| step_remove a i : pairs_step i (inner_remove_pair a i).

Lemma pairs_inv_reachable i i' : pairs_inv i -> rtc pairs_step i i' -> pairs_inv i'.
Proof.
  intros Hi Hr. induction Hr as [|x y z Hxy _ IH]; [done|]. apply IH.
  destruct Hxy; [by apply inner_insert_pair_inv|by apply inner_remove_pair_inv].
Qed.
End Pairs.

Section Properties.
Context `{Env} `{FileSystem} `{BpfLibLaws U Obj}.
Implicit Types (i : Inner Obj) (t : trace).

(** C32: the relay table never leaks: from a freshly loaded object, however
    pairs are inserted (for descriptors without one) and removed, and whichever
    map updates the kernel refuses, every key the kernel knows belongs to a
    pair in the table; so dropping the loader leaves no key behind. *)
Theorem sockmap_never_leaks path i0 i k v :
  inner_load path = Ok i0 -> rtc pairs_step i0 i ->
  bpf_map_lookup (in_object i) peers_name k = Some v ->
  (exists fd k0 k1, in_allocated_pairs i !! fd = Some (k0, k1)
                    /\ (k = le_bytes 8 k0 \/ k = le_bytes 8 k1))
  /\ bpf_map_lookup (in_object (inner_drop i)) peers_name k = None.
Proof.
  intros Hl%inner_load_inv Hr Hk.
  pose proof (pairs_inv_reachable _ _ Hl Hr) as Hi.
  split; [by eapply Hi|by apply inner_drop_empty].
Qed.

(** [insert_pair] then [remove_pair]: on success the kernel relays the
    client's segments to the backend and the backend's to the client (their own
    keys map to each other's descriptors), no other key changes, and
    [remove_pair] takes exactly these two keys out again; on failure the table
    is unchanged and the kernel map gained nothing. *)
Theorem insert_pair_links t a b i :
  is_Some (find_map (in_object i) peers_name) ->
  let '(ok, i') := inner_insert_pair t a b i in
  if ok then
    exists self_key peer_key,
      build_tuple_key t a = Some self_key /\ build_tuple_key t b = Some peer_key
      /\ peer_of i' peer_key = Some (le_bytes 4 (u32 a))
      /\ (le_bytes 8 self_key <> le_bytes 8 peer_key ->
          peer_of i' self_key = Some (le_bytes 4 (u32 b)))
      /\ forall k,
          bpf_map_lookup (in_object (inner_remove_pair a i')) peers_name k =
            if decide (k = le_bytes 8 self_key \/ k = le_bytes 8 peer_key) then None
            else bpf_map_lookup (in_object i) peers_name k
  else
    in_allocated_pairs i' = in_allocated_pairs i
    /\ forall k v, bpf_map_lookup (in_object i') peers_name k = Some v ->
                   bpf_map_lookup (in_object i) peers_name k = Some v.
Proof.
  intros Hfd. destruct (inner_insert_pair_cases t a b i)
    as [(i' & -> & Ha & _ & Hl)|(i' & s & p & -> & Hs & Hp & Ha & Hfd' & Hl)]; [by split|].
  exists s, p. unfold peer_of. rewrite !Hl. split; [done|]. split; [done|].
  split; [by rewrite decide_True|]. split.
  { intros Hne. by rewrite decide_False, decide_True. }
  intros k. rewrite (inner_remove_pair_lookup a i' s p).
  - rewrite Hl. repeat case_decide; naive_solver.
  - by rewrite Hfd'.
  - by rewrite Ha, lookup_insert_eq.
Qed.

(** Inserting a pair for a client descriptor that still has one loses the
    old pair: its key stays in the kernel map, out of reach of every later
    [remove_pair] of that descriptor. *)
Theorem insert_pair_again_leaks t a b i i' k0 k1 s p v :
  in_allocated_pairs i !! a = Some (k0, k1) -> peer_of i k0 = Some v ->
  is_Some (find_map (in_object i) peers_name) ->
  build_tuple_key t a = Some s -> build_tuple_key t b = Some p ->
  le_bytes 8 k0 <> le_bytes 8 s -> le_bytes 8 k0 <> le_bytes 8 p ->
  inner_insert_pair t a b i = (true, i') ->
  peer_of (inner_remove_pair a i') k0 = Some v
  /\ in_allocated_pairs (inner_remove_pair a i') !! a = None.
Proof.
  intros Ha Hv Hfd Hs Hp Hns Hnp Hins.
  destruct (inner_insert_pair_cases t a b i)
    as [(i2 & E & _)|(i2 & s2 & p2 & E & Es & Ep & Ha2 & Hfd2 & Hl)];
    rewrite Hins in E; simplify_eq.
  split; [|by rewrite inner_remove_pair_table, lookup_delete_eq].
  unfold peer_of in *. rewrite (inner_remove_pair_lookup a _ s p).
  - rewrite decide_False by naive_solver. rewrite Hl. by rewrite !decide_False.
  - by rewrite Hfd2.
  - by rewrite Ha2, lookup_insert_eq.
Qed.
End Properties.

(** ** Witnesses *)

(** A libbpf that keeps every map in memory and always succeeds. *)
Definition memory_maps : Type := bytes -> bytes -> option bytes.

#[export] Instance memory_bpf : BpfLib unit memory_maps := {
  bpf_open_file _ := Ok tt;
  bpf_load _ := Ok (fun _ _ => None);
  bpf_maps _ := [(peers_name, 10)];
  bpf_progs _ := [(relay_name, 11)];
  sys_bpf o _ _ _ := Ok o;
  bpf_map_update o m k v :=
    Some (fun m' k' => if decide (m = m' /\ k = k') then Some v else o m' k');
  bpf_map_delete o m k := fun m' k' => if decide (m = m' /\ k = k') then None else o m' k';
  bpf_map_lookup o m k := o m k }.

#[export] Instance memory_bpf_laws : BpfLibLaws unit memory_maps.
Proof.
  split; cbn; try naive_solver.
  - intros o m k v o' k' [= <-]. repeat case_decide; naive_solver.
  - intros o m k k'. repeat case_decide; naive_solver.
Qed.

#[local] Instance every_file : FileSystem := {
  is_file path := bool_decide (path <> []);
  read_file path := Ok path }.

Definition sockmap_example_env : Env := one_host_env (B "example.com") [].

Definition sockmap_example : Inner memory_maps := mkInner (fun _ _ => None) 10 ∅.

(** Client 7 is paired with backend 8. *)
Definition sockmap_example_paired : Inner memory_maps :=
  (@inner_insert_pair sockmap_example_env _ _ _ [] 7 8 sockmap_example).2.

Definition port_of_client : Z := 40007.
Definition key_of_client : Z := tuple_key port_of_client (chr 195, chr 87) (chr 127, chr 0, chr 0, chr 1).

Lemma tuple_key_matches_bpf_witness :
  bpf_tuple_key (skb_of 50000 (chr 0x1f, chr 0x90) (chr 0x7f, chr 0, chr 0, chr 1))
  = 0xC350901F0100007F.
Proof.
  rewrite (tuple_key_matches_bpf 50000 (chr 0x1f, chr 0x90) (chr 0x7f, chr 0, chr 0, chr 1))
    by (split; [discriminate|reflexivity]).
  vm_compute. reflexivity.
Defined.

Lemma tuple_key_injective_witness :
  5432 = 5432 /\ (chr 1, chr 2) = (chr 1, chr 2) /\ (chr 8, chr 8, chr 8, chr 8) = (chr 8, chr 8, chr 8, chr 8).
Proof.
  apply tuple_key_injective; [split; [discriminate|reflexivity]..|reflexivity].
Defined.

(** Sockets 0 and 1 of a host connected to two IPv6 peers. *)
Definition ipv6_pair_env : Env :=
  let base := sockmap_example_env in
  let local := sockaddr_in6 (chr 10, chr 0) (chr 21, chr 56) (chr 0, chr 0, chr 0, chr 0)
                 (mkIpv6 (group_of 1) (group_of 0) (group_of 0) (group_of 0) (group_of 0)
                    (group_of 0) (group_of 0) (group_of 1)) in
  let peer n := sockaddr_in6 (chr 10, chr 0) (chr 195, chr 80) (chr 0, chr 0, chr 0, chr 0)
                  (mkIpv6 (group_of 2) (group_of 0) (group_of 0) (group_of 0) (group_of 0)
                     (group_of 0) (group_of 0) (group_of n)) in
  {| env_now := @env_now base; env_dns_init := @env_dns_init base;
     env_lookup := @env_lookup base; env_connect := @env_connect base;
     env_call := @env_call base; env_nodelay := @env_nodelay base; env_write := @env_write base;
     env_flush := @env_flush base; env_readable := @env_readable base;
     env_read := @env_read base;
     env_read_line := @env_read_line base; env_tls_accept := @env_tls_accept base;
     env_select := @env_select base;
     env_http_handshake := @env_http_handshake base; env_http_ready := @env_http_ready base;
     env_http_send := @env_http_send base; env_http_request_body := @env_http_request_body base;
     env_http_response_body := @env_http_response_body base;
     env_getsockname _ _ := Some local; env_getpeername _ s := Some (peer s) |}.

Lemma ipv6_peers_share_key_witness :
  @env_getpeername ipv6_pair_env [] 0 = @env_getpeername ipv6_pair_env [] 0
  /\ is_Some (@build_tuple_key ipv6_pair_env [] 0)
  /\ @build_tuple_key ipv6_pair_env [] 0 = @build_tuple_key ipv6_pair_env [] 1.
Proof.
  split; [reflexivity|]. split; [vm_compute; eexists; reflexivity|].
  exact (@ipv6_peers_share_key ipv6_pair_env [] 0 1 _ _ _ _ _ _ eq_refl eq_refl eq_refl eq_refl).
Defined.

Lemma sockmap_never_leaks_witness :
  bpf_map_lookup (in_object sockmap_example_paired) peers_name (le_bytes 8 key_of_client)
    = Some (le_bytes 4 8)
  /\ bpf_map_lookup (in_object (inner_drop sockmap_example_paired)) peers_name
       (le_bytes 8 key_of_client) = None.
Proof.
  assert (Hk : bpf_map_lookup (in_object sockmap_example_paired) peers_name (le_bytes 8 key_of_client)
               = Some (le_bytes 4 8)) by (vm_compute; reflexivity).
  split; [exact Hk|].
  refine (proj2 (@sockmap_never_leaks sockmap_example_env _ _ _ _ _ (B "relay.o") sockmap_example
                   sockmap_example_paired _ _ eq_refl _ Hk)).
  apply rtc_once. exact (@step_insert sockmap_example_env _ _ _ [] 7 8 sockmap_example eq_refl).
Defined.

Lemma insert_pair_links_witness :
  let i' := @inner_remove_pair _ _ _ 7 sockmap_example_paired in
  exists self_key peer_key, forall k,
    bpf_map_lookup (in_object i') peers_name k
    = if decide (k = le_bytes 8 self_key \/ k = le_bytes 8 peer_key) then None
      else bpf_map_lookup (in_object sockmap_example) peers_name k.
Proof.
  pose proof (@insert_pair_links sockmap_example_env _ _ _ _ [] 7 8 sockmap_example
                (mk_is_Some _ _ eq_refl)) as W.
  rewrite (surjective_pairing (inner_insert_pair _ _ _ _)) in W.
  replace (inner_insert_pair _ _ _ _).1 with true in W by (vm_compute; reflexivity). destruct W as (self_key & peer_key & _ & _ & _ & _ & W).
  exists self_key, peer_key. exact W.
Defined.

(** Client descriptor 7 is reused, with another port, while its pair remains. *)
Definition sockmap_example_reused : Inner memory_maps :=
  (@inner_insert_pair sockmap_example_env _ _ _ [EvSelect true] 7 9 sockmap_example_paired).2.

Lemma insert_pair_again_leaks_witness :
  peer_of (inner_remove_pair 7 sockmap_example_reused) key_of_client = Some (le_bytes 4 8)
  /\ in_allocated_pairs (inner_remove_pair 7 sockmap_example_reused) !! 7 = None.
Proof.
  apply (@insert_pair_again_leaks sockmap_example_env _ _ _ _ [EvSelect true] 7 9
           sockmap_example_paired sockmap_example_reused key_of_client
           (tuple_key 40008 (chr 195, chr 88) (chr 127, chr 0, chr 0, chr 1))
           (tuple_key 40008 (chr 195, chr 87) (chr 127, chr 0, chr 0, chr 1))
           (tuple_key 40010 (chr 195, chr 89) (chr 127, chr 0, chr 0, chr 1)) (le_bytes 4 8)).
  - vm_compute. reflexivity.
  - vm_compute. reflexivity.
  - vm_compute. eexists. reflexivity.
  - vm_compute. reflexivity.
  - vm_compute. reflexivity.
  - vm_compute. discriminate.
  - vm_compute. discriminate.
  - by rewrite (surjective_pairing (inner_insert_pair _ _ _ _)).
Defined.
