(* ===== verification/SockmapRelay.v ===== *)
(** * SockmapRelay: the kernel program ([src/src/Sockmap/relay.bpf.c]), and
    what it does together with its user-space half.

    The kernel runs [relay] on every segment that arrives on a socket of the
    sock hash.  The helper [bpf_sk_redirect_hash] is the interface [BpfHelpers];
    the map is the one libbpf's interface in Sockmap keeps. *)

From Stdlib Require Import Ascii.
From S2P Require Import Prelude Text Net World Sockmap.
Open Scope Z_scope.

(** ** The program *)

Definition SK_DROP : Z := 0.
Definition SK_PASS : Z := 1.

(** What the program tells the kernel: the verdict, and the socket the segment
    is redirected to, on its egress path or its ingress path. *)
Record redirect : Type := mkRedirect {
  rd_verdict : Z;
  rd_target : option Z;
  rd_ingress : bool }.

Class BpfHelpers (Obj : Type) : Type := {
  (** context, map, key, flags *)
  bpf_sk_redirect_hash : Obj -> sk_buff -> bytes -> bytes -> Z -> redirect }.

(** bpf-helpers(7): the segment is redirected to the socket the map holds at the
    key, to its ingress path if flag 1 is set; an error is a drop. *)
Class BpfHelpersLaws (U Obj : Type) `{BpfLib U Obj} `{BpfHelpers Obj} : Prop := {
  redirect_found o skb m k flags v :
    bpf_map_lookup o m k = Some v ->
    bpf_sk_redirect_hash o skb m k flags = mkRedirect SK_PASS (Some (le_val v)) (Z.odd flags);
  redirect_missing o skb m k flags :
    bpf_map_lookup o m k = None ->
    bpf_sk_redirect_hash o skb m k flags = mkRedirect SK_DROP None false }.

(** [relay]; the key lies in memory in the kernel's byte order, little-endian. *)
Definition relay `{BpfHelpers Obj} (o : Obj) (skb : sk_buff) : redirect :=
  let key := bpf_tuple_key skb in
  bpf_sk_redirect_hash o skb peers_name (le_bytes 8 key) 0.

(** Segments of the socket [fd], as the kernel shows them to the program. *)
Definition segment_on `{Env} (t : trace) (fd : sock) : option sk_buff :=
  local ← env_getsockname t fd;
  peer ← env_getpeername t fd;
  Some (skb_of (be_val [addr_byte local 2; addr_byte local 3]) (addr_byte peer 2, addr_byte peer 3)
          (addr_byte peer 4, addr_byte peer 5, addr_byte peer 6, addr_byte peer 7)).

(** ** Both halves *)

(** A client socket is paired with a backend socket: the segments that arrive
    on either. *)
Record pairing : Type := mkPairing {
  pr_backend : sock;
  pr_from_client : sk_buff;
  pr_from_backend : sk_buff }.

Section Relay.
Context `{Env} `{FileSystem} `{BpfLibLaws U Obj} `{BpfHelpers Obj, !BpfHelpersLaws U Obj}.
Implicit Types (i : Inner Obj) (m : gmap sock pairing).

(** The keys of a pair, and keys of none. *)
Definition key_in (pr : pairing) (k : Z) : Prop :=
  k = bpf_tuple_key (pr_from_client pr) \/ k = bpf_tuple_key (pr_from_backend pr).
Definition unused m (k : Z) : Prop := forall a pr, m !! a = Some pr -> ~ key_in pr k.

(** The user-space half, from loading on, and the pairs it was asked for; the
    live connections have keys of their own. *)
Inductive linked : Inner Obj -> gmap sock pairing -> Prop :=
| linked_loaded path i : inner_load path = Ok i -> linked i ∅
| linked_insert t a b i m i' sa sb :
    linked i m -> m !! a = None -> segment_on t a = Some sa -> segment_on t b = Some sb ->
    unused m (bpf_tuple_key sa) -> unused m (bpf_tuple_key sb) -> bpf_tuple_key sa <> bpf_tuple_key sb ->
    inner_insert_pair t a b i = (true, i') -> linked i' (<[a := mkPairing b sa sb]> m)
| linked_refused t a b i m i' :
    linked i m -> (forall sa, segment_on t a = Some sa -> unused m (bpf_tuple_key sa)) ->
    inner_insert_pair t a b i = (false, i') -> linked i' m
| linked_remove a i m : linked i m -> linked (inner_remove_pair a i) (delete a m).

(** The bytes of the key are in the buffer. *)
Lemma addr_byte_buffer addr n : (n < 16)%nat -> addr_byte (in_buffer_16 addr) n = addr_byte addr n.
Proof.
  intros Hn. unfold addr_byte, in_buffer_16. rewrite !nth_lookup, lookup_take_lt by done.
  destruct (decide (n < length addr)%nat) as [Hl|Hl]; [by rewrite lookup_app_l|].
  rewrite lookup_app_r, (lookup_ge_None_2 addr) by lia.
  by rewrite lookup_replicate_2 by lia.
Qed.

Lemma be_val_port c d : 0 <= be_val [c; d] < 2 ^ 16.
Proof. unfold be_val. cbn [fold_left]. pose proof (code_range c). pose proof (code_range d). lia. Qed.

(** What user space inserts is what the kernel program looks up. *)
Lemma segment_key t fd k :
  build_tuple_key t fd = Some k -> exists skb, segment_on t fd = Some skb /\ bpf_tuple_key skb = k
                                               /\ 0 <= k < 2 ^ 64.
Proof.
  unfold build_tuple_key, segment_on, getsockname_inet, getpeername_inet.
  destruct (env_getsockname t fd) as [local|]; [|done].
  destruct (env_getpeername t fd) as [peer|]; [|done]. cbn [mbind option_bind fmap option_fmap option_map].
  rewrite !addr_byte_buffer by lia.
  pose proof (be_val_port (addr_byte local 2) (addr_byte local 3)) as Hp.
  destruct (_ =? 0); [done|]. intros Hk%(inj Some). rewrite <- Hk. eexists. split; [reflexivity|].
  split; [by apply tuple_key_matches_bpf|by apply tuple_key_range].
Qed.

(** An insertion that is refused leaves the map as it was, if the key was free. *)
Lemma inner_insert_refused t a b i i' :
  (forall k, build_tuple_key t a = Some k -> peer_of i k = None) ->
  inner_insert_pair t a b i = (false, i') ->
  in_allocated_pairs i' = in_allocated_pairs i
  /\ find_map (in_object i') peers_name = find_map (in_object i) peers_name
  /\ forall k, bpf_map_lookup (in_object i') peers_name k = bpf_map_lookup (in_object i) peers_name k.
Proof.
  unfold inner_insert_pair, peer_of. intros Hfree.
  destruct (build_tuple_key t a) as [self|]; [|by intros [= <-]].
  destruct (build_tuple_key t b) as [peer|]; [|by intros [= <-]].
  destruct (find_map (in_object i) peers_name) eqn:Em; [|by intros [= <-]].
  destruct (bpf_map_update (in_object i) peers_name _ _) as [o1|] eqn:E1; [|by intros [= <-]].
  destruct (bpf_map_update o1 peers_name _ _) as [o2|] eqn:E2; [done|]. intros [= <-]. cbn.
  split; [done|]. split; [unfold find_map; by rewrite bpf_delete_maps, (bpf_update_maps _ _ _ _ _ E1)|].
  intros k. rewrite bpf_lookup_delete, (bpf_lookup_update _ _ _ _ _ k E1).
  case_decide as Hk; [subst; symmetry; by apply Hfree|]. by rewrite decide_False.
Qed.

(** The map holds exactly the pairs. *)
Record mirrors i m : Prop := mkMirrors {
  mi_fd : is_Some (find_map (in_object i) peers_name);
  mi_table : in_allocated_pairs i
    = (fun pr => (bpf_tuple_key (pr_from_client pr), bpf_tuple_key (pr_from_backend pr))) <$> m;
  mi_client a pr : m !! a = Some pr ->
    peer_of i (bpf_tuple_key (pr_from_client pr)) = Some (le_bytes 4 (u32 (pr_backend pr)));
  mi_backend a pr : m !! a = Some pr ->
    peer_of i (bpf_tuple_key (pr_from_backend pr)) = Some (le_bytes 4 (u32 a));
  mi_only k v : bpf_map_lookup (in_object i) peers_name k = Some v ->
    exists a pr z, m !! a = Some pr /\ key_in pr z /\ k = le_bytes 8 z;
  mi_range a pr z : m !! a = Some pr -> key_in pr z -> 0 <= z < 2 ^ 64;
  mi_apart a pr a' pr' z : m !! a = Some pr -> m !! a' = Some pr' -> key_in pr z -> key_in pr' z -> a = a' }.

Lemma key_bytes_inj y z : 0 <= y < 2 ^ 64 -> 0 <= z < 2 ^ 64 -> le_bytes 8 y = le_bytes 8 z -> y = z.
Proof. intros Hy Hz. by apply le_bytes_inj. Qed.

Lemma mirrors_unused i m k : mirrors i m -> 0 <= k < 2 ^ 64 -> unused m k -> peer_of i k = None.
Proof.
  intros Hm Hk Hu. unfold peer_of. destruct (bpf_map_lookup _ _ _) as [v|] eqn:E; [|done].
  apply (mi_only _ _ Hm) in E as (a & pr & z & Ha & Hz & Hkz).
  destruct (Hu _ _ Ha). by rewrite (key_bytes_inj k z) by (done || by eapply mi_range).
Qed.

Lemma mirrors_loaded path i : inner_load path = Ok i -> mirrors i ∅.
Proof.
  intros Hl. assert (Ht : in_allocated_pairs i = ∅).
  { revert Hl. unfold inner_load. destruct (is_file path); [|done]. cbn.
    destruct (bpf_open_file path) as [u|]; [|done]. cbn. destruct (bpf_load u) as [o|]; [|done]. cbn.
    destruct (find_map_fd o peers_name); [|done]. cbn. destruct (find_prog_fd o relay_name); [|done]. cbn.
    destruct (sys_bpf o _ _ _); [|done]. cbn. by intros [= <-]. }
  destruct (inner_load_inv _ _ Hl) as [Hfd Htr].
  split; [done|by rewrite Ht, fmap_empty|by intros a pr; rewrite lookup_empty..| | |].
  - intros k v (fd & k0 & k1 & Hp & _)%Htr. by rewrite Ht in Hp.
  - intros a pr z. by rewrite lookup_empty.
  - intros a pr a' pr' z. by rewrite lookup_empty.
Qed.

Lemma mirrors_insert t a b i m i' sa sb :
  mirrors i m -> m !! a = None -> segment_on t a = Some sa -> segment_on t b = Some sb ->
  unused m (bpf_tuple_key sa) -> unused m (bpf_tuple_key sb) -> bpf_tuple_key sa <> bpf_tuple_key sb ->
  inner_insert_pair t a b i = (true, i') -> mirrors i' (<[a := mkPairing b sa sb]> m).
Proof.
  intros Hm Ha Hsa Hsb Hua Hub Hne Hins.
  destruct (inner_insert_pair_cases t a b i)
    as [(i2 & E & _)|(i2 & ka & kb & E & Eka & Ekb & Htab & Hfd & Hl)]; rewrite Hins in E; [done|].
  injection E as <-.
  destruct (segment_key _ _ _ Eka) as (s & Es & <- & Hra). rewrite Hsa in Es. injection Es as <-.
  destruct (segment_key _ _ _ Ekb) as (s & Es & <- & Hrb). rewrite Hsb in Es. injection Es as <-.
  set (pr0 := mkPairing b sa sb).
  assert (Hr0 : forall z, key_in pr0 z -> 0 <= z < 2 ^ 64) by by intros z [->| ->].
  assert (Hout : forall a' pr z, m !! a' = Some pr -> key_in pr z -> ~ key_in pr0 z).
  { intros a' pr z Hp Hz [->| ->]; [by eapply Hua|by eapply Hub]. }
  assert (Hold : forall a' pr z, m !! a' = Some pr -> key_in pr z -> peer_of i' z = peer_of i z).
  { intros a' pr z Hp Hz. pose proof (mi_range _ _ Hm _ _ _ Hp Hz) as Hr. pose proof (Hout _ _ _ Hp Hz) as Hn.
    unfold peer_of. rewrite Hl. rewrite !decide_False; [done|..]; intros Hk%key_bytes_inj; try done;
      apply Hn; [by left|by right]. }
  split.
  - rewrite Hfd. apply Hm.
  - by rewrite Htab, (mi_table _ _ Hm), fmap_insert.
  - intros a' pr [[<- <-]|[_ Hp]]%lookup_insert_Some.
    + cbn. unfold peer_of. rewrite Hl, decide_False, decide_True; [done|done|].
      intros Hk%key_bytes_inj; [|done..]. by apply Hne.
    + rewrite (Hold _ _ _ Hp) by by left. by eapply mi_client.
  - intros a' pr [[<- <-]|[_ Hp]]%lookup_insert_Some.
    + cbn. unfold peer_of. by rewrite Hl, decide_True.
    + rewrite (Hold _ _ _ Hp) by by right. by eapply mi_backend.
  - intros k v. rewrite Hl.
    case_decide; [intros _; eexists a, pr0, _; rewrite lookup_insert_eq; split; [done|]; by split; [right|]|].
    case_decide; [intros _; eexists a, pr0, _; rewrite lookup_insert_eq; split; [done|]; by split; [left|]|].
    intros (a' & pr & z & Hp & Hz)%(mi_only _ _ Hm). exists a', pr, z. split; [|done].
    rewrite lookup_insert_ne; [done|]. congruence.
  - intros a' pr z [[<- <-]|[_ Hp]]%lookup_insert_Some; [apply Hr0|by eapply mi_range].
  - intros a1 pr1 a2 pr2 z [[<- <-]|[Hn1 H1']]%lookup_insert_Some [[<- <-]|[Hn2 H2']]%lookup_insert_Some Hz1 Hz2;
      [done|by destruct (Hout _ _ _ H2' Hz2)|by destruct (Hout _ _ _ H1' Hz1)|by eapply mi_apart].
Qed.

Lemma mirrors_refused t a b i m i' :
  mirrors i m -> (forall sa, segment_on t a = Some sa -> unused m (bpf_tuple_key sa)) ->
  inner_insert_pair t a b i = (false, i') -> mirrors i' m.
Proof.
  intros Hm Hu Hins. apply inner_insert_refused in Hins as (Ht & Hfd & Hl).
  - destruct Hm as [M1 M2 M3 M4 M5 M6 M7]. unfold peer_of in *. split; try done.
    + by rewrite Hfd.
    + by rewrite Ht.
    + intros *. unfold peer_of. rewrite Hl. apply M3.
    + intros *. unfold peer_of. rewrite Hl. apply M4.
    + intros k v. rewrite Hl. apply M5.
  - intros k (skb & Es & <- & Hr)%segment_key. eapply mirrors_unused; [done..|by apply Hu].
Qed.

Lemma mirrors_remove a i m : mirrors i m -> mirrors (inner_remove_pair a i) (delete a m).
Proof.
  intros Hm. destruct (m !! a) as [pr0|] eqn:Ea.
  2: { rewrite delete_id by done. unfold inner_remove_pair. by rewrite (mi_table _ _ Hm), lookup_fmap, Ea. }
  assert (Ht : in_allocated_pairs i !! a = Some (bpf_tuple_key (pr_from_client pr0), bpf_tuple_key (pr_from_backend pr0))).
  { by rewrite (mi_table _ _ Hm), lookup_fmap, Ea. }
  pose proof (fun k => inner_remove_pair_lookup a i _ _ k (mi_fd _ _ Hm) Ht) as Hl.
  assert (Hold : forall a' pr z, delete a m !! a' = Some pr -> key_in pr z ->
            m !! a' = Some pr /\ peer_of (inner_remove_pair a i) z = peer_of i z).
  { intros a' pr z [Hne Hp]%lookup_delete_Some Hz. split; [done|]. unfold peer_of. rewrite Hl, decide_False; [done|].
    pose proof (mi_range _ _ Hm _ _ _ Hp Hz) as Hr.
    assert (Hin : ~ key_in pr0 z) by (intros Hin; by destruct (mi_apart _ _ Hm _ _ _ _ _ Ea Hp Hin Hz)).
    intros [Hk|Hk]; apply key_bytes_inj in Hk; try done; try (eapply (mi_range _ _ Hm); [exact Ea|]);
      try (by left); try (by right); apply Hin; [by left|by right]. }
  destruct Hm as [M1 M2 M3 M4 M5 M6 M7]. split.
  - unfold inner_remove_pair. rewrite Ht. cbn. destruct M1 as [f Hf]. rewrite Hf. cbn.
    unfold find_map in *. rewrite !bpf_delete_maps. by eexists.
  - by rewrite inner_remove_pair_table, M2, fmap_delete.
  - intros a' pr Hp. destruct (Hold _ _ (bpf_tuple_key (pr_from_client pr)) Hp) as [Hp' ->]; [by left|by eapply M3].
  - intros a' pr Hp. destruct (Hold _ _ (bpf_tuple_key (pr_from_backend pr)) Hp) as [Hp' ->]; [by right|by eapply M4].
  - intros k v. rewrite Hl. case_decide as Hk; [done|]. intros (a' & pr & z & Hp & Hz & ->)%M5.
    exists a', pr, z. split; [|done]. apply lookup_delete_Some. split; [|done]. intros ->.
    rewrite Ea in Hp. injection Hp as <-. apply Hk. by destruct Hz as [->| ->]; [left|right].
  - intros a' pr z [_ Hp]%lookup_delete_Some. by eapply M6.
  - intros a1 pr1 a2 pr2 z [_ H1']%lookup_delete_Some [_ H2']%lookup_delete_Some. by eapply M7.
Qed.

Lemma linked_mirrors i m : linked i m -> mirrors i m.
Proof.
  induction 1; [by eapply mirrors_loaded|by eapply mirrors_insert|by eapply mirrors_refused|by apply mirrors_remove].
Qed.

(** A key the map holds, and one it does not. *)
Lemma relay_found i skb fd :
  peer_of i (bpf_tuple_key skb) = Some (le_bytes 4 (u32 fd)) ->
  relay (in_object i) skb = mkRedirect SK_PASS (Some (u32 fd)) false.
Proof.
  intros Hp. unfold relay. rewrite (redirect_found _ _ _ _ _ _ Hp). do 2 f_equal.
  apply le_val_le_bytes. unfold u32. change (256 ^ Z.of_nat 4) with (2 ^ 32). by apply Z.mod_pos_bound.
Qed.

(** C31: the kernel relay.  From loading on, through every history of pairs
    inserted, refused and removed in which live connections have keys of their
    own, the program [relay] sends what arrives on a paired client socket out
    on its backend's socket and what arrives on the backend socket out on the
    client's, on their egress paths, and drops what arrives on sockets that are
    in no pair (any more). *)
Theorem relay_follows_pairs i m :
  linked i m ->
  (forall a pr, m !! a = Some pr ->
     relay (in_object i) (pr_from_client pr) = mkRedirect SK_PASS (Some (u32 (pr_backend pr))) false
     /\ relay (in_object i) (pr_from_backend pr) = mkRedirect SK_PASS (Some (u32 a)) false)
  /\ (forall skb, 0 <= bpf_tuple_key skb < 2 ^ 64 -> unused m (bpf_tuple_key skb) ->
        relay (in_object i) skb = mkRedirect SK_DROP None false).
Proof.
  intros Hl%linked_mirrors. split.
  - intros a pr Hp. split; apply relay_found; [by eapply mi_client|by eapply mi_backend].
  - intros skb Hr Hu. apply redirect_missing. by eapply mirrors_unused.
Qed.
End Relay.

(** ** Witness *)

#[export] Instance memory_helpers : BpfHelpers memory_maps := {
  bpf_sk_redirect_hash o _ m k flags :=
    match o m k with
    | Some v => mkRedirect SK_PASS (Some (le_val v)) (Z.odd flags)
    | None => mkRedirect SK_DROP None false
    end }.
#[export] Instance memory_helpers_laws : BpfHelpersLaws unit memory_maps.
Proof. split; intros o skb m k flags; cbn; [by intros v ->|by intros ->]. Qed.

#[local] Instance any_file : FileSystem := {
  is_file path := bool_decide (path <> []);
  read_file path := Ok path }.
#[local] Existing Instance sockmap_example_env.

(** Client 7 on local port 40007, its backend 8 on 40008. *)
Definition example_segment (local : Z) (last : ascii) : sk_buff :=
  skb_of local (chr 195, last) (chr 127, chr 0, chr 0, chr 1).

Lemma example_linked :
  linked sockmap_example_paired
    (<[7 := mkPairing 8 (example_segment 40007 (chr 87)) (example_segment 40008 (chr 88))]> ∅).
Proof.
  eapply (linked_insert [] 7 8 sockmap_example).
  - by apply (linked_loaded (B "relay.o")).
  - reflexivity.
  - vm_compute. reflexivity.
  - vm_compute. reflexivity.
  - intros a pr Ha. by rewrite lookup_empty in Ha.
  - intros a pr Ha. by rewrite lookup_empty in Ha.
  - vm_compute. discriminate.
  - by rewrite (surjective_pairing (inner_insert_pair _ _ _ _)).
Qed.

Lemma relay_follows_pairs_witness :
  relay (in_object sockmap_example_paired) (example_segment 40007 (chr 87))
    = mkRedirect SK_PASS (Some 8) false
  /\ relay (in_object sockmap_example_paired) (example_segment 40008 (chr 88))
    = mkRedirect SK_PASS (Some 7) false.
Proof.
  exact (proj1 (relay_follows_pairs _ _ example_linked) 7 _ (lookup_insert_eq _ _ _)).
Defined.
