(* ===== verification/TcpAdapter.v ===== *)
(** * TcpAdapter: backend connections of TCP clients
    ([src/adapter/tcp.rs]).

    [DashMap] is the interface [KvStore]; the sockmap loader is shared by the
    adapters of a server and lives beside the adapter in the state. *)

From S2P Require Import Prelude Text Net Protocol Resolver World Stores Dns Adapter Sockmap.
Open Scope Z_scope.

(** [struct TcpClient]: the backend stream and its descriptor. *)
Record TcpClient : Type := mkTcpClient { c_stream : sock; c_fd : sock }.

#[export] Instance TcpClient_eq_dec : EqDecision TcpClient.
Proof. solve_decision. Defined.

(** [as libc::c_int] from a [u32]. *)
Definition i32 (z : Z) : Z :=
  let w := z mod 2 ^ 32 in if w <? 2 ^ 31 then w else w - 2 ^ 32.

Definition IPPROTO_TCP : Z := 6.
Definition TCP_QUICKACK : Z := 12.
Definition TCP_USER_TIMEOUT : Z := 18.
Definition TCP_NOTSENT_LOWAT : Z := 25.

Section TcpAdapter.
Context `{Env} {CD CR KC KP : Type} `{TtlCache bytes IpAddr CD} `{TtlCache bytes CacheEntry CR}.
Context `{KvStore sock TcpClient KC} `{KvStore sock sock KP} `{BpfLib U Obj}.

(** [struct TcpAdapter]; [ta_sockmap]: whether it holds the loader. *)
Record TcpAdapter : Type := mkTcpAdapter {
  ta_base : Adapter CR;
  ta_port : Z;
  ta_connections : KC;
  ta_sockmap_pairs : KP;
  ta_sockmap : bool;
  ta_timeout : Z;
  ta_connect_timeout : Z;
  ta_tcp_user_timeout_ms : Z;
  ta_tcp_quickack : bool;
  ta_tcp_notsent_lowat : Z }.

Definition DEFAULT_TIMEOUT : Z := from_secs 30.
Definition DEFAULT_CONNECT_TIMEOUT : Z := from_secs 5.

(** [TcpAdapter::new]. *)
Definition tcp_adapter_new (port : Z) (resolver : option Resolve) : TcpAdapter :=
  mkTcpAdapter (adapter_new resolver (from_port port)) port kv_empty kv_empty false
    DEFAULT_TIMEOUT DEFAULT_CONNECT_TIMEOUT 0 false 0.

(** The setters. *)
Definition on_base (f : Adapter CR -> Adapter CR) (a : TcpAdapter) : TcpAdapter :=
  mkTcpAdapter (f (ta_base a)) (ta_port a) (ta_connections a) (ta_sockmap_pairs a) (ta_sockmap a)
    (ta_timeout a) (ta_connect_timeout a) (ta_tcp_user_timeout_ms a) (ta_tcp_quickack a)
    (ta_tcp_notsent_lowat a).
Definition set_timeout (v : Z) (a : TcpAdapter) : TcpAdapter :=
  mkTcpAdapter (ta_base a) (ta_port a) (ta_connections a) (ta_sockmap_pairs a) (ta_sockmap a)
    v (ta_connect_timeout a) (ta_tcp_user_timeout_ms a) (ta_tcp_quickack a)
    (ta_tcp_notsent_lowat a).
Definition set_connect_timeout (v : Z) (a : TcpAdapter) : TcpAdapter :=
  mkTcpAdapter (ta_base a) (ta_port a) (ta_connections a) (ta_sockmap_pairs a) (ta_sockmap a)
    (ta_timeout a) v (ta_tcp_user_timeout_ms a) (ta_tcp_quickack a) (ta_tcp_notsent_lowat a).
Definition set_tcp_user_timeout (v : Z) (a : TcpAdapter) : TcpAdapter :=
  mkTcpAdapter (ta_base a) (ta_port a) (ta_connections a) (ta_sockmap_pairs a) (ta_sockmap a)
    (ta_timeout a) (ta_connect_timeout a) v (ta_tcp_quickack a) (ta_tcp_notsent_lowat a).
Definition set_tcp_quickack (v : bool) (a : TcpAdapter) : TcpAdapter :=
  mkTcpAdapter (ta_base a) (ta_port a) (ta_connections a) (ta_sockmap_pairs a) (ta_sockmap a)
    (ta_timeout a) (ta_connect_timeout a) (ta_tcp_user_timeout_ms a) v (ta_tcp_notsent_lowat a).
Definition set_tcp_notsent_lowat (v : Z) (a : TcpAdapter) : TcpAdapter :=
  mkTcpAdapter (ta_base a) (ta_port a) (ta_connections a) (ta_sockmap_pairs a) (ta_sockmap a)
    (ta_timeout a) (ta_connect_timeout a) (ta_tcp_user_timeout_ms a) (ta_tcp_quickack a) v.
Definition set_sockmap (v : bool) (a : TcpAdapter) : TcpAdapter :=
  mkTcpAdapter (ta_base a) (ta_port a) (ta_connections a) (ta_sockmap_pairs a) v
    (ta_timeout a) (ta_connect_timeout a) (ta_tcp_user_timeout_ms a) (ta_tcp_quickack a)
    (ta_tcp_notsent_lowat a).
Definition set_connections (c : KC) (a : TcpAdapter) : TcpAdapter :=
  mkTcpAdapter (ta_base a) (ta_port a) c (ta_sockmap_pairs a) (ta_sockmap a)
    (ta_timeout a) (ta_connect_timeout a) (ta_tcp_user_timeout_ms a) (ta_tcp_quickack a)
    (ta_tcp_notsent_lowat a).
Definition set_sockmap_pairs (p : KP) (a : TcpAdapter) : TcpAdapter :=
  mkTcpAdapter (ta_base a) (ta_port a) (ta_connections a) p (ta_sockmap a)
    (ta_timeout a) (ta_connect_timeout a) (ta_tcp_user_timeout_ms a) (ta_tcp_quickack a)
    (ta_tcp_notsent_lowat a).

(** [TcpAdapter::protocol] and [TcpAdapter::is_sockmap_active]. *)
Definition ta_protocol (a : TcpAdapter) : Protocol := from_port (ta_port a).
Definition is_sockmap_active (client_fd : sock) (a : TcpAdapter) : bool :=
  bool_decide (is_Some (kv_get (ta_sockmap_pairs a) client_fd)).

(** The adapter, the process-wide DNS state and the shared loader. *)
Record TcpState : Type := mkTcpState {
  ts_adapter : TcpAdapter;
  ts_dns : Dns CD;
  ts_sockmap : Sockmap Obj }.

Definition on_tcp (f : TcpAdapter -> TcpAdapter) (s : TcpState) : TcpState :=
  mkTcpState (f (ts_adapter s)) (ts_dns s) (ts_sockmap s).
Definition ts_routing (s : TcpState) : Routing CD CR :=
  mkRouting (ta_base (ts_adapter s)) (ts_dns s).
Definition ts_set_routing (r : Routing CD CR) (s : TcpState) : TcpState :=
  mkTcpState (on_base (fun _ => r_adapter r) (ts_adapter s)) (r_dns r) (ts_sockmap s).

(** [TcpAdapter::route]. *)
Definition tcp_route (data : bytes) : M TcpState ResolverError ConnectionResult :=
  zoom ts_routing ts_set_routing (route data).

(** [TcpAdapter::apply_socket_options]: three [setsockopt] calls whose results
    are ignored. *)
Definition apply_socket_options {E} (fd : sock) : M TcpState E unit :=
  s <- get ;;
  let a := ts_adapter s in
  if (ta_tcp_user_timeout_ms a =? 0) && negb (ta_tcp_quickack a) && (ta_tcp_notsent_lowat a =? 0)
  then ret tt
  else
    (if 0 <? ta_tcp_user_timeout_ms a
     then io_sockopt fd IPPROTO_TCP TCP_USER_TIMEOUT (i32 (ta_tcp_user_timeout_ms a))
     else ret tt) ;;
    (if ta_tcp_quickack a then io_sockopt fd IPPROTO_TCP TCP_QUICKACK 1 else ret tt) ;;
    (if 0 <? ta_tcp_notsent_lowat a
     then io_sockopt fd IPPROTO_TCP TCP_NOTSENT_LOWAT (i32 (ta_tcp_notsent_lowat a))
     else ret tt).

(** [format!("{host}:{port}")]. *)
Definition host_port (host : bytes) (port : Z) : bytes := host ++ colon :: print_dec port.

(** Dialling the backend: [TcpStream::connect] under the timeout, [set_nodelay]
    (a stream that refuses it is dropped), the socket options. *)
Definition dial (host : bytes) (port : Z) : M TcpState ProxyError sock :=
  s <- get ;;
  r <- io_connect host port (ta_connect_timeout (ts_adapter s)) ;;
  match r with
  | Elapsed => fail (PBackendConnect (B "Timeout connecting to backend: " ++ host_port host port))
  | Done (Err e) =>
      fail (PBackendConnect (B "Failed to connect to backend: " ++ host_port host port
                             ++ B ": " ++ io_message e))
  | Done (Ok stream) =>
      r <- io_nodelay stream ;;
      match r with
      | Err e =>
          io_close stream ;;
          fail (PBackendConnect (B "set_nodelay failed: " ++ io_message e))
      | Ok _ =>
          apply_socket_options stream ;;
          ret stream
      end
  end.

(** [TcpAdapter::get_connection]. *)
Definition get_connection (data : bytes) (fd : sock) : M TcpState ProxyError TcpClient :=
  s <- get ;;
  match kv_get (ta_connections (ts_adapter s)) fd with
  | Some existing => ret existing
  | None =>
      res <- with_err PResolver (tcp_route data) ;;
      let '(host, port) := parse_endpoint (cr_endpoint res) (ta_port (ts_adapter s)) in
      stream <- dial host port ;;
      let client := mkTcpClient stream stream in
      modify (on_tcp (fun a => set_connections (kv_insert (ta_connections a) fd client) a)) ;;
      ret client
  end.

(** [TcpAdapter::activate_sockmap]. *)
Definition activate_sockmap {E} (client_fd : sock) : M TcpState E bool :=
  fun s t =>
    let a := ts_adapter s in
    if negb (ta_sockmap a) then (Ok false, s, t)
    else if negb (sm_available (ts_sockmap s)) then (Ok false, s, t)
    else
      match kv_get (ta_connections a) client_fd with
      | None => (Ok false, s, t)
      | Some client =>
          let backend_fd := c_fd client in
          if backend_fd <=? 0 then (Ok false, s, t)
          else
            let '(ok, sm) := sockmap_insert_pair t client_fd backend_fd (ts_sockmap s) in
            if negb ok then (Ok false, mkTcpState a (ts_dns s) sm, t)
            else
              let a := set_sockmap_pairs (kv_insert (ta_sockmap_pairs a) client_fd backend_fd) a in
              (Ok true, mkTcpState a (ts_dns s) sm, t)
      end.

(** [TcpAdapter::close_connection].  The table held the last reference to the
    backend connection, so removing it closes the stream. *)
Definition close_connection {E} (fd : sock) : M TcpState E unit :=
  s <- get ;;
  (match kv_get (ta_sockmap_pairs (ts_adapter s)) fd with
   | None => ret tt
   | Some _ =>
       modify (on_tcp (fun a => set_sockmap_pairs (kv_remove (ta_sockmap_pairs a) fd) a)) ;;
       (if ta_sockmap (ts_adapter s)
        then modify (fun s => mkTcpState (ts_adapter s) (ts_dns s)
                                (sockmap_remove_pair fd (ts_sockmap s)))
        else ret tt)
   end) ;;
  match kv_get (ta_connections (ts_adapter s)) fd with
  | None => ret tt
  | Some client =>
      modify (on_tcp (fun a => set_connections (kv_remove (ta_connections a) fd) a)) ;;
      io_close (c_stream client)
  end.
End TcpAdapter.
Arguments TcpAdapter CR KC KP : clear implicits.
Arguments TcpState CD CR KC KP Obj : clear implicits.
