(* ===== verification/TcpConnections.v ===== *)
(** * TcpConnections: what [TcpAdapter] guarantees to the TCP server.

    Which backends are dialled, what the connection table and the sockmap pairs
    hold after each operation, and that no socket is lost. *)

From S2P Require Import Prelude Text Net Protocol Resolver World Stores Dns Adapter Ssrf Routing.
From S2P Require Import Sockmap TcpAdapter.
Open Scope Z_scope.

(** ** The events of one dialling *)

Definition sockopt_of (fd : sock) (ev : event) : Prop :=
  match ev with EvSockopt fd' _ _ _ => fd' = fd | _ => False end.

(** The events of dialling [host]:[port], newest first: on success the new
    socket stays open, on failure nothing does. *)
Definition dial_events `{Env} (host : bytes) (port : Z) (r : result ProxyError sock) (l : trace) : Prop :=
  match r with
  | Ok c => (exists before limit, env_connect before host port limit = Done (Ok c))
            /\ exists opts, Forall (sockopt_of c) opts
              /\ l = opts ++ [EvNodelay c (Ok tt); EvConnect host port (Done (Ok c))]
  | Err _ =>
      l = [EvConnect host port Elapsed]
      \/ (exists e, l = [EvConnect host port (Done (Err e))])
      \/ (exists c e, l = [EvClose c; EvNodelay c (Err e); EvConnect host port (Done (Ok c))])
  end.

Section Connections.
Context `{Env} {CD CR KC KP : Type} `{TtlCacheLaws bytes IpAddr CD} `{TtlCacheLaws bytes CacheEntry CR}.
Context `{KvStore sock TcpClient KC, !KvStoreLaws sock TcpClient KC}.
Context `{KvStore sock sock KP, !KvStoreLaws sock sock KP} `{BpfLib U Obj}.
Implicit Types (s : TcpState CD CR KC KP Obj) (a : TcpAdapter CR KC KP) (t : trace).

Lemma emits_apply_socket_options {E} fd :
  emits (sockopt_of fd) (apply_socket_options (E := E) (CD := CD) (CR := CR) (KC := KC) (KP := KP) (Obj := Obj) fd).
Proof. unfold apply_socket_options. emits_steps; done. Qed.

Lemma wp_apply_socket_options {E} fd (Q : result E unit -> TcpState CD CR KC KP Obj -> trace -> Prop) s t :
  (forall l, Forall (sockopt_of fd) l -> Q (Ok tt) s (l ++ t)) ->
  wp (apply_socket_options fd) Q s t.
Proof.
  intros HQ. eapply wp_mono.
  - apply wp_emits; [apply (emits_apply_socket_options fd)|].
    instantiate (1 := fun r s' _ => r = Ok tt /\ s' = s).
    unfold apply_socket_options. by wp_steps.
  - intros r s' t' ((-> & ->) & l & -> & Hl). by apply HQ.
Qed.

Lemma wp_dial host port (Q : result ProxyError sock -> TcpState CD CR KC KP Obj -> trace -> Prop) s t :
  (forall r l, dial_events host port r l -> Q r s (l ++ t)) ->
  wp (dial host port) Q s t.
Proof.
  intros HQ. unfold dial. wp_step. wp_step. wp_step. wp_step.
  destruct (env_connect t host port _) as [[c|e]|] eqn:Econn; cycle 1.
  - apply wp_fail. eapply (HQ _ [_]). right. left. by eexists.
  - apply wp_fail. eapply (HQ _ [_]). by left.
  - wp_step. wp_step. destruct (env_nodelay _ c) as [[]|e].
    + wp_step. apply wp_apply_socket_options. intros l Hl. apply wp_ret.
      assert (Hd : dial_events host port (Ok c) (l ++ [EvNodelay c (Ok tt); EvConnect host port (Done (Ok c))]))
        by (split; [eauto|by exists l]).
      apply HQ in Hd. by rewrite <- app_assoc in Hd.
    + wp_step. wp_step. apply wp_fail. eapply (HQ _ [_; _; _]).
      right. right. by eexists _, _.
Qed.

(** ** [get_connection] *)

(** The routing part of the state is sound for [P]: cached and admissible
    endpoints satisfy it. *)
Definition endpoints_ok (P : bytes -> Prop) (r : Routing CD CR) t : Prop :=
  dns_inv (r_dns r) t /\ entries_ok P (r_adapter r)
  /\ forall out, admissible (a_skip_validation (r_adapter r)) out -> P out.

Lemma endpoints_ok_cons P r ev t : endpoints_ok P r t -> endpoints_ok P r (ev :: t).
Proof. intros (Hd & He & Ha). split; [by apply dns_inv_cons|done]. Qed.

Lemma endpoints_ok_app P r l t : endpoints_ok P r t -> endpoints_ok P r (l ++ t).
Proof. intros Hr. induction l; [done|]. by apply endpoints_ok_cons. Qed.

Lemma endpoints_ok_extends P Q r t t' : endpoints_ok P r t -> extends Q t t' -> endpoints_ok P r t'.
Proof. intros Hr (l & -> & _). by apply endpoints_ok_app. Qed.

Lemma wp_tcp_route P (data : bytes) s t :
  endpoints_ok P (ts_routing s) t ->
  wp (tcp_route data)
    (fun r s' t' => endpoints_ok P (ts_routing s') t' /\ extends routing_event t t'
       /\ (exists b, s' = mkTcpState (on_base (fun _ => b) (ts_adapter s)) (ts_dns s') (ts_sockmap s))
       /\ match r with Ok cr => P (cr_endpoint cr) | Err _ => True end) s t.
Proof.
  intros (Hd & He & Ha). unfold tcp_route. wp_step. eapply wp_mono.
  { apply wp_emits; [apply emits_route|]. by apply (wp_route P). }
  intros r rt t' ((Hd' & He' & Hcfg & Hr) & Hext). destruct Hcfg as (_ & _ & _ & Hskip & _).
  split; [split; [done|split; [done|]]|].
  { intros out. cbn. rewrite <- Hskip. apply Ha. }
  split; [done|]. split; [by eexists|]. by destruct r as [cr|]; [destruct Hr|].
Qed.

(** The connection table after a dialling. *)
Definition connections_with (fd : sock) (c : TcpClient) (k k' : KC) : Prop :=
  forall fd', kv_get k' fd' = if decide (fd = fd') then Some c else kv_get k fd'.

(** What [get_connection] does when the client has no backend yet: it routes;
    unless routing failed it dials exactly the endpoint it got; only when that
    succeeds the table gains the connection. *)
Definition get_connection_post (P : bytes -> Prop) (fd : sock) s t
    (r : result ProxyError TcpClient) s' t' : Prop :=
  endpoints_ok P (ts_routing s') t'
  /\ ta_sockmap_pairs (ts_adapter s') = ta_sockmap_pairs (ts_adapter s)
  /\ ta_sockmap (ts_adapter s') = ta_sockmap (ts_adapter s)
  /\ ta_port (ts_adapter s') = ta_port (ts_adapter s)
  /\ ts_sockmap s' = ts_sockmap s
  /\ match kv_get (ta_connections (ts_adapter s)) fd with
     | Some existing => r = Ok existing /\ s' = s /\ t' = t
     | None =>
         exists routed, extends routing_event t routed
         /\ match r with
            | Ok c =>
                c_stream c = c_fd c
                /\ connections_with fd c (ta_connections (ts_adapter s)) (ta_connections (ts_adapter s'))
                /\ exists out l, P out
                     /\ dial_events (fst (parse_endpoint out (ta_port (ts_adapter s))))
                          (snd (parse_endpoint out (ta_port (ts_adapter s)))) (Ok (c_fd c)) l
                     /\ t' = l ++ routed
            | Err e =>
                ta_connections (ts_adapter s') = ta_connections (ts_adapter s)
                /\ (t' = routed
                    \/ exists out l, P out
                         /\ dial_events (fst (parse_endpoint out (ta_port (ts_adapter s))))
                              (snd (parse_endpoint out (ta_port (ts_adapter s)))) (Err e) l
                         /\ t' = l ++ routed)
            end
     end.

Lemma wp_get_connection P (data : bytes) (fd : sock) s t :
  endpoints_ok P (ts_routing s) t ->
  wp (get_connection data fd) (get_connection_post P fd s t) s t.
Proof.
  intros Hok. unfold get_connection. wp_step. wp_step.
  unfold get_connection_post.
  destruct (kv_get (ta_connections (ts_adapter s)) fd) as [c|]; [by apply wp_ret|].
  wp_step. wp_step. eapply wp_mono; [exact (wp_tcp_route P data s t Hok)|].
  intros r s1 t1 (Hok1 & Hext & (b & Es1) & Hr).
  assert (Hframe : ta_sockmap_pairs (ts_adapter s1) = ta_sockmap_pairs (ts_adapter s)
    /\ ta_sockmap (ts_adapter s1) = ta_sockmap (ts_adapter s)
    /\ ta_port (ts_adapter s1) = ta_port (ts_adapter s) /\ ts_sockmap s1 = ts_sockmap s
    /\ ta_connections (ts_adapter s1) = ta_connections (ts_adapter s)) by (by rewrite Es1).
  destruct Hframe as (Hpairs & Hsm & Hport & Hloader & Hconn).
  destruct r as [cr|e]; cbn [map_err].
  2: { split_and!; try done. exists t1. split; [done|]. split; [done|]. by left. }
  destruct (parse_endpoint (cr_endpoint cr) (ta_port (ts_adapter s))) as [host port] eqn:Ep.
  wp_step. apply wp_dial. intros r l Hl.
  assert (Hdial : dial_events (fst (parse_endpoint (cr_endpoint cr) (ta_port (ts_adapter s))))
                    (snd (parse_endpoint (cr_endpoint cr) (ta_port (ts_adapter s)))) r l)
    by (by rewrite Ep).
  pose proof (endpoints_ok_app _ _ l _ Hok1) as Hok2.
  destruct r as [c|e].
  - wp_step. wp_step. apply wp_ret. split_and!; try done.
    exists t1. split; [done|]. split; [done|]. split.
    { intros fd'. cbn. by rewrite kv_get_insert, Hconn. }
    by exists (cr_endpoint cr), l.
  - split_and!; try done. exists t1. split; [done|]. split; [done|]. right.
    by exists (cr_endpoint cr), l.
Qed.

(** It only extends the history. *)
Lemma emits_get_connection data fd :
  emits (fun _ => True) (get_connection (CD := CD) (CR := CR) (KC := KC) (KP := KP) (Obj := Obj) data fd).
Proof.
  unfold get_connection, tcp_route, dial. emits_steps; try done.
  - eapply emits_mono; [|apply emits_route]. done.
  - eapply emits_mono; [|apply emits_apply_socket_options]. done.
Qed.

(** ** Pairs and connections *)

(** Every active pair belongs to a connection with that backend. *)
Definition pairs_connected a : Prop :=
  forall fd b, kv_get (ta_sockmap_pairs a) fd = Some b ->
  exists c, kv_get (ta_connections a) fd = Some c /\ c_fd c = b.

Lemma wp_activate_sockmap {E} fd (Q : result E bool -> TcpState CD CR KC KP Obj -> trace -> Prop) s t :
  (forall (b : bool) s', 
     ta_base (ts_adapter s') = ta_base (ts_adapter s) -> ts_dns s' = ts_dns s ->
     ta_connections (ts_adapter s') = ta_connections (ts_adapter s) ->
     ta_port (ts_adapter s') = ta_port (ts_adapter s) ->
     ta_sockmap (ts_adapter s') = ta_sockmap (ts_adapter s) ->
     (if b then
        exists c, kv_get (ta_connections (ts_adapter s)) fd = Some c
          /\ forall fd', kv_get (ta_sockmap_pairs (ts_adapter s')) fd'
               = if decide (fd = fd') then Some (c_fd c)
                 else kv_get (ta_sockmap_pairs (ts_adapter s)) fd'
      else ta_sockmap_pairs (ts_adapter s') = ta_sockmap_pairs (ts_adapter s)) ->
     Q (Ok b) s' t) ->
  wp (activate_sockmap fd) Q s t.
Proof.
  intros HQ. unfold wp, activate_sockmap.
  destruct (ta_sockmap (ts_adapter s)) eqn:E1; cbn; [|by apply HQ].
  destruct (sm_available (ts_sockmap s)); cbn; [|by apply HQ].
  destruct (kv_get (ta_connections (ts_adapter s)) fd) as [c|] eqn:Ec; [|by apply HQ].
  destruct (c_fd c <=? 0); [by apply HQ|].
  destruct (sockmap_insert_pair t fd (c_fd c) (ts_sockmap s)) as [[] sm]; cbn; apply HQ; try done.
  exists c. split; [done|]. intros fd'. cbn. by rewrite kv_get_insert.
Qed.

Lemma wp_close_connection {E} fd (Q : result E unit -> TcpState CD CR KC KP Obj -> trace -> Prop) s t :
  (forall s' l,
     ta_base (ts_adapter s') = ta_base (ts_adapter s) -> ts_dns s' = ts_dns s ->
     ta_port (ts_adapter s') = ta_port (ts_adapter s) ->
     ta_sockmap (ts_adapter s') = ta_sockmap (ts_adapter s) ->
     (forall fd', kv_get (ta_connections (ts_adapter s')) fd'
        = if decide (fd = fd') then None else kv_get (ta_connections (ts_adapter s)) fd') ->
     (forall fd', kv_get (ta_sockmap_pairs (ts_adapter s')) fd'
        = if decide (fd = fd') then None else kv_get (ta_sockmap_pairs (ts_adapter s)) fd') ->
     l = match kv_get (ta_connections (ts_adapter s)) fd with
         | Some c => [EvClose (c_stream c)]
         | None => []
         end ->
     ts_sockmap s' = (if is_sockmap_active fd (ts_adapter s) && ta_sockmap (ts_adapter s)
                      then sockmap_remove_pair fd (ts_sockmap s) else ts_sockmap s) ->
     Q (Ok tt) s' (l ++ t)) ->
  wp (close_connection fd) Q s t.
Proof.
  intros HQ. unfold close_connection, is_sockmap_active in *. wp_step. wp_step. wp_step.
  destruct (kv_get (ta_sockmap_pairs (ts_adapter s)) fd) as [b|] eqn:Ep;
  [wp_step; wp_step; destruct (ta_sockmap (ts_adapter s)) eqn:Es|]; wp_step;
  destruct (kv_get (ta_connections (ts_adapter s)) fd) as [c|] eqn:Ec;
  try (wp_step; wp_step; wp_step);
  repeat first [apply wp_ret | apply wp_io];
  first [eapply (HQ _ [_]) | apply (HQ _ [])]; try done;
  try (intros fd'; cbn; rewrite ?kv_get_remove; case_decide; [by subst|done]).
Qed.
End Connections.
