(* ===== verification/TcpConfig.v ===== *)
(** * TcpConfig: configuration of the TCP server and its socket options
    ([src/server/tcp/config.rs], [src/server/tcp/sockopts.rs]), and the parsing
    of socket addresses by the standard library. *)

From Stdlib Require Import Ascii.
From S2P Require Import Prelude Text Net Protocol Resolver World Stores Dns Adapter Tls Sockmap.
From S2P Require Import TcpAdapter.
Open Scope Z_scope.

(** ** [<SocketAddr as FromStr>::from_str] *)

Definition read_port (s : bytes) : option (Z * bytes) :=
  match read_given_char colon s with
  | Some s' => read_number 10 (List.length s') true u16_max s'
  | None => None
  end.

(** [read_scope_id], 0 when there is none. *)
Definition read_scope_id (s : bytes) : bytes :=
  match read_given_char "%"%char s with
  | Some s' =>
      match read_number 10 (List.length s') true (2 ^ 32 - 1) s' with
      | Some (_, rest) => rest
      | None => s
      end
  | None => s
  end.

Definition read_socket_addr_v4 (s : bytes) : option ((IpAddr * Z) * bytes) :=
  match read_ipv4_addr s with
  | Some (ip, s1) =>
      match read_port s1 with Some (p, rest) => Some ((V4 ip, p), rest) | None => None end
  | None => None
  end.

Definition read_socket_addr_v6 (s : bytes) : option ((IpAddr * Z) * bytes) :=
  match read_given_char "["%char s with
  | None => None
  | Some s1 =>
      match read_ipv6_addr s1 with
      | None => None
      | Some (ip, s2) =>
          match read_given_char "]"%char (read_scope_id s2) with
          | None => None
          | Some s3 =>
              match read_port s3 with Some (p, rest) => Some ((V6 ip, p), rest) | None => None end
          end
      end
  end.

Definition parse_socket_addr (s : bytes) : option (IpAddr * Z) :=
  parse_with (fun s => match read_socket_addr_v4 s with
                       | Some r => Some r
                       | None => read_socket_addr_v6 s
                       end) s.

(** ** [struct TcpConfig] *)
Section TcpConfig.
Context {A : Type}.

(** [A] is the type of the adapters the factory makes; the factory already
    holds the resolver. *)
Record TcpConfig : Type := mkTcpConfig {
  tc_ports : list Z;
  tc_host : bytes;
  tc_workers : Z;
  tc_max_connections : Z;
  tc_max_coroutine : Z;
  tc_socket_buffer_size : Z;
  tc_buffer_output_size : Z;
  tc_reactor_num : Z;
  tc_enable_reuse_port : bool;
  tc_backlog : Z;
  tc_package_max_length : Z;
  tc_tcp_keepidle : Z;
  tc_tcp_keepinterval : Z;
  tc_tcp_keepcount : Z;
  tc_tcp_user_timeout_ms : Z;
  tc_tcp_quickack : bool;
  tc_enable_coroutine : bool;
  tc_max_wait_time : Z;
  tc_log_connections : bool;
  tc_receive_buffer_size : Z;
  tc_gc_interval_ms : Z;
  tc_dns_cache_ttl : Z;
  tc_tcp_notsent_lowat : Z;
  tc_sockmap_enabled : bool;
  tc_sockmap_bpf_object : bytes;
  tc_timeout : Z;
  tc_connect_timeout : Z;
  tc_skip_validation : bool;
  tc_cache_ttl : Z;
  tc_tls : option Tls;
  tc_adapter_factory : option (Z -> A) }.

(** [u32::saturating_mul(2)]. *)
Definition saturating_double (max : Z) : Z := Z.min (max * 2) (2 ^ 32 - 1).

(** [num_cpus], given what [available_parallelism] answered. *)
Definition num_cpus (available : option Z) : Z := unwrap_or 1 available.

(** [TcpConfig::new]. *)
Definition tcp_config_new (available : option Z) (ports : list Z) : TcpConfig := {|
  tc_ports := ports;
  tc_host := B "0.0.0.0";
  tc_workers := num_cpus available;
  tc_max_connections := 200000;
  tc_max_coroutine := saturating_double 200000;
  tc_socket_buffer_size := 32 * 1024;
  tc_buffer_output_size := 32 * 1024;
  tc_reactor_num := num_cpus available;
  tc_enable_reuse_port := true;
  tc_backlog := 65535;
  tc_package_max_length := 32 * 1024 * 1024;
  tc_tcp_keepidle := 30;
  tc_tcp_keepinterval := 10;
  tc_tcp_keepcount := 3;
  tc_tcp_user_timeout_ms := 10000;
  tc_tcp_quickack := true;
  tc_enable_coroutine := true;
  tc_max_wait_time := 60;
  tc_log_connections := false;
  tc_receive_buffer_size := 8192;
  tc_gc_interval_ms := 5000;
  tc_dns_cache_ttl := 60;
  tc_tcp_notsent_lowat := 16384;
  tc_sockmap_enabled := false;
  tc_sockmap_bpf_object := [];
  tc_timeout := from_secs 30;
  tc_connect_timeout := from_secs 5;
  tc_skip_validation := false;
  tc_cache_ttl := 0;
  tc_tls := None;
  tc_adapter_factory := None |}.

(** The builders. *)
Definition tcp_fields (c : TcpConfig) : TcpConfig :=
  mkTcpConfig (tc_ports c) (tc_host c) (tc_workers c) (tc_max_connections c) (tc_max_coroutine c)
    (tc_socket_buffer_size c) (tc_buffer_output_size c) (tc_reactor_num c) (tc_enable_reuse_port c)
    (tc_backlog c) (tc_package_max_length c) (tc_tcp_keepidle c) (tc_tcp_keepinterval c)
    (tc_tcp_keepcount c) (tc_tcp_user_timeout_ms c) (tc_tcp_quickack c) (tc_enable_coroutine c)
    (tc_max_wait_time c) (tc_log_connections c) (tc_receive_buffer_size c) (tc_gc_interval_ms c)
    (tc_dns_cache_ttl c) (tc_tcp_notsent_lowat c) (tc_sockmap_enabled c) (tc_sockmap_bpf_object c)
    (tc_timeout c) (tc_connect_timeout c) (tc_skip_validation c) (tc_cache_ttl c) (tc_tls c)
    (tc_adapter_factory c).
Definition tcp_with_host (host : bytes) (c : TcpConfig) : TcpConfig :=
  ltac:(update tcp_fields tc_host host c).
Definition tcp_with_workers (workers : Z) (c : TcpConfig) : TcpConfig :=
  ltac:(update tcp_fields tc_workers workers c).
Definition tcp_with_reactor_num (reactor_num : Z) (c : TcpConfig) : TcpConfig :=
  ltac:(update tcp_fields tc_reactor_num reactor_num c).
Definition tcp_with_max_coroutine (n : Z) (c : TcpConfig) : TcpConfig :=
  ltac:(update tcp_fields tc_max_coroutine n c).
Definition tcp_with_max_connections (max : Z) (c : TcpConfig) : TcpConfig :=
  let c := tcp_with_max_coroutine (saturating_double max) c in
  ltac:(update tcp_fields tc_max_connections max c).
Definition tcp_with_tls (tls : Tls) (c : TcpConfig) : TcpConfig :=
  ltac:(update tcp_fields tc_tls (Some tls) c).
Definition tcp_with_skip_validation (skip : bool) (c : TcpConfig) : TcpConfig :=
  ltac:(update tcp_fields tc_skip_validation skip c).
Definition tcp_with_cache_ttl (ttl_seconds : Z) (c : TcpConfig) : TcpConfig :=
  ltac:(update tcp_fields tc_cache_ttl ttl_seconds c).
Definition tcp_with_timeout (timeout : Z) (c : TcpConfig) : TcpConfig :=
  ltac:(update tcp_fields tc_timeout timeout c).
Definition tcp_with_connect_timeout (timeout : Z) (c : TcpConfig) : TcpConfig :=
  ltac:(update tcp_fields tc_connect_timeout timeout c).
Definition tcp_with_sockmap_enabled (enabled : bool) (c : TcpConfig) : TcpConfig :=
  ltac:(update tcp_fields tc_sockmap_enabled enabled c).
Definition tcp_with_sockmap (bpf_object : bytes) (c : TcpConfig) : TcpConfig :=
  let c := tcp_with_sockmap_enabled true c in
  ltac:(update tcp_fields tc_sockmap_bpf_object bpf_object c).
Definition tcp_with_adapter_factory (factory : Z -> A) (c : TcpConfig) : TcpConfig :=
  ltac:(update tcp_fields tc_adapter_factory (Some factory) c).

(** [is_tls_enabled]. *)
Definition is_tls_enabled (c : TcpConfig) : bool := bool_decide (is_Some (tc_tls c)).

(** ** Socket options ([sockopts.rs], Linux) *)
Context `{Env} {S E : Type}.

Definition SOL_TCP_FASTOPEN : Z := 23.
Definition SOL_TCP_DEFER_ACCEPT : Z := 9.

(** [apply_listener]: it never fails. *)
Definition apply_listener (listener : sock) (config : TcpConfig) : M S E unit :=
  (if tc_enable_reuse_port config then io_call (SetReusePort listener) ;; ret tt else ret tt) ;;
  io_sockopt listener IPPROTO_TCP SOL_TCP_FASTOPEN (Z.max (tc_backlog config) 1024) ;;
  io_sockopt listener IPPROTO_TCP SOL_TCP_DEFER_ACCEPT 5.

(** [apply_stream]: only [set_nodelay] can fail it. *)
Definition apply_stream (stream : sock) (config : TcpConfig) : M S E (result io_error unit) :=
  r <- io_call (SetNodelay stream) ;;
  match r with
  | Err e => ret (Err e)
  | Ok _ =>
      (if 0 <? tc_socket_buffer_size config
       then io_call (SetRecvBufferSize stream (tc_socket_buffer_size config)) ;; ret tt
       else ret tt) ;;
      (if 0 <? tc_buffer_output_size config
       then io_call (SetSendBufferSize stream (tc_buffer_output_size config)) ;; ret tt
       else ret tt) ;;
      io_call (SetTcpKeepalive stream (from_secs (tc_tcp_keepidle config))
                 (from_secs (tc_tcp_keepinterval config)) (tc_tcp_keepcount config)) ;;
      (if 0 <? tc_tcp_user_timeout_ms config
       then io_sockopt stream IPPROTO_TCP TCP_USER_TIMEOUT (i32 (tc_tcp_user_timeout_ms config))
       else ret tt) ;;
      (if tc_tcp_quickack config then io_sockopt stream IPPROTO_TCP TCP_QUICKACK 1 else ret tt) ;;
      (if 0 <? tc_tcp_notsent_lowat config
       then io_sockopt stream IPPROTO_TCP TCP_NOTSENT_LOWAT (i32 (tc_tcp_notsent_lowat config))
       else ret tt) ;;
      ret (Ok tt)
  end.
End TcpConfig.
Arguments TcpConfig A : clear implicits.
