(* ===== verification/TcpServer.v ===== *)
(** * TcpServer: the TCP proxy server ([src/server/tcp/server.rs]).

    One connection is a program of [M]: reading the first packet, the
    PostgreSQL STARTTLS upgrade, dialling, the initial bytes, the sockmap or the
    copy loop, the clean-up.  Loops that a peer can keep going take a fuel and
    answer [None] when it is used up. *)

From S2P Require Import Prelude Text Net Protocol Resolver World Stores Dns Adapter Tls Sockmap.
From S2P Require Import TcpAdapter TcpConfig.
Open Scope Z_scope.

(** Untimed [write_all] and [flush], an error becoming [ProxyError::Io]. *)
Definition write_all `{Env} {S} (s : sock) (data : bytes) : M S ProxyError unit :=
  r <- io_write s data ;; lift (map_err PIo (settle r)).
Definition flush `{Env} {S} (s : sock) : M S ProxyError unit :=
  r <- io_flush s ;; lift (map_err PIo (settle r)).

(** Runs [m], which owns the stream [s], and drops the stream when it is done;
    [None]: it is not done. *)
Definition dropping `{Env} {S E A} (s : sock) (m : M S E (option A)) : M S E (option A) :=
  fun st t =>
    match m st t with
    | (Ok None, st', t') => (Ok None, st', t')
    | (r, st', t') => (r, st', EvClose s :: t')
    end.

Section TcpServer.
Context `{Env} {CD CR KC KP : Type} `{TtlCache bytes IpAddr CD} `{TtlCache bytes CacheEntry CR}.
Context `{KvStore sock TcpClient KC} `{KvStore sock sock KP} `{BpfLib U Obj}.

Abbreviation State := (TcpState CD CR KC KP Obj).

(** ** One client *)

(** The loop of [read_some]: [try_read], waiting again on [WouldBlock]. *)
Fixpoint try_read_loop {S} (fuel : nat) (stream : sock) (max : nat) : M S ProxyError (option bytes) :=
  match fuel with
  | O => ret None
  | Datatypes.S fuel' =>
      r <- io_read stream max ;;
      match settle r with
      | Ok data => ret (Some data)
      | Err e =>
          match io_error_kind e with
          | WouldBlock =>
              r <- io_readable stream ;;
              lift (map_err PIo r) ;;
              try_read_loop fuel' stream max
          | _ => fail (PIo e)
          end
      end
  end.

(** [read_some]. *)
Definition read_some {S} (fuel : nat) (stream : sock) (max : nat) : M S ProxyError (option bytes) :=
  r <- io_readable stream ;;
  lift (map_err PIo r) ;;
  try_read_loop fuel stream max.

(** [send_to_backend]. *)
Definition send_to_backend {S} (backend : TcpClient) (data : bytes) : M S ProxyError unit :=
  write_all (c_stream backend) data ;;
  flush (c_stream backend).

(** [forward_serialised]: the side that is ready is read and its bytes written
    to the other; end of stream or any error on either side ends it. *)
Fixpoint forward_serialised {S} (fuel : nat) (client : sock) (backend : TcpClient) (buf_size : nat)
  : M S ProxyError (option unit) :=
  match fuel with
  | O => ret None
  | Datatypes.S fuel' =>
      client_ready <- io_select ;;
      let '(from, to) := if client_ready : bool then (client, c_stream backend)
                         else (c_stream backend, client) in
      r <- io_read from buf_size ;;
      match settle r with
      | Err _ | Ok [] => ret (Some tt)
      | Ok data =>
          w <- io_write to data ;;
          match settle w with
          | Err _ => ret (Some tt)
          | Ok _ => forward_serialised fuel' client backend buf_size
          end
      end
  end.

(** [bidirectional_copy].  [Arc::try_unwrap] succeeds when the connection table
    no longer holds the backend of [client]. *)
Definition bidirectional_copy (fuel : nat) (client : sock) (backend : TcpClient) (buf_size : nat)
  : M State ProxyError (option unit) :=
  s <- get ;;
  if bool_decide (kv_get (ta_connections (ts_adapter s)) client = Some backend)
  then forward_serialised fuel client backend buf_size
  else io_copy_bidirectional client (c_stream backend) ;; ret (Some tt).

(** [wait_for_close]: one read of one byte, whatever it answers. *)
Definition wait_for_close {S E} (stream : sock) : M S E unit :=
  io_read stream 1 ;; ret tt.

(** What a connection task needs of [Shared]. *)
Record Shared : Type := mkShared {
  sh_receive_buffer_size : Z;
  sh_tls_acceptor : bool }.

(** The STARTTLS branch of [run_client]: answer 'S', TLS, then the real startup
    packet. *)
Definition run_starttls (fuel : nat) (client : sock) (buf_size : nat)
  : M State ProxyError (option unit) :=
  write_all client [PG_SSL_RESPONSE_OK] ;;
  flush client ;;
  r <- io_tls_accept client ;;
  lift (map_err (fun e => PTls (B "PostgreSQL STARTTLS accept failed: " ++ io_message e)) r) ;;
  r <- io_read client buf_size ;;
  post <- lift (map_err PIo (settle r)) ;;
  match post with
  | [] => ret (Some tt)
  | _ :: _ =>
      backend <- get_connection post client ;;
      send_to_backend backend post ;;
      bidirectional_copy fuel client backend buf_size
  end.

(** The plain branch. *)
Definition run_plain (fuel : nat) (client : sock) (initial : bytes) (buf_size : nat)
  : M State ProxyError (option unit) :=
  backend <- get_connection initial client ;;
  send_to_backend backend initial ;;
  active <- activate_sockmap client ;;
  if active : bool then wait_for_close client ;; ret (Some tt)
  else bidirectional_copy fuel client backend buf_size.

(** [run_client]. *)
Definition run_client (fuel : nat) (sh : Shared) (port : Z) (client : sock)
  : M State ProxyError (option unit) :=
  let buf_size := Z.to_nat (sh_receive_buffer_size sh) in
  dropping client (
    first <- read_some fuel client buf_size ;;
    match first with
    | None => ret None
    | Some [] => ret (Some tt)
    | Some initial =>
        if (port =? 5432) && sh_tls_acceptor sh && is_postgresql_ssl_request initial
        then run_starttls fuel client buf_size
        else run_plain fuel client initial buf_size
    end).

(** [handle_connection], for a port that has an adapter. *)
Definition handle_client (fuel : nat) (sh : Shared) (port : Z) (client : sock)
  : M State ProxyError (option unit) :=
  result <- attempt (run_client fuel sh port client) ;;
  match result with
  | Ok None => ret None
  | _ => close_connection client ;; lift result
  end.

(** ** The server *)

Context `{FileSystem} `{Rustls Cert Key Roots Verifier Config}.

(** [struct Shared] and the process-wide state. *)
Record TcpServer : Type := mkTcpServer {
  sv_config : TcpConfig (TcpAdapter CR KC KP);
  sv_adapters : gmap Z (TcpAdapter CR KC KP);
  sv_tls_acceptor : option Config;
  sv_dns : Dns CD;
  sv_sockmap : Sockmap Obj }.

Definition sv_shared (s : TcpServer) : Shared :=
  mkShared (tc_receive_buffer_size (sv_config s)) (bool_decide (is_Some (sv_tls_acceptor s))).

(** Runs on the adapter of a port. *)
Definition on_port {E A} (port : Z) (a : TcpAdapter CR KC KP) (m : M State E A) : M TcpServer E A :=
  fun s t =>
    let '(r, x, t') := m (mkTcpState a (sv_dns s) (sv_sockmap s)) t in
    (r, mkTcpServer (sv_config s) (<[port := ts_adapter x]> (sv_adapters s)) (sv_tls_acceptor s)
          (ts_dns x) (ts_sockmap x), t').

(** [handle_connection]. *)
Definition handle_connection (fuel : nat) (port : Z) (client : sock)
  : M TcpServer ProxyError (option unit) :=
  s <- get ;;
  match sv_adapters s !! port with
  | None =>
      io_close client ;;
      fail (PConfiguration (B "no adapter for port " ++ print_dec port))
  | Some a => on_port port a (handle_client fuel (sv_shared s) port client)
  end.

(** One round of [accept_loop]; the connection's task runs at once. *)
Definition accept_once (fuel : nat) (listener port : sock) : M TcpServer ProxyError unit :=
  s <- get ;;
  r <- io_call (Accept listener) ;;
  match r with
  | Ok client =>
      apply_stream client (sv_config s) ;;
      attempt (handle_connection fuel port client) ;;
      ret tt
  | Err _ => io_sleep (from_millis 50)
  end.

(** [bind_port]: on an error after the socket exists, it is dropped. *)
Definition bind_port {S} (config : TcpConfig (TcpAdapter CR KC KP)) (port : Z) : M S io_error sock :=
  match parse_socket_addr (tc_host config ++ colon :: print_dec port) with
  | None => fail (mkIoError InvalidInput (B "invalid socket address syntax"))
  | Some addr =>
      r <- io_call (SocketNew (negb (is_ipv4 (fst addr)))) ;;
      socket <- lift r ;;
      let checked c :=
        (r <- io_call c ;;
         match r with
         | Ok _ => ret tt
         | Err e => io_close socket ;; fail e
         end) in
      checked (SetNonblocking socket) ;;
      checked (SetReuseAddress socket) ;;
      (if tc_enable_reuse_port config then io_call (SetReusePort socket) ;; ret tt else ret tt) ;;
      checked (Bind socket addr) ;;
      checked (Listen socket (Z.max (tc_backlog config) 1)) ;;
      checked (ListenerFromStd socket) ;;
      apply_listener socket config ;;
      ret socket
  end.

(** The adapter [start] builds for a port. *)
Definition build_adapter (resolver : Resolve) (config : TcpConfig (TcpAdapter CR KC KP))
    (sockmap : bool) (port : Z) : TcpAdapter CR KC KP :=
  let a := match tc_adapter_factory config with
           | Some factory => factory port
           | None => tcp_adapter_new port (Some resolver)
           end in
  let a := set_timeout (tc_timeout config) a in
  let a := set_connect_timeout (tc_connect_timeout config) a in
  let a := set_tcp_user_timeout (tc_tcp_user_timeout_ms config) a in
  let a := set_tcp_quickack (tc_tcp_quickack config) a in
  let a := set_tcp_notsent_lowat (tc_tcp_notsent_lowat config) a in
  let a := set_sockmap sockmap a in
  let a := if tc_skip_validation config then on_base (set_skip_validation true) a else a in
  if 0 <? tc_cache_ttl config then on_base (set_cache_ttl (tc_cache_ttl config)) a else a.

(** [build_tls_acceptor]. *)
Definition build_tls_acceptor (tls : Tls) : result bytes Config := rustls_server_config tls.

(** The state [start] builds before it binds. *)
Definition prepare (resolver : Resolve) (dns : Dns CD) (config : TcpConfig (TcpAdapter CR KC KP))
  : result io_error TcpServer :=
  if bool_decide (tc_ports config = []) then
    Err (mkIoError InvalidInput (B "TcpConfig::ports must not be empty"))
  else
    let tls_error e := mkIoError InvalidInput (B "TLS: " ++ e) in
    let? _ := match tc_tls config with
              | Some tls => map_err tls_error (tls_validate tls)
              | None => Ok tt
              end in
    let? acceptor := match tc_tls config with
                     | Some tls => let? c := map_err tls_error (build_tls_acceptor tls) in Ok (Some c)
                     | None => Ok None
                     end in
    let loader := sockmap_new (tc_sockmap_bpf_object config) in
    let '(sockmap, loader) :=
      if tc_sockmap_enabled config && bool_decide (tc_sockmap_bpf_object config <> [])
      then sockmap_load loader else (false, loader) in
    let adapters := fold_left (fun m port => <[port := build_adapter resolver config sockmap port]> m)
                      (tc_ports config) ∅ in
    Ok (mkTcpServer config adapters acceptor dns loader).

(** Binds every port, in order; an error stops the start. *)
Fixpoint bind_ports {S} (config : TcpConfig (TcpAdapter CR KC KP)) (ports : list Z)
  : M S io_error (list (sock * Z)) :=
  match ports with
  | [] => ret []
  | port :: rest =>
      listener <- bind_port config port ;;
      others <- bind_ports config rest ;;
      ret ((listener, port) :: others)
  end.

(** [TcpServer::start] up to the accept loops: the server and its listeners. *)
Definition start (resolver : Resolve) (dns : Dns CD) (config : TcpConfig (TcpAdapter CR KC KP))
  : M unit io_error (TcpServer * list (sock * Z)) :=
  server <- lift (prepare resolver dns config) ;;
  listeners <- bind_ports config (tc_ports config) ;;
  ret (server, listeners).
End TcpServer.
Arguments TcpServer CD CR KC KP Obj Config : clear implicits.

(** ** [struct Connection] ([connection.rs])

    The per-client state the crate exports (the server itself does not use
    it). *)
Record Connection : Type := mkConnection {
  cn_backend : option TcpClient;
  cn_port : Z;
  cn_pending_tls : bool;
  cn_inbound : Z;
  cn_outbound : Z }.

Definition connection_new (port : Z) : Connection := mkConnection None port false 0 0.
Definition connection_reset (_ : Connection) : Connection := mkConnection None 0 false 0 0.
Definition connection_default : Connection := connection_new 0.

Lemma connection_reset_default c : connection_reset c = connection_default.
Proof. done. Qed.
