(* ===== verification/TcpRelay.v ===== *)
(** * TcpRelay: what the TCP server does with the bytes of a connection.

    The copy loop relays each direction faithfully, and a whole connection
    gives the backend exactly what the client sent. *)

From S2P Require Import Prelude Text Net Protocol Resolver World Stores Dns Adapter Ssrf Routing.
From S2P Require Import Tls Sockmap TcpAdapter TcpConnections TcpConfig TcpServer.
Open Scope Z_scope.

(** ** The copy loop *)

(** The events of the copy loop. *)
Definition relay_event (client backend : sock) (ev : event) : Prop :=
  match ev with
  | EvSelect _ => True
  | EvRead s _ _ | EvWrite s _ _ => s = client \/ s = backend
  | _ => False
  end.

(** Why the copy loop stops: the newest event is an end of stream, a failed
    read or a failed write. *)
Definition relay_ended (l : trace) : Prop :=
  match l with
  | EvRead _ _ r :: _ => settle r = Ok [] \/ exists e, settle r = Err e
  | EvWrite _ _ r :: _ => exists e, settle r = Err e
  | _ => False
  end.

(** Both directions carry what was read, in order. *)
Definition relayed (client backend : sock) (l : trace) : Prop :=
  sent backend l = received client l /\ sent client l = received backend l.

Lemma relayed_app client backend l1 l2 :
  relayed client backend l1 -> relayed client backend l2 -> relayed client backend (l2 ++ l1).
Proof. intros [? ?] [? ?]. split; rewrite sent_app, received_app; congruence. Qed.

Lemma relayed_silent client backend l : Forall no_data l -> relayed client backend l.
Proof.
  intros Hl. unfold relayed.
  by destruct (no_data_silent client l Hl) as [-> ->], (no_data_silent backend l Hl) as [-> ->].
Qed.

(** One chunk read from one side and written to the other. *)
Lemma relayed_chunk client backend (b : bool) max data r :
  client <> backend ->
  relayed client backend
    [EvWrite (if b then backend else client) data r;
     EvRead (if b then client else backend) max (Done (Ok data)); EvSelect b].
Proof.
  intros Hne. unfold relayed. cbn. destruct b; cbn;
    repeat match goal with |- context [?x =? ?y] => destruct (Z.eqb_spec x y) end; done.
Qed.

Section Relay.
Context `{Env} {S : Type}.

Definition relay_post (fuel : nat) (client backend : sock) (s : S) t
    (r : result ProxyError (option unit)) (s' : S) (t' : trace) : Prop :=
  s' = s /\ exists l, t' = l ++ t
  /\ Forall (relay_event client backend) l /\ relayed client backend l
  /\ match r with
     | Ok (Some _) => relay_ended l
     | Ok None => (fuel <= List.length (received client l) + List.length (received backend l))%nat
     | Err _ => False
     end.

Lemma wp_forward_serialised fuel client (backend : TcpClient) buf_size (s : S) t :
  client <> c_stream backend ->
  wp (forward_serialised fuel client backend buf_size)
    (relay_post fuel client (c_stream backend) s t) s t.
Proof.
  intros Hne. revert t. induction fuel as [|fuel IH]; intros t; cbn [forward_serialised].
  { apply wp_ret. split; [done|]. exists []. split; [done|]. split; [constructor|].
    split; [by apply relayed_silent|cbn; lia]. }
  wp_step. wp_step. set (b := env_select t).
  replace (if b then (client, c_stream backend) else (c_stream backend, client))
    with (if b then client else c_stream backend, if b then c_stream backend else client)
    by by destruct b.
  set (from := if b then client else c_stream backend).
  set (to := if b then c_stream backend else client).
  wp_step. wp_step. set (t1 := EvSelect b :: t). set (r := env_read t1 from buf_size).
  assert (Hfrom : from = client \/ from = c_stream backend) by (subst from; destruct b; auto).
  assert (Hto : to = client \/ to = c_stream backend) by (subst to; destruct b; auto).
  assert (Hend : settle r = Ok [] \/ (exists e, settle r = Err e) ->
                 relay_post (Datatypes.S fuel) client (c_stream backend) s t (Ok (Some tt)) s
                   (EvRead from buf_size r :: t1)).
  { intros Hr. split; [done|]. exists [EvRead from buf_size r; EvSelect b].
    split; [done|]. split; [forall_events|]. unfold relayed. by rewrite !received_end. }
  destruct (settle r) as [[|c data]|e] eqn:Er.
  - apply wp_ret, Hend. by left.
  - apply settle_ok in Er as ->.
    wp_step. wp_step.
    pose proof (relayed_chunk client (c_stream backend) b buf_size (c :: data)
                  (env_write (EvRead from buf_size (Done (Ok (c :: data))) :: t1) to (c :: data)) Hne) as Hrel.
    fold from to in Hrel.
    destruct (settle (env_write _ _ _)) as [[]|e] eqn:Ew.
    + eapply wp_mono; [apply IH|]. intros r' s' t' (-> & l & -> & Hev & Hl & Hr).
      split; [done|]. eexists (l ++ [_; _; _]). split; [by rewrite <- app_assoc|].
      split; [apply Forall_app; split; [done|forall_events]|].
      split; [by apply relayed_app|].
      destruct r' as [[[]|]|]; [by destruct l|rewrite !received_app, !length_app|done].
      cbn. fold from. subst from. destruct b; cbn; rewrite ?Z.eqb_refl; cbn;
        repeat match goal with |- context [?x =? ?y] => destruct (Z.eqb_spec x y) end; cbn; lia.
    + apply wp_ret. split; [done|]. eexists [_; _; _]. split; [done|].
      split; [forall_events|]. split; [done|]. cbn. by eexists.
  - apply wp_ret, Hend. by right; eexists.
Qed.
End Relay.

(** ** The pieces of a connection *)

Definition no_connect (ev : event) : Prop :=
  match ev with EvConnect _ _ _ => False | _ => True end.

Section Pieces.
Context `{Env} {S : Type}.

(** The events of waiting for and reading the first packet. *)
Definition read_event (s : sock) (ev : event) : Prop :=
  match ev with
  | EvReadable s' _ => s' = s
  | EvRead s' _ _ => s' = s
  | _ => False
  end.

Definition first_bytes (r : result ProxyError (option bytes)) : bytes :=
  match r with Ok (Some data) => data | _ => [] end.

Lemma wp_try_read_loop fuel stream max (Q : result ProxyError (option bytes) -> S -> trace -> Prop) s t :
  (forall r l, Forall (read_event stream) l -> received stream l = first_bytes r -> Q r s (l ++ t)) ->
  wp (try_read_loop fuel stream max) Q s t.
Proof.
  revert t. induction fuel as [|fuel IH]; intros t HQ; cbn [try_read_loop].
  { by apply wp_ret, (HQ (Ok None) []). }
  wp_step. wp_step. set (r := env_read t stream max).
  destruct (settle r) as [data|e] eqn:Er.
  { apply settle_ok in Er as ->. apply wp_ret, (HQ (Ok (Some data)) [_]); [forall_events|].
    cbn. by rewrite Z.eqb_refl. }
  assert (Hr : forall l, received stream (EvRead stream max r :: l) = received stream l).
  { apply received_end. right. by eexists. }
  assert (Hr2 : forall w, received stream [EvReadable stream w; EvRead stream max r] = [])
    by (intros w; apply (Hr [])).
  assert (Hfail : Q (Err (PIo e)) s (EvRead stream max r :: t)).
  { apply (HQ (Err (PIo e)) [_]); [forall_events|by rewrite Hr]. }
  destruct (io_error_kind e); try by apply wp_fail.
  wp_step. wp_step. wp_step. apply wp_lift.
  destruct (env_readable _ stream) as [[]|e'] eqn:Ew; cbn [map_err].
  - apply IH. intros r' l Hl Hd.
    rewrite app_cons2. apply HQ.
    + apply Forall_app. split; [done|forall_events].
    + by rewrite received_app, Hr2.
  - apply (HQ (Err (PIo e')) [_; _]); [forall_events|apply Hr2].
Qed.

Lemma wp_read_some fuel stream max (Q : result ProxyError (option bytes) -> S -> trace -> Prop) s t :
  (forall r l, Forall (read_event stream) l -> received stream l = first_bytes r -> Q r s (l ++ t)) ->
  wp (read_some fuel stream max) Q s t.
Proof.
  intros HQ. unfold read_some. wp_step. wp_step. wp_step. apply wp_lift.
  destruct (env_readable t stream) as [[]|e]; cbn [map_err].
  - apply wp_try_read_loop. intros r l Hl Hd. rewrite app_cons1. apply HQ.
    + apply Forall_app. split; [done|forall_events].
    + by rewrite received_app.
  - apply (HQ (Err (PIo e)) [_]); [forall_events|done].
Qed.

(** The events of writing to the backend. *)
Definition write_event (s : sock) (ev : event) : Prop :=
  match ev with
  | EvWrite s' _ _ | EvFlush s' _ => s' = s
  | _ => False
  end.

Lemma wp_send_to_backend (backend : TcpClient) data (Q : result ProxyError unit -> S -> trace -> Prop) s t :
  (forall r l, Forall (write_event (c_stream backend)) l -> sent (c_stream backend) l = data ->
     Q r s (l ++ t)) ->
  wp (send_to_backend backend data) Q s t.
Proof.
  intros HQ. unfold send_to_backend, write_all, flush. wp_step. wp_step. wp_step. apply wp_lift.
  destruct (settle _) as [[]|e]; cbn [map_err].
  - wp_step. wp_step. apply wp_lift. apply (HQ _ [_; _]); [forall_events|].
    cbn. by rewrite Z.eqb_refl.
  - apply (HQ _ [_]); [forall_events|]. cbn. by rewrite Z.eqb_refl.
Qed.

Lemma inert_try_read_loop fuel stream max : inert no_connect (try_read_loop (S := S) fuel stream max).
Proof. induction fuel; cbn [try_read_loop]; inert_steps; done. Qed.
Lemma inert_read_some fuel stream max : inert no_connect (read_some (S := S) fuel stream max).
Proof. unfold read_some. inert_steps; try done. apply inert_try_read_loop. Qed.
Lemma inert_send_to_backend backend data : inert no_connect (send_to_backend (S := S) backend data).
Proof. unfold send_to_backend, write_all, flush. inert_steps; done. Qed.
Lemma inert_forward_serialised fuel client backend n :
  inert no_connect (forward_serialised (S := S) fuel client backend n).
Proof. induction fuel; cbn [forward_serialised]; inert_steps; done. Qed.
End Pieces.
