(* ===== verification/TcpSessions.v ===== *)
(** * TcpSessions: guarantees of a whole TCP connection.

    From accepting to cleaning up: which backends are dialled, what is left
    behind, what reaches the backend, and what a reused descriptor does. *)

From S2P Require Import Prelude Text Net Protocol Resolver World Stores Dns Adapter Ssrf Routing.
From S2P Require Import Tls Sockmap TcpAdapter TcpConnections TcpConfig TcpServer TcpRelay.
Open Scope Z_scope.

Section Sessions.
Context `{Env} {CD CR KC KP : Type} `{TtlCacheLaws bytes IpAddr CD} `{TtlCacheLaws bytes CacheEntry CR}.
Context `{KvStore sock TcpClient KC, !KvStoreLaws sock TcpClient KC}.
Context `{KvStore sock sock KP, !KvStoreLaws sock sock KP} `{BpfLib U Obj}.

Abbreviation State := (TcpState CD CR KC KP Obj).
Implicit Types (s : State) (t l : trace).

Definition conns s : KC := ta_connections (ts_adapter s).
Definition pairs s : KP := ta_sockmap_pairs (ts_adapter s).

(** ** The invariant of serving one client *)

(** Only endpoints admitted by routing are dialled. *)
Definition dial_ok (P : bytes -> Prop) (default_port : Z) (ev : event) : Prop :=
  match ev with
  | EvConnect host port _ => exists out, P out /\ parse_endpoint out default_port = (host, port)
  | _ => True
  end.

(** Every backend socket opened in [l] was closed in [l] or is the connection
    of [client]. *)
Definition accounted (k : KC) (client : sock) l : Prop :=
  forall host port c, EvConnect host port (Done (Ok c)) ∈ l ->
  EvClose c ∈ l \/ exists cl, kv_get k client = Some cl /\ c_stream cl = c.

(** What holds while [client] is served, since [s0] and [t0]. *)
Record serving (P : bytes -> Prop) (client : sock) s0 t0 s t : Prop := mkServing {
  sv_endpoints : endpoints_ok P (ts_routing s) t;
  sv_port : ta_port (ts_adapter s) = ta_port (ts_adapter s0);
  sv_sockmap_set : ta_sockmap (ts_adapter s) = ta_sockmap (ts_adapter s0);
  sv_others : forall fd, fd <> client ->
    kv_get (conns s) fd = kv_get (conns s0) fd /\ kv_get (pairs s) fd = kv_get (pairs s0) fd;
  sv_pairs : pairs_connected (ts_adapter s);
  sv_history : exists l, t = l ++ t0 /\ Forall (dial_ok P (ta_port (ts_adapter s0))) l
                         /\ accounted (conns s) client l }.

Lemma serving_start P client s t :
  endpoints_ok P (ts_routing s) t -> pairs_connected (ts_adapter s) ->
  serving P client s t s t.
Proof.
  intros He Hp. split; try done. exists []. split; [done|]. split; [constructor|].
  intros ? ? ? Hin. by apply elem_of_nil in Hin.
Qed.

Lemma accounted_cons k client ev l :
  no_connect ev -> accounted k client l -> accounted k client (ev :: l).
Proof.
  intros Hev Ha host port c [<-|Hin]%elem_of_cons; [done|].
  destruct (Ha _ _ _ Hin) as [?|?]; [left; by right|by right].
Qed.

Lemma serving_cons P client s0 t0 s t ev :
  serving P client s0 t0 s t -> no_connect ev -> serving P client s0 t0 s (ev :: t).
Proof.
  intros [He Hp Hs Ho Hpc (l & -> & Hd & Ha)] Hev. split; try done.
  { by apply endpoints_ok_cons. }
  exists (ev :: l). split; [done|]. split; [constructor; [by destruct ev|done]|].
  by apply accounted_cons.
Qed.

Lemma accounted_quiet k client l' l :
  Forall no_connect l' -> accounted k client l -> accounted k client (l' ++ l).
Proof. induction 1; [done|]. intros. apply accounted_cons; auto. Qed.

Lemma routing_no_connect ev : routing_event ev -> no_connect ev.
Proof. by destruct ev. Qed.

Lemma quiet_dial_ok P port l : Forall no_connect l -> Forall (dial_ok P port) l.
Proof. intros Hl. eapply Forall_impl; [exact Hl|]. by intros []. Qed.

(** The events of a dialling, as seen by the invariant. *)
Lemma dial_events_ok P out port host p r l :
  P out -> parse_endpoint out port = (host, p) -> dial_events host p r l ->
  Forall (dial_ok P port) l.
Proof.
  intros HP Hp Hd.
  assert (Hc : forall o, dial_ok P port (EvConnect host p o)) by (intros o; by exists out).
  destruct r as [c|e]; cbn in Hd.
  - destruct Hd as (_ & opts & Ho & ->). apply Forall_app. split.
    + apply quiet_dial_ok. eapply Forall_impl; [exact Ho|]. by intros [].
    + by repeat constructor.
  - destruct Hd as [->|[(e' & ->)|(c & e' & ->)]]; by repeat constructor.
Qed.

Lemma dial_events_accounted k client cl host p l :
  dial_events host p (Ok (c_fd cl)) l -> c_stream cl = c_fd cl -> kv_get k client = Some cl ->
  accounted k client l.
Proof.
  intros (_ & opts & Ho & ->) Hc Hk host' port' c Hin. right. exists cl. split; [done|].
  apply elem_of_app in Hin as [Hin|Hin].
  - rewrite Forall_forall in Ho. by apply Ho in Hin.
  - rewrite Hc. repeat (apply elem_of_cons in Hin as [Hin|Hin]; [by simplify_eq|]).
    by apply elem_of_nil in Hin.
Qed.

Lemma dial_events_failed k client e host p l :
  dial_events host p (Err e) l -> accounted k client l.
Proof.
  intros Hd host' port' c Hin. left.
  destruct Hd as [->|[(e' & ->)|(c' & e' & ->)]];
    repeat (apply elem_of_cons in Hin as [Hin|Hin]; [simplify_eq; try set_solver|]);
    by apply elem_of_nil in Hin.
Qed.

Lemma accounted_app k client l1 l2 :
  accounted k client l1 -> accounted k client l2 -> accounted k client (l2 ++ l1).
Proof.
  intros H1' H2' host port c [Hin|Hin]%elem_of_app.
  - destruct (H2' _ _ _ Hin) as [?|?]; [left; set_solver|by right].
  - destruct (H1' _ _ _ Hin) as [?|?]; [left; set_solver|by right].
Qed.

Lemma maintains_get_connection P client s0 t0 data :
  maintains (serving P client s0 t0) (get_connection data client).
Proof.
  intros s t [He Hp Hs Ho Hpc (l & -> & Hd & Ha)].
  eapply wp_mono; [by apply (wp_get_connection P data client)|].
  intros r s' t' (He' & Hpairs & Hs' & Hp' & _ & Hr).
  destruct (kv_get (ta_connections (ts_adapter s)) client) as [cl|] eqn:Ec.
  { destruct Hr as (-> & -> & ->). split; try done. by exists l. }
  destruct Hr as (routed & (lr & -> & Hlr) & Hr).
  assert (Hquiet : Forall no_connect lr) by (eapply Forall_impl; [exact Hlr|apply routing_no_connect]).
  assert (Hnone : kv_get (pairs s) client = None).
  { destruct (kv_get (pairs s) client) as [b|] eqn:Eb; [|done].
    destruct (Hpc _ _ Eb) as (c & Hc & _). by rewrite Ec in Hc. }
  destruct r as [cl|e].
  - destruct Hr as (Hcl & Hconn & out & ld & HP & Hld & ->). split; try congruence.
    + intros fd Hne. destruct (Ho fd Hne) as [<- <-]. unfold conns, pairs. rewrite Hpairs.
      split; [|done]. by rewrite Hconn, decide_False.
    + intros fd b Hb. rewrite Hpairs in Hb. destruct (Hpc _ _ Hb) as (c & Hc & Hcb).
      exists c. split; [|done]. rewrite Hconn, decide_False; [done|]. intros ->. congruence.
    + exists (ld ++ lr ++ l). split; [by rewrite !app_assoc|].
      destruct (parse_endpoint out (ta_port (ts_adapter s))) as [host port] eqn:Ep. cbn [fst snd] in Hld.
      assert (Hk : kv_get (conns s') client = Some cl) by (unfold conns; by rewrite Hconn, decide_True).
      split.
      * apply Forall_app. split; [eapply dial_events_ok; [exact HP| |exact Hld]; congruence|].
        apply Forall_app. split; [by apply quiet_dial_ok|done].
      * apply accounted_app; [|by eapply dial_events_accounted].
        apply accounted_quiet; [done|]. intros h p c Hin.
        destruct (Ha _ _ _ Hin) as [?|(cl' & Hcl' & _)]; [by left|].
        unfold conns in Hcl'. congruence.
  - destruct Hr as (Hconn & Hev).
    split; try congruence.
    + intros fd Hne. unfold conns, pairs. rewrite Hpairs, Hconn. by apply Ho.
    + intros fd b. rewrite Hpairs, Hconn. apply Hpc.
    + assert (Hacc : accounted (conns s') client (lr ++ l)).
      { apply accounted_quiet; [done|]. unfold conns. by rewrite Hconn. }
      assert (Hall : Forall (dial_ok P (ta_port (ts_adapter s0))) (lr ++ l)).
      { apply Forall_app. split; [by apply quiet_dial_ok|done]. }
      destruct Hev as [->|(out & ld & HP & Hld & ->)].
      * exists (lr ++ l). by rewrite app_assoc.
      * exists (ld ++ lr ++ l). split; [by rewrite !app_assoc|].
        destruct (parse_endpoint out (ta_port (ts_adapter s))) as [host port] eqn:Ep. cbn [fst snd] in Hld.
        split.
        -- apply Forall_app. split; [eapply dial_events_ok; [exact HP| |exact Hld]; congruence|done].
        -- apply accounted_app; [done|by eapply dial_events_failed].
Qed.

Lemma maintains_activate_sockmap {E} P client s0 t0 :
  maintains (serving P client s0 t0) (activate_sockmap (E := E) client).
Proof.
  intros s t [He Hp Hs Ho Hpc Hh]. apply wp_activate_sockmap.
  intros b s' Hb Hdns Hconn Hport Hsm Hpairs.
  split; try congruence.
  - unfold ts_routing in *. by rewrite Hb, Hdns.
  - intros fd Hne. destruct (Ho fd Hne) as [<- <-]. unfold conns, pairs. rewrite Hconn.
    split; [done|]. destruct b; [|by rewrite Hpairs].
    destruct Hpairs as (c & _ & Hp'). by rewrite Hp', decide_False.
  - intros fd b'. rewrite Hconn. destruct b; [|rewrite Hpairs; apply Hpc].
    destruct Hpairs as (c & Hc & Hp'). rewrite Hp'. case_decide as Hd; [|apply Hpc].
    intros [= <-]. subst. by exists c.
  - unfold conns. by rewrite Hconn.
Qed.

Lemma maintains_quiet {A E} P client s0 t0 (m : M State E A) :
  inert no_connect m -> maintains (serving P client s0 t0) m.
Proof. apply maintains_inert. intros s t ev. apply serving_cons. Qed.

Lemma inert_write_all {S} fd data : inert no_connect (write_all (S := S) fd data).
Proof. unfold write_all. inert_steps; done. Qed.
Lemma inert_flush {S} fd : inert no_connect (flush (S := S) fd).
Proof. unfold flush. inert_steps; done. Qed.
Lemma inert_wait_for_close {S E} fd : inert no_connect (wait_for_close (S := S) (E := E) fd).
Proof. unfold wait_for_close. inert_steps; done. Qed.
Lemma inert_bidirectional_copy fuel client backend n :
  inert no_connect (bidirectional_copy (CD := CD) (CR := CR) (KC := KC) (KP := KP) (Obj := Obj)
                      fuel client backend n).
Proof. unfold bidirectional_copy. inert_steps; try done. apply inert_forward_serialised. Qed.

#[local] Hint Resolve inert_write_all inert_flush inert_wait_for_close inert_bidirectional_copy
  inert_send_to_backend inert_read_some : proxy.

(** One step of the proof that a connection's program keeps [serving]. *)
Ltac serving_step :=
  first [ maintains_step
        | apply maintains_get_connection
        | apply maintains_activate_sockmap
        | apply maintains_quiet; solve [auto with proxy nocore | inert_steps; done] ].

Lemma wp_run_client P fuel sh port client s0 t0 s t :
  serving P client s0 t0 s t ->
  wp (run_client fuel sh port client)
    (fun r s' t' => (r = Ok None /\ serving P client s0 t0 s' t')
       \/ exists t1, t' = EvClose client :: t1 /\ serving P client s0 t0 s' t1) s t.
Proof.
  unfold run_client. intros Hs.
  assert (Hm : maintains (serving P client s0 t0)
    (first <- read_some fuel client (Z.to_nat (sh_receive_buffer_size sh)) ;;
     match first with
     | None => ret None
     | Some [] => ret (Some tt)
     | Some initial =>
         if (port =? 5432) && sh_tls_acceptor sh && is_postgresql_ssl_request initial
         then run_starttls fuel client (Z.to_nat (sh_receive_buffer_size sh))
         else run_plain fuel client initial (Z.to_nat (sh_receive_buffer_size sh))
     end)).
  { unfold run_starttls, run_plain. repeat serving_step. }
  specialize (Hm s t Hs). unfold wp, dropping in *.
  destruct (bind _ _ s t) as [[[[]|e] s'] t']; [right|left|right]; eauto.
Qed.

(** After a connection: the serving invariant, and on completion nothing of the
    client is left. *)
Definition served (P : bytes -> Prop) (client : sock) s0 t0
    (r : result ProxyError (option unit)) s t : Prop :=
  serving P client s0 t0 s t
  /\ (r <> Ok None ->
      kv_get (conns s) client = None /\ kv_get (pairs s) client = None
      /\ exists l, t = l ++ t0 /\ EvClose client ∈ l
           /\ forall host port c, EvConnect host port (Done (Ok c)) ∈ l -> EvClose c ∈ l).

Lemma serving_closed P client r s t s1 t1 :
  serving P client s t s1 t1 ->
  wp (close_connection client ;; lift r) (served P client s t) s1 (EvClose client :: t1).
Proof.
  intros [He Hp Hs Ho Hpc (l1 & -> & Hd & Ha)]. wp_step. apply wp_close_connection.
  intros s' l Hb Hdns Hport Hsm Hconn Hpairs Hl _. apply wp_lift.
  assert (Hlq : Forall no_connect (l ++ [EvClose client])).
  { apply Forall_app. split; [rewrite Hl; by destruct (kv_get _ _); repeat constructor|].
    by repeat constructor. }
  assert (Hclosed : forall host p c,
    EvConnect host p (Done (Ok c)) ∈ (l ++ [EvClose client]) ++ l1 ->
    EvClose c ∈ (l ++ [EvClose client]) ++ l1).
  { intros host p c [Hin|Hin]%elem_of_app.
    - rewrite Forall_forall in Hlq. by apply Hlq in Hin.
    - apply elem_of_app. destruct (Ha _ _ _ Hin) as [?|(cl & Hcl & <-)]; [by right|left].
      unfold conns in Hcl. rewrite Hcl in Hl. rewrite Hl. by left. }
  rewrite app_cons1, app_assoc. split.
  - split; try congruence.
    + replace (ts_routing s') with (ts_routing s1) by (unfold ts_routing; by rewrite Hb, Hdns).
      rewrite <- app_assoc. by apply endpoints_ok_app.
    + intros fd Hne. unfold conns, pairs. rewrite Hconn, Hpairs, !decide_False by done. by apply Ho.
    + intros fd b. rewrite Hpairs, Hconn. case_decide; [done|apply Hpc].
    + eexists. split; [done|]. split; [apply Forall_app; split; [by apply quiet_dial_ok|done]|].
      intros host p c Hin. left. by eapply Hclosed.
  - intros _. unfold conns, pairs. rewrite Hconn, Hpairs, !decide_True by done.
    split; [done|]. split; [done|]. eexists. split; [done|]. split; [set_solver|]. exact Hclosed.
Qed.

Lemma wp_handle_client P fuel sh port client s t :
  endpoints_ok P (ts_routing s) t -> pairs_connected (ts_adapter s) ->
  wp (handle_client fuel sh port client) (served P client s t) s t.
Proof.
  intros He Hpc. unfold handle_client. wp_step. wp_step. eapply wp_mono.
  { by apply (wp_run_client P), serving_start. }
  intros r s1 t1 [[-> Hs]|(t2 & -> & Hs)]; [by split|].
  pose proof (serving_closed P client r s t s1 t2 Hs) as Hc.
  destruct r as [[[]|]|]; try done.
  split; [by apply serving_cons|done].
Qed.

(** ** The bytes of a plain connection *)

Lemma read_events_data client x l :
  Forall (read_event client) l -> sent x l = [] /\ (x <> client -> received x l = []).
Proof.
  induction 1 as [|ev l Hev _ [IH1 IH2]]; [done|]. destruct ev; try done; cbn in *; subst.
  destruct r as [[d|]|]; try done. split; [done|]. intros Hne.
  rewrite IH2 by done. destruct (Z.eqb_spec client x); [congruence|done].
Qed.

Lemma write_events_data b x l :
  Forall (write_event b) l -> received x l = [] /\ (x <> b -> sent x l = []).
Proof.
  induction 1 as [|ev l Hev _ [IH1 IH2]]; [done|]. destruct ev; try done; cbn in *; subst.
  split; [done|]. intros Hne. rewrite IH2 by done. destruct (Z.eqb_spec b x); [congruence|done].
Qed.

Lemma routing_no_data ev : routing_event ev -> no_data ev.
Proof. by destruct ev. Qed.
Lemma dial_events_no_data host p r l : dial_events host p r l -> Forall no_data l.
Proof.
  destruct r as [c|e]; cbn.
  - intros (_ & opts & Ho & ->). apply Forall_app. split; [|by repeat constructor].
    eapply Forall_impl; [exact Ho|]. by intros [].
  - intros [->|[(e' & ->)|(c & e' & ->)]]; by repeat constructor.
Qed.

(** The events of a session once its backend is known. *)
Definition session_event (client backend : sock) (ev : event) : Prop :=
  match ev with
  | EvSelect _ => True
  | EvReadable s _ | EvRead s _ _ | EvWrite s _ _ | EvFlush s _ | EvClose s =>
      s = client \/ s = backend
  | _ => False
  end.

Lemma wp_plain_rest fuel client (backend : TcpClient) initial n s t
    (Q : result ProxyError (option unit) -> State -> trace -> Prop) :
  kv_get (conns s) client = Some backend -> ta_sockmap (ts_adapter s) = false ->
  client <> c_stream backend ->
  (forall r l, Forall (session_event client (c_stream backend)) l ->
     match r with
     | Err _ => True
     | Ok _ => sent (c_stream backend) l = initial ++ received client l
               /\ sent client l = received (c_stream backend) l
     end -> Q r s (l ++ t)) ->
  wp (send_to_backend backend initial ;;
      active <- activate_sockmap client ;;
      if active : bool then wait_for_close client ;; ret (Some tt)
      else bidirectional_copy fuel client backend n) Q s t.
Proof.
  intros Hconn Hsm Hne HQ. wp_step. apply wp_send_to_backend. intros r lw Hlw Hsent.
  assert (Hlw' : Forall (session_event client (c_stream backend)) lw).
  { eapply Forall_impl; [exact Hlw|]. intros [] Hev; try done; by right. }
  destruct r as [[]|]; [|by apply HQ].
  wp_step. unfold activate_sockmap, wp at 1. rewrite Hsm. cbn [negb].
  unfold bidirectional_copy. wp_step. wp_step. rewrite bool_decide_eq_true_2 by done.
  eapply wp_mono; [by apply wp_forward_serialised|].
  intros r s2 t2 (-> & l & -> & Hev & [Hrel1 Hrel2] & Hr). destruct r as [o|]; [|done].
  rewrite app_assoc. apply HQ.
  - apply Forall_app. split; [|done]. eapply Forall_impl; [exact Hev|]. by intros [].
  - destruct (write_events_data (c_stream backend) client lw Hlw) as [Hr1 Hs1].
    destruct (write_events_data (c_stream backend) (c_stream backend) lw Hlw) as [Hr1' _].
    rewrite !sent_app, !received_app, Hsent, Hr1, Hr1', Hs1 by done. cbn. by split; f_equal.
Qed.

(** A plain connection of a client without a backend: it dials one and relays. *)
Lemma wp_run_plain fuel client initial n s t
    (Q : result ProxyError (option unit) -> State -> trace -> Prop) :
  (forall t h p lim c, env_connect t h p lim = Done (Ok c) -> c <> client) ->
  dns_inv (ts_dns s) t -> kv_get (conns s) client = None ->
  ta_sockmap (ts_adapter s) = false ->
  (forall e s' t', Q (Err e) s' t') ->
  (forall r s' host port backend ld l,
     EvConnect host port (Done (Ok (c_stream backend))) ∈ ld -> Forall no_data ld ->
     kv_get (conns s') client = Some backend -> ta_sockmap (ts_adapter s') = false ->
     client <> c_stream backend -> Forall (session_event client (c_stream backend)) l ->
     sent (c_stream backend) l = initial ++ received client l ->
     sent client l = received (c_stream backend) l -> Q (Ok r) s' (l ++ ld ++ t)) ->
  wp (run_plain fuel client initial n) Q s t.
Proof.
  intros Hfd Hdns Hnone Hsm Herr HQ. unfold run_plain. wp_step.
  eapply wp_mono; [apply (wp_get_connection (fun _ => True)); by split; [|split]|].
  intros r s1 t1 (_ & _ & Hs1 & _ & _ & Hr). unfold conns in Hnone. rewrite Hnone in Hr.
  destruct Hr as (routed & (lr & -> & Hlr) & Hr). destruct r as [backend|]; [|done].
  destruct Hr as (Hfds & Hconn & out & ld & _ & Hld & ->).
  pose proof (dial_events_no_data _ _ _ _ Hld) as Hnd.
  assert (Hlr' : Forall no_data lr) by (eapply Forall_impl; [exact Hlr|apply routing_no_data]).
  assert (Hne : client <> c_stream backend).
  { destruct Hld as ((before & lim & Hc) & _). rewrite Hfds. intros ->. by eapply Hfd. }
  assert (Hk : kv_get (conns s1) client = Some backend) by (unfold conns; by rewrite Hconn, decide_True).
  apply wp_plain_rest; [done|congruence|done|]. intros r l Hev Hrel. destruct r as [o|]; [|done].
  destruct Hrel. rewrite (app_assoc ld).
  assert (Hin : exists h p, EvConnect h p (Done (Ok (c_stream backend))) ∈ ld ++ lr).
  { destruct Hld as (_ & opts & _ & ->). rewrite Hfds. do 2 eexists.
    apply elem_of_app. left. apply elem_of_app. right. right. by left. }
  destruct Hin as (h & p & Hin). eapply HQ; try done; [by apply Forall_app|congruence].
Qed.

(** ** The beginning of a connection *)

(** [run_client] on a port without STARTTLS. *)
Lemma wp_run_client_plain fuel sh port client s t
    (Q : result ProxyError (option unit) -> State -> trace -> Prop) :
  (port =? 5432) && sh_tls_acceptor sh = false ->
  (forall e l, Forall (read_event client) l -> Q (Err e) s (EvClose client :: l ++ t)) ->
  (forall l, Forall (read_event client) l -> received client l = [] -> Q (Ok None) s (l ++ t)) ->
  (forall l, Forall (read_event client) l -> received client l = [] ->
     Q (Ok (Some tt)) s (EvClose client :: l ++ t)) ->
  (forall l initial, Forall (read_event client) l -> received client l = initial -> initial <> [] ->
     wp (run_plain fuel client initial (Z.to_nat (sh_receive_buffer_size sh)))
       (fun r s' t' => match r with
                       | Ok None => Q r s' t'
                       | _ => Q r s' (EvClose client :: t')
                       end) s (l ++ t)) ->
  wp (run_client fuel sh port client) Q s t.
Proof.
  intros Hport Herr Hrun Hdone Hplain. unfold run_client.
  assert (W : wp (first <- read_some fuel client (Z.to_nat (sh_receive_buffer_size sh)) ;;
     match first with
     | None => ret None
     | Some [] => ret (Some tt)
     | Some initial =>
         if (port =? 5432) && sh_tls_acceptor sh && is_postgresql_ssl_request initial
         then run_starttls fuel client (Z.to_nat (sh_receive_buffer_size sh))
         else run_plain fuel client initial (Z.to_nat (sh_receive_buffer_size sh))
     end) (fun r s' t' => match r with
                          | Ok None => Q r s' t'
                          | _ => Q r s' (EvClose client :: t')
                          end) s t).
  { wp_step. apply wp_read_some. intros r l Hl Hd. destruct r as [[[|c initial]|]|e].
    - by apply wp_ret, Hdone.
    - rewrite Hport. by apply Hplain.
    - by apply wp_ret, Hrun.
    - by apply Herr. }
  unfold wp, dropping in *. by destruct (bind _ _ s t) as [[[[[]|]|] ] ].
Qed.
End Sessions.
