(* ===== verification/TcpGuarantees.v ===== *)
(** * TcpGuarantees: the properties of the TCP proxy.

    Stated about single connections ([handle_client], [run_client]), and about
    every history of a started server. *)

From S2P Require Import Prelude Text Net Protocol Resolver World Stores Dns Adapter Ssrf Routing.
From S2P Require Import Tls Sockmap TcpAdapter TcpConnections TcpConfig TcpServer TcpRelay TcpSessions.
Open Scope Z_scope.

Lemma dial_ok_safe port ev : dial_ok is_vetted port ev -> safe_dial ev.
Proof.
  destruct ev; try done. intros (out & (ip' & p & Hv) & Hp) ip Hip.
  apply (vetted_dial _ _ _ port ip Hv). by rewrite Hp.
Qed.

Section Server.
Context `{Env} {CD CR KC KP : Type} `{TtlCacheLaws bytes IpAddr CD} `{TtlCacheLaws bytes CacheEntry CR}.
Context `{KvStore sock TcpClient KC, !KvStoreLaws sock TcpClient KC}.
Context `{KvStore sock sock KP, !KvStoreLaws sock sock KP} `{BpfLib U Obj}.
Context `{FileSystem} `{Rustls Cert Key Roots Verifier Config}.

Abbreviation Server := (TcpServer CD CR KC KP Obj Config).

(** What happens to a running server: a round of an accept loop, other I/O of
    the process (never a TCP dialling), the DNS cache being cleared. *)
Inductive server_step : Server * trace -> Server * trace -> Prop :=
| step_accept fuel listener port sv t r sv' t' :
    accept_once fuel listener port sv t = (r, sv', t') -> server_step (sv, t) (sv', t')
| step_elsewhere ev sv t : no_connect ev -> server_step (sv, t) (sv, ev :: t)
| step_clear_dns sv t :
    server_step (sv, t)
      (mkTcpServer (sv_config sv) (sv_adapters sv) (sv_tls_acceptor sv) (dns_clear (sv_dns sv))
         (sv_sockmap sv), t).

Definition server_ok (sv : Server) (t : trace) : Prop :=
  Forall safe_dial t /\ dns_inv (sv_dns sv) t
  /\ forall port a, sv_adapters sv !! port = Some a ->
     endpoints_ok is_vetted (mkRouting (ta_base a) (sv_dns sv)) t /\ pairs_connected a.

Lemma server_ok_cons sv ev t : no_connect ev -> server_ok sv t -> server_ok sv (ev :: t).
Proof.
  intros Hev (Hs & Hd & Ha). split; [constructor; [by destruct ev|done]|].
  split; [by apply dns_inv_cons|]. intros port a Hp. destruct (Ha _ _ Hp).
  split; [by apply endpoints_ok_cons|done].
Qed.

Lemma maintains_apply_stream client config :
  maintains server_ok
    (apply_stream (S := Server) (E := ProxyError) (A := TcpAdapter CR KC KP) client config).
Proof.
  apply (maintains_inert _ no_connect).
  - intros sv t ev ? ?. by apply server_ok_cons.
  - unfold apply_stream. inert_steps; done.
Qed.

Lemma maintains_handle_connection fuel port client :
  maintains server_ok
    (handle_connection (CD := CD) (CR := CR) (KC := KC) (KP := KP) (Obj := Obj) (Config := Config)
       fuel port client).
Proof.
  intros sv t (Hs & Hd & Ha). unfold handle_connection. wp_step. wp_step.
  destruct (sv_adapters sv !! port) as [a|] eqn:Ep.
  2: { wp_step. wp_step. apply wp_fail. by apply server_ok_cons. }
  destruct (Ha _ _ Ep) as [He Hpc].
  pose proof (wp_handle_client is_vetted fuel (sv_shared sv) port client
                (mkTcpState a (sv_dns sv) (sv_sockmap sv)) t He Hpc) as W.
  unfold wp, on_port in *. destruct (handle_client _ _ _ _ _ t) as [[r x] t'].
  destruct W as [[He' _ _ _ Hpc' (l & -> & Hl & _)] _]. cbn in Hl.
  split; [|split].
  - apply Forall_app. split; [|done]. eapply Forall_impl; [exact Hl|apply dial_ok_safe].
  - apply He'.
  - intros port' a'. cbn. destruct (decide (port = port')) as [<-|Hne].
    + rewrite lookup_insert_eq. intros [= <-]. by split.
    + rewrite lookup_insert_ne by done. intros Hp'. destruct (Ha _ _ Hp') as [(_ & Hent & Hadm) Hpc''].
      split; [|done]. split; [apply He'|done].
Qed.

Lemma maintains_accept_once fuel listener port :
  maintains server_ok
    (accept_once (CD := CD) (CR := CR) (KC := KC) (KP := KP) (Obj := Obj) (Config := Config)
       fuel listener port).
Proof.
  intros sv t Hok. unfold accept_once. wp_step. wp_step. wp_step. wp_step.
  pose proof (server_ok_cons sv (EvCall (Accept listener) (env_call t (Accept listener))) t I Hok) as Hok1.
  destruct (env_call t (Accept listener)) as [client|e].
  - wp_step. eapply wp_mono; [by apply maintains_apply_stream|].
    intros [r|e] sv1 t1 Hok2; [|done]. wp_step. wp_step.
    eapply wp_mono; [by apply maintains_handle_connection|]. done.
  - apply wp_io. by apply server_ok_cons.
Qed.

Lemma server_ok_step st st' : server_ok st.1 st.2 -> server_step st st' -> server_ok st'.1 st'.2.
Proof.
  intros Hok Hstep. destruct Hstep as [fuel listener port sv t r sv' t' Hr|ev sv t Hev|sv t]; cbn in *.
  - pose proof (maintains_accept_once fuel listener port sv t Hok) as W.
    exact (wp_run _ _ _ _ _ _ _ W Hr).
  - by apply server_ok_cons.
  - destruct Hok as (Hs & Hd & Ha). split; [done|]. split; [apply dns_inv_clear|].
    intros port a Hp. destruct (Ha _ _ Hp) as [(_ & He & Hadm) Hpc].
    split; [|done]. split; [apply dns_inv_clear|done].
Qed.

(** ** The state a server starts in *)

Lemma build_adapter_ok resolver (config : TcpConfig (TcpAdapter CR KC KP)) sockmap dns port t :
  dns_inv dns t -> tc_adapter_factory config = None -> tc_skip_validation config = false ->
  let a := build_adapter resolver config sockmap port in
  endpoints_ok is_vetted (mkRouting (ta_base a) dns) t /\ pairs_connected a
  /\ ta_port a = port /\ (forall fd, kv_get (ta_connections a) fd = None).
Proof.
  intros Hd Hf Hs. unfold build_adapter. rewrite Hf, Hs. cbn zeta.
  destruct (0 <? tc_cache_ttl config);
    (split;
     [split; [done|split; [intros k e n Hh; cbn in Hh; by apply cache_new_empty in Hh|done]]
     |split;
      [intros fd b Hb; cbn in Hb; by rewrite kv_get_empty in Hb
      |split; [done|intros fd; apply kv_get_empty]]]).
Qed.

Lemma adapters_lookup {A} (f : Z -> A) ports (m : gmap Z A) port :
  fold_left (fun m port => <[port := f port]> m) ports m !! port
  = if decide (port ∈ ports) then Some (f port) else m !! port.
Proof.
  revert m. induction ports as [|p ports IH]; intros m; cbn [fold_left].
  - by rewrite decide_False by set_solver.
  - rewrite IH. destruct (decide (port ∈ ports)).
    + by rewrite decide_True by set_solver.
    + destruct (decide (p = port)) as [->|Hne].
      * rewrite lookup_insert_eq, decide_True by set_solver. done.
      * rewrite lookup_insert_ne, decide_False by set_solver. done.
Qed.

(** The result of a successful [prepare]. *)
Lemma prepare_ok resolver (dns : Dns CD) (config : TcpConfig (TcpAdapter CR KC KP)) (sv : Server) :
  prepare resolver dns config = Ok sv ->
  sv_config sv = config /\ sv_dns sv = dns
  /\ (exists sockmap, forall port, sv_adapters sv !! port
       = if decide (port ∈ tc_ports config) then Some (build_adapter resolver config sockmap port)
         else None)
  /\ match tc_tls config with
     | Some tls => tls_validate tls = Ok tt
                   /\ exists c, rustls_server_config tls = Ok c /\ sv_tls_acceptor sv = Some c
     | None => sv_tls_acceptor sv = None
     end.
Proof.
  unfold prepare, build_tls_acceptor. case_bool_decide; [done|].
  destruct (tc_tls config) as [tls|].
  - destruct (tls_validate tls) as [[]|]; [|done]. cbn [map_err result_bind].
    destruct (rustls_server_config tls) as [c|]; [|done]. cbn [map_err result_bind].
    destruct (if _ && _ then _ else _) as [sm loader]. intros [= <-]. cbn.
    split_and!; try done; [|by eexists]. exists sm. intros port.
    rewrite (adapters_lookup (build_adapter resolver config sm)). by rewrite lookup_empty.
  - cbn [map_err result_bind]. destruct (if _ && _ then _ else _) as [sm loader].
    intros [= <-]. cbn. split_and!; try done. exists sm. intros port.
    rewrite (adapters_lookup (build_adapter resolver config sm)). by rewrite lookup_empty.
Qed.

Lemma prepare_server_ok resolver (config : TcpConfig (TcpAdapter CR KC KP)) (sv : Server) :
  tc_adapter_factory config = None -> tc_skip_validation config = false ->
  prepare resolver dns_initial config = Ok sv -> server_ok sv [].
Proof.
  intros Hf Hs (Hc & Hd & (sm & Ha) & _)%prepare_ok. split; [constructor|].
  rewrite Hd. split; [apply dns_inv_initial|]. intros port a. rewrite Ha.
  case_decide; [|done]. intros [= <-].
  destruct (build_adapter_ok resolver config sm dns_initial port []) as (? & ? & _);
    [apply dns_inv_initial|done..].
Qed.

Lemma server_ok_reachable st st' :
  server_ok st.1 st.2 -> rtc server_step st st' -> server_ok st'.1 st'.2.
Proof.
  intros Hok Hr. induction Hr as [|x y z Hxy _ IH]; [done|]. by eapply IH, server_ok_step.
Qed.
End Server.

(** ** Properties *)
Section Properties.
Context `{Env} {CD CR KC KP : Type} `{TtlCacheLaws bytes IpAddr CD} `{TtlCacheLaws bytes CacheEntry CR}.
Context `{KvStore sock TcpClient KC, !KvStoreLaws sock TcpClient KC}.
Context `{KvStore sock sock KP, !KvStoreLaws sock sock KP} `{BpfLib U Obj}.

Abbreviation State := (TcpState CD CR KC KP Obj).
Implicit Types (s : State) (t : trace).

(** SSRF safety of the TCP server.  From the moment it is prepared, with
    validation on and the built-in adapters, through any sequence of accepted
    connections, whatever clients, backends, resolver, DNS and caches do, every
    backend host it dials that is an IP literal is outside the blocked
    ranges. *)
Theorem tcp_server_never_dials_blocked `{FileSystem} `{Rustls Cert Key Roots Verifier Config}
    resolver (config : TcpConfig (TcpAdapter CR KC KP))
    (sv sv' : TcpServer CD CR KC KP Obj Config) t' host port o ip :
  tc_adapter_factory config = None -> tc_skip_validation config = false ->
  prepare resolver dns_initial config = Ok sv ->
  rtc server_step (sv, []) (sv', t') ->
  EvConnect host port o ∈ t' -> parse_ipaddr host = Some ip -> is_blocked_ip ip = false.
Proof.
  intros Hf Hs Hp Hr Hin Hip.
  destruct (server_ok_reachable (sv, []) _ (prepare_server_ok _ _ _ Hf Hs Hp) Hr) as (Hsafe & _).
  rewrite Forall_forall in Hsafe. by apply (Hsafe _ Hin).
Qed.

(** C33: a connection leaves nothing behind.  When [handle_connection] is done
    with a client, successfully or not, neither table has an entry for its
    descriptor, its stream is closed, and every backend socket opened for it is
    closed; the entries of all other clients are untouched. *)
Theorem connection_leaves_nothing P fuel sh port client s t :
  endpoints_ok P (ts_routing s) t -> pairs_connected (ts_adapter s) ->
  let '(r, s', t') := handle_client fuel sh port client s t in
  r <> Ok None ->
  (kv_get (conns s') client = None /\ kv_get (pairs s') client = None)
  /\ (exists l, t' = l ++ t /\ EvClose client ∈ l
       /\ forall host p c, EvConnect host p (Done (Ok c)) ∈ l -> EvClose c ∈ l)
  /\ forall fd, fd <> client ->
       kv_get (conns s') fd = kv_get (conns s) fd /\ kv_get (pairs s') fd = kv_get (pairs s) fd.
Proof.
  intros He Hp. pose proof (wp_handle_client P fuel sh port client s t He Hp) as W.
  unfold wp in W. destruct (handle_client _ _ _ _ s t) as [[r s'] t'].
  destruct W as [Hserving Hdone]. intros Hr. destruct (Hdone Hr) as (? & ? & ?).
  split; [done|]. split; [done|apply Hserving].
Qed.

(** The copy loop is faithful: whatever the order in which the two sides
    become readable, the bytes given to each side are exactly the bytes read
    from the other, in order; nothing but these two sockets is touched; it
    stops only at an end of stream or an error; and it cannot spin: [fuel]
    rounds relay at least [fuel] bytes. *)
Theorem forward_serialised_faithful {S} fuel client (backend : TcpClient) n (x : S) t :
  client <> c_stream backend ->
  let '(r, x', t') := forward_serialised fuel client backend n x t in
  x' = x /\ exists l, t' = l ++ t
  /\ Forall (relay_event client (c_stream backend)) l
  /\ sent (c_stream backend) l = received client l
  /\ sent client l = received (c_stream backend) l
  /\ match r with
     | Ok (Some _) => relay_ended l
     | Ok None => (fuel <= List.length (received client l)
                           + List.length (received (c_stream backend) l))%nat
     | Err _ => False
     end.
Proof.
  intros Hne. pose proof (wp_forward_serialised fuel client backend n x t Hne) as W.
  unfold wp in W. destruct (forward_serialised _ _ _ _ x t) as [[r x'] t'].
  destruct W as (-> & l & -> & Hev & [? ?] & Hr). split; [done|]. by exists l.
Qed.

(** C11: a plain connection is a pipe.  For a client without a backend yet, on a
    port without STARTTLS and without the kernel relay, a run of [run_client]
    that does not fail gives one newly dialled backend exactly the bytes read
    from the client (the first packet included), and the client exactly the
    bytes read from that backend; or the client sent nothing. *)
Theorem plain_connection_is_a_pipe fuel sh port client s t :
  (forall t h p lim c, env_connect t h p lim = Done (Ok c) -> c <> client) ->
  (port =? 5432) && sh_tls_acceptor sh = false ->
  dns_inv (ts_dns s) t -> kv_get (conns s) client = None -> ta_sockmap (ts_adapter s) = false ->
  let '(r, s', t') := run_client fuel sh port client s t in
  match r with
  | Err _ => True
  | Ok _ =>
      exists l, t' = l ++ t
      /\ (received client l = []
          \/ exists host p backend, EvConnect host p (Done (Ok backend)) ∈ l
               /\ sent backend l = received client l /\ sent client l = received backend l)
  end.
Proof.
  intros Hfd Hport Hdns Hnone Hsm.
  apply (wp_run_client_plain fuel sh port client s t
           (fun r _ t' => match r with
              | Err _ => True
              | Ok _ =>
                  exists l, t' = l ++ t
                  /\ (received client l = []
                      \/ exists host p backend, EvConnect host p (Done (Ok backend)) ∈ l
                           /\ sent backend l = received client l
                           /\ sent client l = received backend l)
              end)); try done.
  - intros l _ Hl. exists l. auto.
  - intros l _ Hl. exists (EvClose client :: l). auto.
  - intros l initial Hl Hinit _. apply wp_run_plain; [done|by apply dns_inv_app|done..|].
    intros r s' host p backend ld l' Hin Hnd _ _ Hne _ Hs1 Hs2.
    assert (Hpipe : exists host p b, EvConnect host p (Done (Ok b)) ∈ l' ++ ld ++ l
      /\ sent b (l' ++ ld ++ l) = received client (l' ++ ld ++ l)
      /\ sent client (l' ++ ld ++ l) = received b (l' ++ ld ++ l)).
    { exists host, p, (c_stream backend). split; [set_solver|].
      destruct (read_events_data client (c_stream backend) l Hl) as [Ha Hb].
      destruct (read_events_data client client l Hl) as [Ha' _].
      destruct (no_data_silent client ld Hnd) as [Hc Hd].
      destruct (no_data_silent (c_stream backend) ld Hnd) as [Hc' Hd'].
      rewrite !sent_app, !received_app, Ha, Ha', Hc, Hd, Hc', Hd', Hb, Hinit, Hs1, Hs2 by done.
      split; cbn; by rewrite ?app_nil_r. }
    destruct r as [[]|].
    + exists (EvClose client :: l' ++ ld ++ l). split; [by rewrite !app_assoc|]. right.
      destruct Hpipe as (h & q & b & ? & ? & ?). exists h, q, b. split; [by right|done].
    + exists (l' ++ ld ++ l). split; [by rewrite !app_assoc|]. by right.
Qed.

(** C40: a descriptor reused before the clean-up gets the previous client's
    backend.  [run_client] closes the client's stream, and only afterwards
    [handle_connection] forgets its connection; when the descriptor is accepted
    again in between, the new client is never routed: nothing is resolved,
    validated or dialled, and all its bytes go to the old backend. *)
Theorem reused_descriptor_keeps_backend fuel sh port client s t (stale : TcpClient) :
  kv_get (conns s) client = Some stale -> client <> c_stream stale ->
  (port =? 5432) && sh_tls_acceptor sh = false -> ta_sockmap (ts_adapter s) = false ->
  let '(r, s', t') := run_client fuel sh port client s t in
  s' = s /\ exists l, t' = l ++ t /\ Forall (session_event client (c_stream stale)) l
  /\ match r with
     | Err _ => True
     | Ok _ => sent (c_stream stale) l = received client l
               /\ sent client l = received (c_stream stale) l
     end.
Proof.
  intros Hstale Hne Hport Hsm.
  assert (Hread : forall l, Forall (read_event client) l ->
    Forall (session_event client (c_stream stale)) l
    /\ sent (c_stream stale) l = [] /\ sent client l = [] /\ received (c_stream stale) l = []).
  { intros l Hl. split.
    - eapply Forall_impl; [exact Hl|]. intros [] Hev; try done; by left.
    - destruct (read_events_data client (c_stream stale) l Hl) as [? Hr].
      destruct (read_events_data client client l Hl). auto. }
  assert (Hclose : session_event client (c_stream stale) (EvClose client)) by by left.
  apply (wp_run_client_plain fuel sh port client s t
    (fun r s' t' => s' = s /\ exists l, t' = l ++ t /\ Forall (session_event client (c_stream stale)) l
       /\ match r with
          | Err _ => True
          | Ok _ => sent (c_stream stale) l = received client l
                    /\ sent client l = received (c_stream stale) l
          end)); [done|..].
  - intros e l Hl. split; [done|]. exists (EvClose client :: l).
    split; [done|]. split; [|done]. constructor; [done|by apply Hread].
  - intros l Hl Hr. split; [done|]. exists l. destruct (Hread l Hl) as (? & ? & ? & ?).
    split_and!; try done; congruence.
  - intros l Hl Hr. split; [done|]. exists (EvClose client :: l).
    destruct (Hread l Hl) as (? & ? & ? & ?).
    split; [done|]. split; [by constructor|]. cbn. split; congruence.
  - intros l initial Hl Hinit _. unfold run_plain, get_connection. wp_step. wp_step. wp_step.
    unfold conns in Hstale. rewrite Hstale. apply wp_ret. apply wp_plain_rest; [done..|].
    intros r lw Hev Hsent. destruct (Hread l Hl) as (Hl' & Hs1 & Hs2 & Hs3).
    assert (Hall : Forall (session_event client (c_stream stale)) (lw ++ l)) by by apply Forall_app.
    assert (Hbytes : match r with
      | Err _ => True
      | Ok _ => sent (c_stream stale) (lw ++ l) = received client (lw ++ l)
                /\ sent client (lw ++ l) = received (c_stream stale) (lw ++ l)
      end).
    { destruct r; [|done]. destruct Hsent as [Ha Hb].
      rewrite !sent_app, !received_app, Hs1, Hs2, Hs3, Ha, Hb, Hinit. done. }
    destruct r as [[[]|]|e]; (split; [done|]).
    + exists (EvClose client :: lw ++ l). split; [by rewrite app_assoc|]. split; [by constructor|done].
    + exists (lw ++ l). by rewrite app_assoc.
    + exists (EvClose client :: lw ++ l). split; [by rewrite app_assoc|]. split; [by constructor|done].
Qed.


(** [get_connection], branch by branch: a client with a backend gets it back
    without any I/O, whatever its data; otherwise the request is routed, exactly
    the endpoint that routing admitted is dialled, and only a completed dialling
    enters the connection table; a failed one leaves the table as it was and no
    socket open. *)
Theorem get_connection_contract P data fd s t :
  endpoints_ok P (ts_routing s) t ->
  let '(r, s', t') := get_connection data fd s t in
  match kv_get (conns s) fd with
  | Some existing => r = Ok existing /\ s' = s /\ t' = t
  | None =>
      exists routed, extends routing_event t routed
      /\ match r with
         | Ok c =>
             (forall fd', kv_get (conns s') fd' = if decide (fd = fd') then Some c
                                                  else kv_get (conns s) fd')
             /\ exists out l, P out /\ t' = l ++ routed
                  /\ let '(host, port) := parse_endpoint out (ta_port (ts_adapter s)) in
                     dial_events host port (Ok (c_fd c)) l
         | Err e =>
             conns s' = conns s
             /\ (t' = routed
                 \/ exists out l, P out /\ t' = l ++ routed
                     /\ let '(host, port) := parse_endpoint out (ta_port (ts_adapter s)) in
                        dial_events host port (Err e) l)
         end
  end.
Proof.
  intros Hok. pose proof (wp_get_connection P data fd s t Hok) as W.
  unfold wp in W. destruct (get_connection data fd s t) as [[r s'] t'].
  destruct W as (_ & _ & _ & _ & _ & W). unfold conns.
  destruct (kv_get _ fd) as [c|]; [done|]. destruct W as (routed & Hrt & W). exists routed.
  split; [done|]. destruct r as [c|e].
  - destruct W as (_ & Hc & out & l & ? & ? & ->). split; [done|]. exists out, l.
    split; [done|]. split; [done|]. by destruct (parse_endpoint _ _).
  - destruct W as (Hc & [->|(out & l & ? & ? & ->)]); (split; [done|]); [by left|].
    right. exists out, l. split; [done|]. split; [done|]. by destruct (parse_endpoint _ _).
Qed.

(** What [start] sets up: a prepared server has an adapter for exactly the
    configured ports, each with the port's protocol, the configured timeouts,
    socket options, validation setting and caching; and it terminates TLS
    exactly when TLS is configured, with a configuration that passed
    validation. *)
Theorem prepared_server_matches_config `{FileSystem} `{Rustls Cert Key Roots Verifier Config}
    resolver (dns : Dns CD) (config : TcpConfig (TcpAdapter CR KC KP))
    (sv : TcpServer CD CR KC KP Obj Config) :
  tc_adapter_factory config = None -> prepare resolver dns config = Ok sv ->
  (forall port, is_Some (sv_adapters sv !! port) <-> port ∈ tc_ports config)
  /\ (forall port a, sv_adapters sv !! port = Some a ->
       ta_port a = port /\ ta_protocol a = from_port port
       /\ a_protocol (ta_base a) = from_port port
       /\ ta_timeout a = tc_timeout config /\ ta_connect_timeout a = tc_connect_timeout config
       /\ ta_tcp_user_timeout_ms a = tc_tcp_user_timeout_ms config
       /\ ta_tcp_quickack a = tc_tcp_quickack config
       /\ ta_tcp_notsent_lowat a = tc_tcp_notsent_lowat config
       /\ a_skip_validation (ta_base a) = tc_skip_validation config
       /\ a_cache_ttl (ta_base a)
          = (if 0 <? tc_cache_ttl config then from_secs (tc_cache_ttl config) else 0))
  /\ match tc_tls config with
     | Some tls => tls_validate tls = Ok tt
                   /\ exists c, rustls_server_config tls = Ok c /\ sv_tls_acceptor sv = Some c
     | None => sv_tls_acceptor sv = None
     end.
Proof.
  intros Hf (_ & _ & (sm & Ha) & Htls)%prepare_ok. split; [|split; [|done]].
  - intros port. rewrite Ha. case_decide as Hin; by split.
  - intros port a. rewrite Ha. case_decide; [|done]. intros [= <-].
    unfold build_adapter. rewrite Hf. cbn zeta.
    destruct (0 <? tc_cache_ttl config), (tc_skip_validation config); split_and!; done.
Qed.
End Properties.

(** ** Witnesses *)

(** A client that sends "ping" and stops, a backend that answers "pong". *)
Definition tcp_example_env : Env :=
  scripted_env
    (fun host => if bool_decide (host = B "example.com")
                 then Done (Ok [V4 (mkIpv4 (chr 93) (chr 184) (chr 216) (chr 34))])
                 else Done (Err (io_other [])))
    (fun _ _ _ => Done (Ok 9))
    (fun t s _ => Done (Ok (if bool_decide (received s t = [])
                            then (if s =? 9 then B "pong" else B "ping") else [])))
    (fun _ _ => Ok [])
    (fun t => bool_decide (received 9 t <> [])).

#[local] Existing Instance tcp_example_env.

Abbreviation ExState :=
  (TcpState (AssocCache bytes IpAddr) (AssocCache bytes CacheEntry) (gmap Z TcpClient) (gmap Z Z)
     memory_maps).
Abbreviation ExAdapter :=
  (TcpAdapter (AssocCache bytes CacheEntry) (gmap Z TcpClient) (gmap Z Z)).
Abbreviation ExServer :=
  (TcpServer (AssocCache bytes IpAddr) (AssocCache bytes CacheEntry) (gmap Z TcpClient) (gmap Z Z)
     memory_maps (option (list bytes))).

Definition tcp_example_adapter : ExAdapter := tcp_adapter_new 5433 (Some route_example_resolver).
Definition tcp_example_state : ExState :=
  mkTcpState tcp_example_adapter dns_initial (sockmap_new []).
Definition tcp_example_shared : Shared := mkShared 8192 false.

Lemma tcp_example_endpoints :
  endpoints_ok is_vetted (ts_routing tcp_example_state) [].
Proof.
  split; [apply dns_inv_initial|]. split; [|done]. intros k e n Hh. by apply cache_new_empty in Hh.
Qed.

Lemma tcp_example_pairs : pairs_connected (ts_adapter tcp_example_state).
Proof. intros fd b Hb. vm_compute in Hb. discriminate. Qed.

Definition tcp_example_run :=
  handle_client 10 tcp_example_shared 5433 7 tcp_example_state [].

Lemma connection_leaves_nothing_witness :
  tcp_example_run.1.1 = Ok (Some tt)
  /\ kv_get (conns tcp_example_run.1.2) 7 = None
  /\ EvConnect (B "93.184.216.34") 443 (Done (Ok 9)) ∈ tcp_example_run.2
  /\ EvClose 9 ∈ tcp_example_run.2.
Proof.
  assert (Hr : tcp_example_run.1.1 = Ok (Some tt)) by (vm_compute; reflexivity).
  assert (Hin : EvConnect (B "93.184.216.34") 443 (Done (Ok 9)) ∈ tcp_example_run.2).
  { apply (list_elem_of_lookup_2 _ 10). vm_compute. reflexivity. }
  pose proof (connection_leaves_nothing is_vetted 10 tcp_example_shared 5433 7 tcp_example_state []
                tcp_example_endpoints tcp_example_pairs) as W.
  fold tcp_example_run in W. split; [exact Hr|].
  destruct tcp_example_run as [[r s'] t']. cbn in *. subst r.
  destruct W as ((Hk & _) & (l & Ht & _ & Hl) & _); [discriminate|].
  rewrite app_nil_r in Ht. subst t'.
  split; [exact Hk|]. split; [exact Hin|exact (Hl _ _ _ Hin)].
Defined.

Definition tcp_example_backend : TcpClient := mkTcpClient 9 9.

Lemma forward_serialised_faithful_witness :
  let run := forward_serialised 5 7 tcp_example_backend 8192 tt [] in
  run.1.1 = Ok (Some tt) /\ sent 7 run.2 = B "pong" /\ received 9 run.2 = B "pong"
  /\ sent 9 run.2 = received 7 run.2.
Proof.
  pose proof (forward_serialised_faithful 5 7 tcp_example_backend 8192 tt [] ltac:(discriminate)) as W.
  split; [vm_compute; reflexivity|]. split; [vm_compute; reflexivity|].
  split; [vm_compute; reflexivity|].
  destruct (forward_serialised _ _ _ _ _ _) as [[r x] t].
  destruct W as (_ & l & Ht & _ & Hs & _). rewrite app_nil_r in Ht. subst t. exact Hs.
Defined.

Definition tcp_example_client_run :=
  run_client 10 tcp_example_shared 5433 7 tcp_example_state [].

Lemma plain_connection_is_a_pipe_witness :
  tcp_example_client_run.1.1 = Ok (Some tt)
  /\ exists backend, sent backend tcp_example_client_run.2 = B "ping"
                     /\ received backend tcp_example_client_run.2 = B "pong".
Proof.
  assert (Hr : tcp_example_client_run.1.1 = Ok (Some tt)) by (vm_compute; reflexivity).
  assert (Hin : received 7 tcp_example_client_run.2 = B "ping") by (vm_compute; reflexivity).
  assert (Hout : sent 7 tcp_example_client_run.2 = B "pong") by (vm_compute; reflexivity).
  split; [exact Hr|].
  unshelve epose proof (plain_connection_is_a_pipe 10 tcp_example_shared 5433 7 tcp_example_state []
    _ eq_refl (dns_inv_initial []) eq_refl eq_refl) as W.
  { intros t h p lim c Hc. injection Hc as <-. discriminate. }
  fold tcp_example_client_run in W. destruct tcp_example_client_run as [[r s'] t']. cbn in *. subst r.
  destruct W as (l & Ht & W). rewrite app_nil_r in Ht. subst t'.
  destruct W as [W|(h & p & b & _ & Hs & Hb)]; [rewrite W in Hin; discriminate|].
  exists b. split; [exact (eq_trans Hs Hin)|exact (eq_trans (eq_sym Hb) Hout)].
Defined.

(** The first client's task has closed descriptor 7 but not yet cleaned up; a
    second client is accepted on it. *)
Lemma reused_descriptor_keeps_backend_witness :
  let s1 := tcp_example_client_run.1.2 in
  kv_get (conns s1) 7 = Some tcp_example_backend
  /\ exists l, (run_client 3 tcp_example_shared 5433 7 s1 []).2 = l
       /\ sent 9 l = received 7 l /\ received 7 l = B "ping".
Proof.
  assert (Hk : kv_get (conns tcp_example_client_run.1.2) 7 = Some tcp_example_backend)
    by (vm_compute; reflexivity).
  split; [exact Hk|].
  assert (Hr : (run_client 3 tcp_example_shared 5433 7 tcp_example_client_run.1.2 []).1.1 = Ok (Some tt))
    by (vm_compute; reflexivity).
  assert (Hin : received 7 (run_client 3 tcp_example_shared 5433 7 tcp_example_client_run.1.2 []).2
                = B "ping") by (vm_compute; reflexivity).
  pose proof (reused_descriptor_keeps_backend 3 tcp_example_shared 5433 7 tcp_example_client_run.1.2 []
    tcp_example_backend Hk ltac:(discriminate) eq_refl ltac:(vm_compute; reflexivity)) as W.
  destruct (run_client 3 _ _ _ _ _) as [[r s'] t']. cbn in *. subst r.
  destruct W as (_ & l & Ht & _ & Hs & _). rewrite app_nil_r in Ht. subst t'.
  exists l. split; [reflexivity|]. split; [exact Hs|exact Hin].
Defined.

Lemma get_connection_contract_witness :
  let run := get_connection (B "ping") 7 tcp_example_state [] in
  run.1.1 = Ok tcp_example_backend
  /\ kv_get (conns run.1.2) 7 = Some tcp_example_backend /\ kv_get (conns run.1.2) 8 = None.
Proof.
  cbv zeta.
  assert (Hr : (get_connection (B "ping") 7 tcp_example_state []).1.1 = Ok tcp_example_backend)
    by (vm_compute; reflexivity).
  pose proof (get_connection_contract is_vetted (B "ping") 7 tcp_example_state []
                tcp_example_endpoints) as W.
  split; [exact Hr|]. destruct (get_connection _ _ _ _) as [[r s'] t']. cbn in Hr |- *. subst r.
  destruct W as (routed & _ & Hc & _). split; [exact (Hc 7)|exact (Hc 8)].
Defined.

(** A server with a single port. *)
#[local] Existing Instances example_files example_rustls memory_bpf.

Definition tcp_example_config : TcpConfig ExAdapter := tcp_config_new (Some 4) [5433].
Definition tcp_example_server : ExServer :=
  mkTcpServer tcp_example_config
    (<[5433 := build_adapter route_example_resolver tcp_example_config false 5433]> ∅)
    None dns_initial (sockmap_new []).

Lemma prepared_server_matches_config_witness :
  prepare route_example_resolver dns_initial tcp_example_config = Ok tcp_example_server
  /\ is_Some (sv_adapters tcp_example_server !! 5433) /\ sv_tls_acceptor tcp_example_server = None.
Proof.
  assert (E : prepare route_example_resolver dns_initial tcp_example_config = Ok tcp_example_server)
    by reflexivity.
  split; [exact E|].
  destruct (prepared_server_matches_config route_example_resolver dns_initial tcp_example_config
              tcp_example_server eq_refl E) as (Hp & _ & Ht).
  split; [apply Hp; left|exact Ht].
Defined.

Definition tcp_example_accept := accept_once 10 3 5433 tcp_example_server [].

Lemma tcp_server_never_dials_blocked_witness :
  EvConnect (B "93.184.216.34") 443 (Done (Ok 9)) ∈ tcp_example_accept.2
  /\ is_blocked_ip (V4 (mkIpv4 (chr 93) (chr 184) (chr 216) (chr 34))) = false.
Proof.
  assert (Hin : EvConnect (B "93.184.216.34") 443 (Done (Ok 9)) ∈ tcp_example_accept.2).
  { apply (list_elem_of_lookup_2 _ 13). vm_compute. reflexivity. }
  split; [exact Hin|].
  refine (tcp_server_never_dials_blocked route_example_resolver tcp_example_config
            tcp_example_server tcp_example_accept.1.2 tcp_example_accept.2 (B "93.184.216.34") 443
            (Done (Ok 9)) _ eq_refl eq_refl eq_refl _ Hin _); [|vm_compute; reflexivity].
  apply rtc_once. apply (step_accept 10 3 5433 _ _ tcp_example_accept.1.1).
  apply surjective_pairing.
Defined.
