(* ===== verification/TcpConcurrency.v ===== *)
(** * TcpConcurrency: many TCP connections at once.

    The tasks of a server's connections run concurrently: they share the
    adapter of their port (its routing cache, connection table and sockmap
    pairs), the DNS cache and the sockmap loader.  The programs below are those
    of TcpAdapter and TcpServer cut at every access to shared state and every
    I/O operation, and what they do under every interleaving is proved here:
    which backends are dialled, and between which sockets bytes travel. *)

From S2P Require Import Prelude Text Net Protocol Resolver World Stores Dns Adapter Ssrf Routing.
From S2P Require Import Interleave RoutingConcurrency.
From S2P Require Import Tls Sockmap TcpAdapter TcpConnections TcpConfig TcpServer TcpRelay TcpSessions TcpGuarantees.
Open Scope Z_scope.
Open Scope prog_scope.

(** ** The connection's program, cut at its accesses to shared state *)
Section Progs.
Context `{Env} {CD CR KC KP : Type} `{TtlCache bytes IpAddr CD} `{TtlCache bytes CacheEntry CR}.
Context `{KvStore sock TcpClient KC} `{KvStore sock sock KP} `{BpfLib U Obj}.

Abbreviation State := (TcpState CD CR KC KP Obj).
Definition PT (A : Type) : Type := prog State ProxyError A.

Definition write_all_prog (s : sock) (data : bytes) : PT unit :=
  r <~ atom (io_write s data) ;; pure (map_err PIo (settle r)).
Definition flush_prog (s : sock) : PT unit :=
  r <~ atom (io_flush s) ;; pure (map_err PIo (settle r)).

Fixpoint try_read_loop_prog (fuel : nat) (stream : sock) (max : nat) : PT (option bytes) :=
  match fuel with
  | O => pure (Ok None)
  | Datatypes.S fuel' =>
      r <~ atom (io_read stream max) ;;
      match settle r with
      | Ok data => pure (Ok (Some data))
      | Err e =>
          match io_error_kind e with
          | WouldBlock =>
              r <~ atom (io_readable stream) ;;
              pure (map_err PIo r) ~;;
              try_read_loop_prog fuel' stream max
          | _ => pure (Err (PIo e))
          end
      end
  end.

Definition read_some_prog (fuel : nat) (stream : sock) (max : nat) : PT (option bytes) :=
  r <~ atom (io_readable stream) ;;
  pure (map_err PIo r) ~;;
  try_read_loop_prog fuel stream max.

Definition send_to_backend_prog (backend : TcpClient) (data : bytes) : PT unit :=
  write_all_prog (c_stream backend) data ~;;
  flush_prog (c_stream backend).

Fixpoint forward_serialised_prog (fuel : nat) (client : sock) (backend : TcpClient) (buf_size : nat)
  : PT (option unit) :=
  match fuel with
  | O => pure (Ok None)
  | Datatypes.S fuel' =>
      client_ready <~ atom io_select ;;
      let '(from, to) := if client_ready : bool then (client, c_stream backend)
                         else (c_stream backend, client) in
      r <~ atom (io_read from buf_size) ;;
      match settle r with
      | Err _ | Ok [] => pure (Ok (Some tt))
      | Ok data =>
          w <~ atom (io_write to data) ;;
          match settle w with
          | Err _ => pure (Ok (Some tt))
          | Ok _ => forward_serialised_prog fuel' client backend buf_size
          end
      end
  end.

Definition bidirectional_copy_prog (fuel : nat) (client : sock) (backend : TcpClient) (buf_size : nat)
  : PT (option unit) :=
  held <~ read_field (fun s : State =>
            bool_decide (kv_get (ta_connections (ts_adapter s)) client = Some backend)) ;;
  if held : bool then forward_serialised_prog fuel client backend buf_size
  else atom (io_copy_bidirectional client (c_stream backend)) ~;; pure (Ok (Some tt)).

(** Nothing is awaited while the socket options are set. *)
Definition dial_prog (host : bytes) (port : Z) : PT sock :=
  limit <~ read_field (fun s : State => ta_connect_timeout (ts_adapter s)) ;;
  r <~ atom (io_connect host port limit) ;;
  match r with
  | Elapsed => pure (Err (PBackendConnect (B "Timeout connecting to backend: " ++ host_port host port)))
  | Done (Err e) =>
      pure (Err (PBackendConnect (B "Failed to connect to backend: " ++ host_port host port
                                  ++ B ": " ++ io_message e)))
  | Done (Ok stream) =>
      r <~ atom (io_nodelay stream) ;;
      match r with
      | Err e =>
          atom (io_close stream) ~;;
          pure (Err (PBackendConnect (B "set_nodelay failed: " ++ io_message e)))
      | Ok _ =>
          atom (apply_socket_options stream) ~;;
          pure (Ok stream)
      end
  end.

(** [TcpAdapter::get_connection]: two connections may find no backend for one
    descriptor and both dial. *)
Definition get_connection_prog (data : bytes) (fd : sock) : PT TcpClient :=
  found <~ read_field (fun s : State => (kv_get (ta_connections (ts_adapter s)) fd, ta_port (ts_adapter s))) ;;
  match found with
  | (Some existing, _) => pure (Ok existing)
  | (None, default_port) =>
      res <~ pwith_err PResolver (pzoom ts_routing ts_set_routing (route_prog data)) ;;
      let '(host, port) := parse_endpoint (cr_endpoint res) default_port in
      stream <~ dial_prog host port ;;
      let client := mkTcpClient stream stream in
      atom (modify (on_tcp (fun a => set_connections (kv_insert (ta_connections a) fd client) a))) ~;;
      pure (Ok client)
  end.

(** [sockmap.insert_pair], under the loader's lock. *)
Definition insert_pair (client_fd backend_fd : sock) : M State ProxyError bool :=
  fun s t =>
    let '(ok, sm) := sockmap_insert_pair t client_fd backend_fd (ts_sockmap s) in
    (Ok ok, mkTcpState (ts_adapter s) (ts_dns s) sm, t).

Definition activate_sockmap_prog (client_fd : sock) : PT bool :=
  has_sockmap <~ read_field (fun s : State => ta_sockmap (ts_adapter s)) ;;
  if negb has_sockmap then pure (Ok false)
  else
    available <~ read_field (fun s : State => sm_available (ts_sockmap s)) ;;
    if negb available then pure (Ok false)
    else
      found <~ read_field (fun s : State => kv_get (ta_connections (ts_adapter s)) client_fd) ;;
      match found with
      | None => pure (Ok false)
      | Some client =>
          let backend_fd := c_fd client in
          if backend_fd <=? 0 then pure (Ok false)
          else
            inserted <~ atom (insert_pair client_fd backend_fd) ;;
            if negb inserted then pure (Ok false)
            else
              atom (modify (on_tcp (fun a =>
                set_sockmap_pairs (kv_insert (ta_sockmap_pairs a) client_fd backend_fd) a))) ~;;
              pure (Ok true)
      end.

(** [DashMap::remove] on the two tables. *)
Definition take_pair (fd : sock) : M State ProxyError bool :=
  s <- get ;;
  match kv_get (ta_sockmap_pairs (ts_adapter s)) fd with
  | None => ret false
  | Some _ =>
      modify (on_tcp (fun a => set_sockmap_pairs (kv_remove (ta_sockmap_pairs a) fd) a)) ;; ret true
  end.
Definition take_connection (fd : sock) : M State ProxyError (option TcpClient) :=
  s <- get ;;
  match kv_get (ta_connections (ts_adapter s)) fd with
  | None => ret None
  | Some client =>
      modify (on_tcp (fun a => set_connections (kv_remove (ta_connections a) fd) a)) ;;
      ret (Some client)
  end.

Definition close_connection_prog (fd : sock) : PT unit :=
  had_pair <~ atom (take_pair fd) ;;
  (if had_pair : bool then
     has_sockmap <~ read_field (fun s : State => ta_sockmap (ts_adapter s)) ;;
     if has_sockmap : bool
     then atom (modify (fun s => mkTcpState (ts_adapter s) (ts_dns s)
                                   (sockmap_remove_pair fd (ts_sockmap s))))
     else pure (Ok tt)
   else pure (Ok tt)) ~;;
  had_backend <~ atom (take_connection fd) ;;
  match had_backend with
  | None => pure (Ok tt)
  | Some client => atom (io_close (c_stream client))
  end.

Definition run_starttls_prog (fuel : nat) (client : sock) (buf_size : nat) : PT (option unit) :=
  write_all_prog client [PG_SSL_RESPONSE_OK] ~;;
  flush_prog client ~;;
  r <~ atom (io_tls_accept client) ;;
  pure (map_err (fun e => PTls (B "PostgreSQL STARTTLS accept failed: " ++ io_message e)) r) ~;;
  r <~ atom (io_read client buf_size) ;;
  post <~ pure (map_err PIo (settle r)) ;;
  match post with
  | [] => pure (Ok (Some tt))
  | _ :: _ =>
      backend <~ get_connection_prog post client ;;
      send_to_backend_prog backend post ~;;
      bidirectional_copy_prog fuel client backend buf_size
  end.

Definition run_plain_prog (fuel : nat) (client : sock) (initial : bytes) (buf_size : nat)
  : PT (option unit) :=
  backend <~ get_connection_prog initial client ;;
  send_to_backend_prog backend initial ~;;
  active <~ activate_sockmap_prog client ;;
  if active : bool then atom (io_read client 1) ~;; pure (Ok (Some tt))
  else bidirectional_copy_prog fuel client backend buf_size.

(** A stream is dropped when the program that owns it is done. *)
Definition dropping_prog {A} (s : sock) (p : PT (option A)) : PT (option A) :=
  r <~ pattempt p ;;
  match r with
  | Ok None => pure (Ok None)
  | _ => atom (io_close s) ~;; pure r
  end.

Definition run_client_prog (fuel : nat) (sh : Shared) (port : Z) (client : sock) : PT (option unit) :=
  let buf_size := Z.to_nat (sh_receive_buffer_size sh) in
  dropping_prog client (
    first <~ read_some_prog fuel client buf_size ;;
    match first with
    | None => pure (Ok None)
    | Some [] => pure (Ok (Some tt))
    | Some initial =>
        if (port =? 5432) && sh_tls_acceptor sh && is_postgresql_ssl_request initial
        then run_starttls_prog fuel client buf_size
        else run_plain_prog fuel client initial buf_size
    end).

Definition handle_client_prog (fuel : nat) (sh : Shared) (port : Z) (client : sock) : PT (option unit) :=
  result <~ pattempt (run_client_prog fuel sh port client) ;;
  match result with
  | Ok None => pure (Ok None)
  | _ => close_connection_prog client ~;; pure result
  end.
End Progs.

(** ** Alone, the cut programs are the sequential ones *)
Section Alone.
Context `{Env} {CD CR KC KP : Type} `{TtlCache bytes IpAddr CD} `{TtlCache bytes CacheEntry CR}.
Context `{KvStore sock TcpClient KC} `{KvStore sock sock KP} `{BpfLib U Obj}.

Abbreviation State := (TcpState CD CR KC KP Obj).

Lemma run_write_all_prog s data :
  run (write_all_prog (CD := CD) (CR := CR) (KC := KC) (KP := KP) (Obj := Obj) s data) ≗ write_all s data.
Proof. unfold write_all_prog, write_all. by repeat run_step. Qed.
Lemma run_flush_prog s :
  run (flush_prog (CD := CD) (CR := CR) (KC := KC) (KP := KP) (Obj := Obj) s) ≗ flush s.
Proof. unfold flush_prog, flush. by repeat run_step. Qed.

Lemma run_try_read_loop_prog fuel stream max :
  run (try_read_loop_prog (CD := CD) (CR := CR) (KC := KC) (KP := KP) (Obj := Obj) fuel stream max)
  ≗ try_read_loop fuel stream max.
Proof.
  induction fuel as [|fuel IH]; cbn [try_read_loop_prog try_read_loop]; [done|].
  repeat run_step; done.
Qed.

Lemma run_read_some_prog fuel stream max :
  run (read_some_prog (CD := CD) (CR := CR) (KC := KC) (KP := KP) (Obj := Obj) fuel stream max)
  ≗ read_some fuel stream max.
Proof. unfold read_some_prog, read_some. do 2 run_step. apply run_try_read_loop_prog. Qed.

Lemma run_send_to_backend_prog backend data :
  run (send_to_backend_prog (CD := CD) (CR := CR) (KC := KC) (KP := KP) (Obj := Obj) backend data)
  ≗ send_to_backend backend data.
Proof. apply run_call; [apply run_write_all_prog|intros _; apply run_flush_prog]. Qed.

Lemma run_forward_serialised_prog fuel client backend n :
  run (forward_serialised_prog (CD := CD) (CR := CR) (KC := KC) (KP := KP) (Obj := Obj) fuel client backend n)
  ≗ forward_serialised fuel client backend n.
Proof.
  induction fuel as [|fuel IH]; cbn [forward_serialised_prog forward_serialised]; [done|].
  run_step. destruct a; repeat run_step; done.
Qed.

Lemma run_bidirectional_copy_prog fuel client backend n :
  run (bidirectional_copy_prog (CD := CD) (CR := CR) (KC := KC) (KP := KP) (Obj := Obj) fuel client backend n)
  ≗ bidirectional_copy fuel client backend n.
Proof.
  apply run_read_bind. intros s t. pointwise.
  case_bool_decide; [apply run_forward_serialised_prog|]. by repeat run_step.
Qed.

Lemma run_dial_prog host port :
  run (dial_prog (CD := CD) (CR := CR) (KC := KC) (KP := KP) (Obj := Obj) host port) ≗ dial host port.
Proof.
  apply run_read_bind. intros s t. pointwise. repeat run_step; done.
Qed.

Lemma ts_routing_lens : lens (ts_routing (CD := CD) (CR := CR) (KC := KC) (KP := KP) (Obj := Obj)) ts_set_routing.
Proof. split; [done|by intros [? ?] ?|done|by intros [[] ? ?]]. Qed.

Lemma run_get_connection_prog data fd :
  run (get_connection_prog (CD := CD) (CR := CR) (KC := KC) (KP := KP) (Obj := Obj) data fd)
  ≗ get_connection data fd.
Proof.
  apply run_read_bind. intros s t. pointwise.
  destruct (kv_get _ fd); [done|]. apply run_call.
  { rewrite run_pwith_err, (run_pzoom _ _ _ ts_routing_lens). unfold tcp_route. by rewrite run_route_prog. }
  intros res. destruct (parse_endpoint _ _) as [host port].
  apply run_call; [apply run_dial_prog|]. intros stream. by repeat run_step.
Qed.

Lemma run_activate_sockmap_prog client :
  run (activate_sockmap_prog (CD := CD) (CR := CR) (KC := KC) (KP := KP) (Obj := Obj) client)
  ≗ activate_sockmap client.
Proof.
  intros s t. unfold activate_sockmap_prog, activate_sockmap, read_field, insert_pair.
  cbn. unfold bind. cbn. destruct (ta_sockmap _); [|done]. cbn. unfold bind. cbn.
  destruct (sm_available _); [|done]. cbn. unfold bind. cbn.
  destruct (kv_get _ client) as [c|]; [|done]. destruct (c_fd c <=? 0); [done|]. cbn. unfold bind. cbn.
  by destruct (sockmap_insert_pair t client (c_fd c) (ts_sockmap s)) as [[|] sm].
Qed.

Lemma run_close_connection_prog fd :
  run (close_connection_prog (CD := CD) (CR := CR) (KC := KC) (KP := KP) (Obj := Obj) fd)
  ≗ close_connection fd.
Proof.
  intros s t. unfold close_connection_prog, close_connection, take_pair, take_connection, read_field.
  cbn. unfold bind, get, modify, ret, io_close. cbn.
  destruct (kv_get (ta_sockmap_pairs _) fd); cbn; unfold bind; cbn.
  - destruct (ta_sockmap _) eqn:Es; cbn; unfold bind; cbn; by destruct (kv_get _ fd).
  - by destruct (kv_get _ fd).
Qed.

Lemma run_run_starttls_prog fuel client n :
  run (run_starttls_prog (CD := CD) (CR := CR) (KC := KC) (KP := KP) (Obj := Obj) fuel client n)
  ≗ run_starttls fuel client n.
Proof.
  apply run_call; [apply run_write_all_prog|intros _].
  apply run_call; [apply run_flush_prog|intros _]. do 4 run_step.
  destruct a2; [done|]. apply run_call; [apply run_get_connection_prog|intros backend].
  apply run_call; [apply run_send_to_backend_prog|intros _]. apply run_bidirectional_copy_prog.
Qed.

Lemma run_run_plain_prog fuel client initial n :
  run (run_plain_prog (CD := CD) (CR := CR) (KC := KC) (KP := KP) (Obj := Obj) fuel client initial n)
  ≗ run_plain fuel client initial n.
Proof.
  apply run_call; [apply run_get_connection_prog|intros backend].
  apply run_call; [apply run_send_to_backend_prog|intros _].
  apply run_call; [apply run_activate_sockmap_prog|intros [|]]; [|apply run_bidirectional_copy_prog].
  unfold wait_for_close. intros s t. done.
Qed.

Lemma run_dropping_prog {A} s (p : PT (CD := CD) (CR := CR) (KC := KC) (KP := KP) (Obj := Obj) (option A)) :
  run (dropping_prog s p) ≗ dropping s (run p).
Proof.
  unfold dropping_prog. rewrite run_pbind, run_pattempt. intros st t. unfold bind, attempt, dropping.
  by destruct (run p st t) as [[[[a|]|e] st'] t'].
Qed.

#[export] Instance dropping_proper {S E A} (s : sock) : Proper (meq ==> meq) (@dropping _ S E A s).
Proof. intros m1 m2 Hm st t. unfold dropping. by rewrite Hm. Qed.

Lemma run_run_client_prog fuel sh port client :
  run (run_client_prog (CD := CD) (CR := CR) (KC := KC) (KP := KP) (Obj := Obj) fuel sh port client)
  ≗ run_client fuel sh port client.
Proof.
  unfold run_client_prog, run_client. rewrite run_dropping_prog. apply dropping_proper.
  apply run_call; [apply run_read_some_prog|]. intros [[|c first]|]; [done| |done].
  case_match; [apply run_run_starttls_prog|apply run_run_plain_prog].
Qed.

Lemma run_handle_client_prog fuel sh port client :
  run (handle_client_prog (CD := CD) (CR := CR) (KC := KC) (KP := KP) (Obj := Obj) fuel sh port client)
  ≗ TcpServer.handle_client fuel sh port client.
Proof.
  unfold handle_client_prog, TcpServer.handle_client. rewrite run_pbind, run_pattempt, run_run_client_prog.
  apply bind_proper; [done|].
  intros [[u|]|e]; [|done|]; (apply run_call; [apply run_close_connection_prog|done]).
Qed.
End Alone.

(** ** Where bytes and connections come from *)
Section Confinement.
Context `{Env} {CD CR KC KP : Type} `{TtlCacheLaws bytes IpAddr CD} `{TtlCacheLaws bytes CacheEntry CR}.
Context `{KvStore sock TcpClient KC, !KvStoreLaws sock TcpClient KC} `{KvStore sock sock KP} `{BpfLib U Obj}.

Abbreviation State := (TcpState CD CR KC KP Obj).
Implicit Types (s : State) (t : trace).

(** [host]:[port] is what dialling the endpoint routed for [data] means. *)
Definition routed_to (may_skip : bool) (default_port : Z) (data host : bytes) (port : Z) t : Prop :=
  exists out, routed_from may_skip t data out /\ parse_endpoint out default_port = (host, port).

(** [backend] was dialled for data that came from the client [fd]. *)
Definition backend_of (may_skip : bool) (default_port : Z) (fd : sock) (backend : TcpClient) t : Prop :=
  exists data host port,
    chunk_from fd data t /\ routed_to may_skip default_port data host port t
    /\ EvConnect host port (Done (Ok (c_stream backend))) ∈ t.

(** Whom a dialling is for, and where written bytes came from: from the other
    end of the same connection, or they are the answer to an SSLRequest. *)
Definition event_confined (may_skip : bool) t (ev : event) : Prop :=
  match ev with
  | EvConnect host port _ =>
      exists default_port fd data,
        chunk_from fd data t /\ routed_to may_skip default_port data host port t
  | EvWrite to data _ =>
      (data = [PG_SSL_RESPONSE_OK]
       /\ exists request, chunk_from to request t /\ is_postgresql_ssl_request request = true)
      \/ exists default_port fd backend, backend_of may_skip default_port fd backend t
         /\ (to = c_stream backend /\ chunk_from fd data t
             \/ to = fd /\ chunk_from (c_stream backend) data t)
  | EvCopy fd stream =>
      exists default_port backend,
        backend_of may_skip default_port fd backend t /\ stream = c_stream backend
  | EvHttpRequest _ _ | EvHttpReply _ _ => False
  | _ => True
  end.

Lemma routed_to_later may_skip p data host port t t' :
  t `suffix_of` t' -> routed_to may_skip p data host port t -> routed_to may_skip p data host port t'.
Proof. intros Ht (out & Hr & Hp). exists out. split; [by eapply routed_from_later|done]. Qed.

Lemma backend_of_later may_skip p fd c t t' :
  t `suffix_of` t' -> backend_of may_skip p fd c t -> backend_of may_skip p fd c t'.
Proof.
  intros Ht (data & host & port & Hc & Hr & Hin). exists data, host, port.
  split; [by eapply chunk_from_later|]. split; [by eapply routed_to_later|].
  destruct Ht as [l ->]. set_solver.
Qed.

Lemma event_confined_later may_skip ev t t' :
  t `suffix_of` t' -> event_confined may_skip t ev -> event_confined may_skip t' ev.
Proof.
  intros Ht. destruct ev; cbn; try done.
  - intros (p & fd & d & Hc & Hr). exists p, fd, d.
    split; [by eapply chunk_from_later|by eapply routed_to_later].
  - intros [(-> & rq & Hc & Hrq)|(p & fd & c & Hb & Hd)].
    + left. split; [done|]. exists rq. split; [by eapply chunk_from_later|done].
    + right. exists p, fd, c. split; [by eapply backend_of_later|].
      destruct Hd as [[-> Hc]|[-> Hc]]; [left|right]; (split; [done|by eapply chunk_from_later]).
  - intros (p & c & Hb & ->). exists p, c. split; [by eapply backend_of_later|done].
Qed.

(** What the connections of one port share. *)
Record port_inv (may_skip : bool) (port : Z) s t : Prop := mkPortInv {
  pi_routing : shared_inv may_skip (ts_routing s) t;
  pi_port : ta_port (ts_adapter s) = port;
  pi_table : forall fd c, kv_get (ta_connections (ts_adapter s)) fd = Some c ->
               backend_of may_skip port fd c t;
  pi_events : Forall (event_confined may_skip t) t }.

Lemma events_confined_cons may_skip ev t :
  event_confined may_skip (ev :: t) ev -> Forall (event_confined may_skip t) t ->
  Forall (event_confined may_skip (ev :: t)) (ev :: t).
Proof.
  intros Hev Ht. constructor; [done|]. eapply Forall_impl; [exact Ht|].
  intros e. apply event_confined_later. by exists [ev].
Qed.

Lemma events_confined_quiet may_skip t t' :
  extends routing_event t t' -> Forall (event_confined may_skip t) t ->
  Forall (event_confined may_skip t') t'.
Proof.
  intros (l & -> & Hl) Ht. induction Hl as [|ev l Hev _ IH]; [done|].
  cbn. apply events_confined_cons; [by destruct ev|done].
Qed.

Lemma port_inv_event may_skip port s t ev :
  event_confined may_skip (ev :: t) ev -> port_inv may_skip port s t -> port_inv may_skip port s (ev :: t).
Proof.
  intros Hev [Hr Hp Htab He]. assert (Ht : t `suffix_of` ev :: t) by by exists [ev].
  split; [by apply shared_inv_cons|done| |by apply events_confined_cons].
  intros fd c Hc. eapply backend_of_later; [exact Ht|by apply Htab].
Qed.

(** Changes of the adapter that keep its routing part and do not add to its
    table. *)
Lemma port_inv_update may_skip port s s' t :
  port_inv may_skip port s t -> ts_routing s' = ts_routing s ->
  ta_port (ts_adapter s') = ta_port (ts_adapter s) ->
  (forall fd c, kv_get (ta_connections (ts_adapter s')) fd = Some c ->
     kv_get (ta_connections (ts_adapter s)) fd = Some c \/ backend_of may_skip port fd c t) ->
  port_inv may_skip port s' t.
Proof.
  intros [Hr Hp Htab He] Hr' Hp' Ht'. split; [by rewrite Hr'|by rewrite Hp'| |done].
  intros fd c [Hc|Hc]%Ht'; [by apply Htab|done].
Qed.

(** ** Every step keeps this *)

Abbreviation P := (prog State ProxyError).
Context (may_skip : bool) (port : Z).
Abbreviation Inv := (port_inv may_skip port).
Abbreviation later Q := (forall t t' r, t `suffix_of` t' -> Q t r -> Q t' r).

Lemma port_admits : admits (event_confined may_skip) Inv.
Proof. intros s t ev. apply port_inv_event. Qed.

Lemma sound_port_event {A} (f : trace -> A) ev (Q : trace -> result ProxyError A -> Prop) t0 :
  (forall t, t0 `suffix_of` t -> event_confined may_skip (ev (f t) :: t) (ev (f t))) ->
  (forall t, t0 `suffix_of` t -> Q (ev (f t) :: t) (Ok (f t))) ->
  sound Inv Q t0 (atom (S := State) (io_event f ev)).
Proof. apply sound_admitted, port_admits. Qed.

(** An I/O operation that dials nothing and sends nothing, and the rest. *)
Lemma sound_port_quiet {A C} (f : trace -> A) ev (Q : trace -> result ProxyError C -> Prop)
    (k : A -> P C) t0 :
  (forall t a, event_confined may_skip t (ev a)) ->
  (forall a t, t0 `suffix_of` t -> ev a ∈ t -> sound Inv Q t (k a)) ->
  sound Inv Q t0 (pbind (atom (io_event f ev)) k).
Proof. apply sound_quiet, port_admits. Qed.

(** A change of the tables, and the rest. *)
Lemma sound_port_update {A} (Q : trace -> result ProxyError A -> Prop) (m : M State ProxyError A) t0 :
  (forall s t, t0 `suffix_of` t -> Inv s t ->
     exists a s', m s t = (Ok a, s', t) /\ Q t (Ok a)
       /\ ts_routing s' = ts_routing s /\ ta_port (ts_adapter s') = ta_port (ts_adapter s)
       /\ forall fd c, kv_get (ta_connections (ts_adapter s')) fd = Some c ->
            kv_get (ta_connections (ts_adapter s)) fd = Some c \/ backend_of may_skip port fd c t) ->
  sound Inv Q t0 (atom m).
Proof.
  intros Hm. apply sound_atom. intros s t Ht HI. unfold wp.
  destruct (Hm s t Ht HI) as (a & s' & -> & HQ & Hr & Hp & Htab).
  split; [by eapply port_inv_update|]. by split.
Qed.

Lemma sound_try_read_loop fuel stream max t0 :
  sound Inv (fun t r => match r with Ok (Some data) => chunk_from stream data t | _ => True end) t0
    (try_read_loop_prog fuel stream max).
Proof.
  revert t0. induction fuel as [|fuel IH]; intros t0; cbn [try_read_loop_prog]; [done|].
  apply (sound_port_quiet (fun t => env_read t stream max)); [done|]. intros r t Ht Hin.
  destruct (settle r) as [data|e] eqn:Er.
  - apply settle_ok in Er as ->. by exists max.
  - destruct (io_error_kind e); try done.
    apply (sound_port_quiet (fun t => env_readable t stream)); [done|]. intros rd t1 Ht1 _.
    by apply sound_map_err.
Qed.

Lemma sound_read_some fuel stream max t0 :
  sound Inv (fun t r => match r with Ok (Some data) => chunk_from stream data t | _ => True end) t0
    (read_some_prog fuel stream max).
Proof.
  apply (sound_port_quiet (fun t => env_readable t stream)); [done|]. intros rd t1 Ht1 _.
  apply sound_map_err; [done|]. intros _ _. apply sound_try_read_loop.
Qed.

Definition may_write (to : sock) (data : bytes) t0 : Prop :=
  forall t r, t0 `suffix_of` t -> event_confined may_skip t (EvWrite to data r).

Lemma sound_write_all to data t0 :
  may_write to data t0 -> sound Inv (fun _ _ => True) t0 (write_all_prog to data).
Proof.
  intros Hw. apply sound_then; [|by intros r t _; destruct (settle r)|done].
  apply (sound_port_event (fun t => env_write t to data)); [|done].
  intros t Ht. apply Hw. by apply suffix_cons_r.
Qed.

Lemma sound_flush to t0 : sound Inv (fun _ _ => True) t0 (flush_prog to).
Proof.
  apply (sound_port_quiet (fun t => env_flush t to)); [done|]. intros r t _ _. by destruct (settle r).
Qed.

(** Either end of a connection may be sent what the other end sent. *)
Lemma may_write_backend fd backend data t0 :
  backend_of may_skip port fd backend t0 -> chunk_from fd data t0 -> may_write (c_stream backend) data t0.
Proof.
  intros Hb Hc t r Ht. right. exists port, fd, backend.
  split; [by eapply backend_of_later|]. left. split; [done|by eapply chunk_from_later].
Qed.
Lemma may_write_client fd backend data t0 :
  backend_of may_skip port fd backend t0 -> chunk_from (c_stream backend) data t0 -> may_write fd data t0.
Proof.
  intros Hb Hc t r Ht. right. exists port, fd, backend.
  split; [by eapply backend_of_later|]. right. split; [done|by eapply chunk_from_later].
Qed.

Lemma sound_send_to_backend fd backend data t0 :
  backend_of may_skip port fd backend t0 -> chunk_from fd data t0 ->
  sound Inv (fun _ _ => True) t0 (send_to_backend_prog backend data).
Proof.
  intros Hb Hc. apply sound_then; [|intros _ t _; apply sound_flush|done].
  apply sound_write_all. by eapply may_write_backend.
Qed.

Lemma sound_forward_serialised fuel fd backend n t0 :
  backend_of may_skip port fd backend t0 ->
  sound Inv (fun _ _ => True) t0 (forward_serialised_prog fuel fd backend n).
Proof.
  revert t0. induction fuel as [|fuel IH]; intros t0 Hb; cbn [forward_serialised_prog]; [done|].
  apply (sound_port_quiet env_select); [done|]. intros ready t Ht _.
  assert (Hb1 : backend_of may_skip port fd backend t) by by eapply backend_of_later.
  set (ends := if ready : bool then (fd, c_stream backend) else (c_stream backend, fd)).
  destruct ends as [from to] eqn:Eends.
  apply (sound_port_quiet (fun t => env_read t from n)); [done|]. intros r t1 Ht1 Hin.
  destruct (settle r) as [[|c data]|e] eqn:Er; [done| |done]. apply settle_ok in Er as ->.
  assert (Hb2 : backend_of may_skip port fd backend t1) by by eapply backend_of_later.
  assert (Hc : chunk_from from (c :: data) t1) by by exists n.
  apply sound_then; [|intros w t2 Ht2; destruct (settle w); [|done]; apply IH; by eapply backend_of_later|done].
  apply (sound_port_event (fun t => env_write t to (c :: data))); [|done]. intros t2 Ht2.
  assert (Hw : may_write to (c :: data) t1).
  { unfold ends in Eends. destruct ready; injection Eends as <- <-;
      [by eapply may_write_backend|by eapply may_write_client]. }
  apply Hw. by apply suffix_cons_r.
Qed.

Lemma sound_bidirectional_copy fuel fd backend n t0 :
  backend_of may_skip port fd backend t0 ->
  sound Inv (fun _ _ => True) t0 (bidirectional_copy_prog fuel fd backend n).
Proof.
  intros Hb. apply sound_reading. intros [|] t Ht.
  - apply sound_forward_serialised. by eapply backend_of_later.
  - apply sound_then; [|done|done].
    apply (sound_port_event (fun _ => tt) (fun _ => EvCopy fd (c_stream backend))); [|done].
    intros t1 Ht1. exists port, backend. split; [|done]. eapply backend_of_later; [|exact Hb].
    apply suffix_cons_r. by etrans.
Qed.

(** ** Routing and dialling *)

Lemma port_inv_quiet s l t :
  (forall ev, ev ∈ l -> forall t, event_confined may_skip t ev) -> Inv s t -> Inv s (l ++ t).
Proof.
  intros Hl HI. induction l as [|ev l IH]; [done|]. cbn.
  apply port_inv_event; [apply Hl; by left|]. apply IH. intros e He. apply Hl. by right.
Qed.

Lemma port_inv_routing s t (x : Routing CD CR) t' :
  Inv s t -> shared_inv may_skip x t' -> extends routing_event t t' -> Inv (ts_set_routing x s) t'.
Proof.
  intros [Hr Hp Htab He] Hx Ht.
  assert (Hsuf : t `suffix_of` t') by (destruct Ht as (l & -> & _); by exists l).
  split; [by destruct x|done| |by eapply events_confined_quiet].
  intros fd c Hc. eapply backend_of_later; [exact Hsuf|by apply Htab].
Qed.

Lemma sound_tcp_route data t0 :
  sound Inv (fun t r => match r with Ok cr => routed_from may_skip t data (cr_endpoint cr) | Err _ => True end)
    t0 (pwith_err PResolver (pzoom ts_routing ts_set_routing (route_prog data))).
Proof.
  apply sound_with_err, (sound_zoom _ (shared_inv may_skip) routing_event).
  - by intros s t [].
  - intros s t x t'. apply port_inv_routing.
  - apply pemits_route.
  - eapply sound_mono; [|apply sound_route]. by intros t [cr|e].
Qed.

Lemma sound_apply_socket_options stream t0 :
  sound (E := ProxyError) Inv (fun _ _ => True) t0 (atom (apply_socket_options stream)).
Proof.
  apply sound_atom. intros s t Ht HI. apply wp_apply_socket_options. intros l Hl.
  rewrite Forall_forall in Hl. split; [|by split; [exists l|]].
  apply port_inv_quiet; [|done]. intros ev Hev t1. apply Hl in Hev. by destruct ev.
Qed.

Lemma sound_dial fd data host p t0 :
  chunk_from fd data t0 -> routed_to may_skip port data host p t0 ->
  sound Inv (fun t r => match r with Ok stream => EvConnect host p (Done (Ok stream)) ∈ t | _ => True end) t0
    (dial_prog host p).
Proof.
  intros Hc Hr. apply sound_reading. intros limit t Ht.
  apply (sound_bind _ _ (fun t r => match r with Ok o => EvConnect host p o ∈ t | Err _ => False end)).
  - apply (sound_port_event (fun t => env_connect t host p limit)); [|intros; set_solver].
    intros t1 Ht1. exists port, fd, data.
    assert (Hl : t0 `suffix_of` EvConnect host p (env_connect t1 host p limit) :: t1)
      by (apply suffix_cons_r; by etrans).
    split; [by eapply chunk_from_later|by eapply routed_to_later].
  - intros [[stream|e]|] t1 Ht1 Hin; [|done..].
    apply (sound_port_quiet (fun t => env_nodelay t stream)); [done|]. intros [u|e] t2 Ht2 _.
    + apply sound_then; [apply sound_apply_socket_options| |done]. intros _ t3 Ht3.
      assert (Ht13 : t1 `suffix_of` t3) by by etrans. destruct Ht13 as [l ->]. cbn. set_solver.
    + by apply (sound_port_quiet (fun _ => tt) (fun _ => EvClose stream)).
  - done.
Qed.

Definition backend_post (fd : sock) t (r : result ProxyError TcpClient) : Prop :=
  match r with Ok backend => backend_of may_skip port fd backend t | Err _ => True end.

Lemma sound_get_connection data fd t0 :
  chunk_from fd data t0 -> sound Inv (backend_post fd) t0 (get_connection_prog data fd).
Proof.
  intros Hc.
  apply (sound_bind _ _ (fun t r => match r with
    | Ok (Some c, p) => backend_of may_skip port fd c t /\ p = port
    | Ok (None, p) => p = port
    | Err _ => False end)); [| |done].
  { apply sound_read. intros s t _ [_ Hp Htab _]. destruct (kv_get _ fd) eqn:E; [|done].
    split; [by apply Htab|done]. }
  intros [[c|] p] t Ht Hfound; [by destruct Hfound|]. subst p.
  eapply sound_bind; [apply sound_tcp_route| |done]. intros res t1 Ht1 Hr.
  destruct (parse_endpoint (cr_endpoint res) port) as [host p] eqn:Ep.
  assert (Hc1 : chunk_from fd data t1) by (eapply chunk_from_later; [|exact Hc]; by etrans).
  assert (Hd : routed_to may_skip port data host p t1) by (by exists (cr_endpoint res)).
  eapply sound_bind; [by apply (sound_dial fd data)| |done]. intros stream t2 Ht2 Hin.
  assert (Hb : backend_of may_skip port fd (mkTcpClient stream stream) t2).
  { exists data, host, p. split; [by eapply chunk_from_later|].
    split; [by eapply routed_to_later|done]. }
  apply sound_then; [|intros _ t3 Ht3; by eapply backend_of_later|done].
  apply sound_port_update. intros s t3 Ht3 HI. eexists _, _. split; [reflexivity|].
  split_and!; try done. intros fd' c. cbn. rewrite kv_get_insert.
  destruct (decide (fd = fd')) as [<-|]; [|by left]. intros [= <-]. right. by eapply backend_of_later.
Qed.

(** ** The whole connection *)

(** A step that leaves routing and connection tables alone. *)
Lemma sound_port_silent {A} (m : M State ProxyError A) t0 :
  (forall s t, exists a s', m s t = (Ok a, s', t) /\ ts_routing s' = ts_routing s
     /\ ta_port (ts_adapter s') = ta_port (ts_adapter s)
     /\ forall fd c, kv_get (ta_connections (ts_adapter s')) fd = Some c ->
          kv_get (ta_connections (ts_adapter s)) fd = Some c) ->
  sound Inv (fun _ _ => True) t0 (atom m).
Proof.
  intros Hm. apply sound_port_update. intros s t _ _.
  destruct (Hm s t) as (a & s' & E & Hr & Hp & Htab). exists a, s'. split_and!; auto.
Qed.

Lemma sound_activate_sockmap client t0 :
  sound Inv (fun _ _ => True) t0 (activate_sockmap_prog client).
Proof.
  apply sound_reading. intros [|] t1 _; [|done]. apply sound_reading. intros [|] t2 _; [|done].
  apply sound_reading. intros [c|] t3 _; [|done]. cbv zeta. destruct (c_fd c <=? 0); [done|].
  apply sound_then; [| |done].
  { apply sound_port_silent. intros s t. unfold insert_pair.
    destruct (sockmap_insert_pair _ _ _ _) as [ok sm]. by eexists _, _. }
  intros [|] t4 _; [|done]. apply sound_then; [|done|done].
  apply sound_port_silent. intros s t. by eexists _, _.
Qed.

Lemma sound_close_connection fd t0 : sound Inv (fun _ _ => True) t0 (close_connection_prog fd).
Proof.
  apply sound_then; [| |done].
  { apply sound_port_silent. intros s t. unfold take_pair, bind, get, modify, ret.
    destruct (kv_get (ta_sockmap_pairs _) fd); eexists _, _; (split; [reflexivity|]); done. }
  intros had t1 _. apply sound_then; [| |done].
  { destruct had; [|done]. apply sound_reading. intros [|] t2 _; [|done].
    apply sound_port_silent. intros s t. by eexists _, _. }
  intros _ t2 _. apply sound_then; [| |done].
  { apply sound_port_silent. intros s t. unfold take_connection, bind, get, modify, ret.
    destruct (kv_get (ta_connections _) fd); eexists _, _; (split; [reflexivity|]); split_and!; try done.
    intros fd' c. cbn. rewrite kv_get_remove. by case_decide. }
  intros [c|] t3 _; [|done]. by apply (sound_port_event (fun _ => tt) (fun _ => EvClose (c_stream c))).
Qed.

(** What follows once the first packet is known. *)
Lemma sound_serve {A} (rest : TcpClient -> P A) data fd t0 :
  chunk_from fd data t0 ->
  (forall backend t, backend_of may_skip port fd backend t ->
     sound Inv (fun _ _ => True) t (rest backend)) ->
  sound Inv (fun _ _ => True) t0
    (backend <~ get_connection_prog data fd ;; send_to_backend_prog backend data ~;; rest backend).
Proof.
  intros Hc Hrest. eapply sound_bind; [by apply sound_get_connection| |done].
  intros backend t Ht Hb. cbn in Hb. apply sound_then; [| |done].
  - eapply sound_send_to_backend; [done|]. by eapply chunk_from_later.
  - intros _ t1 Ht1. apply Hrest. by eapply backend_of_later.
Qed.

Lemma sound_run_plain fuel fd initial n t0 :
  chunk_from fd initial t0 -> sound Inv (fun _ _ => True) t0 (run_plain_prog fuel fd initial n).
Proof.
  intros Hc. apply sound_serve; [done|]. intros backend t Hb.
  apply sound_then; [apply sound_activate_sockmap| |done]. intros [|] t1 Ht1.
  - by apply (sound_port_quiet (fun t => env_read t fd 1)).
  - apply sound_bidirectional_copy. by eapply backend_of_later.
Qed.

Lemma sound_run_starttls fuel fd request n t0 :
  chunk_from fd request t0 -> is_postgresql_ssl_request request = true ->
  sound Inv (fun _ _ => True) t0 (run_starttls_prog fuel fd n).
Proof.
  intros Hc Hrq. apply sound_then; [| |done].
  { apply sound_write_all. intros t r Ht. left. split; [done|]. exists request.
    split; [by eapply chunk_from_later|done]. }
  intros _ t1 _. apply sound_then; [apply sound_flush| |done]. intros _ t2 _.
  apply (sound_port_quiet (fun t => env_tls_accept t fd)); [done|]. intros r t3 _ _.
  apply sound_map_err; [done|]. intros _ _.
  apply (sound_port_quiet (fun t => env_read t fd n)); [done|]. intros rd t4 _ Hin.
  apply sound_map_err; [done|]. intros [|c post] Er; [done|]. apply settle_ok in Er as ->.
  apply sound_serve; [by exists n|]. intros backend t Hb. by apply sound_bidirectional_copy.
Qed.

Lemma sound_handle_client fuel sh p client t0 :
  sound Inv (fun _ _ => True) t0 (handle_client_prog fuel sh p client).
Proof.
  apply sound_then; [| |done].
  - apply sound_attempt, sound_then; [| |done].
    + apply sound_attempt. eapply sound_bind; [apply sound_read_some| |done].
      intros [[|c first]|] t Ht Hc; [done| |done].
      destruct (_ && _) eqn:Erq; [|by apply sound_run_plain].
      apply andb_prop in Erq as [_ Erq]. by eapply sound_run_starttls.
    + intros r t1 _.
      assert (Hclose : sound Inv (fun _ _ => True) t1 (atom (io_close client) ~;; pure r)).
      { by apply (sound_port_quiet (fun _ => tt) (fun _ => EvClose client)). }
      by destruct r as [[|]|].
  - intros r t1 _.
    assert (Hclose : sound Inv (fun _ _ => True) t1 (close_connection_prog client ~;; pure r)).
    { by apply sound_then; [apply sound_close_connection| |]. }
    by destruct r as [[|]|].
Qed.
End Confinement.

(** ** The server: the connections of all its ports *)
Section Server.
Context `{Env} {CD CR KC KP : Type} `{TtlCacheLaws bytes IpAddr CD} `{TtlCacheLaws bytes CacheEntry CR}.
Context `{KvStore sock TcpClient KC, !KvStoreLaws sock TcpClient KC} `{KvStore sock sock KP} `{BpfLib U Obj}.
Context {Config : Type}.

Abbreviation State := (TcpState CD CR KC KP Obj).
Abbreviation Server := (TcpServer CD CR KC KP Obj Config).
Implicit Types (sv : Server) (t : trace).

(** What a port's connections see of the server. *)
Definition port_state (port : Z) sv : State :=
  mkTcpState (unwrap_or (tcp_adapter_new port None) (sv_adapters sv !! port)) (sv_dns sv) (sv_sockmap sv).
Definition set_port_state (port : Z) (x : State) sv : Server :=
  mkTcpServer (sv_config sv) (<[port := ts_adapter x]> (sv_adapters sv)) (sv_tls_acceptor sv)
    (ts_dns x) (ts_sockmap x).

(** [handle_connection], the program of a spawned task. *)
Definition handle_connection_prog (fuel : nat) (port : Z) (client : sock)
  : prog Server ProxyError (option unit) :=
  found <~ read_field (fun sv => (bool_decide (is_Some (sv_adapters sv !! port)), sv_shared sv)) ;;
  let '(has_adapter, sh) := found in
  if has_adapter : bool then
    pzoom (port_state port) (set_port_state port) (handle_client_prog fuel sh port client)
  else
    atom (io_close client) ~;;
    pure (Err (PConfiguration (B "no adapter for port " ++ print_dec port))).

Lemma port_lens port :
  lens_on (fun sv => is_Some (sv_adapters sv !! port)) (port_state port) (set_port_state port).
Proof.
  split.
  - intros x sv _. cbn. rewrite lookup_insert_eq. by eexists.
  - intros [a d l] sv _. unfold port_state. cbn. by rewrite lookup_insert_eq.
  - intros x y sv _. unfold set_port_state. cbn. by rewrite insert_insert_eq.
  - intros [c m acc d l] [a Ha]. unfold port_state, set_port_state. cbn in *. rewrite Ha. cbn.
    by rewrite insert_id.
Qed.

Lemma run_handle_connection_prog fuel port client :
  run (handle_connection_prog fuel port client) ≗ handle_connection (Config := Config) fuel port client.
Proof.
  apply run_read_bind. intros sv t. cbv beta iota. destruct (sv_adapters sv !! port) as [a|] eqn:Ea.
  - rewrite bool_decide_eq_true_2 by by eexists.
    rewrite (run_pzoom_on _ _ _ _ _ _ (port_lens port)) by by rewrite Ea.
    unfold zoom, on_port, port_state. rewrite Ea. cbn [unwrap_or].
    rewrite run_handle_client_prog.
    by destruct (TcpServer.handle_client fuel (sv_shared sv) port client _ t) as [[r x] t'].
  - by rewrite bool_decide_eq_false_2 by (by intros [? ?]).
Qed.

(** A round of [accept_loop] and the task it spawns. *)
Definition accept_connection_prog (fuel : nat) (listener : sock) (port : Z) : prog Server ProxyError unit :=
  config <~ read_field sv_config ;;
  r <~ atom (io_call (Accept listener)) ;;
  match r with
  | Ok client =>
      atom (apply_stream client config) ~;;
      pattempt (handle_connection_prog fuel port client) ~;;
      pure (Ok tt)
  | Err _ => atom (io_sleep (from_millis 50))
  end.

Lemma run_accept_connection_prog fuel listener port :
  run (accept_connection_prog fuel listener port) ≗ TcpServer.accept_once (Config := Config) fuel listener port.
Proof.
  apply run_read_bind. intros sv t. pointwise. run_step. destruct a as [client|e]; [|by run_step].
  run_step. apply run_call; [by rewrite run_pattempt, run_handle_connection_prog|done].
Qed.

(** ** Everything the tasks share is as it should be *)

Definition server_inv (may_skip : bool) (ports : list Z) sv t : Prop :=
  (forall port, is_Some (sv_adapters sv !! port) <-> port ∈ ports)
  /\ (forall port a, sv_adapters sv !! port = Some a ->
        port_inv may_skip port (mkTcpState a (sv_dns sv) (sv_sockmap sv)) t)
  /\ Forall (event_confined may_skip t) t.

(** The adapters of the other ports, when one port's connection has moved. *)
Lemma port_inv_elsewhere may_skip port port' (a : TcpAdapter CR KC KP) (d : Dns CD) (l : Sockmap Obj) t
    (x : State) t' :
  port_inv may_skip port' (mkTcpState a d l) t -> port_inv may_skip port x t' -> t `suffix_of` t' ->
  port_inv may_skip port' (mkTcpState a (ts_dns x) (ts_sockmap x)) t'.
Proof.
  intros [(Hd & Hc & Hs) Hp Htab He] [(Hd' & _) _ _ He'] Ht. split; [|done| |done].
  - split; [done|]. split; [|done]. intros k e n Hh. eapply routed_from_later; [exact Ht|by eapply Hc].
  - intros fd c Hfd. eapply backend_of_later; [exact Ht|by apply Htab].
Qed.

Lemma server_inv_put may_skip ports port sv t (x : State) t' :
  port ∈ ports -> server_inv may_skip ports sv t -> port_inv may_skip port x t' ->
  t `suffix_of` t' -> server_inv may_skip ports (set_port_state port x sv) t'.
Proof.
  intros Hin (Hports & Ha & He) Hx Ht. split; [|split; [|apply Hx]].
  - intros port'. cbn. destruct (decide (port = port')) as [<-|Hne].
    + rewrite lookup_insert_eq. by split.
    + by rewrite lookup_insert_ne.
  - intros port' a. cbn. destruct (decide (port = port')) as [<-|Hne].
    + rewrite lookup_insert_eq. intros [= <-]. by destruct x.
    + rewrite lookup_insert_ne by done. intros Ha'. eapply port_inv_elsewhere; [by apply Ha|exact Hx|done].
Qed.

Lemma server_inv_port may_skip ports port sv t :
  port ∈ ports -> server_inv may_skip ports sv t -> port_inv may_skip port (port_state port sv) t.
Proof.
  intros Hin (Hports & Ha & _). apply Hports in Hin as [a Hl].
  unfold port_state. rewrite Hl. by apply Ha.
Qed.

Lemma server_inv_event may_skip ports sv t ev :
  event_confined may_skip (ev :: t) ev -> server_inv may_skip ports sv t ->
  server_inv may_skip ports sv (ev :: t).
Proof.
  intros Hev (Hp & Ha & He). split; [done|]. split; [|by apply events_confined_cons].
  intros port a Hl. by apply port_inv_event, Ha.
Qed.

Lemma sound_handle_connection may_skip ports fuel port client t0 :
  sound (server_inv may_skip ports) (fun _ _ => True) t0 (handle_connection_prog fuel port client).
Proof.
  apply (sound_bind _ _ (fun _ r => match r with
    | Ok (has_adapter, _) => has_adapter = true -> port ∈ ports | Err _ => False end)); [| |done].
  { apply sound_read. intros sv t _ (Hports & _) Hsome.
    by apply Hports, (bool_decide_eq_true_1 _ Hsome). }
  intros [[|] sh] t _ Hport.
  - apply (sound_zoom_own _ (port_inv may_skip port)).
    + intros sv t1. by apply server_inv_port, Hport.
    + intros sv t1 x t2. by apply server_inv_put, Hport.
    + apply sound_handle_client.
  - eapply (sound_bind _ _ (fun _ _ => True)); [|done|done].
    apply (sound_event _ (fun _ => tt) (fun _ => EvClose client)); [|done].
    intros sv t1 _. by apply server_inv_event.
Qed.

(** ** What else happens in the process *)

(** I/O that neither dials nor sends nor copies. *)
Definition no_traffic (ev : event) : Prop :=
  match ev with
  | EvConnect _ _ _ | EvWrite _ _ _ | EvCopy _ _ | EvHttpRequest _ _ | EvHttpReply _ _ => False
  | _ => True
  end.

(** Other I/O (accepting above all); an adapter's routing reconfigured, its
    timeouts and socket options set; the sockmap loader used by anyone. *)
Inductive meanwhile (may_skip : bool) : Server * trace -> Server * trace -> Prop :=
| meanwhile_io ev sv t : no_traffic ev -> meanwhile may_skip (sv, t) (sv, ev :: t)
| meanwhile_routing port x sv t :
    is_Some (sv_adapters sv !! port) ->
    reconfigured may_skip (ts_routing (port_state port sv), t) (x, t) ->
    meanwhile may_skip (sv, t) (set_port_state port (ts_set_routing x (port_state port sv)) sv, t)
| meanwhile_settings port a a' sv t :
    sv_adapters sv !! port = Some a ->
    ta_base a' = ta_base a -> ta_port a' = ta_port a -> ta_connections a' = ta_connections a ->
    meanwhile may_skip (sv, t)
      (set_port_state port (mkTcpState a' (sv_dns sv) (sv_sockmap sv)) sv, t)
| meanwhile_loader l sv t :
    meanwhile may_skip (sv, t)
      (mkTcpServer (sv_config sv) (sv_adapters sv) (sv_tls_acceptor sv) (sv_dns sv) l, t).

Lemma server_inv_meanwhile may_skip ports sv t sv' t' :
  server_inv may_skip ports sv t -> meanwhile may_skip (sv, t) (sv', t') ->
  server_inv may_skip ports sv' t' /\ t `suffix_of` t'.
Proof.
  intros HI Hm. inversion Hm as [ev ? ? Hev|port x ? ? [a Ha] Hx|port a a' ? ? Ha Hb Hp Hc|l ? ?]; subst.
  - split; [|by exists [ev]]. apply server_inv_event; [by destruct ev|done].
  - split; [|done]. assert (Hin : port ∈ ports) by (apply HI; by eexists).
    apply (server_inv_put _ _ _ _ t'); [done|done| |done].
    pose proof (server_inv_port _ _ _ _ _ Hin HI) as Hport.
    pose proof (shared_inv_rely _ _ _ _ _ (pi_routing _ _ _ _ Hport) Hx) as [Hx' _].
    apply (port_inv_routing _ _ _ t'); [done|done|done].
  - split; [|done]. assert (Hin : port ∈ ports) by (apply HI; by eexists).
    apply (server_inv_put _ _ _ _ t'); [done|done| |done].
    destruct HI as (_ & Ha' & _). apply (port_inv_update _ _ _ _ _ (Ha' _ _ Ha)); [|done|].
    + unfold ts_routing. cbn. by rewrite Hb.
    + intros fd c. cbn. rewrite Hc. by left.
  - split; [|done]. destruct HI as (Hports & Ha & He). split; [done|]. split; [|done].
    intros port a Hl. cbn in *. apply (port_inv_update _ _ _ _ _ (Ha _ _ Hl)); [done|done|by left].
Qed.

(** A prepared server satisfies it. *)
Lemma build_adapter_inv resolver (config : TcpConfig (TcpAdapter CR KC KP)) sockmap may_skip port
    (l : Sockmap Obj) :
  tc_adapter_factory config = None -> (tc_skip_validation config = true -> may_skip = true) ->
  port_inv may_skip port (mkTcpState (build_adapter resolver config sockmap port) dns_initial l) [].
Proof.
  intros Hf Hs. unfold build_adapter. rewrite Hf. cbn zeta.
  assert (Hempty : forall k e n, cache_holds (a_cache (adapter_new (CR := CR) (Some resolver) (from_port port))) k e n ->
            routed_from may_skip [] k (ce_endpoint e)).
  { intros k e n Hh. by apply cache_new_empty in Hh. }
  assert (Hnone : forall fd c, kv_get (kv_empty : KC) fd = Some c -> backend_of may_skip port fd c []).
  { intros fd c. by rewrite kv_get_empty. }
  destruct (tc_skip_validation config), (0 <? tc_cache_ttl config);
    (split; [split; [apply dns_inv_initial|split; [exact Hempty|auto; done]]|done|exact Hnone|constructor]).
Qed.
End Server.

(** ** Properties *)
Section Properties.
Context `{Env} {CD CR KC KP : Type} `{TtlCacheLaws bytes IpAddr CD} `{TtlCacheLaws bytes CacheEntry CR}.
Context `{KvStore sock TcpClient KC, !KvStoreLaws sock TcpClient KC} `{KvStore sock sock KP, !KvStoreLaws sock sock KP}.
Context `{BpfLib U Obj} `{FileSystem} `{Rustls Cert Key Roots Verifier Config}.

Abbreviation Server := (TcpServer CD CR KC KP Obj Config).

(** The server while it serves: tasks for accepted connections (port and
    descriptor; a descriptor may be used again at any time) are spawned and
    interleave with each other and with the rest of the process. *)
Abbreviation serving := (config (K := Z * sock) (S := Server) (E := ProxyError) (A := option unit)).
Definition connections_step (fuel : nat) (may_skip : bool) : serving -> serving -> Prop :=
  sched_step (fun k => handle_connection_prog fuel k.1 k.2) (meanwhile may_skip).

Lemma connections_inv fuel may_skip resolver (config : TcpConfig (TcpAdapter CR KC KP)) (sv : Server)
    (c : serving) :
  tc_adapter_factory config = None -> (tc_skip_validation config = true -> may_skip = true) ->
  prepare resolver dns_initial config = Ok sv ->
  rtc (connections_step fuel may_skip) (mkConfig [] sv []) c ->
  server_inv may_skip (tc_ports config) (shared c) (history c).
Proof.
  intros Hf Hs (_ & Hd & (sm & Ha) & _)%prepare_ok Hr.
  eapply (sched_inv_reachable _ _ (server_inv may_skip (tc_ports config)) (fun _ _ _ => True));
    [..|exact Hr].
  - intros s t s' t'. apply server_inv_meanwhile.
  - done.
  - intros k t. apply sound_handle_connection.
  - split; [|constructor]. cbn. split; [|split; [|constructor]].
    + intros port. rewrite Ha. case_decide as Hin; split; try done; by intros [? ?].
    + intros port a. rewrite Ha, Hd. case_decide; [|done]. intros [= <-]. by apply build_adapter_inv.
Qed.


(** C2: SSRF safety of the concurrent TCP server.  From the moment it is
    prepared, with validation on (and kept on) and the built-in adapters, under
    every interleaving of its connections, whatever clients, backends,
    resolver, DNS and caches do: every host it dials comes from the validated
    form of an answer about data a client sent, and if it is an IP literal it
    is outside the blocked ranges. *)
Theorem concurrent_tcp_never_dials_blocked fuel resolver (config : TcpConfig (TcpAdapter CR KC KP))
    (sv : Server) (c : serving) host port o :
  tc_adapter_factory config = None -> tc_skip_validation config = false ->
  prepare resolver dns_initial config = Ok sv ->
  rtc (connections_step fuel false) (mkConfig [] sv []) c ->
  EvConnect host port o ∈ history c ->
  (exists fd data res out default_port,
     chunk_from fd data (history c) /\ answer (history c) data res
     /\ validated_from (history c) (rr_endpoint res) out
     /\ parse_endpoint out default_port = (host, port))
  /\ forall ip, parse_ipaddr host = Some ip -> is_blocked_ip ip = false.
Proof.
  intros Hf Hs Hp Hr Hin.
  assert (Hskip : tc_skip_validation config = true -> false = true) by congruence.
  destruct (connections_inv fuel false resolver config sv c Hf Hskip Hp Hr) as (_ & _ & He).
  apply (proj1 (Forall_forall _ _) He) in Hin as (dp & fd & data & Hc & out & (res & Ha & Hv) & Hout).
  destruct Hv as [Hv|[? _]]; [|done]. split; [by exists fd, data, res, out, dp|].
  destruct Hv as (ip' & p & Hv & _). intros ip Hip. apply (vetted_dial _ _ _ dp ip Hv). by rewrite Hout.
Qed.

End Properties.

(** ** Witnesses *)

(** Two clients, on descriptors 7 and 8, interleaved step by step; their
    backends, 17 and 18, answer. *)
Definition tcp_concurrency_env : Env :=
  scripted_env
    (fun _ => Done (Err (io_other [])))
    (fun _ host _ => Done (Ok (if bool_decide (host = B "8.8.8.8") then 17 else 18)))
    (fun t s _ => Done (Ok (if bool_decide (received s t = [])
                            then (if s =? 7 then B "a" else if s =? 8 then B "b"
                                  else if s =? 17 then B "A" else B "B") else [])))
    (fun _ _ => Ok [])
    (fun t => bool_decide (Z.even (Z.of_nat (List.length t)) = true)).

#[local] Existing Instances tcp_concurrency_env example_files example_rustls memory_bpf.

Definition tcp_concurrency_server : ExServer :=
  mkTcpServer tcp_example_config
    (<[5433 := build_adapter concurrency_example_resolver tcp_example_config false 5433]> ∅)
    None dns_initial (sockmap_new []).

Definition tcp_concurrency_body (k : Z * sock) : prog ExServer ProxyError (option unit) :=
  handle_connection_prog 5 k.1 k.2.
Definition tcp_concurrency_tasks := [((5433, 7), tcp_concurrency_body (5433, 7)); ((5433, 8), tcp_concurrency_body (5433, 8))].

Definition tcp_concurrency_run :=
  schedule (concat (repeat [0; 1]%nat 40)) (mkConfig tcp_concurrency_tasks tcp_concurrency_server []).

Lemma tcp_concurrency_reachable may_skip :
  rtc (connections_step 5 may_skip) (mkConfig [] tcp_concurrency_server []) tcp_concurrency_run.
Proof.
  eapply rtc_l; [apply (sched_spawn _ _ (5433, 7))|].
  eapply rtc_l; [apply (sched_spawn _ _ (5433, 8))|].
  apply schedule_sched.
Qed.

Lemma tcp_concurrency_prepared :
  prepare concurrency_example_resolver dns_initial tcp_example_config = Ok tcp_concurrency_server.
Proof. reflexivity. Qed.


Lemma concurrent_tcp_never_dials_blocked_witness :
  EvConnect (B "8.8.8.8") 5432 (Done (Ok 17)) ∈ history tcp_concurrency_run
  /\ is_blocked_ip (V4 (mkIpv4 (chr 8) (chr 8) (chr 8) (chr 8))) = false.
Proof.
  assert (Hin : EvConnect (B "8.8.8.8") 5432 (Done (Ok 17)) ∈ history tcp_concurrency_run).
  { apply (list_elem_of_lookup_2 _ 24). vm_compute. reflexivity. }
  split; [exact Hin|].
  refine (proj2 (concurrent_tcp_never_dials_blocked 5 concurrency_example_resolver tcp_example_config
              tcp_concurrency_server tcp_concurrency_run (B "8.8.8.8") 5432 (Done (Ok 17))
              eq_refl eq_refl tcp_concurrency_prepared (tcp_concurrency_reachable false) Hin) _ _).
  vm_compute. reflexivity.
Defined.

