(* ===== verification/TcpExclusive.v ===== *)
(** * TcpExclusive: concurrent TCP connections are pipes.

    TcpConcurrency shows between whom bytes travel.  Here it is shown which
    bytes: a task owns the connection it accepted, its backend's, and the entry
    of the connection table under its client's descriptor, so that what went
    over the two connections is always the same, in both directions. *)

From S2P Require Import Prelude Text Net Protocol Resolver World Stores Dns Adapter Ssrf Routing.
From S2P Require Import Interleave Ownership Talks RoutingConcurrency.
From S2P Require Import Tls Sockmap TcpAdapter TcpConnections TcpConfig TcpServer TcpGuarantees TcpConcurrency.
Open Scope Z_scope.
Open Scope prog_scope.

(** ** Tokens

    Connections, as in Ownership, and entries of connection tables: what is in
    the table of a port under a descriptor. *)
Definition slot : Type := sock * (Z * option TcpClient).
Inductive tcp_token : Type := Conn (tok : sock * trace) | Slot (sl : slot).

Definition conns_of (G : list tcp_token) : list (sock * trace) :=
  omap (fun x => match x with Conn tok => Some tok | Slot _ => None end) G.
Definition slots_of (G : list tcp_token) : list slot :=
  omap (fun x => match x with Conn _ => None | Slot sl => Some sl end) G.
Definition tokens (conns : list (sock * trace)) (slots : list slot) : list tcp_token :=
  (Conn <$> conns) ++ (Slot <$> slots).

Lemma conns_of_app G G' : conns_of (G ++ G') = conns_of G ++ conns_of G'.
Proof. apply omap_app. Qed.
Lemma slots_of_app G G' : slots_of (G ++ G') = slots_of G ++ slots_of G'.
Proof. apply omap_app. Qed.
Lemma conns_of_tokens conns slots : conns_of (tokens conns slots) = conns.
Proof.
  unfold tokens. rewrite conns_of_app. replace (conns_of (Slot <$> slots)) with (@nil (sock * trace)).
  - rewrite app_nil_r. induction conns as [|c conns IH]; [done|]. cbn. by f_equal.
  - by induction slots.
Qed.
Lemma slots_of_tokens conns slots : slots_of (tokens conns slots) = slots.
Proof.
  unfold tokens. rewrite slots_of_app. replace (slots_of (Conn <$> conns)) with (@nil slot).
  - cbn. induction slots as [|c slots IH]; [done|]. cbn. by f_equal.
  - by induction conns.
Qed.

(** ** Programs that own both

    [Rest] speaks of the shared state and the entries that are owned. *)
Section Lift.
Context `{Env} {S W : Type} (Rest : W -> S -> trace -> list slot -> Prop) (ok : event -> trace -> Prop).
Hypothesis Rest_cons : forall w s t ev L, Rest w s t L -> Rest w s (ev :: t) L.
Implicit Types (h F : list tcp_token) (t : trace).

Abbreviation conns_own := (own_inv (S := S) (N := unit) (fun _ _ => []) ok).
Definition lifted (w : W) (s : S) t (G : list tcp_token) : Prop :=
  conns_own (fun _ => False) s t (conns_of G) /\ Rest w s t (slots_of G).

Lemma Rest_app w s t l L : Rest w s t L -> Rest w s (l ++ t) L.
Proof. intros HR. induction l as [|ev l IH]; [done|]. by apply Rest_cons. Qed.

Lemma lift_io {E A C} (f : trace -> A) ev Q t0 h (k : A -> prog S E C) :
  tidy (E := E) conns_own (fun _ => True)
    (fun t conns r => match r with
       | Ok a => forall h', conns_of h' = conns -> slots_of h' = slots_of h -> owns lifted Q t h' (k a)
       | Err _ => False end) t0 (conns_of h) (pbind (atom (io_event f ev)) (fun a => pure (Ok a))) ->
  owns lifted Q t0 h (pbind (atom (io_event f ev)) k).
Proof.
  intros [_ Ho]. split; [done|]. intros w F s t Ht [HI HR]. rewrite conns_of_app in HI.
  destruct (Ho (fun _ => False) (conns_of F) s t Ht HI) as (conns & HI' & Ht' & Hk).
  exists (tokens conns (slots_of h)). split; [|split; [done|apply Hk; [apply conns_of_tokens|apply slots_of_tokens]]].
  split; [by rewrite conns_of_app, conns_of_tokens|].
  rewrite slots_of_app, slots_of_tokens, <- slots_of_app. by apply Rest_cons.
Qed.

(** A step on the shared state. *)
Lemma lift_state {E A C} (m : M S E A) Q t0 h (k : A -> prog S E C) :
  (forall w s t L, t0 `suffix_of` t -> Rest w s t (slots_of h ++ L) ->
     exists a s' slots, m s t = (Ok a, s', t) /\ Rest w s' t (slots ++ L)
       /\ forall h', conns_of h' = conns_of h -> slots_of h' = slots -> owns lifted Q t h' (k a)) ->
  owns lifted Q t0 h (pbind (atom m) k).
Proof.
  intros Hm. split; [done|]. intros w F s t Ht [HI HR]. rewrite slots_of_app in HR. unfold wp.
  destruct (Hm w s t (slots_of F) Ht HR) as (a & s' & slots & -> & HR' & Hk).
  exists (tokens (conns_of h) slots). split; [|split; [done|apply Hk; [apply conns_of_tokens|apply slots_of_tokens]]].
  split; [|by rewrite slots_of_app, slots_of_tokens]. rewrite conns_of_app in *. by rewrite conns_of_tokens.
Qed.
Lemma lift_reading {E A C} (f : S -> A) Q t0 h (k : A -> prog S E C) :
  (forall w s t L, t0 `suffix_of` t -> Rest w s t (slots_of h ++ L) -> owns lifted Q t h (k (f s))) ->
  owns lifted Q t0 h (pbind (read_field f) k).
Proof.
  intros Hk. split; [done|]. intros w F s t Ht [HI HR]. rewrite slots_of_app in HR. exists h.
  split; [by rewrite <- slots_of_app in HR|]. split; [done|]. by eapply Hk.
Qed.

(** ** What a task has *)
Definition has (toks : list (sock * talk)) (slots : list slot) h : Prop :=
  talks (conns_of h) ≡ₚ toks /\ slots_of h = slots.

Lemma lift_on {E A C} (f : trace -> A) ev Q t0 h (k : A -> prog S E C) s x rest slots :
  has ((s, x) :: rest) slots h ->
  (forall a, socks_of (ev a) = [s]) -> (forall a, ev a <> EvClose s) -> (forall a, opens s (ev a) = false) ->
  (forall t a, t0 `suffix_of` t -> knows (conns_of h) t -> ok (ev a) t) ->
  (forall a t h', t0 `suffix_of` t -> has ((s, talk_step (ev a) x) :: rest) slots h' -> owns lifted Q t h' (k a)) ->
  owns lifted Q t0 h (pbind (atom (io_event f ev)) k).
Proof.
  intros [Hh Hs] Hev Hc Ho Hok Hk. apply lift_io. eapply owns_talk_on; [exact Hh|done..|].
  intros a t conns Ht Hconns h' Hh' Hs'. apply Hk; [done|]. by rewrite <- Hh', <- Hs, <- Hs' in *.
Qed.

Lemma lift_close {E C} Q t0 h (k : unit -> prog S E C) s x rest slots :
  has ((s, x) :: rest) slots h -> (forall t, ok (EvClose s) t) ->
  (forall t h', t0 `suffix_of` t -> has rest slots h' -> owns lifted Q t h' (k tt)) ->
  owns lifted Q t0 h (pbind (atom (io_close s)) k).
Proof.
  intros [Hh Hs] Hok Hk. apply (lift_io (fun _ => tt) (fun _ => EvClose s)).
  apply (owns_talk_close _ _ _ _ _ (fun a => pure (Ok a)) s x rest); [done..|].
  intros t conns Ht Hconns h' Hh' Hs'. apply Hk; [done|]. by rewrite <- Hh', <- Hs, <- Hs' in *.
Qed.

Lemma lift_connect {E C} host port lim Q t0 h (k : outcome sock -> prog S E C) toks slots :
  fresh_descriptors -> (forall t o, ok (EvConnect host port o) t) -> has toks slots h ->
  (forall fd t h', t0 `suffix_of` t -> has ((fd, silence (Some (host, port))) :: toks) slots h' ->
     owns lifted Q t h' (k (Done (Ok fd)))) ->
  (forall o t h', t0 `suffix_of` t -> (forall fd, o <> Done (Ok fd)) -> has toks slots h' -> owns lifted Q t h' (k o)) ->
  owns lifted Q t0 h (pbind (atom (io_connect host port lim)) k).
Proof.
  intros Hf Hok [Hh Hs] Hc He. apply (lift_io (fun t => env_connect t host port lim)).
  apply owns_talk_connect; [done..| |].
  - intros fd t conns Ht Hconns h' Hh' Hs'. apply Hc; [done|]. subst conns. rewrite Hh in Hconns.
    split; [done|congruence].
  - intros o t Ht Ho h' Hh' Hs'. apply He; [done..|]. split; [by rewrite Hh'|congruence].
Qed.

(** An event on no connection, and a step of several that carry nothing. *)
Lemma lift_silent {E A C} (f : trace -> A) ev Q t0 h (k : A -> prog S E C) :
  (forall a, socks_of (ev a) = []) -> (forall t a, ok (ev a) t) ->
  (forall a t h', t0 `suffix_of` t -> conns_of h' = conns_of h -> slots_of h' = slots_of h ->
     owns lifted Q t h' (k a)) ->
  owns lifted Q t0 h (pbind (atom (io_event f ev)) k).
Proof.
  intros Hev Hok Hk. apply lift_io, owns_silent; [done..|]. intros a t Ht h' Hh' Hs'.
  apply Hk; [by apply suffix_cons_r|done..].
Qed.
Lemma lift_nothing {E A C} (m : M S E A) Q t0 h (k : A -> prog S E C) s x rest slots :
  has ((s, x) :: rest) slots h ->
  (forall st t, exists a l, m st t = (Ok a, st, l ++ t)
     /\ Forall (fun ev => carries_nothing s ev /\ forall t, ok ev t) l) ->
  (forall a t h', t0 `suffix_of` t -> has ((s, x) :: rest) slots h' -> owns lifted Q t h' (k a)) ->
  owns lifted Q t0 h (pbind (atom m) k).
Proof.
  intros [Hh Hs] Hm Hk. split; [done|]. intros w F st t Ht [HI HR]. rewrite conns_of_app in HI. unfold wp.
  destruct (Hm st t) as (a & l & -> & Hl).
  destruct (own_inv_nothing _ _ _ _ _ _ _ s x rest l Hl Hh HI) as (conns & HI' & Hconns).
  exists (tokens conns (slots_of h)). split; [|split; [by exists l|]].
  - split; [by rewrite conns_of_app, conns_of_tokens|].
    rewrite slots_of_app, slots_of_tokens, <- slots_of_app. by apply Rest_app.
  - apply Hk; [etrans; [exact Ht|by exists l]|].
    split; [by rewrite conns_of_tokens|by rewrite slots_of_tokens].
Qed.

(** A component's program that touches nothing that is owned. *)
Section Routing.
Context {X : Type} (I : X -> trace -> Prop) (g : S -> X) (put : X -> S -> S).
Hypothesis Rest_put : forall w s t L, Rest w s t L ->
  I (g s) t /\ forall x t', I x t' -> t `suffix_of` t' -> Rest w (put x s) t' L.
Hypothesis ok_routing : forall ev t, routing_event ev -> ok ev t.

Lemma lift_routing_step {E B} (m : M X E B) (R : result E B -> X -> trace -> Prop) t0 w s t G :
  t0 `suffix_of` t -> emits routing_event m ->
  (forall x t, t0 `suffix_of` t -> I x t -> wp m (fun r x' t' => I x' t' /\ t `suffix_of` t' /\ R r x' t') x t) ->
  lifted w s t G ->
  wp (zoom g put m) (fun r s' t' => lifted w s' t' G /\ t `suffix_of` t' /\ exists x', R r x' t') s t.
Proof.
  intros Ht Hm Hs [HI HR]. apply wp_zoom. destruct (Rest_put _ _ _ _ HR) as [Hg HR'].
  specialize (Hs (g s) t Ht Hg). unfold wp in *. specialize (Hm (g s) t).
  destruct (m (g s) t) as [[r x] t']. cbn in Hm. destruct Hm as (l & -> & Hl). destruct Hs as (Hx & Ht' & Hr).
  split; [|by split; [|exists x]]. split; [|by apply HR'].
  clear -HI Hl ok_routing. destruct HI as [HI Ha]. induction Hl as [|ev l Hev _ IH]; [by split|].
  by apply (own_inv_silent (S := S) _ _ _ s); [destruct ev|apply ok_routing|].
Qed.

Lemma lift_routing {E A} (R : trace -> result E A -> Prop) (q : prog X E A) t0 h :
  sound I R t0 q -> pemits routing_event q ->
  owns lifted (fun t h' r => h' = h /\ R t r) t0 h (pzoom g put q).
Proof.
  revert t0. induction q as [r|B m d k IH]; intros t0 Hs He; cbn in *; [done|].
  destruct He as (Hm & Hd & Hk), Hs as [Hsd Hs]. split.
  - clear -Hd Hsd Rest_put ok_routing. revert t0 Hsd. induction Hd as [|m d Hm _ IH]; intros t0 Hsd; [done|].
    apply Forall_cons in Hsd as [Hkm Hsd]. intros w F s t Ht HI.
    eapply wp_mono; [eapply (lift_routing_step m (fun _ _ _ => True)); [exact Ht|done| |exact HI]|].
    + intros x t1 Ht1 Hx. eapply wp_mono; [by apply Hkm|]. by intros r x' t' [? ?].
    + intros r s' t' (HI' & Ht' & _). exists h. split; [done|]. split; [done|]. apply IH.
      eapply Forall_impl; [exact Hsd|]. intros m'. apply keeps_later. by etrans.
  - intros w F s t Ht HI. eapply wp_mono.
    { by apply (lift_routing_step m (fun r _ t' => match r with Ok b => sound I R t' (k b) | Err e => R t' (Err e) end) t0). }
    intros r s' t' (HI' & Ht' & x & Hr). exists h. split; [done|]. split; [done|]. destruct r; [by apply IH|done].
Qed.
End Routing.
End Lift.

(** ** The connection tables *)
Section Tables.
Context `{Env} {CD CR KC KP : Type} `{TtlCacheLaws bytes IpAddr CD} `{TtlCacheLaws bytes CacheEntry CR}.
Context `{KvStore sock TcpClient KC, !KvStoreLaws sock TcpClient KC} `{KvStore sock sock KP} `{BpfLib U Obj}.
Context {Config : Type} (may_skip : bool).

Abbreviation State := (TcpState CD CR KC KP Obj).
Abbreviation Server := (TcpServer CD CR KC KP Obj Config).
Implicit Types (sv v : Server) (x : State) (t : trace) (L : list slot).

Definition entry (x : State) (fd : sock) : option TcpClient := kv_get (ta_connections (ts_adapter x)) fd.
Definition accepted_before (fd : sock) t : Prop := exists listener, EvCall (Accept listener) (Ok fd) ∈ t.

Lemma accepted_before_later fd t t' : t `suffix_of` t' -> accepted_before fd t -> accepted_before fd t'.
Proof. intros Ht [l Hin]. exists l. by eapply event_later. Qed.

(** The entries that are owned are what the tables say; no other entry of
    theirs is touched.  An entry is of a client that was accepted. *)
Record tables_inv sv t L : Prop := mkTablesInv {
  tb_unique : NoDup L.*1;
  tb_entry : forall fd port e, (fd, (port, e)) ∈ L -> entry (port_state port sv) fd = e /\ accepted_before fd t;
  tb_accepted : forall port fd c, entry (port_state port sv) fd = Some c -> accepted_before fd t;
  tb_routing : forall port, shared_inv may_skip (ts_routing (port_state port sv)) t;
  tb_port : forall port, ta_port (ts_adapter (port_state port sv)) = port }.

Lemma tables_inv_cons sv t ev L : tables_inv sv t L -> tables_inv sv (ev :: t) L.
Proof.
  intros [Hu He Ha Hr Hp]. assert (Ht : t `suffix_of` ev :: t) by by exists [ev]. split; try done.
  - intros fd port e [? ?]%He. split; [done|]. by eapply accepted_before_later.
  - intros port fd c Hc. eapply accepted_before_later; [exact Ht|by eapply Ha].
  - intros port. by apply shared_inv_cons.
Qed.

Lemma tables_inv_later sv t t' L : t `suffix_of` t' -> tables_inv sv t L -> tables_inv sv t' L.
Proof. intros [l ->] HI. induction l as [|ev l IH]; [done|]. by apply tables_inv_cons. Qed.

(** What a connection of [port] sees of them. *)
Definition port_tables (port : Z) v x t L : Prop := tables_inv (set_port_state port x v) t L.

Lemma port_state_put port x v p :
  port_state p (set_port_state port x v)
  = if decide (p = port) then x else mkTcpState (ts_adapter (port_state p v)) (ts_dns x) (ts_sockmap x).
Proof.
  unfold port_state, set_port_state. cbn. case_decide as Hp.
  - subst. rewrite lookup_insert_eq. by destruct x.
  - by rewrite lookup_insert_ne.
Qed.

(** Two servers that look alike to every port. *)
Lemma tables_inv_same sv sv' t L :
  (forall port fd, entry (port_state port sv') fd = entry (port_state port sv) fd) ->
  (forall port, ts_routing (port_state port sv') = ts_routing (port_state port sv)) ->
  (forall port, ta_port (ts_adapter (port_state port sv')) = ta_port (ts_adapter (port_state port sv))) ->
  tables_inv sv t L -> tables_inv sv' t L.
Proof.
  intros Hsame Hsr Hsp [Hu He Ha Hr Hp]. split; [done|..].
  - intros fd port e. rewrite Hsame. apply He.
  - intros port fd c. rewrite Hsame. apply Ha.
  - intros port. rewrite Hsr. apply Hr.
  - intros port. rewrite Hsp. apply Hp.
Qed.
Lemma port_tables_of port sv t L : tables_inv sv t L -> port_tables port sv (port_state port sv) t L.
Proof.
  assert (Hs : forall p, port_state p (set_port_state port (port_state port sv) sv) = port_state p sv).
  { intros p. rewrite port_state_put. case_decide; [by subst|]. by unfold port_state. }
  apply tables_inv_same; intros p; intros; by rewrite Hs.
Qed.

(** The owner of an entry changes it. *)
Lemma port_tables_set port v x x' t L client e e' :
  port_tables port v x t ((client, (port, e)) :: L) ->
  ts_routing x' = ts_routing x -> ta_port (ts_adapter x') = ta_port (ts_adapter x) ->
  (forall fd, entry x' fd = if decide (client = fd) then e' else entry x fd) ->
  port_tables port v x' t ((client, (port, e')) :: L).
Proof.
  intros [Hu He Ha Hr Hp] Hr' Hp' Htab. pose proof (He client port e ltac:(left)) as [_ Hacc].
  cbn in Hu. apply NoDup_cons in Hu as [Hn Hu].
  assert (Hdns : ts_dns x' = ts_dns x) by by injection Hr'.
  split.
  - cbn. by constructor.
  - intros fd p e0 [[= -> -> ->]|Hin]%elem_of_cons.
    + split; [|done]. rewrite port_state_put, decide_True, Htab, decide_True by done. done.
    + assert (Hne : client <> fd). { intros ->. apply Hn, list_elem_of_fmap. by exists (fd, (p, e0)). }
      destruct (He fd p e0) as [Hx Hb]; [by right|]. split; [|done]. rewrite port_state_put in *.
      case_decide; [by rewrite Htab, decide_False|exact Hx].
  - intros p fd c. specialize (Ha p fd c). rewrite port_state_put in *. case_decide; [|exact Ha].
    rewrite Htab. case_decide; [by subst|exact Ha].
  - intros p. specialize (Hr p). rewrite port_state_put in *. case_decide; [by rewrite Hr'|].
    unfold ts_routing in *. cbn in *. by rewrite Hdns.
  - intros p. specialize (Hp p). rewrite port_state_put in *. case_decide; [by rewrite Hp'|exact Hp].
Qed.

(** Nobody's entry changes. *)
Lemma port_tables_same port v x x' t L :
  port_tables port v x t L -> ts_routing x' = ts_routing x ->
  ta_port (ts_adapter x') = ta_port (ts_adapter x) -> (forall fd, entry x' fd = entry x fd) ->
  port_tables port v x' t L.
Proof.
  intros [Hu He Ha Hr Hp] Hr' Hp' Htab. assert (Hdns : ts_dns x' = ts_dns x) by by injection Hr'.
  split; [done|..].
  - intros fd p e Hin. specialize (He fd p e Hin). rewrite port_state_put in *. case_decide; [by rewrite Htab|exact He].
  - intros p fd c. specialize (Ha p fd c). rewrite port_state_put in *. case_decide; [by rewrite Htab|exact Ha].
  - intros p. specialize (Hr p). rewrite port_state_put in *. case_decide; [by rewrite Hr'|].
    unfold ts_routing in *. cbn in *. by rewrite Hdns.
  - intros p. specialize (Hp p). rewrite port_state_put in *. case_decide; [by rewrite Hp'|exact Hp].
Qed.

(** Routing on the port's adapter. *)
Lemma port_tables_routing port v x t L :
  port_tables port v x t L ->
  shared_inv may_skip (ts_routing x) t
  /\ forall r t', shared_inv may_skip r t' -> t `suffix_of` t' -> port_tables port v (ts_set_routing r x) t' L.
Proof.
  intros [Hu He Ha Hr Hp]. split.
  { specialize (Hr port). by rewrite port_state_put, decide_True in Hr. }
  intros r t' Hr' Ht. split; [done|..].
  - intros fd p e Hin. destruct (He fd p e Hin) as [Hx Hb].
    split; [|by eapply accepted_before_later]. rewrite port_state_put in *. by case_decide.
  - intros p fd c Hc. eapply accepted_before_later; [exact Ht|]. apply (Ha p fd c).
    rewrite port_state_put in *. by case_decide.
  - intros p. specialize (Hr p). rewrite port_state_put in *. case_decide; [by destruct r|].
    destruct Hr as (_ & Hc & Hs), Hr' as (Hd & _). split; [exact Hd|]. split; [|done].
    intros k e n Hh. eapply routed_from_later; [exact Ht|by eapply Hc].
  - intros p. specialize (Hp p). rewrite port_state_put in *. by case_decide.
Qed.
End Tables.

(** ** Pipes

    What the proxy itself said to a client, and heard, before it was connected:
    nothing, or the answer to an SSLRequest. *)
Definition tls_prelude (said heard : bytes) : Prop :=
  said = [] /\ heard = [] \/ said = [PG_SSL_RESPONSE_OK] /\ is_postgresql_ssl_request heard = true.

(** [s] is an end of [client]'s pipe, which is empty: all that was read from
    either end was written to the other. *)
Definition pipe_end `{Env} (may_skip : bool) (port : Z) (client s : sock) (t : trace) : Prop :=
  exists said heard, tls_prelude said heard
    /\ (s = client /\ talk_on client t = mkTalk None [] said heard
        \/ exists backend host backend_port up down first,
             (s = client \/ s = backend) /\ backend <> client /\ is_open backend t = true
             /\ talk_on client t = mkTalk None [] (said ++ down) (heard ++ up)
             /\ talk_on backend t = mkTalk (Some (host, backend_port)) [] up down
             /\ first `prefix_of` up /\ first <> []
             /\ routed_to may_skip port first host backend_port t).

(** Whenever the proxy turns to a connection for more bytes, it is such an end. *)
Definition relayed_so_far `{Env} (may_skip : bool) (ev : event) (t : trace) : Prop :=
  match ev with
  | EvRead s _ _ => exists port client, pipe_end may_skip port client s t
  | EvCopy _ _ => False
  | _ => True
  end.

(** ** The operations of a connection *)
Section Connection.
Context `{Env} {CD CR KC KP : Type} `{TtlCacheLaws bytes IpAddr CD} `{TtlCacheLaws bytes CacheEntry CR}.
Context `{KvStore sock TcpClient KC, !KvStoreLaws sock TcpClient KC} `{KvStore sock sock KP} `{BpfLib U Obj}.
Context {Config : Type} (may_skip : bool) (Hfresh : fresh_descriptors) (port : Z).

Abbreviation State := (TcpState CD CR KC KP Obj).
Abbreviation Server := (TcpServer CD CR KC KP Obj Config).
Abbreviation Rest := (port_tables (Config := Config) may_skip port).
Abbreviation Inv := (lifted (S := State) (W := Server) Rest (relayed_so_far may_skip)).
Implicit Types (h : list tcp_token) (t : trace) (x y : talk).

Lemma rest_cons (w : Server) (s : State) t ev L : Rest w s t L -> Rest w s (ev :: t) L.
Proof. apply tables_inv_cons. Qed.

Lemma has_perm toks toks' slots h : toks ≡ₚ toks' -> has toks slots h -> has toks' slots h.
Proof. intros Hp [Hh Hs]. split; [by rewrite Hh|done]. Qed.

(** A step that changes no entry and nothing of routing. *)
Lemma owns_same {A C} (m : M State ProxyError A) Q t0 h (k : A -> prog State ProxyError C) toks slots :
  has toks slots h ->
  (forall s t, exists a s', m s t = (Ok a, s', t) /\ ts_routing s' = ts_routing s
     /\ ta_port (ts_adapter s') = ta_port (ts_adapter s) /\ forall fd, entry s' fd = entry s fd) ->
  (forall a t h', t0 `suffix_of` t -> has toks slots h' -> owns Inv Q t h' (k a)) ->
  owns Inv Q t0 h (pbind (atom m) k).
Proof.
  intros [Hh Hs] Hm Hk. apply lift_state. intros w s t L Ht HR.
  destruct (Hm s t) as (a & s' & E & Hr & Hp & He). exists a, s', (slots_of h). split; [exact E|].
  split; [by eapply port_tables_same|]. intros h' Hh' Hs'. apply Hk; [done|].
  split; [by rewrite Hh'|congruence].
Qed.
Lemma owns_reads {A C} (f : State -> A) Q t0 h (k : A -> prog State ProxyError C) toks slots :
  has toks slots h ->
  (forall a t h', t0 `suffix_of` t -> has toks slots h' -> owns Inv Q t h' (k a)) ->
  owns Inv Q t0 h (pbind (read_field f) k).
Proof. intros Hh Hk. apply lift_reading. intros w s t L Ht _. by apply Hk. Qed.

(** One connection carried something, which [f] gives if all went well. *)
Definition carries {A} s rest slots (f : A -> talk) : trace -> list tcp_token -> result ProxyError A -> Prop :=
  fun _ h r => exists x, has ((s, x) :: rest) slots h /\ match r with Ok a => x = f a | Err _ => True end.

Lemma owns_write_all s data t0 h x rest slots :
  has ((s, x) :: rest) slots h ->
  owns Inv (carries s rest slots (fun _ => talk_say data x)) t0 h (write_all_prog s data).
Proof.
  intros Hh. eapply (lift_on _ _ rest_cons (fun t => env_write t s data) (EvWrite s data)); [exact Hh|done..|].
  intros r t h1 _ Hh1. destruct (settle r); by eexists.
Qed.
Lemma owns_flush s t0 h x rest slots :
  has ((s, x) :: rest) slots h ->
  owns Inv (carries s rest slots (fun _ => x)) t0 h (flush_prog s).
Proof.
  intros Hh. eapply (lift_on _ _ rest_cons (fun t => env_flush t s) (EvFlush s)); [exact Hh|done..|].
  intros r t h1 _ Hh1. destruct (settle r); by eexists.
Qed.
Lemma owns_send_to_backend b data t0 h x rest slots :
  has ((b, x) :: rest) slots h ->
  owns Inv (carries b rest slots (fun _ => talk_say data x)) t0 h (send_to_backend_prog (mkTcpClient b b) data).
Proof.
  intros Hh. eapply owns_bind; [by apply owns_write_all| |].
  - intros _ t h1 _ (x1 & Hh1 & ->). by apply owns_flush.
  - intros e t h1 _ (x1 & Hh1 & _). by exists x1.
Qed.
(** The first bytes of a client, or what follows its TLS handshake. *)
Definition alone client x h : Prop := has [(client, x)] [(client, (port, None))] h.

Lemma alone_reads client said heard h t :
  tls_prelude said heard -> alone client (mkTalk None [] said heard) h -> knows (conns_of h) t ->
  exists port' client', pipe_end may_skip port' client' client t.
Proof.
  intros Hp [Hh _] Hk. exists port, client, said, heard. split; [done|]. left. split; [done|].
  apply (talks_known _ _ client _ Hk). rewrite Hh. by left.
Qed.

Lemma owns_try_read_loop fuel client max t0 h :
  alone client (silence None) h ->
  owns Inv (fun _ h r => match r with
      | Ok (Some data) => alone client (talk_hear data (silence None)) h
      | _ => alone client (silence None) h end) t0 h
    (try_read_loop_prog fuel client max).
Proof.
  revert t0 h. induction fuel as [|fuel IH]; intros t0 h Hh; cbn [try_read_loop_prog]; [done|].
  eapply (lift_on _ _ rest_cons (fun t => env_read t client max) (EvRead client max)); [exact Hh|done..| |].
  { intros t r _ Hk. eapply (alone_reads client [] []); [by left|exact Hh|done]. }
  intros [[data|e]|] t h1 _ Hh1; cbn in *; [done| |done].
  destruct (io_error_kind e); try done.
  eapply (lift_on _ _ rest_cons (fun t => env_readable t client) (EvReadable client)); [exact Hh1|done..|].
  intros [u|e'] t1 h2 _ Hh2; [by apply IH|done].
Qed.
Lemma owns_read_some fuel client max t0 h :
  alone client (silence None) h ->
  owns Inv (fun _ h r => match r with
      | Ok (Some data) => alone client (talk_hear data (silence None)) h
      | _ => alone client (silence None) h end) t0 h
    (read_some_prog fuel client max).
Proof.
  intros Hh. unfold read_some_prog.
  eapply (lift_on _ _ rest_cons (fun t => env_readable t client) (EvReadable client)); [exact Hh|done..|].
  intros [u|e] t h1 _ Hh1; [by apply owns_try_read_loop|done].
Qed.

(** Dialling. *)
Lemma owns_dial host p t0 h toks slots :
  has toks slots h ->
  owns Inv (fun _ h r => match r with
      | Ok b => has ((b, silence (Some (host, p))) :: toks) slots h | Err _ => has toks slots h end) t0 h
    (dial_prog host p).
Proof.
  intros Hh. eapply owns_reads; [exact Hh|]. intros limit t h1 _ Hh1.
  eapply (lift_connect _ _ rest_cons); [done..|exact Hh1| |].
  2: { intros [[b|e]|] t1 h2 _ Ho Hh2; [by destruct (Ho b)|done..]. }
  intros b t1 h2 _ Hh2.
  eapply (lift_on _ _ rest_cons (fun t => env_nodelay t b) (EvNodelay b)); [exact Hh2|done..|].
  intros [u|e] t2 h3 _ Hh3.
  2: { eapply (lift_close _ _ rest_cons); [exact Hh3|done|]. by intros t3 h4 _ Hh4. }
  eapply (lift_nothing _ _ rest_cons); [exact Hh3| |by intros _ t3 h4 _ Hh4].
  intros s t3. pose proof (wp_apply_socket_options (E := ProxyError) b
    (fun r s' t' => exists l, r = Ok tt /\ s' = s /\ t' = l ++ t3 /\ Forall (sockopt_of b) l) s t3) as Ho.
  unfold wp in Ho. destruct (apply_socket_options b s t3) as [[r s'] t'].
  destruct Ho as (l & -> & -> & -> & Hl); [by intros l Hl; exists l|]. exists tt, l. split; [done|].
  eapply Forall_impl; [exact Hl|]. intros ev Hev. destruct ev; try done. cbn in Hev. subst.
  split; [|done]. by right.
Qed.

Definition both client x (b : sock) y h : Prop :=
  has [(b, y); (client, x)] [(client, (port, Some (mkTcpClient b b)))] h.

(** [get_connection] finds no backend and dials one: nobody else puts one into
    the client's entry. *)
Lemma owns_get_connection data client x t0 h :
  alone client x h ->
  owns Inv (fun t h r => match r with
      | Ok c => exists b host p, c = mkTcpClient b b /\ routed_to may_skip port data host p t
                  /\ both client x b (silence (Some (host, p))) h
      | Err _ => alone client x h end) t0 h
    (get_connection_prog data client).
Proof.
  intros [Hh Hs]. apply lift_reading. intros w s t L _ HR. rewrite Hs in HR.
  pose proof (tb_entry _ _ _ _ HR client port None ltac:(left)) as [He _].
  pose proof (tb_port _ _ _ _ HR port) as Hp. rewrite port_state_put, decide_True in He, Hp by done.
  unfold entry in He. rewrite He, Hp.
  assert (Halone : alone client x h) by by split.
  eapply (owns_bind _ (fun t h' r => h' = h
    /\ match r with Ok cr => routed_from may_skip t data (cr_endpoint cr) | Err _ => True end)).
  - apply owns_with_err. eapply owns_mono;
      [|unshelve eapply (lift_routing _ _ (shared_inv may_skip) _ _ _ _ (routed_post may_skip data))].
    + intros t1 h1 [cr|e] _ [-> Hr]; [by split|done].
    + intros w1 s1 t1 L1. apply port_tables_routing.
    + by intros [].
    + apply sound_route.
    + apply pemits_route.
  - intros res t1 h1 _ [-> Hr]. destruct (parse_endpoint (cr_endpoint res) port) as [host p] eqn:Ep.
    eapply owns_bind; [by apply owns_dial| |done].
    intros b t2 h2 Ht2 [Hh2 Hs2]. apply lift_state. intros w2 s2 t3 L2 Ht3 HR2. rewrite Hs2 in HR2.
    eexists tt, _, [(client, (port, Some (mkTcpClient b b)))]. split; [reflexivity|]. split.
    { eapply port_tables_set; [exact HR2|done|done|]. intros fd. apply kv_get_insert. }
    intros h' Hh' Hs'. exists b, host, p. split; [done|]. split; [|split; [by rewrite Hh'|done]].
    exists (cr_endpoint res). split; [|done]. eapply routed_from_later; [|exact Hr]. by etrans.
  - by intros e t1 h1 _ [-> _].
Qed.

(** The relay in the kernel leaves the proxy's connections alone. *)
Lemma owns_activate_sockmap client t0 h toks slots :
  has toks slots h ->
  owns Inv (fun _ h _ => has toks slots h) t0 h (activate_sockmap_prog client).
Proof.
  intros Hh. eapply owns_reads; [exact Hh|]. intros [|] t h1 _ Hh1; [|done].
  eapply owns_reads; [exact Hh1|]. intros [|] t1 h2 _ Hh2; [|done].
  eapply owns_reads; [exact Hh2|]. intros [c|] t2 h3 _ Hh3; [|done]. cbv zeta. destruct (c_fd c <=? 0); [done|].
  eapply owns_same; [exact Hh3| |].
  { intros s t3. unfold insert_pair. destruct (sockmap_insert_pair _ _ _ _) as [ok sm]. by eexists _, _. }
  intros [|] t3 h4 _ Hh4; [|done].
  eapply owns_same; [exact Hh4| |by intros _ t4 h5 _ Hh5]. intros s t4. by eexists _, _.
Qed.

(** ** A pipe stays one *)
Definition piped client said heard b host p up down t h : Prop :=
  tls_prelude said heard
  /\ (exists first, first `prefix_of` up /\ first <> [] /\ routed_to may_skip port first host p t)
  /\ both client (mkTalk None [] (said ++ down) (heard ++ up)) b (mkTalk (Some (host, p)) [] up down) h.

Lemma piped_later client said heard b host p up down t t' h h' up' down' :
  piped client said heard b host p up down t h -> t `suffix_of` t' -> up `prefix_of` up' ->
  both client (mkTalk None [] (said ++ down') (heard ++ up')) b (mkTalk (Some (host, p)) [] up' down') h' ->
  piped client said heard b host p up' down' t' h'.
Proof.
  intros (Hp & (first & Hf & Hn & Hr) & _) Ht Hup Hh. split; [done|]. split; [|done].
  exists first. split; [by etrans|]. split; [done|]. by eapply routed_to_later.
Qed.

Lemma piped_reads client said heard b host p up down t0 t h s :
  piped client said heard b host p up down t0 h -> t0 `suffix_of` t -> knows (conns_of h) t ->
  s = client \/ s = b -> exists port' client', pipe_end may_skip port' client' s t.
Proof.
  intros (Hp & (first & Hf & Hn & Hr) & Hh & _) Ht Hk Hs. exists port, client, said, heard. split; [done|]. right.
  exists b, host, p, up, down, first.
  assert (Hin : forall s x, (s, x) ∈ [(b, mkTalk (Some (host, p)) [] up down);
                                      (client, mkTalk None [] (said ++ down) (heard ++ up))] ->
            is_open s t = true /\ talk_on s t = x).
  { intros s0 x Hx. apply (talks_known _ _ _ _ Hk). by rewrite Hh. }
  destruct (Hin b (mkTalk (Some (host, p)) [] up down)) as [Ho Htb]; [by left|].
  destruct (Hin client (mkTalk None [] (said ++ down) (heard ++ up))) as [_ Htc]; [by right; left|].
  split; [done|]. split; [|split_and!; try done; by eapply routed_to_later].
  pose proof (knows_nodup _ _ Hk) as Hnd. rewrite <- talks_socks, Hh in Hnd. cbn in Hnd.
  apply NoDup_cons in Hnd as [Hnd _]. set_solver.
Qed.

(** What a connection that is over leaves to be closed. *)
Definition over client h : Prop := (exists x, alone client x h) \/ exists x b y, both client x b y h.

Lemma alone_over client x h : alone client x h -> over client h.
Proof. intros Hh. left. by exists x. Qed.
Lemma both_over client x b y h : both client x b y h -> over client h.
Proof. intros Hh. right. by exists x, b, y. Qed.
Lemma piped_over client said heard b host p up down t h : piped client said heard b host p up down t h -> over client h.
Proof. intros (_ & _ & Hh). by eapply both_over. Qed.
Lemma both_swap client x b y h :
  both client x b y h <-> has [(client, x); (b, y)] [(client, (port, Some (mkTcpClient b b)))] h.
Proof. split; apply has_perm, Permutation_swap. Qed.

Lemma owns_forward_serialised fuel client said heard b host p up down n t0 h :
  piped client said heard b host p up down t0 h ->
  owns Inv (fun _ h _ => over client h) t0 h (forward_serialised_prog fuel client (mkTcpClient b b) n).
Proof.
  revert up down t0 h.
  induction fuel as [|fuel IH]; intros up down t0 h Hp; cbn [forward_serialised_prog c_stream]; [by eapply piped_over|].
  apply (lift_silent _ _ rest_cons env_select EvSelect); [done..|]. intros ready t h1 Ht Hc Hs.
  assert (Hp1 : piped client said heard b host p up down t h1).
  { destruct Hp as (Hpre & Hf & Hh & Hsl). eapply piped_later; [by split; [|split; [|split]]|done..|].
    split; [by rewrite Hc|congruence]. }
  clear Hp. pose proof Hp1 as (_ & _ & Hh1).
  destruct ready.
  - (* from the client *)
    apply both_swap in Hh1.
    eapply (lift_on _ _ rest_cons (fun t => env_read t client n) (EvRead client n)); [exact Hh1|done..| |].
    { intros t1 r Ht1 Hk. eapply piped_reads; [exact Hp1|done..|by left]. }
    intros [[data|e]|] t1 h2 Ht1 Hh2; cbn in *; [|by eapply both_over, both_swap..].
    destruct data as [|a data]; [by eapply both_over, both_swap|]. apply both_swap in Hh2.
    eapply (lift_on _ _ rest_cons (fun t => env_write t b (a :: data)) (EvWrite b (a :: data))); [exact Hh2|done..|].
    intros w t2 h3 Ht2 Hh3. destruct (settle w); [|by eapply both_over]. eapply IH.
    eapply (piped_later _ _ _ _ _ _ _ _ _ _ _ h3 (up ++ a :: data) down); [exact Hp1|by etrans|by eexists|].
    cbn in Hh3. by rewrite <- !app_assoc in Hh3.
  - (* from the backend *)
    eapply (lift_on _ _ rest_cons (fun t => env_read t b n) (EvRead b n)); [exact Hh1|done..| |].
    { intros t1 r Ht1 Hk. eapply piped_reads; [exact Hp1|done..|by right]. }
    intros [[data|e]|] t1 h2 Ht1 Hh2; cbn in *; [|by eapply both_over..].
    destruct data as [|a data]; [by eapply both_over|]. apply both_swap in Hh2.
    eapply (lift_on _ _ rest_cons (fun t => env_write t client (a :: data)) (EvWrite client (a :: data)));
      [exact Hh2|done..|].
    intros w t2 h3 Ht2 Hh3. apply both_swap in Hh3. destruct (settle w); [|by eapply both_over]. eapply IH.
    eapply (piped_later _ _ _ _ _ _ _ _ _ _ _ h3 up (down ++ a :: data)); [exact Hp1|by etrans|done|].
    cbn in Hh3. by rewrite <- !app_assoc in Hh3.
Qed.

(** The backend is in the client's entry: nothing is left to [copy_bidirectional]. *)
Lemma owns_bidirectional_copy fuel client said heard b host p up down n t0 h :
  piped client said heard b host p up down t0 h ->
  owns Inv (fun _ h _ => over client h) t0 h (bidirectional_copy_prog fuel client (mkTcpClient b b) n).
Proof.
  intros Hp. pose proof Hp as (_ & _ & Hh & Hs). apply lift_reading. intros w s t L Ht HR. rewrite Hs in HR.
  pose proof (tb_entry _ _ _ _ HR client port _ ltac:(left)) as [He _].
  rewrite port_state_put, decide_True in He by done. unfold entry in He.
  rewrite bool_decide_eq_true_2 by done. eapply owns_forward_serialised.
  eapply piped_later; [exact Hp|done..|by split].
Qed.

(** Once the first bytes are known: dial, and send them on. *)
Lemma owns_serve {A} (rest : TcpClient -> prog State ProxyError (option A)) client said heard data t0 h :
  tls_prelude said heard -> data <> [] -> alone client (mkTalk None [] said (heard ++ data)) h ->
  (forall b host p t h', t0 `suffix_of` t -> piped client said heard b host p data [] t h' ->
     owns Inv (fun _ h _ => over client h) t h' (rest (mkTcpClient b b))) ->
  owns Inv (fun _ h _ => over client h) t0 h
    (backend <~ get_connection_prog data client ;; send_to_backend_prog backend data ~;; rest backend).
Proof.
  intros Hpre Hne Hh Hrest. eapply owns_bind; [by apply owns_get_connection| |].
  2: { intros e t h1 _ Hh1. exact (alone_over _ _ _ Hh1). }
  intros c t h1 Ht (b & host & p & -> & Hr & Hh1).
  eapply owns_bind; [by apply owns_send_to_backend| |].
  2: { intros e t1 h2 _ (y & Hh2 & _). exact (both_over _ _ _ _ _ Hh2). }
  intros _ t1 h2 Ht1 (y & Hh2 & ->). eapply Hrest; [by etrans|]. split; [done|]. split; [|rewrite app_nil_r; exact Hh2].
  exists data. split; [done|]. split; [done|]. by eapply routed_to_later.
Qed.

Lemma owns_run_plain fuel client initial n t0 h :
  initial <> [] -> alone client (mkTalk None [] [] initial) h ->
  owns Inv (fun _ h _ => over client h) t0 h (run_plain_prog fuel client initial n).
Proof.
  intros Hne Hh. eapply (owns_serve _ client [] [] initial); [by left|done|exact Hh|].
  intros b host p t h1 _ Hp. pose proof Hp as (_ & _ & Hh1).
  eapply owns_bind; [by eapply owns_activate_sockmap| |intros e t1 h2 _ Hh2; exact (both_over _ _ _ _ _ Hh2)].
  intros [|] t1 h2 Ht1 Hh2;
    (assert (Hp2 : piped client [] [] b host p initial [] t1 h2) by by eapply piped_later).
  - apply both_swap in Hh2.
    eapply (lift_on _ _ rest_cons (fun t => env_read t client 1) (EvRead client 1)); [exact Hh2|done..| |].
    + intros t2 r Ht2 Hk. eapply piped_reads; [exact Hp2|done..|by left].
    + intros r t2 h3 _ Hh3. by eapply both_over, both_swap.
  - by eapply owns_bidirectional_copy.
Qed.

Lemma owns_run_starttls fuel client request n t0 h :
  is_postgresql_ssl_request request = true -> alone client (mkTalk None [] [] request) h ->
  owns Inv (fun _ h _ => over client h) t0 h (run_starttls_prog fuel client n).
Proof.
  intros Hrq Hh. unfold run_starttls_prog.
  eapply owns_bind; [by apply owns_write_all| |by intros e t h1 _ (x & Hh1 & _); eapply alone_over].
  intros _ t h1 _ (x & Hh1 & ->).
  eapply owns_bind; [by apply owns_flush| |by intros e t1 h2 _ (x1 & Hh2 & _); eapply alone_over].
  intros _ t1 h2 _ (x1 & Hh2 & ->).
  eapply (lift_on _ _ rest_cons (fun t => env_tls_accept t client) (EvTlsAccept client)); [exact Hh2|done..|].
  intros [u|e] t2 h3 _ Hh3; [|by eapply alone_over]. cbn [talk_step talk_say] in Hh3.
  assert (Hpre : tls_prelude [PG_SSL_RESPONSE_OK] request) by by right.
  eapply (lift_on _ _ rest_cons (fun t => env_read t client n) (EvRead client n)); [exact Hh3|done..| |].
  { intros t3 r _ Hk. eapply (alone_reads client [PG_SSL_RESPONSE_OK] request); [done|exact Hh3|done]. }
  intros [[data|e]|] t3 h4 _ Hh4; cbn in *; [|by eapply alone_over..].
  destruct data as [|a data]; [by eapply alone_over|].
  eapply (owns_serve _ client [PG_SSL_RESPONSE_OK] request (a :: data)); [done|done|exact Hh4|].
  intros b host p t4 h5 _ Hp. by eapply owns_bidirectional_copy.
Qed.

(** ** Its end *)

(** The client's connection is closed, its entry is still there. *)
Definition dropped client h : Prop :=
  has [] [(client, (port, None))] h
  \/ exists b y, has [(b, y)] [(client, (port, Some (mkTcpClient b b)))] h.

(** A program that may run out of fuel is still running then. *)
Definition unless_running {A} (P : list tcp_token -> Prop) : trace -> list tcp_token -> result ProxyError (option A) -> Prop :=
  fun _ h r => match r with Ok None => True | _ => P h end.

Lemma owns_dropping {A} client (q : prog State ProxyError (option A)) t0 h :
  owns Inv (fun _ h _ => over client h) t0 h q ->
  owns Inv (unless_running (dropped client)) t0 h (dropping_prog client q).
Proof.
  intros Hq. eapply (owns_bind _ (fun _ h r => is_ok r = true /\ over client h)); [| |by intros e t h' _ []].
  { apply owns_attempt. eapply owns_mono; [|exact Hq]. by intros. }
  intros r t h1 _ [_ Ho].
  assert (Hclose : owns Inv (unless_running (A := A) (dropped client)) t h1
                     (atom (io_close client) ~;; pure r)).
  { destruct Ho as [(x & Hh)|(x & b & y & Hh)].
    - eapply (lift_close _ _ rest_cons); [exact Hh|done|]. intros t1 h2 _ Hh2.
      destruct r as [[|]|]; try done; by left.
    - apply both_swap in Hh. eapply (lift_close _ _ rest_cons); [exact Hh|done|]. intros t1 h2 _ Hh2.
      destruct r as [[|]|]; try done; right; by exists b, y. }
  by destruct r as [[|]|].
Qed.

Lemma owns_run_client fuel sh p client t0 h :
  alone client (silence None) h ->
  owns Inv (unless_running (dropped client)) t0 h (run_client_prog fuel sh p client).
Proof.
  intros Hh. apply owns_dropping. eapply owns_bind; [by apply owns_read_some| |].
  2: { intros e t h1 _ Hh1. exact (alone_over _ _ _ Hh1). }
  intros [[|a initial]|] t h1 _ Hh1; [exact (alone_over _ _ _ Hh1)| |exact (alone_over _ _ _ Hh1)].
  destruct (_ && _) eqn:Erq.
  - apply andb_prop in Erq as [_ Erq]. by eapply owns_run_starttls.
  - by eapply owns_run_plain.
Qed.

Lemma take_pair_same (fd : sock) (s : State) t :
  exists a s', take_pair fd s t = (Ok a, s', t) /\ ts_routing s' = ts_routing s
    /\ ta_port (ts_adapter s') = ta_port (ts_adapter s) /\ forall fd', entry s' fd' = entry s fd'.
Proof.
  unfold take_pair, bind, get, modify, ret. destruct (kv_get (ta_sockmap_pairs _) fd); by eexists _, _.
Qed.

(** The entry, if the client still has one, is emptied, and the backend's
    connection is closed. *)
Lemma owns_close_connection client t0 h :
  dropped client h ->
  owns Inv (fun _ h r => is_ok r = true /\ has [] [(client, (port, None))] h) t0 h (close_connection_prog client).
Proof.
  intros Hd. unfold close_connection_prog.
  assert (Hentry : exists y e,
            has (match e with Some c => [(c_stream c, y)] | None => [] end) [(client, (port, e))] h).
  { destruct Hd as [Hh|(b & y & Hh)]; [by exists (silence None), None|by exists y, (Some (mkTcpClient b b))]. }
  clear Hd. destruct Hentry as (y & e & Hh). set (toks := match e with Some c => _ | None => _ end) in Hh.
  eapply owns_same; [exact Hh|intros; apply take_pair_same|]. intros had t h1 _ Hh1.
  eapply (owns_bind _ (fun _ h r => is_ok r = true /\ has toks [(client, (port, e))] h));
    [| |by intros e0 t1 h2 _ []].
  { destruct had; [|done]. eapply owns_reads; [exact Hh1|]. intros [|] t1 h2 _ Hh2; [|done].
    eapply (owns_same _ _ _ _ (fun a => pure (Ok a))); [exact Hh2| |by intros]. intros s t2. by eexists _, _. }
  intros _ t1 h2 _ [_ [Hh2 Hs2]]. apply lift_state. intros w s t2 L _ HR. rewrite Hs2 in HR.
  pose proof (tb_entry _ _ _ _ HR client port e ltac:(left)) as [He _].
  rewrite port_state_put, decide_True in He by done. unfold take_connection, bind, get. unfold entry in He.
  destruct e as [c|]; rewrite He.
  - eexists (Some c), _, [(client, (port, None))]. split; [reflexivity|]. split.
    { eapply port_tables_set; [exact HR|done|done|]. intros fd. apply kv_get_remove. }
    intros h3 Hh3 Hs3. apply (lift_close _ _ rest_cons _ _ _ (fun a => pure (Ok a)) (c_stream c)
      y [] [(client, (port, None))]); [|done|by intros].
    split; [|done]. by rewrite Hh3, Hh2.
  - eexists None, s, [(client, (port, None))]. split; [reflexivity|]. split; [exact HR|].
    intros h3 Hh3 Hs3. split; [done|]. split; [|done]. by rewrite Hh3, Hh2.
Qed.

Lemma owns_handle_tcp_client fuel sh p client t0 h :
  alone client (silence None) h ->
  owns Inv (fun _ _ _ => True) t0 h (handle_client_prog fuel sh p client).
Proof.
  intros Hh. eapply (owns_bind _ (fun _ h r => match r with
    | Ok r => unless_running (A := unit) (dropped client) [] h r | Err _ => False end)); [| |done].
  { apply owns_attempt. eapply owns_mono; [|by apply owns_run_client]. by intros t h1 r _ Hr. }
  intros r t h1 _ Hr.
  assert (Hclose : dropped client h1 ->
            owns Inv (fun _ _ _ => True) t h1 (close_connection_prog client ~;; pure r)).
  { intros Hd. eapply owns_bind; [by apply owns_close_connection|done|done]. }
  destruct r as [[|]|]; [by apply Hclose|done|by apply Hclose].
Qed.
End Connection.

(** ** The server: all its ports *)
Section Server.
Context `{Env} {CD CR KC KP : Type} `{TtlCacheLaws bytes IpAddr CD} `{TtlCacheLaws bytes CacheEntry CR}.
Context `{KvStore sock TcpClient KC, !KvStoreLaws sock TcpClient KC} `{KvStore sock sock KP} `{BpfLib U Obj}.
Context {Config : Type} (may_skip : bool).

Abbreviation State := (TcpState CD CR KC KP Obj).
Abbreviation Server := (TcpServer CD CR KC KP Obj Config).

Definition server_tables (_ : unit) : Server -> trace -> list slot -> Prop := tables_inv may_skip.
Abbreviation Inv := (lifted (S := Server) server_tables (relayed_so_far may_skip)).

Lemma server_tables_cons w (sv : Server) t ev L : server_tables w sv t L -> server_tables w sv (ev :: t) L.
Proof. apply tables_inv_cons. Qed.

(** The kernel gives a new connection no descriptor that is open, and a client
    none that a client had before.  What happens otherwise is
    [reused_descriptor_keeps_backend]. *)
Definition unused_descriptors : Prop :=
  fresh_descriptors
  /\ forall t listener fd, env_call t (Accept listener) = Ok fd -> ~ accepted_before fd t.

Context (Hunused : unused_descriptors).

(** An accepted client gets its entry, which is empty. *)
Lemma owns_accept_client {C} listener port Q t0 (k : result io_error sock -> prog Server ProxyError C) :
  (forall fd t h, t0 `suffix_of` t -> has [(fd, silence None)] [(fd, (port, None))] h ->
     owns Inv Q t h (k (Ok fd))) ->
  (forall e t, t0 `suffix_of` t -> owns Inv Q t [] (k (Err e))) ->
  owns Inv Q t0 [] (pbind (atom (io_call (Accept listener))) k).
Proof.
  intros Hk He. split; [done|]. intros w F sv t Ht [HI HR]. destruct Hunused as [[_ Hf] Hu]. specialize (Hf t listener). specialize (Hu t listener).
  unfold wp, io_call, io_event. cbn [app] in *. destruct (env_call t (Accept listener)) as [fd|e] eqn:Ec.
  - set (ev := EvCall (Accept listener) (Ok fd)). specialize (Hf fd eq_refl). specialize (Hu fd eq_refl).
    destruct (own_inv_open (N := unit) _ _ _ _ _ _ fd ev Hf eq_refl ltac:(cbn; by rewrite Z.eqb_refl) I HI) as [HI' _].
    exists [Conn (fd, ev :: on_sock fd t); Slot (fd, (port, None))]. split; [|split; [by exists [ev]|]].
    + split; [exact HI'|]. cbn. destruct HR as [Hn Hent Hacc Hr Hp].
      assert (Hlater : t `suffix_of` ev :: t) by by exists [ev]. split.
      * cbn. constructor; [|done]. intros ([fd' [p e]] & Hx & Hin)%list_elem_of_fmap. cbn in Hx. subst fd'.
        by destruct (Hent fd p e Hin).
      * intros fd' p e [[= -> -> ->]|Hin]%elem_of_cons.
        -- split; [|exists listener; by left]. destruct (entry (port_state port sv) fd) eqn:Ee; [|done].
           by apply Hacc in Ee.
        -- destruct (Hent fd' p e Hin). split; [done|]. by eapply accepted_before_later.
      * intros p fd' c Hc. eapply accepted_before_later; [exact Hlater|by eapply Hacc].
      * intros p. by apply shared_inv_cons.
      * done.
    + apply Hk; [by apply suffix_cons_r|]. split; [|done]. cbn.
      by rewrite talk_on_opened by (cbn; apply Z.eqb_refl).
  - exists []. split; [|split; [by eexists [_]|by apply He, suffix_cons_r]].
    split; [by apply own_inv_silent|by apply server_tables_cons].
Qed.

Lemma apply_stream_nothing client (config : TcpConfig (TcpAdapter CR KC KP)) (sv : Server) t :
  exists a l, apply_stream (E := ProxyError) client config sv t = (Ok a, sv, l ++ t)
    /\ Forall (fun ev => carries_nothing client ev /\ forall t, relayed_so_far may_skip ev t) l.
Proof.
  set (P := fun ev => carries_nothing client ev /\ forall t, relayed_so_far may_skip ev t).
  assert (W : wp (apply_stream (E := ProxyError) client config)
                (fun r sv' t' => (is_ok r = true /\ sv' = sv) /\ extends P t t') sv t).
  { assert (Hcall : forall c r, socks_of (EvCall c r) = [] -> P (EvCall c r)) by (intros c r Hc; split; [by left|done]).
    assert (Hopt : forall l n v, P (EvSockopt client l n v)) by (intros l n v; split; [by right|done]).
    apply wp_emits; [unfold apply_stream; emits_steps; first [apply Hopt|by apply Hcall]|].
    unfold apply_stream. by wp_steps. }
  unfold wp in W. destruct (apply_stream client config sv t) as [[[a|e] sv'] t'];
    destruct W as [[Hok ->] (l & -> & Hl)]; [by exists a, l|done].
Qed.

Lemma owns_handle_connection fuel port client t0 h :
  has [(client, silence None)] [(client, (port, None))] h ->
  owns Inv (fun _ _ _ => True) t0 h (handle_connection_prog fuel port client).
Proof.
  intros Hh. apply lift_reading. intros w sv t L _ _. cbv beta iota. case_bool_decide.
  - apply (owns_zoom _ (lifted (S := State) (port_tables (Config := Config) may_skip port) (relayed_so_far may_skip))).
    + intros w1 sv1 t1 G [HI HR]. exists sv1. split; [split; [exact HI|by apply port_tables_of]|].
      intros x t' G' [HI' HR'] _. by split.
    + apply owns_handle_tcp_client; [apply Hunused|exact Hh].
  - eapply (lift_close _ _ server_tables_cons); [exact Hh|done|]. by intros.
Qed.

(** A round of the accept loop begins with nothing. *)
Lemma owns_accept_connection fuel listener port t0 :
  owns Inv (fun _ _ _ => True) t0 [] (accept_connection_prog fuel listener port).
Proof.
  apply lift_reading. intros w sv t L _ _. apply (owns_accept_client listener port).
  - intros client t1 h _ Hh. eapply (lift_nothing _ _ server_tables_cons); [exact Hh| |].
    { intros sv1 t2. apply apply_stream_nothing. }
    intros _ t2 h1 _ Hh1. eapply (owns_bind _ (fun _ _ _ => True)); [|done|done].
    apply owns_attempt. eapply owns_mono; [|by apply owns_handle_connection]. done.
  - intros e t1 _. apply (lift_silent _ _ server_tables_cons (fun _ => tt) (fun _ => EvSleep (from_millis 50)) _ _ _
      (fun a => pure (Ok a))); [done..|by intros].
Qed.

(** The rest of the process, as in TcpConcurrency, reads and copies nothing, and
    touches no connection that is open. *)
Definition no_relay (ev : event) : Prop := match ev with EvRead _ _ _ | EvCopy _ _ => False | _ => True end.
Definition tcp_apart (x y : Server * trace) : Prop :=
  meanwhile may_skip x y /\ leaves_connections no_relay x.2 y.2.

Lemma tables_inv_meanwhile (sv sv' : Server) t t' L :
  tables_inv may_skip sv t L -> meanwhile may_skip (sv, t) (sv', t') -> tables_inv may_skip sv' t' L.
Proof.
  intros HI Hm. inversion Hm as [ev ? ? Hev|port x ? ? [a Ha] Hx|port a a' ? ? Ha Hb Hp Hc|l ? ?]; subst.
  - by apply tables_inv_cons.
  - pose proof (port_tables_of _ port _ _ _ HI) as Hport.
    destruct (port_tables_routing _ _ _ _ _ _ Hport) as [Hr Hput]. apply Hput; [|done].
    by destruct (shared_inv_rely _ _ _ _ _ Hr Hx).
  - pose proof (port_tables_of _ port _ _ _ HI) as Hport. unfold port_state in Hport. rewrite Ha in Hport.
    apply (port_tables_same _ _ _ _ _ _ _ Hport); [|done|].
    + unfold ts_routing. cbn. by rewrite Hb.
    + intros fd. unfold entry. cbn. by rewrite Hc.
  - by apply (tables_inv_same _ sv).
Qed.

Lemma server_apart w (sv sv' : Server) t t' G :
  Inv w sv t G -> tcp_apart (sv, t) (sv', t') -> Inv w sv' t' G /\ t `suffix_of` t'.
Proof.
  intros [HI HR] [Hm Hl]. split; [|by eapply leaves_suffix]. split; [|by eapply tables_inv_meanwhile].
  by apply (own_inv_leaves _ _ _ sv sv' t t' _ no_relay); [intros []|..].
Qed.

Lemma server_perm w (sv : Server) t G G' : G ≡ₚ G' -> Inv w sv t G -> Inv w sv t G'.
Proof.
  intros HG [HI [Hu He Ha Hr Hp]]. split; [eapply own_inv_perm; [|exact HI]; by apply omap_Permutation|].
  assert (HL : slots_of G ≡ₚ slots_of G') by by apply omap_Permutation.
  split; try done; [by rewrite <- HL|]. intros fd port e. rewrite <- HL. apply He.
Qed.
End Server.

(** ** Properties *)
Section Properties.
Context `{Env} {CD CR KC KP : Type} `{TtlCacheLaws bytes IpAddr CD} `{TtlCacheLaws bytes CacheEntry CR}.
Context `{KvStore sock TcpClient KC, !KvStoreLaws sock TcpClient KC} `{KvStore sock sock KP, !KvStoreLaws sock sock KP}.
Context `{BpfLib U Obj} `{FileSystem} `{Rustls Cert Key Roots Verifier Config}.

Abbreviation Server := (TcpServer CD CR KC KP Obj Config).
Abbreviation serving := (config (K := Z * Z) (S := Server) (E := ProxyError) (A := unit)).

(** The server while it serves: rounds of the accept loops of its listeners
    (listener and port), each with the connection it accepts. *)
Definition rounds_step (fuel : nat) (may_skip : bool) : serving -> serving -> Prop :=
  sched_step (fun k => accept_connection_prog fuel k.1 k.2) (tcp_apart may_skip).

Lemma prepared_tables may_skip resolver (config : TcpConfig (TcpAdapter CR KC KP)) (sv : Server) :
  tc_adapter_factory config = None -> (tc_skip_validation config = true -> may_skip = true) ->
  prepare resolver dns_initial config = Ok sv -> tables_inv may_skip sv [] [].
Proof.
  intros Hf Hs (_ & Hd & (sm & Ha) & _)%prepare_ok.
  assert (Hport : forall port, port_inv may_skip port (port_state port sv) []
            /\ forall fd, entry (port_state port sv) fd = None).
  { intros port. unfold port_state, entry. rewrite Ha, Hd. case_decide.
    - split; [by apply build_adapter_inv|]. intros fd. cbn. unfold build_adapter. rewrite Hf. cbn zeta.
      destruct (tc_skip_validation config), (0 <? tc_cache_ttl config); apply kv_get_empty.
    - split; [|intros fd; apply kv_get_empty]. split; [apply shared_inv_initial|done| |constructor].
      intros fd c. cbn. by rewrite kv_get_empty. }
  split; [apply NoDup_nil_2|by intros ? ? ? ?%elem_of_nil|..].
  - intros port fd c. destruct (Hport port) as [_ He]. by rewrite He.
  - intros port. apply Hport.
  - intros port. apply Hport.
Qed.

End Properties.

(** ** Witness *)

(** Two clients that send two chunks each, and backends that send back what they
    are sent; backends and clients are ready in turn. *)
Definition pipe_env : Env :=
  numbered (scripted_env (fun _ => Elapsed) (fun _ _ _ => Elapsed)
    (fun t s _ =>
       let x := talk_on s t in
       Done (Ok (match tk_dialled x with
                 | Some _ => drop (length (tk_received x)) (tk_sent x)
                 | None =>
                     if bool_decide (tk_received x = []) then B "from " ++ print_dec s
                     else if bool_decide (tk_received x = B "from " ++ print_dec s) then B ", more" else []
                 end)))
    (fun _ _ => Ok [])
    (fun t => Nat.odd (Nat.div2 (length (List.filter (fun ev => match ev with EvSelect _ => true | _ => false end) t))))).
#[local] Existing Instances pipe_env example_files example_rustls memory_bpf.

Definition pipe_server : ExServer :=
  mkTcpServer tcp_example_config
    (<[5433 := build_adapter concurrency_example_resolver tcp_example_config false 5433]> ∅)
    None dns_initial (sockmap_new []).
Definition pipe_run :=
  schedule (concat (repeat [0; 1]%nat 60))
    (mkConfig [((3, 5433), accept_connection_prog 9 3 5433); ((3, 5433), accept_connection_prog 9 3 5433)] pipe_server []).

Lemma pipe_prepared : prepare concurrency_example_resolver dns_initial tcp_example_config = Ok pipe_server.
Proof. reflexivity. Qed.
Lemma pipe_reachable : rtc (rounds_step 9 false) (mkConfig [] pipe_server []) pipe_run.
Proof.
  eapply rtc_l; [apply (sched_spawn _ _ (3, 5433))|]. eapply rtc_l; [apply (sched_spawn _ _ (3, 5433))|].
  apply schedule_sched.
Qed.
Lemma numbered_unused e : @unused_descriptors (numbered e).
Proof.
  split; [apply numbered_fresh|]. intros t listener fd [= <-] [l Hin].
  enough (Hle : 1 + top t <= top t) by lia. revert Hin. generalize (1 + top t) as fd. intros fd.
  induction t as [|ev t IH]; [by intros ?%elem_of_nil|]. pose proof (top_mono ev t).
  intros [<-|Hin%IH]%elem_of_cons; [cbn; lia|lia].
Qed.

(** The history before the second client's last read, and what its connection
    and its backend's have carried by then. *)
Definition pipe_so_far : trace := drop 5 (history pipe_run).
Example pipe_talks :
  (talk_on 2 pipe_so_far, talk_on 4 pipe_so_far)
  = (mkTalk None [] (B "from 2, more") (B "from 2, more"),
     mkTalk (Some (B "1.1.1.1", 5432)) [] (B "from 2, more") (B "from 2, more")).
Proof. vm_compute. reflexivity. Qed.

