(* ===== verification/HttpHost.v ===== *)
(** * HttpHost: validation of the Host header
    ([is_valid_hostname] of [src/server/http/handler.rs]). *)

From Stdlib Require Import Ascii.
From S2P Require Import Prelude Text Net.
Open Scope Z_scope.

Definition hyphen : ascii := "-"%char.

(** [c.is_ascii_alphanumeric() || c == '-']. *)
Definition is_label_char (c : ascii) : bool :=
  is_ascii_alphanumeric c || bool_decide (c = hyphen).

(** [is_valid_label]. *)
Definition is_valid_label (label : bytes) : bool :=
  if bool_decide (label = []) || bool_decide (63 < List.length label)%nat then false
  else if starts_with label [hyphen] || ends_with label [hyphen] then false
  else forallb is_label_char label.

(** The host without a [:port] suffix. *)
Definition strip_port (hostname : bytes) : bytes :=
  match rsplit_once colon hostname with
  | Some (host, port) =>
      if bool_decide (port <> []) && forallb is_ascii_digit port then host else hostname
  | None => hostname
  end.

(** [is_valid_hostname]. *)
Definition is_valid_hostname (hostname : bytes) : bool :=
  if bool_decide (hostname = []) then false
  else
    let host_part := strip_port hostname in
    if bool_decide (host_part = []) || bool_decide (253 < List.length host_part)%nat then false
    else if bool_decide (is_Some (parse_ipv4 host_part)) then true
    else
      (forallb is_valid_label (split dot host_part) && bool_decide (dot ∈ host_part))
      || forallb is_label_char host_part.

(** ** Characters *)

(** Letters, digits, hyphen and dot. *)
Definition is_host_char (c : ascii) : bool := is_label_char c || bool_decide (c = dot).

Lemma split_chars (P : ascii -> Prop) c s :
  Forall (Forall P) (split c s) -> Forall (fun d => P d \/ d = c) s.
Proof.
  induction s as [|d s IH]; cbn; [done|]. case_bool_decide as Hd.
  - intros [_ Hs]%Forall_cons. constructor; [by right|by apply IH].
  - destruct (split c s) as [|p ps].
    + intros [[? _]%Forall_cons _]%Forall_cons. constructor; [by left|by apply IH].
    + intros [[? ?]%Forall_cons ?]%Forall_cons. constructor; [by left|]. apply IH. by constructor.
Qed.

Lemma forallb_Forall {A} (f : A -> bool) l : forallb f l = true <-> Forall (fun x => f x = true) l.
Proof. rewrite Forall_forall, forallb_forall. by setoid_rewrite list_elem_of_In. Qed.

Lemma is_valid_label_chars label :
  is_valid_label label = true -> Forall (fun c => is_label_char c = true) label.
Proof. unfold is_valid_label. repeat case_match; try done. by rewrite forallb_Forall. Qed.

(** The octets of an address literal are digits. *)
Lemma digit_val_digit c d : digit_val 10 c = Some d -> is_ascii_digit c = true.
Proof.
  unfold digit_val. destruct (is_ascii_digit c) eqn:E; [done|].
  unfold is_ascii_lower, is_ascii_upper.
  destruct ((97 <=? code c) && (code c <=? 122)) eqn:E1.
  { destruct (_ <? 10) eqn:E2; [|done]. bool_to_prop. lia. }
  destruct ((65 <=? code c) && (code c <=? 90)) eqn:E2; [|done].
  destruct (_ <? 10) eqn:E3; [|done]. bool_to_prop. lia.
Qed.

Lemma take_digits_prefix s ds rest :
  take_digits 10 s = (ds, rest) ->
  exists p, s = p ++ rest /\ Forall (fun c => is_ascii_digit c = true) p.
Proof.
  revert ds rest. induction s as [|c s IH]; intros ds rest; cbn.
  - intros [= <- <-]. by exists [].
  - destruct (digit_val 10 c) as [d|] eqn:E.
    + destruct (take_digits 10 s) as [ds' rest']. intros [= <- <-].
      destruct (IH _ _ eq_refl) as (p & -> & Hp). exists (c :: p).
      split; [done|]. constructor; [by eapply digit_val_digit|done].
    + intros [= <- <-]. by exists [].
Qed.

Lemma is_digit_host c : is_ascii_digit c = true -> is_host_char c = true.
Proof. unfold is_host_char, is_label_char, is_ascii_alphanumeric. by intros ->. Qed.

(** Reading an octet consumes host characters only. *)
Lemma read_octet_chars i s a rest :
  read_octet i s = Some (a, rest) ->
  exists p, s = p ++ rest /\ Forall (fun c => is_host_char c = true) p.
Proof.
  assert (Hn : forall s, read_number 10 3 false 255 s = Some (a, rest) ->
    exists p, s = p ++ rest /\ Forall (fun c => is_host_char c = true) p).
  { intros s'. unfold read_number. destruct (take_digits 10 s') as [ds r] eqn:E.
    apply take_digits_prefix in E as (p & -> & Hp).
    repeat case_match; try done; intros [= <- <-]; exists p; (split; [done|]);
      eapply Forall_impl; [exact Hp|apply is_digit_host]. }
  unfold read_octet, read_separator. destruct i; [apply Hn|].
  destruct s as [|d s]; [done|]. cbn. case_bool_decide as Hd; [|done]. subst.
  intros (p & -> & Hp)%Hn. exists (dot :: p). split; [done|]. by constructor.
Qed.

Lemma parse_ipv4_chars s ip :
  parse_ipv4 s = Some ip -> Forall (fun c => is_host_char c = true) s.
Proof.
  unfold parse_ipv4, parse_with, read_ipv4_addr. case_bool_decide; [done|].
  destruct (read_octet 0 s) as [[a s1]|] eqn:E0; [|done].
  destruct (read_octet 1 s1) as [[b s2]|] eqn:E1; [|done].
  destruct (read_octet 2 s2) as [[c s3]|] eqn:E2; [|done].
  destruct (read_octet 3 s3) as [[d s4]|] eqn:E3; [|done].
  destruct s4; [|done]. intros _.
  apply read_octet_chars in E0 as (p0 & -> & ?), E1 as (p1 & -> & ?), E2 as (p2 & -> & ?),
    E3 as (p3 & -> & ?).
  by rewrite app_nil_r, !Forall_app.
Qed.

Lemma strip_port_spec hostname :
  exists port, hostname = strip_port hostname ++ port
  /\ (port = [] \/ exists ds, port = colon :: ds /\ ds <> [] /\ forallb is_ascii_digit ds = true).
Proof.
  unfold strip_port. pose proof (rsplit_once_spec colon hostname) as H.
  destruct (rsplit_once colon hostname) as [[host port]|].
  - destruct H as [-> _]. case_bool_decide as Hne; cbn [andb].
    + destruct (forallb is_ascii_digit port) eqn:Ed.
      * exists (colon :: port). split; [done|]. right. by exists port.
      * exists []. rewrite app_nil_r. auto.
    + exists []. rewrite app_nil_r. auto.
  - exists []. rewrite app_nil_r. auto.
Qed.

(** ** Properties *)

(** An accepted Host header is a host of at most 253 letters, digits,
    hyphens and dots, followed by nothing or by a colon and digits: no control
    character, space, slash or at-sign can reach the resolver or a forwarded
    request line through it. *)
Theorem valid_hostname_charset h :
  is_valid_hostname h = true ->
  exists host port, h = host ++ port
  /\ (0 < List.length host <= 253)%nat /\ Forall (fun c => is_host_char c = true) host
  /\ (port = [] \/ exists ds, port = colon :: ds /\ ds <> [] /\ forallb is_ascii_digit ds = true).
Proof.
  unfold is_valid_hostname. case_bool_decide; [done|].
  destruct (strip_port_spec h) as (port & Eh & Hport).
  case_bool_decide as Hne; [done|]. case_bool_decide as Hlen; cbn [orb]; [done|].
  intros Hv. exists (strip_port h), port. split; [done|].
  split. { destruct (strip_port h); [done|]. cbn [List.length] in *. lia. }
  split; [|done]. revert Hv. case_bool_decide as Hip.
  { intros _. destruct Hip as [ip Hip]. by eapply parse_ipv4_chars. }
  rewrite orb_true_iff, andb_true_iff. intros [[Hl _]|Hl].
  - eapply Forall_impl; [eapply (split_chars (fun c => is_label_char c = true) dot)|].
    + apply forallb_Forall in Hl. eapply Forall_impl; [exact Hl|apply is_valid_label_chars].
    + intros c [Hc| ->]; unfold is_host_char; [by rewrite Hc|by rewrite bool_decide_eq_true_2, orb_true_r].
  - apply forallb_Forall in Hl. eapply Forall_impl; [exact Hl|].
    intros c Hc. unfold is_host_char. by rewrite Hc.
Qed.

(** Host names without a dot escape the label rules: anything made of
    letters, digits and hyphens, up to 253 of them, is accepted, including
    labels that start or end with a hyphen or exceed 63 characters. *)
Theorem dotless_hostname_unchecked h :
  h <> [] -> (List.length h <= 253)%nat -> forallb is_label_char h = true ->
  is_valid_hostname h = true.
Proof.
  intros Hne Hlen Hall. unfold is_valid_hostname.
  assert (Hcol : colon ∉ h).
  { intros Hin. rewrite forallb_forall in Hall. apply list_elem_of_In, Hall in Hin. done. }
  assert (Hs : strip_port h = h).
  { unfold strip_port. pose proof (rsplit_once_spec colon h) as H.
    destruct (rsplit_once colon h) as [[a b]|]; [|done]. destruct H as [-> _]. set_solver. }
  rewrite Hs, !bool_decide_eq_false_2 by (done || lia). cbn [orb].
  rewrite Hall, orb_true_r. by case_bool_decide.
Qed.

(** ** Witnesses *)

Lemma valid_hostname_charset_witness :
  is_valid_hostname (B "sub.example.com:8080") = true
  /\ exists host port, B "sub.example.com:8080" = host ++ port
  /\ (0 < List.length host <= 253)%nat /\ Forall (fun c => is_host_char c = true) host
  /\ (port = [] \/ exists ds, port = colon :: ds /\ ds <> [] /\ forallb is_ascii_digit ds = true).
Proof.
  split; [vm_compute; reflexivity|].
  exact (valid_hostname_charset (B "sub.example.com:8080") eq_refl).
Defined.

Lemma dotless_hostname_unchecked_witness :
  is_valid_hostname (B "-bad-") = true
  /\ is_valid_label (B "-bad-") = false
  /\ is_valid_hostname (replicate 200 "a"%char) = true.
Proof.
  split; [apply dotless_hostname_unchecked; [discriminate|vm_compute; lia|reflexivity]|].
  split; [reflexivity|].
  apply dotless_hostname_unchecked; [discriminate|vm_compute; lia|reflexivity].
Defined.
