(* ===== verification/HttpPool.v ===== *)
(** * HttpPool: pools of backend HTTP connections
    ([src/server/http/pool.rs]).

    The semaphore and the registry ([DashMap]) are the interfaces of Stores; an
    [Arc<Pool>] is the name of the registry's entry, which is never removed.
    Texts and checks of the [http] crate are the interface [HttpLib]. *)

From S2P Require Import Prelude Text Net Resolver World Stores TcpConfig.
Open Scope Z_scope.

(** The parts of the [http] and [tokio] crates the HTTP server computes with. *)
Class HttpLib : Type := {
  (** [HeaderName]: the canonical (lower-case) name, if the text is one *)
  header_name : bytes -> option bytes;
  (** [HeaderValue]: whether the bytes are one; [to_str]: the visible ASCII *)
  header_value_ok : bytes -> bool;
  header_to_str : bytes -> option bytes;
  (** [StatusCode::from_u16] succeeds *)
  status_ok : Z -> bool;
  (** [Request::builder()]...[body(..)]: the error's text *)
  request_builds : http_request -> result bytes unit;
  (** [Response::builder()]...[body(..)] fails with this text on a bad header *)
  response_build_error : bytes;
  (** [BytesMut::with_capacity] of this many bytes does not panic *)
  capacity_ok : Z -> bool;
  (** [{:?}] of a [Duration], and [Display] of tokio's [Elapsed] *)
  debug_duration : Z -> bytes;
  elapsed_text : bytes }.

(** [<str as ToSocketAddrs>]: a socket address, or a host and a port. *)
Definition split_authority (s : bytes) : result io_error (bytes * Z) :=
  match parse_socket_addr s with
  | Some (ip, port) => Ok (display_ip ip, port)
  | None =>
      match rsplit_once colon s with
      | None => Err (mkIoError InvalidInput (B "invalid socket address"))
      | Some (host, port_str) =>
          match parse_u16 port_str with
          | None => Err (mkIoError InvalidInput (B "invalid port value"))
          | Some port => Ok (host, port)
          end
      end
  end.

(** [struct Client]: hyper's sender is named by its socket. *)
Record Client : Type := mkClient { cl_sender : sock; cl_healthy : bool }.

Section Pool.
Context `{Env} `{HttpLib} {T K : Type} `{Semaphore T}.

(** [Client::is_healthy]. *)
Definition is_healthy (t : trace) (c : Client) : bool :=
  cl_healthy c && env_http_ready t (cl_sender c).

(** [struct Pool]. *)
Record Pool : Type := mkPool {
  pl_endpoint : bytes;
  pl_capacity : T;
  pl_idle : list Client }.

Definition pool_new (endpoint : bytes) (size : nat) : Pool := mkPool endpoint (sem_new size) [].

(** The atomic steps on a pool: a permit, the front of the deque, pushing back,
    dropping a permit. *)
Definition try_permit (p : Pool) : option Pool :=
  match sem_acquire (pl_capacity p) with
  | Some c => Some (mkPool (pl_endpoint p) c (pl_idle p))
  | None => None
  end.
Definition pop_idle (p : Pool) : option Client * Pool :=
  match pl_idle p with
  | [] => (None, p)
  | c :: rest => (Some c, mkPool (pl_endpoint p) (pl_capacity p) rest)
  end.
(** [Pool::release]. *)
Definition release (t : trace) (c : Client) (p : Pool) : Pool :=
  if is_healthy t c then mkPool (pl_endpoint p) (pl_capacity p) (pl_idle p ++ [c]) else p.
Definition drop_permit (p : Pool) : Pool :=
  mkPool (pl_endpoint p) (sem_release (pl_capacity p)) (pl_idle p).

(** [connect]. *)
Definition connect {S} (endpoint : bytes) (connect_timeout : Z) : M S ProxyError Client :=
  match split_authority endpoint with
  | Err e => fail (PBackendConnect (io_message e))
  | Ok (host, port) =>
      r <- io_connect host port connect_timeout ;;
      match r with
      | Elapsed =>
          fail (PBackendConnect (B "connect to " ++ endpoint ++ B " timed out after "
                                 ++ debug_duration connect_timeout))
      | Done (Err e) => fail (PBackendConnect (io_message e))
      | Done (Ok stream) =>
          r <- io_nodelay stream ;;
          match r with
          | Err e => io_close stream ;; fail (PBackendConnect (io_message e))
          | Ok _ =>
              r <- io_http_handshake stream ;;
              match r with
              | Err e => io_close stream ;; fail (PBackendConnect (io_message e))
              | Ok _ => ret (mkClient stream true)
              end
          end
      end
  end.

(** [struct PooledClient]; the pool by its name. *)
Record PooledClient : Type := mkPooledClient {
  pc_pool : option bytes;
  pc_permit : option bytes;
  pc_client : Client }.

(** [PooledClient::invalidate]. *)
Definition invalidate (c : PooledClient) : PooledClient :=
  mkPooledClient (pc_pool c) (pc_permit c) (mkClient (cl_sender (pc_client c)) false).

(** ** The registry *)
Context `{KvStore bytes Pool K}.

Definition on_pool {E} (name : bytes) (f : trace -> Pool -> Pool) : M K E unit :=
  fun pools t =>
    match kv_get pools name with
    | Some p => (Ok tt, kv_insert pools name (f t p), t)
    | None => (Ok tt, pools, t)
    end.

(** [Pools::get_or_create]: the name of the pool. *)
Definition get_or_create {E} (endpoint : bytes) (size : nat) : M K E bytes :=
  fun pools t =>
    match kv_get pools endpoint with
    | Some _ => (Ok endpoint, pools, t)
    | None => (Ok endpoint, kv_insert pools endpoint (pool_new endpoint size), t)
    end.

(** Waiting for a permit: granted at once, or (no other task releasing one) not
    before the timeout. *)
Definition acquire_permit {E} (name : bytes) : M K E bool :=
  fun pools t =>
    match kv_get pools name with
    | Some p =>
        match try_permit p with
        | Some p' => (Ok true, kv_insert pools name p', t)
        | None => (Ok false, pools, t)
        end
    | None => (Ok false, pools, t)
    end.

(** The idle client a permit holder gets: only the front one is looked at, and
    dropped when it is not healthy. *)
Definition reuse_idle {E} (name : bytes) : M K E (option Client) :=
  fun pools t =>
    match kv_get pools name with
    | Some p =>
        let '(front, p') := pop_idle p in
        match front with
        | Some c =>
            if is_healthy t c then (Ok (Some c), kv_insert pools name p', t)
            else (Ok None, kv_insert pools name p', EvClose (cl_sender c) :: t)
        | None => (Ok None, pools, t)
        end
    | None => (Ok None, pools, t)
    end.

(** [Pool::acquire]. *)
Definition acquire (name : bytes) (connect_timeout : Z) : M K ProxyError PooledClient :=
  permit <- acquire_permit name ;;
  reused <- (if permit : bool then reuse_idle name else ret None) ;;
  match reused with
  | Some c => ret (mkPooledClient (Some name) (Some name) c)
  | None =>
      r <- attempt (connect name connect_timeout) ;;
      match r with
      | Ok c =>
          ret (mkPooledClient (if permit : bool then Some name else None)
                 (if permit : bool then Some name else None) c)
      | Err e =>
          (if permit : bool then on_pool name (fun _ => drop_permit) else ret tt) ;;
          fail e
      end
  end.

(** [Drop for PooledClient]: a client that is not kept is closed. *)
Definition drop_pooled {E} (c : PooledClient) : M K E unit :=
  (fun pools t =>
     match pc_pool c with
     | Some name =>
         let '(r, pools', t') := on_pool name (fun t => release t (pc_client c)) pools t in
         (r, pools', if is_healthy t (pc_client c) then t' else EvClose (cl_sender (pc_client c)) :: t')
     | None => (Ok tt, pools, EvClose (cl_sender (pc_client c)) :: t)
     end) ;;
  match pc_permit c with
  | Some name => on_pool name (fun _ => drop_permit)
  | None => ret tt
  end.
End Pool.
Arguments Pool T : clear implicits.
