(* ===== verification/HttpPoolBounds.v ===== *)
(** * HttpPoolBounds: how many backend connections a pool keeps.

    Tasks acquire and release concurrently; the atomic steps of HttpPool
    interleave freely.  [pool_step] is that interleaving; [acquire] and
    [drop_pooled], run alone, are paths of it. *)

From S2P Require Import Prelude Text Net Resolver World Stores TcpConfig HttpPool.
Open Scope nat_scope.

(** Where a task is with its client: it holds a permit and has not looked at
    the idle clients; it is dialling; it uses a client; it has given the client
    back and still holds the permit; the last two: without a permit. *)
Inductive task : Type :=
| Permitted
| Dialling
| Using (c : Client)
| Returned
| OverflowDialling
| OverflowUsing (c : Client).

Definition has_permit (x : task) : nat :=
  match x with
  | Permitted | Dialling | Using _ | Returned => 1
  | OverflowDialling | OverflowUsing _ => 0
  end.
(** Client connections that exist or are being made under a permit. *)
Definition committed (x : task) : nat :=
  match x with Dialling | Using _ => 1 | _ => 0 end.

Definition total (f : task -> nat) (ts : list task) : nat := sum_list (map f ts).

Lemma total_cons f x ts : total f (x :: ts) = f x + total f ts.
Proof. done. Qed.
Lemma total_middle f x ts1 ts2 : total f (ts1 ++ x :: ts2) = f x + total f (ts1 ++ ts2).
Proof. unfold total. rewrite !map_app, !sum_list_with_app. cbn. lia. Qed.
Lemma committed_le ts : total committed ts <= total has_permit ts.
Proof. induction ts as [|x ts IH]; [done|]. rewrite !total_cons. destruct x; cbn; lia. Qed.

(** Distinct elements of the parts of a list. *)
Lemma NoDup_sub {A} (l k : list A) : l ⊆+ k -> NoDup k -> NoDup l.
Proof. intros [r ->]%submseteq_Permutation Hd. by apply NoDup_app in Hd as (? & _ & _). Qed.

Lemma elem_of_concat_lookup {A} (ls : list (list A)) i l x : ls !! i = Some l -> x ∈ l -> x ∈ concat ls.
Proof.
  intros Hi Hx. rewrite list_elem_of_In, in_concat. exists l.
  split; apply list_elem_of_In; [by eapply list_elem_of_lookup_2|done].
Qed.

Lemma NoDup_concat_lookup {A} (ls : list (list A)) i j l k x :
  NoDup (concat ls) -> ls !! i = Some l -> ls !! j = Some k -> x ∈ l -> x ∈ k -> i = j.
Proof.
  revert i j. induction ls as [|h ls IH]; intros i j Hd Hi Hj Hl Hk; [done|].
  cbn in Hd. apply NoDup_app in Hd as (_ & Hdis & Hd).
  destruct i as [|i], j as [|j]; cbn in Hi, Hj; simplify_eq; [done|..].
  - exfalso. apply (Hdis x); [done|by eapply elem_of_concat_lookup].
  - exfalso. apply (Hdis x); [done|by eapply elem_of_concat_lookup].
  - f_equal. by eapply IH.
Qed.

Section Bounds.
Context `{Env} `{HttpLib} {T : Type} `{SemaphoreLaws T}.
Implicit Types (p : Pool T) (ts : list task) (t : trace).

Inductive pool_step : Pool T * list task -> Pool T * list task -> Prop :=
| ps_permit p p' ts : try_permit p = Some p' -> pool_step (p, ts) (p', Permitted :: ts)
| ps_timeout p ts : try_permit p = None -> pool_step (p, ts) (p, OverflowDialling :: ts)
| ps_reuse t c p p' ts1 ts2 :
    pop_idle p = (Some c, p') -> is_healthy t c = true ->
    pool_step (p, ts1 ++ Permitted :: ts2) (p', ts1 ++ Using c :: ts2)
| ps_discard t c p p' ts1 ts2 :
    pop_idle p = (Some c, p') -> is_healthy t c = false ->
    pool_step (p, ts1 ++ Permitted :: ts2) (p', ts1 ++ Dialling :: ts2)
| ps_none p ts1 ts2 :
    pop_idle p = (None, p) ->
    pool_step (p, ts1 ++ Permitted :: ts2) (p, ts1 ++ Dialling :: ts2)
| ps_dialled c p ts1 ts2 : pool_step (p, ts1 ++ Dialling :: ts2) (p, ts1 ++ Using c :: ts2)
| ps_failed p ts1 ts2 : pool_step (p, ts1 ++ Dialling :: ts2) (drop_permit p, ts1 ++ ts2)
| ps_release t c c' p ts1 ts2 :
    cl_sender c' = cl_sender c ->
    pool_step (p, ts1 ++ Using c :: ts2) (release t c' p, ts1 ++ Returned :: ts2)
| ps_done p ts1 ts2 : pool_step (p, ts1 ++ Returned :: ts2) (drop_permit p, ts1 ++ ts2)
| ps_over_dialled c p ts1 ts2 :
    pool_step (p, ts1 ++ OverflowDialling :: ts2) (p, ts1 ++ OverflowUsing c :: ts2)
| ps_over_failed p ts1 ts2 : pool_step (p, ts1 ++ OverflowDialling :: ts2) (p, ts1 ++ ts2)
| ps_over_done c p ts1 ts2 : pool_step (p, ts1 ++ OverflowUsing c :: ts2) (p, ts1 ++ ts2).

(** Every permit is accounted for, and idle clients plus clients under a permit
    never exceed the size. *)
Definition pool_inv (size : nat) (st : Pool T * list task) : Prop :=
  sem_available (pl_capacity st.1) + total has_permit st.2 = size
  /\ List.length (pl_idle st.1) + total committed st.2 <= size.

Lemma release_idle t c p : List.length (pl_idle (release t c p)) <= 1 + List.length (pl_idle p).
Proof. unfold release. destruct (is_healthy t c); cbn; rewrite ?length_app; cbn; lia. Qed.
Lemma release_capacity t c p : pl_capacity (release t c p) = pl_capacity p.
Proof. unfold release. by destruct (is_healthy t c). Qed.

Lemma pop_idle_spec p o p' :
  pop_idle p = (o, p') ->
  pl_capacity p' = pl_capacity p
  /\ match o with
     | Some _ => List.length (pl_idle p) = S (List.length (pl_idle p'))
     | None => List.length (pl_idle p) = 0
     end.
Proof. unfold pop_idle. destruct (pl_idle p) as [|c l] eqn:E; intros [= <- <-]; cbn; by rewrite ?E. Qed.

Lemma pool_inv_step size st st' : pool_inv size st -> pool_step st st' -> pool_inv size st'.
Proof.
  intros [Hp Hc] Hstep. unfold pool_inv in *. pose proof committed_le as Hle.
  destruct Hstep as [p p' ts Hs|p ts Hs|t c p p' ts1 ts2 Hpop _|t c p p' ts1 ts2 Hpop _
    |p ts1 ts2 Hpop|c p ts1 ts2|p ts1 ts2|t c c' p ts1 ts2 _|p ts1 ts2|c p ts1 ts2|p ts1 ts2
    |c p ts1 ts2]; cbn [fst snd] in *; rewrite ?total_middle, ?total_cons in *; cbn in *;
    try (apply pop_idle_spec in Hpop as [Hcap Hpop]; cbn in Hpop; try rewrite Hcap);
    try (try specialize (Hle (ts1 ++ ts2)); rewrite ?sem_release_available; lia).
  - unfold try_permit in Hs. destruct (sem_acquire _) as [cap|] eqn:Ea; [|done].
    injection Hs as <-. cbn. apply sem_acquire_some in Ea. specialize (Hle ts). lia.
  - pose proof (release_idle t c' p). rewrite release_capacity. lia.
Qed.

Lemma pool_inv_new endpoint size : pool_inv size (pool_new endpoint size, []).
Proof. unfold pool_inv. cbn. rewrite sem_new_available. lia. Qed.

Lemma pool_inv_reachable size st st' : pool_inv size st -> rtc pool_step st st' -> pool_inv size st'.
Proof.
  intros Hi Hr. induction Hr as [|x y z Hxy _ IH]; [done|]. by eapply IH, pool_inv_step.
Qed.

(** The sockets of a pool: its idle clients', and one for each task that uses a
    client. *)
Definition socket_of (x : task) : list sock :=
  match x with Using c | OverflowUsing c => [cl_sender c] | _ => [] end.
Definition sockets (st : Pool T * list task) : list sock :=
  map cl_sender (pl_idle st.1) ++ concat (map socket_of st.2).

Lemma sockets_middle p x ts1 ts2 :
  sockets (p, ts1 ++ x :: ts2) ≡ₚ socket_of x ++ sockets (p, ts1 ++ ts2).
Proof. unfold sockets. cbn. rewrite !map_app, !concat_app. cbn. solve_Permutation. Qed.

Lemma sockets_release t c p ts : sockets (release t c p, ts) ⊆+ cl_sender c :: sockets (p, ts).
Proof.
  unfold release. destruct (is_healthy t c); [|by apply submseteq_cons].
  unfold sockets. cbn. rewrite map_app. cbn. apply Permutation_submseteq. solve_Permutation.
Qed.

Lemma sockets_pop o p p' ts :
  pop_idle p = (o, p') ->
  sockets (p, ts) = match o with Some c => cl_sender c :: sockets (p', ts) | None => sockets (p', ts) end.
Proof. unfold pop_idle, sockets. cbn. destruct (pl_idle p) as [|c l] eqn:E; intros [= <- <-]; cbn; by rewrite ?E. Qed.

(** A step opens at most one socket. *)
Lemma pool_step_sockets st st' :
  pool_step st st' -> sockets st' ⊆+ sockets st \/ exists s, sockets st' ≡ₚ s :: sockets st.
Proof.
  intros Hstep. destruct Hstep as [p p' ts Hs|p ts Hs|t c p p' ts1 ts2 Hpop _|t c p p' ts1 ts2 Hpop _
    |p ts1 ts2 Hpop|c p ts1 ts2|p ts1 ts2|t c c' p ts1 ts2 Hc|p ts1 ts2|c p ts1 ts2|p ts1 ts2
    |c p ts1 ts2];
    first [right; exists (cl_sender c); rewrite !sockets_middle; done
          |left; rewrite ?sockets_middle; cbn [socket_of app]]; try done.
  - unfold try_permit in Hs. destruct (sem_acquire _); [|done]. by injection Hs as <-.
  - by rewrite (sockets_pop _ _ _ _ Hpop).
  - rewrite (sockets_pop _ _ _ _ Hpop). by apply submseteq_cons.
  - rewrite <- Hc. apply sockets_release.
  - by apply submseteq_cons.
Qed.

(** The kernel gives a new socket no descriptor that is open. *)
Definition fresh_step (st st' : Pool T * list task) : Prop :=
  pool_step st st' /\ forall s, sockets st' ≡ₚ s :: sockets st -> s ∉ sockets st.

Lemma sockets_distinct st st' :
  rtc fresh_step st st' -> NoDup (sockets st) -> NoDup (sockets st').
Proof.
  intros Hr. induction Hr as [|st1 st2 st3 [Hstep Hfresh] _ IH]; [done|]. intros Hd. apply IH.
  destruct (pool_step_sockets _ _ Hstep) as [Hs|[s Hs]]; [by eapply NoDup_sub|].
  rewrite Hs. constructor; [by apply Hfresh|done].
Qed.

(** Without a permit clients accumulate. *)
Lemma overflow_path (c : Client) n p :
  try_permit p = None -> rtc pool_step (p, []) (p, replicate n (OverflowUsing c)).
Proof.
  intros Hp. induction n as [|n IH]; [done|]. etrans; [exact IH|].
  eapply rtc_l; [by apply ps_timeout|]. apply rtc_once.
  exact (ps_over_dialled c p [] (replicate n (OverflowUsing c))).
Qed.

(** ** The operations are paths *)
Context `{KvStore bytes (Pool T) K, !KvStoreLaws bytes (Pool T) K}.
Implicit Types (pools : K).

Definition task_of (c : PooledClient) : task :=
  match pc_permit c with
  | Some _ => Using (pc_client c)
  | None => OverflowUsing (pc_client c)
  end.

(** The pool of a name went from [p] to [p'], the others are as they were. *)
Definition pool_moved (name : bytes) pools pools' p' : Prop :=
  forall name', kv_get pools' name' = if decide (name = name') then Some p' else kv_get pools name'.

Lemma pool_moved_insert name pools p' : pool_moved name pools (kv_insert pools name p') p'.
Proof. intros name'. apply kv_get_insert. Qed.
Lemma pool_moved_refl name pools p : kv_get pools name = Some p -> pool_moved name pools pools p.
Proof. intros Hp name'. case_decide; [by subst|done]. Qed.
Lemma pool_moved_trans name pools pools1 pools2 p1 p2 :
  pool_moved name pools pools1 p1 -> pool_moved name pools1 pools2 p2 ->
  pool_moved name pools pools2 p2.
Proof. intros H1' H2' name'. rewrite H2', H1'. by case_decide. Qed.

Lemma inert_connect {S} endpoint lim : inert (fun _ => True) (connect (S := S) endpoint lim).
Proof. unfold connect. inert_steps; done. Qed.

(** [Pool::acquire], run alone, is a path of the interleaving: it ends with one
    more task that uses a client, or none on an error. *)
Lemma wp_acquire name lim pools p ts t :
  kv_get pools name = Some p ->
  wp (acquire name lim)
    (fun r pools' _ => exists p', pool_moved name pools pools' p'
       /\ rtc pool_step (p, ts) (p', match r with Ok c => task_of c :: ts | Err _ => ts end))
    pools t.
Proof.
  intros Hp. unfold acquire. wp_step. unfold acquire_permit, wp at 1. rewrite Hp.
  (* the dialling, with or without a permit *)
  assert (Hdial : forall (permit : bool) pools1 p1 t1,
    pool_moved name pools pools1 p1 ->
    rtc pool_step (p, ts) (p1, (if permit then Dialling else OverflowDialling) :: ts) ->
    wp (r <- attempt (connect name lim) ;;
        match r with
        | Ok c => ret (mkPooledClient (if permit then Some name else None)
                         (if permit then Some name else None) c)
        | Err e => (if permit then on_pool name (fun _ => drop_permit) else ret tt) ;; fail e
        end)
      (fun r pools' _ => exists p', pool_moved name pools pools' p'
         /\ rtc pool_step (p, ts) (p', match r with Ok c => task_of c :: ts | Err _ => ts end))
      pools1 t1).
  { intros permit pools1 p1 t1 Hmoved Hpath. wp_step. wp_step.
    eapply wp_inert; [apply inert_connect|]. intros [c|e] l _.
    - apply wp_ret. exists p1. split; [done|]. eapply rtc_r; [exact Hpath|].
      destruct permit; [apply (ps_dialled c p1 [] ts)|apply (ps_over_dialled c p1 [] ts)].
    - wp_step. destruct permit.
      + assert (Hp1 : kv_get pools1 name = Some p1) by (by rewrite Hmoved, decide_True).
        unfold on_pool, wp at 1. rewrite Hp1. apply wp_fail. exists (drop_permit p1).
        split; [eapply pool_moved_trans; [exact Hmoved|apply pool_moved_insert]|].
        eapply rtc_r; [exact Hpath|]. apply (ps_failed p1 [] ts).
      + apply wp_ret, wp_fail. exists p1. split; [done|].
        eapply rtc_r; [exact Hpath|]. apply (ps_over_failed p1 [] ts). }
  destruct (try_permit p) as [p1|] eqn:Ep.
  2: { wp_step. apply wp_ret. apply (Hdial false _ p); [by apply pool_moved_refl|].
       exact (rtc_once _ _ (ps_timeout p ts Ep)). }
  assert (Hpath : rtc pool_step (p, ts) (p1, Permitted :: ts)) by exact (rtc_once _ _ (ps_permit p p1 ts Ep)).
  set (pools1 := kv_insert pools name p1).
  assert (Hm1 : pool_moved name pools pools1 p1) by apply pool_moved_insert.
  assert (Hp1 : kv_get pools1 name = Some p1) by (by rewrite Hm1, decide_True).
  wp_step. unfold reuse_idle, wp at 1. rewrite Hp1.
  destruct (pop_idle p1) as [[c|] p2] eqn:Epop.
  - pose proof (pool_moved_trans _ _ _ _ _ _ Hm1 (pool_moved_insert name pools1 p2)) as Hm2.
    destruct (is_healthy t c) eqn:Eh.
    + apply wp_ret. exists p2. split; [done|]. eapply rtc_r; [exact Hpath|].
      by apply (ps_reuse t c p1 p2 [] ts).
    + eapply (Hdial true); [done|]. eapply rtc_r; [exact Hpath|].
      by apply (ps_discard t c p1 p2 [] ts).
  - assert (p2 = p1) as -> by (unfold pop_idle in Epop; destruct (pl_idle p1); by simplify_eq).
    eapply (Hdial true); [done|]. eapply rtc_r; [exact Hpath|]. by apply (ps_none p1 [] ts).
Qed.

(** A pooled client belongs to the pool it was taken from, or to none. *)
Lemma wp_acquire_names name lim pools t :
  wp (acquire name lim) (fun r _ _ => match r with
      | Ok c => pc_pool c = Some name /\ pc_permit c = Some name
                \/ pc_pool c = None /\ pc_permit c = None
      | Err _ => True
      end) pools t.
Proof.
  unfold acquire. wp_step. unfold wp at 1.
  destruct (acquire_permit name pools t) as [[[permit|] pools1] t1]; [|done].
  wp_step. unfold wp at 1.
  destruct ((if permit then reuse_idle name else ret None) pools1 t1) as [[[[c|]|] pools2] t2] eqn:E;
    [apply wp_ret; by left| |done].
  wp_step. wp_step. unfold wp at 1. destruct (connect name lim pools2 t2) as [[[c|] pools3] t3].
  - apply wp_ret. destruct permit; [by left|by right].
  - unfold wp, bind. destruct permit; [unfold on_pool; by destruct (kv_get pools3 name)|done].
Qed.

(** Dropping a client, possibly invalidated or found broken since, is a path
    too. *)
Lemma wp_drop_pooled {E} name (c c' : PooledClient) pools p ts t :
  kv_get pools name = Some p -> (pc_pool c = Some name /\ pc_permit c = Some name
                                 \/ pc_pool c = None /\ pc_permit c = None) ->
  pc_pool c' = pc_pool c -> pc_permit c' = pc_permit c ->
  cl_sender (pc_client c') = cl_sender (pc_client c) ->
  wp (drop_pooled (E := E) c')
    (fun r pools' _ => r = Ok tt /\ exists p', pool_moved name pools pools' p'
       /\ rtc pool_step (p, task_of c :: ts) (p', ts)) pools t.
Proof.
  intros Hp Hname Hpool Hpermit Hsender. unfold drop_pooled, task_of.
  rewrite Hpool, Hpermit. destruct Hname as [[-> ->]|[-> ->]].
  - wp_step. unfold on_pool at 1, wp at 1. rewrite Hp.
    set (p1 := release t (pc_client c') p). set (pools1 := kv_insert pools name p1).
    assert (Hm1 : pool_moved name pools pools1 p1) by apply pool_moved_insert.
    assert (Hp1 : kv_get pools1 name = Some p1) by (by rewrite Hm1, decide_True).
    unfold on_pool, wp. rewrite Hp1. split; [done|]. exists (drop_permit p1).
    split; [eapply pool_moved_trans; [exact Hm1|apply pool_moved_insert]|].
    eapply rtc_l; [by apply (ps_release t (pc_client c) (pc_client c') p [] ts)|].
    apply rtc_once. apply (ps_done p1 [] ts).
  - wp_step. unfold wp. split; [done|]. exists p. split; [by apply pool_moved_refl|].
    apply rtc_once. apply (ps_over_done (pc_client c) p [] ts).
Qed.
End Bounds.

(** ** Properties *)
Section Properties.
Context `{Env} `{HttpLib} {T : Type} `{SemaphoreLaws T}.
Context `{KvStore bytes (Pool T) K, !KvStoreLaws bytes (Pool T) K}.

(** Pools are bounded under every interleaving.  Whatever the order in which
    tasks get permits, look at the idle clients, dial, fail, release and drop
    permits, the idle clients and the clients in use under a permit together
    never exceed the pool size, and no permit is lost or invented. *)
Theorem pool_bounded endpoint size (p : Pool T) ts :
  rtc pool_step (pool_new endpoint size, []) (p, ts) ->
  List.length (pl_idle p) + total committed ts <= size
  /\ sem_available (pl_capacity p) + total has_permit ts = size.
Proof.
  intros Hr. destruct (pool_inv_reachable size _ _ (pool_inv_new endpoint size) Hr). by split.
Qed.

(** C30: the code refines that interleaving: [Pool::acquire] followed by any use
    of the client (which may mark it unhealthy) and the drop of the pooled client
    is a path of the atomic steps on that pool that gives back everything it
    took, and touches no other pool; when [acquire] fails it has given back its
    permit already. *)
Theorem acquire_drop_refines name lim (pools : K) (p : Pool T) ts t c' :
  kv_get pools name = Some p ->
  let '(r, pools1, t1) := acquire name lim pools t in
  exists p1, pool_moved name pools pools1 p1
  /\ match r with
     | Err _ => rtc pool_step (p, ts) (p1, ts)
     | Ok c =>
         rtc pool_step (p, ts) (p1, task_of c :: ts)
         /\ (pc_pool c' = pc_pool c -> pc_permit c' = pc_permit c ->
             cl_sender (pc_client c') = cl_sender (pc_client c) -> forall t2,
             let '(_, pools2, _) := drop_pooled (E := ProxyError) c' pools1 t2 in
             exists p2, pool_moved name pools pools2 p2 /\ rtc pool_step (p, ts) (p2, ts))
     end.
Proof.
  intros Hp. pose proof (wp_acquire name lim pools p ts t Hp) as W.
  pose proof (wp_acquire_names name lim pools t) as W2.
  unfold wp in W, W2. destruct (acquire name lim pools t) as [[r pools1] t1].
  destruct W as (p1 & Hm & Hpath). exists p1. split; [done|]. destruct r as [c|e]; [|done].
  split; [done|]. intros H1' H2' H3' t2.
  assert (Hp1 : kv_get pools1 name = Some p1) by (by rewrite Hm, decide_True).
  pose proof (wp_drop_pooled (E := ProxyError) name c c' pools1 p1 ts t2 Hp1 W2 H1' H2' H3') as W3.
  unfold wp in W3. destruct (drop_pooled c' pools1 t2) as [[r2 pools2] t3].
  destruct W3 as (_ & p2 & Hm2 & Hpath2). exists p2.
  split; [by eapply pool_moved_trans|]. by etrans.
Qed.

(** A backend connection serves one request at a time.  Under every
    interleaving of the tasks of a pool, as long as the kernel gives no open
    descriptor to a new socket: no two tasks use the same connection, with or
    without a permit, and a connection in use is not idle in the pool; so two
    requests never write to, or read a reply from, the same backend
    connection. *)
Theorem pool_exclusive endpoint size (p : Pool T) ts :
  rtc fresh_step (pool_new endpoint size, []) (p, ts) ->
  (forall i j x y s, ts !! i = Some x -> ts !! j = Some y ->
     s ∈ socket_of x -> s ∈ socket_of y -> i = j)
  /\ forall x s, x ∈ ts -> s ∈ socket_of x -> s ∉ map cl_sender (pl_idle p).
Proof.
  intros Hr. pose proof (sockets_distinct _ _ Hr ltac:(constructor)) as Hd.
  unfold sockets in Hd. cbn in Hd. apply NoDup_app in Hd as (_ & Hdis & Hd). split.
  - intros i j x y s Hi Hj Hx Hy.
    eapply (NoDup_concat_lookup (map socket_of ts)); [done|by rewrite list_lookup_fmap, Hi
      |by rewrite list_lookup_fmap, Hj|done|done].
  - intros x s [i Hi]%list_elem_of_lookup_1 Hs Hidle. apply (Hdis s Hidle).
    eapply (elem_of_concat_lookup (map socket_of ts)); [by rewrite list_lookup_fmap, Hi|done].
Qed.

(** The semaphore does not cap the number of live connections: when the
    permits are taken, tasks that waited [pool_timeout] go on and dial without
    one, so any number of further connections can be live at once. *)
Theorem overflow_unbounded (c : Client) (p : Pool T) n :
  try_permit p = None ->
  exists ts, rtc pool_step (p, []) (p, ts)
  /\ List.length ts = n /\ Forall (fun x => x = OverflowUsing c) ts.
Proof.
  intros Hp. exists (replicate n (OverflowUsing c)). split; [by apply overflow_path|].
  split; [apply length_replicate|]. by apply Forall_replicate.
Qed.
End Properties.

(** ** Witnesses *)

(** A network where every dialling succeeds. *)
Definition http_example_env : Env :=
  scripted_env (fun _ => Elapsed) (fun t _ _ => Done (Ok (Z.of_nat (List.length t))))
    (fun _ _ _ => Done (Ok [])) (fun _ _ => Ok []) (fun _ => true).

Definition http_example_lib : HttpLib := {|
  header_name name := if bool_decide (name = []) then None else Some (bytes_lower name);
  header_value_ok _ := true;
  header_to_str v := Some v;
  status_ok n := (100 <=? n)%Z && (n <? 1000)%Z;
  request_builds _ := Ok tt;
  response_build_error := B "invalid header";
  capacity_ok n := (n <? 2 ^ 63)%Z;
  debug_duration d := print_dec d ++ B "ns";
  elapsed_text := B "deadline has elapsed" |}.

#[local] Existing Instances http_example_env http_example_lib.

Definition pool_example : Pool nat := pool_new (B "backend:80") 1.

Lemma pool_bounded_witness :
  let st := (mkPool (B "backend:80") 0 [], [Dialling]) in
  List.length (pl_idle st.1) + total committed st.2 <= 1
  /\ sem_available (pl_capacity st.1) + total has_permit st.2 = 1.
Proof.
  apply (pool_bounded (B "backend:80") 1).
  apply (rtc_l _ _ (mkPool (B "backend:80") 0 [], [Permitted])).
  - exact (ps_permit pool_example _ [] eq_refl).
  - apply rtc_once. exact (ps_none (mkPool (B "backend:80") 0 []) [] [] eq_refl).
Defined.

(** A client under a permit on descriptor 3, one without on 4. *)
Definition two_in_use : Pool nat * list task :=
  (mkPool (B "backend:80") 0 [], [OverflowUsing (mkClient 4 true); Using (mkClient 3 true)]).

Lemma quiet_step (st st' : Pool nat * list task) :
  pool_step st st' -> List.length (sockets st') <> S (List.length (sockets st)) -> fresh_step st st'.
Proof. intros Hs Hl. split; [done|]. intros s Hp. by apply Permutation_length in Hp. Qed.

Lemma two_in_use_reachable : rtc fresh_step (pool_example, []) two_in_use.
Proof.
  eapply rtc_l; [by apply quiet_step; [apply (ps_permit pool_example (mkPool (B "backend:80") 0 []) [])|]|].
  eapply rtc_l; [by apply quiet_step; [apply (ps_none _ [] [])|]|].
  eapply rtc_l.
  { split; [apply (ps_dialled (mkClient 3 true) _ [] [])|]. intros s _. apply not_elem_of_nil. }
  eapply rtc_l; [by apply quiet_step; [apply ps_timeout|]|].
  apply rtc_once. split; [apply (ps_over_dialled (mkClient 4 true) _ [] [_])|].
  intros s Hp Hs. apply list_elem_of_singleton in Hs as ->.
  assert (H4 : 4%Z ∈ [4; 3]%Z) by (left). rewrite Hp in H4. set_solver.
Qed.

Lemma pool_exclusive_witness :
  two_in_use.2 !! 1%nat = Some (Using (mkClient 3 true)) /\ 3%Z ∉ map cl_sender (pl_idle two_in_use.1).
Proof.
  split; [reflexivity|].
  refine (proj2 (pool_exclusive (B "backend:80") 1 two_in_use.1 two_in_use.2 two_in_use_reachable)
            (Using (mkClient 3 true)) 3%Z _ _).
  - right. left.
  - left.
Defined.

Definition pools_example : gmap bytes (Pool nat) := {[ B "backend:80" := pool_example ]}.

Lemma acquire_drop_refines_witness :
  let run := acquire (B "backend:80") 5 pools_example [] in
  run.1.1 = Ok (mkPooledClient (Some (B "backend:80")) (Some (B "backend:80")) (mkClient 0 true))
  /\ exists p1, rtc pool_step (pool_example, []) (p1, [Using (mkClient 0 true)]).
Proof.
  assert (Hr : (acquire (B "backend:80") 5 pools_example []).1.1
    = Ok (mkPooledClient (Some (B "backend:80")) (Some (B "backend:80")) (mkClient 0 true)))
    by (vm_compute; reflexivity).
  assert (Hp : kv_get pools_example (B "backend:80") = Some pool_example)
    by (vm_compute; reflexivity).
  pose proof (acquire_drop_refines (B "backend:80") 5 pools_example pool_example [] []
                (mkPooledClient (Some (B "backend:80")) (Some (B "backend:80")) (mkClient 0 false))
                Hp) as W.
  split; [exact Hr|]. destruct (acquire _ _ _ _) as [[r pools1] t1]. cbn in Hr. subst r.
  destruct W as (p1 & _ & Hpath & _). exists p1. exact Hpath.
Defined.

Lemma overflow_unbounded_witness :
  exists ts, rtc pool_step (mkPool (B "backend:80") 0 [], []) (mkPool (B "backend:80") 0 [], ts)
  /\ List.length ts = 1000 /\ Forall (fun x => x = OverflowUsing (mkClient 7 true)) ts.
Proof.
  exact (overflow_unbounded (mkClient 7 true) (mkPool (B "backend:80") 0 []) 1000 eq_refl).
Defined.
