(* ===== verification/HttpHandler.v ===== *)
(** * HttpHandler: answering one HTTP request
    ([src/server/http/handler.rs]). *)

From Stdlib Require Import Ascii.
From S2P Require Import Prelude Text Net Protocol Resolver World Stores Dns Adapter TcpAdapter.
From S2P Require Import TcpConfig HttpHost HttpPool.
Open Scope Z_scope.

(** ** Configuration: the fields the handler reads *)

(** A user's request handler: an oracle, like a resolver. *)
Definition RequestHandler : Type := trace -> http_request -> result bytes http_response.

Record HandlerConfig : Type := mkHandlerConfig {
  hc_request_handler : option RequestHandler;
  hc_direct_response : option bytes;
  hc_direct_response_status : Z;
  hc_fixed_backend : option bytes;
  hc_raw_backend : bool;
  hc_raw_backend_assume_ok : bool;
  hc_fast_path_assume_ok : bool;
  hc_timeout : Z;
  hc_connect_timeout : Z;
  hc_pool_size : nat }.

(** How a request may end without a response: a panic of the task, a loop that
    used up its fuel, or an error. *)
Inductive stop : Type :=
| StopPanic
| StopRunning
| StopError (e : ProxyError).

(** ** Pure helpers *)

Definition GET : bytes := B "GET".
Definition HEAD : bytes := B "HEAD".
Definition HOST : bytes := B "host".
Definition CONNECTION : bytes := B "connection".
Definition HEADER_END : bytes := CRLF ++ CRLF.

(** [HeaderMap::get]: the first value. *)
Definition get_header (name : bytes) (hs : headers) : option bytes :=
  match List.find (fun h => bool_decide (fst h = name)) hs with
  | Some (_, v) => Some v
  | None => None
  end.

(** [is_hop_by_hop]. *)
Definition hop_by_hop_names : list bytes :=
  [B "connection"; B "keep-alive"; B "transfer-encoding"; B "te"; B "trailer"; B "upgrade";
   B "proxy-authorization"; B "proxy-authenticate"].
Definition is_hop_by_hop (name : bytes) : bool :=
  bool_decide (name ∈ hop_by_hop_names) || bool_decide (name = B "content-length")
  || bool_decide (name = B "transfer-encoding").

(** [find_subslice]. *)
Fixpoint find_subslice (haystack needle : bytes) : option nat :=
  if starts_with haystack needle then Some 0%nat
  else match haystack with
       | [] => None
       | _ :: rest => match find_subslice rest needle with Some n => Some (S n) | None => None end
       end.

(** [str::split("\r\n")]. *)
Fixpoint split_crlf (s : bytes) : list bytes :=
  match s with
  | [] => [[]]
  | c :: s' =>
      match s' with
      | d :: rest =>
          if bool_decide (c = CR) && bool_decide (d = LF) then [] :: split_crlf rest
          else match split_crlf s' with
               | p :: ps => (c :: p) :: ps
               | [] => [[c]]
               end
      | [] => [[c]]
      end
  end.

(** [parse_status_line]. *)
Definition parse_status_line (line : bytes) : option Z :=
  match from_utf8 line with
  | Some cs => match first_two_words cs with
               | Some (_, Some code_word) => parse_u16 (utf8_bytes code_word)
               | _ => None
               end
  | None => None
  end.

(** A JSON string without escapes. *)
Definition quoted (s : bytes) : bytes := chr 34 :: s ++ [chr 34].

(** [text_response] and [service_unavailable]. *)
Definition text_response (status : Z) (body : bytes) : http_response :=
  mkHttpResponse status [] body.
Definition service_unavailable : http_response :=
  mkHttpResponse 503 [(B "content-type", B "application/json")]
    (B "{" ++ quoted (B "error") ++ B ":" ++ quoted (B "Service Unavailable") ++ B ","
     ++ quoted (B "message") ++ B ":"
     ++ quoted (B "The requested service is temporarily unavailable") ++ B "}").

(** The Host header of a forwarded request. *)
Definition host_value (host : bytes) (port : Z) : bytes :=
  if port =? 80 then host else host_port host port.

(** [path_and_query], or the root. *)
Definition request_path (rq : http_request) : bytes :=
  unwrap_or (B "/") (rq_path_and_query rq).

(** The request sent to a pooled backend. *)
Definition outbound_request (rq : http_request) (host : bytes) (port : Z) : http_request :=
  mkHttpRequest (rq_method rq) (Some (request_path rq))
    (List.filter (fun h => negb (bool_decide (fst h = HOST) || bool_decide (fst h = CONNECTION)))
       (rq_headers rq)
     ++ [(HOST, host_value host port)]).

(** The headers relayed to the client. *)
Definition relayed_headers (hs : headers) : headers :=
  List.filter (fun h => negb (is_hop_by_hop (fst h))) hs.

Definition is_get_or_head (rq : http_request) : bool :=
  bool_decide (rq_method rq = GET) || bool_decide (rq_method rq = HEAD).

(** The text sent to a raw backend. *)
Definition raw_request_text (rq : http_request) (host : bytes) (port : Z) : bytes :=
  rq_method rq ++ B " " ++ request_path rq ++ B " HTTP/1.1" ++ CRLF
  ++ B "Host: " ++ host_value host port ++ CRLF
  ++ B "Connection: keep-alive" ++ CRLF ++ CRLF.

Section Handler.
Context `{Env} `{HttpLib} {CD CR T K : Type} `{TtlCache bytes IpAddr CD} `{TtlCache bytes CacheEntry CR}.
Context `{Semaphore T} `{KvStore bytes (Pool T) K}.

(** [extract_host]. *)
Definition extract_host (rq : http_request) : result http_response bytes :=
  match match get_header HOST (rq_headers rq) with
        | Some v => header_to_str v
        | None => None
        end with
  | Some (c :: value) =>
      if is_valid_hostname (c :: value) then Ok (c :: value)
      else Err (text_response 400 (B "Invalid Host header"))
  | _ => Err (text_response 400 (B "Missing Host header"))
  end.

(** [resolver_error_response]. *)
Definition resolver_error_response (e : ResolverError) : http_response :=
  text_response (if status_ok (error_code e) then error_code e else 503)
    (display_resolver_error e).

(** What a worker's handler works on. *)
Record HttpState : Type := mkHttpState {
  hs_routing : Routing CD CR;
  hs_pools : K }.
Definition hs_set_routing (r : Routing CD CR) (s : HttpState) : HttpState := mkHttpState r (hs_pools s).
Definition hs_set_pools (k : K) (s : HttpState) : HttpState := mkHttpState (hs_routing s) k.

(** ** The pooled forwarder *)

(** The exchange with a pooled client; the flag of an error: the client was
    invalidated. *)
Definition exchange (cfg : HandlerConfig) (client : sock) (rq : http_request) (host : bytes) (port : Z)
  : M HttpState (ProxyError * bool) http_response :=
  body <- (if is_get_or_head rq then ret []
           else
             r <- io_http_request_body ;;
             match r with
             | Done (Ok b) => ret b
             | Done (Err e) =>
                 fail (POther (B "failed to read request body: " ++ io_message e), false)
             | Elapsed =>
                 fail (POther (B "reading request body timed out after "
                               ++ debug_duration (hc_timeout cfg)), false)
             end) ;;
  let outbound := outbound_request rq host port in
  lift (map_err (fun e => (POther (B "build outbound request: " ++ e), false))
          (request_builds outbound)) ;;
  r <- io_http_send client outbound body ;;
  ' (status, hs) <- match r with
                    | Done (Ok reply) => ret reply
                    | Done (Err e) => fail (PBackendConnect (io_message e), true)
                    | Elapsed => fail (POther (B "backend request timed out after "
                                               ++ debug_duration (hc_timeout cfg)), true)
                    end ;;
  r <- io_http_response_body client ;;
  reply <- match r with
           | Done (Ok b) => ret b
           | Done (Err e) => fail (POther (B "reading backend body failed: " ++ io_message e), true)
           | Elapsed => fail (POther (B "reading backend body timed out after "
                                      ++ debug_duration (hc_timeout cfg)), true)
           end ;;
  ret (mkHttpResponse (if hc_fast_path_assume_ok cfg then 200 else status) (relayed_headers hs) reply).

(** [forward_request]. *)
Definition forward_request (cfg : HandlerConfig) (rq : http_request) (endpoint : bytes)
  : M HttpState ProxyError http_response :=
  let '(host, port) := parse_endpoint endpoint 80 in
  let authority := host_port host port in
  name <- zoom hs_pools hs_set_pools (get_or_create authority (hc_pool_size cfg)) ;;
  pooled <- zoom hs_pools hs_set_pools (acquire name (hc_connect_timeout cfg)) ;;
  r <- attempt (exchange cfg (cl_sender (pc_client pooled)) rq host port) ;;
  match r with
  | Ok response =>
      zoom hs_pools hs_set_pools (drop_pooled pooled) ;;
      ret response
  | Err (e, invalidated) =>
      zoom hs_pools hs_set_pools (drop_pooled (if invalidated : bool then invalidate pooled else pooled)) ;;
      fail e
  end.

(** ** The raw forwarder *)

(** Runs [m], which owns a stream, and closes the stream when it is over. *)
Definition closing {S A} (s : sock) (m : M S stop A) : M S stop A :=
  fun st t =>
    match m st t with
    | (Err StopRunning, st', t') => (Err StopRunning, st', t')
    | (r, st', t') => (r, st', EvClose s :: t')
    end.

Definition stop_with {S A} (message : bytes) : M S stop A := fail (StopError (POther message)).

(** One timed read of at most [max] bytes that must not be empty. *)
Definition read_more {S} (stream : sock) (max : nat) (on_eof : bytes) : M S stop bytes :=
  r <- io_read stream max ;;
  match r with
  | Done (Ok []) => stop_with on_eof
  | Done (Ok data) => ret data
  | Done (Err e) => stop_with (B "read failed: " ++ io_message e)
  | Elapsed => stop_with (B "read timed out")
  end.

(** The loop that reads up to the end of the headers: their length (with the
    blank line) and everything read. *)
Fixpoint read_head {S} (fuel : nat) (stream : sock) (buffer : bytes) : M S stop (nat * bytes) :=
  match find_subslice buffer HEADER_END with
  | Some position => ret (position + 4, buffer)%nat
  | None =>
      match fuel with
      | O => fail StopRunning
      | Datatypes.S fuel' =>
          data <- read_more stream 8192 (B "backend closed before headers") ;;
          read_head fuel' stream (buffer ++ data)
      end
  end.

(** What the header lines of a raw reply say: the relayed headers (an error when
    one is not a header), the content length, whether chunked. *)
Record raw_head : Type := mkRawHead {
  rh_headers : headers;
  rh_bad : bool;
  rh_content_length : option Z;
  rh_chunked : bool }.

Definition raw_skipped : list bytes :=
  [B "connection"; B "keep-alive"; B "transfer-encoding"; B "content-length"].

(** The body of the loop over the header lines. *)
Definition raw_header_line (h : raw_head) (line : bytes) : raw_head :=
  match split_once colon line with
  | None => h
  | Some (key, value) =>
      let key_trimmed := trim_str key in
      let value_trimmed := trim_str value in
      let lower := bytes_lower key_trimmed in
      let length := if bool_decide (lower = B "content-length") then parse_usize value_trimmed
                    else rh_content_length h in
      let chunked :=
        rh_chunked h
        || (negb (bool_decide (lower = B "content-length"))
            && bool_decide (lower = B "transfer-encoding")
            && eq_ignore_ascii_case value_trimmed (B "chunked")) in
      if bool_decide (lower ∈ raw_skipped) then mkRawHead (rh_headers h) (rh_bad h) length chunked
      else
        match header_name key_trimmed with
        | Some name =>
            if header_value_ok value_trimmed
            then mkRawHead (rh_headers h ++ [(name, value_trimmed)]) (rh_bad h) length chunked
            else mkRawHead (rh_headers h) true length chunked
        | None => mkRawHead (rh_headers h) true length chunked
        end
  end.

(** The loop that completes the body; [total] bytes are enough rounds. *)
Fixpoint read_body {S} (fuel : nat) (stream : sock) (total : nat) (body : bytes) : M S stop bytes :=
  if bool_decide (List.length body < total)%nat then
    match fuel with
    | O => fail StopRunning
    | Datatypes.S fuel' =>
        data <- read_more stream (Nat.min (total - List.length body) 8192)
                  (B "backend closed mid-body") ;;
        read_body fuel' stream total (body ++ data)
    end
  else ret body.

(** [response_builder.body(..)]. *)
Definition build_response {S} (status : Z) (h : raw_head) (body : bytes) : M S stop http_response :=
  if rh_bad h then stop_with (B "build response: " ++ response_build_error)
  else ret (mkHttpResponse status (rh_headers h) body).

(** The conversation with a raw backend, once connected. *)
Definition raw_exchange {S} (fuel : nat) (cfg : HandlerConfig) (rq : http_request)
    (host : bytes) (port : Z) (stream : sock) : M S stop http_response :=
  r <- io_nodelay stream ;;
  lift (map_err (fun e => StopError (PBackendConnect (io_message e))) r) ;;
  r <- io_write stream (raw_request_text rq host port) ;;
  match r with
  | Elapsed => stop_with (B "write request timed out: " ++ elapsed_text)
  | Done _ =>
      ' (header_end, buffer) <- read_head fuel stream [] ;;
      let header_bytes := take (header_end - 4) buffer in
      let rest := drop header_end buffer in
      match from_utf8 header_bytes with
      | None => stop_with (B "non-utf8 header")
      | Some _ =>
          match split_crlf header_bytes with
          | [] => stop_with (B "missing status line")
          | status_line :: lines =>
              let status_code := unwrap_or 200 (parse_status_line status_line) in
              let status := if hc_raw_backend_assume_ok cfg then 200
                            else if status_ok status_code then status_code else 200 in
              let h := fold_left raw_header_line lines (mkRawHead [] false None false) in
              match rh_content_length h with
              | Some total =>
                  if rh_chunked h then build_response status h rest
                  else if negb (capacity_ok total) then fail StopPanic
                  else
                    body <- read_body (Z.to_nat total) stream (Z.to_nat total) rest ;;
                    build_response status h body
              | None => build_response status h rest
              end
          end
      end
  end.

(** [forward_raw_request]. *)
Definition forward_raw_request (fuel : nat) (cfg : HandlerConfig) (rq : http_request) (endpoint : bytes)
  : M HttpState stop http_response :=
  if negb (is_get_or_head rq) then with_err StopError (forward_request cfg rq endpoint)
  else
    let '(host, port) := parse_endpoint endpoint 80 in
    let authority := host_port host port in
    match split_authority authority with
    | Err e => fail (StopError (PBackendConnect (io_message e)))
    | Ok (dial_host, dial_port) =>
        r <- io_connect dial_host dial_port (hc_connect_timeout cfg) ;;
        match r with
        | Elapsed => fail (StopError (PBackendConnect (B "connect to " ++ authority ++ B " timed out")))
        | Done (Err e) => fail (StopError (PBackendConnect (io_message e)))
        | Done (Ok stream) => closing stream (raw_exchange fuel cfg rq host port stream)
        end
    end.

(** ** [Handler::handle] *)

(** The endpoint to forward to, or the response that refuses the request. *)
Definition choose_endpoint (cfg : HandlerConfig) (rq : http_request)
  : M HttpState stop (result http_response bytes) :=
  match hc_fixed_backend cfg with
  | Some endpoint => ret (Ok endpoint)
  | None =>
      match extract_host rq with
      | Err response => ret (Err response)
      | Ok host =>
          r <- attempt (zoom hs_routing hs_set_routing (route host)) ;;
          match r with
          | Ok cr => ret (Ok (cr_endpoint cr))
          | Err e => ret (Err (resolver_error_response e))
          end
      end
  end.

Definition handle (fuel : nat) (cfg : HandlerConfig) (rq : http_request) : M HttpState stop http_response :=
  match hc_request_handler cfg with
  | Some handler =>
      fun s t => match handler t rq with
                 | Ok response => (Ok response, s, t)
                 | Err _ => (Ok (text_response 500 (B "Internal Server Error")), s, t)
                 end
  | None =>
      match hc_direct_response cfg with
      | Some body =>
          ret (text_response (if status_ok (hc_direct_response_status cfg)
                              then hc_direct_response_status cfg else 200) body)
      | None =>
          chosen <- choose_endpoint cfg rq ;;
          match chosen with
          | Err response => ret response
          | Ok endpoint =>
              r <- attempt (if hc_raw_backend cfg then forward_raw_request fuel cfg rq endpoint
                            else with_err StopError (forward_request cfg rq endpoint)) ;;
              match r with
              | Ok response => ret response
              | Err (StopError _) => ret service_unavailable
              | Err other => fail other
              end
          end
      end
  end.
End Handler.
Arguments HttpState CD CR K : clear implicits.
