(* ===== verification/HttpGuarantees.v ===== *)
(** * HttpGuarantees: the properties of the HTTP proxy. *)

From Stdlib Require Import Ascii.
From S2P Require Import Prelude Text Net Protocol Resolver World Stores Dns Adapter Ssrf Routing.
From S2P Require Import TcpAdapter TcpConfig HttpHost HttpPool HttpPoolBounds HttpHandler.
Open Scope Z_scope.

(** ** Authorities *)

Lemma rsplit_once_app c a b : c ∉ b -> rsplit_once c (a ++ c :: b) = Some (a, b).
Proof.
  intros Hb. induction a as [|d a IH]; cbn.
  - pose proof (rsplit_once_spec c b) as Hs.
    destruct (rsplit_once c b) as [[x y]|]; [destruct Hs as [-> _]; set_solver|].
    by rewrite bool_decide_eq_true_2.
  - by rewrite IH.
Qed.

Lemma print_dec_no_sep n c : 0 <= n -> is_radix_digit c = false -> c ∉ print_dec n.
Proof. intros Hn Hc. eapply radix_digits_no_sep; [by apply print_dec_class|done]. Qed.

(** A host that begins with a digit of an address, or is empty, opens no
    bracket. *)
Lemma no_bracket h rest :
  Forall (fun c => is_radix_digit c = true) h -> read_socket_addr_v6 (h ++ colon :: rest) = None.
Proof.
  intros Hh. unfold read_socket_addr_v6. destruct h as [|c h]; [done|].
  apply Forall_cons in Hh as [Hc _]. cbn. by case_bool_decide; [subst|].
Qed.

Lemma read_given_char_suffix c s s' : read_given_char c s = Some s' -> s = c :: s'.
Proof. destruct s as [|d s]; cbn; [done|]. case_bool_decide; [|done]. by intros [= ->]; subst. Qed.

(** What [split_authority] makes of a host that is no literal. *)
Lemma split_authority_name host port h p :
  dot ∉ host -> Forall (fun c => is_radix_digit c = true) host -> 0 <= port ->
  split_authority (host_port host port) = Ok (h, p) -> h = host.
Proof.
  intros Hdot Hh Hport. unfold split_authority, parse_socket_addr, parse_with, host_port.
  assert (Hd : dot ∉ host ++ colon :: print_dec port).
  { rewrite not_elem_of_app, not_elem_of_cons. split; [done|]. split; [done|].
    by apply print_dec_no_sep. }
  unfold read_socket_addr_v4. rewrite read_ipv4_no_dot by done. rewrite no_bracket by done.
  rewrite rsplit_once_app by by apply print_dec_no_sep.
  destruct (parse_u16 _); [|done]. by intros [= <- _].
Qed.

(** ... and of an IPv4 literal: the same literal. *)
Lemma split_authority_ipv4 ip port h p :
  0 <= port -> split_authority (host_port (display_ipv4 ip) port) = Ok (h, p) ->
  parse_ipaddr h = Some (V4 ip).
Proof.
  intros Hport. unfold split_authority, parse_socket_addr, parse_with, host_port, read_socket_addr_v4.
  rewrite read_ipv4_display by done. destruct (read_port _) as [[q [|c rest]]|] eqn:Er.
  - intros [= <- _]. apply parse_display_ipv4.
  - rewrite rsplit_once_app by by apply print_dec_no_sep.
    destruct (parse_u16 _); [|done]. intros [= <- _]. apply parse_display_ipv4.
  - destruct (read_socket_addr_v6 _) as [[[a q] [|c rest]]|] eqn:E6.
    1: { exfalso. revert E6. unfold read_socket_addr_v6.
         destruct (read_given_char _ _) as [s1|] eqn:Eg; [|done].
         apply read_given_char_suffix in Eg. unfold display_ipv4 in Eg.
         pose proof (print_dec_nonempty (code (o0 ip))) as Hne.
         pose proof (print_dec_class (code (o0 ip))) as Hc. pose proof (code_range (o0 ip)).
         destruct (print_dec (code (o0 ip))) as [|d ds]; [done|]. cbn in Eg. injection Eg as -> _.
         specialize (Hc ltac:(lia)). inversion Hc; subst. done. }
    all: rewrite rsplit_once_app by (by apply print_dec_no_sep);
      destruct (parse_u16 _); [|done]; intros [= <- _]; apply parse_display_ipv4.
Qed.

Lemma parse_endpoint_port_nonneg out default_port :
  0 <= default_port -> 0 <= snd (parse_endpoint out default_port).
Proof.
  intros Hd. unfold parse_endpoint. destruct (split_once colon out) as [[h p]|]; [|done].
  destruct p; [done|]. destruct (parse_u16 _) as [n|] eqn:E; [|done].
  apply parse_uint_range in E; [cbn; lia|done].
Qed.

(** Dialling the authority of a vetted endpoint is safe. *)
Lemma vetted_authority_safe out host port h p :
  is_vetted out -> parse_endpoint out 80 = (host, port) ->
  split_authority (host_port host port) = Ok (h, p) ->
  forall ip, parse_ipaddr h = Some ip -> is_blocked_ip ip = false.
Proof.
  intros ([v4|v6] & q & Hv) Hpe Hs ip Hip.
  - pose proof (parse_endpoint_port_nonneg out 80 ltac:(lia)) as Hport. rewrite Hpe in Hport.
    rewrite (parse_endpoint_vetted_v4 _ _ _ 80 Hv) in Hpe. injection Hpe as <- <-.
    apply split_authority_ipv4 in Hs; [|done]. rewrite Hs in Hip. injection Hip as <-. apply Hv.
  - destruct Hv as (-> & _ & _). revert Hpe. unfold endpoint_text, display_ip.
    destruct (display_ipv6_prefix v6) as (hx & u & Ed & Hh).
    assert (Hcol : colon ∉ hx) by by eapply radix_digits_no_sep.
    assert (Hdot : dot ∉ hx) by by eapply radix_digits_no_sep.
    intros Hpe. pose proof (parse_endpoint_port_nonneg
      (match q with Some p => display_ipv6 v6 ++ colon :: print_dec p | None => display_ipv6 v6 end)
      80 ltac:(lia)) as Hport.
    rewrite Hpe in Hport.
    assert (host = hx) as ->.
    { revert Hpe. rewrite Ed. unfold parse_endpoint.
      destruct q; rewrite <- ?app_assoc; cbn [app]; rewrite split_once_app by done.
      - destruct (u ++ _); by intros [= -> _].
      - destruct u; by intros [= -> _]. }
    apply split_authority_name in Hs; [|done..]. subst h.
    by rewrite parse_ipaddr_no_sep in Hip.
Qed.

(** ** What the handler does *)
Section Effects.
Context `{Env} `{HttpLib} {CD CR T K : Type}
  `{TtlCacheLaws bytes IpAddr CD} `{TtlCacheLaws bytes CacheEntry CR}
  `{SemaphoreLaws T} `{KvStore bytes (Pool T) K, !KvStoreLaws bytes (Pool T) K}.
Implicit Types (s : HttpState CD CR K) (t : trace).

Lemma inert_exchange cfg client rq host port :
  inert no_dial (exchange (CD := CD) (CR := CR) (K := K) cfg client rq host port).
Proof. unfold exchange. inert_steps; done. Qed.

Lemma inert_read_more {S} stream max eof : inert no_dial (read_more (S := S) stream max eof).
Proof. unfold read_more, stop_with. inert_steps; done. Qed.
#[local] Hint Resolve inert_read_more : proxy.
Lemma inert_read_head {S} fuel stream buffer :
  inert no_dial (read_head (S := S) fuel stream buffer).
Proof.
  revert buffer. induction fuel as [|fuel IH]; intros buffer; cbn [read_head];
    destruct (find_subslice _ _); inert_steps; apply IH.
Qed.
Lemma inert_read_body {S} fuel stream total body :
  inert no_dial (read_body (S := S) fuel stream total body).
Proof.
  revert body. induction fuel as [|fuel IH]; intros body; cbn [read_body];
    case_bool_decide; inert_steps; apply IH.
Qed.
#[local] Hint Resolve inert_read_head inert_read_body : proxy.
Lemma inert_raw_exchange {S} fuel cfg rq host port stream :
  inert no_dial (raw_exchange (S := S) fuel cfg rq host port stream).
Proof. unfold raw_exchange, build_response, stop_with. inert_steps; done. Qed.

(** A program whose dialling is limited to the authority of an endpoint. *)
Definition dials_authority (authority : bytes) (ev : event) : Prop :=
  match ev with
  | EvConnect h p _ => split_authority authority = Ok (h, p)
  | EvHttpRequest _ _ | EvHttpReply _ _ => False
  | _ => True
  end.
Lemma no_dial_authority a ev : no_dial ev -> dials_authority a ev.
Proof. by destruct ev. Qed.

Lemma emits_connect {S} name lim : emits (dials_authority name) (connect (S := S) name lim).
Proof.
  unfold connect. destruct (split_authority name) as [[h p]|e] eqn:E; [|apply emits_fail].
  emits_steps; cbn; done.
Qed.

Lemma emits_on_pool {E} P name f : emits P (on_pool (T := T) (K := K) (E := E) name f).
Proof. intros k t. unfold on_pool. by destruct (kv_get k name). Qed.

Lemma emits_acquire name lim :
  emits (dials_authority name) (acquire (T := T) (K := K) name lim).
Proof.
  unfold acquire. emits_steps; try done; try apply emits_connect; try apply emits_on_pool.
  - intros k t. unfold acquire_permit. destruct (kv_get k name) as [p|]; [|done].
    by destruct (try_permit p).
  - intros k t. unfold reuse_idle. destruct (kv_get k name) as [p|]; [|done].
    destruct (pop_idle p) as [[c|] p']; [|done]. destruct (is_healthy t c); [done|].
    by apply extends_cons.
Qed.

Lemma emits_drop_pooled {E} a c :
  emits (dials_authority a) (drop_pooled (T := T) (K := K) (E := E) c).
Proof.
  unfold drop_pooled. apply emits_bind.
  - intros k t. destruct (pc_pool c) as [name|]; [|by apply extends_cons].
    unfold on_pool. destruct (kv_get k name); destruct (is_healthy t (pc_client c)); try done;
      by apply extends_cons.
  - intros []. destruct (pc_permit c); [apply emits_on_pool|apply emits_ret].
Qed.

Lemma emits_get_or_create {E A} P authority size (k : bytes -> M (HttpState CD CR K) E A) :
  emits P (k authority) ->
  emits P (name <- zoom hs_pools hs_set_pools (get_or_create (T := T) authority size) ;; k name).
Proof.
  intros Hk s t. unfold bind, zoom, get_or_create. destruct (kv_get _ _); apply Hk.
Qed.

(** Both forwarders dial the endpoint's authority only. *)
Lemma emits_forward_request cfg rq endpoint host port :
  parse_endpoint endpoint 80 = (host, port) ->
  emits (dials_authority (host_port host port))
    (forward_request (CD := CD) (CR := CR) (T := T) (K := K) cfg rq endpoint).
Proof.
  intros Ep. unfold forward_request. rewrite Ep. cbn zeta. apply emits_get_or_create.
  emits_steps; try apply emits_acquire; try apply emits_drop_pooled.
  eapply inert_emits, inert_exchange. apply no_dial_authority.
Qed.

Lemma emits_forward_raw_request fuel cfg rq endpoint host port :
  parse_endpoint endpoint 80 = (host, port) ->
  emits (dials_authority (host_port host port))
    (forward_raw_request (CD := CD) (CR := CR) (T := T) (K := K) fuel cfg rq endpoint).
Proof.
  intros Ep. unfold forward_raw_request. destruct (is_get_or_head rq).
  2: { apply emits_with_err. by apply emits_forward_request. }
  cbn [negb]. rewrite Ep. cbn zeta.
  destruct (split_authority _) as [[h p]|e] eqn:Es; [|apply emits_fail].
  apply emits_bind; [by apply emits_io|]. intros [[stream|e]|]; try apply emits_fail.
  intros s t. unfold closing.
  destruct (inert_raw_exchange fuel cfg rq host port stream s t) as [_ He].
  destruct (raw_exchange _ _ _ _ _ _ s t) as [[r s'] t'].
  eapply extends_mono in He; [|apply (no_dial_authority (host_port host port))].
  destruct r as [?|[]]; [..|]; try done; (etrans; [exact He|by apply extends_cons]).
Qed.

(** Forwarding leaves the routing state alone. *)
Definition routing_is (r : Routing CD CR) s (_ : trace) : Prop := hs_routing s = r.

Lemma maintains_on_pools {E A} r (m : M K E A) :
  maintains (routing_is r) (zoom hs_pools hs_set_pools m).
Proof. intros s t Hs. apply wp_zoom. unfold wp. by destruct (m (hs_pools s) t) as [[? ?] ?]. Qed.
Lemma maintains_routing_inert {E A} r P (m : M (HttpState CD CR K) E A) :
  inert P m -> maintains (routing_is r) m.
Proof. intros Hm. by eapply maintains_inert. Qed.

Lemma maintains_forward_request r cfg rq endpoint :
  maintains (routing_is r) (forward_request (CD := CD) (CR := CR) (T := T) (K := K) cfg rq endpoint).
Proof.
  unfold forward_request. destruct (parse_endpoint endpoint 80) as [host port].
  repeat first [maintains_step|apply maintains_on_pools
               |apply (maintains_routing_inert _ no_dial);
                solve [apply inert_exchange|apply inert_ret|apply inert_fail]].
Qed.

Lemma maintains_closing {S A} (I : S -> trace -> Prop) stream (m : M S stop A) :
  (forall x t, I x t -> I x (EvClose stream :: t)) ->
  maintains I m -> maintains I (closing stream m).
Proof.
  intros HI Hm x t Hi. specialize (Hm x t Hi). unfold wp, closing in *.
  destruct (m x t) as [[r x'] t']. destruct r as [?|[]]; auto.
Qed.

Lemma maintains_forward_raw_request r fuel cfg rq endpoint :
  maintains (routing_is r)
    (forward_raw_request (CD := CD) (CR := CR) (T := T) (K := K) fuel cfg rq endpoint).
Proof.
  unfold forward_raw_request. destruct (is_get_or_head rq); cbn [negb].
  2: { apply maintains_with_err, maintains_forward_request. }
  destruct (parse_endpoint endpoint 80) as [host port].
  cbn zeta. destruct (split_authority _) as [[h p]|e];
    [|eapply maintains_routing_inert; apply (inert_fail no_dial)].
  apply maintains_bind; [eapply maintains_routing_inert; by apply (inert_io (fun _ => True))|].
  intros [[stream|e]|]; try (eapply maintains_routing_inert; apply (inert_fail no_dial)).
  apply maintains_closing; [done|]. eapply maintains_routing_inert, inert_raw_exchange.
Qed.

(** ** SSRF safety *)

Definition http_inv s t : Prop := dial_inv (hs_routing s) t.

(** A forwarder to a vetted endpoint keeps the invariant. *)
Lemma wp_vetted_forward {E A} endpoint (m : M (HttpState CD CR K) E A) s t :
  is_vetted endpoint ->
  (forall host port, parse_endpoint endpoint 80 = (host, port) ->
     emits (dials_authority (host_port host port)) m) ->
  (forall r, maintains (routing_is r) m) ->
  http_inv s t -> wp m (fun _ s' t' => http_inv s' t') s t.
Proof.
  intros Hv Hm Hr Hi. destruct (parse_endpoint endpoint 80) as [host port] eqn:Ep.
  specialize (Hm host port eq_refl s t). specialize (Hr (hs_routing s) s t eq_refl).
  unfold wp in *. destruct (m s t) as [[r s'] t']. cbn in Hm.
  assert (http_inv s' t) as Hi' by (unfold http_inv; by rewrite Hr).
  eapply dial_inv_events; [|exact Hi'|exact Hm].
  intros ev Hev. destruct ev; try done. intros ip. cbn in Hev.
  by eapply vetted_authority_safe.
Qed.

Lemma wp_choose_endpoint cfg rq s t :
  hc_fixed_backend cfg = None -> http_inv s t ->
  wp (choose_endpoint (CD := CD) (CR := CR) (K := K) cfg rq)
    (fun r s' t' => http_inv s' t' /\ match r with Ok (Ok e) => is_vetted e | _ => True end) s t.
Proof.
  intros Hf Hi. unfold choose_endpoint. rewrite Hf.
  destruct (extract_host rq) as [host|resp]; [|by apply wp_ret].
  wp_step. wp_step. wp_step. eapply wp_mono; [by apply wp_route_dial|].
  by intros [cr|e] r' t' [Hi' Hv].
Qed.

Lemma maintains_handle fuel cfg rq :
  hc_fixed_backend cfg = None ->
  maintains http_inv (handle (CD := CD) (CR := CR) (T := T) (K := K) fuel cfg rq).
Proof.
  intros Hf s t Hi. unfold handle. destruct (hc_request_handler cfg) as [f|].
  { unfold wp. by destruct (f t rq). }
  destruct (hc_direct_response cfg); [by apply wp_ret|].
  wp_step. eapply wp_mono; [by apply wp_choose_endpoint|].
  intros [[endpoint|resp]|e] s1 t1 [Hi1 Hv]; [|by apply wp_ret|done].
  wp_step. wp_step. eapply wp_mono.
  { eapply (wp_vetted_forward endpoint); [exact Hv| | |exact Hi1].
    - intros host port Ep. destruct (hc_raw_backend cfg); [by apply emits_forward_raw_request|].
      by apply emits_with_err, emits_forward_request.
    - intros r. destruct (hc_raw_backend cfg); [apply maintains_forward_raw_request|].
      apply maintains_with_err, maintains_forward_request. }
  by intros [resp|[]] s2 t2 Hi2.
Qed.

(** What happens to a worker: requests are handled; its adapter is
    reconfigured, or routes for itself (validation staying on); other tasks do
    I/O other than dialling. *)
Inductive http_step fuel cfg : HttpState CD CR K * trace -> HttpState CD CR K * trace -> Prop :=
| hstep_handle rq s t r s' t' :
    handle fuel cfg rq s t = (r, s', t') -> http_step fuel cfg (s, t) (s', t')
| hstep_routing s t r t' :
    routing_step (hs_routing s, t) (r, t') -> Forall safe_dial t' ->
    http_step fuel cfg (s, t) (hs_set_routing r s, t')
| hstep_pools k s t : http_step fuel cfg (s, t) (hs_set_pools k s, t).

Lemma http_inv_step fuel cfg st st' :
  hc_fixed_backend cfg = None -> http_inv st.1 st.2 -> http_step fuel cfg st st' ->
  http_inv st'.1 st'.2.
Proof.
  intros Hf Hi Hstep. destruct Hstep as [rq s t r s' t' Hh|s t r t' Hr Hs|k s t]; cbn in *.
  - pose proof (maintains_handle fuel cfg rq Hf s t Hi) as W. unfold wp in W. by rewrite Hh in W.
  - split; [|done]. eapply routing_inv_step; [|exact Hr]. apply Hi.
  - exact Hi.
Qed.
End Effects.

(** ** The raw conversation *)

Lemma starts_with_spec s p : starts_with s p = true -> exists r, s = p ++ r.
Proof.
  revert s. induction p as [|c p IH]; intros s; [by exists s|].
  destruct s as [|d s]; [done|]. cbn [starts_with]. rewrite andb_true_iff, bool_decide_eq_true.
  intros [-> Hs]. destruct (IH s Hs) as [r ->]. by exists r.
Qed.
Lemma starts_with_app s p r : starts_with s p = true -> starts_with (s ++ r) p = true.
Proof.
  revert s. induction p as [|c p IH]; intros s; [by destruct s, r|].
  destruct s as [|d s]; [done|]. cbn [starts_with app]. rewrite !andb_true_iff. intros [? ?]. eauto.
Qed.
Lemma starts_with_app_inv s p r :
  (List.length p <= List.length s)%nat -> starts_with (s ++ r) p = true -> starts_with s p = true.
Proof.
  revert s. induction p as [|c p IH]; intros s; [by destruct s|].
  destruct s as [|d s]; cbn [List.length]; [lia|]. cbn [starts_with app]. rewrite !andb_true_iff.
  intros ? [? ?]. split; [done|]. apply IH; [lia|done].
Qed.

Lemma find_subslice_eq s needle :
  find_subslice s needle =
  if starts_with s needle then Some 0%nat
  else match s with
       | [] => None
       | _ :: rest => match find_subslice rest needle with Some n => Some (S n) | None => None end
       end.
Proof. by destruct s. Qed.

Lemma find_subslice_spec s needle p :
  find_subslice s needle = Some p -> exists a r, s = a ++ needle ++ r /\ p = List.length a.
Proof.
  revert p. induction s as [|c s IH]; intros p; rewrite find_subslice_eq;
    (destruct (starts_with _ needle) eqn:E;
     [intros [= <-]; apply starts_with_spec in E as [r E]; by exists [], r|]); [done|].
  destruct (find_subslice s needle) as [n|]; [|done]. intros [= <-].
  destruct (IH n eq_refl) as (a & r & -> & ->). by exists (c :: a), r.
Qed.

(** An occurrence stays the first one when more text arrives. *)
Lemma find_subslice_app s needle p r :
  find_subslice s needle = Some p -> find_subslice (s ++ r) needle = Some p.
Proof.
  revert p. induction s as [|c s IH]; intros p; rewrite !(find_subslice_eq (_ ++ r)), find_subslice_eq;
    (destruct (starts_with _ needle) eqn:E; [by rewrite (starts_with_app _ _ r E)|]); [done|].
  destruct (find_subslice s needle) as [n|] eqn:En; [|done]. intros [= <-].
  destruct (starts_with ((c :: s) ++ r) needle) eqn:E'.
  - apply starts_with_app_inv in E'; [congruence|].
    apply find_subslice_spec in En as (a & b & -> & _). cbn. rewrite !length_app. lia.
  - cbn [app]. by rewrite (IH n eq_refl).
Qed.

Section Raw.
Context `{Env} `{HttpLib} {S : Type}.
Implicit Types (x : S) (t l : trace).

Lemma wp_read_more stream max eof (Q : result stop bytes -> S -> trace -> Prop) x t :
  (forall data ev, data <> [] -> received stream [ev] = data -> sent stream [ev] = [] ->
     Q (Ok data) x (ev :: t)) ->
  (forall e ev, received stream [ev] = [] -> sent stream [ev] = [] ->
     Q (Err (StopError e)) x (ev :: t)) ->
  wp (read_more stream max eof) Q x t.
Proof.
  intros Hok Herr. unfold read_more, stop_with. wp_step. wp_step.
  destruct (env_read t stream max) as [[data|e]|].
  - destruct data as [|c data]; [apply wp_fail, Herr|apply wp_ret, Hok]; try done; cbn;
      by rewrite Z.eqb_refl.
  - by apply wp_fail, Herr.
  - by apply wp_fail, Herr.
Qed.

(** Reading is faithful: nothing is sent, and the buffer grows by what is
    received; out of fuel, at least that many bytes came. *)
Lemma wp_read_head fuel stream buffer x t :
  wp (read_head fuel stream buffer)
    (fun r x' t' => x' = x /\ exists l, t' = l ++ t /\ sent stream l = [] /\
       match r with
       | Ok (n, buf) => buf = buffer ++ received stream l
                        /\ exists p, find_subslice buf HEADER_END = Some p /\ n = (p + 4)%nat
       | Err StopRunning => (fuel <= List.length (received stream l))%nat
       | Err StopPanic => False
       | Err (StopError _) => True
       end) x t.
Proof.
  revert buffer t. induction fuel as [|fuel IH]; intros buffer t; cbn [read_head];
    (destruct (find_subslice buffer HEADER_END) as [p|] eqn:E;
     [apply wp_ret; split; [done|]; exists []; rewrite app_nil_r; by eauto 10|]).
  { apply wp_fail. split; [done|]. exists []. split; [done|]. split; [done|]. cbn. lia. }
  wp_step. apply wp_read_more.
  - intros data ev Hne Hr Hs. eapply wp_mono; [apply IH|].
    intros r x' t' (-> & l & -> & Hsl & Hpost). split; [done|].
    exists (l ++ [ev]). rewrite <- app_assoc. split; [done|].
    rewrite sent_app, Hs, received_app, Hr. split; [done|].
    destruct r as [[n buf]|[]]; [|done|rewrite length_app; destruct data; [done|cbn; lia]|done].
    destruct Hpost as [-> Hp]. split; [by rewrite app_assoc|done].
  - intros e ev Hr Hs. split; [done|]. by exists [ev].
Qed.

Lemma wp_read_body fuel stream total body x t :
  (total - List.length body <= fuel)%nat ->
  wp (read_body fuel stream total body)
    (fun r x' t' => x' = x /\ exists l, t' = l ++ t /\ sent stream l = [] /\
       match r with
       | Ok b => b = body ++ received stream l /\ (total <= List.length b)%nat
       | Err (StopError _) => True
       | Err _ => False
       end) x t.
Proof.
  revert body t. induction fuel as [|fuel IH]; intros body t Hf; cbn [read_body];
    (case_bool_decide as Hlt;
     [|apply wp_ret; split; [done|]; exists []; rewrite app_nil_r;
       split; [done|split; [done|split; [done|lia]]]]); [lia|].
  wp_step. apply wp_read_more.
  - intros data ev Hne Hr Hs. eapply wp_mono; [apply IH|].
    { rewrite length_app. destruct data; [done|cbn; lia]. }
    intros r x' t' (-> & l & -> & Hsl & Hpost). split; [done|].
    exists (l ++ [ev]). rewrite <- app_assoc. split; [done|].
    rewrite sent_app, Hs, received_app, Hr. split; [done|].
    destruct r as [b|]; [|done]. destruct Hpost as [-> Hp]. by rewrite app_assoc.
  - intros e ev Hr Hs. split; [done|]. by exists [ev].
Qed.

(** The response made of a head and a body. *)
Definition raw_response cfg (head body : bytes) (resp : http_response) : Prop :=
  rs_body resp = body /\
  match split_crlf head with
  | [] => False
  | status_line :: lines =>
      let h := fold_left raw_header_line lines (mkRawHead [] false None false) in
      let code := unwrap_or 200 (parse_status_line status_line) in
      rh_bad h = false /\ rs_headers resp = rh_headers h
      /\ rs_status resp = (if hc_raw_backend_assume_ok cfg then 200
                           else if status_ok code then code else 200)
      /\ match rh_content_length h with
         | Some n => rh_chunked h = false -> n <= Z.of_nat (List.length body)
         | None => True
         end
  end.

Definition raw_post fuel cfg rq host port stream (r : result stop http_response) l : Prop :=
  match r with
  | Ok resp =>
      sent stream l = raw_request_text rq host port
      /\ exists head, received stream l = head ++ HEADER_END ++ rs_body resp
         /\ find_subslice (received stream l) HEADER_END = Some (List.length head)
         /\ raw_response cfg head (rs_body resp) resp
  | Err StopRunning => (fuel <= List.length (received stream l))%nat
  | Err StopPanic => exists n, capacity_ok n = false
  | Err (StopError _) => True
  end.

Lemma wp_build_response status h body (Q : result stop http_response -> S -> trace -> Prop) x t :
  (rh_bad h = false -> Q (Ok (mkHttpResponse status (rh_headers h) body)) x t) ->
  (forall e, Q (Err (StopError e)) x t) ->
  wp (build_response status h body) Q x t.
Proof. intros Hok Herr. unfold build_response, stop_with. destruct (rh_bad h); auto using wp_ret, wp_fail. Qed.

(** What follows the head: [l] is the history since the connection. *)
Lemma wp_raw_reply fuel cfg rq host port stream head rest x t l :
  sent stream l = raw_request_text rq host port ->
  received stream l = head ++ HEADER_END ++ rest ->
  find_subslice (received stream l) HEADER_END = Some (List.length head) ->
  wp (match split_crlf head with
      | [] => stop_with (B "missing status line")
      | status_line :: lines =>
          let status_code := unwrap_or 200 (parse_status_line status_line) in
          let status := if hc_raw_backend_assume_ok cfg then 200
                        else if status_ok status_code then status_code else 200 in
          let h := fold_left raw_header_line lines (mkRawHead [] false None false) in
          match rh_content_length h with
          | Some total =>
              if rh_chunked h then build_response status h rest
              else if negb (capacity_ok total) then fail StopPanic
              else
                body <- read_body (Z.to_nat total) stream (Z.to_nat total) rest ;;
                build_response status h body
          | None => build_response status h rest
          end
      end)
    (fun r x' t' => x' = x /\ exists l', t' = l' ++ t
       /\ raw_post fuel cfg rq host port stream r (l' ++ l)) x t.
Proof.
  intros Hsent Hrec Hfind.
  destruct (split_crlf head) as [|status_line lines] eqn:Ehead.
  { apply wp_fail. split; [done|]. by exists []. }
  cbv zeta. set (status := if hc_raw_backend_assume_ok cfg then _ else _).
  set (h := fold_left _ _ _).
  assert (Hbuild : forall l' body t',
    t' = l' ++ t -> sent stream l' = [] -> body = rest ++ received stream l' ->
    match rh_content_length h with
    | Some n => rh_chunked h = false -> n <= Z.of_nat (List.length body)
    | None => True
    end ->
    wp (build_response status h body)
      (fun r x' t' => x' = x /\ exists l', t' = l' ++ t
         /\ raw_post fuel cfg rq host port stream r (l' ++ l)) x t').
  { intros l' body t' -> Hs -> Hlen. apply wp_build_response.
    - intros Hbad. split; [done|]. exists l'. split; [done|]. cbn [raw_post rs_body].
      rewrite sent_app, Hsent, Hs, app_nil_r. split; [done|]. exists head.
      rewrite received_app, Hrec, <- !app_assoc. split; [done|]. split.
      + rewrite !app_assoc, <- (app_assoc head), <- Hrec. by apply find_subslice_app.
      + split; [done|]. rewrite Ehead. by repeat split.
    - intros e. split; [done|]. by exists l'. }
  destruct (rh_content_length h) as [total|] eqn:Elen.
  2: { apply (Hbuild []); [done|done|by rewrite app_nil_r|done]. }
  destruct (rh_chunked h) eqn:Ech.
  { apply (Hbuild []); [done|done|by rewrite app_nil_r|done]. }
  destruct (capacity_ok total) eqn:Ecap; cbn [negb].
  2: { apply wp_fail. split; [done|]. exists []. split; [done|]. by exists total. }
  wp_step. eapply wp_mono; [apply wp_read_body; lia|].
  intros [body|e] x' t' (-> & l' & -> & Hs & Hpost).
  - destruct Hpost as [-> Hlen]. apply (Hbuild l'); [done..|]. intros _. lia.
  - split; [done|]. exists l'. by destruct e.
Qed.

Lemma wp_raw_exchange fuel cfg rq host port stream x t :
  wp (raw_exchange fuel cfg rq host port stream)
    (fun r x' t' => x' = x /\ exists l, t' = l ++ t
       /\ raw_post fuel cfg rq host port stream r l) x t.
Proof.
  unfold raw_exchange. wp_step. wp_step. wp_step. wp_step.
  destruct (env_nodelay t stream) as [[]|e] eqn:En; cbn [map_err].
  2: { split; [done|]. eexists [_]. split; done. }
  wp_step. wp_step. set (ev0 := EvNodelay _ _).
  destruct (env_write _ _ _) as [w|] eqn:Ew.
  2: { apply wp_fail. split; [done|]. eexists [_; _]. split; done. }
  wp_step. eapply wp_mono; [apply wp_read_head|].
  set (ev1 := EvWrite _ _ _).
  assert (Hs0 : sent stream [ev1; ev0] = raw_request_text rq host port) by (cbn; by rewrite Z.eqb_refl).
  assert (Hr0 : received stream [ev1; ev0] = []) by done.
  intros [[n buffer]|e] x' t' (-> & l & -> & Hs & Hpost).
  2: { split; [done|]. exists (l ++ [ev1; ev0]). rewrite <- app_assoc. split; [done|].
       destruct e; [done| |done]. cbn [raw_post]. by rewrite received_app, Hr0. }
  destruct Hpost as (-> & p & Hfind & ->). cbn [app] in Hfind |- *.
  replace (p + 4 - 4)%nat with p by lia.
  pose proof (find_subslice_spec _ _ _ Hfind) as (head & rest & Erec & ->).
  rewrite Erec. rewrite take_app_length.
  replace (drop (List.length head + 4) (head ++ HEADER_END ++ rest)) with rest.
  2: { rewrite app_assoc, drop_app_length'; [done|]. rewrite length_app. done. }
  destruct (from_utf8 head); [|apply wp_fail; split; [done|];
    exists (l ++ [ev1; ev0]); rewrite <- app_assoc; done].
  eapply wp_mono.
  { apply (wp_raw_reply fuel cfg rq host port stream head rest x _ (l ++ [ev1; ev0])).
    - by rewrite sent_app, Hs0, Hs, app_nil_r.
    - by rewrite received_app, Hr0.
    - rewrite received_app, Hr0. exact Hfind. }
  intros r x' t' (-> & l' & -> & Hp). split; [done|]. exists (l' ++ l ++ [ev1; ev0]).
  split; [by rewrite <- !app_assoc|done].
Qed.
End Raw.

(** ** Outcomes of the handler *)
Section Outcomes.
Context `{Env} `{HttpLib} {CD CR T K : Type}
  `{TtlCacheLaws bytes IpAddr CD} `{TtlCacheLaws bytes CacheEntry CR}
  `{SemaphoreLaws T} `{KvStore bytes (Pool T) K, !KvStoreLaws bytes (Pool T) K}.
Implicit Types (s : HttpState CD CR K) (t : trace).

(** How a request may end: with a response; with a panic when a raw backend
    announced a body that cannot be allocated; or not yet, when a raw backend
    keeps sending a head without an end. *)
Definition answered fuel cfg rq (r : result stop http_response) (t' : trace) : Prop :=
  match r with
  | Ok _ => True
  | Err (StopError _) => False
  | Err e =>
      hc_raw_backend cfg = true /\ is_get_or_head rq = true
      /\ match e with
         | StopPanic => exists n, capacity_ok n = false
         | _ => exists stream l t0, t' = l ++ t0 /\ (fuel <= List.length (received stream l))%nat
         end
  end.

Lemma wp_forward_raw_request fuel cfg rq endpoint s t :
  wp (forward_raw_request (CD := CD) (CR := CR) (T := T) (K := K) fuel cfg rq endpoint)
    (fun r _ t' => match r with
       | Err StopPanic => is_get_or_head rq = true /\ exists n, capacity_ok n = false
       | Err StopRunning => is_get_or_head rq = true /\ exists stream l t0, t' = l ++ t0
                            /\ (fuel <= List.length (received stream l))%nat
       | _ => True
       end) s t.
Proof.
  unfold forward_raw_request. destruct (is_get_or_head rq); cbn [negb].
  2: { wp_step. unfold wp.
       by destruct (forward_request cfg rq endpoint s t) as [[[?|?] ?] ?]. }
  destruct (parse_endpoint endpoint 80) as [host port]. cbn zeta.
  destruct (split_authority _) as [[h p]|e]; [|by apply wp_fail].
  wp_step. wp_step.
  match goal with |- context [env_connect ?a ?b ?c ?d] =>
    destruct (env_connect a b c d) as [[stream|e]|] end; try by apply wp_fail.
  pose proof (wp_raw_exchange fuel cfg rq host port stream s
                (EvConnect h p (Done (Ok stream)) :: t)) as W.
  unfold wp, closing in *. destruct (raw_exchange _ _ _ _ _ _ _ _) as [[r s'] t'].
  destruct W as (_ & l & -> & Hp). destruct r as [?|[]]; try done.
  split; [done|]. by eexists stream, l, _.
Qed.

Lemma wp_handle_answers fuel cfg rq s t :
  wp (handle (CD := CD) (CR := CR) (T := T) (K := K) fuel cfg rq)
    (fun r _ t' => answered fuel cfg rq r t') s t.
Proof.
  unfold handle. destruct (hc_request_handler cfg) as [f|].
  { unfold wp. by destruct (f t rq). }
  destruct (hc_direct_response cfg); [by apply wp_ret|].
  wp_step. unfold wp at 1.
  assert (Hc : match (choose_endpoint (CD := CD) (CR := CR) (K := K) cfg rq s t).1.1 with
               | Err _ => False | Ok _ => True end).
  { unfold choose_endpoint. destruct (hc_fixed_backend cfg); [done|].
    destruct (extract_host rq); [|done]. unfold bind, attempt, zoom.
    by destruct (route _ _ _) as [[[?|?] ?] ?]. }
  destruct (choose_endpoint cfg rq s t) as [[[[endpoint|resp]|e] s1] t1]; cbn in Hc; try done.
  wp_step. wp_step. destruct (hc_raw_backend cfg) eqn:Eraw.
  - eapply wp_mono; [apply wp_forward_raw_request|].
    intros [resp|[| |e]] s2 t2 Hr; [done| | |done]; (apply wp_fail; cbn; by rewrite Eraw).
  - wp_step. unfold wp at 1. by destruct (forward_request cfg rq endpoint s1 t1) as [[[?|?] ?] ?].
Qed.

(** ** The pooled forwarder *)

(** What the exchange sent and got. *)
Definition exchanged cfg rq host port client (resp : http_response) (l : trace) : Prop :=
  exists body status hs reply,
    EvHttpSend client (outbound_request rq host port) body (Done (Ok (status, hs))) ∈ l
    /\ EvHttpResponseBody client (Done (Ok reply)) ∈ l
    /\ resp = mkHttpResponse (if hc_fast_path_assume_ok cfg then 200 else status)
                (relayed_headers hs) reply
    /\ if is_get_or_head rq then body = [] else EvHttpRequestBody (Done (Ok body)) ∈ l.

Lemma wp_exchange cfg rq host port client s t :
  wp (exchange (CD := CD) (CR := CR) (K := K) cfg client rq host port)
    (fun r s' t' => s' = s /\ exists l, t' = l ++ t /\
       match r with
       | Ok resp => exchanged cfg rq host port client resp l
       | Err (_, invalidated) =>
           invalidated = true <-> exists outbound body r, EvHttpSend client outbound body r ∈ l
       end) s t.
Proof.
  set (post := fun (r : result (ProxyError * bool) http_response) s' t' => _).
  assert (Hfail : forall l e, (forall o b r, EvHttpSend client o b r ∉ l) -> post (Err (e, false)) s (l ++ t)).
  { intros l e Hl. split; [done|]. exists l. split; [done|]. split; [done|]. intros (o & b & r & Hin).
    by destruct (Hl o b r). }
  assert (Hrest : forall l body,
    (forall o b r, EvHttpSend client o b r ∉ l) ->
    (if is_get_or_head rq then body = [] else EvHttpRequestBody (Done (Ok body)) ∈ l) ->
    wp (lift (map_err (fun e => (POther (B "build outbound request: " ++ e), false))
               (request_builds (outbound_request rq host port))) ;;
        r <- io_http_send client (outbound_request rq host port) body ;;
        ' (status, hs) <- match r with
                          | Done (Ok reply) => ret reply
                          | Done (Err e) => fail (PBackendConnect (io_message e), true)
                          | Elapsed => fail (POther (B "backend request timed out after "
                                                     ++ debug_duration (hc_timeout cfg)), true)
                          end ;;
        r <- io_http_response_body client ;;
        reply <- match r with
                 | Done (Ok b) => ret b
                 | Done (Err e) => fail (POther (B "reading backend body failed: " ++ io_message e), true)
                 | Elapsed => fail (POther (B "reading backend body timed out after "
                                            ++ debug_duration (hc_timeout cfg)), true)
                 end ;;
        ret (mkHttpResponse (if hc_fast_path_assume_ok cfg then 200 else status)
               (relayed_headers hs) reply))
      post s (l ++ t)).
  { intros l body Hl Hbody. wp_step. wp_step.
    destruct (request_builds _) as [[]|e]; cbn [map_err]; [|by apply Hfail].
    wp_step. wp_step. set (sent_ev := EvHttpSend _ _ _ _). wp_step.
    assert (Htrue : forall e l', post (Err (e, true)) s (l' ++ sent_ev :: l ++ t)).
    { intros e l'. split; [done|]. exists (l' ++ sent_ev :: l). split; [by rewrite <- app_assoc|].
      split; [|done]. intros _. eexists _, _, _. apply elem_of_app. right. left. }
    destruct (env_http_send _ _ _ _) as [[[status hs]|e]|] eqn:Es;
      [|apply wp_fail, (Htrue _ [])|apply wp_fail, (Htrue _ [])].
    wp_step. wp_step. wp_step. wp_step.
    destruct (env_http_response_body _ _) as [[reply|e]|];
      [|apply wp_fail, (Htrue _ [_])|apply wp_fail, (Htrue _ [_])].
    wp_step. wp_step. split; [done|].
    exists ([EvHttpResponseBody client (Done (Ok reply)); sent_ev] ++ l). split; [done|].
    exists body, status, hs, reply. split; [apply elem_of_app; left; right; left|].
    split; [left|]. split; [done|]. destruct (is_get_or_head rq); [done|].
    apply elem_of_app. by right. }
  unfold exchange. wp_step. destruct (is_get_or_head rq) eqn:Eg.
  { apply wp_ret, (Hrest []); [|done]. intros o b r Hin. by apply elem_of_nil in Hin. }
  wp_step. wp_step.
  assert (Hev : forall r0 o b r, EvHttpSend client o b r ∉ [EvHttpRequestBody r0]).
  { intros r0 o b r Hin. by apply list_elem_of_singleton in Hin. }
  destruct (env_http_request_body t) as [[body|e]|].
  - apply wp_ret, (Hrest [_]); [apply Hev|left].
  - apply wp_fail. by apply (Hfail [_]).
  - apply wp_fail. by apply (Hfail [_]).
Qed.

Lemma exchanged_mono cfg rq host port client resp (l l' : trace) :
  l ⊆ l' -> exchanged cfg rq host port client resp l -> exchanged cfg rq host port client resp l'.
Proof.
  intros Hl (body & status & hs & reply & H1' & H2' & H3' & H4'). exists body, status, hs, reply.
  split; [by apply Hl|]. split; [by apply Hl|]. split; [done|].
  destruct (is_get_or_head rq); [done|by apply Hl].
Qed.

(** What [forward_request] leaves behind: the pool's permits and idle clients
    are accounted for, and an answer is the backend's answer to this request. *)
Definition forward_post cfg rq host port s t (p : Pool T) ts
    (r : result ProxyError http_response) s' (t' : trace) : Prop :=
  hs_routing s' = hs_routing s
  /\ (exists p', pool_moved (host_port host port) (hs_pools s) (hs_pools s') p'
                 /\ rtc pool_step (p, ts) (p', ts))
  /\ exists l, t' = l ++ t /\
     match r with
     | Ok resp => exists client, exchanged cfg rq host port client resp l
     | Err _ => True
     end.

Definition the_pool cfg (name : bytes) (pools : K) : Pool T :=
  unwrap_or (pool_new name (hc_pool_size cfg)) (kv_get pools name).

(** The last step: the client goes back. *)
Lemma wp_give_back {E A} name (c c' : PooledClient) p ts (m : M (HttpState CD CR K) E A)
    (Q : result E A -> HttpState CD CR K -> trace -> Prop) s t :
  kv_get (hs_pools s) name = Some p ->
  (pc_pool c = Some name /\ pc_permit c = Some name \/ pc_pool c = None /\ pc_permit c = None) ->
  c' = c \/ c' = invalidate c ->
  (forall k p' l, pool_moved name (hs_pools s) k p' -> rtc pool_step (p, task_of c :: ts) (p', ts) ->
     wp m Q (hs_set_pools k s) (l ++ t)) ->
  wp (zoom hs_pools hs_set_pools (drop_pooled (T := T) c') ;; m) Q s t.
Proof.
  intros Hp Hname Hc Hm. wp_step. wp_step. unfold wp at 1.
  assert (Hf : pc_pool c' = pc_pool c /\ pc_permit c' = pc_permit c
               /\ cl_sender (pc_client c') = cl_sender (pc_client c)) by (by destruct Hc as [->| ->]).
  destruct Hf as (H1' & H2' & H3').
  pose proof (wp_drop_pooled (E := E) name c c' _ p ts t Hp Hname H1' H2' H3') as W.
  pose proof (emits_drop_pooled (E := E) (T := T) (K := K) name c' (hs_pools s) t) as (l & El & _).
  unfold wp in W. destruct (drop_pooled c' (hs_pools s) t) as [[r k] t']. cbn in El.
  destruct W as (-> & p' & Hmv & Hpath). subst t'. by eapply Hm.
Qed.

Lemma wp_forward_request cfg rq endpoint host port ts s t :
  parse_endpoint endpoint 80 = (host, port) ->
  wp (forward_request cfg rq endpoint)
    (forward_post cfg rq host port s t (the_pool cfg (host_port host port) (hs_pools s)) ts) s t.
Proof.
  intros Ep. unfold forward_request. rewrite Ep. cbv zeta.
  set (name := host_port host port). set (p := the_pool cfg name (hs_pools s)).
  wp_step. wp_step. unfold get_or_create, wp at 1.
  assert (Hget : exists k, get_or_create name (hc_pool_size cfg) (hs_pools s) t = (Ok (E := ProxyError) name, k, t)
    /\ pool_moved name (hs_pools s) k p).
  { unfold get_or_create, p, the_pool. destruct (kv_get (hs_pools s) name) as [q|] eqn:E.
    - eexists. split; [done|]. by apply pool_moved_refl.
    - eexists. split; [done|]. apply pool_moved_insert. }
  destruct Hget as (k & Hget & Hmk). unfold get_or_create in Hget. rewrite Hget. clear Hget.
  assert (Hpk : kv_get k name = Some p) by (by rewrite Hmk, decide_True).
  wp_step. wp_step. unfold wp at 1. cbn [hs_pools hs_set_pools].
  pose proof (wp_acquire name (hc_connect_timeout cfg) k p ts t Hpk) as W.
  pose proof (wp_acquire_names name (hc_connect_timeout cfg) k t) as W2.
  pose proof (emits_acquire (T := T) (K := K) name (hc_connect_timeout cfg) k t) as (l1 & El1 & _).
  unfold wp in W, W2. destruct (acquire name _ k t) as [[[c|e] k1] t1]; cbn in El1; subst t1;
    destruct W as (p1 & Hm1 & Hpath1).
  2: { split; [done|]. split; [exists p1; split; [by eapply pool_moved_trans|done]|]. by exists l1. }
  assert (Hp1 : kv_get k1 name = Some p1) by (by rewrite Hm1, decide_True).
  wp_step. wp_step. eapply wp_mono; [apply wp_exchange|].
  intros r s2 t2 (-> & l2 & -> & Hr).
  assert (Hend : forall k2 p2 l3 (r' : result ProxyError http_response),
    pool_moved name k1 k2 p2 -> rtc pool_step (p1, task_of c :: ts) (p2, ts) ->
    match r' with
    | Ok resp => exchanged cfg rq host port (cl_sender (pc_client c)) resp l2
    | Err _ => True
    end ->
    forward_post cfg rq host port s t p ts r'
      (hs_set_pools k2 (hs_set_pools k1 (hs_set_pools k s))) (l3 ++ l2 ++ l1 ++ t)).
  { intros k2 p2 l3 r' Hm2 Hpath2 Hr'. split; [done|]. split.
    - exists p2. split; [|by etrans]. by do 2 (eapply pool_moved_trans; [eassumption|]).
    - exists (l3 ++ l2 ++ l1). split; [by rewrite <- !app_assoc|]. destruct r' as [resp|]; [|done].
      exists (cl_sender (pc_client c)). eapply exchanged_mono; [|exact Hr']. set_solver. }
  destruct r as [resp|[e inv]].
  - eapply (wp_give_back name c); [done|exact W2|by left|].
    intros k2 p2 l3 Hm2 Hpath2. apply wp_ret. by eapply Hend.
  - eapply (wp_give_back name c); [done|exact W2|destruct inv; auto|].
    intros k2 p2 l3 Hm2 Hpath2. apply wp_fail. by eapply Hend.
Qed.
End Outcomes.

(** The forwarded headers name the backend as host, exactly once, and nothing
    of the client's connection. *)
Lemma outbound_host rq host port v :
  (HOST, v) ∈ rq_headers (outbound_request rq host port) <-> v = host_value host port.
Proof.
  cbn. rewrite elem_of_app, list_elem_of_singleton, list_elem_of_In, filter_In. split.
  - intros [[_ Hn]|[= ->]]; [|done]. cbn in Hn. by rewrite bool_decide_eq_true_2 in Hn.
  - intros ->. by right.
Qed.
Lemma outbound_no_connection rq host port v :
  (CONNECTION, v) ∉ rq_headers (outbound_request rq host port).
Proof.
  cbn. rewrite elem_of_app, list_elem_of_singleton, list_elem_of_In, filter_In.
  intros [[_ Hn]|[=]]. cbn in Hn. by rewrite (bool_decide_eq_true_2 (CONNECTION = CONNECTION)), orb_true_r in Hn.
Qed.
Lemma relayed_end_to_end name v hs : (name, v) ∈ relayed_headers hs -> is_hop_by_hop name = false.
Proof. unfold relayed_headers. rewrite list_elem_of_In, filter_In, negb_true_iff. by intros [_ ?]. Qed.

(** ** Properties *)
Section Properties.
Context `{Env} `{HttpLib} {CD CR T K : Type}
  `{TtlCacheLaws bytes IpAddr CD} `{TtlCacheLaws bytes CacheEntry CR}
  `{SemaphoreLaws T} `{KvStore bytes (Pool T) K, !KvStoreLaws bytes (Pool T) K}.

(** SSRF safety of the HTTP proxy.  Whatever requests clients send, whatever
    the resolver, the callback, the DNS and the backends answer, in pooled and
    in raw mode, a worker without a fixed backend never dials a host that is
    the literal of a blocked address. *)
Theorem http_never_dials_blocked fuel cfg resolver protocol k (s : HttpState CD CR K) t host port r :
  hc_fixed_backend cfg = None ->
  rtc (http_step fuel cfg) (mkHttpState (fst (routing_initial resolver protocol)) k, []) (s, t) ->
  EvConnect host port r ∈ t ->
  forall ip, parse_ipaddr host = Some ip -> is_blocked_ip ip = false.
Proof.
  intros Hf Hr Hin.
  assert (Hi : http_inv (mkHttpState (fst (routing_initial (CD := CD) (CR := CR) resolver protocol)) k) []).
  { apply dial_inv_initial. }
  assert (Hend : http_inv s t).
  { remember (mkHttpState _ k, []) as st0 eqn:E0. remember (s, t) as st1 eqn:E1.
    assert (H0' : http_inv st0.1 st0.2) by by subst. clear Hi E0.
    revert E1. induction Hr as [x|x y z Hxy _ IH]; intros ->; [done|].
    apply IH; [by eapply http_inv_step|done]. }
  destruct Hend as [_ Ht]. rewrite Forall_forall in Ht. exact (Ht _ Hin).
Qed.


(** Refused requests go nowhere.  A request with a
    missing or malformed Host header is answered 400 and nothing else happens at all; a routing
    error is answered with its own status (503 if it is not a status) and its
    text, and no backend is dialled: the history grows by routing's own
    events. *)
Theorem handle_refuses fuel cfg rq (s : HttpState CD CR K) t :
  hc_request_handler cfg = None -> hc_direct_response cfg = None -> hc_fixed_backend cfg = None ->
  match extract_host rq with
  | Err resp => handle fuel cfg rq s t = (Ok resp, s, t) /\ rs_status resp = 400
  | Ok host =>
      is_valid_hostname host = true /\
      match route host (hs_routing s) t with
      | (Err e, r', t') =>
          handle fuel cfg rq s t
            = (Ok (text_response (if status_ok (error_code e) then error_code e else 503)
                     (display_resolver_error e)), hs_set_routing r' s, t')
          /\ extends routing_event t t'
      | (Ok _, _, _) => True
      end
  end.
Proof.
  intros Hh Hd Hf. unfold handle, choose_endpoint. rewrite Hh, Hd, Hf.
  destruct (extract_host rq) as [host|resp] eqn:Eh.
  - split.
    { revert Eh. unfold extract_host.
      destruct (match get_header _ _ with Some v => header_to_str v | None => None end)
        as [[|c v]|]; [done| |done].
      destruct (is_valid_hostname (c :: v)) eqn:Ev; [|done]. by intros [= <-]. }
    pose proof (emits_route (CD := CD) (CR := CR) host (hs_routing s) t) as He.
    unfold bind, attempt, zoom, ret.
    destruct (route host (hs_routing s) t) as [[[cr|e] r'] t']; [done|]. by split.
  - split; [done|]. revert Eh. unfold extract_host.
    destruct (match get_header _ _ with Some v => header_to_str v | None => None end)
      as [[|c v]|]; try by intros [= <-].
    destruct (is_valid_hostname (c :: v)); [done|]. by intros [= <-].
Qed.


(** C13: the raw forwarder relays faithfully.  On a new connection it sends
    exactly the request line, Host and Connection; a response it gives back is
    the backend's: what was received is the head, the first blank line, and
    exactly the response's body, which is at least as long as the announced
    Content-Length; status and headers are those of the head. *)
Theorem raw_reply_faithful {S} fuel cfg rq host port stream (x : S) t :
  let '(r, x', t') := raw_exchange fuel cfg rq host port stream x t in
  x' = x /\ exists l, t' = l ++ t /\ raw_post fuel cfg rq host port stream r l.
Proof. apply wp_raw_exchange. Qed.
End Properties.

(** ** Witnesses *)

#[local] Existing Instance dns_example_env.
#[local] Existing Instance http_example_lib.

Definition http_example_config : HandlerConfig :=
  mkHandlerConfig None None 200 None false false false 5 5 1.
Definition http_example_request (host : bytes) : http_request :=
  mkHttpRequest GET (Some (B "/index")) [(HOST, host)].
Definition http_example_resolver : Resolve :=
  fun _ host => Ok (resolver_result_new (host ++ B ":80")).
Definition http_example_state
  : HttpState dns_example_cache (AssocCache bytes CacheEntry) (gmap bytes (Pool nat)) :=
  mkHttpState (fst (routing_initial (Some http_example_resolver) Http)) ∅.

Definition http_example_run := handle 10 http_example_config (http_example_request (B "example.com"))
                                 http_example_state [].

Lemma http_never_dials_blocked_witness :
  EvConnect (B "93.184.216.34") 80 Elapsed ∈ http_example_run.2
  /\ forall ip, parse_ipaddr (B "93.184.216.34") = Some ip -> is_blocked_ip ip = false.
Proof.
  assert (Hin : EvConnect (B "93.184.216.34") 80 Elapsed ∈ http_example_run.2).
  { vm_compute. repeat constructor. }
  split; [exact Hin|].
  refine (http_never_dials_blocked 10 http_example_config (Some http_example_resolver) Http ∅
            http_example_run.1.2 http_example_run.2 _ _ _ eq_refl _ Hin).
  apply rtc_once. apply (hstep_handle _ _ (http_example_request (B "example.com")) _ _ http_example_run.1.1).
  vm_compute. reflexivity.
Defined.

Definition http_refused_run := handle 10 http_example_config (http_example_request (B "10.0.0.1"))
                                 http_example_state [].

Lemma handle_refuses_witness :
  extract_host (http_example_request (B "10.0.0.1")) = Ok (B "10.0.0.1")
  /\ match http_refused_run.1.1 with Ok resp => rs_status resp = 403 | Err _ => False end
  /\ extends routing_event [] http_refused_run.2.
Proof.
  split; [vm_compute; reflexivity|]. split; [vm_compute; reflexivity|].
  pose proof (handle_refuses 10 http_example_config (http_example_request (B "10.0.0.1"))
                http_example_state [] eq_refl eq_refl eq_refl) as W.
  destruct W as (_ & W & He). unfold http_refused_run. rewrite W. exact He.
Defined.

Definition http_forward_run := forward_request http_example_config (http_example_request (B "example.com"))
                                 (B "93.184.216.34:80") http_example_state [].

