(* ===== verification/HttpServer.v ===== *)
(** * HttpServer: configuration and workers of the HTTP proxy
    ([src/server/http/config.rs], [src/server/http/server.rs]). *)

From S2P Require Import Prelude Text Net Protocol Resolver World Stores Dns Adapter TcpConfig HttpPool HttpHandler.
Open Scope Z_scope.

Section HttpServer.
Context `{Env} `{HttpLib} {CD CR : Type} `{TtlCache bytes IpAddr CD} `{TtlCache bytes CacheEntry CR}.

(** A worker-start hook: user code that gets the worker's number and its
    adapter, which it may reconfigure and use. *)
Definition WorkerStart : Type := Z -> Routing CD CR -> trace -> Routing CD CR * trace.

(** ** [struct HttpConfig] *)
Record HttpConfig : Type := mkHttpConfig {
  hp_host : bytes;
  hp_port : Z;
  hp_workers : Z;
  hp_max_connections : Z;
  hp_max_coroutine : Z;
  hp_socket_buffer_size : Z;
  hp_buffer_output_size : Z;
  hp_enable_coroutine : bool;
  hp_max_wait_time : Z;
  hp_reactor_num : Z;
  hp_dispatch_mode : Z;
  hp_enable_reuse_port : bool;
  hp_backlog : Z;
  hp_parse_post : bool;
  hp_parse_cookie : bool;
  hp_parse_files : bool;
  hp_compression : bool;
  hp_timeout : Z;
  hp_connect_timeout : Z;
  hp_keep_alive : bool;
  hp_pool_size : Z;
  hp_pool_timeout : Z;
  hp_fast_path : bool;
  hp_fast_path_assume_ok : bool;
  hp_fixed_backend : option bytes;
  hp_direct_response : option bytes;
  hp_direct_response_status : Z;
  hp_keepalive_timeout : Z;
  hp_http_protocol : bool;
  hp_http2_protocol : bool;
  hp_max_request : Z;
  hp_raw_backend : bool;
  hp_raw_backend_assume_ok : bool;
  hp_skip_validation : bool;
  hp_cache_ttl : Z;
  hp_request_handler : option RequestHandler;
  hp_worker_start : option WorkerStart }.

(** [Default], given what [available_parallelism] answered. *)
Definition http_config_default (available : option Z) : HttpConfig := {|
  hp_host := B "0.0.0.0";
  hp_port := 80;
  hp_workers := 16;
  hp_max_connections := 100000;
  hp_max_coroutine := 100000;
  hp_socket_buffer_size := 2 * 1024 * 1024;
  hp_buffer_output_size := 2 * 1024 * 1024;
  hp_enable_coroutine := true;
  hp_max_wait_time := 60;
  hp_reactor_num := unwrap_or 1 available * 2;
  hp_dispatch_mode := 2;
  hp_enable_reuse_port := true;
  hp_backlog := 65535;
  hp_parse_post := false;
  hp_parse_cookie := false;
  hp_parse_files := false;
  hp_compression := false;
  hp_timeout := from_secs 30;
  hp_connect_timeout := from_secs 5;
  hp_keep_alive := true;
  hp_pool_size := 1024;
  hp_pool_timeout := from_millis 1;
  hp_fast_path := false;
  hp_fast_path_assume_ok := false;
  hp_fixed_backend := None;
  hp_direct_response := None;
  hp_direct_response_status := 200;
  hp_keepalive_timeout := 60;
  hp_http_protocol := true;
  hp_http2_protocol := false;
  hp_max_request := 0;
  hp_raw_backend := false;
  hp_raw_backend_assume_ok := false;
  hp_skip_validation := false;
  hp_cache_ttl := 60;
  hp_request_handler := None;
  hp_worker_start := None |}.

(** The builders. *)
Definition http_fields (c : HttpConfig) : HttpConfig :=
  mkHttpConfig (hp_host c) (hp_port c) (hp_workers c) (hp_max_connections c) (hp_max_coroutine c)
    (hp_socket_buffer_size c) (hp_buffer_output_size c) (hp_enable_coroutine c)
    (hp_max_wait_time c) (hp_reactor_num c) (hp_dispatch_mode c) (hp_enable_reuse_port c)
    (hp_backlog c) (hp_parse_post c) (hp_parse_cookie c) (hp_parse_files c) (hp_compression c)
    (hp_timeout c) (hp_connect_timeout c) (hp_keep_alive c) (hp_pool_size c) (hp_pool_timeout c)
    (hp_fast_path c) (hp_fast_path_assume_ok c) (hp_fixed_backend c) (hp_direct_response c)
    (hp_direct_response_status c) (hp_keepalive_timeout c) (hp_http_protocol c)
    (hp_http2_protocol c) (hp_max_request c) (hp_raw_backend c) (hp_raw_backend_assume_ok c)
    (hp_skip_validation c) (hp_cache_ttl c) (hp_request_handler c) (hp_worker_start c).
Definition http_with_host (host : bytes) (c : HttpConfig) : HttpConfig :=
  ltac:(update http_fields hp_host host c).
Definition http_with_port (port : Z) (c : HttpConfig) : HttpConfig :=
  ltac:(update http_fields hp_port port c).
Definition http_with_workers (workers : Z) (c : HttpConfig) : HttpConfig :=
  ltac:(update http_fields hp_workers workers c).
Definition http_with_pool_size (size : Z) (c : HttpConfig) : HttpConfig :=
  ltac:(update http_fields hp_pool_size size c).
Definition http_with_pool_timeout (timeout : Z) (c : HttpConfig) : HttpConfig :=
  ltac:(update http_fields hp_pool_timeout timeout c).
Definition http_with_timeout (timeout : Z) (c : HttpConfig) : HttpConfig :=
  ltac:(update http_fields hp_timeout timeout c).
Definition http_with_connect_timeout (timeout : Z) (c : HttpConfig) : HttpConfig :=
  ltac:(update http_fields hp_connect_timeout timeout c).
Definition http_with_fixed_backend (endpoint : bytes) (c : HttpConfig) : HttpConfig :=
  ltac:(update http_fields hp_fixed_backend (Some endpoint) c).
Definition http_with_direct_status (status : Z) (c : HttpConfig) : HttpConfig :=
  ltac:(update http_fields hp_direct_response_status status c).
Definition http_with_direct_response (body : bytes) (status : Z) (c : HttpConfig) : HttpConfig :=
  let c := http_with_direct_status status c in
  ltac:(update http_fields hp_direct_response (Some body) c).
Definition http_with_raw_backend (raw : bool) (c : HttpConfig) : HttpConfig :=
  ltac:(update http_fields hp_raw_backend raw c).
Definition http_with_skip_validation (skip : bool) (c : HttpConfig) : HttpConfig :=
  ltac:(update http_fields hp_skip_validation skip c).
Definition http_with_cache_ttl (seconds : Z) (c : HttpConfig) : HttpConfig :=
  ltac:(update http_fields hp_cache_ttl seconds c).
Definition http_with_enable_reuse_port (enable : bool) (c : HttpConfig) : HttpConfig :=
  ltac:(update http_fields hp_enable_reuse_port enable c).
Definition http_with_http2 (enable : bool) (c : HttpConfig) : HttpConfig :=
  ltac:(update http_fields hp_http2_protocol enable c).
Definition http_with_request_handler (handler : RequestHandler) (c : HttpConfig) : HttpConfig :=
  ltac:(update http_fields hp_request_handler (Some handler) c).
Definition http_with_worker_start (hook : WorkerStart) (c : HttpConfig) : HttpConfig :=
  ltac:(update http_fields hp_worker_start (Some hook) c).
Definition http_with_keepalive_timeout (seconds : Z) (c : HttpConfig) : HttpConfig :=
  ltac:(update http_fields hp_keepalive_timeout seconds c).
Definition http_with_fast_path (enable : bool) (c : HttpConfig) : HttpConfig :=
  ltac:(update http_fields hp_fast_path enable c).

(** The fields the handler reads. *)
Definition handler_config (c : HttpConfig) : HandlerConfig :=
  mkHandlerConfig (hp_request_handler c) (hp_direct_response c) (hp_direct_response_status c)
    (hp_fixed_backend c) (hp_raw_backend c) (hp_raw_backend_assume_ok c)
    (hp_fast_path_assume_ok c) (hp_timeout c) (hp_connect_timeout c) (Z.to_nat (hp_pool_size c)).

(** ** [HttpServer::start] *)

(** A call on a fresh socket, which is dropped when the call fails. *)
Definition or_drop {S} (socket : sock) (c : socket_call) : M S io_error unit :=
  r <- io_call c ;;
  match r with
  | Ok _ => ret tt
  | Err e => io_close socket ;; fail e
  end.

(** [bind_reuse_port]. *)
Definition bind_reuse_port {S} (address : IpAddr * Z) : M S io_error sock :=
  r <- io_call (SocketNew (negb (is_ipv4 (fst address)))) ;;
  socket <- lift r ;;
  or_drop socket (SetReuseAddress socket) ;;
  or_drop socket (SetReusePort socket) ;;
  or_drop socket (SetNonblocking socket) ;;
  or_drop socket (Bind socket address) ;;
  or_drop socket (Listen socket 1024) ;;
  or_drop socket (ListenerFromStd socket) ;;
  ret socket.

(** [TcpListener::bind(address)]. *)
Definition tokio_bind {S} (address : IpAddr * Z) : M S io_error sock :=
  r <- io_call (ListenOn (display_ip (fst address)) (snd address)) ;;
  lift r.

(** The listener of a worker. *)
Definition worker_listener {S} (config : HttpConfig) (address : IpAddr * Z) (workers worker_id : Z)
  : M S io_error sock :=
  if hp_enable_reuse_port config && (1 <? workers) then bind_reuse_port address
  else if worker_id =? 0 then tokio_bind address
  else if hp_enable_reuse_port config then bind_reuse_port address
  else tokio_bind address.

(** The loop over the workers; an error stops it (the workers spawned so far go
    on serving until the process ends). *)
Fixpoint bind_workers {S} (config : HttpConfig) (address : IpAddr * Z) (workers : Z) (ids : list nat)
  : M S io_error (list (Z * sock)) :=
  match ids with
  | [] => ret []
  | id :: rest =>
      listener <- worker_listener config address workers (Z.of_nat id) ;;
      others <- bind_workers config address workers rest ;;
      ret ((Z.of_nat id, listener) :: others)
  end.

(** [HttpServer::start] up to the workers: their listeners. *)
Definition start {S} (config : HttpConfig) : M S io_error (list (Z * sock)) :=
  match parse_socket_addr (hp_host config ++ colon :: print_dec (hp_port config)) with
  | None => fail (mkIoError InvalidInput (B "invalid socket address syntax"))
  | Some address =>
      let workers := Z.max (hp_workers config) 1 in
      bind_workers config address workers (seq 0 (Z.to_nat workers))
  end.

(** [run_worker] up to its loop: the worker's adapter. *)
Definition worker_adapter (resolver : option Resolve) (config : HttpConfig) : Adapter CR :=
  let a := set_cache_ttl (hp_cache_ttl config) (adapter_new resolver Http) in
  if hp_skip_validation config then set_skip_validation true a else a.

Definition worker_setup {E} (worker_id : Z) (resolver : option Resolve) (config : HttpConfig)
  : M (Routing CD CR) E unit :=
  fun r t =>
    let r1 := mkRouting (worker_adapter resolver config) (r_dns r) in
    match hp_worker_start config with
    | Some hook => let '(r2, t2) := hook worker_id r1 t in (Ok tt, r2, t2)
    | None => (Ok tt, r1, t)
    end.

(** One round of the loop of [run_worker]: the connection hyper then serves
    with [handle]. *)
Definition worker_accept {S E} (listener : sock) : M S E (option sock) :=
  r <- io_call (Accept listener) ;;
  match r with
  | Ok stream => io_nodelay stream ;; ret (Some stream)
  | Err _ => ret None
  end.
End HttpServer.
Arguments HttpConfig CD CR : clear implicits.

(** ** Properties *)
Section Properties.
Context `{Env} {CD CR : Type}.
Implicit Types (config : HttpConfig CD CR).

(** What the kernel is known to do: a second socket cannot listen on an address
    somebody listens on already. *)
Definition one_listener (t0 : trace) : Prop :=
  forall l h p s, EvCall (ListenOn h p) (Ok s) ∈ l -> exists e, env_call (l ++ t0) (ListenOn h p) = Err e.

Lemma bind_workers_shared {S} config address workers (ids : list nat) (x : S) t l s :
  hp_enable_reuse_port config = false -> one_listener t -> ids <> [] ->
  EvCall (ListenOn (display_ip (fst address)) (snd address)) (Ok s) ∈ l ->
  wp (bind_workers config address workers ids) (fun r _ _ => exists e, r = Err e) x (l ++ t).
Proof.
  intros Hr Ho Hne Hin. destruct ids as [|id ids]; [done|]. cbn [bind_workers]. wp_step.
  unfold worker_listener. rewrite Hr. cbn [andb]. cbv iota.
  destruct (Ho l _ _ s Hin) as [e He].
  assert (Hw : wp (tokio_bind (S := S) address) (fun r _ _ => exists e, r = Err e) x (l ++ t)).
  { unfold tokio_bind. wp_step. wp_step. apply wp_lift. rewrite He. by exists e. }
  destruct (_ =? 0); (eapply wp_mono; [exact Hw|]); intros r x' t' [e' ->]; by exists e'.
Qed.

(** Without SO_REUSEPORT the server does not start with several workers:
    every worker binds the address for itself, so where the kernel lets one
    socket listen on an address, [start] fails on the second worker instead of
    sharing the first one's listener. *)
Theorem several_workers_need_reuse_port {S} config (x : S) t :
  hp_enable_reuse_port config = false -> 1 < hp_workers config -> one_listener t ->
  exists e, (start config x t).1.1 = Err e.
Proof.
  intros Hr Hw Ho.
  assert (W : wp (start (S := S) config) (fun r _ _ => exists e, r = Err e) x t).
  2: { unfold wp in W. by destruct (start config x t) as [[r x'] t']. }
  unfold start. destruct (parse_socket_addr _) as [address|]; [|apply wp_fail; by eexists].
  cbv zeta. set (workers := Z.max (hp_workers config) 1).
  destruct (Z.to_nat workers) as [|[|n]] eqn:En; [lia|lia|]. cbn [seq bind_workers]. wp_step.
  unfold worker_listener at 1. rewrite Hr. cbn [andb]. change (Z.of_nat 0 =? 0) with true. cbv iota.
  unfold tokio_bind. wp_step. wp_step. apply wp_lift.
  destruct (env_call t _) as [s|e] eqn:E; [|by exists e].
  wp_step. eapply wp_mono.
  { apply (bind_workers_shared config address workers (1%nat :: seq 2 n) x t [_] s Hr Ho); [done|].
    by left. }
  intros r x' t' [e ->]. by exists e.
Qed.
End Properties.

(** ** Witness *)

(** A kernel with one listener per address. *)
Definition one_listener_env : Env := {|
  env_now _ := 0; env_dns_init := Ok tt; env_lookup _ _ _ := Elapsed; env_connect _ _ _ _ := Elapsed;
  env_call t c :=
    match c with
    | ListenOn _ _ => if existsb (fun ev => match ev with EvCall (ListenOn _ _) _ => true | _ => false end) t
                      then Err (io_other (B "Address in use")) else Ok 3
    | _ => Ok 0
    end;
  env_nodelay _ _ := Ok tt; env_write _ _ _ := Elapsed; env_flush _ _ := Elapsed;
  env_readable _ _ := Ok tt; env_read _ _ _ := Elapsed; env_read_line _ _ := Ok [];
  env_tls_accept _ _ := Ok tt; env_select _ := true; env_http_handshake _ _ := Ok tt;
  env_http_ready _ _ := true; env_http_send _ _ _ _ := Elapsed; env_http_request_body _ := Elapsed;
  env_http_response_body _ _ := Elapsed; env_getsockname _ _ := None; env_getpeername _ _ := None |}.
#[local] Existing Instance one_listener_env.

Definition two_workers_config : HttpConfig unit unit :=
  http_with_enable_reuse_port false (http_with_workers 2 (http_config_default None)).

Lemma several_workers_need_reuse_port_witness :
  (start two_workers_config tt []).1.1 = Err (io_other (B "Address in use"))
  /\ exists e, (start two_workers_config tt []).1.1 = Err e.
Proof.
  split; [vm_compute; reflexivity|].
  apply several_workers_need_reuse_port; [reflexivity|reflexivity|].
  intros l h p s Hin. exists (io_other (B "Address in use")). cbn.
  rewrite (proj2 (existsb_exists _ _)); [reflexivity|].
  exists (EvCall (ListenOn h p) (Ok s)). split; [|reflexivity].
  apply list_elem_of_In, elem_of_app. left. exact Hin.
Defined.
