(* ===== verification/HttpWorkers.v ===== *)
(** * HttpWorkers: the running HTTP proxy ([src/server/http/server.rs]).

    [start] binds a listener per worker; each worker has its own adapter and
    handler (with its own pools) and serves connections through hyper, which
    reads requests and writes the responses of [handle]; the DNS cache is shared
    by the process.  What a worker serves at a time is one connection: the
    connections of several clients are interleaved at the granularity of whole
    connections. *)

From S2P Require Import Prelude Text Net Protocol Resolver World Stores Dns Adapter Ssrf Routing.
From S2P Require Import TcpConfig HttpHost HttpPool HttpPoolBounds HttpHandler HttpGuarantees HttpServer.
Open Scope Z_scope.

(** hyper's server side: the next request on a connection, [None] when the
    peer is done or its bytes are no request. *)
Class HyperServer : Type := { http_next : trace -> sock -> option http_request }.

(** [StatusCode::from_u16] accepts the statuses the proxy itself uses. *)
Class HttpLibLaws `{HttpLib} : Prop := {
  status_ok_200 : status_ok 200 = true;
  status_ok_400 : status_ok 400 = true;
  status_ok_500 : status_ok 500 = true;
  status_ok_503 : status_ok 503 = true }.

Section HttpWorkers.
Context `{Env} `{HttpLib} `{HyperServer} {CD CR T K : Type}.
Context `{TtlCache bytes IpAddr CD} `{TtlCache bytes CacheEntry CR} `{Semaphore T}.
Context `{KvStore bytes (Pool T) K}.

Abbreviation Handler := (HttpState CD CR K).

(** [serve_connection(io, service)]: the service is [handle]; without keep-alive
    the connection ends after one response. *)
Fixpoint serve_connection (requests fuel : nat) (cfg : HandlerConfig) (keep_alive : bool)
    (client : sock) : M Handler stop unit :=
  rq <- io_event (fun t => http_next t client) (EvHttpRequest client) ;;
  match rq with
  | None => ret tt
  | Some rq =>
      response <- handle (T := T) fuel cfg rq ;;
      io_event (fun _ => tt) (fun _ => EvHttpReply client response) ;;
      if keep_alive then
        match requests with
        | O => fail StopRunning
        | Datatypes.S requests' => serve_connection requests' fuel cfg keep_alive client
        end
      else ret tt
  end.

(** The task of a connection; HTTP/2 connections are always kept. *)
Definition serve_client (requests fuel : nat) (config : HttpConfig CD CR) (client : sock)
  : M Handler stop unit :=
  closing client
    (serve_connection requests fuel (handler_config config)
       (hp_http2_protocol config || hp_keep_alive config) client).

(** A round of the loop of [run_worker]; the connection's task runs at once and
    its outcome is only logged, unless it is still running. *)
Definition worker_round (requests fuel : nat) (config : HttpConfig CD CR) (listener : sock)
  : M Handler stop unit :=
  accepted <- worker_accept listener ;;
  match accepted with
  | None => ret tt
  | Some client =>
      r <- attempt (E := stop) (F := stop) (serve_client requests fuel config client) ;;
      match r with
      | Err StopRunning => fail StopRunning
      | _ => ret tt
      end
  end.

(** ** The process *)

(** What a worker owns: its listener, its adapter, and its handler's pools. *)
Record Worker : Type := mkWorker {
  wk_listener : sock;
  wk_adapter : Adapter CR;
  wk_pools : K }.
Record HttpProcess : Type := mkHttpProcess {
  ht_workers : list Worker;
  ht_dns : Dns CD }.

(** [run_worker] up to its loop, for the listener it was given: the adapter, the
    hook, the handler with no pool yet. *)
Definition spawn_worker {E} (resolver : option Resolve) (config : HttpConfig CD CR)
    (worker : Z * sock) : M HttpProcess E unit :=
  fun p t =>
    let '(_, r, t') := worker_setup (E := E) (fst worker) resolver config
                         (mkRouting (worker_adapter resolver config) (ht_dns p)) t in
    (Ok tt,
     mkHttpProcess (ht_workers p ++ [mkWorker (snd worker) (r_adapter r) kv_empty]) (r_dns r), t').

Fixpoint spawn_workers {E} (resolver : option Resolve) (config : HttpConfig CD CR)
    (workers : list (Z * sock)) : M HttpProcess E unit :=
  match workers with
  | [] => ret tt
  | w :: rest => spawn_worker resolver config w ;; spawn_workers resolver config rest
  end.

(** [HttpServer::start]. *)
Definition start_http (resolver : option Resolve) (config : HttpConfig CD CR)
  : M HttpProcess io_error unit :=
  listeners <- HttpServer.start config ;;
  spawn_workers resolver config listeners.

(** Runs on the handler of a worker. *)
Definition on_worker {E A} (i : nat) (w : Worker) (m : M Handler E A) : M HttpProcess E A :=
  fun p t =>
    let '(r, x, t') := m (mkHttpState (mkRouting (wk_adapter w) (ht_dns p)) (wk_pools w)) t in
    (r,
     mkHttpProcess (<[i := mkWorker (wk_listener w) (r_adapter (hs_routing x)) (hs_pools x)]> (ht_workers p))
       (r_dns (hs_routing x)), t').

(** A round of one of the workers. *)
Definition process_round (requests fuel : nat) (config : HttpConfig CD CR) (i : nat)
  : M HttpProcess stop unit :=
  p <- get ;;
  match ht_workers p !! i with
  | None => ret tt
  | Some w => on_worker i w (worker_round requests fuel config (wk_listener w))
  end.
End HttpWorkers.
Arguments Worker CR K : clear implicits.
Arguments HttpProcess CD CR K : clear implicits.

(** ** What the handler does to the outside world *)
Section Serving.
Context `{Env} `{HttpLib} `{HyperServer} {CD CR T K : Type}.
Context `{TtlCacheLaws bytes IpAddr CD} `{TtlCacheLaws bytes CacheEntry CR} `{SemaphoreLaws T}.
Context `{KvStore bytes (Pool T) K, !KvStoreLaws bytes (Pool T) K}.

Abbreviation Handler := (HttpState CD CR K).

(** Everything but hyper's dealings with clients. *)
Definition behind_hyper (ev : event) : Prop :=
  match ev with EvHttpRequest _ _ | EvHttpReply _ _ => False | _ => True end.

Lemma emits_handle fuel cfg rq :
  emits behind_hyper (handle (CD := CD) (CR := CR) (T := T) (K := K) fuel cfg rq).
Proof.
  unfold handle. destruct (hc_request_handler cfg) as [f|].
  { intros s t. by destruct (f t rq). }
  destruct (hc_direct_response cfg); [apply emits_ret|].
  apply emits_bind.
  { unfold choose_endpoint. destruct (hc_fixed_backend cfg); [apply emits_ret|].
    destruct (extract_host rq); [|apply emits_ret]. emits_steps.
    eapply emits_mono; [|apply emits_route]. by intros []. }
  intros [endpoint|response]; [|apply emits_ret].
  destruct (parse_endpoint endpoint 80) as [host port] eqn:Ep.
  assert (Hd : forall a ev, dials_authority a ev -> behind_hyper ev) by by intros ? [].
  apply emits_bind.
  - apply emits_attempt. destruct (hc_raw_backend cfg).
    + eapply emits_mono; [apply Hd|by apply emits_forward_raw_request].
    + eapply emits_with_err, emits_mono; [apply Hd|by apply emits_forward_request].
  - intros [response|[]]; auto with proxy.
Qed.

(** ** Statuses *)

(** The environment's responses carry statuses. *)
Definition statuses_valid (cfg : HandlerConfig) : Prop :=
  (forall t s rq body st hs, env_http_send t s rq body = Done (Ok (st, hs)) -> status_ok st = true)
  /\ (forall f t rq rs, hc_request_handler cfg = Some f -> f t rq = Ok rs ->
        status_ok (rs_status rs) = true).

Definition valid_reply {E} (r : result E http_response) : Prop :=
  match r with Ok rs => status_ok (rs_status rs) = true | Err _ => True end.

Context `{!HttpLibLaws}.

Lemma error_status_valid e : status_ok (rs_status (resolver_error_response e)) = true.
Proof. unfold resolver_error_response. cbn. destruct (status_ok (error_code e)) eqn:E; [done|apply status_ok_503]. Qed.

Lemma extract_host_status rq rs : extract_host rq = Err rs -> status_ok (rs_status rs) = true.
Proof.
  unfold extract_host. destruct (match get_header _ _ with Some v => _ | None => None end) as [[|c v]|];
    [|destruct (is_valid_hostname _)|]; try done; intros [= <-]; apply status_ok_400.
Qed.

Lemma wp_exchange_status cfg client rq host port (s : Handler) t :
  statuses_valid cfg ->
  wp (exchange cfg client rq host port) (fun r _ _ => valid_reply r) s t.
Proof.
  intros [Hsend _]. unfold exchange. wp_step.
  assert (Hbody : forall b s t,
    wp (lift (map_err (fun e => (POther (B "build outbound request: " ++ e), false))
                (request_builds (outbound_request rq host port))) ;;
        r <- io_http_send client (outbound_request rq host port) b ;;
        ' (status, hs) <- match r with
                          | Done (Ok reply) => ret reply
                          | Done (Err e) => fail (PBackendConnect (io_message e), true)
                          | Elapsed => fail (POther (B "backend request timed out after "
                                                     ++ debug_duration (hc_timeout cfg)), true)
                          end ;;
        r <- io_http_response_body client ;;
        reply <- match r with
                 | Done (Ok b) => ret b
                 | Done (Err e) => fail (POther (B "reading backend body failed: " ++ io_message e), true)
                 | Elapsed => fail (POther (B "reading backend body timed out after "
                                            ++ debug_duration (hc_timeout cfg)), true)
                 end ;;
        ret (mkHttpResponse (if hc_fast_path_assume_ok cfg then 200 else status)
               (relayed_headers hs) reply)) (fun r (_ : Handler) _ => valid_reply r) s t).
  { intros b s' t'. wp_step. wp_step. destruct (request_builds _); [|done]. cbn [map_err].
    wp_step. wp_step. wp_step. destruct (env_http_send _ _ _ _) as [[[status hs]|e]|] eqn:Es;
      [apply wp_ret|by apply wp_fail..].
    wp_step. wp_step. wp_step. destruct (env_http_response_body _ _) as [[reply|e]|];
      [apply wp_ret, wp_ret|by apply wp_fail..]. cbn.
    destruct (hc_fast_path_assume_ok cfg); [apply status_ok_200|by eapply Hsend]. }
  destruct (is_get_or_head rq); [apply wp_ret, Hbody|].
  wp_step. wp_step. destruct (env_http_request_body t) as [[b|e]|];
    [apply wp_ret, Hbody|by apply wp_fail..].
Qed.

(** Giving a client back does not touch the response. *)
Lemma wp_forward_status cfg rq endpoint (s : Handler) t :
  statuses_valid cfg ->
  wp (forward_request (T := T) cfg rq endpoint) (fun r _ _ => valid_reply r) s t.
Proof.
  intros Hv. unfold forward_request. destruct (parse_endpoint endpoint 80) as [host port]. cbv zeta.
  assert (Hrest : forall pooled s t, wp
    (r <- attempt (exchange cfg (cl_sender (pc_client pooled)) rq host port) ;;
     match r with
     | Ok response => zoom hs_pools hs_set_pools (drop_pooled (T := T) pooled) ;; ret response
     | Err (e, invalidated) =>
         zoom hs_pools hs_set_pools
           (drop_pooled (T := T) (if invalidated : bool then invalidate pooled else pooled)) ;;
         fail e
     end) (fun r (_ : Handler) _ => valid_reply r) s t).
  { intros pooled s1 t1. wp_step. wp_step. eapply wp_mono; [by apply wp_exchange_status|].
    intros [response|[e b]] s2 t2 Hr; wp_step; wp_step; unfold wp.
    - by destruct (drop_pooled pooled (hs_pools s2) t2) as [[[?|?] ?] ?].
    - by destruct (drop_pooled _ (hs_pools s2) t2) as [[[?|?] ?] ?]. }
  wp_step. wp_step. unfold wp at 1.
  destruct (get_or_create _ _ _ _) as [[[name|e] k1] t1]; [|done].
  wp_step. wp_step. unfold wp at 1.
  destruct (acquire name _ _ _) as [[[pooled|e] k2] t2]; [apply Hrest|done].
Qed.

Lemma wp_build_status {S} status h body (x : S) t :
  status_ok status = true ->
  wp (build_response status h body) (fun r _ _ => valid_reply r) x t.
Proof. intros Hs. by apply wp_build_response. Qed.

Lemma wp_raw_status {S} fuel cfg rq host port stream (x : S) t :
  wp (raw_exchange fuel cfg rq host port stream) (fun r _ _ => valid_reply r) x t.
Proof.
  eapply wp_mono; [apply wp_raw_exchange|].
  intros [rs|e] x' t' (_ & l & _ & Hp); [|done].
  destruct Hp as (_ & head & _ & _ & _ & Hr). destruct (split_crlf head) as [|line lines]; [done|].
  cbv zeta in Hr. destruct Hr as (_ & _ & Hst & _). unfold valid_reply. rewrite Hst.
  destruct (hc_raw_backend_assume_ok cfg); [apply status_ok_200|].
  destruct (status_ok (unwrap_or 200 (parse_status_line line))) eqn:E; [done|apply status_ok_200].
Qed.

Lemma wp_forward_raw_status fuel cfg rq endpoint (s : Handler) t :
  statuses_valid cfg ->
  wp (forward_raw_request (T := T) fuel cfg rq endpoint) (fun r _ _ => valid_reply r) s t.
Proof.
  intros Hv. unfold forward_raw_request. destruct (negb _).
  { wp_step. eapply wp_mono; [by apply wp_forward_status|]. by intros [?|?]. }
  destruct (parse_endpoint endpoint 80) as [host port]. cbv zeta.
  destruct (split_authority _) as [[h p]|e]; [|by apply wp_fail].
  wp_step. wp_step. destruct (env_connect _ _ _ _) as [[stream|e]|]; try by apply wp_fail.
  match goal with |- wp (closing _ _) _ _ ?t1 =>
    pose proof (wp_raw_status fuel cfg rq host port stream s t1) as W end.
  unfold wp, closing in *. destruct (raw_exchange _ _ _ _ _ _ _ _) as [[r s'] t'].
  by destruct r as [?|[]].
Qed.

Lemma wp_handle_status fuel cfg rq (s : Handler) t :
  statuses_valid cfg ->
  wp (handle (T := T) fuel cfg rq) (fun r _ _ => valid_reply r) s t.
Proof.
  intros Hv. unfold handle. destruct (hc_request_handler cfg) as [f|] eqn:Ef.
  { unfold wp. destruct (f t rq) as [rs|] eqn:Er; cbn; [|apply status_ok_500].
    by eapply (proj2 Hv). }
  destruct (hc_direct_response cfg).
  { apply wp_ret. cbn. destruct (status_ok (hc_direct_response_status cfg)) eqn:E; [done|apply status_ok_200]. }
  wp_step.
  assert (Hc : wp (choose_endpoint cfg rq)
                 (fun r (_ : Handler) _ => match r with Ok (Err rs) => valid_reply (Ok (E := stop) rs)
                                                  | _ => True end) s t).
  { unfold choose_endpoint. destruct (hc_fixed_backend cfg); [done|].
    destruct (extract_host rq) as [host|rs] eqn:Eh; [|by apply wp_ret; eapply extract_host_status].
    wp_step. wp_step. wp_step. unfold wp. destruct (route _ _ _) as [[[cr|e] r'] t']; [done|].
    apply error_status_valid. }
  eapply wp_mono; [exact Hc|]. intros [[endpoint|rs]|e] s1 t1 Hr; [|by apply wp_ret|done].
  wp_step. wp_step. destruct (hc_raw_backend cfg).
  - eapply wp_mono; [by apply wp_forward_raw_status|].
    intros [rs|[| |e]] s2 t2 Hrs; try done. apply status_ok_503.
  - wp_step. eapply wp_mono; [by apply wp_forward_status|].
    intros [rs|e] s2 t2 Hrs; [done|]. apply status_ok_503.
Qed.
End Serving.

(** ** A connection *)

(** What hyper read from a client and wrote to it, in order. *)
Fixpoint conversation (client : sock) (t : trace) : list (http_request + http_response) :=
  match t with
  | [] => []
  | EvHttpRequest s (Some rq) :: t' =>
      conversation client t' ++ (if s =? client then [inl rq] else [])
  | EvHttpReply s rs :: t' => conversation client t' ++ (if s =? client then [inr rs] else [])
  | _ :: t' => conversation client t'
  end.

Lemma conversation_app client l t :
  conversation client (l ++ t) = conversation client t ++ conversation client l.
Proof.
  induction l as [|ev l IH]; cbn; [by rewrite app_nil_r|].
  destruct ev; try done; [destruct rq; [|done]|]; by rewrite IH, app_assoc.
Qed.

Lemma behind_hyper_silent client l : Forall behind_hyper l -> conversation client l = [].
Proof. induction 1 as [|ev l Hev _ IH]; [done|]. by destruct ev. Qed.

(** One reply per request, before the next request is read, each acceptable to
    [ok]; the last request goes unanswered only when its handler was stopped. *)
Inductive answered_in_order (ok : http_response -> Prop) (keep_alive : bool)
  : result stop unit -> list (http_request + http_response) -> Prop :=
| order_over : answered_in_order ok keep_alive (Ok tt) []
| order_stopped rq e : answered_in_order ok keep_alive (Err e) [inl rq]
| order_last rq rs :
    keep_alive = false -> ok rs -> answered_in_order ok keep_alive (Ok tt) [inl rq; inr rs]
| order_bound rq rs :
    keep_alive = true -> ok rs ->
    answered_in_order ok keep_alive (Err StopRunning) [inl rq; inr rs]
| order_next rq rs r l :
    keep_alive = true -> ok rs -> answered_in_order ok keep_alive r l ->
    answered_in_order ok keep_alive r (inl rq :: inr rs :: l).

Section Connections.
Context `{Env} `{HttpLib} `{HyperServer} {CD CR T K : Type} `{!HttpLibLaws}.
Context `{TtlCacheLaws bytes IpAddr CD} `{TtlCacheLaws bytes CacheEntry CR} `{SemaphoreLaws T}.
Context `{KvStore bytes (Pool T) K, !KvStoreLaws bytes (Pool T) K}.

Abbreviation Handler := (HttpState CD CR K).

Definition conversed client keep_alive t (r : result stop unit) (t' : trace) : Prop :=
  exists l, t' = l ++ t
    /\ answered_in_order (fun rs => status_ok (rs_status rs) = true) keep_alive r (conversation client l).

(** A request that is handled without anything else being said to the client. *)
Lemma wp_handle_quiet fuel cfg rq (s : Handler) t :
  statuses_valid cfg ->
  wp (handle (T := T) fuel cfg rq)
    (fun r _ t' => valid_reply r /\ exists l, t' = l ++ t /\ Forall behind_hyper l) s t.
Proof. intros Hv. apply wp_emits; [apply emits_handle|by apply wp_handle_status]. Qed.

Lemma wp_serve_connection requests fuel cfg keep_alive client (s : Handler) t :
  statuses_valid cfg ->
  wp (serve_connection (T := T) requests fuel cfg keep_alive client)
    (fun r _ t' => conversed client keep_alive t r t') s t.
Proof.
  intros Hv. revert s t. induction requests as [|requests IH]; intros s t; cbn [serve_connection];
    wp_step; wp_step; (destruct (http_next t client) as [rq|];
      [|apply wp_ret; eexists [_]; split; [done|constructor]]);
    wp_step; (eapply wp_mono; [by apply wp_handle_quiet|]); intros [rs|e] s1 t1 (Hrs & l & -> & Hl);
    try (eexists (l ++ [_]); split; [by rewrite <- app_assoc|];
         rewrite conversation_app, (behind_hyper_silent client l Hl); cbn; rewrite Z.eqb_refl;
         apply order_stopped).
  all: wp_step; wp_step;
    set (rev := EvHttpRequest client (Some rq)); set (aev := EvHttpReply client rs);
    assert (Hc : conversation client (aev :: l ++ [rev]) = [inl rq; inr rs])
      by (cbn; rewrite conversation_app, (behind_hyper_silent client l Hl); cbn; by rewrite Z.eqb_refl).
  all: destruct keep_alive.
  2, 4: apply wp_ret; exists (aev :: l ++ [rev]); split;
    [cbn; by rewrite <- app_assoc|rewrite Hc; by apply order_last].
  - apply wp_fail. exists (aev :: l ++ [rev]). split; [cbn; by rewrite <- app_assoc|].
    rewrite Hc. by apply order_bound.
  - eapply wp_mono; [apply IH|]. intros r s2 t2 (l2 & -> & Hr).
    exists (l2 ++ aev :: l ++ [rev]). split; [by cbn; rewrite <- !app_assoc, <- app_comm_cons, <- app_assoc|].
    rewrite conversation_app, Hc. by apply order_next.
Qed.


End Connections.

(** ** The process *)
Section Process.
Context `{Env} `{HttpLib} `{HyperServer} {CD CR T K : Type}.
Context `{TtlCacheLaws bytes IpAddr CD} `{TtlCacheLaws bytes CacheEntry CR} `{SemaphoreLaws T}.
Context `{KvStore bytes (Pool T) K, !KvStoreLaws bytes (Pool T) K}.

Abbreviation Handler := (HttpState CD CR K).
Abbreviation Process := (HttpProcess CD CR K).

(** A worker-start hook that leaves validation on and dials nothing blocked. *)
Definition hook_ok (config : HttpConfig CD CR) : Prop :=
  match hp_worker_start config with
  | Some hook => forall id r t r' t', hook id r t = (r', t') -> dial_inv r t -> dial_inv r' t'
  | None => True
  end.

Definition process_inv (p : Process) (t : trace) : Prop :=
  dns_inv (ht_dns p) t
  /\ Forall (fun w => entries_ok is_vetted (wk_adapter w)
                      /\ a_skip_validation (wk_adapter w) = false) (ht_workers p)
  /\ Forall safe_dial t.

Lemma maintains_serve_connection requests fuel cfg keep_alive client :
  hc_fixed_backend cfg = None ->
  maintains http_inv (serve_connection (CD := CD) (CR := CR) (T := T) (K := K) requests fuel cfg keep_alive client).
Proof.
  intros Hf. assert (Hio : forall A (g : trace -> A) ev, (forall a, safe_dial (ev a)) ->
    maintains http_inv (io_event (S := Handler) (E := stop) g ev)).
  { intros A g ev Hev s t Hi. apply wp_io. eapply (dial_inv_events safe_dial); [done|exact Hi|].
    by apply extends_cons. }
  assert (Hok : forall A (r : result stop A), maintains http_inv (lift (S := Handler) r)) by by intros A r s t.
  induction requests as [|requests IH]; cbn [serve_connection];
    (apply maintains_bind; [by apply Hio|]); (intros [rq|]; [|apply (Hok _ (Ok tt))]);
    (apply maintains_bind; [by apply maintains_handle|]); intros rs;
    (apply maintains_bind; [by apply Hio|]); intros _; destruct keep_alive;
    first [apply (Hok _ (Ok tt)) | exact IH | apply (Hok _ (Err StopRunning))].
Qed.

Lemma maintains_worker_round requests fuel config listener :
  hp_fixed_backend config = None ->
  maintains http_inv (worker_round (CD := CD) (CR := CR) (T := T) (K := K) requests fuel config listener).
Proof.
  intros Hf. assert (Hev : forall (s : Handler) t ev, http_inv s t -> no_dial ev -> http_inv s (ev :: t)).
  { intros s t ev Hi Hev. eapply (dial_inv_events no_dial); [apply no_dial_safe|exact Hi|].
    by apply extends_cons. }
  unfold worker_round, worker_accept. apply maintains_bind.
  - eapply maintains_inert; [exact Hev|]. inert_steps; done.
  - intros [client|]; [|by intros s t Hi].
    apply maintains_bind; [|by intros [?|[]] s t Hi]. apply maintains_attempt.
    apply maintains_closing; [|by apply maintains_serve_connection].
    intros s t Hi. by apply Hev.
Qed.

Lemma wp_on_worker {E A} (P : result E A -> Prop) i w (m : M Handler E A) (p : Process) t :
  process_inv p t -> ht_workers p !! i = Some w ->
  maintains http_inv m -> wp (on_worker i w m) (fun _ p' t' => process_inv p' t') p t.
Proof.
  intros (Hd & Hw & Ht) Hi Hm. pose proof (proj1 (Forall_lookup _ _) Hw _ _ Hi) as [He Hs].
  specialize (Hm (mkHttpState (mkRouting (wk_adapter w) (ht_dns p)) (wk_pools w)) t).
  unfold wp, on_worker in *. destruct (m _ t) as [[r x] t'].
  destruct Hm as [(Hd' & He' & Hs') Ht']; [by repeat split|].
  split; [done|]. split; [|done]. cbn. by apply Forall_insert.
Qed.

Lemma wp_spawn_worker {E} resolver config worker (p : Process) t :
  hp_skip_validation config = false -> hook_ok config -> process_inv p t ->
  wp (spawn_worker (E := E) resolver config worker) (fun _ p' t' => process_inv p' t') p t.
Proof.
  intros Hskip Hhook (Hd & Hw & Ht). unfold wp, spawn_worker, worker_setup, worker_adapter, hook_ok in *.
  rewrite Hskip. set (r1 := mkRouting _ _).
  assert (Hi : dial_inv r1 t).
  { split; [|done]. split; [done|]. split; [|done]. intros k e n Hh. by apply cache_new_empty in Hh. }
  assert (Hend : forall r t', dial_inv r t' ->
    process_inv (mkHttpProcess (ht_workers p ++ [mkWorker (snd worker) (r_adapter r) kv_empty]) (r_dns r)) t').
  { intros r t' [(Hd' & He' & Hs') Ht']. split; [done|]. split; [|done]. cbn.
    apply Forall_app. split; [done|]. by repeat constructor. }
  destruct (hp_worker_start config) as [hook|]; [|by apply Hend].
  destruct (hook (fst worker) _ t) as [r2 t2] eqn:Eh. apply Hend. by eapply Hhook.
Qed.

(** What the process does: a worker is spawned on its listener, a worker takes
    a round, other tasks do I/O other than dialling (binding listeners among
    it). *)
Inductive process_step requests fuel resolver (config : HttpConfig CD CR)
  : Process * trace -> Process * trace -> Prop :=
| pstep_spawn worker p t r p' t' :
    spawn_worker (E := io_error) resolver config worker p t = (r, p', t') ->
    process_step requests fuel resolver config (p, t) (p', t')
| pstep_round i p t r p' t' :
    process_round (T := T) requests fuel config i p t = (r, p', t') ->
    process_step requests fuel resolver config (p, t) (p', t')
| pstep_other ev p t : no_dial ev -> process_step requests fuel resolver config (p, t) (p, ev :: t).

Definition process_initial : Process := mkHttpProcess [] dns_initial.

Lemma process_inv_initial : process_inv process_initial [].
Proof. split; [apply dns_inv_initial|]. by split. Qed.

Lemma process_inv_step requests fuel resolver config st st' :
  hp_fixed_backend config = None -> hp_skip_validation config = false -> hook_ok config ->
  process_inv st.1 st.2 -> process_step requests fuel resolver config st st' -> process_inv st'.1 st'.2.
Proof.
  intros Hf Hskip Hhook Hi Hstep. destruct Hstep as [worker p t r p' t' E|i p t r p' t' E|ev p t Hev]; cbn in *.
  - exact (wp_run _ _ _ _ _ _ _ (wp_spawn_worker (E := io_error) resolver config worker p t Hskip Hhook Hi) E).
  - assert (W : wp (process_round (T := T) requests fuel config i) (fun _ p' t' => process_inv p' t') p t).
    { unfold process_round. wp_step. wp_step.
      destruct (ht_workers p !! i) as [w|] eqn:Ew; [|by apply wp_ret].
      eapply (wp_on_worker (fun _ => True)); [exact Hi|exact Ew|by apply maintains_worker_round]. }
    exact (wp_run _ _ _ _ _ _ _ W E).
  - destruct Hi as (Hd & Hw & Ht). split; [by apply dns_inv_cons|]. split; [done|].
    constructor; [by apply no_dial_safe|done].
Qed.

(** [HttpServer::start] is a path of the process, whether it succeeds or
    not. *)
Lemma inert_start {S} (P : event -> Prop) (config : HttpConfig CD CR) :
  (forall c r, (forall l, c <> Accept l) -> P (EvCall c r)) -> (forall s, P (EvClose s)) ->
  inert P (HttpServer.start (S := S) config).
Proof.
  intros Hcall Hclose. unfold HttpServer.start.
  destruct (parse_socket_addr _) as [address|]; [|apply inert_fail].
  cbv zeta. generalize (seq 0 (Z.to_nat (Z.max (hp_workers config) 1))). intros ids.
  induction ids as [|id ids IH]; cbn [bind_workers]; [apply inert_ret|].
  apply inert_bind; [unfold worker_listener, bind_reuse_port, tokio_bind, or_drop; inert_steps; auto; intros ?; by apply Hcall|].
  intros l. apply inert_bind; [exact IH|]. intros others. apply inert_ret.
Qed.

Lemma process_other requests fuel resolver config (p : Process) t t' :
  extends no_dial t t' -> rtc (process_step requests fuel resolver config) (p, t) (p, t').
Proof.
  intros (l & -> & Hl). induction Hl as [|ev l Hev _ IH]; [done|].
  eapply rtc_r; [exact IH|]. by apply pstep_other.
Qed.

Lemma start_http_steps requests fuel resolver config r (p' : Process) t t' p :
  start_http resolver config p t = (r, p', t') ->
  rtc (process_step requests fuel resolver config) (p, t) (p', t').
Proof.
  unfold start_http, bind.
  destruct (inert_start (S := Process) no_dial config ltac:(done) ltac:(done) p t) as [Hp He].
  destruct (HttpServer.start config p t) as [[[listeners|e] p1] t1]; cbn in He, Hp; subst p1.
  2: { intros [= _ <- <-]. by apply process_other. }
  intros Hs. etrans; [by apply process_other|]. clear He. revert p t1 Hs.
  induction listeners as [|w rest IH]; intros p t1 Hs; cbn [spawn_workers] in Hs.
  { injection Hs as _ <- <-. done. }
  unfold bind in Hs. destruct (spawn_worker (E := io_error) resolver config w p t1) as [[r1 p2] t2] eqn:E.
  eapply rtc_l; [by eapply pstep_spawn|].
  destruct r1 as [[]|e]; [by apply IH|]. by injection Hs as _ <- <-.
Qed.

(** SSRF safety of the whole HTTP proxy.  From the start of the process,
    however its workers are spawned, whatever connections they accept, whatever
    requests hyper reads on them and whatever the resolver, the DNS and the
    backends answer, a server that validates and has no fixed backend never
    dials a host that is the literal of a blocked address; a worker-start hook
    is only required to leave validation on. *)
Theorem http_process_never_dials_blocked requests fuel resolver config (p : Process) t host port res :
  hp_fixed_backend config = None -> hp_skip_validation config = false -> hook_ok config ->
  rtc (process_step requests fuel resolver config) (process_initial, []) (p, t) ->
  EvConnect host port res ∈ t ->
  forall ip, parse_ipaddr host = Some ip -> is_blocked_ip ip = false.
Proof.
  intros Hf Hskip Hhook Hr Hin.
  assert (Hend : forall st st', process_inv st.1 st.2 ->
            rtc (process_step requests fuel resolver config) st st' -> process_inv st'.1 st'.2).
  { intros st st' Hi Hst. induction Hst as [|? ? ? Hs _ IH]; [done|]. by eapply IH, process_inv_step. }
  destruct (Hend (process_initial, []) (p, t) process_inv_initial Hr) as (_ & _ & Ht).
  rewrite Forall_forall in Ht. exact (Ht _ Hin).
Qed.
End Process.

(** ** Witnesses *)

(** Two requests for example.com on each connection; the backend refuses to be
    dialled. *)
Definition workers_env : Env :=
  one_host_env (B "example.com") [V4 (mkIpv4 (chr 93) (chr 184) (chr 216) (chr 34))].
Definition workers_hyper : HyperServer := {|
  http_next t client :=
    if (List.length (conversation client t) <? 4)%nat
    then Some (http_example_request (B "example.com")) else None |}.
#[local] Existing Instances workers_env workers_hyper http_example_lib.

Lemma workers_lib_laws : HttpLibLaws.
Proof. split; vm_compute; reflexivity. Qed.
#[local] Existing Instance workers_lib_laws.

Definition workers_config : HttpConfig dns_example_cache (AssocCache bytes CacheEntry) :=
  http_with_workers 2 (http_config_default None).
Abbreviation ExProcess := (HttpProcess dns_example_cache (AssocCache bytes CacheEntry) (gmap bytes (Pool nat))).

Definition workers_started := start_http (T := nat) (Some http_example_resolver) workers_config
                                (process_initial : ExProcess) [].
Definition workers_served := process_round (T := nat) 10 10 workers_config 1 workers_started.1.2 workers_started.2.

Lemma http_process_never_dials_blocked_witness :
  EvConnect (B "93.184.216.34") 80 Elapsed ∈ workers_served.2
  /\ forall ip, parse_ipaddr (B "93.184.216.34") = Some ip -> is_blocked_ip ip = false.
Proof.
  assert (Hin : EvConnect (B "93.184.216.34") 80 Elapsed ∈ workers_served.2).
  { apply list_elem_of_In. vm_compute. tauto. }
  split; [exact Hin|].
  refine (http_process_never_dials_blocked (T := nat) 10 10 (Some http_example_resolver) workers_config
            workers_served.1.2 workers_served.2 _ _ _ eq_refl eq_refl I _ Hin).
  eapply rtc_r.
  - apply (start_http_steps (T := nat) 10 10 (Some http_example_resolver) workers_config workers_started.1.1).
    vm_compute. reflexivity.
  - apply (pstep_round _ _ _ _ 1 _ _ workers_served.1.1). vm_compute. reflexivity.
Defined.

Definition workers_handler : HttpState dns_example_cache (AssocCache bytes CacheEntry) (gmap bytes (Pool nat)) :=
  http_example_state.
Definition connection_run :=
  serve_connection (T := nat) 10 10 http_example_config true 5 workers_handler [].

(** No backend of this environment answers, and there is no custom handler. *)
Lemma workers_statuses : statuses_valid http_example_config.
Proof.
  split; [|discriminate]. intros t s rq body st hs E. injection E as <- <-. vm_compute. reflexivity.
Qed.


Definition status_run := handle (T := nat) 10 http_example_config (http_example_request (B "example.com"))
                           workers_handler [].

