(* ===== verification/HttpConcurrency.v ===== *)
(** * HttpConcurrency: many HTTP requests at once.

    The connections of a worker's clients share its adapter and its pools of
    backend connections; all workers share the DNS cache.  The programs below
    are those of HttpPool, HttpHandler and HttpWorkers cut at every access to
    shared state and every I/O operation; what they do under every interleaving
    is proved here: which backends are dialled, on whose connection a request
    is sent, and whose reply a client gets. *)

From S2P Require Import Prelude Text Net Protocol Resolver World Stores Dns Adapter Ssrf Routing.
From S2P Require Import Interleave RoutingConcurrency.
From S2P Require Import TcpAdapter TcpConfig HttpHost HttpPool HttpPoolBounds HttpHandler HttpGuarantees HttpServer HttpWorkers.
Open Scope Z_scope.
Open Scope prog_scope.

(** ** The pool's programs *)
Section PoolProgs.
Context `{Env} `{HttpLib} {T K : Type} `{Semaphore T} `{KvStore bytes (Pool T) K}.

Definition connect_prog {S} (endpoint : bytes) (connect_timeout : Z) : prog S ProxyError Client :=
  match split_authority endpoint with
  | Err e => pure (Err (PBackendConnect (io_message e)))
  | Ok (host, port) =>
      r <~ atom (io_connect host port connect_timeout) ;;
      match r with
      | Elapsed =>
          pure (Err (PBackendConnect (B "connect to " ++ endpoint ++ B " timed out after "
                                      ++ debug_duration connect_timeout)))
      | Done (Err e) => pure (Err (PBackendConnect (io_message e)))
      | Done (Ok stream) =>
          r <~ pending [io_close stream] (io_nodelay stream) ;;
          match r with
          | Err e => unwind [io_close stream] ~;; pure (Err (PBackendConnect (io_message e)))
          | Ok _ =>
              r <~ pending [io_close stream] (io_http_handshake stream) ;;
              match r with
              | Err e => unwind [io_close stream] ~;; pure (Err (PBackendConnect (io_message e)))
              | Ok _ => pure (Ok (mkClient stream true))
              end
          end
      end
  end.

(** Waiting for a permit: others may release one, so it is tried again, up to
    [patience] times before the timeout. *)
Fixpoint wait_permit {E} (patience : nat) (name : bytes) : prog K E bool :=
  granted <~ atom (acquire_permit (T := T) name) ;;
  if granted : bool then pure (Ok true)
  else match patience with
       | O => pure (Ok false)
       | Datatypes.S patience' => wait_permit patience' name
       end.

(** The destructor of a permit. *)
Definition permit_guard (name : bytes) : destructors K := [on_pool (T := T) name (fun _ => drop_permit)].

Definition acquire_prog (patience : nat) (name : bytes) (connect_timeout : Z)
  : prog K ProxyError PooledClient :=
  permit <~ wait_permit patience name ;;
  let held := if permit : bool then permit_guard name else [] in
  reused <~ guarded held (if permit : bool then atom (reuse_idle (T := T) name) else pure (Ok None)) ;;
  match reused with
  | Some c => pure (Ok (mkPooledClient (Some name) (Some name) c))
  | None =>
      r <~ pattempt (guarded held (connect_prog name connect_timeout)) ;;
      match r with
      | Ok c =>
          pure (Ok (mkPooledClient (if permit : bool then Some name else None)
                      (if permit : bool then Some name else None) c))
      | Err e => unwind held ~;; pure (Err e)
      end
  end.

(** Dropping a [PooledClient]: the client first, then the permit. *)
Definition give_back {E} (c : PooledClient) : M K E unit := fun pools t =>
  match pc_pool c with
  | Some name =>
      let '(r, pools', t') := on_pool (T := T) name (fun t => release t (pc_client c)) pools t in
      (r, pools', if is_healthy t (pc_client c) then t' else EvClose (cl_sender (pc_client c)) :: t')
  | None => (Ok tt, pools, EvClose (cl_sender (pc_client c)) :: t)
  end.
Definition pooled_guard (c : PooledClient) : destructors K :=
  give_back c :: match pc_permit c with Some name => permit_guard name | None => [] end.
Definition drop_pooled_prog {E} (c : PooledClient) : prog K E unit := unwind (pooled_guard c).
End PoolProgs.

(** ** The handler's programs *)
Section HandlerProgs.
Context `{Env} `{HttpLib} `{HyperServer} {CD CR T K : Type}.
Context `{TtlCache bytes IpAddr CD} `{TtlCache bytes CacheEntry CR} `{Semaphore T}.
Context `{KvStore bytes (Pool T) K}.

Abbreviation Handler := (HttpState CD CR K).

Definition exchange_prog (cfg : HandlerConfig) (client : sock) (rq : http_request) (host : bytes) (port : Z)
  : prog Handler (ProxyError * bool) http_response :=
  body <~ (if is_get_or_head rq then pure (Ok [])
           else
             r <~ atom io_http_request_body ;;
             match r with
             | Done (Ok b) => pure (Ok b)
             | Done (Err e) =>
                 pure (Err (POther (B "failed to read request body: " ++ io_message e), false))
             | Elapsed =>
                 pure (Err (POther (B "reading request body timed out after "
                                    ++ debug_duration (hc_timeout cfg)), false))
             end) ;;
  let outbound := outbound_request rq host port in
  pure (map_err (fun e => (POther (B "build outbound request: " ++ e), false))
          (request_builds outbound)) ~;;
  r <~ awaiting (EvHttpSend client outbound body Elapsed) (io_http_send client outbound body) ;;
  reply <~ match r with
           | Done (Ok reply) => pure (Ok reply)
           | Done (Err e) => pure (Err (PBackendConnect (io_message e), true))
           | Elapsed => pure (Err (POther (B "backend request timed out after "
                                           ++ debug_duration (hc_timeout cfg)), true))
           end ;;
  let '(status, hs) := reply in
  r <~ awaiting (EvHttpResponseBody client Elapsed) (io_http_response_body client) ;;
  reply <~ match r with
           | Done (Ok b) => pure (Ok b)
           | Done (Err e) => pure (Err (POther (B "reading backend body failed: " ++ io_message e), true))
           | Elapsed => pure (Err (POther (B "reading backend body timed out after "
                                           ++ debug_duration (hc_timeout cfg)), true))
           end ;;
  pure (Ok (mkHttpResponse (if hc_fast_path_assume_ok cfg then 200 else status) (relayed_headers hs) reply)).

Definition forward_request_prog (patience : nat) (cfg : HandlerConfig) (rq : http_request) (endpoint : bytes)
  : prog Handler ProxyError http_response :=
  let '(host, port) := parse_endpoint endpoint 80 in
  let authority := host_port host port in
  name <~ pzoom hs_pools hs_set_pools (atom (get_or_create (T := T) authority (hc_pool_size cfg))) ;;
  pooled <~ pzoom hs_pools hs_set_pools (acquire_prog (T := T) patience name (hc_connect_timeout cfg)) ;;
  r <~ pattempt (guarded (map (zoom hs_pools hs_set_pools) (pooled_guard (T := T) pooled))
                   (exchange_prog cfg (cl_sender (pc_client pooled)) rq host port)) ;;
  match r with
  | Ok response =>
      pzoom hs_pools hs_set_pools (drop_pooled_prog (T := T) pooled) ~;;
      pure (Ok response)
  | Err (e, invalidated) =>
      pzoom hs_pools hs_set_pools
        (drop_pooled_prog (T := T) (if invalidated : bool then invalidate pooled else pooled)) ~;;
      pure (Err e)
  end.

Definition read_more_prog (stream : sock) (max : nat) (on_eof : bytes) : prog Handler stop bytes :=
  r <~ atom (io_read stream max) ;;
  match r with
  | Done (Ok []) => pure (Err (StopError (POther on_eof)))
  | Done (Ok data) => pure (Ok data)
  | Done (Err e) => pure (Err (StopError (POther (B "read failed: " ++ io_message e))))
  | Elapsed => pure (Err (StopError (POther (B "read timed out"))))
  end.

Fixpoint read_head_prog (fuel : nat) (stream : sock) (buffer : bytes) : prog Handler stop (nat * bytes) :=
  match find_subslice buffer HEADER_END with
  | Some position => pure (Ok (position + 4, buffer)%nat)
  | None =>
      match fuel with
      | O => pure (Err StopRunning)
      | Datatypes.S fuel' =>
          data <~ read_more_prog stream 8192 (B "backend closed before headers") ;;
          read_head_prog fuel' stream (buffer ++ data)
      end
  end.

Fixpoint read_body_prog (fuel : nat) (stream : sock) (total : nat) (body : bytes) : prog Handler stop bytes :=
  if bool_decide (List.length body < total)%nat then
    match fuel with
    | O => pure (Err StopRunning)
    | Datatypes.S fuel' =>
        data <~ read_more_prog stream (Nat.min (total - List.length body) 8192)
                  (B "backend closed mid-body") ;;
        read_body_prog fuel' stream total (body ++ data)
    end
  else pure (Ok body).

Definition build_response_prog (status : Z) (h : raw_head) (body : bytes) : prog Handler stop http_response :=
  if rh_bad h then pure (Err (StopError (POther (B "build response: " ++ response_build_error))))
  else pure (Ok (mkHttpResponse status (rh_headers h) body)).

Definition raw_exchange_prog (fuel : nat) (cfg : HandlerConfig) (rq : http_request)
    (host : bytes) (port : Z) (stream : sock) : prog Handler stop http_response :=
  r <~ atom (io_nodelay stream) ;;
  pure (map_err (fun e => StopError (PBackendConnect (io_message e))) r) ~;;
  r <~ awaiting (EvWrite stream (raw_request_text rq host port) Elapsed)
         (io_write stream (raw_request_text rq host port)) ;;
  match r with
  | Elapsed => pure (Err (StopError (POther (B "write request timed out: " ++ elapsed_text))))
  | Done _ =>
      read <~ read_head_prog fuel stream [] ;;
      let '(header_end, buffer) := read in
      let header_bytes := take (header_end - 4) buffer in
      let rest := drop header_end buffer in
      match from_utf8 header_bytes with
      | None => pure (Err (StopError (POther (B "non-utf8 header"))))
      | Some _ =>
          match split_crlf header_bytes with
          | [] => pure (Err (StopError (POther (B "missing status line"))))
          | status_line :: lines =>
              let status_code := unwrap_or 200 (parse_status_line status_line) in
              let status := if hc_raw_backend_assume_ok cfg then 200
                            else if status_ok status_code then status_code else 200 in
              let h := fold_left raw_header_line lines (mkRawHead [] false None false) in
              match rh_content_length h with
              | Some total =>
                  if rh_chunked h then build_response_prog status h rest
                  else if negb (capacity_ok total) then pure (Err StopPanic)
                  else
                    body <~ read_body_prog (Z.to_nat total) stream (Z.to_nat total) rest ;;
                    build_response_prog status h body
              | None => build_response_prog status h rest
              end
          end
      end
  end.

(** A stream is closed when the program that owns it is over, or dropped. *)
Definition closing_prog {S A} (s : sock) (p : prog S stop A) : prog S stop A :=
  r <~ pattempt (guarded [io_close s] p) ;;
  match r with
  | Err StopRunning => pure r
  | _ => unwind [io_close s] ~;; pure r
  end.

Definition forward_raw_request_prog (patience fuel : nat) (cfg : HandlerConfig) (rq : http_request)
    (endpoint : bytes) : prog Handler stop http_response :=
  if negb (is_get_or_head rq) then pwith_err StopError (forward_request_prog patience cfg rq endpoint)
  else
    let '(host, port) := parse_endpoint endpoint 80 in
    let authority := host_port host port in
    match split_authority authority with
    | Err e => pure (Err (StopError (PBackendConnect (io_message e))))
    | Ok (dial_host, dial_port) =>
        r <~ atom (io_connect dial_host dial_port (hc_connect_timeout cfg)) ;;
        match r with
        | Elapsed =>
            pure (Err (StopError (PBackendConnect (B "connect to " ++ authority ++ B " timed out"))))
        | Done (Err e) => pure (Err (StopError (PBackendConnect (io_message e))))
        | Done (Ok stream) => closing_prog stream (raw_exchange_prog fuel cfg rq host port stream)
        end
    end.

Definition choose_endpoint_prog (cfg : HandlerConfig) (rq : http_request)
  : prog Handler stop (result http_response bytes) :=
  match hc_fixed_backend cfg with
  | Some endpoint => pure (Ok (Ok endpoint))
  | None =>
      match extract_host rq with
      | Err response => pure (Ok (Err response))
      | Ok host =>
          r <~ pattempt (pzoom hs_routing hs_set_routing (route_prog host)) ;;
          match r with
          | Ok cr => pure (Ok (Ok (cr_endpoint cr)))
          | Err e => pure (Ok (Err (resolver_error_response e)))
          end
      end
  end.

(** A user-supplied handler sees the history, and answers in one step. *)
Definition call_handler (handler : RequestHandler) (rq : http_request) : M Handler stop http_response :=
  fun s t => match handler t rq with
             | Ok response => (Ok response, s, t)
             | Err _ => (Ok (text_response 500 (B "Internal Server Error")), s, t)
             end.

Definition handle_prog (patience fuel : nat) (cfg : HandlerConfig) (rq : http_request)
  : prog Handler stop http_response :=
  match hc_request_handler cfg with
  | Some handler => atom (call_handler handler rq)
  | None =>
      match hc_direct_response cfg with
      | Some body =>
          pure (Ok (text_response (if status_ok (hc_direct_response_status cfg)
                                   then hc_direct_response_status cfg else 200) body))
      | None =>
          chosen <~ choose_endpoint_prog cfg rq ;;
          match chosen with
          | Err response => pure (Ok response)
          | Ok endpoint =>
              r <~ pattempt (if hc_raw_backend cfg
                             then forward_raw_request_prog patience fuel cfg rq endpoint
                             else pwith_err StopError (forward_request_prog patience cfg rq endpoint)) ;;
              match r with
              | Ok response => pure (Ok response)
              | Err (StopError _) => pure (Ok service_unavailable)
              | Err other => pure (Err other)
              end
          end
      end
  end.

Fixpoint serve_connection_prog (patience requests fuel : nat) (cfg : HandlerConfig) (keep_alive : bool)
    (client : sock) : prog Handler stop unit :=
  rq <~ atom (io_event (fun t => http_next t client) (EvHttpRequest client)) ;;
  match rq with
  | None => pure (Ok tt)
  | Some rq =>
      response <~ handle_prog patience fuel cfg rq ;;
      atom (io_event (fun _ => tt) (fun _ => EvHttpReply client response)) ~;;
      if keep_alive then
        match requests with
        | O => pure (Err StopRunning)
        | Datatypes.S requests' => serve_connection_prog patience requests' fuel cfg keep_alive client
        end
      else pure (Ok tt)
  end.

Definition serve_client_prog (patience requests fuel : nat) (config : HttpConfig CD CR) (client : sock)
  : prog Handler stop unit :=
  closing_prog client
    (serve_connection_prog patience requests fuel (handler_config config)
       (hp_http2_protocol config || hp_keep_alive config) client).

(** A round of a worker: several of its rounds may be under way at once. *)
Definition worker_accept_prog {S E} (listener : sock) : prog S E (option sock) :=
  r <~ atom (io_call (Accept listener)) ;;
  match r with
  | Ok stream => pending [io_close stream] (io_nodelay stream) ~;; pure (Ok (Some stream))
  | Err _ => pure (Ok None)
  end.

Definition worker_round_prog (patience requests fuel : nat) (config : HttpConfig CD CR) (listener : sock)
  : prog Handler stop unit :=
  accepted <~ worker_accept_prog listener ;;
  match accepted with
  | None => pure (Ok tt)
  | Some client =>
      r <~ pattempt (E := stop) (F := stop) (serve_client_prog patience requests fuel config client) ;;
      match r with
      | Err StopRunning => pure (Err StopRunning)
      | _ => pure (Ok tt)
      end
  end.

(** What a worker's handler sees of the process. *)
Definition worker_state (i : nat) (p : HttpProcess CD CR K) : Handler :=
  match ht_workers p !! i with
  | Some w => mkHttpState (mkRouting (wk_adapter w) (ht_dns p)) (wk_pools w)
  | None => mkHttpState (mkRouting (adapter_new None Http) (ht_dns p)) kv_empty
  end.
Definition set_worker_state (i : nat) (x : Handler) (p : HttpProcess CD CR K) : HttpProcess CD CR K :=
  mkHttpProcess
    (alter (fun w => mkWorker (wk_listener w) (r_adapter (hs_routing x)) (hs_pools x)) i (ht_workers p))
    (r_dns (hs_routing x)).

Definition process_round_prog (patience requests fuel : nat) (config : HttpConfig CD CR) (i : nat)
  : prog (HttpProcess CD CR K) stop unit :=
  found <~ read_field (fun p : HttpProcess CD CR K => option_map wk_listener (ht_workers p !! i)) ;;
  match found with
  | None => pure (Ok tt)
  | Some listener =>
      pzoom (worker_state i) (set_worker_state i) (worker_round_prog patience requests fuel config listener)
  end.
End HandlerProgs.

(** ** Alone, the cut programs are the sequential ones *)
Section PoolAlone.
Context `{Env} `{HttpLib} {T K : Type} `{Semaphore T} `{KvStore bytes (Pool T) K}.

Lemma run_connect_prog {S} endpoint lim : run (connect_prog (S := S) endpoint lim) ≗ connect endpoint lim.
Proof. unfold connect_prog, connect. destruct (split_authority endpoint) as [[host port]|e]; repeat run_step; done. Qed.

Lemma run_wait_permit {E} patience name :
  run (wait_permit (E := E) (T := T) (K := K) patience name) ≗ acquire_permit name.
Proof.
  induction patience as [|n IH]; cbn [wait_permit]; rewrite run_pbind, run_atom;
    intros pools t; unfold bind, acquire_permit; destruct (kv_get pools name) as [p|] eqn:Ep.
  - by destruct (try_permit p).
  - done.
  - destruct (try_permit p) eqn:Et; [done|]. rewrite IH. unfold acquire_permit. by rewrite Ep, Et.
  - rewrite IH. unfold acquire_permit. by rewrite Ep.
Qed.

(** Releasing a permit, and giving a client back, as destructors. *)
Lemma run_permit_guard {E} name :
  run (unwind (E := E) (permit_guard (T := T) (K := K) name)) ≗ on_pool name (fun _ => drop_permit).
Proof.
  unfold permit_guard. rewrite run_unwind_one. intros pools t. unfold infallible, with_err, on_pool.
  by destruct (kv_get pools name).
Qed.
Lemma infallible_give_back {E} c : infallible (E := E) (give_back (T := T) (K := K) c) ≗ give_back c.
Proof.
  intros pools t. unfold infallible, with_err, give_back, on_pool. destruct (pc_pool c) as [name|]; [|done].
  by destruct (kv_get pools name).
Qed.

Lemma run_acquire_prog patience name lim :
  run (acquire_prog (T := T) (K := K) patience name lim) ≗ acquire name lim.
Proof.
  unfold acquire_prog, acquire. apply run_call; [apply run_wait_permit|]. intros permit.
  apply run_call; [destruct permit; [rewrite run_guarded; apply run_atom|done]|]. intros [c|]; [done|].
  apply run_call; [by rewrite run_pattempt, run_guarded, run_connect_prog|]. intros [c|e]; [done|].
  apply run_call; [destruct permit; [apply run_permit_guard|done]|done].
Qed.

Lemma run_drop_pooled_prog {E} c : run (drop_pooled_prog (E := E) (T := T) (K := K) c) ≗ drop_pooled c.
Proof.
  unfold drop_pooled_prog, pooled_guard. rewrite run_unwind_cons, infallible_give_back.
  apply bind_proper; [done|]. intros _. destruct (pc_permit c); [apply run_permit_guard|done].
Qed.
End PoolAlone.

Section HandlerAlone.
Context `{Env} `{HttpLib} `{HyperServer} {CD CR T K : Type}.
Context `{TtlCache bytes IpAddr CD} `{TtlCache bytes CacheEntry CR} `{Semaphore T}.
Context `{KvStore bytes (Pool T) K}.

Abbreviation Handler := (HttpState CD CR K).

Lemma pools_lens : lens (hs_pools (CD := CD) (CR := CR) (K := K)) hs_set_pools.
Proof. split; [done|done|done|by intros []]. Qed.
Lemma routing_lens : lens (hs_routing (CD := CD) (CR := CR) (K := K)) hs_set_routing.
Proof. split; [done|done|done|by intros []]. Qed.

Lemma run_on_pools {E A} (q : prog K E A) (m : M K E A) :
  run q ≗ m -> run (pzoom (hs_pools (CD := CD) (CR := CR)) hs_set_pools q) ≗ zoom hs_pools hs_set_pools m.
Proof. intros Hq. by rewrite (run_pzoom _ _ _ pools_lens), Hq. Qed.

Lemma run_exchange_prog cfg client rq host port :
  run (exchange_prog (CD := CD) (CR := CR) (K := K) cfg client rq host port)
  ≗ exchange cfg client rq host port.
Proof.
  unfold exchange_prog, exchange. apply run_call.
  { destruct (is_get_or_head rq); [done|]. by repeat run_step. }
  intros body. apply run_pure_bind. intros _. run_step.
  apply run_call; [by repeat run_step|]. intros [status hs]. run_step.
  apply run_call; [by repeat run_step|]. done.
Qed.

Lemma run_forward_request_prog patience cfg rq endpoint :
  run (forward_request_prog (CD := CD) (CR := CR) (T := T) (K := K) patience cfg rq endpoint)
  ≗ forward_request cfg rq endpoint.
Proof.
  unfold forward_request_prog, forward_request. destruct (parse_endpoint endpoint 80) as [host port].
  apply run_call; [apply run_on_pools, run_atom|]. intros name.
  apply run_call; [apply run_on_pools, run_acquire_prog|]. intros pooled.
  apply run_call; [by rewrite run_pattempt, run_guarded, run_exchange_prog|].
  intros [response|[e invalidated]]; (apply run_call; [apply run_on_pools, run_drop_pooled_prog|done]).
Qed.

Lemma run_read_more_prog stream max eof :
  run (read_more_prog (CD := CD) (CR := CR) (K := K) stream max eof) ≗ read_more stream max eof.
Proof. unfold read_more_prog, read_more, stop_with. repeat run_step; done. Qed.

Lemma run_read_head_prog fuel stream buffer :
  run (read_head_prog (CD := CD) (CR := CR) (K := K) fuel stream buffer) ≗ read_head fuel stream buffer.
Proof.
  revert buffer. induction fuel as [|fuel IH]; intros buffer; cbn [read_head_prog read_head];
    destruct (find_subslice buffer HEADER_END); [done|done|done|].
  apply run_call; [apply run_read_more_prog|]. intros data. apply IH.
Qed.

Lemma run_read_body_prog fuel stream total body :
  run (read_body_prog (CD := CD) (CR := CR) (K := K) fuel stream total body) ≗ read_body fuel stream total body.
Proof.
  revert body. induction fuel as [|fuel IH]; intros body; cbn [read_body_prog read_body];
    case_bool_decide; [done|done| |done].
  apply run_call; [apply run_read_more_prog|]. intros data. apply IH.
Qed.

Lemma run_build_response_prog status h body :
  run (build_response_prog (CD := CD) (CR := CR) (K := K) status h body) ≗ build_response status h body.
Proof. unfold build_response_prog, build_response. by destruct (rh_bad h). Qed.

Lemma run_raw_exchange_prog fuel cfg rq host port stream :
  run (raw_exchange_prog (CD := CD) (CR := CR) (K := K) fuel cfg rq host port stream)
  ≗ raw_exchange fuel cfg rq host port stream.
Proof.
  unfold raw_exchange_prog, raw_exchange. do 3 run_step. destruct a1; [|done].
  apply run_call; [apply run_read_head_prog|]. intros [header_end buffer].
  destruct (from_utf8 _); [|done]. destruct (split_crlf _) as [|status_line lines]; [done|]. cbv zeta.
  destruct (rh_content_length _) as [total|]; [|apply run_build_response_prog].
  destruct (rh_chunked _); [apply run_build_response_prog|]. destruct (negb _); [done|].
  apply run_call; [apply run_read_body_prog|]. intros body. apply run_build_response_prog.
Qed.

Lemma run_closing_prog {S A} s (p : prog S stop A) : run (closing_prog s p) ≗ closing s (run p).
Proof.
  unfold closing_prog. rewrite run_pbind, run_pattempt, run_guarded. intros st t. unfold bind, attempt, closing.
  by destruct (run p st t) as [[[a|[]] st'] t'].
Qed.

#[export] Instance closing_proper {S A} (s : sock) : Proper (meq ==> meq) (closing (S := S) (A := A) s).
Proof. intros m1 m2 Hm st t. unfold closing. by rewrite Hm. Qed.

Lemma run_forward_raw_request_prog patience fuel cfg rq endpoint :
  run (forward_raw_request_prog (CD := CD) (CR := CR) (T := T) (K := K) patience fuel cfg rq endpoint)
  ≗ forward_raw_request fuel cfg rq endpoint.
Proof.
  unfold forward_raw_request_prog, forward_raw_request. destruct (negb _).
  { by rewrite run_pwith_err, run_forward_request_prog. }
  destruct (parse_endpoint endpoint 80) as [host port]. cbv zeta.
  destruct (split_authority _) as [[dial_host dial_port]|e]; [|done].
  run_step. destruct a as [[stream|e]|]; [|done|done].
  by rewrite run_closing_prog, run_raw_exchange_prog.
Qed.

Lemma run_choose_endpoint_prog cfg rq :
  run (choose_endpoint_prog (CD := CD) (CR := CR) (K := K) cfg rq) ≗ choose_endpoint cfg rq.
Proof.
  unfold choose_endpoint_prog, choose_endpoint. destruct (hc_fixed_backend cfg); [done|].
  destruct (extract_host rq) as [host|]; [|done].
  apply run_call; [by rewrite run_pattempt, (run_pzoom _ _ _ routing_lens), run_route_prog|].
  by intros [cr|e].
Qed.

Lemma run_handle_prog patience fuel cfg rq :
  run (handle_prog (CD := CD) (CR := CR) (T := T) (K := K) patience fuel cfg rq) ≗ handle fuel cfg rq.
Proof.
  unfold handle_prog, handle. destruct (hc_request_handler cfg); [apply run_atom|].
  destruct (hc_direct_response cfg); [done|].
  apply run_call; [apply run_choose_endpoint_prog|]. intros [endpoint|response]; [|done].
  apply run_call; [|by intros [response|[]]].
  rewrite run_pattempt. apply attempt_proper.
  destruct (hc_raw_backend cfg); [apply run_forward_raw_request_prog|].
  by rewrite run_pwith_err, run_forward_request_prog.
Qed.

Lemma run_serve_connection_prog patience requests fuel cfg keep_alive client :
  run (serve_connection_prog (CD := CD) (CR := CR) (T := T) (K := K) patience requests fuel cfg keep_alive client)
  ≗ serve_connection (T := T) requests fuel cfg keep_alive client.
Proof.
  induction requests as [|requests IH]; cbn [serve_connection_prog serve_connection];
    (run_step; destruct a as [rq|]; [|done]);
    (apply run_call; [apply run_handle_prog|]; intros response); run_step; by destruct keep_alive.
Qed.

Lemma run_serve_client_prog patience requests fuel config client :
  run (serve_client_prog (CD := CD) (CR := CR) (T := T) (K := K) patience requests fuel config client)
  ≗ serve_client (T := T) requests fuel config client.
Proof. unfold serve_client_prog, serve_client. by rewrite run_closing_prog, run_serve_connection_prog. Qed.

Lemma run_worker_accept_prog {S E} listener :
  run (worker_accept_prog (S := S) (E := E) listener) ≗ worker_accept listener.
Proof. unfold worker_accept_prog, worker_accept. repeat run_step; done. Qed.

Lemma run_worker_round_prog patience requests fuel config listener :
  run (worker_round_prog (CD := CD) (CR := CR) (T := T) (K := K) patience requests fuel config listener)
  ≗ worker_round (T := T) requests fuel config listener.
Proof.
  apply run_call; [apply run_worker_accept_prog|]. intros [client|]; [|done].
  apply run_call; [by rewrite run_pattempt, run_serve_client_prog|by intros [u|[]]].
Qed.

Lemma worker_lens i :
  lens_on (fun p => is_Some (ht_workers p !! i)) (worker_state (CD := CD) (CR := CR) (T := T) (K := K) i)
    (set_worker_state i).
Proof.
  unfold worker_state, set_worker_state. split; cbn.
  - intros x p. by rewrite list_lookup_alter_eq, fmap_is_Some.
  - intros [[a d] k] p [w Hw]. by rewrite list_lookup_alter_eq, Hw.
  - intros x y p _. f_equal. apply list_eq. intros j. destruct (decide (i = j)) as [<-|Hj].
    + rewrite !list_lookup_alter_eq. by destruct (ht_workers p !! i).
    + by rewrite !list_lookup_alter_ne.
  - intros [ws d] [w Hw]. cbn in *. rewrite Hw. f_equal.
    apply list_eq. intros j. destruct (decide (i = j)) as [<-|Hj].
    + rewrite list_lookup_alter_eq, Hw. by destruct w.
    + by rewrite list_lookup_alter_ne.
Qed.

Lemma zoom_on_worker {E A} i w (m : M Handler E A) (p : HttpProcess CD CR K) t :
  ht_workers p !! i = Some w ->
  zoom (worker_state (T := T) i) (set_worker_state i) m p t = on_worker i w m p t.
Proof.
  intros Hw. unfold zoom, on_worker, worker_state, set_worker_state. rewrite Hw.
  destruct (m _ t) as [[r x] t']. do 3 f_equal. apply list_eq. intros j.
  assert (Hi : (i < length (ht_workers p))%nat) by by eapply lookup_lt_Some.
  destruct (decide (i = j)) as [<-|Hj].
  - by rewrite list_lookup_alter_eq, Hw, list_lookup_insert_eq.
  - by rewrite list_lookup_alter_ne, list_lookup_insert_ne.
Qed.

Lemma run_process_round_prog patience requests fuel config i :
  run (process_round_prog (CD := CD) (CR := CR) (T := T) (K := K) patience requests fuel config i)
  ≗ process_round (T := T) requests fuel config i.
Proof.
  apply run_read_bind. intros p t. destruct (ht_workers p !! i) as [w|] eqn:Hw; cbn [option_map]; [|done].
  etrans; [apply (run_pzoom_on _ _ _ _ _ _ (worker_lens i)); by eexists|].
  rewrite (zoom_on_worker i w) by done. unfold on_worker. by rewrite run_worker_round_prog.
Qed.
End HandlerAlone.

(** ** Where requests and replies go *)
Section Confinement.
Context `{Env} `{HttpLib} (may_skip : bool) (cfg : HandlerConfig).
Implicit Types (t : trace).

(** [s] is a connection that was dialled to [authority]. *)
Definition dialled_for (authority : bytes) (s : sock) t : Prop :=
  exists host port, split_authority authority = Ok (host, port) /\ EvConnect host port (Done (Ok s)) ∈ t.

(** The request [rq] of [client] is for the backend [host]:[port]: the fixed
    one, or the one its own Host header was routed to. *)
Definition request_for (client : sock) (rq : http_request) (host : bytes) (port : Z) t : Prop :=
  EvHttpRequest client (Some rq) ∈ t
  /\ exists endpoint, parse_endpoint endpoint 80 = (host, port)
     /\ match hc_fixed_backend cfg with
        | Some fixed => endpoint = fixed
        | None => exists name, extract_host rq = Ok name /\ routed_from may_skip t name endpoint
        end.

(** [body] consists of pieces read from [s]. *)
Definition read_from (s : sock) (body : bytes) t : Prop :=
  exists chunks, body = concat chunks /\ Forall (fun data => chunk_from s data t) chunks.

(** A response made without a backend. *)
Definition own_response (rq : http_request) (rs : http_response) : Prop :=
  match hc_request_handler cfg with
  | Some handler =>
      (exists t, handler t rq = Ok rs) \/ rs = text_response 500 (B "Internal Server Error")
  | None =>
      match hc_direct_response cfg with
      | Some body => rs_body rs = body
      | None => extract_host rq = Err rs \/ (exists e, rs = resolver_error_response e)
                \/ rs = service_unavailable
      end
  end.

(** A response that came from the connection [s], to which [rq] was sent. *)
Definition pooled_response (s : sock) (out : http_request) (rs : http_response) t : Prop :=
  exists body status hs,
    EvHttpSend s out body (Done (Ok (status, hs))) ∈ t
    /\ EvHttpResponseBody s (Done (Ok (rs_body rs))) ∈ t
    /\ rs_headers rs = relayed_headers hs
    /\ rs_status rs = (if hc_fast_path_assume_ok cfg then 200 else status).
Definition raw_reply (s : sock) (text : bytes) (rs : http_response) t : Prop :=
  (exists r, EvWrite s text (Done r) ∈ t)
  /\ exists buffer n, read_from s buffer t /\ rs_body rs = drop n buffer.

Definition reply_of (client : sock) (rq : http_request) (rs : http_response) t : Prop :=
  own_response rq rs
  \/ exists host port s,
       request_for client rq host port t /\ dialled_for (host_port host port) s t
       /\ (pooled_response s (outbound_request rq host port) rs t
           \/ raw_reply s (raw_request_text rq host port) rs t).

Definition request_confined t (ev : event) : Prop :=
  match ev with
  | EvConnect host port _ =>
      exists client rq h p, request_for client rq h p t /\ split_authority (host_port h p) = Ok (host, port)
  | EvHttpSend s out _ _ =>
      exists client rq host port, request_for client rq host port t
        /\ dialled_for (host_port host port) s t /\ out = outbound_request rq host port
  | EvWrite s data _ =>
      exists client rq host port, request_for client rq host port t
        /\ dialled_for (host_port host port) s t /\ data = raw_request_text rq host port
  | EvHttpReply client rs =>
      exists rq, EvHttpRequest client (Some rq) ∈ t /\ reply_of client rq rs t
  | EvCopy _ _ => False
  | _ => True
  end.

(** All of this stays true as the history grows. *)
Ltac later_event := match goal with H : _ `suffix_of` _ |- _ => destruct H as [? ->]; set_solver end.

Lemma dialled_for_later name s t t' : t `suffix_of` t' -> dialled_for name s t -> dialled_for name s t'.
Proof. intros Ht (h & p & Hs & Hin). exists h, p. split; [done|]. later_event. Qed.

Lemma request_for_later client rq host port t t' :
  t `suffix_of` t' -> request_for client rq host port t -> request_for client rq host port t'.
Proof.
  intros Ht (Hin & endpoint & Hp & He). split; [later_event|]. exists endpoint. split; [done|].
  destruct (hc_fixed_backend cfg); [done|]. destruct He as (name & Hn & Hr). exists name.
  split; [done|by eapply routed_from_later].
Qed.

Lemma read_from_later s body t t' : t `suffix_of` t' -> read_from s body t -> read_from s body t'.
Proof.
  intros Ht (chunks & -> & Hc). exists chunks. split; [done|]. eapply Forall_impl; [exact Hc|].
  intros d. by apply chunk_from_later.
Qed.

Lemma pooled_response_later s out rs t t' :
  t `suffix_of` t' -> pooled_response s out rs t -> pooled_response s out rs t'.
Proof.
  intros Ht (body & status & hs & H1 & H2 & H3). exists body, status, hs.
  split; [later_event|]. split; [later_event|done].
Qed.

Lemma raw_reply_later s text rs t t' : t `suffix_of` t' -> raw_reply s text rs t -> raw_reply s text rs t'.
Proof.
  intros Ht ((r & Hw) & buffer & n & Hb & Hn). split; [exists r; later_event|].
  exists buffer, n. split; [by eapply read_from_later|done].
Qed.

Lemma reply_of_later client rq rs t t' :
  t `suffix_of` t' -> reply_of client rq rs t -> reply_of client rq rs t'.
Proof.
  intros Ht [?|(host & port & s & Hr & Hd & Hrs)]; [by left|]. right. exists host, port, s.
  split; [by eapply request_for_later|]. split; [by eapply dialled_for_later|].
  destruct Hrs as [Hp|Hw]; [left; by eapply pooled_response_later|right; by eapply raw_reply_later].
Qed.

Lemma request_confined_later ev t t' :
  t `suffix_of` t' -> request_confined t ev -> request_confined t' ev.
Proof.
  intros Ht. destruct ev; cbn; try done.
  - intros (c & q & h & p & Hr & Hs). exists c, q, h, p. split; [by eapply request_for_later|done].
  - intros (c & q & h & p & Hr & Hd & ->). exists c, q, h, p.
    split; [by eapply request_for_later|]. split; [by eapply dialled_for_later|done].
  - intros (c & q & h & p & Hr & Hd & ->). exists c, q, h, p.
    split; [by eapply request_for_later|]. split; [by eapply dialled_for_later|done].
  - intros (q & Hin & Hr). exists q. split; [later_event|by eapply reply_of_later].
Qed.

Lemma requests_confined_cons ev t :
  request_confined (ev :: t) ev -> Forall (request_confined t) t ->
  Forall (request_confined (ev :: t)) (ev :: t).
Proof.
  intros Hev Ht. constructor; [done|]. eapply Forall_impl; [exact Ht|].
  intros e. apply request_confined_later. by exists [ev].
Qed.

Lemma requests_confined_quiet t t' :
  extends routing_event t t' -> Forall (request_confined t) t -> Forall (request_confined t') t'.
Proof.
  intros (l & -> & Hl) Ht. induction Hl as [|ev l Hev _ IH]; [done|].
  cbn. apply requests_confined_cons; [by destruct ev|done].
Qed.
End Confinement.

(** ** The pools keep connections apart *)
Section Pools.
Context `{Env} `{HttpLib} {T K : Type} `{Semaphore T} `{KvStore bytes (Pool T) K, !KvStoreLaws bytes (Pool T) K}.
Context (may_skip : bool) (cfg : HandlerConfig).
Implicit Types (pools : K) (t : trace).

(** Every idle client of a pool was dialled to the pool's authority. *)
Definition pools_ok pools t : Prop :=
  forall name p, kv_get pools name = Some p ->
    Forall (fun c => dialled_for name (cl_sender c) t) (pl_idle p).

Definition pools_inv pools t : Prop := pools_ok pools t /\ Forall (request_confined may_skip cfg t) t.

Lemma pools_ok_later pools t t' : t `suffix_of` t' -> pools_ok pools t -> pools_ok pools t'.
Proof.
  intros Ht Hp name p Hn. eapply Forall_impl; [by apply (Hp name)|].
  intros c. by apply dialled_for_later.
Qed.

Lemma pools_ok_insert pools t name (p : Pool T) :
  pools_ok pools t -> Forall (fun c => dialled_for name (cl_sender c) t) (pl_idle p) ->
  pools_ok (kv_insert pools name p) t.
Proof.
  intros Hp Hn name' p'. rewrite kv_get_insert. case_decide as Heq; [subst|by apply Hp].
  by intros [= <-].
Qed.

Lemma pools_admits : admits (request_confined may_skip cfg) pools_inv.
Proof.
  intros pools t ev Hev [Hp Ht]. split; [|by apply requests_confined_cons].
  eapply pools_ok_later; [|exact Hp]. by exists [ev].
Qed.

Lemma sound_pools_quiet {E A C} (f : trace -> A) ev (Q : trace -> result E C -> Prop) (k : A -> prog K E C) t0 :
  (forall t a, request_confined may_skip cfg t (ev a)) ->
  (forall a t, t0 `suffix_of` t -> ev a ∈ t -> sound pools_inv Q t (k a)) ->
  sound pools_inv Q t0 (pbind (atom (io_event f ev)) k).
Proof. apply sound_quiet, pools_admits. Qed.

(** Closing a connection, as a destructor. *)
Lemma pools_keep_close s t0 : Forall (keeps pools_inv t0) ([io_close s] : destructors K).
Proof. apply Forall_singleton. by apply (keeps_event _ _ (EvClose s) _ pools_admits). Qed.

(** A step on the pools that does no I/O. *)
Lemma sound_pools_update {E A} (Q : trace -> result E A -> Prop) (m : M K E A) t0 :
  (forall pools t, t0 `suffix_of` t -> pools_ok pools t ->
     exists a pools', m pools t = (Ok a, pools', t) /\ pools_ok pools' t /\ Q t (Ok a)) ->
  sound pools_inv Q t0 (atom m).
Proof.
  intros Hm. apply sound_atom. intros pools t Ht [Hp He]. unfold wp.
  destruct (Hm pools t Ht Hp) as (a & pools' & -> & Hp' & HQ). by split.
Qed.

Lemma sound_connect authority client rq host port lim t0 :
  request_for may_skip cfg client rq host port t0 -> authority = host_port host port ->
  sound pools_inv (fun t r => match r with Ok c => dialled_for authority (cl_sender c) t | Err _ => True end)
    t0 (connect_prog authority lim).
Proof.
  intros Hr ->. unfold connect_prog. destruct (split_authority _) as [[h p]|e] eqn:Es; [|done].
  apply (sound_bind _ _ (fun t r => match r with Ok o => EvConnect h p o ∈ t | Err _ => False end)); [| |done].
  { eapply sound_admitted; [apply pools_admits| |intros; set_solver].
    intros t Ht. exists client, rq, host, port. split; [|done].
    eapply request_for_later; [|exact Hr]. by apply suffix_cons_r. }
  intros [[s|e]|] t Ht Hin; [|done..].
  apply sound_pending; [apply pools_keep_close|].
  apply (sound_pools_quiet (fun t => env_nodelay t s)); [done|]. intros [u|e] t1 Ht1 _.
  2: { by apply sound_unwind_then; [apply pools_keep_close|]. }
  apply sound_pending; [apply pools_keep_close|].
  apply (sound_pools_quiet (fun t => env_http_handshake t s)); [done|]. intros [u'|e] t2 Ht2 _.
  - exists h, p. split; [done|]. cbn. eapply event_later; [|exact Hin]. by etrans.
  - by apply sound_unwind_then; [apply pools_keep_close|].
Qed.

Lemma sound_acquire_permit {E} name t0 :
  sound (E := E) pools_inv (fun _ _ => True) t0 (atom (acquire_permit (T := T) name)).
Proof.
  apply sound_pools_update. intros pools t _ Hp. unfold acquire_permit.
  destruct (kv_get pools name) as [p|] eqn:Ep; [|by eexists _, _].
  unfold try_permit. destruct (sem_acquire _) as [c|]; [|by eexists _, _].
  eexists _, _. split; [reflexivity|]. split; [|done]. apply pools_ok_insert; [done|]. by apply (Hp name p).
Qed.

Lemma sound_wait_permit {E} patience name t0 :
  sound (E := E) pools_inv (fun _ _ => True) t0 (wait_permit (T := T) patience name).
Proof.
  revert t0. induction patience as [|n IH]; intros t0; cbn [wait_permit];
    (apply sound_then; [apply sound_acquire_permit| |done]); intros [|] t _; done.
Qed.

Lemma sound_reuse_idle {E} name t0 :
  sound (E := E) pools_inv
    (fun t r => match r with Ok (Some c) => dialled_for name (cl_sender c) t | _ => True end) t0
    (atom (reuse_idle (T := T) name)).
Proof.
  apply sound_atom. intros pools t _ [Hp He]. unfold wp, reuse_idle.
  destruct (kv_get pools name) as [p|] eqn:Ep; [|done]. pose proof (Hp _ _ Ep) as Hidle.
  unfold pop_idle. destruct (pl_idle p) as [|c idle]; [done|].
  apply Forall_cons in Hidle as [Hc Hidle].
  assert (Hins : pools_ok (kv_insert pools name (mkPool (pl_endpoint p) (pl_capacity p) idle)) t)
    by by apply pools_ok_insert.
  destruct (is_healthy t c); [done|]. split; [by apply pools_admits|]. split; [|done].
  by exists [EvClose (cl_sender c)].
Qed.

Lemma keep_permit_guard name t0 : Forall (keeps pools_inv t0) (permit_guard (T := T) name).
Proof.
  apply Forall_singleton. intros pools t _ [Hp Ht]. unfold wp, on_pool.
  destruct (kv_get pools name) as [p|] eqn:Ep; [|done]. split; [|done]. split; [|done].
  apply pools_ok_insert; [done|]. by apply (Hp name p).
Qed.
Lemma keep_held_permit (permit : bool) name t0 :
  Forall (keeps pools_inv t0) (if permit then permit_guard (T := T) name else []).
Proof. destruct permit; [apply keep_permit_guard|constructor]. Qed.

(** The client a request holds, and where it may be put back. *)
Definition holds_client (authority : bytes) t (c : PooledClient) : Prop :=
  dialled_for authority (cl_sender (pc_client c)) t
  /\ match pc_pool c with Some name => name = authority | None => True end.

Lemma holds_client_later authority t t' c :
  t `suffix_of` t' -> holds_client authority t c -> holds_client authority t' c.
Proof. intros Ht [Hd Hp]. split; [by eapply dialled_for_later|done]. Qed.

Lemma sound_acquire patience authority client rq host port lim t0 :
  request_for may_skip cfg client rq host port t0 -> authority = host_port host port ->
  sound pools_inv (fun t r => match r with Ok c => holds_client authority t c | Err _ => True end)
    t0 (acquire_prog (T := T) patience authority lim).
Proof.
  intros Hr Ha. apply sound_then; [apply sound_wait_permit| |done]. intros permit t Ht.
  apply (sound_bind _ _ (fun t r => match r with Ok (Some c) => dialled_for authority (cl_sender c) t | _ => True end)).
  - apply sound_guarded; [apply keep_held_permit|]. destruct permit; [apply sound_reuse_idle|done].
  - intros [c|] t1 Ht1 Hc; [by split|].
    eapply (sound_bind _ _ (fun t r => match r with Ok (Ok c) => dialled_for authority (cl_sender c) t | _ => True end));
      [| |done].
    + apply sound_attempt, sound_guarded; [apply keep_held_permit|]. eapply sound_connect; [|exact Ha].
      eapply request_for_later; [|exact Hr]. by etrans.
    + intros [c|e] t2 Ht2 Hc'; [split; [done|by destruct permit]|].
      by apply sound_unwind_then; [apply keep_held_permit|].
  - done.
Qed.

Lemma keep_pooled_guard authority c t0 :
  holds_client authority t0 c -> Forall (keeps pools_inv t0) (pooled_guard (T := T) c).
Proof.
  intros [Hd Hp]. constructor.
  - intros pools t Ht Hi. unfold wp, give_back.
    destruct (pc_pool c) as [name|].
    2: { split; [by apply pools_admits|]. by eexists [_]. }
    subst name. assert (Hc : dialled_for authority (cl_sender (pc_client c)) t) by by eapply dialled_for_later.
    unfold on_pool. destruct (kv_get pools authority) as [p|] eqn:Ep; cbn.
    + assert (Hi' : pools_inv (kv_insert pools authority (release t (pc_client c) p)) t).
      { destruct Hi as [Hi He]. split; [|done]. apply pools_ok_insert; [done|].
        unfold release. destruct (is_healthy t _); [|by apply (Hi authority)].
        cbn. apply Forall_app. split; [by apply (Hi authority)|by constructor]. }
      destruct (is_healthy t _); split; [done|done|by apply pools_admits|by eexists [_]].
    + destruct (is_healthy t _); split; [done|done|by apply pools_admits|by eexists [_]].
  - destruct (pc_permit c); [apply keep_permit_guard|constructor].
Qed.
Lemma sound_drop_pooled {E} authority c t0 :
  holds_client authority t0 c -> sound (E := E) pools_inv (fun _ _ => True) t0 (drop_pooled_prog (T := T) c).
Proof. intros Hc. eapply sound_mono; [|by eapply sound_unwind, keep_pooled_guard]. done. Qed.

Lemma sound_get_or_create {E} authority size t0 :
  sound (E := E) pools_inv (fun _ r => match r with Ok name => name = authority | Err _ => False end) t0
    (atom (get_or_create (T := T) authority size)).
Proof.
  apply sound_pools_update. intros pools t _ Hp. unfold get_or_create.
  destruct (kv_get pools authority) eqn:Ep; eexists _, _; (split; [reflexivity|]); [done|].
  split; [|done]. by apply pools_ok_insert.
Qed.
End Pools.

(** ** The handler *)
Section Requests.
Context `{Env} `{HttpLib} `{HyperServer} {CD CR T K : Type}.
Context `{TtlCacheLaws bytes IpAddr CD} `{TtlCacheLaws bytes CacheEntry CR} `{Semaphore T}.
Context `{KvStore bytes (Pool T) K, !KvStoreLaws bytes (Pool T) K}.
Context (may_skip : bool) (cfg : HandlerConfig).

Abbreviation Handler := (HttpState CD CR K).

(** What the requests of one worker share. *)
Definition handler_inv (s : Handler) (t : trace) : Prop :=
  shared_inv may_skip (hs_routing s) t /\ pools_ok (hs_pools s) t
  /\ Forall (request_confined may_skip cfg t) t.
Abbreviation Inv := handler_inv.

Lemma handler_admits : admits (request_confined may_skip cfg) Inv.
Proof.
  intros s t ev Hev (Hr & Hp & Ht). split; [by apply shared_inv_cons|].
  by apply (pools_admits may_skip cfg (hs_pools s) t ev Hev).
Qed.

Lemma sound_handler_quiet {E A C} (f : trace -> A) ev (Q : trace -> result E C -> Prop)
    (k : A -> prog Handler E C) t0 :
  (forall t a, request_confined may_skip cfg t (ev a)) ->
  (forall a t, t0 `suffix_of` t -> ev a ∈ t -> sound Inv Q t (k a)) ->
  sound Inv Q t0 (pbind (atom (io_event f ev)) k).
Proof. apply sound_quiet, handler_admits. Qed.

Lemma sound_handler_pools {E A} (Q : trace -> result E A -> Prop) t0 (q : prog K E A) :
  sound (pools_inv may_skip cfg) Q t0 q -> sound Inv Q t0 (pzoom hs_pools hs_set_pools q).
Proof.
  apply sound_zoom_own; [by intros s t (? & ? & ?)|].
  intros s t x t' (Hr & _ & _) [Hp Ht] Hl. split; [by eapply shared_inv_later|by split].
Qed.

(** Destructors: closing a connection, and those of the pools. *)
Lemma handler_keeps_close s t0 : Forall (keeps Inv t0) ([io_close s] : destructors Handler).
Proof. apply Forall_singleton. by apply (keeps_event _ _ (EvClose s) _ handler_admits). Qed.
Lemma handler_keeps_pools (d : destructors K) t0 :
  Forall (keeps (pools_inv may_skip cfg) t0) d -> Forall (keeps Inv t0) (map (zoom hs_pools hs_set_pools) d).
Proof.
  intros Hd. apply Forall_map. eapply Forall_impl; [exact Hd|]. intros m.
  apply keeps_zoom_own; [by intros s t (? & ? & ?)|].
  intros s t x t' (Hr & _ & _) [Hp Ht] Hl. split; [by eapply shared_inv_later|by split].
Qed.

Lemma sound_handler_route data t0 :
  sound Inv (fun t r => match r with Ok cr => routed_from may_skip t data (cr_endpoint cr) | Err _ => True end)
    t0 (pzoom hs_routing hs_set_routing (route_prog data)).
Proof.
  apply (sound_zoom _ (shared_inv may_skip) routing_event).
  - by intros s t [].
  - intros s t x t' (_ & Hp & Ht) Hx He. split; [done|]. split; [|by eapply requests_confined_quiet].
    eapply pools_ok_later; [|exact Hp]. destruct He as (l & -> & _). by exists l.
  - apply pemits_route.
  - eapply sound_mono; [|apply sound_route]. by intros t [cr|e].
Qed.

(** For one request [rq] of [client] to the backend [host]:[port]. *)
Section Request.
Context (client : sock) (rq : http_request) (host : bytes) (port : Z).

Abbreviation mine := (request_for may_skip cfg client rq host port).
Abbreviation out := (outbound_request rq host port).

Lemma sound_exchange s t0 :
  mine t0 -> dialled_for (host_port host port) s t0 ->
  sound Inv (fun t r => match r with Ok rs => pooled_response cfg s out rs t | Err _ => True end) t0
    (exchange_prog cfg s rq host port).
Proof.
  intros Hr Hd. unfold exchange_prog. apply sound_then; [| |done].
  { destruct (is_get_or_head rq); [done|].
    apply (sound_handler_quiet env_http_request_body EvHttpRequestBody); [done|].
    by intros [[b|e]|] t _ _. }
  intros body t Ht. cbv zeta. apply sound_map_err; [done|]. intros _ _.
  assert (Hsend : forall t1 o, t `suffix_of` t1 ->
            request_confined may_skip cfg (EvHttpSend s out body o :: t1) (EvHttpSend s out body o)).
  { intros t1 o Ht1. exists client, rq, host, port. assert (Hl : t0 `suffix_of` t1) by by etrans.
    split; [|split; [|done]].
    - eapply request_for_later; [|exact Hr]. by apply suffix_cons_r.
    - eapply dialled_for_later; [|exact Hd]. by apply suffix_cons_r. }
  apply sound_pending.
  { apply Forall_singleton. eapply keeps_event; [apply handler_admits|auto]. }
  apply (sound_bind _ _ (fun t r => match r with Ok o => EvHttpSend s out body o ∈ t | Err _ => False end)); [| |done].
  { eapply sound_admitted; [apply handler_admits|auto|intros; set_solver]. }
  intros [[[status hs]|e]|] t1 Ht1 Hin; [|done..].
  apply sound_pending; [apply Forall_singleton; by eapply keeps_event; [apply handler_admits|]|].
  apply (sound_handler_quiet (fun t => env_http_response_body t s) (EvHttpResponseBody s)); [done|].
  intros [[b|e]|] t2 Ht2 Hb; [|done..].
  exists body, status, hs. split; [by eapply event_later|done].
Qed.

(** The reply came over a connection dialled for this request's backend. *)
Definition answered_by_backend (rs : http_response) (t : trace) : Prop :=
  exists s, dialled_for (host_port host port) s t
    /\ (pooled_response cfg s out rs t \/ raw_reply s (raw_request_text rq host port) rs t).

Lemma answered_by_backend_later rs t t' :
  t `suffix_of` t' -> answered_by_backend rs t -> answered_by_backend rs t'.
Proof.
  intros Ht (s & Hd & Hrs). exists s. split; [by eapply dialled_for_later|].
  destruct Hrs as [Hp|Hw]; [left; by eapply pooled_response_later|right; by eapply raw_reply_later].
Qed.

Lemma sound_forward_request patience endpoint t0 :
  parse_endpoint endpoint 80 = (host, port) -> mine t0 ->
  sound Inv (fun t r => match r with Ok rs => answered_by_backend rs t | Err _ => True end) t0
    (forward_request_prog (T := T) patience cfg rq endpoint).
Proof.
  intros Ep Hr. unfold forward_request_prog. rewrite Ep. cbv zeta.
  eapply sound_bind; [apply sound_handler_pools, sound_get_or_create| |done]. intros name t Ht ->.
  assert (Hrt : mine t) by by eapply request_for_later.
  eapply sound_bind; [by eapply sound_handler_pools, sound_acquire| |done]. intros pooled t1 Ht1 Hheld.
  eapply (sound_bind _ _ (fun t r => match r with Ok (Ok rs) => _ | _ => True end)); [| |done].
  { apply sound_attempt, sound_guarded; [by eapply handler_keeps_pools, keep_pooled_guard, Hheld|].
    eapply sound_mono; [|apply (sound_exchange (cl_sender (pc_client pooled)))].
    - intros t2 r _ Hq. exact Hq.
    - by eapply request_for_later.
    - apply Hheld. }
  assert (Hheld' : forall t2, t1 `suffix_of` t2 -> holds_client (host_port host port) t2 pooled)
    by by intros; eapply holds_client_later.
  intros [rs|[e b]] t2 Ht2 Hrs; cbn in Hrs.
  - apply sound_then; [eapply sound_handler_pools, sound_drop_pooled, Hheld', Ht2| |done].
    intros _ t3 Ht3. eapply answered_by_backend_later; [exact Ht3|].
    exists (cl_sender (pc_client pooled)). split; [apply Hheld', Ht2|by left].
  - apply sound_then; [|done|done].
    eapply sound_handler_pools, sound_drop_pooled. specialize (Hheld' t2 Ht2). by destruct b.
Qed.

(** The raw forwarder reads on the stream it dialled. *)
Lemma sound_read_more s max eof t0 :
  sound Inv (fun t r => match r with Ok data => chunk_from s data t | Err _ => True end) t0
    (read_more_prog s max eof).
Proof.
  apply (sound_handler_quiet (fun t => env_read t s max) (EvRead s max)); [done|].
  intros [[[|c data]|e]|] t _ Hin; try done. by exists max.
Qed.

(** Read so far, with one more piece. *)
Lemma read_from_nil s t : read_from s [] t.
Proof. by exists []. Qed.
Lemma read_from_app s buffer data t : read_from s buffer t -> chunk_from s data t -> read_from s (buffer ++ data) t.
Proof.
  intros (chunks & -> & Hc) Hd. exists (chunks ++ [data]). rewrite concat_app. cbn. rewrite app_nil_r.
  split; [done|]. apply Forall_app. split; [done|by constructor].
Qed.

Lemma sound_read_head fuel s buffer t0 :
  read_from s buffer t0 ->
  sound Inv (fun t r => match r with Ok (n, buf) => read_from s buf t /\ (n <= length buf)%nat | Err _ => True end)
    t0 (read_head_prog fuel s buffer).
Proof.
  revert buffer t0. induction fuel as [|fuel IH]; intros buffer t0 Hb; cbn [read_head_prog];
    (destruct (find_subslice buffer HEADER_END) as [p|] eqn:Ep;
     [apply find_subslice_spec in Ep as (a & r & -> & ->); split; [done|rewrite !length_app; cbn; lia]|]);
    [done|].
  eapply sound_bind; [apply sound_read_more| |done]. intros data t Ht Hd. apply IH.
  apply read_from_app; [by eapply read_from_later|done].
Qed.

(** A rest of what was read. *)
Definition tail_read (s : sock) (body : bytes) (t : trace) : Prop :=
  exists buffer n, read_from s buffer t /\ (n <= length buffer)%nat /\ body = drop n buffer.

Lemma sound_read_body fuel s total body t0 :
  tail_read s body t0 ->
  sound Inv (fun t r => match r with Ok b => tail_read s b t | Err _ => True end) t0
    (read_body_prog fuel s total body).
Proof.
  revert body t0. induction fuel as [|fuel IH]; intros body t0 Hb; cbn [read_body_prog];
    (case_bool_decide; [|done]); [done|].
  eapply sound_bind; [apply sound_read_more| |done]. intros data t Ht Hd. apply IH.
  destruct Hb as (buffer & n & Hr & Hn & ->). exists (buffer ++ data), n.
  split; [apply read_from_app; [by eapply read_from_later|done]|].
  split; [rewrite length_app; lia|]. by rewrite drop_app_le.
Qed.

Lemma sound_build_response s text status h body t0 :
  (exists r, EvWrite s text (Done r) ∈ t0) -> tail_read s body t0 ->
  sound Inv (fun t r => match r with Ok rs => raw_reply s text rs t | Err _ => True end) t0
    (build_response_prog status h body).
Proof.
  intros Hw (buffer & n & Hr & _ & ->). unfold build_response_prog. destruct (rh_bad h); [done|].
  split; [done|]. by exists buffer, n.
Qed.

Lemma sound_raw_exchange fuel s t0 :
  mine t0 -> dialled_for (host_port host port) s t0 ->
  sound Inv (fun t r => match r with Ok rs => raw_reply s (raw_request_text rq host port) rs t | Err _ => True end)
    t0 (raw_exchange_prog fuel cfg rq host port s).
Proof.
  intros Hr Hd. unfold raw_exchange_prog.
  apply (sound_handler_quiet (fun t => env_nodelay t s) (EvNodelay s)); [done|]. intros u t Ht _.
  apply sound_map_err; [done|]. intros _ _.
  set (text := raw_request_text rq host port).
  assert (Hsend : forall t1 o, t `suffix_of` t1 ->
            request_confined may_skip cfg (EvWrite s text o :: t1) (EvWrite s text o)).
  { intros t1 o Ht1. exists client, rq, host, port. assert (Hl : t0 `suffix_of` t1) by by etrans.
    split; [|split; [|done]].
    - eapply request_for_later; [|exact Hr]. by apply suffix_cons_r.
    - eapply dialled_for_later; [|exact Hd]. by apply suffix_cons_r. }
  apply sound_pending.
  { apply Forall_singleton. eapply keeps_event; [apply handler_admits|auto]. }
  apply (sound_bind _ _ (fun t r => match r with Ok o => EvWrite s text o ∈ t | Err _ => False end)); [| |done].
  { eapply sound_admitted; [apply handler_admits|auto|intros; set_solver]. }
  intros [w|] t1 _ Hw; [|done].
  eapply sound_bind; [apply sound_read_head, read_from_nil| |done]. intros [n buffer] t2 Ht2 [Hb Hn].
  destruct (from_utf8 _); [|done]. destruct (split_crlf _) as [|line lines]; [done|]. cbv zeta.
  assert (Hw2 : exists r, EvWrite s text (Done r) ∈ t2).
  { exists w. by eapply event_later. }
  assert (Htail : tail_read s (drop n buffer) t2) by by exists buffer, n.
  destruct (rh_content_length _) as [total|]; [|by apply sound_build_response].
  destruct (rh_chunked _); [by apply sound_build_response|]. destruct (negb _); [done|].
  eapply sound_bind; [by apply sound_read_body| |done]. intros body t3 Ht3 Hbody.
  apply sound_build_response; [|done]. destruct Hw2 as [r Hin]. exists r. by eapply event_later.
Qed.

Lemma sound_closing {A} (Q : trace -> result stop A -> Prop) s (p : prog Handler stop A) t0 :
  (forall t t' r, t `suffix_of` t' -> Q t r -> Q t' r) ->
  sound Inv Q t0 p -> sound Inv Q t0 (closing_prog s p).
Proof.
  intros HQ Hp. apply (sound_bind _ _ (fun t r => match r with Ok r => Q t r | Err _ => False end)); [| |done].
  { apply sound_attempt. by apply sound_guarded; [apply handler_keeps_close|]. }
  intros r t _ Hr.
  assert (Hclose : sound Inv Q t (unwind [io_close s] ~;; pure r)).
  { apply sound_unwind_then; [apply handler_keeps_close|]. intros t1 Ht1. by eapply HQ. }
  by destruct r as [a|[]].
Qed.

Lemma sound_forward_raw_request patience fuel endpoint t0 :
  parse_endpoint endpoint 80 = (host, port) -> mine t0 ->
  sound Inv (fun t r => match r with Ok rs => answered_by_backend rs t | Err _ => True end) t0
    (forward_raw_request_prog (T := T) patience fuel cfg rq endpoint).
Proof.
  intros Ep Hr. unfold forward_raw_request_prog. destruct (negb _).
  { apply sound_with_err. eapply sound_mono; [|by apply sound_forward_request]. by intros t [rs|e]. }
  rewrite Ep. cbv zeta. destruct (split_authority _) as [[h p]|e] eqn:Es; [|done].
  apply (sound_bind _ _ (fun t r => match r with Ok o => EvConnect h p o ∈ t | Err _ => False end)); [| |done].
  { eapply sound_admitted; [apply handler_admits| |intros; set_solver].
    intros t Ht. exists client, rq, host, port. split; [|done].
    eapply request_for_later; [|exact Hr]. by apply suffix_cons_r. }
  intros [[stream|e]|] t Ht Hin; [|done..].
  assert (Hd : dialled_for (host_port host port) stream t) by by exists h, p.
  apply sound_closing.
  { intros t1 t2 [rs|e] Hl Hq; [by eapply answered_by_backend_later|done]. }
  eapply sound_mono; [|by apply sound_raw_exchange; [eapply request_for_later|]].
  intros t1 [rs|e] Ht1 Hrs; [|done]. exists stream. split; [by eapply dialled_for_later|by right].
Qed.
End Request.

(** The endpoint of a request is the fixed backend's or the one its Host was
    routed to. *)
Lemma sound_choose_endpoint client rq t0 :
  hc_request_handler cfg = None -> hc_direct_response cfg = None ->
  EvHttpRequest client (Some rq) ∈ t0 ->
  sound Inv (fun t r => match r with
      | Ok (Ok endpoint) => forall host port, parse_endpoint endpoint 80 = (host, port) ->
          request_for may_skip cfg client rq host port t
      | Ok (Err rs) => own_response cfg rq rs
      | Err _ => True
      end) t0 (choose_endpoint_prog cfg rq).
Proof.
  intros Hh Hd Hin. unfold choose_endpoint_prog, own_response, request_for. rewrite Hh, Hd.
  destruct (hc_fixed_backend cfg) as [fixed|].
  { intros host port Ep. split; [done|by exists fixed]. }
  destruct (extract_host rq) as [name|rs] eqn:En; [|by left].
  eapply (sound_bind _ _ (fun t r => match r with Ok (Ok cr) => routed_from may_skip t name (cr_endpoint cr)
                                         | _ => True end)); [| |done].
  { apply sound_attempt. eapply sound_mono; [|apply sound_handler_route]. by intros t [cr|e]. }
  intros [cr|e] t Ht Hr; [|right; left; by exists e].
  intros host port Ep. split; [by eapply event_later|]. exists (cr_endpoint cr). split; [done|by exists name].
Qed.

Lemma sound_call_handler f client rq t0 :
  hc_request_handler cfg = Some f ->
  sound Inv (fun t r => match r with Ok rs => reply_of may_skip cfg client rq rs t | Err _ => True end)
    t0 (atom (call_handler f rq)).
Proof.
  intros Hf. apply sound_atom. intros s t _ HI. unfold wp, call_handler.
  destruct (f t rq) as [rs|e] eqn:Ef; (split; [done|]); (split; [done|]); left; unfold own_response; rewrite Hf;
    [left; by exists t|by right].
Qed.

Lemma sound_handle patience fuel client rq t0 :
  EvHttpRequest client (Some rq) ∈ t0 ->
  sound Inv (fun t r => match r with Ok rs => reply_of may_skip cfg client rq rs t | Err _ => True end)
    t0 (handle_prog (T := T) patience fuel cfg rq).
Proof.
  intros Hin. unfold handle_prog. destruct (hc_request_handler cfg) as [f|] eqn:Hf; [by apply sound_call_handler|].
  destruct (hc_direct_response cfg) as [body|] eqn:Hd.
  { left. unfold own_response. by rewrite Hf, Hd. }
  eapply sound_bind; [by apply sound_choose_endpoint| |done].
  intros [endpoint|rs] t Ht Hchosen; [|by left].
  destruct (parse_endpoint endpoint 80) as [host port] eqn:Ep. specialize (Hchosen host port eq_refl).
  eapply (sound_bind _ _ (fun t r => match r with Ok (Ok rs) => answered_by_backend rq host port rs t
                                         | _ => True end)); [| |done].
  { apply sound_attempt. destruct (hc_raw_backend cfg).
    - eapply sound_mono; [|by apply (sound_forward_raw_request client)]. by intros t1 [rs|e].
    - apply sound_with_err. eapply sound_mono; [|by apply (sound_forward_request client)]. by intros t1 [rs|e]. }
  intros [rs|[| |e]] t1 Ht1 Hrs; try done.
  - right. destruct Hrs as (s & Hd1 & Hrs). exists host, port, s.
    split; [by eapply request_for_later|by split].
  - left. unfold own_response. rewrite Hf, Hd. by right; right.
Qed.

(** A reply to a request, and the rest. *)
Lemma sound_reply {E C} (Q : trace -> result E C -> Prop) client rq rs (k : prog Handler E C) t0 :
  EvHttpRequest client (Some rq) ∈ t0 -> reply_of may_skip cfg client rq rs t0 ->
  (forall t, sound Inv Q t k) -> (forall e t, Q t (Err e)) ->
  sound Inv Q t0 (atom (io_event (fun _ => tt) (fun _ => EvHttpReply client rs)) ~;; k).
Proof.
  intros Hin Hrs Hk HE. apply sound_then; [|by intros _ t _|done].
  eapply sound_admitted; [apply handler_admits| |done]. intros t Ht.
  assert (Hl : t0 `suffix_of` EvHttpReply client rs :: t) by by apply suffix_cons_r.
  exists rq. split; [by eapply event_later|by eapply reply_of_later].
Qed.

Lemma sound_serve_connection patience requests fuel keep_alive client t0 :
  sound Inv (fun _ _ => True) t0
    (serve_connection_prog (T := T) patience requests fuel cfg keep_alive client).
Proof.
  revert t0. induction requests as [|requests IH]; intros t0; cbn [serve_connection_prog];
    (apply (sound_handler_quiet (fun t => http_next t client) (EvHttpRequest client)); [done|]);
    (intros [rq|] t Ht Hin; [|done]);
    (eapply sound_bind; [by apply (sound_handle _ _ client)| |done]); intros rs t1 Ht1 Hrs;
    (eapply sound_reply; [by eapply event_later|done| |done]); intros t2; by destruct keep_alive.
Qed.

Lemma sound_serve_client patience requests fuel (config : HttpConfig CD CR) client t0 :
  cfg = handler_config config ->
  sound Inv (fun _ _ => True) t0 (serve_client_prog (T := T) patience requests fuel config client).
Proof.
  intros Hc. unfold serve_client_prog. rewrite <- Hc. by apply sound_closing, sound_serve_connection.
Qed.
End Requests.

(** ** The process: all its workers *)
Section Workers.
Context `{Env} `{HttpLib} `{HyperServer} {CD CR T K : Type}.
Context `{TtlCacheLaws bytes IpAddr CD} `{TtlCacheLaws bytes CacheEntry CR} `{Semaphore T}.
Context `{KvStore bytes (Pool T) K, !KvStoreLaws bytes (Pool T) K}.
Context (may_skip : bool) (config : HttpConfig CD CR).

Abbreviation Handler := (HttpState CD CR K).
Abbreviation Process := (HttpProcess CD CR K).
Abbreviation cfg := (handler_config config).
Abbreviation handler_ok := (handler_inv may_skip cfg).

Definition workers_inv (p : Process) (t : trace) : Prop :=
  forall i, handler_ok (worker_state (T := T) i p) t.

Lemma lookup_snoc_other {A} (l : list A) x j : j <> length l -> (l ++ [x]) !! j = l !! j.
Proof.
  intros Hj. destruct (decide (j < length l)%nat); [by rewrite lookup_app_l|].
  rewrite lookup_app_r, (lookup_ge_None_2 l) by lia.
  destruct (j - length l)%nat eqn:E; [lia|done].
Qed.

(** A worker whose process moved on without it. *)
Definition elsewhere (x s : Handler) : Handler :=
  mkHttpState (mkRouting (r_adapter (hs_routing s)) (r_dns (hs_routing x))) (hs_pools s).

Lemma handler_inv_elsewhere s x t t' :
  handler_ok s t -> handler_ok x t' -> t `suffix_of` t' -> handler_ok (elsewhere x s) t'.
Proof.
  intros (Hs & Hp & _) ((Hd & _) & _ & Ht) Hl. split; [|split; [by eapply pools_ok_later|done]].
  destruct (shared_inv_later _ _ _ _ Hl Hs) as (_ & Hrest). by split.
Qed.

Lemma worker_state_elsewhere i j x (p : Process) :
  i <> j -> worker_state (T := T) j (set_worker_state i x p) = elsewhere x (worker_state (T := T) j p).
Proof.
  intros Hj. unfold worker_state, set_worker_state. cbn. rewrite list_lookup_alter_ne by done.
  by destruct (ht_workers p !! j).
Qed.

Lemma worker_state_same i x (p : Process) :
  worker_state (T := T) i (set_worker_state i x p)
  = if ht_workers p !! i then x else elsewhere x (worker_state (T := T) i p).
Proof.
  unfold worker_state, set_worker_state. cbn. rewrite list_lookup_alter_eq.
  destruct (ht_workers p !! i); [|done]. by destruct x as [[]].
Qed.

Lemma workers_inv_put i x (p : Process) t t' :
  workers_inv p t -> handler_ok x t' -> t `suffix_of` t' -> workers_inv (set_worker_state i x p) t'.
Proof.
  intros HI Hx Hl j. destruct (decide (i = j)) as [<-|Hj].
  - rewrite worker_state_same. destruct (ht_workers p !! i); [done|]. by eapply handler_inv_elsewhere.
  - rewrite worker_state_elsewhere by done. by eapply handler_inv_elsewhere.
Qed.

Lemma sound_worker_round patience requests fuel listener t0 :
  sound handler_ok (fun _ _ => True) t0
    (worker_round_prog (T := T) patience requests fuel config listener).
Proof.
  apply sound_then; [| |done].
  - apply (sound_handler_quiet may_skip cfg (fun t => env_call t (Accept listener)) (EvCall (Accept listener))); [done|].
    intros [s|e] t _ _; [|done]. apply sound_pending; [apply handler_keeps_close|].
    by apply (sound_handler_quiet may_skip cfg (fun t => env_nodelay t s) (EvNodelay s)).
  - intros [client|] t _; [|done]. apply sound_then; [|by intros [u|[]]|done].
    by apply sound_attempt, sound_serve_client.
Qed.

Lemma sound_process_round patience requests fuel i t0 :
  sound workers_inv (fun _ _ => True) t0
    (process_round_prog (T := T) patience requests fuel config i).
Proof.
  apply sound_reading. intros [listener|] t _; [|done].
  apply (sound_zoom_own _ handler_ok); [|by intros; eapply workers_inv_put|apply sound_worker_round].
  intros p t1 HI. apply HI.
Qed.

(** I/O that neither dials, nor sends, nor answers. *)
Definition no_exchange (ev : event) : Prop :=
  match ev with
  | EvConnect _ _ _ | EvHttpSend _ _ _ _ | EvWrite _ _ _ | EvCopy _ _ | EvHttpReply _ _ | EvHttpRequest _ _ => False
  | _ => True
  end.
Lemma no_exchange_confined t ev : no_exchange ev -> request_confined may_skip cfg t ev.
Proof. by destruct ev. Qed.

Lemma handler_inv_quiet s t t' : extends no_exchange t t' -> handler_ok s t -> handler_ok s t'.
Proof.
  intros (l & -> & Hl) Hs. induction Hl as [|ev l Hev _ IH]; [done|].
  apply handler_admits; [by apply no_exchange_confined|exact IH].
Qed.

(** A worker-start hook may reconfigure and use the adapter it is given, within
    what the process relies on. *)
Definition hook_keeps : Prop :=
  match hp_worker_start config with
  | Some hook => forall id r t r' t', hook id r t = (r', t') -> shared_inv may_skip r t ->
                   shared_inv may_skip r' t' /\ extends no_exchange t t'
  | None => True
  end.

(** What else happens: I/O (binding and accepting above all), a worker spawned,
    the adapter of a worker reconfigured. *)
Inductive process_meanwhile (resolver : option Resolve) : Process * trace -> Process * trace -> Prop :=
| other_traffic ev p t : no_exchange ev -> process_meanwhile resolver (p, t) (p, ev :: t)
| worker_spawned worker p t r p' t' :
    spawn_worker (E := io_error) resolver config worker p t = (r, p', t') ->
    process_meanwhile resolver (p, t) (p', t')
| worker_reconfigured i x p t :
    reconfigured may_skip (hs_routing (worker_state (T := T) i p), t) (x, t) ->
    process_meanwhile resolver (p, t)
      (set_worker_state i (hs_set_routing x (worker_state (T := T) i p)) p, t).

Context (Hhook : hook_keeps) (Hskip : hp_skip_validation config = true -> may_skip = true).

(** A worker with an adapter that is in order, and no pool yet. *)
Lemma workers_inv_add l r (p : Process) t t' :
  workers_inv p t -> shared_inv may_skip r t' -> extends no_exchange t t' ->
  workers_inv (mkHttpProcess (ht_workers p ++ [mkWorker l (r_adapter r) kv_empty]) (r_dns r)) t'
  /\ t `suffix_of` t'.
Proof.
  intros HI Hr He. assert (Hl : t `suffix_of` t') by (destruct He as (l' & -> & _); by exists l').
  split; [|done].
  assert (Hx : handler_ok (mkHttpState r (kv_empty : K)) t').
  { split; [done|]. split; [intros name q; cbn; by rewrite kv_get_empty|].
    apply (handler_inv_quiet _ _ _ He (HI 0%nat)). }
  intros j. unfold worker_state. cbn. destruct (decide (j = length (ht_workers p))) as [->|Hj].
  - rewrite lookup_app_r, Nat.sub_diag by lia. cbn. by destruct r.
  - rewrite lookup_snoc_other by done. pose proof (handler_inv_elsewhere _ _ _ _ (HI j) Hx Hl) as W.
    unfold elsewhere, worker_state in W. by destruct (ht_workers p !! j).
Qed.

Lemma worker_adapter_inv resolver (p : Process) t :
  workers_inv p t -> shared_inv may_skip (mkRouting (worker_adapter resolver config) (ht_dns p)) t.
Proof.
  intros HI. destruct (HI 0%nat) as ((Hd & _) & _). unfold worker_adapter. split; [|split]; cbn.
  - unfold worker_state in Hd. by destruct (ht_workers p !! 0%nat).
  - intros k e n Hh. destruct (hp_skip_validation config); by apply cache_new_empty in Hh.
  - by destruct (hp_skip_validation config); [auto|].
Qed.

Lemma workers_inv_spawn resolver worker (p p' : Process) t t' r :
  workers_inv p t -> spawn_worker (E := io_error) resolver config worker p t = (r, p', t') ->
  workers_inv p' t' /\ t `suffix_of` t'.
Proof.
  intros HI. pose proof (worker_adapter_inv resolver p t HI) as Hi.
  unfold spawn_worker, worker_setup. set (r1 := mkRouting _ _) in *.
  unfold hook_keeps in Hhook. destruct (hp_worker_start config) as [hook|].
  - destruct (hook (fst worker) _ t) as [r2 t2] eqn:Eh. intros [= _ <- <-].
    eapply Hhook in Eh as [Hr He]; [|exact Hi]. by apply workers_inv_add.
  - intros [= _ <- <-]. by apply (workers_inv_add _ r1).
Qed.

Lemma workers_inv_meanwhile resolver p t p' t' :
  workers_inv p t -> process_meanwhile resolver (p, t) (p', t') ->
  workers_inv p' t' /\ t `suffix_of` t'.
Proof.
  intros HI Hm. inversion Hm as [ev ? ? Hev|w ? ? r ? ? Hs|i x ? ? Hx]; subst.
  - split; [|by exists [ev]]. intros i. apply handler_admits; [by apply no_exchange_confined|apply HI].
  - by eapply workers_inv_spawn.
  - split; [|done]. eapply workers_inv_put; [done| |done].
    destruct (HI i) as (Hr & Hp & Ht). destruct (shared_inv_rely _ _ _ _ _ Hr Hx) as [Hx' _]. by split.
Qed.

Lemma workers_inv_initial : workers_inv process_initial [].
Proof.
  intros i. unfold worker_state. cbn. rewrite lookup_nil. split; [|split; [|constructor]].
  - apply shared_inv_initial.
  - intros name p. cbn. by rewrite kv_get_empty.
Qed.
End Workers.

(** ** Properties *)
Section Properties.
Context `{Env} `{HttpLib} `{HyperServer} {CD CR T K : Type}.
Context `{TtlCacheLaws bytes IpAddr CD} `{TtlCacheLaws bytes CacheEntry CR} `{Semaphore T}.
Context `{KvStore bytes (Pool T) K, !KvStoreLaws bytes (Pool T) K}.

Abbreviation Process := (HttpProcess CD CR K).

(** The process while it serves: rounds of its workers (a connection accepted
    and served) are spawned, any number at a time, and interleave with each
    other and with the rest of the process.  A round may be dropped at any of
    its steps: hyper drops a request's future, and its connection, when the
    client is gone. *)
Abbreviation serving := (config (K := nat) (S := Process) (E := stop) (A := unit)).
Definition serving_step (patience requests fuel : nat) (may_skip : bool) (resolver : option Resolve)
    (config : HttpConfig CD CR) : serving -> serving -> Prop :=
  drop_step (process_round_prog (T := T) patience requests fuel config)
    (process_meanwhile (T := T) may_skip config resolver).
Abbreviation serving_initial := (mkConfig [] process_initial [] : serving).

Lemma rounds_inv patience requests fuel may_skip resolver config (c : serving) :
  hook_keeps may_skip config -> (hp_skip_validation config = true -> may_skip = true) ->
  rtc (serving_step patience requests fuel may_skip resolver config) serving_initial c ->
  Forall (request_confined may_skip (handler_config config) (history c)) (history c).
Proof.
  intros Hh Hs Hr.
  assert (HI : workers_inv (T := T) may_skip config (shared c) (history c)).
  2: { by destruct (HI 0%nat) as (_ & _ & Ht). }
  eapply (drop_inv_reachable _ _ (workers_inv may_skip config)); [..|exact Hr].
  - intros p t p' t'. by apply workers_inv_meanwhile.
  - intros i t. apply sound_process_round.
  - apply workers_inv_initial.
Qed.

(** [HttpServer::start] is part of what the process may do. *)
Lemma start_http_serving patience requests fuel may_skip resolver config r (p : Process) t :
  start_http (T := T) resolver config process_initial [] = (r, p, t) ->
  rtc (serving_step patience requests fuel may_skip resolver config) serving_initial (mkConfig [] p t).
Proof.
  set (step := serving_step patience requests fuel may_skip resolver config).
  assert (Hio : forall p t t', extends no_exchange t t' -> rtc step (mkConfig [] p t) (mkConfig [] p t')).
  { intros p0 t0 t' (l & -> & Hl). induction Hl as [|ev l Hev _ IH]; [done|].
    eapply rtc_r; [exact IH|]. by apply drop_sched, sched_rely, other_traffic. }
  unfold start_http, bind.
  destruct (inert_start (S := Process) no_exchange config ltac:(done) ltac:(done) process_initial []) as [Hp He].
  destruct (HttpServer.start config process_initial []) as [[[listeners|e] p1] t1]; cbn in He, Hp; subst p1.
  2: { intros [= _ <- <-]. by apply Hio. }
  intros Hs. etrans; [by apply Hio|]. clear He. revert Hs. generalize (process_initial : Process). revert t1.
  induction listeners as [|w rest IH]; intros t1 p1 Hs; cbn [spawn_workers] in Hs.
  { by injection Hs as _ <- <-. }
  unfold bind in Hs. destruct (spawn_worker (E := io_error) resolver config w p1 t1) as [[r1 p2] t2] eqn:E.
  eapply rtc_l; [by eapply drop_sched, sched_rely, worker_spawned|].
  destruct r1 as [[]|e]; [by apply IH|]. by injection Hs as _ <- <-.
Qed.

(** C5: requests are kept apart.  From the start of the process, under every
    interleaving of any number of clients on any of its workers, with pools and
    caches shared, adapters reconfigured (validation switched off included) and
    requests dropped at any moment: every dialling is for a request some client sent, to the authority of the
    backend its own Host was routed to (or the fixed one); every request that
    goes out on a backend connection is that client's request rewritten for
    that backend, on a connection that was dialled to its authority, pooled
    connections included; every response written to a client answers a request
    of that client, and is either the proxy's own or was read from a connection
    to that request's backend on which that request had been sent. *)
Theorem concurrent_requests_confined patience requests fuel resolver config (c : serving) :
  hook_keeps true config ->
  rtc (serving_step patience requests fuel true resolver config) serving_initial c ->
  forall ev, ev ∈ history c -> request_confined true (handler_config config) (history c) ev.
Proof.
  intros Hh Hr ev Hev.
  exact (proj1 (Forall_forall _ _) (rounds_inv _ _ _ _ _ _ _ Hh ltac:(done) Hr) ev Hev).
Qed.

(** C1: SSRF safety of the concurrent HTTP proxy.  From the start of the
    process, with validation on (and kept on) and no fixed backend, under every
    interleaving of its workers' connections, dropped ones included, whatever
    clients, resolver, DNS, backends and caches do: every host it dials comes from the validated form
    of an answer about the Host of a request some client sent, and if it is an
    IP literal it is outside the blocked ranges. *)
Theorem concurrent_http_never_dials_blocked patience requests fuel resolver config (c : serving) host port o :
  hp_fixed_backend config = None -> hp_skip_validation config = false -> hook_keeps false config ->
  rtc (serving_step patience requests fuel false resolver config) serving_initial c ->
  EvConnect host port o ∈ history c ->
  (exists client rq name res out h p,
     EvHttpRequest client (Some rq) ∈ history c /\ extract_host rq = Ok name
     /\ answer (history c) name res /\ validated_from (history c) (rr_endpoint res) out
     /\ parse_endpoint out 80 = (h, p) /\ split_authority (host_port h p) = Ok (host, port))
  /\ forall ip, parse_ipaddr host = Some ip -> is_blocked_ip ip = false.
Proof.
  intros Hf Hskip Hh Hr Hin.
  pose proof (rounds_inv _ _ _ false _ _ _ Hh ltac:(congruence) Hr) as Ht.
  apply (proj1 (Forall_forall _ _) Ht) in Hin as (client & rq & h & p & (Hrq & out & Hp & He) & Hs).
  cbn in He. rewrite Hf in He. destruct He as (name & Hn & res & Ha & [Hv|[? _]]); [|done].
  split; [by exists client, rq, name, res, out, h, p|].
  destruct Hv as (ip & q & Hv & _). eapply (vetted_authority_safe out); [by exists ip, q|exact Hp|exact Hs].
Qed.

(** Refinement: a worker's round that runs while nothing else happens does
    exactly what [process_round] does, from any state of the process and with
    any other rounds suspended in the middle of theirs. *)
Theorem round_alone_is_a_schedule patience requests fuel may_skip resolver config
    (ts : list (nat * prog Process stop unit)) j i (p p' : Process) t t' r :
  ts !! j = Some (i, process_round_prog (T := T) patience requests fuel config i) ->
  process_round (T := T) requests fuel config i p t = (r, p', t') ->
  rtc (serving_step patience requests fuel may_skip resolver config) (mkConfig ts p t)
    (mkConfig (<[j := (i, PDone r)]> ts) p' t').
Proof. intros Hj Hr. eapply rtc_drop, run_sched; [exact Hj|]. by rewrite run_process_round_prog. Qed.
End Properties.

(** ** Witnesses *)

(** One worker; three clients, accepted on descriptors 1, 2 and 3, each with one
    request, interleaved step by step; their backends, 17 and 18, answer; the
    third is dropped while it waits for its reply. *)
Definition http_concurrency_env : Env :=
  scripted_env
    (fun _ => Done (Err (io_other [])))
    (fun _ host _ => Done (Ok (if bool_decide (host = B "8.8.8.8") then 17 else 18)))
    (fun _ _ _ => Done (Ok []))
    (fun _ _ => Ok [])
    (fun _ => true).
Definition http_concurrency_request (client : sock) : http_request :=
  http_example_request (if client =? 1 then B "8.8.8.8" else B "1.1.1.1").
Definition http_concurrency_hyper : HyperServer := {|
  http_next t client :=
    if bool_decide (conversation client t = []) then Some (http_concurrency_request client) else None |}.

#[local] Existing Instances http_concurrency_env http_concurrency_hyper http_example_lib.

Definition http_concurrency_config : HttpConfig dns_example_cache (AssocCache bytes CacheEntry) :=
  http_with_workers 1 (http_config_default None).

Definition http_concurrency_started :=
  start_http (T := nat) (Some http_example_resolver) http_concurrency_config (process_initial : ExProcess) [].
Definition http_concurrency_body (i : nat) : prog ExProcess stop unit :=
  process_round_prog (T := nat) 1 2 10 http_concurrency_config i.
Definition http_concurrency_tasks := repeat (0%nat, http_concurrency_body 0) 3.
Definition http_concurrency_run :=
  schedule (concat (repeat [0; 1; 2]%nat 40))
    (drop_nth (Ok tt) 2
       (schedule (concat (repeat [0; 1; 2]%nat 18))
          (mkConfig http_concurrency_tasks http_concurrency_started.1.2 http_concurrency_started.2))).

Lemma http_concurrency_reachable may_skip :
  rtc (serving_step (T := nat) 1 2 10 may_skip (Some http_example_resolver) http_concurrency_config)
    (mkConfig [] process_initial []) http_concurrency_run.
Proof.
  etrans.
  { apply (start_http_serving _ _ _ _ _ _ http_concurrency_started.1.1 http_concurrency_started.1.2
             http_concurrency_started.2). vm_compute. reflexivity. }
  do 3 (eapply rtc_l; [apply drop_sched, (sched_spawn _ _ 0%nat)|]).
  etrans; [apply rtc_drop, schedule_sched|]. etrans; [apply drop_nth_drop|apply rtc_drop, schedule_sched].
Qed.

Definition http_concurrency_reply : http_response :=
  mkHttpResponse 200 [(B "content-type", B "text/plain")] (B "reply").

Lemma concurrent_requests_confined_witness :
  EvHttpReply 2 http_concurrency_reply ∈ history http_concurrency_run
  /\ exists rq, EvHttpRequest 2 (Some rq) ∈ history http_concurrency_run
       /\ reply_of true (handler_config http_concurrency_config) 2 rq http_concurrency_reply
            (history http_concurrency_run).
Proof.
  assert (Hin : EvHttpReply 2 http_concurrency_reply ∈ history http_concurrency_run).
  { apply (list_elem_of_lookup_2 _ 4). vm_compute. reflexivity. }
  split; [exact Hin|].
  exact (concurrent_requests_confined (T := nat) 1 2 10 (Some http_example_resolver) http_concurrency_config
           http_concurrency_run I (http_concurrency_reachable true) _ Hin).
Defined.

Lemma concurrent_http_never_dials_blocked_witness :
  EvConnect (B "8.8.8.8") 80 (Done (Ok 17)) ∈ history http_concurrency_run
  /\ is_blocked_ip (V4 (mkIpv4 (chr 8) (chr 8) (chr 8) (chr 8))) = false.
Proof.
  assert (Hin : EvConnect (B "8.8.8.8") 80 (Done (Ok 17)) ∈ history http_concurrency_run).
  { apply (list_elem_of_lookup_2 _ 20). vm_compute. reflexivity. }
  split; [exact Hin|].
  refine (proj2 (concurrent_http_never_dials_blocked (T := nat) 1 2 10 (Some http_example_resolver)
            http_concurrency_config http_concurrency_run (B "8.8.8.8") 80 (Done (Ok 17))
            eq_refl eq_refl I (http_concurrency_reachable false) Hin) _ _).
  vm_compute. reflexivity.
Defined.

Lemma round_alone_is_a_schedule_witness :
  let '(r, p', t') := process_round (T := nat) 2 10 http_concurrency_config 0
                        http_concurrency_started.1.2 http_concurrency_started.2 in
  r = Ok tt
  /\ rtc (serving_step (T := nat) 1 2 10 false (Some http_example_resolver) http_concurrency_config)
       (mkConfig http_concurrency_tasks http_concurrency_started.1.2 http_concurrency_started.2)
       (mkConfig (<[0%nat := (0%nat, PDone r)]> http_concurrency_tasks) p' t').
Proof.
  assert (Hr : (process_round (T := nat) 2 10 http_concurrency_config 0
                  http_concurrency_started.1.2 http_concurrency_started.2).1.1 = Ok tt)
    by (vm_compute; reflexivity).
  destruct (process_round _ _ _ _ _ _) as [[r p'] t'] eqn:E. split; [exact Hr|].
  exact (round_alone_is_a_schedule (T := nat) 1 2 10 false (Some http_example_resolver)
           http_concurrency_config http_concurrency_tasks 0%nat 0%nat _ _ _ _ _ eq_refl E).
Defined.
