(* ===== verification/HttpExclusive.v ===== *)
(** * HttpExclusive: whose reply a client gets.

    HttpConcurrency shows that a reply came over a connection to the right
    backend.  Here it is shown to be the reply to the right request: a task owns
    the connection it accepted and, while it uses one, a backend connection, and
    owned connections are not touched by other tasks; what is read from one is
    what its owner asked for. *)

From S2P Require Import Prelude Text Net Protocol Resolver World Stores Dns Adapter Ssrf Routing.
From S2P Require Import Interleave Ownership RoutingConcurrency.
From S2P Require Import TcpAdapter TcpConfig HttpHost HttpPool HttpPoolBounds HttpHandler HttpGuarantees HttpServer HttpWorkers.
From S2P Require Import HttpConcurrency.
Open Scope Z_scope.
Open Scope prog_scope.

(** ** Where connections are idle *)
Section Idle.
Context {T K : Type} `{Semaphore T} `{KvStore bytes (Pool T) K, !KvStoreLaws bytes (Pool T) K}.

Definition idle_in (pools : K) (name : bytes) : list sock :=
  match kv_get pools name with Some p => map cl_sender (pl_idle p) | None => [] end.

Lemma idle_in_insert (pools : K) name p name' :
  idle_in (kv_insert pools name p) name' = if decide (name = name') then map cl_sender (pl_idle p) else idle_in pools name'.
Proof. unfold idle_in. rewrite kv_get_insert. by case_decide. Qed.
Lemma idle_in_empty name : idle_in kv_empty name = [].
Proof. unfold idle_in. by rewrite kv_get_empty. Qed.
End Idle.

(** ** Which reply answers which request *)
Section Matched.
Context `{HttpLib} (cfg : HandlerConfig).

(** After [t0], [rq], rewritten for the backend, was sent on [s], its status and
    headers were received, and the next thing on [s] was the body. *)
Definition pooled_matched (rq : http_request) (rs : http_response) (t0 t : trace) : Prop :=
  exists s host port body status hs,
    stretch s [EvHttpResponseBody s (Done (Ok (rs_body rs)));
               EvHttpSend s (outbound_request rq host port) body (Done (Ok (status, hs)))] t0 t
    /\ rs_headers rs = relayed_headers hs
    /\ rs_status rs = (if hc_fast_path_assume_ok cfg then 200 else status).

(** After [t0], [rq] was written to [s], and the body is what the reads that
    followed on [s] gave, after the head. *)
Definition is_read (s : sock) (ev : event) : Prop := exists max data, ev = EvRead s max (Done (Ok data)).
Definition raw_matched (rq : http_request) (rs : http_response) (t0 t : trace) : Prop :=
  exists s host port reads r n,
    stretch s (reads ++ [EvWrite s (raw_request_text rq host port) (Done r)]) t0 t
    /\ Forall (is_read s) reads
    /\ rs_body rs = drop n (received s reads).

Definition answer_to (rq : http_request) (rs : http_response) (t0 t : trace) : Prop :=
  own_response cfg rq rs \/ pooled_matched rq rs t0 t \/ raw_matched rq rs t0 t.

(** A reply is the first thing that happens on the client's connection after
    the request it answers, and was obtained in between. *)
Definition reply_matched (ev : event) (t : trace) : Prop :=
  match ev with
  | EvHttpReply client rs =>
      exists rq l t0, t = l ++ EvHttpRequest client (Some rq) :: t0 /\ on_sock client l = []
        /\ answer_to rq rs t0 t
  | _ => True
  end.

Lemma pooled_matched_later rq rs t0 t t' :
  t `suffix_of` t' -> pooled_matched rq rs t0 t -> pooled_matched rq rs t0 t'.
Proof.
  intros Ht (s & host & port & body & status & hs & Hc & Hr). exists s, host, port, body, status, hs.
  split; [by eapply stretch_later|done].
Qed.
Lemma raw_matched_later rq rs t0 t t' : t `suffix_of` t' -> raw_matched rq rs t0 t -> raw_matched rq rs t0 t'.
Proof.
  intros Ht (s & host & port & reads & r & n & Hc & Hr). exists s, host, port, reads, r, n.
  split; [by eapply stretch_later|done].
Qed.
Lemma answer_to_later rq rs t0 t t' : t `suffix_of` t' -> answer_to rq rs t0 t -> answer_to rq rs t0 t'.
Proof.
  intros Ht [?|[?|?]]; [by left|right; left; by eapply pooled_matched_later|
    right; right; by eapply raw_matched_later].
Qed.
End Matched.

(** ** The pool's programs *)
Section PoolOwns.
Context `{Env} `{HttpLib} {T K : Type} `{Semaphore T} `{KvStore bytes (Pool T) K, !KvStoreLaws bytes (Pool T) K}.
Context (cfg : HandlerConfig) (Hfresh : fresh_descriptors).

Abbreviation pools_own := (own_inv (S := K) idle_in (reply_matched cfg)).

(** One connection is owned, and nothing else. *)
Definition holding (s : sock) (h : list (sock * trace)) : Prop := exists log, h = [(s, log)].

(** A connection is among those that are owned. *)
Definition still (s : sock) (h : list (sock * trace)) : Prop := exists log h1, h ≡ₚ (s, log) :: h1.
Lemma still_holding s h : holding s h -> still s h.
Proof. intros [log ->]. by exists log, []. Qed.

(** A step on the pools that leaves their idle clients. *)
Lemma owns_pools_same {E A} (m : M K E A) t0 h :
  (forall pools t, exists r pools', m pools t = (r, pools', t)
     /\ forall name, idle_in pools' name = idle_in pools name) ->
  owns pools_own (fun _ h' _ => h' = h) t0 h (atom m).
Proof.
  intros Hm. apply owns_atom. intros w F pools t _ [He Ht]. unfold wp.
  destruct (Hm pools t) as (r & pools' & -> & Hsame). exists h. split; [|done].
  split; [by eapply exclusive_idle|done].
Qed.

(** Closing the one connection that is owned. *)
Lemma closes_own {E A} (Q : trace -> list (sock * trace) -> result E A -> Prop) s log r t0 :
  (forall t, t0 `suffix_of` t -> Q t [] r) ->
  owns pools_own Q t0 [(s, log)] (unwind [io_close s] ~;; pure r).
Proof.
  intros HQ. apply (tidy_unwind_then _ _ (fun h => h = [])); [by eapply unwinds_close|done|].
  intros t h' Ht ->. by apply HQ.
Qed.

Lemma owns_connect_prog authority lim t0 :
  owns pools_own (fun _ h r => match r with Ok c => holding (cl_sender c) h | Err _ => h = [] end) t0 []
    (connect_prog authority lim).
Proof.
  unfold connect_prog. destruct (split_authority authority) as [[host port]|e]; [|done].
  apply owns_connect; [done..| |intros [[fd|e]|] t _ Ho; [by destruct (Ho fd)|done..]]. intros fd t _ _.
  eapply (tidy_on _ _ _ _ (fun t => env_nodelay t fd) (EvNodelay fd)); [by eapply unwinds_close|done..|].
  intros [u|e] t1 _ _; [|by apply closes_own].
  eapply (tidy_on _ _ _ _ (fun t => env_http_handshake t fd) (EvHttpHandshake fd)); [by eapply unwinds_close|done..|].
  intros [u'|e] t2 _ _; [by eexists|by apply closes_own].
Qed.

(** A permit is no connection. *)
Lemma unwinds_permit_guard (D : list (sock * trace) -> Prop) name t0 h :
  D h -> unwinds pools_own D t0 h (permit_guard (T := T) name).
Proof.
  intros HD w F pools t _ [He Ht]. unfold wp, on_pool.
  destruct (kv_get pools name) as [p|] eqn:Ep; exists h; (split; [|by split]); [|by split].
  split; [|done]. eapply exclusive_idle; [|exact He]. intros n. rewrite idle_in_insert.
  case_decide; [subst; unfold idle_in; by rewrite Ep|done].
Qed.
Lemma unwinds_held_permit (D : list (sock * trace) -> Prop) (permit : bool) name t0 h :
  D h -> unwinds pools_own D t0 h (if permit then permit_guard (T := T) name else []).
Proof. destruct permit; [apply unwinds_permit_guard|done]. Qed.

Lemma owns_wait_permit {E} patience name t0 h :
  tidy (E := E) pools_own (fun _ => True) (fun _ h' _ => h' = h) t0 h (wait_permit (T := T) patience name).
Proof.
  assert (Ha : forall t0, tidy (E := E) pools_own (fun _ => True) (fun _ h' _ => h' = h) t0 h
            (atom (acquire_permit (T := T) name))).
  { intros t1. apply owns_pools_same. intros pools t. unfold acquire_permit.
    destruct (kv_get pools name) as [p|] eqn:Ep; [|by eexists _, _].
    unfold try_permit. destruct (sem_acquire _) as [c|]; [|by eexists _, _].
    eexists _, _. split; [reflexivity|]. intros n. rewrite idle_in_insert.
    case_decide; [subst; unfold idle_in; by rewrite Ep|done]. }
  revert t0. induction patience as [|n IH]; intros t0; cbn [wait_permit];
    (eapply owns_bind; [apply Ha| |by intros e t h' _ ->]); intros [|] t h' _ ->; done.
Qed.

Lemma owns_reuse_idle {E} name t0 :
  tidy (E := E) pools_own (fun _ => True)
    (fun _ h r => match r with Ok (Some c) => holding (cl_sender c) h | _ => h = [] end) t0 []
    (atom (reuse_idle (T := T) name)).
Proof.
  apply owns_atom. intros w F pools t _ [He Ht]. unfold wp, reuse_idle.
  destruct (kv_get pools name) as [p|] eqn:Ep; [|by exists []].
  unfold pop_idle. destruct (pl_idle p) as [|c rest] eqn:Ei; [by exists []|].
  assert (Htake : exclusive w (idle_in (kv_insert pools name (mkPool (pl_endpoint p) (pl_capacity p) rest))) t
                    ((cl_sender c, on_sock (cl_sender c) t) :: F)).
  { eapply (exclusive_take w (idle_in pools) _ t F name); [..|exact He].
    - unfold idle_in. by rewrite Ep, Ei.
    - by rewrite idle_in_insert, decide_True.
    - intros n Hn. by rewrite idle_in_insert, decide_False. }
  destruct (is_healthy t c).
  - eexists [_]. split; [by split|]. split; [done|]. by eexists.
  - exists []. split; [|by split; [eexists [_]|]].
    apply (own_inv_close _ _ _ _ _ _ (cl_sender c) (on_sock (cl_sender c) t)); [done|]. by split.
Qed.

Lemma owns_acquire_prog patience name lim t0 :
  owns pools_own (fun _ h r => match r with Ok c => holding (cl_sender (pc_client c)) h | Err _ => h = [] end) t0 []
    (acquire_prog (T := T) patience name lim).
Proof.
  unfold acquire_prog. eapply owns_bind; [apply owns_wait_permit| |by intros e t h' _ ->].
  intros permit t h' _ ->.
  apply (owns_bind _ (fun _ h r => match r with Ok (Some c) => holding (cl_sender c) h | _ => h = [] end)); [| |done].
  { apply (tidy_guarded _ _ (fun _ => True)); [destruct permit; [apply owns_reuse_idle|done]|].
    intros t1 h1 _ _. by apply unwinds_held_permit. }
  intros [c|] t1 h1 _ Hh; [exact Hh|]. subst h1.
  eapply (owns_bind _ (fun _ h r => match r with Ok (Ok c) => holding (cl_sender c) h | _ => h = [] end)); [| |done].
  { apply owns_attempt, (tidy_guarded _ _ (fun _ => True)); [|intros t2 h2 _ _; by apply unwinds_held_permit].
    eapply owns_mono; [|apply owns_connect_prog]. by intros t2 h2 [c|e]. }
  intros [c|e] t2 h2 _ Hh; [done|]. subst h2.
  apply (tidy_unwind_then _ _ (fun h => h = [])); [by apply unwinds_held_permit|done|by intros t3 h3 _ ->].
Qed.

Lemma unwinds_pooled_guard (D : list (sock * trace) -> Prop) c t0 h h1 log :
  h ≡ₚ (cl_sender (pc_client c), log) :: h1 -> D h1 -> unwinds pools_own D t0 h (pooled_guard (T := T) c).
Proof.
  intros Hh HD. set (s := cl_sender (pc_client c)) in *. intros w F0 pools t _ HI.
  assert (Hrest : forall t', unwinds pools_own D t' h1
            match pc_permit c with Some name => permit_guard (T := T) name | None => [] end)
    by (intros t'; destruct (pc_permit c); [by apply unwinds_permit_guard|done]).
  apply (own_inv_perm _ _ _ _ _ _ ((s, log) :: h1 ++ F0)) in HI; [|by rewrite Hh].
  set (F := h1 ++ F0) in *. unfold wp, give_back.
  assert (Hclose : forall pools', (forall name, idle_in pools' name = idle_in pools name) ->
            pools_own w pools' (EvClose s :: t) F).
  { intros pools' Hp. apply (own_inv_close _ _ _ _ _ _ s log); [done|]. destruct HI as [He Ht].
    split; [by eapply exclusive_idle|done]. }
  assert (Hforget : pools_own w pools t F) by (destruct HI as [He Ht]; split; [by eapply exclusive_forget|done]).
  destruct (pc_pool c) as [name|].
  2: { exists h1. split; [by apply Hclose|]. by split; [eexists [_]|]. }
  unfold on_pool. destruct (kv_get pools name) as [p|] eqn:Ep.
  2: { destruct (is_healthy t _); exists h1; [by split|]. split; [by apply Hclose|]. by split; [eexists [_]|]. }
  unfold release. destruct (is_healthy t (pc_client c)).
  - exists h1. split; [|by split]. destruct HI as [He Ht]. split; [|done].
    eapply (exclusive_put w (idle_in pools) _ t F name s); [..|exact He].
    + rewrite idle_in_insert, decide_True by done. unfold idle_in. rewrite Ep. cbn. by rewrite map_app.
    + intros n Hn. by rewrite idle_in_insert, decide_False.
  - exists h1. split; [|by split; [eexists [_]|]]. apply Hclose. intros n. rewrite idle_in_insert.
    case_decide; [subst; unfold idle_in; by rewrite Ep|done].
Qed.
Lemma owns_drop_pooled {E} c t0 h :
  holding (cl_sender (pc_client c)) h ->
  tidy (E := E) pools_own (fun _ => True) (fun _ h' _ => h' = []) t0 h (drop_pooled_prog (T := T) c).
Proof.
  intros [log ->]. eapply (tidy_mono _ _ (fun h => h = [])); [done| |by eapply tidy_unwind, unwinds_pooled_guard].
  by intros t h r _ [-> _].
Qed.

Lemma owns_get_or_create {E} authority size t0 h :
  tidy (E := E) pools_own (fun _ => True) (fun _ h' _ => h' = h) t0 h (atom (get_or_create (T := T) authority size)).
Proof.
  apply owns_pools_same. intros pools t. unfold get_or_create.
  destruct (kv_get pools authority) as [p|] eqn:Ep; eexists _, _; (split; [reflexivity|]); [done|].
  intros n. rewrite idle_in_insert. case_decide; [subst; unfold idle_in; by rewrite Ep|done].
Qed.
End PoolOwns.

(** ** The handler's programs *)
Section HandlerOwns.
Context `{Env} `{HttpLib} `{HyperServer} {CD CR T K : Type}.
Context `{TtlCache bytes IpAddr CD} `{TtlCache bytes CacheEntry CR} `{Semaphore T}.
Context `{KvStore bytes (Pool T) K, !KvStoreLaws bytes (Pool T) K}.
Context (cfg : HandlerConfig) (Hfresh : fresh_descriptors).

Abbreviation Handler := (HttpState CD CR K).

Abbreviation pools_own := (own_inv (S := K) idle_in (reply_matched cfg)).
Abbreviation handler_own := (own_inv (fun s : Handler => idle_in (hs_pools s)) (reply_matched cfg)).

Lemma owns_handler_pools {E A} (Q : trace -> list (sock * trace) -> result E A -> Prop) t0 h (q : prog K E A) :
  owns pools_own Q t0 h q -> owns handler_own Q t0 h (pzoom hs_pools hs_set_pools q).
Proof. apply owns_zoom. intros w s t G HI. by exists w. Qed.

(** Routing is no business of any connection. *)
Lemma owns_handler_route data t0 h :
  owns handler_own (fun _ h' _ => h' = h) t0 h (pzoom hs_routing hs_set_routing (route_prog data)).
Proof.
  apply (owns_zoom_silent _ routing_event); [|apply pemits_route].
  intros w s t G x t' HI (l & -> & Hl). induction Hl as [|ev l Hev _ IH]; [exact HI|].
  by apply own_inv_silent; [destruct ev..|].
Qed.

(** An operation that was under way on the one connection that is owned. *)
Lemma unwinds_on_own s log ev t0 :
  socks_of ev = [s] -> ev <> EvClose s -> (forall t, reply_matched cfg ev t) ->
  unwinds handler_own (still s) t0 [(s, log)] [io_event (fun _ => tt) (fun _ => ev)].
Proof. intros Hev Hc Hok. eapply unwinds_on; [done..|]. intros t _. by apply still_holding; eexists. Qed.

(** For a request that was read at [t_req]. *)
Section Request.
Context (t_req : trace).

(** [EvHttpSend] and then [EvHttpResponseBody] on the connection the task holds. *)
Lemma owns_exchange rq host port s h t0 :
  t_req `suffix_of` t0 -> holding s h ->
  tidy handler_own (still s)
    (fun t h r => holding s h /\ match r with Ok rs => pooled_matched cfg rq rs t_req t | Err _ => True end) t0 h
    (exchange_prog cfg s rq host port).
Proof.
  intros Hreq Hh. unfold exchange_prog.
  eapply (owns_bind _ (fun _ h' _ => h' = h)); [| |by intros e t h' _ ->].
  { destruct (is_get_or_head rq); [done|].
    apply (tidy_silent _ _ _ []); [by apply still_holding|done..|]. by intros [[b|e]|] t _. }
  intros body t h' Ht ->. cbv zeta. destruct (request_builds _) as [u|e]; [|done]. cbn [pure pbind map_err].
  destruct Hh as [log ->].
  eapply (tidy_on _ _ _ _ (fun t => env_http_send t s (outbound_request rq host port) body));
    [by apply unwinds_on_own|done..|].
  intros [[[status hs]|e]|] t1 Ht1 Hk1; [|split; [by eexists|done]..]. cbn [pure pbind].
  eapply (tidy_on _ _ _ _ (fun t => env_http_response_body t s)); [by apply unwinds_on_own|done..|].
  intros [[b|e]|] t2 Ht2 Hk2; (split; [by eexists|]); try done.
  exists s, host, port, body, status, hs. split; [|done].
  pose proof (knows_log _ _ Hk1 s log ltac:(by left)) as Hl1. pose proof (knows_log _ _ Hk2 s _ ltac:(by left)) as Hl2. destruct Ht2 as [l ->].
  exists [], (EvHttpResponseBody s (Done (Ok b)) :: l ++ [EvHttpSend s (outbound_request rq host port) body (Done (Ok (status, hs)))]), t1.
  split; [by cbn; rewrite <- app_assoc|]. split; [etrans; [exact Hreq|by etrans]|].
  apply (since_then s _ t1 [_; _] log); [|done]. cbn [app]. rewrite on_sock_touched by set_solver.
  rewrite <- app_assoc. cbn. by rewrite Hl2.
Qed.

Lemma owns_forward_request patience rq endpoint t0 :
  t_req `suffix_of` t0 ->
  owns handler_own
    (fun t h r => h = [] /\ match r with Ok rs => pooled_matched cfg rq rs t_req t | Err _ => True end) t0 []
    (forward_request_prog (T := T) patience cfg rq endpoint).
Proof.
  intros Hreq. unfold forward_request_prog. destruct (parse_endpoint endpoint 80) as [host port]. cbv zeta.
  eapply (owns_bind _ (fun _ h' _ => h' = [])); [apply owns_handler_pools, owns_get_or_create| |done].
  intros name t h Ht ->.
  eapply owns_bind; [by apply owns_handler_pools, owns_acquire_prog| |by intros e t1 h1 _ ->]. intros pooled t1 h1 Ht1 Hh. cbn in Hh.
  eapply (owns_bind _ (fun t h r => match r with Ok q => holding (cl_sender (pc_client pooled)) h
    /\ match q with Ok rs => pooled_matched cfg rq rs t_req t | Err _ => True end | Err _ => False end)); [| |done].
  { apply owns_attempt. eapply tidy_guarded; [apply owns_exchange; [etrans; [exact Hreq|by etrans]|done]|].
    intros t2 h2 _ (log & h3 & Hh2). eapply (unwinds_zoom _ pools_own); [intros w s' t3 G HI; by exists w|].
    by eapply unwinds_pooled_guard. }
  intros [rs|[e b]] t2 h2 _ [Hh2 Hrs].
  - eapply (owns_bind _ (fun _ h' _ => h' = [])); [by apply owns_handler_pools, owns_drop_pooled| |done].
    intros _ t3 h3 Ht3 ->. split; [done|]. by eapply pooled_matched_later.
  - eapply (owns_bind _ (fun _ h' _ => h' = [])); [|by intros _ t3 h3 _ ->|done].
    apply owns_handler_pools, owns_drop_pooled. by destruct b.
Qed.

(** All that was read on [s] since [text] was written to it. *)
Definition reading (s : sock) (text buffer : bytes) (t : trace) (h : list (sock * trace)) : Prop :=
  exists reads r log t1, h = [(s, reads ++ EvWrite s text (Done r) :: log)]
    /\ (EvWrite s text (Done r) :: t1) `suffix_of` t /\ t_req `suffix_of` t1 /\ on_sock s t1 = log
    /\ stretch s (reads ++ [EvWrite s text (Done r)]) t_req t
    /\ Forall (is_read s) reads /\ received s reads = buffer.

Lemma reading_holding s text buffer t h : reading s text buffer t h -> holding s h.
Proof. intros (reads & r & log & t1 & -> & _). by eexists. Qed.

Lemma owns_read_more s text buffer max eof t0 h :
  reading s text buffer t0 h ->
  tidy handler_own (still s)
    (fun t h r => holding s h /\ match r with Ok data => reading s text (buffer ++ data) t h | Err _ => True end) t0 h
    (read_more_prog s max eof).
Proof.
  intros (reads & r & log & t1 & -> & Hw & Hreq & Hlog & _ & Hf & <-). unfold read_more_prog.
  eapply (tidy_on _ _ _ [] (fun t => env_read t s max)); [by apply still_holding; eexists|done..|].
  intros [[[|c data]|e]|] t Ht Hk; (split; [by eexists|]); try done. set (ev := EvRead s max _).
  exists (ev :: reads), r, log, t1. split; [done|]. assert (Hwt : (EvWrite s text (Done r) :: t1) `suffix_of` t) by by etrans.
  split; [by apply suffix_cons_r|]. split; [done|]. split; [done|]. split.
  - destruct Hwt as [l ->]. exists [], (ev :: l ++ [EvWrite s text (Done r)]), t1.
    split; [by cbn; rewrite <- app_assoc|]. split; [done|].
    apply (since_then s _ t1 _ log); [|done]. cbn [app]. rewrite on_sock_touched by set_solver.
    rewrite <- !app_assoc. cbn. f_equal. apply (knows_log _ _ Hk). by left.
  - split; [constructor; [by eexists _, _|done]|]. cbn. by rewrite Z.eqb_refl.
Qed.

(** The loops keep everything they read. *)
Lemma owns_read_head fuel s text buffer t0 h :
  reading s text buffer t0 h ->
  tidy handler_own (still s)
    (fun t h r => holding s h
       /\ match r with Ok (n, buf) => reading s text buf t h /\ (n <= length buf)%nat | Err _ => True end) t0 h
    (read_head_prog fuel s buffer).
Proof.
  revert buffer t0 h. induction fuel as [|fuel IH]; intros buffer t0 h Hb; cbn [read_head_prog];
    (destruct (find_subslice buffer HEADER_END) as [p|] eqn:Ep;
     [apply find_subslice_spec in Ep as (a & r & -> & ->); split; [by eapply reading_holding|];
      split; [done|rewrite !length_app; cbn; lia]|]);
    [split; [by eapply reading_holding|done]|].
  eapply owns_bind; [by apply owns_read_more| |]; [|by intros e t h' _ [? _]].
  intros data t h' _ [_ Hd]. by apply IH.
Qed.

(** A rest of what was read. *)
Definition rest_read (s : sock) (text body : bytes) (t : trace) (h : list (sock * trace)) : Prop :=
  exists buffer n, reading s text buffer t h /\ (n <= length buffer)%nat /\ body = drop n buffer.

Lemma rest_read_holding s text body t h : rest_read s text body t h -> holding s h.
Proof. intros (buffer & n & Hr & _). by eapply reading_holding. Qed.

Lemma owns_read_body fuel s text total body t0 h :
  rest_read s text body t0 h ->
  tidy handler_own (still s)
    (fun t h r => holding s h /\ match r with Ok b => rest_read s text b t h | Err _ => True end) t0 h
    (read_body_prog fuel s total body).
Proof.
  revert body t0 h. induction fuel as [|fuel IH]; intros body t0 h Hb; cbn [read_body_prog];
    (case_bool_decide; [|by split; [eapply rest_read_holding|]]); [by split; [eapply rest_read_holding|]|].
  destruct Hb as (buffer & n & Hr & Hn & ->).
  eapply owns_bind; [by apply owns_read_more| |by intros e t h' _ [? _]].
  intros data t h' _ [_ Hd]. apply IH. exists (buffer ++ data), n. split; [done|].
  split; [rewrite length_app; lia|]. by rewrite drop_app_le.
Qed.

Lemma owns_build_response rq host port s status hd body t0 h :
  rest_read s (raw_request_text rq host port) body t0 h ->
  tidy handler_own (still s)
    (fun t h r => holding s h /\ match r with Ok rs => raw_matched rq rs t_req t | Err _ => True end) t0 h
    (build_response_prog status hd body).
Proof.
  intros Hb. unfold build_response_prog.
  destruct (rh_bad hd); (split; [by eapply rest_read_holding|]); [done|].
  destruct Hb as (buffer & n & (reads & r & log & t1 & _ & _ & _ & _ & Hc & Hf & <-) & _ & ->).
  by exists s, host, port, reads, r, n.
Qed.

Lemma owns_raw_exchange fuel rq host port s h t0 :
  t_req `suffix_of` t0 -> holding s h ->
  tidy handler_own (still s)
    (fun t h r => holding s h /\ match r with Ok rs => raw_matched rq rs t_req t | Err _ => True end) t0 h
    (raw_exchange_prog fuel cfg rq host port s).
Proof.
  intros Hreq [log ->]. unfold raw_exchange_prog.
  eapply (tidy_on _ _ _ [] (fun t => env_nodelay t s)); [by apply still_holding; eexists|done..|].
  intros [u|e] t Ht _; [|split; [by eexists|done]]. cbn [pure pbind map_err].
  eapply (tidy_on _ _ _ _ (fun t => env_write t s (raw_request_text rq host port)));
    [by apply unwinds_on_own|done..|].
  intros [w|] t1 Ht1 Hk; [|split; [by eexists|done]]. set (ev := EvWrite _ _ _).
  assert (Hreq1 : t_req `suffix_of` t1).
  { etrans; [exact Hreq|]. etrans; [exact Ht|]. etrans; [|exact Ht1]. by apply suffix_cons_r. }
  assert (Hread : reading s (raw_request_text rq host port) [] (ev :: t1) [(s, ev :: EvNodelay s (Ok u) :: log)]).
  { exists [], w, (EvNodelay s (Ok u) :: log), t1. split; [done|]. split; [done|]. split; [done|].
    split; [apply (knows_log _ _ Hk); by left|]. split; [|done]. exists [], [ev], t1. split; [done|]. split; [done|].
    by rewrite on_sock_touched by set_solver. }
  eapply owns_bind; [by apply owns_read_head| |by intros e t2 h2 _ [? _]].
  intros [n buffer] t2 h2 _ (Hh & Hb & Hn).
  destruct (from_utf8 _); [|done]. destruct (split_crlf _) as [|line lines]; [done|]. cbv zeta.
  assert (Hrest : rest_read s (raw_request_text rq host port) (drop n buffer) t2 h2) by by exists buffer, n.
  destruct (rh_content_length _) as [total|]; [|by apply (owns_build_response _ host port)].
  destruct (rh_chunked _); [by apply (owns_build_response _ host port)|]. destruct (negb _); [done|].
  eapply owns_bind; [by apply owns_read_body| |by intros e t3 h3 _ [? _]].
  intros body t3 h3 _ [_ Hbody]. by apply (owns_build_response _ host port).
Qed.

(** What a task that may run out of fuel ends with: no connection, unless it is
    still running. *)
Definition released {A} (Q : trace -> A -> Prop) (t : trace) (h : list (sock * trace)) (r : result stop A) : Prop :=
  match r with
  | Ok a => h = [] /\ Q t a
  | Err StopRunning => True
  | Err _ => h = []
  end.

Lemma owns_closing {A} (Q : trace -> A -> Prop) s (p : prog Handler stop A) t0 h :
  (forall t t' a, t `suffix_of` t' -> Q t a -> Q t' a) ->
  tidy handler_own (still s)
    (fun t h r => match r with Ok a => holding s h /\ Q t a | Err StopRunning => True | Err _ => holding s h end) t0 h p ->
  owns handler_own (released Q) t0 h (closing_prog s p).
Proof.
  intros HQ Hp. eapply (owns_bind _ (fun t h r => match r with
    | Ok (Ok a) => holding s h /\ Q t a | Ok (Err StopRunning) => True | Ok (Err _) => holding s h
    | Err _ => False end)); [| |done].
  { apply owns_attempt. eapply tidy_guarded; [exact Hp|]. intros t h1 _ (log & h2 & Hh). by eapply unwinds_close. }
  intros r t h1 _ Hr.
  assert (Hclose : holding s h1 -> forall q, (forall t', t `suffix_of` t' -> released Q t' [] q) ->
            owns handler_own (released Q) t h1 (unwind [io_close s] ~;; pure q)).
  { intros [log ->] q Hq. apply (tidy_unwind_then _ _ (fun h => h = [])); [by eapply unwinds_close|done|].
    intros t' h' Ht' ->. by apply Hq. }
  destruct r as [a|[| |e]]; [destruct Hr as [Hh Ha]|..]; try done; apply Hclose; try done.
  intros t' Ht'. split; [done|]. by eapply HQ.
Qed.

Lemma owns_forward_raw_request patience fuel rq endpoint t0 :
  t_req `suffix_of` t0 ->
  owns handler_own (released (fun t rs => pooled_matched cfg rq rs t_req t \/ raw_matched rq rs t_req t)) t0 []
    (forward_raw_request_prog (T := T) patience fuel cfg rq endpoint).
Proof.
  intros Hreq. unfold forward_raw_request_prog. destruct (negb _).
  { apply owns_with_err. eapply owns_mono; [|by apply owns_forward_request].
    intros t h [rs|e] _ [-> Hrs]; [split; [done|by left]|done]. }
  destruct (parse_endpoint endpoint 80) as [host port]. cbv zeta.
  destruct (split_authority _) as [[h p]|e]; [|done].
  apply owns_connect; [done..| |intros [[fd|e]|] t _ Ho; [by destruct (Ho fd)|done..]]. intros fd t Ht _.
  apply owns_closing.
  { intros t1 t2 rs Ht2 [?|?]; [left; by eapply pooled_matched_later|right; by eapply raw_matched_later]. }
  eapply owns_mono; [|apply owns_raw_exchange; [|by eexists]].
  2: { etrans; [exact Hreq|]. etrans; [exact Ht|]. by apply suffix_cons_r. }
  intros t1 h1 [rs|[| |e]] _ [Hh Hrs]; try done. split; [done|by right].
Qed.

Lemma owns_choose_endpoint rq t0 :
  hc_request_handler cfg = None -> hc_direct_response cfg = None ->
  owns handler_own
    (released (fun _ chosen => match chosen with Ok _ => True | Err rs => own_response cfg rq rs end)) t0 []
    (choose_endpoint_prog cfg rq).
Proof.
  intros Hh Hd. unfold choose_endpoint_prog, own_response. rewrite Hh, Hd.
  destruct (hc_fixed_backend cfg) as [fixed|]; [done|].
  destruct (extract_host rq) as [name|rs] eqn:En; [|by split; [|left]].
  eapply (owns_bind _ (fun _ h' _ => h' = [])); [by apply owns_attempt, owns_handler_route| |by intros [] t h _ ->].
  intros [cr|e] t h _ ->; [done|]. split; [done|]. right; left. by exists e.
Qed.

Lemma owns_handle patience fuel rq t0 :
  t_req `suffix_of` t0 ->
  owns handler_own (released (fun t rs => answer_to cfg rq rs t_req t)) t0 []
    (handle_prog (T := T) patience fuel cfg rq).
Proof.
  intros Hreq. unfold handle_prog. destruct (hc_request_handler cfg) as [f|] eqn:Hf.
  { apply owns_atom. intros w F s t _ HI. unfold wp, call_handler. destruct (f t rq) as [rs|e] eqn:Ef;
      exists []; (split; [done|]); (split; [done|]); (split; [done|]); left; unfold own_response; rewrite Hf;
      [left; by exists t|by right]. }
  destruct (hc_direct_response cfg) as [body|] eqn:Hd.
  { split; [done|]. left. unfold own_response. by rewrite Hf, Hd. }
  eapply owns_bind; [by apply owns_choose_endpoint| |by intros [] t h _ Hr].
  intros [endpoint|rs] t h Ht [-> Hchosen]; [|by split; [|left]].
  assert (Hreq' : t_req `suffix_of` t) by by etrans.
  eapply (owns_bind _ (fun t h r => match r with
    | Ok r => released (fun t rs => pooled_matched cfg rq rs t_req t \/ raw_matched rq rs t_req t) t h r
    | Err _ => False end)); [| |done].
  { apply owns_attempt. destruct (hc_raw_backend cfg); [by apply owns_forward_raw_request|].
    apply owns_with_err. eapply owns_mono; [|by apply owns_forward_request].
    intros t1 h1 [rs|e] _ [-> Hrs]; [by split; [|left]|done]. }
  intros [rs|[| |e]] t1 h1 _ Hr; try done.
  - destruct Hr as [-> Hrs]. split; [done|by right].
  - cbn in Hr. subst. split; [done|]. left. unfold own_response. rewrite Hf, Hd. by right; right.
Qed.
End Request.

(** The reply of a task that kept its client's connection to itself since it read
    the request, at [t_req]. *)
Lemma owns_reply {E C} (Q : trace -> list (sock * trace) -> result E C -> Prop) client rq rs t_req
    (k : prog Handler E C) t0 :
  let asked := EvHttpRequest client (Some rq) in
  (asked :: t_req) `suffix_of` t0 -> answer_to cfg rq rs t_req t0 ->
  (forall t log, tidy handler_own (still client) Q t [(client, log)] k) ->
  tidy handler_own (still client) Q t0 [(client, asked :: on_sock client t_req)]
    (atom (io_event (fun _ => tt) (fun _ => EvHttpReply client rs)) ~;; k).
Proof.
  intros asked Hasked Ha Hk.
  eapply (tidy_on _ _ _ [] (fun _ => tt) (fun _ => EvHttpReply client rs)); [by apply still_holding; eexists|done..| |done].
  intros t _ Ht Hkn. assert (Hat : (asked :: t_req) `suffix_of` t) by by etrans.
  destruct Hat as [l ->]. exists rq, l, t_req. split; [done|].
  split; [|by eapply answer_to_later].
  apply (since_then client l (asked :: t_req) [] (asked :: on_sock client t_req)).
  - apply (knows_log _ _ Hkn). by left.
  - by rewrite on_sock_touched by set_solver.
Qed.

Lemma still_beside s log h : beside [(s, log)] (fun _ => True) h -> still s h.
Proof. intros (h1 & -> & _). exists log, h1. by rewrite Permutation_app_comm. Qed.

(** A task that serves [client] holds its connection, until it is over. *)
Definition keeps_client (client : sock) (t : trace) (h : list (sock * trace)) (r : result stop unit) : Prop :=
  match r with Ok _ => holding client h /\ True | Err StopRunning => True | Err _ => holding client h end.

Lemma owns_serve_connection patience requests fuel keep_alive client h t0 :
  holding client h ->
  tidy handler_own (still client) (keeps_client client) t0 h
    (serve_connection_prog (T := T) patience requests fuel cfg keep_alive client).
Proof.
  revert t0 h. induction requests as [|requests IH]; intros t0 h [log ->]; cbn [serve_connection_prog];
    (eapply (tidy_on _ _ _ [] (fun t => http_next t client)); [by apply still_holding; eexists|done..|]);
    (intros [rq|] t _ Hk; [|split; [by eexists|done]]);
    rewrite <- (knows_log _ _ Hk client log) by (by left);
    (eapply owns_bind;
      [eapply tidy_mono; [apply still_beside|done|];
       apply (tidy_frame _ _ (released (fun t' rs => answer_to cfg rq rs t t')) _ []), owns_handle; by apply suffix_cons_r|..]);
    try (intros [| |e] t1 h1 _ (h2 & -> & Hr); cbn in Hr; subst; [by eexists|done|by eexists]);
    intros rs t1 h1 Ht1 (h2 & -> & -> & Ha); (apply owns_reply; [done..|]); intros t2 log';
    (destruct keep_alive; [|by split; [eexists|]]); [done|].
  apply IH. by eexists.
Qed.

Lemma owns_serve_client patience requests fuel (config : HttpConfig CD CR) client h t0 :
  cfg = handler_config config -> holding client h ->
  owns handler_own (released (fun _ _ => True)) t0 h
    (serve_client_prog (T := T) patience requests fuel config client).
Proof. intros Hc Hh. unfold serve_client_prog. rewrite <- Hc. by apply owns_closing, owns_serve_connection. Qed.

(** A round begins and ends with nothing. *)
Lemma owns_worker_round patience requests fuel (config : HttpConfig CD CR) listener t0 :
  cfg = handler_config config ->
  owns handler_own (fun _ _ _ => True) t0 []
    (worker_round_prog (T := T) patience requests fuel config listener).
Proof.
  intros Hc. unfold worker_round_prog.
  apply (owns_bind _ (fun _ h r => match r with Ok (Some client) => holding client h | _ => h = [] end)); [| |done].
  - apply owns_accept; [done..| |done]. intros fd t _.
    eapply (tidy_on _ _ _ _ (fun t => env_nodelay t fd) (EvNodelay fd)); [by eapply unwinds_close|done..|].
    intros u t1 _ _. by eexists.
  - intros [client|] t h _ Hh; [|done]. eapply (owns_bind _ (fun _ _ _ => True)); [|by intros [u|[]]|done].
    apply owns_attempt. eapply owns_mono; [|by apply owns_serve_client]. done.
Qed.
End HandlerOwns.

(** ** The process: all its workers *)
Section ProcessOwns.
Context `{Env} `{HttpLib} `{HyperServer} {CD CR T K : Type}.
Context `{TtlCacheLaws bytes IpAddr CD} `{TtlCacheLaws bytes CacheEntry CR} `{Semaphore T}.
Context `{KvStore bytes (Pool T) K, !KvStoreLaws bytes (Pool T) K}.
Context (config : HttpConfig CD CR) (Hfresh : fresh_descriptors).

Abbreviation Process := (HttpProcess CD CR K).
Abbreviation cfg := (handler_config config).
Abbreviation handler_own :=
  (own_inv (fun s : HttpState CD CR K => idle_in (hs_pools s)) (reply_matched cfg)).

Definition idle_at (i : nat) (p : Process) : bytes -> list sock :=
  idle_in (hs_pools (worker_state (T := T) i p)).

(** What the other workers' pools keep. *)
Definition idle_elsewhere (i : nat) (p : Process) (s : sock) : Prop :=
  exists j name, j <> i /\ s ∈ idle_at j p name.

(** Every connection is owned by one task, or idle once in one pool of one
    worker; every reply so far answers the request before it. *)
Definition process_own (_ : unit) (p : Process) (t : trace) (G : list (sock * trace)) : Prop :=
  own_inv (fun p (k : nat * bytes) => idle_at k.1 p k.2) (reply_matched cfg) (fun _ => False) p t G.

(** What a worker sees of it, *)
Lemma process_own_at w i p t G :
  process_own w p t G -> handler_own (idle_elsewhere i p) (worker_state (T := T) i p) t G.
Proof.
  intros [[H1' H2' _ H4' H5' H6'] Ht]. split; [|done]. split; try done.
  - intros s (j & name & _ & Hs). by destruct (H4' (j, name) s Hs) as (? & ? & _).
  - intros name s Hs. destruct (H4' (i, name) s Hs) as (? & ? & _). split; [done|]. split; [done|].
    intros (j & name' & Hj & Hs'). specialize (H6' (i, name) (j, name') s Hs Hs'). congruence.
  - intros name. apply (H5' (i, name)).
  - intros name name' s Hs Hs'. specialize (H6' (i, name) (i, name') s Hs Hs'). congruence.
Qed.

(** the idle clients after a worker's step, *)
Lemma idle_at_put i j x (p : Process) name :
  idle_at j (set_worker_state i x p) name
  = if decide (i = j /\ is_Some (ht_workers p !! i)) then idle_in (hs_pools x) name else idle_at j p name.
Proof.
  unfold idle_at. case_decide as Hd.
  - destruct Hd as [<- [w Hw]]. rewrite worker_state_same. by rewrite Hw.
  - destruct (decide (i = j)) as [<-|Hj].
    + rewrite worker_state_same. destruct (ht_workers p !! i) as [w|] eqn:Hw; [|done].
      destruct Hd. split; [done|by eexists].
    + by rewrite worker_state_elsewhere.
Qed.
Lemma idle_at_none i (p : Process) name : ht_workers p !! i = None -> idle_at i p name = [].
Proof. intros Hn. unfold idle_at, worker_state. rewrite Hn. apply idle_in_empty. Qed.

(** which are the worker's own, or were there before, elsewhere, *)
Lemma idle_at_put_inv i j x (p : Process) name s :
  s ∈ idle_at j (set_worker_state i x p) name ->
  j = i /\ s ∈ idle_in (hs_pools x) name \/ j <> i /\ s ∈ idle_at j p name.
Proof.
  rewrite idle_at_put. case_decide as Hd; [by destruct Hd as [<- _]; left|]. intros Hs. right. split; [|done].
  intros ->. destruct (ht_workers p !! i) eqn:Hw; [destruct Hd; by split|].
  rewrite idle_at_none in Hs by done. by apply elem_of_nil in Hs.
Qed.

(** and the whole process after it. *)
Lemma process_own_put w i x (p : Process) t t' G G' :
  process_own w p t G -> handler_own (idle_elsewhere i p) x t' G' ->
  process_own w (set_worker_state i x p) t' G'.
Proof.
  intros [[_ _ _ _ P5 P6] _] [[X1 X2 X3 X4 X5 X6] Ht]. split; [|done]. split; try done.
  - intros [j name] s Hs. apply idle_at_put_inv in Hs as [[Hj Hs]|[Hj Hs]]; cbn in *.
    + subst. destruct (X4 _ _ Hs) as (? & ? & _). naive_solver.
    + destruct (X3 s) as [? ?]; [by exists j, name|]. naive_solver.
  - intros [j name]. cbn. rewrite idle_at_put. case_decide; [done|apply (P5 (j, name))].
  - intros [j n1] [k n2] s Hs Hs'.
    apply idle_at_put_inv in Hs as [[Hj Hs]|[Hj Hs]], Hs' as [[Hk Hs']|[Hk Hs']]; cbn in *.
    + subst. f_equal. by eapply X6.
    + destruct (X4 _ _ Hs) as (_ & _ & Hn). destruct Hn. by exists k, n2.
    + destruct (X4 _ _ Hs') as (_ & _ & Hn). destruct Hn. by exists j, n1.
    + by apply (P6 (j, n1) (k, n2) s).
Qed.

Lemma owns_process_round patience requests fuel i t0 :
  owns process_own (fun _ _ _ => True) t0 []
    (process_round_prog (T := T) patience requests fuel config i).
Proof.
  eapply (owns_bind _ (fun _ h' _ => h' = [])); [| |done].
  { apply owns_atom. intros w F p t _ HI. by exists []. }
  intros [listener|] t h _ ->; [|done].
  apply (owns_zoom _ handler_own); [|by apply owns_worker_round].
  intros w p t1 G HI. exists (idle_elsewhere i p). split; [by eapply process_own_at|].
  intros x t' G' HX _. by eapply process_own_put.
Qed.

(** What the rest of the process does is no reply, and on no connection that is
    open: not the clients', not the pools'. *)
Definition no_reply (ev : event) : Prop := match ev with EvHttpReply _ _ => False | _ => True end.

Lemma process_own_meanwhile w (p p' : Process) t t' G :
  (forall i name, idle_at i p' name = idle_at i p name) -> leaves_connections no_reply t t' ->
  process_own w p t G -> process_own w p' t' G.
Proof.
  intros Hp Hl. apply (own_inv_leaves _ _ _ p p' t t' G no_reply); [by intros []|by intros []|done].
Qed.

(** What else happens in the process, as in HttpConcurrency. *)
Definition process_apart (resolver : option Resolve) (x y : Process * trace) : Prop :=
  process_meanwhile (T := T) true config resolver x y /\ leaves_connections no_reply x.2 y.2.

Lemma idle_at_spawn l a k d (p : Process) i name :
  (forall name, idle_in (k : K) name = []) ->
  idle_at i (mkHttpProcess (ht_workers p ++ [mkWorker l a k]) d) name = idle_at i p name.
Proof.
  intros Hk. destruct (decide (i = length (ht_workers p))) as [->|Hi].
  - rewrite (idle_at_none _ p) by by apply lookup_ge_None. unfold idle_at, worker_state. cbn.
    by rewrite lookup_app_r, Nat.sub_diag by lia.
  - unfold idle_at, worker_state. cbn. rewrite lookup_snoc_other by done. by destruct (ht_workers p !! i).
Qed.

Lemma process_own_apart resolver w (p p' : Process) t t' G :
  process_own w p t G -> process_apart resolver (p, t) (p', t') ->
  process_own w p' t' G /\ t `suffix_of` t'.
Proof.
  intros HI [Hm Hl]. cbn in Hl. split.
  - eapply process_own_meanwhile; [|exact Hl|exact HI]. intros i name.
    inversion Hm as [ev ? ? Hev|wk ? ? r ? ? Hs|j x ? ? Hx]; subst; [done| |].
    + unfold spawn_worker in Hs. destruct (worker_setup _ _ _ _ _) as [[r0 r1] t1]. injection Hs as _ <- _.
      apply idle_at_spawn, idle_in_empty.
    + rewrite idle_at_put. case_decide as Hd; [|done]. by destruct Hd as [<- _].
  - by eapply leaves_suffix.
Qed.

Lemma process_own_initial : process_own tt process_initial [] [].
Proof.
  split; [|constructor]. apply (exclusive_idle _ (fun _ => [])); [|apply exclusive_nothing].
  intros [i name]. by apply idle_at_none.
Qed.
End ProcessOwns.

(** ** Properties *)
Section Properties.
Context `{Env} `{HttpLib} `{HyperServer} {CD CR T K : Type}.
Context `{TtlCacheLaws bytes IpAddr CD} `{TtlCacheLaws bytes CacheEntry CR} `{Semaphore T}.
Context `{KvStore bytes (Pool T) K, !KvStoreLaws bytes (Pool T) K}.

Abbreviation Process := (HttpProcess CD CR K).
Abbreviation serving := (config (K := nat) (S := Process) (E := stop) (A := unit)).

(** The process of HttpConcurrency, validation switched off or not; the rest of
    the process leaves the connections that are open to their tasks. *)
Definition apart_step (patience requests fuel : nat) (resolver : option Resolve)
    (config : HttpConfig CD CR) : serving -> serving -> Prop :=
  drop_step (process_round_prog (T := T) patience requests fuel config) (process_apart (T := T) config resolver).

(** Nothing that [start] does opens a connection. *)
Definition start_event (ev : event) : Prop := opens_nothing ev /\ no_exchange ev.

(** [HttpServer::start] is part of what the process may do, *)
Lemma start_http_rely (rely : Process * trace -> Process * trace -> Prop) (body : nat -> prog Process stop unit)
    resolver config r (p : Process) t :
  hp_worker_start config = None ->
  (forall p t ev, start_event ev -> (forall s, is_open s t = false) -> rely (p, t) (p, ev :: t)) ->
  (forall w r p t p', spawn_worker (T := T) (E := io_error) resolver config w p t = (r, p', t) -> rely (p, t) (p', t)) ->
  start_http (T := T) resolver config process_initial [] = (r, p, t) ->
  rtc (drop_step body rely) (mkConfig [] process_initial []) (mkConfig [] p t).
Proof.
  intros Hhook Hev Hspawn. set (step := drop_step body rely).
  assert (Hio : forall p t t', extends start_event t t' -> (forall s, is_open s t = false) ->
            rtc step (mkConfig [] p t) (mkConfig [] p t')).
  { intros p0 t0 t' (l & -> & Hl) Ho. induction Hl as [|ev l He Hl IH]; [done|].
    destruct (opens_nothing_apart no_exchange t0 (l ++ t0)) as [_ Hlo]; [by exists l|done|].
    eapply rtc_r; [exact IH|]. apply drop_sched, sched_rely. by apply Hev. }
  unfold start_http, bind.
  destruct (inert_start (S := Process) start_event config) with (s := process_initial (CD := CD) (CR := CR) (K := K)) (t := [] : trace) as [Hp He].
  { intros c r0 Hc. destruct c; try done. by destruct (Hc s). }
  { done. }
  destruct (HttpServer.start config process_initial []) as [[[listeners|e] p1] t1]; cbn in He, Hp; subst p1.
  2: { intros [= _ <- <-]. by apply Hio. }
  intros Hs. etrans; [by apply Hio|]. clear He. revert Hs. generalize (process_initial : Process). revert t1.
  induction listeners as [|w rest IH]; intros t1 p1 Hs; cbn [spawn_workers] in Hs.
  { by injection Hs as _ <- <-. }
  unfold bind in Hs. destruct (spawn_worker (E := io_error) resolver config w p1 t1) as [[r1 p2] t2] eqn:E.
  assert (Ht : t2 = t1).
  { unfold spawn_worker, worker_setup in E. rewrite Hhook in E. by injection E as _ _ <-. }
  subst t2. eapply rtc_l; [by eapply drop_sched, sched_rely, Hspawn|].
  destruct r1 as [[]|e]; [by apply IH|]. by injection Hs as _ <- <-.
Qed.
(** with connections left alone. *)
Lemma start_http_apart patience requests fuel resolver config r (p : Process) t :
  hp_worker_start config = None ->
  start_http (T := T) resolver config process_initial [] = (r, p, t) ->
  rtc (apart_step patience requests fuel resolver config) (mkConfig [] process_initial []) (mkConfig [] p t).
Proof.
  intros Hhook Hs. eapply start_http_rely; [done| | |exact Hs].
  - intros p0 t0 ev Hev Ho. split; [by apply other_traffic, Hev|]. apply rtc_once. exists ev. split; [done|].
    split; [destruct Hev as [_ Hev]; by destruct ev|]. intros s. by rewrite Ho.
  - intros w r0 p0 t0 p1 Hw. split; [by eapply worker_spawned|done].
Qed.

End Properties.

(** ** Witness *)

(** Backends that say which path they were asked for last. *)
Definition echo_env : Env := numbered {|
  env_now t := Z.of_nat (List.length t);
  env_dns_init := Ok tt;
  env_lookup _ _ _ := Done (Err (io_other []));
  env_connect _ _ _ _ := Elapsed;
  env_call _ _ := Ok 1;
  env_nodelay _ _ := Ok tt;
  env_write _ _ _ := Done (Ok tt);
  env_flush _ _ := Done (Ok tt);
  env_readable _ _ := Ok tt;
  env_read _ _ _ := Done (Ok []);
  env_read_line _ _ := Ok [];
  env_tls_accept _ _ := Ok tt;
  env_select _ := true;
  env_http_handshake _ _ := Ok tt;
  env_http_ready _ _ := true;
  env_http_send _ _ _ _ := Done (Ok (200, []));
  env_http_request_body _ := Done (Ok []);
  env_http_response_body t s :=
    match on_sock s t with
    | EvHttpSend _ rq _ _ :: _ => Done (Ok (request_path rq))
    | _ => Elapsed
    end;
  env_getsockname _ _ := None;
  env_getpeername _ _ := None |}.

(** Each client asks twice, for a path of its own. *)
Definition echo_hyper : HyperServer := {|
  http_next t client :=
    if bool_decide (length (conversation client t) <= 2)%nat
    then Some (mkHttpRequest GET (Some (B "/" ++ print_dec client)) [(HOST, B "8.8.8.8")]) else None |}.

#[local] Existing Instances echo_env echo_hyper http_example_lib.

Definition echo_started :=
  start_http (T := nat) (Some http_example_resolver) http_concurrency_config (process_initial : ExProcess) [].
Definition echo_body (i : nat) : prog ExProcess stop unit :=
  process_round_prog (T := nat) 1 3 10 http_concurrency_config i.
(** Three clients, with their requests under way together; the third is dropped
    while its first request waits for its reply.  The others' second requests
    use connections that were left idle, one of them the third client's. *)
Definition echo_run :=
  schedule (concat (repeat [2; 1; 0]%nat 60))
    (drop_nth (Ok tt) 2
       (schedule (concat (repeat [0; 1; 2]%nat 18))
          (mkConfig (repeat (0%nat, echo_body 0) 3) echo_started.1.2 echo_started.2))).

Lemma echo_reachable :
  rtc (apart_step (T := nat) 1 3 10 (Some http_example_resolver) http_concurrency_config)
    (mkConfig [] process_initial []) echo_run.
Proof.
  etrans.
  { apply (start_http_apart _ _ _ _ _ echo_started.1.1 echo_started.1.2 echo_started.2); [reflexivity|].
    vm_compute. reflexivity. }
  do 3 (eapply rtc_l; [apply drop_sched, (sched_spawn _ _ 0%nat)|]).
  etrans; [apply rtc_drop, schedule_sched|]. etrans; [apply drop_nth_drop|apply rtc_drop, schedule_sched].
Qed.

(** The second client's second reply, over the connection of the dropped request. *)
Definition echo_reply := EvHttpReply 2 (mkHttpResponse 200 [] (B "/2")).

