(* ===== verification/HttpPermits.v ===== *)
(** * HttpPermits: the permits of the pools, under every interleaving.

    HttpPoolBounds counts permits and clients of one pool in a model of its
    tasks.  Here they are counted for the programs of HttpConcurrency
    themselves: a task owns the permits it was granted, a task that is dropped
    gives them back, and when all tasks are over every permit is back. *)

From S2P Require Import Prelude Text Net Protocol Resolver World Stores Dns Adapter Ssrf Routing.
From S2P Require Import Interleave Ownership RoutingConcurrency.
From S2P Require Import TcpConfig HttpHost HttpPool HttpPoolBounds HttpHandler HttpGuarantees HttpServer HttpWorkers.
From S2P Require Import HttpConcurrency.
Open Scope nat_scope.
Open Scope prog_scope.

(** ** Tokens

    A task serves worker [i], whose entry stays; it holds a permit of a pool of
    [i], and is [busy]: it has, or is dialling, a client under it. *)
Inductive worker_token : Type :=
| Serving (i : nat)
| Permit (i : nat) (name : bytes) (busy : bool).

Definition permit_of (i : nat) (name : bytes) (x : worker_token) : nat :=
  match x with Permit j n _ => if decide (j = i /\ n = name) then 1 else 0 | Serving _ => 0 end.
Definition busy_of (i : nat) (name : bytes) (x : worker_token) : nat :=
  match x with Permit _ _ true => permit_of i name x | _ => 0 end.
Definition held (i : nat) (name : bytes) (G : list worker_token) : nat := sum_list_with (permit_of i name) G.
Definition busy (i : nat) (name : bytes) (G : list worker_token) : nat := sum_list_with (busy_of i name) G.

Lemma held_app i name G G' : held i name (G ++ G') = held i name G + held i name G'.
Proof. apply sum_list_with_app. Qed.
Lemma busy_app i name G G' : busy i name (G ++ G') = busy i name G + busy i name G'.
Proof. apply sum_list_with_app. Qed.
Lemma held_perm i name G G' : G ≡ₚ G' -> held i name G = held i name G'.
Proof. intros HG. unfold held. by rewrite HG. Qed.
Lemma busy_perm i name G G' : G ≡ₚ G' -> busy i name G = busy i name G'.
Proof. intros HG. unfold busy. by rewrite HG. Qed.
Lemma busy_le_held i name G : busy i name G <= held i name G.
Proof.
  unfold busy, held. induction G as [|x G IH]; [done|]. cbn [sum_list_with].
  destruct x as [j|j n [|]]; cbn; lia.
Qed.

(** Tokens of one pool, and what they count for others. *)
Definition of_pool (i : nat) (name : bytes) (h : list worker_token) : Prop :=
  Forall (fun x => exists b, x = Permit i name b) h.
Lemma of_pool_other i name h j name' :
  of_pool i name h -> (j, name') <> (i, name) -> held j name' h = 0 /\ busy j name' h = 0.
Proof.
  intros Hh Hne. induction Hh as [|x h [b ->] _ [IHh IHb]]; [done|]. unfold held, busy in *. cbn.
  rewrite decide_False by (intros [<- <-]; done). rewrite IHh, IHb. by destruct b.
Qed.
Lemma of_pool_serving i name h j : of_pool i name h -> Serving j ∉ h.
Proof. intros Hh Hin. by destruct (proj1 (Forall_forall _ _) Hh _ Hin). Qed.

(** ** One worker's pools *)
Section Pools.
Context `{Env} `{HttpLib} {T K : Type} `{SemaphoreLaws T} `{KvStore bytes (Pool T) K, !KvStoreLaws bytes (Pool T) K}.
Context (i size : nat).
Implicit Types (pools : K) (h F G : list worker_token) (t : trace).

(** Permits are in the semaphore or held; idle clients and those under a permit
    are at most as many as there are permits. *)
Definition pool_counts (G : list worker_token) (pools : K) : Prop :=
  forall name, match kv_get pools name with
    | Some p => sem_available (pl_capacity p) + held i name G = size
                /\ length (pl_idle p) + busy i name G <= size
    | None => held i name G = 0
    end.

(** The other workers' tokens are those of [G0]. *)
Definition same_elsewhere (G0 G : list worker_token) : Prop :=
  (forall j name, j <> i -> held j name G = held j name G0 /\ busy j name G = busy j name G0)
  /\ forall j, Serving j ∈ G -> Serving j ∈ G0.

Definition permits_at (G0 : list worker_token) (pools : K) (_ : trace) (G : list worker_token) : Prop :=
  same_elsewhere G0 G /\ pool_counts G pools.

(** A step on the pool [name] that exchanges the tokens [h] for [h']. *)
Lemma permits_step G0 pools t t' F h h' name p p' :
  kv_get pools name = Some p -> of_pool i name h -> of_pool i name h' ->
  sem_available (pl_capacity p') + held i name h' = sem_available (pl_capacity p) + held i name h ->
  (length (pl_idle p) + busy i name h + busy i name F <= size ->
   sem_available (pl_capacity p) + held i name h + held i name F = size -> busy i name F <= held i name F ->
   length (pl_idle p') + busy i name h' + busy i name F <= size) ->
  permits_at G0 pools t (h ++ F) -> permits_at G0 (kv_insert pools name p') t' (h' ++ F).
Proof.
  intros Hp Hh Hh' Hcap Hidle [[He Hs] Hc].
  assert (Hsame : forall j n, (j, n) <> (i, name) ->
            held j n (h' ++ F) = held j n (h ++ F) /\ busy j n (h' ++ F) = busy j n (h ++ F)).
  { intros j n Hne. rewrite !held_app, !busy_app.
    destruct (of_pool_other _ _ _ _ _ Hh Hne), (of_pool_other _ _ _ _ _ Hh' Hne). lia. }
  split; [split|].
  - intros j n Hj. destruct (Hsame j n) as [-> ->]; [congruence|by apply He].
  - intros j. rewrite elem_of_app. intros [Hin|Hin]; [by apply (of_pool_serving _ _ _ _ Hh') in Hin|].
    apply Hs, elem_of_app. by right.
  - intros n. rewrite kv_get_insert. case_decide as Hn.
    + subst n. specialize (Hc name). rewrite Hp, held_app, busy_app in Hc. rewrite held_app, busy_app.
      pose proof (busy_le_held i name F). lia.
    + destruct (Hsame i n) as [-> ->]; [congruence|]. apply (Hc n).
Qed.

(** A task that holds a permit of a pool holds it of one that is there. *)
Lemma permit_pool G0 pools t F name b h :
  permits_at G0 pools t ((Permit i name b :: h) ++ F) -> exists p, kv_get pools name = Some p.
Proof.
  intros [_ Hc]. specialize (Hc name). destruct (kv_get pools name) as [p|]; [by exists p|].
  unfold held in Hc. cbn in Hc. rewrite decide_True in Hc by done. lia.
Qed.
(** ** The pool's programs *)
Definition nothing (h : list worker_token) : Prop := h = [].
Definition one_permit (name : bytes) (h : list worker_token) : Prop := exists b, h = [Permit i name b].
Abbreviation Inv := permits_at.

Lemma of_pool_nil name : of_pool i name [].
Proof. constructor. Qed.
Lemma of_pool_one name b : of_pool i name [Permit i name b].
Proof. constructor; [by exists b|constructor]. Qed.
Lemma held_one name b : held i name [Permit i name b] = 1.
Proof. unfold held. cbn. by rewrite decide_True. Qed.
Lemma busy_one name b : busy i name [Permit i name b] = if b then 1 else 0.
Proof. unfold busy. destruct b; cbn; [by rewrite decide_True|done]. Qed.
#[local] Hint Resolve of_pool_nil of_pool_one : core.
(** The counts of such tokens, and arithmetic. *)
Ltac counts := rewrite ?held_one, ?busy_one in *; cbn in *; lia.

Lemma owns_acquire_permit {E} name t0 :
  tidy (E := E) Inv nothing
    (fun _ h r => match r with Ok true => h = [Permit i name false] | _ => h = [] end) t0 []
    (atom (acquire_permit (T := T) name)).
Proof.
  apply tidy_atom; [done|]. intros w F pools t _ HI. unfold wp, acquire_permit.
  destruct (kv_get pools name) as [p|] eqn:Ep; [|by exists []]. unfold try_permit.
  destruct (sem_acquire (pl_capacity p)) as [c|] eqn:Ea; [|by exists []].
  apply sem_acquire_some in Ea. exists [Permit i name false]. split; [|done].
  apply (permits_step w pools t _ F [] [Permit i name false] name p); [done|auto|auto|counts|cbn; counts|done].
Qed.

Lemma permits_wait_permit {E} patience name t0 :
  tidy (E := E) Inv nothing
    (fun _ h r => match r with Ok true => h = [Permit i name false] | _ => h = [] end) t0 []
    (wait_permit (T := T) patience name).
Proof.
  revert t0. induction patience as [|n IH]; intros t0; cbn [wait_permit];
    (eapply owns_bind; [apply owns_acquire_permit| |by intros e t h' _ ->]); intros [|] t h' _ ->; done.
Qed.

(** The permit a holder looks for an idle client with is busy from then on. *)
Lemma permits_reuse_idle {E} name t0 :
  tidy (E := E) Inv (one_permit name) (fun _ h r => is_ok r = true /\ h = [Permit i name true]) t0
    [Permit i name false]
    (atom (reuse_idle (T := T) name)).
Proof.
  apply tidy_atom; [by eexists|]. intros w F pools t _ HI. unfold wp, reuse_idle.
  destruct (permit_pool _ _ _ _ _ _ _ HI) as [p Ep]. rewrite Ep. unfold pop_idle.
  assert (Hstep : forall t' p', pl_capacity p' = pl_capacity p -> length (pl_idle p') = pred (length (pl_idle p)) ->
            Inv w (kv_insert pools name p') t' ([Permit i name true] ++ F)).
  { intros t' p' Hcap Hidle. eapply permits_step; [..|exact HI]; [exact Ep|auto|auto|rewrite Hcap; counts|].
    rewrite Hidle. counts. }
  destruct (pl_idle p) as [|c rest] eqn:Ei.
  - exists [Permit i name true]. split; [|done].
    specialize (Hstep t p eq_refl ltac:(by rewrite Ei)). destruct Hstep as [Hs Hc]. split; [done|].
    intros n. specialize (Hc n). rewrite kv_get_insert in Hc. case_decide; [subst; by rewrite Ep|done].
  - destruct (is_healthy t c); exists [Permit i name true]; (split; [by apply Hstep|]); [done|].
    split; [by eexists [_]|done].
Qed.

Lemma unwinds_permit name b t0 : unwinds Inv nothing t0 [Permit i name b] (permit_guard (T := T) name).
Proof.
  intros w F pools t _ HI. unfold wp, on_pool. destruct (permit_pool _ _ _ _ _ _ _ HI) as [p Ep]. rewrite Ep.
  exists []. split; [|done]. unfold drop_permit.
  apply (permits_step w pools t _ F [Permit i name b] [] name p); [done|auto|auto|..|done]; cbn [pl_capacity pl_idle];
    rewrite ?sem_release_available; destruct b; counts.
Qed.

(** Dialling is no business of any pool. *)
Lemma pspares_connect authority lim : pspares (fun pools : K => pools) (fun _ => True) (connect_prog authority lim).
Proof. unfold connect_prog. destruct (split_authority authority) as [[h p]|e]; repeat spares_step. Qed.
Lemma owns_connect_permit name b lim t0 :
  tidy Inv (one_permit name) (fun _ h' _ => h' = [Permit i name b]) t0 [Permit i name b] (connect_prog name lim).
Proof.
  apply (tidy_spares (fun pools : K => pools) (fun _ => True)); [|by eexists|apply pspares_connect]. by intros w s t s' t' G ->.
Qed.

(** The permit of a client that was acquired. *)
Definition client_permit (c : PooledClient) (h : list worker_token) : Prop :=
  match pc_permit c with
  | Some name => pc_pool c = Some name /\ h = [Permit i name true]
  | None => pc_pool c = None /\ h = []
  end.

Lemma permits_acquire_prog patience name lim t0 :
  tidy Inv nothing (fun _ h r => match r with Ok c => client_permit c h | Err _ => h = [] end) t0 []
    (acquire_prog (T := T) patience name lim).
Proof.
  unfold acquire_prog. eapply owns_bind; [apply permits_wait_permit| |by intros e t h _ ->].
  intros [|] t h _ ->; cbv zeta.
  2: { eapply (owns_bind _ (fun _ h r => h = [] /\ r = Ok None)); [done| |by intros e t1 h1 _ [_ ?]]. intros _ t1 h1 _ [-> [= ->]].
       eapply (owns_bind _ (fun _ h r => h = [])); [|by intros [c|e] t2 h2 _ ->|done].
       apply owns_attempt, (tidy_guarded _ _ nothing); [|by intros t2 h2 _ ->].
       apply (tidy_spares (fun pools : K => pools) (fun _ => True)); [by intros w s t2 s' t' G ->|done|apply pspares_connect]. }
  assert (Hguard : forall t h, one_permit name h -> unwinds Inv nothing t h (permit_guard (T := T) name)).
  { intros t1 h1 [b ->]. apply unwinds_permit. }
  eapply (owns_bind _ (fun _ h r => is_ok r = true /\ h = [Permit i name true]));
    [|intros reused t1 h1 _ [_ ->]|by intros e t1 h1 _ [? _]].
  { eapply tidy_guarded; [apply permits_reuse_idle|]. intros t1 h1 _. apply Hguard. }
  destruct reused as [c|]; [done|].
  eapply (owns_bind _ (fun _ h r => is_ok r = true /\ h = [Permit i name true]));
    [|intros r t2 h2 _ [_ ->]|by intros e t2 h2 _ [? _]].
  { apply owns_attempt. eapply tidy_guarded; [eapply owns_mono; [|apply owns_connect_permit]; done|].
    intros t2 h2 _. apply Hguard. }
  destruct r as [c|e]; [done|].
  apply (tidy_unwind_then _ _ nothing); [apply Hguard; by eexists|done|by intros t3 h3 _ ->].
Qed.

(** Giving a client back, and its permit. *)
Lemma unwinds_pooled c h t0 : client_permit c h -> unwinds Inv nothing t0 h (pooled_guard (T := T) c).
Proof.
  unfold client_permit, pooled_guard. intros Hc w F pools t _ HI. unfold wp, give_back.
  destruct (pc_permit c) as [name|].
  2: { destruct Hc as [-> ->]. exists []. split; [exact HI|]. by split; [eexists [_]|]. }
  destruct Hc as [-> ->]. unfold on_pool. destruct (permit_pool _ _ _ _ _ _ _ HI) as [p Ep]. rewrite Ep.
  assert (Hstep : forall t', Inv w (kv_insert pools name (release t (pc_client c) p)) t' ([Permit i name false] ++ F)).
  { intros t'. pose proof (release_idle t (pc_client c) p).
    eapply permits_step; [..|exact HI]; [exact Ep|auto|auto|rewrite release_capacity; counts|counts]. }
  exists [Permit i name false]. split; [apply Hstep|]. split; [by destruct (is_healthy _ _); [|eexists [_]]|].
  apply unwinds_permit.
Qed.

Lemma permits_get_or_create {E} authority t0 :
  tidy (E := E) Inv nothing (fun _ h _ => h = []) t0 [] (atom (get_or_create (T := T) authority size)).
Proof.
  apply tidy_atom; [done|]. intros w F pools t _ [Hs Hc]. unfold wp, get_or_create.
  destruct (kv_get pools authority) as [p|] eqn:Ep; exists []; (split; [|done]); (split; [done|]); [done|].
  intros n. rewrite kv_get_insert. specialize (Hc n). case_decide as Hn; [|done]. subst n. rewrite Ep in Hc.
  cbn in *. rewrite sem_new_available. pose proof (busy_le_held i authority F). unfold busy, held in *. lia.
Qed.
End Pools.

(** ** The handler's programs *)
Section Handlers.
Context `{Env} `{HttpLib} `{HyperServer} {CD CR T K : Type}.
Context `{TtlCache bytes IpAddr CD} `{TtlCache bytes CacheEntry CR} `{SemaphoreLaws T}.
Context `{KvStore bytes (Pool T) K, !KvStoreLaws bytes (Pool T) K}.
Context (i : nat) (cfg : HandlerConfig).

Abbreviation Handler := (HttpState CD CR K).
Abbreviation size := (hc_pool_size cfg).
Definition handler_permits (G0 : list worker_token) (s : Handler) (t : trace) (G : list worker_token) : Prop :=
  permits_at i size G0 (hs_pools s) t G.
Abbreviation Inv := handler_permits.

Lemma permits_zoom w (s : Handler) t G :
  Inv w s t G -> exists v, permits_at i size v (hs_pools s) t G
    /\ forall x t' G', permits_at i size v x t' G' -> t `suffix_of` t' -> Inv w (hs_set_pools x s) t' G'.
Proof. intros HI. by exists w. Qed.

(** A program that leaves the pools alone. *)
Lemma owns_spares {E A} P (D : list worker_token -> Prop) t0 h (q : prog Handler E A) :
  D h -> pspares hs_pools P q -> tidy Inv D (fun _ h' _ => h' = h) t0 h q.
Proof. apply tidy_spares. intros w s t s' t' G Hs _. unfold handler_permits. by rewrite Hs. Qed.

Lemma pspares_route data :
  pspares hs_pools opens_nothing (pzoom (hs_routing (K := K)) hs_set_routing (route_prog (CD := CD) (CR := CR) data)).
Proof. eapply (pspares_mono _ routing_event); [by intros []|]. by eapply pspares_zoom, pemits_route. Qed.
Lemma pspares_exchange s rq host port : pspares hs_pools opens_nothing (exchange_prog (CD := CD) (CR := CR) (K := K) cfg s rq host port).
Proof. unfold exchange_prog. repeat spares_step. Qed.

Lemma owns_pools {E A} (D : list worker_token -> Prop) (Q : trace -> list worker_token -> result E A -> Prop) t0 h
    (q : prog K E A) :
  tidy (permits_at i size) D Q t0 h q -> tidy Inv D Q t0 h (pzoom hs_pools hs_set_pools q).
Proof. apply owns_zoom, permits_zoom. Qed.
Lemma client_permit_invalidate c h : client_permit i c h -> client_permit i (invalidate c) h.
Proof. done. Qed.

(** Whatever becomes of a request, its permit is given back. *)
Lemma owns_forward patience rq endpoint t0 :
  tidy Inv nothing (fun _ h _ => h = []) t0 [] (forward_request_prog (T := T) patience cfg rq endpoint).
Proof.
  unfold forward_request_prog. destruct (parse_endpoint endpoint 80) as [host port]. cbv zeta.
  eapply (owns_bind _ (fun _ h _ => h = [])); [apply owns_pools, permits_get_or_create| |done]. intros name t h _ ->.
  eapply owns_bind; [apply owns_pools, permits_acquire_prog| |by intros e t1 h1 _ ->]. intros pooled t1 h1 _ Hh. cbn in Hh.
  eapply (owns_bind _ (fun _ h r => is_ok r = true /\ client_permit i pooled h));
    [|intros r t2 h2 _ [_ Hh2]|by intros e t2 h2 _ [? _]].
  { apply owns_attempt. eapply (tidy_guarded _ _ (client_permit i pooled)).
    - eapply owns_mono; [|by eapply owns_spares, pspares_exchange]. by intros t2 h2 r _ ->.
    - intros t2 h2 _ Hh2. eapply unwinds_zoom; [apply permits_zoom|by apply unwinds_pooled]. }
  assert (Hdrop : forall c, client_permit i c h2 ->
            tidy Inv nothing (fun _ h _ => h = []) t2 h2
              (pzoom hs_pools hs_set_pools (drop_pooled_prog (E := ProxyError) (T := T) c))).
  { intros c Hc. eapply owns_mono; [|by eapply owns_pools, tidy_unwind, unwinds_pooled]. by intros t3 h3 q _ [? _]. }
  destruct r as [rs|[e []]];
    (eapply (owns_bind _ (fun _ h _ => h = [])); [by apply Hdrop|by intros u t3 h3 _ ->|done]).
Qed.

(** The raw forwarder, and what only reads, use no pool. *)
Lemma pspares_closing {A} P s (p : prog Handler stop A) :
  P (EvClose s) -> pspares hs_pools P p -> pspares hs_pools P (closing_prog s p).
Proof. intros HP Hp. unfold closing_prog. repeat spares_step; done. Qed.
Lemma pspares_read_more s max eof : pspares hs_pools opens_nothing (read_more_prog (CD := CD) (CR := CR) (K := K) s max eof).
Proof. unfold read_more_prog. repeat spares_step. Qed.
Lemma pspares_read_head fuel s buffer : pspares hs_pools opens_nothing (read_head_prog (CD := CD) (CR := CR) (K := K) fuel s buffer).
Proof.
  revert buffer. induction fuel as [|fuel IH]; intros buffer; cbn [read_head_prog]; destruct (find_subslice _ _); try done.
  spares_step; [apply pspares_read_more|apply IH].
Qed.
Lemma pspares_read_body fuel s n body : pspares hs_pools opens_nothing (read_body_prog (CD := CD) (CR := CR) (K := K) fuel s n body).
Proof.
  revert body. induction fuel as [|fuel IH]; intros body; cbn [read_body_prog]; case_bool_decide; try done.
  spares_step; [apply pspares_read_more|apply IH].
Qed.
Lemma pspares_raw_exchange fuel rq host port s :
  pspares hs_pools opens_nothing (raw_exchange_prog (CD := CD) (CR := CR) (K := K) fuel cfg rq host port s).
Proof.
  unfold raw_exchange_prog, build_response_prog.
  repeat first [apply pspares_read_head|apply pspares_read_body|spares_step|progress cbv zeta].
Qed.
Lemma owns_forward_raw patience fuel rq endpoint t0 :
  tidy Inv nothing (fun _ h _ => h = []) t0 [] (forward_raw_request_prog (T := T) patience fuel cfg rq endpoint).
Proof.
  unfold forward_raw_request_prog. destruct (negb _); [apply owns_with_err, owns_forward|].
  apply (owns_spares (fun _ => True)); [done|]. destruct (parse_endpoint endpoint 80) as [host port]. cbv zeta.
  destruct (split_authority _) as [[h p]|e]; [|done].
  repeat spares_step. apply pspares_closing; [done|]. by eapply pspares_mono, pspares_raw_exchange.
Qed.

Lemma pspares_call f rq : pspares hs_pools opens_nothing (atom (call_handler (CD := CD) (CR := CR) (K := K) f rq)).
Proof.
  apply pspares_pending; [|constructor]. intros s t. unfold call_handler. by destruct (f t rq).
Qed.
Lemma pspares_choose rq : pspares hs_pools opens_nothing (choose_endpoint_prog (CD := CD) (CR := CR) (K := K) cfg rq).
Proof. unfold choose_endpoint_prog. repeat first [apply pspares_route|spares_step]. Qed.

Lemma owns_handle_permits patience fuel rq t0 :
  tidy Inv nothing (fun _ h _ => h = []) t0 [] (handle_prog (T := T) patience fuel cfg rq).
Proof.
  unfold handle_prog. destruct (hc_request_handler cfg) as [f|].
  { eapply owns_spares; [done|]. apply pspares_call. }
  destruct (hc_direct_response cfg) as [body|]; [done|].
  eapply (owns_bind _ (fun _ h _ => h = [])); [by eapply owns_spares, pspares_choose| |by intros e t h _ ->].
  intros [endpoint|rs] t h _ ->; [|done].
  eapply (owns_bind _ (fun _ h _ => h = [])); [|by intros [rs|[]] t1 h1 _ ->|done].
  apply owns_attempt. destruct (hc_raw_backend cfg); [apply owns_forward_raw|apply owns_with_err, owns_forward].
Qed.

Lemma owns_serve_permits patience requests fuel keep_alive client t0 :
  tidy Inv nothing (fun _ h _ => h = []) t0 []
    (serve_connection_prog (T := T) patience requests fuel cfg keep_alive client).
Proof.
  assert (Hio : forall E A (f : trace -> A) ev t, tidy (E := E) Inv nothing (fun _ h _ => h = []) t [] (atom (io_event f ev))).
  { intros E A f ev t. apply (owns_spares (fun _ => True)); [done|]. repeat spares_step. }
  revert t0. induction requests as [|requests IH]; intros t0; cbn [serve_connection_prog];
    (eapply (owns_bind _ (fun _ h _ => h = [])); [apply Hio| |done]); (intros [rq|] t h _ ->; [|done]);
    (eapply (owns_bind _ (fun _ h _ => h = [])); [apply owns_handle_permits| |done]); intros rs t1 h1 _ ->;
    (eapply (owns_bind _ (fun _ h _ => h = [])); [apply Hio| |done]); intros u t2 h2 _ ->; by destruct keep_alive.
Qed.

(** Closing a connection, besides. *)
Lemma owns_closing_permits {A} s (p : prog Handler stop A) t0 :
  tidy Inv nothing (fun _ h _ => h = []) t0 [] p -> tidy Inv nothing (fun _ h _ => h = []) t0 [] (closing_prog s p).
Proof.
  intros Hp. assert (Hclose : forall t, unwinds Inv nothing t [] [io_close s]).
  { intros t w F st t1 _ HI. exists []. split; [exact HI|]. split; [by exists [EvClose s]|done]. }
  eapply (owns_bind _ (fun _ h _ => h = [])); [| |done].
  { apply owns_attempt. eapply tidy_guarded; [exact Hp|]. intros t h _ ->. apply Hclose. }
  intros r t h _ ->. assert (Hend : tidy Inv nothing (fun _ h _ => h = []) t [] (unwind [io_close s] ~;; pure r)).
  { apply (tidy_unwind_then _ _ nothing); [apply Hclose|done|by intros t' h' _ ->]. }
  by destruct r as [a|[]].
Qed.

Lemma owns_round_permits patience requests fuel (config : HttpConfig CD CR) listener t0 :
  cfg = handler_config config ->
  tidy Inv nothing (fun _ h _ => h = []) t0 [] (worker_round_prog (T := T) patience requests fuel config listener).
Proof.
  intros Hc. unfold worker_round_prog.
  eapply (owns_bind _ (fun _ h _ => h = [])); [apply (owns_spares (fun _ => True)); [done|]| |done].
  { unfold worker_accept_prog. repeat spares_step. }
  intros [client|] t h _ ->; [|done]. eapply (owns_bind _ (fun _ h _ => h = [])); [|by intros [u|[]] t1 h1 _ ->|done].
  apply owns_attempt. unfold serve_client_prog. rewrite <- Hc. apply owns_closing_permits, owns_serve_permits.
Qed.
End Handlers.

(** ** The process: all its workers *)
Section Process.
Context `{Env} `{HttpLib} `{HyperServer} {CD CR T K : Type}.
Context `{TtlCache bytes IpAddr CD} `{TtlCache bytes CacheEntry CR} `{SemaphoreLaws T}.
Context `{KvStore bytes (Pool T) K, !KvStoreLaws bytes (Pool T) K}.
Context (config : HttpConfig CD CR).

Abbreviation Process := (HttpProcess CD CR K).
Abbreviation cfg := (handler_config config).
Abbreviation size := (hc_pool_size cfg).

Definition pools_at (i : nat) (p : Process) : K := hs_pools (worker_state (T := T) i p).

(** Whoever serves a worker, it is there; permits are counted in its pools. *)
Definition process_permits (_ : unit) (p : Process) (t : trace) (G : list worker_token) : Prop :=
  (forall i, Serving i ∈ G -> is_Some (ht_workers p !! i))
  /\ forall i, pool_counts (T := T) i size G (pools_at i p).
Definition no_permits (h : list worker_token) : Prop := forall i name, held i name h = 0.

Lemma pool_counts_same i (G G' : list worker_token) (pools : K) :
  (forall name, held i name G' = held i name G /\ busy i name G' = busy i name G) ->
  pool_counts (T := T) i size G pools -> pool_counts i size G' pools.
Proof. intros HG Hc name. specialize (Hc name). by destruct (HG name) as [-> ->]. Qed.

Lemma pools_at_put i j x (p : Process) :
  is_Some (ht_workers p !! i) ->
  pools_at j (set_worker_state i x p) = if decide (j = i) then hs_pools x else pools_at j p.
Proof.
  intros [w Hw]. unfold pools_at. case_decide as Hj.
  - subst j. by rewrite worker_state_same, Hw.
  - by rewrite worker_state_elsewhere by done.
Qed.

Lemma process_permits_zoom i w (p : Process) t G :
  process_permits w p t ([Serving i] ++ G) -> exists v, handler_permits i cfg v (worker_state (T := T) i p) t G
    /\ forall x t' G', handler_permits i cfg v x t' G' -> t `suffix_of` t' ->
         process_permits w (set_worker_state i x p) t' ([Serving i] ++ G').
Proof.
  intros [Hs Hc]. assert (Hi : is_Some (ht_workers p !! i)) by (apply Hs; by left).
  exists G. split; [split; [by split|apply (Hc i)]|]. intros x t' G' [[Hsame HsG] HcG] _. split.
  - intros j Hj. assert (Hp : is_Some (ht_workers p !! j)).
    { apply Hs. cbn in *. apply elem_of_cons in Hj as [->|Hj]; [by left|right; by apply HsG]. }
    cbn. destruct (decide (i = j)) as [<-|Hne].
    + rewrite list_lookup_alter_eq. by apply fmap_is_Some.
    + by rewrite list_lookup_alter_ne.
  - intros j. rewrite pools_at_put by done. case_decide as Hj.
    + subst j. exact HcG.
    + eapply pool_counts_same; [|apply (Hc j)]. intros name. by apply Hsame.
Qed.

Lemma process_permits_perm w (p : Process) t G G' : G ≡ₚ G' -> process_permits w p t G -> process_permits w p t G'.
Proof.
  intros HG [Hs Hc]. split; [intros i; rewrite <- HG; apply Hs|]. intros i. eapply pool_counts_same; [|apply Hc].
  intros name. by rewrite (held_perm i name _ _ HG), (busy_perm i name _ _ HG).
Qed.

Lemma owns_process_permits patience requests fuel i t0 :
  tidy process_permits no_permits (fun _ h _ => no_permits h) t0 []
    (process_round_prog (T := T) patience requests fuel config i).
Proof.
  eapply (owns_bind _ (fun _ h r => match r with Ok (Some _) => h = [Serving i] | _ => h = [] end)).
  { apply tidy_atom; [done|]. intros w F p t _ HI. unfold wp. cbn.
    destruct (ht_workers p !! i) as [wk|] eqn:Ew; cbn; [exists [Serving i]|by exists []].
    split; [|done]. destruct HI as [Hs Hc]. split; [|done].
    intros j [[= ->]|Hj]%elem_of_cons; [by eexists|by apply Hs]. }
  2: { by intros e t h _ ->. }
  intros [listener|] t h _ ->; [|done].
  assert (Hno : forall h, keeping [Serving i] nothing h -> no_permits h) by by intros h (h1 & -> & ->).
  eapply tidy_mono; [exact Hno| |eapply (owns_zoom_kept _ (handler_permits i cfg) _ _ [Serving i]);
    [apply process_permits_zoom|by apply owns_round_permits]].
  intros t1 h1 r _. apply Hno.
Qed.

(** The rest of the process: a hook only adds to the history. *)
Definition hook_grows : Prop :=
  match hp_worker_start config with
  | Some hook => forall id r t r' t', hook id r t = (r', t') -> t `suffix_of` t'
  | None => True
  end.

(** The pools stay as they are: a worker that is spawned has none. *)
Lemma meanwhile_pools may_skip resolver (p p' : Process) t t' :
  process_meanwhile (T := T) may_skip config resolver (p, t) (p', t') ->
  (forall i, is_Some (ht_workers p !! i) -> is_Some (ht_workers p' !! i))
  /\ forall i name, kv_get (pools_at i p') name = kv_get (pools_at i p) name.
Proof.
  intros Hm. inversion Hm as [ev ? ? Hev|wk ? ? r ? ? Hs|i x ? ? Hx]; subst; [done| |].
  - unfold spawn_worker in Hs. destruct (worker_setup _ _ _ _ _) as [[r0 r1] t1]. injection Hs as _ <- _.
    split; [intros i [x Hx]; exists x; by apply lookup_app_l_Some|].
    intros i name. unfold pools_at, worker_state. cbn. destruct (decide (i = length (ht_workers p))) as [->|Hi].
    + rewrite lookup_app_r, Nat.sub_diag by done. rewrite (lookup_ge_None_2 (ht_workers p)) by done. done.
    + rewrite lookup_snoc_other by done. by destruct (ht_workers p !! i).
  - split.
    + intros j Hj. cbn. destruct (decide (i = j)) as [<-|Hne].
      * rewrite list_lookup_alter_eq. by apply fmap_is_Some.
      * by rewrite list_lookup_alter_ne.
    + intros j name. unfold pools_at. destruct (decide (i = j)) as [<-|Hne].
      * rewrite worker_state_same. by destruct (ht_workers p !! i).
      * by rewrite worker_state_elsewhere.
Qed.

Lemma process_permits_meanwhile may_skip resolver w (p p' : Process) t t' G :
  hook_grows -> process_permits w p t G -> process_meanwhile (T := T) may_skip config resolver (p, t) (p', t') ->
  process_permits w p' t' G /\ t `suffix_of` t'.
Proof.
  intros Hhook [Hs Hc] Hm. destruct (meanwhile_pools _ _ _ _ _ _ Hm) as [Hw Hp]. split.
  - split; [intros i Hi; by apply Hw, Hs|]. intros i name. rewrite Hp. apply (Hc i name).
  - inversion Hm as [ev ? ? Hev|wk ? ? r ? ? Hsp|i x ? ? Hx]; subst; [by exists [ev]| |done].
    unfold spawn_worker, worker_setup, hook_grows in *. destruct (hp_worker_start config) as [hook|];
      [|by injection Hsp as _ _ <-].
    destruct (hook _ _ t) as [r2 t2] eqn:Eh. injection Hsp as _ _ <-. by eapply Hhook.
Qed.

Lemma process_permits_initial : process_permits tt process_initial [] [].
Proof.
  split; [by intros i ?%elem_of_nil|]. intros i name. unfold pools_at, worker_state.
  cbn [process_initial ht_workers]. rewrite lookup_nil. cbn. by rewrite kv_get_empty.
Qed.
End Process.

(** ** Properties *)
Section Properties.
Context `{Env} `{HttpLib} `{HyperServer} {CD CR T K : Type}.
Context `{TtlCacheLaws bytes IpAddr CD} `{TtlCacheLaws bytes CacheEntry CR} `{SemaphoreLaws T}.
Context `{KvStore bytes (Pool T) K, !KvStoreLaws bytes (Pool T) K}.
Abbreviation serving := (config (K := nat) (S := HttpProcess CD CR K) (E := stop) (A := unit)).

(** C28: permits are never lost, nor made.  From the start of the process, under
    every interleaving of any number of clients on any of its workers, requests
    dropped at any moment included, every pool of every worker has at most its
    size of free permits and at most its size of idle clients; and whenever all
    tasks are over, however they ended, all its permits are free. *)
Theorem concurrent_permits_kept patience requests fuel may_skip resolver (config : HttpConfig CD CR) (c : serving)
    i w name (p : Pool T) :
  hook_grows config ->
  rtc (serving_step (T := T) patience requests fuel may_skip resolver config) (mkConfig [] process_initial []) c ->
  ht_workers (shared c) !! i = Some w -> kv_get (wk_pools w) name = Some p ->
  sem_available (pl_capacity p) <= hc_pool_size (handler_config config)
  /\ length (pl_idle p) <= hc_pool_size (handler_config config)
  /\ ((forall j k q, tasks c !! j = Some (k, q) -> exists r, q = PDone r) ->
      sem_available (pl_capacity p) = hc_pool_size (handler_config config)).
Proof.
  intros Hhook Hr Hw Hp.
  assert (HI : owned_inv (process_permits (T := T) config) tt no_permits c).
  { eapply (owned_inv_reachable _ _ (process_permits config) tt no_permits); [..|exact Hr].
    - intros s t G G'. apply process_permits_perm.
    - intros s t G s' t'. by apply process_permits_meanwhile.
    - intros k t. apply owns_process_permits.
    - apply process_permits_initial. }
  assert (Hat : forall hs, process_permits (T := T) config tt (shared c) (history c) hs ->
            sem_available (pl_capacity p) + held i name hs = hc_pool_size (handler_config config)
            /\ length (pl_idle p) + busy i name hs <= hc_pool_size (handler_config config)).
  { intros hs [_ Hc]. specialize (Hc i name). unfold pools_at, worker_state in Hc. rewrite Hw in Hc. cbn in Hc.
    by rewrite Hp in Hc. }
  split_and!; [destruct HI as (hs & HI & _); specialize (Hat _ HI); lia..|].
  intros Hover. destruct (owned_inv_over _ _ _ _ HI Hover) as (hs & HI' & Hno). specialize (Hat _ HI').
  enough (Hz : held i name (concat hs) = 0) by lia. clear -Hno.
  induction Hno as [|h hs Hh _ IH]; [done|]. cbn [concat]. by rewrite held_app, IH, Hh.
Qed.
End Properties.

(** ** Witness *)
#[local] Existing Instances http_concurrency_env http_concurrency_hyper http_example_lib.

(** The run of HttpConcurrency's witnesses: two requests are answered, the third
    is dropped while it waits for its reply. *)
Definition is_over {S E A} (q : prog S E A) : bool := match q with PDone _ => true | PStep _ _ _ => false end.
Lemma all_over {S E A} (ts : list (nat * prog S E A)) :
  forallb (fun kq => is_over kq.2) ts = true -> forall j k q, ts !! j = Some (k, q) -> exists r, q = PDone r.
Proof.
  intros Hover j k q Hj. rewrite forallb_forall in Hover.
  apply list_elem_of_lookup_2, list_elem_of_In in Hj. specialize (Hover _ Hj). destruct q as [r|]; [by exists r|done].
Qed.

Definition ex_pool (ws : list (Worker (AssocCache bytes CacheEntry) (gmap bytes (Pool nat)))) (i : nat) (name : bytes)
  : option (Pool nat) :=
  match ws !! i with Some w => kv_get (wk_pools w) name | None => None end.
Lemma ex_pool_some ws i name :
  (if ex_pool ws i name then true else false) = true ->
  exists w p, ws !! i = Some w /\ kv_get (wk_pools w) name = Some p.
Proof. unfold ex_pool. destruct (ws !! i) as [w|]; [|done]. destruct (kv_get _ _) as [p|] eqn:Ep; [by exists w, p|done]. Qed.

Lemma concurrent_permits_kept_witness :
  exists w p, ht_workers (shared http_concurrency_run) !! 0 = Some w
    /\ kv_get (wk_pools w) (B "1.1.1.1:80") = Some p
    /\ sem_available (pl_capacity p) = hc_pool_size (handler_config http_concurrency_config).
Proof.
  destruct (ex_pool_some (ht_workers (shared http_concurrency_run)) 0 (B "1.1.1.1:80")) as (w & p & Hw & Hp);
    [vm_compute; reflexivity|]. exists w, p. split; [exact Hw|]. split; [exact Hp|].
  refine (proj2 (proj2 (concurrent_permits_kept (T := nat) 1 2 10 false (Some http_example_resolver)
    http_concurrency_config http_concurrency_run 0 w (B "1.1.1.1:80") p I (http_concurrency_reachable false) Hw Hp)) _).
  apply all_over. vm_compute. reflexivity.
Defined.
