(* ===== verification/HttpLeaks.v ===== *)
(** * HttpLeaks: no connection is forgotten.

    Every connection that the HTTP server accepts or dials is in somebody's
    hands until it is closed: a task has it, or it is idle in a pool.  Requests
    may be dropped at any moment, and descriptors reused in any way. *)

From S2P Require Import Prelude Text Net Protocol Resolver World Stores Dns Adapter Ssrf Routing.
From S2P Require Import Interleave Ownership RoutingConcurrency.
From S2P Require Import TcpConfig HttpHost HttpPool HttpPoolBounds HttpHandler HttpGuarantees HttpServer HttpWorkers.
From S2P Require Import HttpConcurrency HttpExclusive HttpPermits.
Open Scope Z_scope.
Open Scope prog_scope.

(** ** Tokens

    A task works for worker [i], whose entry stays; it knows a pool of [i], which
    stays; it has a connection. *)
Inductive account : Type :=
| InWorker (i : nat)
| InPool (i : nat) (name : bytes)
| Conn (s : sock).
#[export] Instance account_eq_dec : EqDecision account.
Proof. solve_decision. Defined.

(** The connections among [h] are among [l]. *)
Definition only (l : list sock) (h : list account) : Prop := forall s, Conn s ∈ h -> s ∈ l.
Definition forget (s : sock) (h : list account) : list account := filter (fun x => x <> Conn s) h.

Lemma only_nil : only [] [].
Proof. by intros s ?%elem_of_nil. Qed.
Lemma only_conn s l h : only l h -> only (s :: l) (Conn s :: h).
Proof. intros Hh s' [[= ->]|Hs]%elem_of_cons; [by left|right; by apply Hh]. Qed.
Lemma only_pool i name l h : only l h -> only l (InPool i name :: h).
Proof. intros Hh s [?|Hs]%elem_of_cons; [done|by apply Hh]. Qed.
Lemma only_forget s l h : only (s :: l) h -> only l (forget s h).
Proof.
  intros Hh s' [Hne Hs]%list_elem_of_filter. apply Hh in Hs as [->|Hs]%elem_of_cons; [by destruct Hne|done].
Qed.
Lemma forget_in s h x : x ∈ forget s h <-> x <> Conn s /\ x ∈ h.
Proof. unfold forget. by rewrite list_elem_of_filter. Qed.
#[local] Hint Resolve only_nil only_conn only_pool only_forget : core.

(** What a task that is not over may keep: a loop that is cut short is one. *)
Definition left {A} (l : list sock) (_ : trace) (h : list account) (r : result stop A) : Prop :=
  r <> Err StopRunning -> only l h.

Lemma opens_nothing_open s ev t : opens_nothing ev -> is_open s (ev :: t) = true -> is_open s t = true.
Proof.
  destruct ev as [| | | | | | | | | | | | | | |[] ?| | | | | | | |]; cbn; try done. by intros _ [_ ?]%andb_true_iff.
Qed.
Lemma opens_nothing_extends s t t' : extends opens_nothing t t' -> is_open s t' = true -> is_open s t = true.
Proof.
  intros (l & -> & Hl). induction Hl as [|ev l Hev _ IH]; [done|]. intros Ho. apply IH. by eapply opens_nothing_open.
Qed.
Lemma closed_open s s' t : is_open s (EvClose s' :: t) = true -> s <> s' /\ is_open s t = true.
Proof. cbn. intros [Hne Ho]%andb_true_iff. apply negb_true_iff, Z.eqb_neq in Hne. split; [congruence|done]. Qed.

(** ** One worker *)
Section Accounts.
Context {T K : Type} `{Semaphore T} `{KvStore bytes (Pool T) K, !KvStoreLaws bytes (Pool T) K}.
Context (i : nat).
Implicit Types (pools : K) (h F G : list account) (t : trace).

Definition idle_here pools (s : sock) : Prop := exists name, s ∈ idle_in pools name.

(** The other workers' tokens are those of [v.1], and [v.2] is idle with them;
    every open connection is in somebody's hands. *)
Definition accounts_at (v : list account * (sock -> Prop)) pools t G : Prop :=
  (forall x, x ∈ G -> match x with
     | InWorker _ => x ∈ v.1
     | InPool j _ => j = i \/ x ∈ v.1
     | Conn _ => True end)
  /\ (forall name, InPool i name ∈ G -> is_Some (kv_get pools name))
  /\ (forall s, is_open s t = true -> v.2 s \/ idle_here pools s \/ Conn s ∈ G).

(** A step that exchanges the tokens [h] for [h'], *)
Lemma accounts_move v pools pools' t t' h h' F :
  (forall name, is_Some (kv_get pools name) -> is_Some (kv_get pools' name)) ->
  (forall x, x ∈ h' -> x ∈ h \/ (exists s, x = Conn s) \/ exists name, x = InPool i name /\ is_Some (kv_get pools' name)) ->
  (forall s, is_open s t' = true ->
     Conn s ∈ h' \/ is_open s t = true /\ (idle_here pools s \/ Conn s ∈ h -> idle_here pools' s \/ Conn s ∈ h')) ->
  accounts_at v pools t (h ++ F) -> accounts_at v pools' t' (h' ++ F).
Proof.
  intros Hpools Htok Hopen (Hx & Hp & Ho). split_and!.
  - intros x [Hin|Hin]%elem_of_app; [|apply Hx, elem_of_app; by right].
    destruct (Htok x Hin) as [Hin'|[[s ->]|(name & -> & _)]]; [apply Hx, elem_of_app; by left|done|by left].
  - intros name [Hin|Hin]%elem_of_app; [|apply Hpools, Hp, elem_of_app; by right].
    destruct (Htok _ Hin) as [Hin'|[[s ?]|(name' & [= <-] & Hn)]]; [|done|done].
    apply Hpools, Hp, elem_of_app. by left.
  - intros s Hs. rewrite elem_of_app. destruct (Hopen s Hs) as [?|[Hs' Hmove]]; [tauto|].
    destruct (Ho s Hs') as [?|[?|Hin]]; [tauto..|]. apply elem_of_app in Hin. tauto.
Qed.
(** one that opens nothing and leaves the pools, *)
Lemma accounts_quiet v pools t t' G :
  extends opens_nothing t t' -> accounts_at v pools t G -> accounts_at v pools t' G.
Proof.
  intros He (Hx & Hp & Ho). split; [done|]. split; [done|]. intros s Hs. eapply Ho, opens_nothing_extends; [exact He|done].
Qed.
(** one that closes a connection. *)
Lemma accounts_close v pools t s h F :
  accounts_at v pools t (h ++ F) -> accounts_at v pools (EvClose s :: t) (forget s h ++ F).
Proof.
  apply accounts_move; [done|intros x Hx%forget_in; tauto|].
  intros s' [Hne Ho]%closed_open. right. rewrite forget_in. split; [done|]. intros [?|?]; [tauto|]. right. split; [congruence|done].
Qed.

(** ** Rules, for programs on a state with the pools in it *)
Section Rules.
Context `{Env} {S E A : Type} (g : S -> K).
Definition accounts_in v (s : S) t G : Prop := accounts_at v (g s) t G.
Abbreviation Inv := accounts_in.

Lemma leaks_spares {C} (D : list account -> Prop) t0 h (q : prog S E C) :
  D h -> pspares g opens_nothing q -> tidy Inv D (fun _ h' _ => h' = h) t0 h q.
Proof.
  apply tidy_spares. intros v s t s' t' G Hs He. unfold accounts_in. rewrite Hs. by apply accounts_quiet.
Qed.

Lemma leaks_io {C} D d (f : trace -> A) ev (Q : trace -> list account -> result E C -> Prop) t0 h k :
  unwinds Inv D t0 h d -> (forall a, opens_nothing (ev a)) ->
  (forall a t, t0 `suffix_of` t -> tidy Inv D Q t h (k a)) ->
  tidy Inv D Q t0 h (pbind (pending d (io_event f ev)) k).
Proof.
  intros Hd Hev Hk. split; [done|]. intros v F s t Ht HI. exists h. split; [|split; [by eexists [_]|]].
  - eapply accounts_quiet; [|exact HI]. by apply extends_cons.
  - apply Hk. by apply suffix_cons_r.
Qed.

Lemma unwinds_forget l t0 h s : only (s :: l) h -> unwinds Inv (only l) t0 h [io_close s].
Proof.
  intros Hh v F st t _ HI. exists (forget s h). split; [by apply accounts_close|]. split; [by exists [EvClose s]|]. cbn. auto.
Qed.
Lemma leaks_closed {C} (Q : trace -> list account -> result E C -> Prop) l t0 h s r :
  only (s :: l) h -> (forall t h', only l h' -> Q t h' r) ->
  tidy Inv (only l) Q t0 h (unwind [io_close s] ~;; pure r).
Proof.
  intros Hh HQ. eapply tidy_unwind_then; [by apply unwinds_forget|done|]. intros t h' _. apply HQ.
Qed.

Lemma leaks_opened v (s : S) t fd ev h F :
  (forall s', is_open s' (ev :: t) = true -> s' = fd \/ is_open s' t = true) ->
  Inv v s t (h ++ F) -> Inv v s (ev :: t) ((Conn fd :: h) ++ F).
Proof.
  intros Hev. apply accounts_move; [done|intros x [->|?]%elem_of_cons; [by right; left; eexists|by left]|].
  intros s' [->|Hs]%Hev; [left; by left|right]. split; [done|]. rewrite elem_of_cons. tauto.
Qed.

Lemma leaks_connect {C} host port lim (Q : trace -> list account -> result E C -> Prop) l t0 h k :
  only l h ->
  (forall fd t, t0 `suffix_of` t -> tidy Inv (only l) Q t (Conn fd :: h) (k (Done (Ok fd)))) ->
  (forall o t, t0 `suffix_of` t -> (forall fd, o <> Done (Ok fd)) -> tidy Inv (only l) Q t h (k o)) ->
  tidy Inv (only l) Q t0 h (pbind (atom (io_connect host port lim)) k).
Proof.
  intros Hh Hk He. split; [done|]. intros v F s t Ht HI. unfold wp, io_connect, io_event.
  assert (Hl : forall ev : event, t0 `suffix_of` ev :: t) by (intros ev; by apply suffix_cons_r).
  destruct (env_connect t host port lim) as [[fd|e]|].
  - exists (Conn fd :: h). split; [|split; [by eexists [_]|by apply Hk]]. apply leaks_opened; [|done].
    intros s'. cbn. intros [?%Z.eqb_eq|?]%orb_true_iff; [by left|by right].
  - exists h. split; [exact HI|]. split; [by eexists [_]|by apply He].
  - exists h. split; [exact HI|]. split; [by eexists [_]|by apply He].
Qed.
End Rules.

(** Programs on the pools alone. *)
Abbreviation on_pools := (accounts_in (fun pools : K => pools)).

Lemma leaks_connect_prog `{Env} `{HttpLib} l authority lim t0 h :
  only l h ->
  tidy on_pools (only l) (fun _ h' r => match r with Ok c => h' = Conn (cl_sender c) :: h | Err _ => only l h' end) t0 h
    (connect_prog authority lim).
Proof.
  intros Hh. unfold connect_prog. destruct (split_authority authority) as [[host port]|e]; [|done].
  apply leaks_connect; [done| |intros [[fd|e]|] t _ Ho; [by destruct (Ho fd)|done..]]. intros fd t _.
  eapply (leaks_io _ _ _ (fun t => env_nodelay t fd) (EvNodelay fd)); [by apply unwinds_forget, only_conn|done|].
  intros [u|e] t1 _; [|apply leaks_closed; [by apply only_conn|done]].
  eapply (leaks_io _ _ _ (fun t => env_http_handshake t fd) (EvHttpHandshake fd)); [by apply unwinds_forget, only_conn|done|].
  intros [u'|e] t2 _; [done|apply leaks_closed; [by apply only_conn|done]].
Qed.

(** ** The pool's programs *)
Section PoolPrograms.
Context `{Env} `{HttpLib}.

(** A step on the pools that leaves their idle clients. *)
Lemma accounts_same v pools pools' t G :
  (forall name, is_Some (kv_get pools name) -> is_Some (kv_get pools' name)) ->
  (forall name, idle_in pools' name = idle_in pools name) ->
  accounts_at v pools t G -> accounts_at v pools' t G.
Proof.
  intros Hp Hi (Hx & Hk & Ho). split; [done|]. split; [intros name Hn; by apply Hp, Hk|].
  intros s Hs. destruct (Ho s Hs) as [?|[[name Hn]|?]]; [by left| |by right; right].
  right. left. exists name. by rewrite Hi.
Qed.
Lemma idle_same pools name p p' :
  kv_get pools name = Some p -> pl_idle p' = pl_idle p ->
  (forall name', is_Some (kv_get pools name') -> is_Some (kv_get (kv_insert pools name p') name'))
  /\ forall name', idle_in (kv_insert pools name p') name' = idle_in pools name'.
Proof.
  intros Ep Hi. split; intros name'.
  - rewrite kv_get_insert. case_decide; [by eexists|done].
  - rewrite idle_in_insert. case_decide; [subst|done]. unfold idle_in. by rewrite Ep, Hi.
Qed.

Lemma leaks_wait_permit {E} patience name l t0 h :
  only l h -> tidy (E := E) on_pools (only l) (fun _ h' r => is_ok r = true /\ h' = h) t0 h (wait_permit (T := T) patience name).
Proof.
  intros Hh. assert (Ha : forall t0, tidy (E := E) on_pools (only l) (fun _ h' r => is_ok r = true /\ h' = h) t0 h
            (atom (acquire_permit (T := T) name))).
  { intros t1. apply tidy_atom; [done|]. intros v F pools t _ HI. unfold wp, acquire_permit.
    destruct (kv_get pools name) as [p|] eqn:Ep; [|by exists h]. unfold try_permit.
    destruct (sem_acquire _) as [c|]; exists h; [|done]. split; [|done].
    eapply accounts_same; [apply (idle_same _ _ _ (mkPool (pl_endpoint p) c (pl_idle p)) Ep eq_refl)..|exact HI]. }
  revert t0. induction patience as [|n IH]; intros t0; cbn [wait_permit];
    (eapply owns_bind; [apply Ha| |by intros e t h' _ [? _]]); intros [|] t h' _ [_ ->]; done.
Qed.

Lemma unwinds_leaks_permit l name t0 h : only l h -> unwinds on_pools (only l) t0 h (permit_guard (T := T) name).
Proof.
  intros Hh v F pools t _ HI. unfold wp, on_pool.
  destruct (kv_get pools name) as [p|] eqn:Ep; exists h; [|done]. split; [|done].
  eapply accounts_same; [apply (idle_same _ _ _ (drop_permit p) Ep eq_refl)..|exact HI].
Qed.
Lemma unwinds_leaks_held l (permit : bool) name t0 h :
  only l h -> unwinds on_pools (only l) t0 h (if permit then permit_guard (T := T) name else []).
Proof. destruct permit; [apply unwinds_leaks_permit|done]. Qed.

(** An idle client is handed out, or closed. *)
Lemma leaks_reuse_idle {E} name l t0 h :
  only l h ->
  tidy (E := E) on_pools (only l)
    (fun _ h' r => match r with Ok (Some c) => h' = Conn (cl_sender c) :: h | Ok None => h' = h | Err _ => False end) t0 h
    (atom (reuse_idle (T := T) name)).
Proof.
  intros Hh. apply tidy_atom; [done|]. intros v F pools t _ HI. unfold wp, reuse_idle.
  destruct (kv_get pools name) as [p|] eqn:Ep; [|by exists h].
  unfold pop_idle. destruct (pl_idle p) as [|c rest] eqn:Ei; [by exists h|].
  set (p' := mkPool (pl_endpoint p) (pl_capacity p) rest).
  assert (Htake : forall s, idle_here pools s -> idle_here (kv_insert pools name p') s \/ s = cl_sender c).
  { intros s [n Hn]. destruct (decide (name = n)) as [<-|Hne].
    - unfold idle_in in Hn. rewrite Ep, Ei in Hn. cbn in Hn. apply elem_of_cons in Hn as [->|Hn]; [by right|].
      left. exists name. by rewrite idle_in_insert, decide_True.
    - left. exists n. by rewrite idle_in_insert, decide_False. }
  assert (Hkeep : forall n, is_Some (kv_get pools n) -> is_Some (kv_get (kv_insert pools name p') n)).
  { intros n. rewrite kv_get_insert. case_decide; [by eexists|done]. }
  destruct (is_healthy t c).
  - exists (Conn (cl_sender c) :: h). split; [|done]. revert HI. apply accounts_move; [done| |].
    + intros x [->|Hx]%elem_of_cons; [right; left; by eexists|by left].
    + intros s Hs. rewrite elem_of_cons. right. split; [done|]. intros [Hi|?]; [|tauto].
      destruct (Htake s Hi) as [?| ->]; tauto.
  - exists h. split; [|by split; [eexists [_]|]]. revert HI. apply accounts_move; [done|by left|].
    intros s [Hne Hs]%closed_open. right. split; [done|]. intros [Hi|?]; [|tauto].
    destruct (Htake s Hi) as [?|?]; [tauto|done].
Qed.

(** The pool a client goes back to is there. *)
Definition client_known (c : PooledClient) (h : list account) : Prop :=
  forall name, pc_pool c = Some name -> InPool i name ∈ h.

Lemma leaks_acquire_prog patience name lim l t0 h :
  only l h -> InPool i name ∈ h ->
  tidy on_pools (only l)
    (fun _ h' r => match r with
       | Ok c => only (cl_sender (pc_client c) :: l) h' /\ client_known c h'
       | Err _ => only l h' end) t0 h
    (acquire_prog (T := T) patience name lim).
Proof.
  intros Hh Hpool. unfold acquire_prog.
  eapply owns_bind; [by apply leaks_wait_permit| |by intros e t h' _ [? _]]. intros permit t h' _ [_ ->].
  assert (Hgot : forall c n q, (n = None \/ n = Some name) ->
            only (cl_sender c :: l) (Conn (cl_sender c) :: h)
            /\ client_known (mkPooledClient n q c) (Conn (cl_sender c) :: h)).
  { intros c n q Hn. split; [by apply only_conn|]. intros name' Hc. cbn in Hc. right.
    destruct Hn as [->| ->]; [done|by injection Hc as <-]. }
  apply (owns_bind _ (fun _ h' r => match r with Ok (Some c) => h' = Conn (cl_sender c) :: h | _ => h' = h end)); [| |].
  { eapply tidy_guarded; [|intros t1 h1 _; by apply unwinds_leaks_held].
    destruct permit; [|done]. eapply owns_mono; [|by apply leaks_reuse_idle]. by intros t1 h1 [[c|]|e]. }
  2: { by intros e t1 h1 _ ->. }
  intros [c|] t1 h1 _ ->; [apply Hgot; by right|].
  eapply (owns_bind _ (fun _ h' r => match r with Ok (Ok c) => h' = Conn (cl_sender c) :: h | Ok _ => only l h' | Err _ => False end));
    [| |done].
  { apply owns_attempt. eapply tidy_guarded; [|intros t2 h2 _; by apply unwinds_leaks_held].
    eapply owns_mono; [|by apply leaks_connect_prog]. by intros t2 h2 [c|e]. }
  intros [c|e] t2 h2 _ Hh2; [subst h2; apply Hgot; destruct permit; tauto|].
  eapply tidy_unwind_then; [by apply unwinds_leaks_held|done|by intros t3 h3 _].
Qed.

(** Giving a client back. *)
Lemma unwinds_leaks_pooled c l t0 h :
  only (cl_sender (pc_client c) :: l) h -> client_known c h -> unwinds on_pools (only l) t0 h (pooled_guard (T := T) c).
Proof.
  intros Hh Hknown v F pools t _ HI. set (s := cl_sender (pc_client c)) in *. unfold wp.
  assert (Hrest : forall t', unwinds on_pools (only l) t' (forget s h)
            match pc_permit c with Some name => permit_guard (T := T) name | None => [] end).
  { intros t'. destruct (pc_permit c); [apply unwinds_leaks_permit|cbn]; by apply only_forget. }
  unfold give_back. destruct (pc_pool c) as [name|] eqn:Epool.
  2: { exists (forget s h). split; [by apply accounts_close|]. by split; [eexists [_]|]. }
  destruct (kv_get pools name) as [p|] eqn:Ep.
  2: { destruct HI as (_ & Hp & _). destruct (Hp name) as [p Hn]; [|by rewrite Ep in Hn].
       apply elem_of_app. left. by apply Hknown. }
  unfold on_pool. rewrite Ep. unfold release. destruct (is_healthy t (pc_client c)); exists (forget s h).
  - split; [|by split]. revert HI.
    assert (Hidle : forall s', idle_here pools s' \/ s' = s ->
      idle_here (kv_insert pools name (mkPool (pl_endpoint p) (pl_capacity p) (pl_idle p ++ [pc_client c]))) s').
    { intros s' [[n Hn]| ->].
      - exists n. rewrite idle_in_insert. case_decide; [subst n|done]. unfold idle_in in Hn. rewrite Ep in Hn.
        cbn. rewrite map_app. apply elem_of_app. by left.
      - exists name. rewrite idle_in_insert, decide_True by done. cbn. rewrite map_app. apply elem_of_app. right. by left. }
    apply accounts_move.
    + intros n. rewrite kv_get_insert. case_decide; [by eexists|done].
    + intros x Hx%forget_in. tauto.
    + intros s' Hs'. right. split; [done|]. rewrite forget_in. intros [?|?]; [left; by apply Hidle; left|].
      destruct (decide (s' = s)) as [->|Hne]; [left; by apply Hidle; right|right; split; [congruence|done]].
  - split; [|by split; [eexists [_]|]]. apply accounts_close.
    eapply accounts_same; [apply (idle_same _ _ _ p Ep eq_refl)..|exact HI].
Qed.

Lemma leaks_get_or_create {E} authority size l t0 h :
  only l h ->
  tidy (E := E) on_pools (only l)
    (fun _ h' r => match r with Ok name => only l h' /\ InPool i name ∈ h' | Err _ => False end) t0 h
    (atom (get_or_create (T := T) authority size)).
Proof.
  intros Hh. apply tidy_atom; [done|]. intros v F pools t _ HI. unfold wp, get_or_create.
  assert (Hstep : forall pools', is_Some (kv_get pools' authority) ->
            (forall name, is_Some (kv_get pools name) -> is_Some (kv_get pools' name)) ->
            (forall s, idle_here pools s -> idle_here pools' s) ->
            accounts_at v pools' t ((InPool i authority :: h) ++ F)).
  { intros pools' Hn Hk Hi. revert HI. apply accounts_move; [done| |].
    - intros x [->|Hx]%elem_of_cons; [right; right; by eexists|by left].
    - intros s Hs. right. split; [done|]. rewrite elem_of_cons. intros [?|?]; [left; by apply Hi|tauto]. }
  destruct (kv_get pools authority) as [p|] eqn:Ep; exists (InPool i authority :: h).
  - split; [apply Hstep; [by eexists|done|done]|]. split; [done|]. split; [by apply only_pool|by left].
  - split; [|split; [done|split; [by apply only_pool|by left]]]. apply Hstep.
    + rewrite kv_get_insert, decide_True by done. by eexists.
    + intros name. rewrite kv_get_insert. case_decide; [by eexists|done].
    + intros s [n Hn]. exists n. rewrite idle_in_insert. case_decide; [subst n|done].
      unfold idle_in in Hn. rewrite Ep in Hn. by apply elem_of_nil in Hn.
Qed.
End PoolPrograms.
End Accounts.

(** ** The handler's programs *)
Section Handlers.
Context `{Env} `{HttpLib} `{HyperServer} {CD CR T K : Type}.
Context `{TtlCache bytes IpAddr CD} `{TtlCache bytes CacheEntry CR} `{Semaphore T}.
Context `{KvStore bytes (Pool T) K, !KvStoreLaws bytes (Pool T) K}.
Context (i : nat) (cfg : HandlerConfig).

Abbreviation Handler := (HttpState CD CR K).
Abbreviation Inv := (accounts_in i (hs_pools (CD := CD) (CR := CR) (K := K))).
Abbreviation on_pools := (accounts_in i (fun pools : K => pools)).

Lemma leaks_zoom w (s : Handler) t G :
  Inv w s t G -> exists v, on_pools v (hs_pools s) t G
    /\ forall x t' G', on_pools v x t' G' -> t `suffix_of` t' -> Inv w (hs_set_pools x s) t' G'.
Proof. intros HI. by exists w. Qed.
Lemma leaks_pools {E A} D (Q : trace -> list account -> result E A -> Prop) t0 h (q : prog K E A) :
  tidy on_pools D Q t0 h q -> tidy Inv D Q t0 h (pzoom hs_pools hs_set_pools q).
Proof. apply owns_zoom, leaks_zoom. Qed.

(** A program that only uses what it has. *)
Lemma leaks_uses {E A} l t0 h (q : prog Handler E A) :
  only l h -> pspares hs_pools opens_nothing q -> tidy Inv (only l) (fun _ h' _ => only l h') t0 h q.
Proof. intros Hh Hq. eapply owns_mono; [|by apply leaks_spares]. by intros t h' r _ ->. Qed.

Lemma leaks_forward patience rq endpoint l t0 h :
  only l h -> tidy Inv (only l) (fun _ h' _ => only l h') t0 h (forward_request_prog (T := T) patience cfg rq endpoint).
Proof.
  intros Hh. unfold forward_request_prog. destruct (parse_endpoint endpoint 80) as [host port]. cbv zeta.
  eapply owns_bind; [by apply leaks_pools, leaks_get_or_create| |done]. intros name t h1 _ [Hh1 Hpool].
  eapply owns_bind; [by apply leaks_pools, leaks_acquire_prog| |by intros e t1 h2 _]. intros pooled t1 h2 _ [Hh2 Hk].
  eapply (owns_bind _ (fun _ h3 r => is_ok r = true /\ h3 = h2));
    [|intros r t2 h3 _ [_ ->]|by intros e t2 h3 _ [? _]].
  { apply owns_attempt. eapply (tidy_guarded _ _ (fun h3 => h3 = h2)).
    - eapply owns_mono; [|by apply leaks_spares, pspares_exchange]. by intros t2 h3 r _ ->.
    - intros t2 h3 _ ->. eapply unwinds_zoom; [apply leaks_zoom|by apply unwinds_leaks_pooled]. }
  assert (Hdrop : forall c, cl_sender (pc_client c) = cl_sender (pc_client pooled) -> pc_pool c = pc_pool pooled ->
            tidy Inv (only l) (fun _ h _ => only l h) t2 h2
              (pzoom hs_pools hs_set_pools (drop_pooled_prog (E := ProxyError) (T := T) c))).
  { intros c Hs Hp. eapply owns_mono; [|apply leaks_pools, tidy_unwind, unwinds_leaks_pooled].
    - by intros t3 h3 q _ [? _].
    - by rewrite Hs.
    - intros n. rewrite Hp. apply Hk. }
  destruct r as [rs|[e []]]; (eapply owns_bind; [by apply Hdrop|by intros u t3 h3 _|done]).
Qed.

Lemma leaks_forward_left patience rq endpoint l t0 h :
  only l h ->
  tidy Inv (only l) (left l) t0 h (pwith_err StopError (forward_request_prog (T := T) patience cfg rq endpoint)).
Proof.
  intros Hh. apply owns_with_err. eapply owns_mono; [|by apply leaks_forward]. by intros t h' r _ Hh' _.
Qed.

(** A program that owns a connection. *)
Lemma leaks_closing {A} s (p : prog Handler stop A) l t0 h :
  only (s :: l) h -> (forall h, only (s :: l) h -> tidy Inv (only (s :: l)) (left (s :: l)) t0 h p) ->
  tidy Inv (only l) (left l) t0 h (closing_prog s p).
Proof.
  intros Hh Hp. eapply (owns_bind _ (fun t h r => match r with Ok q => left (s :: l) t h q | Err _ => False end)); [| |done].
  { apply owns_attempt. eapply tidy_guarded; [by apply Hp|]. intros t h1 _. apply unwinds_forget. }
  intros r t h1 _ Hr.
  assert (Hclose : r <> Err StopRunning -> tidy Inv (only l) (left l) t h1 (unwind [io_close s] ~;; pure r)).
  { intros Hn. apply leaks_closed; [by apply Hr|]. intros t' h' Hh' _. exact Hh'. }
  destruct r as [a|[]]; try (by apply Hclose). by intros [].
Qed.

Lemma leaks_forward_raw patience fuel rq endpoint l t0 h :
  only l h -> tidy Inv (only l) (left l) t0 h (forward_raw_request_prog (T := T) patience fuel cfg rq endpoint).
Proof.
  intros Hh. unfold forward_raw_request_prog. destruct (negb _); [by apply leaks_forward_left|].
  destruct (parse_endpoint endpoint 80) as [host port]. cbv zeta.
  destruct (split_authority _) as [[hst p]|e]; [|by intros _].
  apply leaks_connect; [done| |intros [[fd|e]|] t _ Ho; [by destruct (Ho fd)|by intros _..]]. intros fd t _.
  apply leaks_closing; [by apply only_conn|]. intros h' Hh'.
  eapply owns_mono; [|by apply leaks_uses, pspares_raw_exchange]. by intros t' h1 r _ Hh1 _.
Qed.

Lemma leaks_handle patience fuel rq l t0 h :
  only l h -> tidy Inv (only l) (left l) t0 h (handle_prog (T := T) patience fuel cfg rq).
Proof.
  intros Hh. assert (Huses : forall A (q : prog Handler stop A) t h, only l h -> pspares hs_pools opens_nothing q ->
            tidy Inv (only l) (fun _ h' _ => only l h') t h q) by (intros; by apply leaks_uses).
  unfold handle_prog. destruct (hc_request_handler cfg) as [f|].
  { eapply owns_mono; [|by apply Huses, pspares_call]. by intros t h' r _ Hh' _. }
  destruct (hc_direct_response cfg) as [body|]; [by intros _|].
  eapply owns_bind; [by apply Huses, pspares_choose| |by intros e t h' _ Hh' _].
  intros [endpoint|rs] t h1 _ Hh1; [|by intros _].
  eapply (owns_bind _ (fun t h r => match r with Ok q => left l t h q | Err _ => False end)); [| |done].
  - apply owns_attempt. destruct (hc_raw_backend cfg); [by apply leaks_forward_raw|by apply leaks_forward_left].
  - intros [rs|[| |e]] t1 h2 _ Hr; intros Hn; by apply Hr.
Qed.

Lemma leaks_serve_connection patience requests fuel keep_alive client l t0 h :
  only l h -> tidy Inv (only l) (left l) t0 h
    (serve_connection_prog (T := T) patience requests fuel cfg keep_alive client).
Proof.
  revert t0 h. induction requests as [|requests IH]; intros t0 h Hh; cbn [serve_connection_prog];
    (eapply (leaks_io _ _ _ [] (fun t => http_next t client) (EvHttpRequest client)); [done..|]);
    (intros [rq|] t _; [|by intros _]);
    (eapply owns_bind; [by apply leaks_handle| |by intros e t1 h1 _ Hr Hn; apply Hr; congruence]); intros rs t1 h1 _ Hr;
    (eapply (leaks_io _ _ _ [] (fun _ => tt) (fun _ => EvHttpReply client rs)); [by apply Hr|done|]);
    intros u t2 _; (destruct keep_alive; [|by intros _; apply Hr]); [by intros []|].
  by apply IH, Hr.
Qed.

Lemma leaks_round patience requests fuel (config : HttpConfig CD CR) listener l t0 h :
  cfg = handler_config config -> only l h ->
  tidy Inv (only l) (left l) t0 h (worker_round_prog (T := T) patience requests fuel config listener).
Proof.
  intros Hc Hh. unfold worker_round_prog.
  apply (owns_bind _ (fun _ h' r => match r with Ok (Some client) => only (client :: l) h' | _ => only l h' end));
    [| |by intros e t h' _ Hh' _].
  - split; [done|]. intros v F s t Ht HI. unfold wp, io_call, io_event.
    destruct (env_call t (Accept listener)) as [fd|e].
    2: { exists h. split; [exact HI|]. by split; [eexists [_]|]. }
    exists (Conn fd :: h). split; [|split; [by eexists [_]|]].
    { eapply leaks_opened; [|done]. intros s'. cbn. intros [?%Z.eqb_eq|?]%orb_true_iff; [by left|by right]. }
    eapply (leaks_io _ _ _ _ (fun t => env_nodelay t fd) (EvNodelay fd)); [by apply unwinds_forget, only_conn|done|].
    intros u t1 _. by apply only_conn.
  - intros [client|] t h1 _ Hh1; [|by intros _].
    eapply (owns_bind _ (fun t h r => match r with Ok q => left l t h q | Err _ => False end)); [| |done].
    + apply owns_attempt. unfold serve_client_prog. rewrite <- Hc. apply leaks_closing; [done|].
      intros h2. apply leaks_serve_connection.
    + intros [u|[]] t1 h2 _ Hr Hn; by apply Hr.
Qed.
End Handlers.

(** ** The process: all its workers *)
Section Process.
Context `{Env} `{HttpLib} `{HyperServer} {CD CR T K : Type}.
Context `{TtlCache bytes IpAddr CD} `{TtlCache bytes CacheEntry CR} `{Semaphore T}.
Context `{KvStore bytes (Pool T) K, !KvStoreLaws bytes (Pool T) K}.
Context (config : HttpConfig CD CR).

Abbreviation Process := (HttpProcess CD CR K).
Abbreviation cfg := (handler_config config).
Abbreviation worker_accounts i := (accounts_in i (hs_pools (CD := CD) (CR := CR) (K := K))).

Definition process_accounts (_ : unit) (p : Process) (t : trace) (G : list account) : Prop :=
  (forall j, InWorker j ∈ G -> is_Some (ht_workers p !! j))
  /\ (forall j name, InPool j name ∈ G -> is_Some (kv_get (pools_at (T := T) j p) name))
  /\ forall s, is_open s t = true -> (exists j, idle_here (pools_at (T := T) j p) s) \/ Conn s ∈ G.

Lemma process_accounts_zoom i w (p : Process) t G :
  process_accounts w p t ([InWorker i] ++ G) -> exists v, worker_accounts i v (worker_state (T := T) i p) t G
    /\ forall x t' G', worker_accounts i v x t' G' -> t `suffix_of` t' ->
         process_accounts w (set_worker_state i x p) t' ([InWorker i] ++ G').
Proof.
  intros (Hw & Hp & Ho). assert (Hi : is_Some (ht_workers p !! i)) by (apply Hw; by left).
  exists (InWorker i :: G, fun s => exists j, j <> i /\ idle_here (pools_at (T := T) j p) s). split.
  - split_and!.
    + intros [j|j n|s] Hx; [by right|right; by right|done].
    + intros name Hn. apply (Hp i name). by right.
    + intros s Hs. destruct (Ho s Hs) as [[j Hj]|[?|Hin]%elem_of_cons]; [|done|tauto].
      destruct (decide (j = i)) as [->|Hne]; [right; by left|left; by exists j].
  - intros x t' G' (Hx & Hp' & Ho') _. split_and!.
    + intros j Hj. assert (Hs : is_Some (ht_workers p !! j)).
      { apply elem_of_cons in Hj as [[= ->]|Hj]; [done|]. apply Hw. exact (Hx _ Hj). }
      cbn. destruct (decide (i = j)) as [<-|Hne];
        [rewrite list_lookup_alter_eq; by apply fmap_is_Some|by rewrite list_lookup_alter_ne].
    + intros j name [?|Hj]%elem_of_cons; [done|]. rewrite pools_at_put by done. case_decide as Hd.
      * subst j. by apply Hp'.
      * destruct (Hx _ Hj) as [?|Hin]; [done|]. by apply Hp.
    + intros s Hs. destruct (Ho' s Hs) as [(j & Hne & Hj)|[Hj|Hin]].
      * left. exists j. by rewrite pools_at_put, decide_False.
      * left. exists i. by rewrite pools_at_put, decide_True.
      * right. by right.
Qed.

Lemma process_accounts_perm w (p : Process) t G G' : G ≡ₚ G' -> process_accounts w p t G -> process_accounts w p t G'.
Proof. intros HG (Hw & Hp & Ho). by split_and!; [intros j|intros j n|intros s]; rewrite <- HG; eauto. Qed.

Lemma leaks_process_round patience requests fuel i t0 :
  tidy process_accounts (only []) (fun _ h r => r <> Err StopRunning -> only [] h) t0 []
    (process_round_prog (T := T) patience requests fuel config i).
Proof.
  eapply (owns_bind _ (fun _ h r => match r with Ok (Some _) => h = [InWorker i] | _ => h = [] end)).
  { apply tidy_atom; [apply only_nil|]. intros w F p t _ HI. unfold wp. cbn.
    destruct (ht_workers p !! i) as [wk|] eqn:Ew; cbn; [exists [InWorker i]|by exists []].
    split; [|done]. destruct HI as (Hw & Hp & Ho). split_and!.
    - intros j [[= ->]|Hj]%elem_of_cons; [by eexists|by apply Hw].
    - intros j n [?|Hj]%elem_of_cons; [done|by apply Hp].
    - intros s Hs. destruct (Ho s Hs) as [?|?]; [by left|right; by right]. }
  2: { intros e t h _ -> _. apply only_nil. }
  intros [listener|] t h _ ->; [|intros _; apply only_nil].
  assert (Hno : forall h, keeping [InWorker i] (only []) h -> only [] h).
  { intros h (h1 & -> & Hh) s [?|Hs]%elem_of_cons; [done|by apply Hh]. }
  eapply tidy_mono; [exact Hno| |eapply (owns_zoom_kept _ (worker_accounts i) _ _ [InWorker i]);
    [apply process_accounts_zoom|apply (leaks_round _ cfg); [done|apply only_nil]]].
  intros t1 h1 r _ (h2 & -> & Hr) Hn. apply Hno. exists h2. split; [done|by apply Hr].
Qed.

(** The rest of the process opens no connection. *)
Definition process_quiet (resolver : option Resolve) (x y : Process * trace) : Prop :=
  process_meanwhile (T := T) true config resolver x y /\ extends opens_nothing x.2 y.2.

Lemma process_accounts_quiet resolver w (p p' : Process) t t' G :
  process_accounts w p t G -> process_quiet resolver (p, t) (p', t') -> process_accounts w p' t' G /\ t `suffix_of` t'.
Proof.
  intros (Hw & Hp & Ho) [Hm He]. cbn in He. destruct (meanwhile_pools _ _ _ _ _ _ _ Hm) as [Hw' Hp'].
  split; [|by eapply extends_suffix]. split_and!.
  - intros j Hj. by apply Hw', Hw.
  - intros j name Hj. rewrite Hp'. by apply Hp.
  - intros s Hs. destruct (Ho s) as [(j & name & Hn)|?]; [by eapply opens_nothing_extends| |by right].
    left. exists j, name. unfold idle_in in *. by rewrite Hp'.
Qed.

Lemma process_accounts_initial : process_accounts tt process_initial [] [].
Proof. by split_and!; [intros j ?%elem_of_nil|intros j name ?%elem_of_nil|]. Qed.
End Process.

(** ** Properties *)
Section Properties.
Context `{Env} `{HttpLib} `{HyperServer} {CD CR T K : Type}.
Context `{TtlCacheLaws bytes IpAddr CD} `{TtlCacheLaws bytes CacheEntry CR} `{SemaphoreLaws T}.
Context `{KvStore bytes (Pool T) K, !KvStoreLaws bytes (Pool T) K}.

Abbreviation Process := (HttpProcess CD CR K).
Abbreviation serving := (config (K := nat) (S := Process) (E := stop) (A := unit)).

(** The process of HttpConcurrency, the rest of which opens no connection. *)
Definition quiet_step (patience requests fuel : nat) (resolver : option Resolve)
    (config : HttpConfig CD CR) : serving -> serving -> Prop :=
  drop_step (process_round_prog (T := T) patience requests fuel config) (process_quiet (T := T) config resolver).

Lemma start_http_quiet patience requests fuel resolver config r (p : Process) t :
  hp_worker_start config = None ->
  start_http (T := T) resolver config process_initial [] = (r, p, t) ->
  rtc (quiet_step patience requests fuel resolver config) (mkConfig [] process_initial []) (mkConfig [] p t).
Proof.
  intros Hhook Hs. eapply start_http_rely; [done| | |exact Hs].
  - intros p0 t0 ev [Hev Hx] _. split; [by apply other_traffic|by apply extends_cons].
  - intros w r0 p0 t0 p1 Hw. split; [by eapply worker_spawned|done].
Qed.

(** C29: no connection is forgotten.  From the start of the process, under every
    interleaving of any number of clients on any of its workers, requests dropped
    at any moment included: once every task is over (dropped, finished, failed or
    panicked; none cut short by the model's bounds), each connection that was
    accepted from a client or dialled to a backend and is still open is idle in a
    pool of a worker, where the next request may use it.  No other one is left
    open. *)
Theorem concurrent_connections_released patience requests fuel resolver (config : HttpConfig CD CR) (c : serving) s :
  rtc (quiet_step patience requests fuel resolver config) (mkConfig [] process_initial []) c ->
  (forall j k q, tasks c !! j = Some (k, q) -> exists r, q = PDone r /\ r <> Err StopRunning) ->
  is_open s (history c) = true ->
  exists i w name (p : Pool T), ht_workers (shared c) !! i = Some w /\ kv_get (wk_pools w) name = Some p
    /\ s ∈ map cl_sender (pl_idle p).
Proof.
  intros Hr Hover Hs.
  assert (HI : left_inv (process_accounts (T := T)) tt (only []) (fun r h => r <> Err StopRunning -> only [] h) c).
  { eapply (left_inv_reachable _ _ process_accounts tt (only [])); [..|exact Hr].
    - done.
    - intros p t G G'. apply process_accounts_perm.
    - intros p t G p' t'. by apply process_accounts_quiet.
    - intros k t. apply leaks_process_round.
    - apply process_accounts_initial. }
  destruct (left_inv_over _ _ _ _ _ HI) as (hs & (_ & _ & Ho) & Hleft).
  { intros j k q Hj. destruct (Hover j k q Hj) as (r & -> & _). by exists r. }
  destruct (Ho s Hs) as [(i & name & Hn)|Hin].
  - unfold idle_in, pools_at, worker_state in Hn. destruct (ht_workers (shared c) !! i) as [w|] eqn:Ew; cbn in Hn.
    + destruct (kv_get (wk_pools w) name) as [p|] eqn:Ep; [by exists i, w, name, p|by apply elem_of_nil in Hn].
    + rewrite kv_get_empty in Hn. by apply elem_of_nil in Hn.
  - apply list_elem_of_In, in_concat in Hin as (h & Hh%list_elem_of_In & Hin%list_elem_of_In).
    apply list_elem_of_lookup in Hh as [j Hh].
    destruct (Forall2_lookup_r _ _ _ _ _ Hleft Hh) as ([k q] & Hj & r & Hq & Hl). cbn in Hq. subst q.
    destruct (Hover j k _ Hj) as (r' & [= <-] & Hn). by apply Hl in Hin; [apply elem_of_nil in Hin|].
Qed.
End Properties.

(** ** Witness *)
#[local] Existing Instances echo_env echo_hyper http_example_lib.

Lemma echo_quiet :
  rtc (quiet_step (T := nat) 1 3 10 (Some http_example_resolver) http_concurrency_config)
    (mkConfig [] process_initial []) echo_run.
Proof.
  etrans.
  { apply (start_http_quiet _ _ _ _ _ echo_started.1.1 echo_started.1.2 echo_started.2); [reflexivity|].
    vm_compute. reflexivity. }
  do 3 (eapply rtc_l; [apply drop_sched, (sched_spawn _ _ 0%nat)|]).
  etrans; [apply rtc_drop, schedule_sched|]. etrans; [apply drop_nth_drop|apply rtc_drop, schedule_sched].
Qed.

(** No task is left, nor was any cut short. *)
Definition is_finished {S A} (q : prog S stop A) : bool :=
  match q with PDone (Err StopRunning) | PStep _ _ _ => false | PDone _ => true end.
Lemma all_finished {S A} (ts : list (nat * prog S stop A)) :
  forallb (fun kq => is_finished kq.2) ts = true ->
  forall j k q, ts !! j = Some (k, q) -> exists r, q = PDone r /\ r <> Err StopRunning.
Proof.
  intros Hover j k q Hj. rewrite forallb_forall in Hover.
  apply list_elem_of_lookup_2, list_elem_of_In in Hj. specialize (Hover _ Hj).
  destruct q as [[a|[]]|]; cbn in Hover; try done; by eexists.
Qed.

(** The three clients' connections are closed, the dropped one's too; the three
    backend connections are idle. *)
Lemma concurrent_connections_released_witness :
  map (fun s => is_open s (history echo_run)) [1; 2; 3; 4; 5; 6] = [false; false; false; true; true; true]
  /\ forall s, s ∈ [4; 5; 6] ->
     exists i w name (p : Pool nat), ht_workers (shared echo_run) !! i = Some w /\ kv_get (wk_pools w) name = Some p
       /\ s ∈ map cl_sender (pl_idle p).
Proof.
  split; [vm_compute; reflexivity|]. intros s Hs.
  apply (concurrent_connections_released (T := nat) 1 3 10 (Some http_example_resolver) http_concurrency_config
           echo_run s echo_quiet); [apply all_finished; vm_compute; reflexivity|].
  apply list_elem_of_In in Hs as [<-|[<-|[<-|[]]]]; vm_compute; reflexivity.
Defined.
