(* ===== verification/Smtp.v ===== *)
(** * Smtp: the SMTP proxy ([src/server/smtp]): configuration, connection,
    parsing of lines, and a client's session. *)

From Stdlib Require Import Ascii.
From S2P Require Import Prelude Text Net Protocol Resolver World Stores Dns Adapter TcpAdapter TcpConfig.
Open Scope Z_scope.

(** ** [SmtpConfig] *)
Record SmtpConfig : Type := mkSmtpConfig {
  smc_host : bytes;
  smc_port : Z;
  smc_workers : Z;
  smc_max_connections : Z;
  smc_max_coroutine : Z;
  smc_socket_buffer_size : Z;
  smc_buffer_output_size : Z;
  smc_enable_coroutine : bool;
  smc_max_wait_time : Z;
  smc_timeout : Z;
  smc_connect_timeout : Z;
  smc_skip_validation : bool;
  smc_cache_ttl : Z }.

Definition SMTP_DEFAULT_PORT : Z := 25.

(** [Default], given what [available_parallelism] answered. *)
Definition smtp_config_default (available : option Z) : SmtpConfig := {|
  smc_host := B "0.0.0.0";
  smc_port := SMTP_DEFAULT_PORT;
  smc_workers := unwrap_or 1 available * 2;
  smc_max_connections := 50000;
  smc_max_coroutine := 50000;
  smc_socket_buffer_size := 2 * 1024 * 1024;
  smc_buffer_output_size := 2 * 1024 * 1024;
  smc_enable_coroutine := true;
  smc_max_wait_time := from_secs 60;
  smc_timeout := from_secs 30;
  smc_connect_timeout := from_secs 5;
  smc_skip_validation := false;
  smc_cache_ttl := 60 |}.

(** ** [Connection] *)
Inductive SmtpState : Type := Command | Data.
#[export] Instance SmtpState_eq_dec : EqDecision SmtpState.
Proof. solve_decision. Defined.

(** The backend is named by its socket. *)
Record SmtpConnection : Type := mkSmtpConnection {
  sc_state : SmtpState;
  sc_domain : option bytes;
  sc_backend : option sock }.

Definition smtp_connection_new : SmtpConnection := mkSmtpConnection Command None None.
Definition is_data (c : SmtpConnection) : bool := bool_decide (sc_state c = Data).

(** ** Lines *)

Definition GREETING : bytes := B "220 utopia-php.io ESMTP Proxy" ++ CRLF.
Definition GREETING_CODE : bytes := B "220".
Definition DATA_READY_CODE : bytes := B "354".
Definition ERROR_UNKNOWN_COMMAND : bytes := B "500 Unknown command" ++ CRLF.
Definition ERROR_SYNTAX : bytes := B "501 Syntax error" ++ CRLF.
Definition ERROR_UNAVAILABLE : bytes := B "421 Service not available" ++ CRLF.
Definition DATA_TERMINATOR : bytes := B ".".
Definition RECV_BUFFER : nat := 8192.
Definition PACKAGE_MAX_LENGTH : Z := 10 * 1024 * 1024.

(** [trim_ascii]: the first loop, then the second one from the other end. *)
Fixpoint trim_ascii_start (s : bytes) : bytes :=
  match s with
  | c :: s' => if is_ascii_whitespace c then trim_ascii_start s' else s
  | [] => []
  end.
Definition trim_ascii (s : bytes) : bytes := rev (trim_ascii_start (rev (trim_ascii_start s))).

(** [command_token]. *)
Definition command_token (line : bytes) : bytes :=
  let trimmed := trim_ascii line in
  let token := take (Nat.min (List.length trimmed) 4) trimmed in
  match from_utf8 token with
  | Some _ => bytes_upper token
  | None => []
  end.

(** [parse_helo_domain]: the first word of what follows the first white space;
    [splitn] always has a first piece. *)
Definition parse_helo_domain (line : bytes) : option bytes :=
  match from_utf8 (trim_ascii line) with
  | None => None
  | Some cs =>
      match snd (split_at_char is_whitespace cs) with
      | None => None
      | Some rest =>
          match first_word (trim_chars rest) with
          | None => None
          | Some [] => None
          | Some domain => Some (utf8_bytes domain)
          end
      end
  end.

(** [is_data_only_line]. *)
Definition is_data_only_line (line : bytes) : bool :=
  let trimmed := trim_ascii line in
  bool_decide (List.length trimmed = 4%nat) && eq_ignore_ascii_case trimmed (B "DATA").

Definition helo_verbs : list bytes := [B "EHLO"; B "HELO"].
Definition forwarded_verbs : list bytes :=
  [B "MAIL"; B "RCPT"; B "DATA"; B "RSET"; B "NOOP"; B "QUIT"].

(** ** Sessions *)

(** How a session may end early: an error, or more lines than the fuel. *)
Inductive smtp_stop : Type :=
| SmtpRunning
| SmtpError (e : io_error).

(** The result of an operation under a timeout; [message] names it. *)
Definition timed {A} (message : bytes) (r : outcome A) : result io_error A :=
  match r with
  | Done r => r
  | Elapsed => Err (mkIoError TimedOut message)
  end.

Section Smtp.
Context `{Env} {CD CR : Type} `{TtlCache bytes IpAddr CD} `{TtlCache bytes CacheEntry CR}.

(** What a client task works on: the shared routing, its own connection. *)
Record Session : Type := mkSession {
  ss_routing : Routing CD CR;
  ss_connection : SmtpConnection }.
Definition ss_set_routing (r : Routing CD CR) (s : Session) : Session :=
  mkSession r (ss_connection s).
Definition ss_set_connection (c : SmtpConnection) (s : Session) : Session :=
  mkSession (ss_routing s) c.
Definition on_connection (f : SmtpConnection -> SmtpConnection) (s : Session) : Session :=
  ss_set_connection (f (ss_connection s)) s.
Definition set_state (x : SmtpState) (c : SmtpConnection) : SmtpConnection :=
  mkSmtpConnection x (sc_domain c) (sc_backend c).
Definition set_domain (d : bytes) (c : SmtpConnection) : SmtpConnection :=
  mkSmtpConnection (sc_state c) (Some d) (sc_backend c).
Definition set_backend (b : sock) (c : SmtpConnection) : SmtpConnection :=
  mkSmtpConnection (sc_state c) (sc_domain c) (Some b).

(** Writing and flushing to the client, without a timeout. *)
Definition reply {S} (client : sock) (data : bytes) : M S io_error unit :=
  r <- io_write client data ;;
  lift (settle r) ;;
  r <- io_flush client ;;
  lift (settle r).

(** Sending a line to the backend. *)
Definition send_line {S} (backend : sock) (line : bytes) : M S io_error unit :=
  r <- io_write backend line ;;
  lift (timed (B "backend write timeout") r) ;;
  r <- io_flush backend ;;
  lift (timed (B "backend flush timeout") r).

Definition read_reply {S} (backend : sock) : M S io_error bytes :=
  r <- io_read backend RECV_BUFFER ;;
  lift (timed (B "backend read timeout") r).

Definition the_backend : M Session io_error sock :=
  s <- get ;;
  lift (ok_or (io_other (B "no backend connection")) (sc_backend (ss_connection s))).

(** [forward_command]. *)
Definition forward_command (client : sock) (line : bytes) : M Session io_error unit :=
  backend <- the_backend ;;
  let is_data_command := is_data_only_line line in
  send_line backend line ;;
  response <- read_reply backend ;;
  match response with
  | [] => fail (mkIoError UnexpectedEof (B "backend closed unexpectedly"))
  | _ :: _ =>
      reply client response ;;
      if is_data_command && starts_with response DATA_READY_CODE
      then modify (on_connection (set_state Data))
      else ret tt
  end.

(** [forward_data]. *)
Definition forward_data (client : sock) (line : bytes) : M Session io_error unit :=
  backend <- the_backend ;;
  send_line backend line ;;
  if bool_decide (trim_ascii line = DATA_TERMINATOR) then
    response <- read_reply backend ;;
    modify (on_connection (set_state Command)) ;;
    match response with
    | [] => ret tt
    | _ :: _ => reply client response
    end
  else ret tt.

(** [connect_to_backend]: a stream that does not greet is dropped. *)
Definition connect_to_backend {S} (config : SmtpConfig) (endpoint : bytes) : M S io_error sock :=
  let '(host, port) := parse_endpoint endpoint SMTP_DEFAULT_PORT in
  r <- io_connect host port (smc_connect_timeout config) ;;
  stream <- lift (timed (B "backend connect timeout") r) ;;
  io_nodelay stream ;;
  r <- io_read stream RECV_BUFFER ;;
  match timed (B "backend greeting timeout") r with
  | Err e => io_close stream ;; fail e
  | Ok [] =>
      io_close stream ;;
      fail (mkIoError UnexpectedEof (B "backend closed before greeting"))
  | Ok ((_ :: _) as data) =>
      let greeting := trim_ascii data in
      if starts_with greeting GREETING_CODE then ret stream
      else
        io_close stream ;;
        fail (io_other (B "backend SMTP greeting failed: " ++ from_utf8_lossy greeting))
  end.

(** [connection.backend = Some(..)]: the old backend is dropped. *)
Definition replace_backend {E} (backend : sock) : M Session E unit :=
  s <- get ;;
  put (on_connection (set_backend backend) s) ;;
  match sc_backend (ss_connection s) with
  | Some old => io_close old
  | None => ret tt
  end.

(** [handle_helo]. *)
Definition handle_helo (config : SmtpConfig) (client : sock) (line : bytes)
  : M Session io_error unit :=
  match parse_helo_domain line with
  | None => reply client ERROR_SYNTAX
  | Some domain =>
      modify (on_connection (set_domain domain)) ;;
      routed <- with_err (fun e => io_other (B "resolver error: " ++ display_resolver_error e))
                  (zoom ss_routing ss_set_routing (route domain)) ;;
      backend <- connect_to_backend config (cr_endpoint routed) ;;
      replace_backend backend ;;
      forward_command client line
  end.

(** The answer to a failed line: 421, and the session is over. *)
Definition unavailable {S E} (client : sock) : M S E bool :=
  io_write client ERROR_UNAVAILABLE ;; ret false.

(** The body of the loop of [handle_client], once a line is read; whether the
    loop goes on. *)
Definition handle_line (config : SmtpConfig) (client : sock) (line : bytes)
  : M Session io_error bool :=
  s <- get ;;
  if PACKAGE_MAX_LENGTH <? Z.of_nat (List.length line) then unavailable client
  else if is_data (ss_connection s) then
    r <- attempt (forward_data client line) ;;
    match r with
    | Ok _ => ret true
    | Err _ => unavailable client
    end
  else
    let command := command_token line in
    if bool_decide (command ∈ helo_verbs) then
      r <- attempt (handle_helo config client line) ;;
      match r with
      | Ok _ => ret true
      | Err _ => unavailable client
      end
    else if bool_decide (command ∈ forwarded_verbs) then
      r <- attempt (forward_command client line) ;;
      match r with
      | Ok _ => ret (negb (bool_decide (command = B "QUIT")))
      | Err _ => unavailable client
      end
    else
      reply client ERROR_UNKNOWN_COMMAND ;;
      ret true.

(** The loop of [handle_client]. *)
Fixpoint session_loop (fuel : nat) (config : SmtpConfig) (client : sock) : M Session smtp_stop unit :=
  r <- io_read_line client ;;
  match r with
  | Err e => fail (SmtpError e)
  | Ok [] => ret tt
  | Ok ((_ :: _) as line) =>
      go_on <- with_err SmtpError (handle_line config client line) ;;
      if go_on : bool then
        match fuel with
        | O => fail SmtpRunning
        | Datatypes.S fuel' => session_loop fuel' config client
        end
      else ret tt
  end.

(** The end of [handle_client]: the connection and the client are dropped. *)
Definition end_session {E} (client : sock) : M Session E unit :=
  s <- get ;;
  (match sc_backend (ss_connection s) with
   | Some backend => io_close backend
   | None => ret tt
   end) ;;
  io_close client.

(** [handle_client], on a fresh connection. *)
Definition handle_client (fuel : nat) (config : SmtpConfig) (client : sock)
  : M Session smtp_stop unit :=
  modify (ss_set_connection smtp_connection_new) ;;
  r <- attempt (with_err SmtpError (reply client GREETING) ;; session_loop fuel config client) ;;
  match r with
  | Err SmtpRunning => fail SmtpRunning
  | r => end_session client ;; lift r
  end.

(** ** The server *)

(** [SmtpServer::build_adapter]. *)
Definition build_adapter (resolver : Resolve) (config : SmtpConfig) : Adapter CR :=
  let a := set_cache_ttl (smc_cache_ttl config) (adapter_new (Some resolver) Smtp) in
  if smc_skip_validation config then set_skip_validation true a else a.

(** [SmtpServer::start] up to its loop: the listener and the adapter. *)
Definition start (resolver : Resolve) (config : SmtpConfig) : M (Routing CD CR) io_error sock :=
  r <- io_call (ListenOn (smc_host config) (smc_port config)) ;;
  listener <- lift r ;;
  modify (fun r => mkRouting (build_adapter resolver config) (r_dns r)) ;;
  ret listener.

(** One round of [SmtpServer::start]'s loop; the client's task runs at once. *)
Definition accept_once (fuel : nat) (config : SmtpConfig) (listener : sock)
  : M (Routing CD CR) ProxyError unit :=
  r <- io_call (Accept listener) ;;
  match r with
  | Err _ => ret tt
  | Ok client =>
      io_nodelay client ;;
      attempt (zoom (fun r => mkSession r smtp_connection_new) (fun s _ => ss_routing s)
                 (handle_client fuel config client)) ;;
      ret tt
  end.
End Smtp.
Arguments Session CD CR : clear implicits.

(** ** The tests of the source *)

Example command_token_tests :
  map command_token [B "ehlo test.com" ++ CRLF; B "  mail FROM:<a@b>" ++ CRLF; B "quit" ++ CRLF; CRLF]
  = [B "EHLO"; B "MAIL"; B "QUIT"; []].
Proof. vm_compute. reflexivity. Qed.
Example parse_helo_domain_tests :
  map parse_helo_domain [B "EHLO example.com" ++ CRLF; B "HELO  foo.bar" ++ CRLF; B "EHLO" ++ CRLF; B "EHLO " ++ CRLF]
  = [Some (B "example.com"); Some (B "foo.bar"); None; None].
Proof. vm_compute. reflexivity. Qed.
Example is_data_only_line_tests :
  map is_data_only_line [B "DATA" ++ CRLF; B "data" ++ [LF]; B "  DATA  "; B "DATA payload" ++ CRLF; B "MAIL" ++ CRLF]
  = [true; true; true; false; false].
Proof. vm_compute. reflexivity. Qed.
