(* ===== verification/SmtpGuarantees.v ===== *)
(** * SmtpGuarantees: the properties of the SMTP proxy. *)

From Stdlib Require Import Ascii.
From S2P Require Import Prelude Text Net Protocol Resolver World Stores Dns Adapter Ssrf Routing.
From S2P Require Import TcpAdapter TcpConfig Smtp.
Open Scope Z_scope.

(** ** SSRF safety *)
Section Safety.
Context `{Env} {CD CR : Type} `{TtlCacheLaws bytes IpAddr CD} `{TtlCacheLaws bytes CacheEntry CR}.
Implicit Types (s : Session CD CR) (t l : trace) (c : SmtpConnection).

Lemma inert_reply {S} client data : inert no_dial (reply (S := S) client data).
Proof. unfold reply. inert_steps; done. Qed.
Lemma inert_send_line {S} backend line : inert no_dial (send_line (S := S) backend line).
Proof. unfold send_line. inert_steps; done. Qed.
Lemma inert_read_reply {S} backend : inert no_dial (read_reply (S := S) backend).
Proof. unfold read_reply. inert_steps; done. Qed.
Lemma inert_the_backend : inert no_dial (the_backend (CD := CD) (CR := CR)).
Proof. unfold the_backend. inert_steps; done. Qed.

Definition session_inv s t : Prop := dial_inv (ss_routing s) t.

Lemma maintains_session_quiet {E A} (m : M (Session CD CR) E A) : inert no_dial m -> maintains session_inv m.
Proof.
  apply maintains_inert. intros s t ev Hi Hev.
  by eapply (dial_inv_events no_dial); [apply no_dial_safe|exact Hi|apply extends_cons].
Qed.
Lemma maintains_connection {E} f : maintains session_inv (modify (E := E) (on_connection (CD := CD) (CR := CR) f)).
Proof. intros s t Hi. apply wp_modify. exact Hi. Qed.

Ltac quiet :=
  first [apply maintains_connection
        |apply maintains_session_quiet;
         solve [apply inert_reply|apply inert_send_line|apply inert_read_reply|apply inert_the_backend
               |apply inert_ret|apply inert_fail|apply inert_lift|apply inert_get|apply inert_io; done]].

Lemma maintains_forward_command client line :
  maintains session_inv (forward_command (CD := CD) (CR := CR) client line).
Proof. unfold forward_command. repeat first [quiet|maintains_step]. Qed.

Lemma maintains_forward_data client line :
  maintains session_inv (forward_data (CD := CD) (CR := CR) client line).
Proof. unfold forward_data. repeat first [quiet|maintains_step]. Qed.

(** Connecting to a vetted endpoint. *)
Lemma vetted_host_safe out default_port ip :
  is_vetted out -> parse_ipaddr (fst (parse_endpoint out default_port)) = Some ip ->
  is_blocked_ip ip = false.
Proof. intros (ip' & port & Hv). by eapply vetted_dial. Qed.

Lemma inert_connect_to_backend {S} config endpoint :
  is_vetted endpoint -> inert safe_dial (connect_to_backend (S := S) config endpoint).
Proof.
  intros Hv. unfold connect_to_backend.
  destruct (parse_endpoint endpoint SMTP_DEFAULT_PORT) as [host port] eqn:Ep.
  apply inert_bind.
  { apply inert_io. intros r ip Hip. eapply (vetted_host_safe endpoint SMTP_DEFAULT_PORT); [done|].
    by rewrite Ep. }
  intros r. inert_steps; done.
Qed.

Lemma maintains_replace_backend {E} backend :
  maintains session_inv (replace_backend (CD := CD) (CR := CR) (E := E) backend).
Proof.
  intros s t Hi. unfold replace_backend. wp_step. wp_step. wp_step. wp_step. wp_step.
  - wp_step. eapply (dial_inv_events no_dial); [apply no_dial_safe|exact Hi|by apply extends_cons].
  - by apply wp_ret.
Qed.

Lemma maintains_handle_helo config client line :
  maintains session_inv (handle_helo (CD := CD) (CR := CR) config client line).
Proof.
  unfold handle_helo. destruct (parse_helo_domain line) as [domain|]; [|quiet].
  apply maintains_bind; [quiet|]. intros _ s t Hi. wp_step. wp_step. wp_step.
  eapply wp_mono; [by apply wp_route_dial|].
  intros [routed|e] r' t' [Hi' Hv]; [|done]. cbn [map_err].
  wp_step. eapply wp_inert; [by apply inert_connect_to_backend|].
  intros [backend|e] l Hl.
  2: { eapply (dial_inv_events safe_dial); [done|exact Hi'|by exists l]. }
  assert (Hi2 : session_inv (ss_set_routing r' s) (l ++ t')).
  { eapply (dial_inv_events safe_dial); [done|exact Hi'|by exists l]. }
  revert Hi2. generalize (ss_set_routing r' s) as s2, (l ++ t') as t2.
  change (maintains session_inv (replace_backend backend ;; forward_command client line)).
  apply maintains_bind; [apply maintains_replace_backend|].
  intros _. apply maintains_forward_command.
Qed.

Lemma maintains_handle_line config client line :
  maintains session_inv (handle_line (CD := CD) (CR := CR) config client line).
Proof.
  unfold handle_line, unavailable.
  repeat first [quiet|apply maintains_forward_data|apply maintains_handle_helo
               |apply maintains_forward_command|maintains_step].
Qed.

Lemma maintains_session_loop fuel config client :
  maintains session_inv (session_loop (CD := CD) (CR := CR) fuel config client).
Proof.
  induction fuel as [|fuel IH]; cbn [session_loop];
    (apply maintains_bind; [quiet|]; intros [[|b line]|e]; [quiet| |quiet]);
    (apply maintains_bind; [apply maintains_with_err, maintains_handle_line|]);
    intros []; first [quiet|apply IH].
Qed.

Lemma maintains_handle_client fuel config client :
  maintains session_inv (handle_client (CD := CD) (CR := CR) fuel config client).
Proof.
  unfold handle_client, end_session.
  apply maintains_bind; [intros s t Hi; by apply wp_modify|intros _].
  apply maintains_bind.
  { apply maintains_attempt, maintains_bind; [|intros _; apply maintains_session_loop].
    apply maintains_with_err, maintains_session_quiet, inert_reply. }
  intros [r|[|e]]; repeat first [quiet|maintains_step].
Qed.

(** What happens to the SMTP server: clients are accepted and served, its
    adapter is reconfigured or routes for other tasks (validation staying on). *)
Inductive smtp_server_step fuel config listener
  : Routing CD CR * trace -> Routing CD CR * trace -> Prop :=
| smstep_accept r t o r' t' :
    accept_once fuel config listener r t = (o, r', t') ->
    smtp_server_step fuel config listener (r, t) (r', t')
| smstep_routing r t r' t' :
    routing_step (r, t) (r', t') -> Forall safe_dial t' ->
    smtp_server_step fuel config listener (r, t) (r', t').

Lemma maintains_smtp_accept fuel config listener :
  maintains dial_inv (accept_once (CD := CD) (CR := CR) fuel config listener).
Proof.
  assert (Hq : forall E A (m : M (Routing CD CR) E A), inert no_dial m -> maintains dial_inv m).
  { intros E A m. apply maintains_inert. intros r t ev Hi Hev.
    by eapply (dial_inv_events no_dial); [apply no_dial_safe|exact Hi|apply extends_cons]. }
  unfold accept_once. apply maintains_bind; [apply Hq; by apply inert_io|].
  intros [client|e]; [|apply Hq; by apply inert_ret].
  apply maintains_bind; [apply Hq; by apply inert_io|intros _].
  apply maintains_bind; [|intros _; apply Hq; by apply inert_ret].
  intros r t Hi. wp_step. wp_step. eapply wp_mono; [by apply maintains_handle_client|done].
Qed.

Lemma dial_inv_server_step fuel config listener st st' :
  dial_inv st.1 st.2 -> smtp_server_step fuel config listener st st' -> dial_inv st'.1 st'.2.
Proof.
  intros Hi Hstep. destruct Hstep as [r t o r' t' Ha|r t r' t' Hr Hs]; cbn in *.
  - pose proof (maintains_smtp_accept fuel config listener r t Hi) as W.
    exact (wp_run _ _ _ _ _ _ _ W Ha).
  - split; [|done]. eapply routing_inv_step; [|exact Hr]. apply Hi.
Qed.
End Safety.

(** ** The SMTP state machine

    [smtp_spec c line up down c']: in the connection [c] the client's [line] is
    relayed as [up] to the (current) backend and answered by [down]. *)
Inductive smtp_spec : SmtpConnection -> bytes -> bytes -> bytes -> SmtpConnection -> Prop :=
| spec_body c b line :
    sc_state c = Data -> sc_backend c = Some b -> trim_ascii line <> DATA_TERMINATOR ->
    smtp_spec c line line [] c
| spec_end_of_body c b line response :
    sc_state c = Data -> sc_backend c = Some b -> trim_ascii line = DATA_TERMINATOR ->
    smtp_spec c line line response (set_state Command c)
| spec_unknown c line :
    sc_state c = Command -> command_token line ∉ helo_verbs -> command_token line ∉ forwarded_verbs ->
    smtp_spec c line [] ERROR_UNKNOWN_COMMAND c
| spec_no_domain c line :
    sc_state c = Command -> command_token line ∈ helo_verbs -> parse_helo_domain line = None ->
    smtp_spec c line [] ERROR_SYNTAX c
| spec_helo c line domain b response :
    sc_state c = Command -> command_token line ∈ helo_verbs -> parse_helo_domain line = Some domain ->
    response <> [] ->
    smtp_spec c line line response (mkSmtpConnection Command (Some domain) (Some b))
| spec_command c b line response :
    sc_state c = Command -> sc_backend c = Some b -> command_token line ∈ forwarded_verbs ->
    command_token line <> B "QUIT" -> response <> [] ->
    smtp_spec c line line response
      (if is_data_only_line line && starts_with response DATA_READY_CODE then set_state Data c else c).

(** The balance of a descriptor: how often it was opened by dialling less how
    often it was closed. *)
Fixpoint balance (s : sock) (t : trace) : Z :=
  match t with
  | [] => 0
  | EvConnect _ _ (Done (Ok s')) :: t' => balance s t' + (if s' =? s then 1 else 0)
  | EvClose s' :: t' => balance s t' - (if s' =? s then 1 else 0)
  | _ :: t' => balance s t'
  end.

Lemma balance_app s l t : balance s (l ++ t) = balance s t + balance s l.
Proof.
  induction l as [|ev l IH]; cbn; [lia|].
  destruct ev as [| | | |? ? [[s'|]|]| | | | | | | | | | | | | | | | | | |s']; rewrite ?IH; lia.
Qed.

(** Connections held by a session. *)
Definition held (s : sock) (c : SmtpConnection) : Z :=
  if bool_decide (sc_backend c = Some s) then 1 else 0.

(** Events of an exchange on open sockets. *)
Definition plain_io (ev : event) : Prop :=
  match ev with
  | EvConnect _ _ _ | EvClose _ | EvReadLine _ _ => False
  | _ => True
  end.
Lemma plain_io_silent l : Forall plain_io l -> lines_read l = [] /\ forall s, balance s l = 0.
Proof.
  induction 1 as [|ev l Hev _ [IH1 IH2]]; [done|]. by destruct ev.
Qed.

Section Relay.
Context `{Env} {CD CR : Type} `{TtlCacheLaws bytes IpAddr CD} `{TtlCacheLaws bytes CacheEntry CR}.
Implicit Types (s : Session CD CR) (t l : trace) (c : SmtpConnection).

(** The outcome of relaying to the backend [b]. *)
Definition relayed (client b : sock) (up down : bytes) (l : trace) : Prop :=
  b <> client -> sent b l = up /\ sent client l = down.

Lemma wp_reply {S} client data (Q : result io_error unit -> S -> trace -> Prop) (x : S) t :
  (forall l r, Forall plain_io l -> sent client l = data -> (forall b, b <> client -> sent b l = []) ->
     Q r x (l ++ t)) ->
  wp (reply client data) Q x t.
Proof.
  intros HQ. unfold reply.
  assert (Hs : forall r, sent client [EvWrite client data r] = data
               /\ forall b, b <> client -> sent b [EvWrite client data r] = []).
  { intros r. cbn. rewrite Z.eqb_refl. split; [done|]. intros b Hb.
    by rewrite (proj2 (Z.eqb_neq _ _)) by auto. }
  wp_step. wp_step. wp_step. wp_step. destruct (settle _).
  - wp_step. wp_step. apply wp_lift. apply (HQ [_; _]); [by forall_events|exact (proj1 (Hs (env_write t client data)))|exact (proj2 (Hs (env_write t client data)))].
  - apply (HQ [_]); [by forall_events|exact (proj1 (Hs (env_write t client data)))|exact (proj2 (Hs (env_write t client data)))].
Qed.

Lemma wp_send_line {S} b line (Q : result io_error unit -> S -> trace -> Prop) (x : S) t :
  (forall l r, Forall plain_io l -> sent b l = line -> (forall o, o <> b -> sent o l = []) ->
     Q r x (l ++ t)) ->
  wp (send_line b line) Q x t.
Proof.
  intros HQ. unfold send_line.
  assert (Hs : forall r, sent b [EvWrite b line r] = line
               /\ forall o, o <> b -> sent o [EvWrite b line r] = []).
  { intros r. cbn. rewrite Z.eqb_refl. split; [done|]. intros o Ho.
    by rewrite (proj2 (Z.eqb_neq _ _)) by auto. }
  wp_step. wp_step. wp_step. wp_step. destruct (timed _ _).
  - wp_step. wp_step. apply wp_lift. apply (HQ [_; _]); [by forall_events|exact (proj1 (Hs (env_write t b line)))|exact (proj2 (Hs (env_write t b line)))].
  - apply (HQ [_]); [by forall_events|exact (proj1 (Hs (env_write t b line)))|exact (proj2 (Hs (env_write t b line)))].
Qed.

Lemma wp_the_backend (Q : result io_error sock -> Session CD CR -> trace -> Prop) s t :
  match sc_backend (ss_connection s) with
  | Some b => Q (Ok b) s t
  | None => forall e, Q (Err e) s t
  end -> wp the_backend Q s t.
Proof.
  intros HQ. unfold the_backend. wp_step. wp_step. apply wp_lift.
  destruct (sc_backend (ss_connection s)); [exact HQ|apply HQ].
Qed.

(** Relaying a command to the backend [b] of the connection. *)
Lemma wp_forward_command client b line (Q : result io_error unit -> Session CD CR -> trace -> Prop) s t :
  sc_backend (ss_connection s) = Some b ->
  (forall l response, Forall plain_io l -> relayed client b line response l -> response <> [] ->
     Q (Ok tt) (on_connection (fun c => if is_data_only_line line && starts_with response DATA_READY_CODE
                                        then set_state Data c else c) s) (l ++ t)) ->
  (forall l e, Forall plain_io l -> Q (Err e) s (l ++ t)) ->
  wp (forward_command client line) Q s t.
Proof.
  intros Hb Hok Herr. unfold forward_command. wp_step. apply wp_the_backend. rewrite Hb.
  cbv zeta. wp_step. apply wp_send_line. intros l1 [[]|e] Hp1 Hs1 Ho1; [|by apply Herr].
  wp_step. unfold read_reply. wp_step. wp_step. apply wp_lift.
  set (ev := EvRead b RECV_BUFFER _).
  assert (Hp2 : Forall plain_io (ev :: l1)) by by constructor.
  destruct (timed _ _) as [response|e]; [|by apply (Herr (ev :: l1))].
  destruct response as [|x response]; [by apply wp_fail, (Herr (ev :: l1))|].
  wp_step. apply wp_reply. intros l2 r Hp3 Hs2 Ho2.
  replace (l2 ++ ev :: l1 ++ t) with ((l2 ++ ev :: l1) ++ t) by (by rewrite <- app_assoc).
  assert (Hp4 : Forall plain_io (l2 ++ ev :: l1)) by (by apply Forall_app).
  destruct r as [[]|e]; [|by apply Herr].
  assert (Hr : relayed client b line (x :: response) (l2 ++ ev :: l1)).
  { intros Hne. rewrite !sent_app. cbn [sent].
    rewrite Hs1, Hs2, Ho1, Ho2 by auto. by rewrite app_nil_r. }
  specialize (Hok _ _ Hp4 Hr ltac:(done)).
  destruct (is_data_only_line line && _); [apply wp_modify|apply wp_ret; destruct s]; exact Hok.
Qed.

Lemma wp_forward_command_none client line (Q : result io_error unit -> Session CD CR -> trace -> Prop) s t :
  sc_backend (ss_connection s) = None -> (forall e, Q (Err e) s t) ->
  wp (forward_command client line) Q s t.
Proof. intros Hb HQ. unfold forward_command. wp_step. apply wp_the_backend. by rewrite Hb. Qed.

(** Relaying a line of the body. *)
Lemma wp_forward_data client line (Q : result io_error unit -> Session CD CR -> trace -> Prop) s t :
  (forall l b, Forall plain_io l -> sc_backend (ss_connection s) = Some b ->
     trim_ascii line <> DATA_TERMINATOR -> relayed client b line [] l -> Q (Ok tt) s (l ++ t)) ->
  (forall l b response, Forall plain_io l -> sc_backend (ss_connection s) = Some b ->
     trim_ascii line = DATA_TERMINATOR -> relayed client b line response l ->
     Q (Ok tt) (on_connection (set_state Command) s) (l ++ t)) ->
  (forall l s' e, Forall plain_io l -> sc_backend (ss_connection s') = sc_backend (ss_connection s) ->
     Q (Err e) s' (l ++ t)) ->
  wp (forward_data client line) Q s t.
Proof.
  intros Hbody Hend Herr. unfold forward_data. wp_step. apply wp_the_backend.
  destruct (sc_backend (ss_connection s)) as [b|] eqn:Eb; [|intros e; by apply (Herr [])].
  wp_step. apply wp_send_line. intros l1 [[]|e] Hp1 Hs1 Ho1; [|by apply Herr].
  case_bool_decide as Ht.
  2: { apply wp_ret, (Hbody _ b); [done..|]. intros Hne. by rewrite Hs1, Ho1 by auto. }
  wp_step. unfold read_reply. wp_step. wp_step. apply wp_lift.
  set (ev := EvRead b RECV_BUFFER _).
  assert (Hp2 : Forall plain_io (ev :: l1)) by by constructor.
  destruct (timed _ _) as [response|e]; [|by apply (Herr (ev :: l1))].
  wp_step. wp_step. destruct response as [|x response].
  - apply wp_ret, (Hend (ev :: l1) b []); [done..|]. intros Hne. cbn [sent].
    by rewrite Hs1, Ho1 by auto.
  - apply wp_reply. intros l2 r Hp3 Hs2 Ho2.
    replace (l2 ++ ev :: l1 ++ t) with ((l2 ++ ev :: l1) ++ t) by (by rewrite <- app_assoc).
    assert (Hp4 : Forall plain_io (l2 ++ ev :: l1)) by (by apply Forall_app).
    destruct r as [[]|e]; [|by apply Herr].
    apply (Hend _ b (x :: response)); [done..|]. intros Hne. rewrite !sent_app. cbn [sent].
    rewrite Hs1, Hs2, Ho1, Ho2 by auto. by rewrite app_nil_r.
Qed.

(** A program of plain I/O that writes nothing. *)
Definition quiet_io (ev : event) : Prop :=
  plain_io ev /\ match ev with EvWrite _ _ _ => False | _ => True end.
Lemma quiet_io_silent l : Forall quiet_io l -> Forall plain_io l /\ forall b, sent b l = [].
Proof.
  induction 1 as [|ev l [Hev Hw] _ [IH1 IH2]]; [done|].
  split; [by constructor|]. by destruct ev.
Qed.
Lemma routing_quiet ev : routing_event ev -> quiet_io ev.
Proof. by destruct ev. Qed.

(** Connecting opens one connection, and none when it fails. *)
Lemma wp_connect_to_backend {S} config endpoint (Q : result io_error sock -> S -> trace -> Prop) (x : S) t :
  (forall l r, lines_read l = [] -> (forall b, sent b l = []) ->
     (forall b, balance b l = match r with Ok b' => if b' =? b then 1 else 0 | Err _ => 0 end) ->
     Q r x (l ++ t)) ->
  wp (connect_to_backend config endpoint) Q x t.
Proof.
  intros HQ. unfold connect_to_backend.
  destruct (parse_endpoint endpoint SMTP_DEFAULT_PORT) as [host port].
  wp_step. wp_step. wp_step. apply wp_lift.
  destruct (env_connect t host port _) as [[stream|e]|]; cbn [timed];
    [|by apply (HQ [_])|by apply (HQ [_])].
  wp_step. wp_step. wp_step. wp_step.
  match goal with |- context [EvConnect host port ?r] => set (ev1 := EvConnect host port r) end.
  match goal with |- context [EvNodelay stream ?r] => set (ev2 := EvNodelay stream r) end.
  match goal with |- context [EvRead stream ?n ?r] => set (ev3 := EvRead stream n r) end.
  assert (Hdrop : forall e, Q (Err e) x ([EvClose stream; ev3; ev2; ev1] ++ t)).
  { intros e. apply HQ; [done..|]. intros b. cbn. lia. }
  destruct (timed _ _) as [[|c data]|e].
  - wp_step. wp_step. apply wp_fail, Hdrop.
  - cbv zeta. destruct (starts_with _ _).
    + apply wp_ret, (HQ [ev3; ev2; ev1]); done.
    + wp_step. wp_step. apply wp_fail, Hdrop.
  - wp_step. wp_step. apply wp_fail, Hdrop.
Qed.

Lemma upper_lower (a : ascii) : to_ascii_uppercase (to_ascii_lowercase a) = to_ascii_uppercase a.
Proof.
  apply (bool_decide_eq_true_1 _). revert a.
  apply (bytes_forall (fun a => bool_decide (to_ascii_uppercase (to_ascii_lowercase a) = to_ascii_uppercase a))).
  vm_compute. reflexivity.
Qed.
Lemma bytes_upper_lower a : bytes_upper (bytes_lower a) = bytes_upper a.
Proof. unfold bytes_upper, bytes_lower. rewrite map_map. apply map_ext, upper_lower. Qed.

(** [is_data_only_line] holds of DATA commands only. *)
Lemma data_line_token line : is_data_only_line line = true -> command_token line ∈ [B "DATA"; []].
Proof.
  unfold is_data_only_line, command_token, eq_ignore_ascii_case.
  rewrite andb_true_iff, !bool_decide_eq_true. intros [Hlen Heq].
  rewrite Hlen, take_ge by (rewrite Hlen; done).
  destruct (from_utf8 (trim_ascii line)); [|set_solver].
  apply (f_equal bytes_upper) in Heq. rewrite !bytes_upper_lower in Heq.
  rewrite Heq. by left.
Qed.
Lemma helo_line_no_data line : command_token line ∈ helo_verbs -> is_data_only_line line = false.
Proof.
  intros Hh. destruct (is_data_only_line line) eqn:E; [|done].
  apply data_line_token in E. exfalso. revert E Hh. generalize (command_token line). intros w.
  unfold helo_verbs. rewrite !elem_of_cons, !elem_of_nil. naive_solver.
Qed.

(** What handling a line does, whatever happens: connections are accounted for,
    and a line after which the session goes on is a step of the state
    machine. *)
Definition line_post client line c (r : result io_error bool) c' (l : trace) : Prop :=
  lines_read l = [] /\ (forall b, balance b l = held b c' - held b c)
  /\ (r = Ok true -> exists up down, smtp_spec c line up down c'
      /\ (sc_backend c' <> Some client ->
          sent client l = down
          /\ match sc_backend c' with Some b => sent b l = up | None => up = [] end)).

Definition line_wp client line c t (r : result io_error bool) (s' : Session CD CR) t' : Prop :=
  exists l, t' = l ++ t /\ line_post client line c r (ss_connection s') l.

Lemma held_same b c c' : sc_backend c' = sc_backend c -> held b c' - held b c = 0.
Proof. unfold held. intros ->. lia. Qed.

Lemma line_over client line c r c' l l' :
  lines_read l = [] -> (forall b, balance b l = held b c' - held b c) ->
  r <> Ok true -> Forall plain_io l' -> line_post client line c r c' (l' ++ l).
Proof.
  intros Hl Hb Hr [Hl' Hb']%plain_io_silent. split; [by rewrite lines_read_app, Hl, Hl'|].
  split; [|done]. intros b. rewrite balance_app, Hb, Hb'. lia.
Qed.

(** The answer to a line that failed. *)
Lemma wp_unavailable client line c s t l :
  lines_read l = [] -> (forall b, balance b l = held b (ss_connection s) - held b c) ->
  wp (unavailable (E := io_error) client) (line_wp client line c t) s (l ++ t).
Proof.
  intros Hl Hb. unfold unavailable. wp_step. wp_step. apply wp_ret.
  eexists ([_] ++ l). split; [done|]. apply line_over; [done..|]. by forall_events.
Qed.

(** Same connection, up to mode and domain: nothing was opened or closed. *)
Lemma plain_same l c c' :
  Forall plain_io l -> sc_backend c' = sc_backend c ->
  lines_read l = [] /\ forall b, balance b l = held b c' - held b c.
Proof.
  intros [Hl Hb]%plain_io_silent Hc. split; [done|]. intros b. by rewrite Hb, held_same.
Qed.

Lemma wp_data_line client line s t :
  sc_state (ss_connection s) = Data ->
  wp (r <- attempt (forward_data client line) ;;
      match r with Ok _ => ret true | Err _ => unavailable client end)
    (line_wp client line (ss_connection s) t) s t.
Proof.
  intros Hd. wp_step. wp_step. apply wp_forward_data.
  - intros l b Hp Hb Ht Hr. apply wp_ret. exists l. split; [done|].
    destruct (plain_same l (ss_connection s) (ss_connection s) Hp eq_refl). split; [done|]. split; [done|].
    intros _. exists line, []. split; [by eapply spec_body|]. rewrite Hb. intros Hne.
    destruct Hr as [Hu Hdown]; [congruence|]. by split.
  - intros l b response Hp Hb Ht Hr. apply wp_ret. exists l. split; [done|].
    destruct (plain_same l (ss_connection s) (set_state Command (ss_connection s)) Hp eq_refl).
    split; [done|]. split; [done|].
    intros _. exists line, response. split; [by eapply spec_end_of_body|].
    change (sc_backend (ss_connection (on_connection (set_state Command) s)))
      with (sc_backend (ss_connection s)). rewrite Hb. intros Hne.
    destruct Hr as [Hu Hdown]; [congruence|]. by split.
  - intros l s' e Hp Hb. destruct (plain_same l (ss_connection s) (ss_connection s') Hp Hb).
    by apply wp_unavailable.
Qed.

Lemma wp_command_line client line s t :
  sc_state (ss_connection s) = Command -> command_token line ∈ forwarded_verbs ->
  wp (r <- attempt (forward_command client line) ;;
      match r with
      | Ok _ => ret (negb (bool_decide (command_token line = B "QUIT")))
      | Err _ => unavailable client
      end)
    (line_wp client line (ss_connection s) t) s t.
Proof.
  intros Hc Hv. wp_step. wp_step. destruct (sc_backend (ss_connection s)) as [b|] eqn:Eb.
  2: { apply wp_forward_command_none; [done|]. intros e. apply (wp_unavailable _ _ _ _ _ []); [done|].
       intros b. cbn. by rewrite held_same. }
  apply (wp_forward_command client b); [done| |].
  - intros l response Hp Hr Hne. apply wp_ret. exists l. split; [done|].
    set (c' := ss_connection (on_connection _ s)).
    assert (Hb' : sc_backend c' = sc_backend (ss_connection s)).
    { unfold c'. cbn. by destruct (is_data_only_line line && starts_with response DATA_READY_CODE). }
    destruct (plain_same l (ss_connection s) c' Hp Hb'). split; [done|]. split; [done|].
    case_bool_decide as Hq; [done|]. intros _. exists line, response.
    split; [by eapply (spec_command _ b)|]. rewrite Hb', Eb. intros Hcl.
    destruct Hr as [Hu Hdown]; [congruence|]. by split.
  - intros l e Hp. destruct (plain_same l (ss_connection s) (ss_connection s) Hp eq_refl).
    by apply wp_unavailable.
Qed.

Lemma wp_replace_backend {E} backend (Q : result E unit -> Session CD CR -> trace -> Prop) s t :
  (forall l, lines_read l = [] -> (forall b, sent b l = []) ->
     (forall b, balance b l = - held b (ss_connection s)) ->
     Q (Ok tt) (on_connection (set_backend backend) s) (l ++ t)) ->
  wp (replace_backend backend) Q s t.
Proof.
  intros HQ. unfold replace_backend. wp_step. wp_step. wp_step. wp_step.
  destruct (sc_backend (ss_connection s)) as [old|] eqn:Eo.
  - wp_step. apply (HQ [_]); [done..|]. intros b. cbn. unfold held. rewrite Eo.
    destruct (Z.eqb_spec old b) as [->|Hne]; [by rewrite bool_decide_eq_true_2|].
    by rewrite bool_decide_eq_false_2 by congruence.
  - apply wp_ret, (HQ []); [done..|]. intros b. cbn. unfold held. rewrite Eo.
    by rewrite bool_decide_eq_false_2.
Qed.

Lemma held_set_backend b backend c :
  held b (set_backend backend c) = if backend =? b then 1 else 0.
Proof.
  unfold held. cbn. destruct (Z.eqb_spec backend b) as [->|Hne].
  - by rewrite bool_decide_eq_true_2.
  - by rewrite bool_decide_eq_false_2 by congruence.
Qed.

(** Relaying the EHLO line to the new backend; [l] happened before. *)
Lemma wp_helo_relay client line domain b c s t l :
  command_token line ∈ helo_verbs -> parse_helo_domain line = Some domain ->
  sc_state c = Command -> ss_connection s = mkSmtpConnection Command (Some domain) (Some b) ->
  lines_read l = [] -> (forall o, sent o l = []) ->
  (forall o, balance o l = held o (ss_connection s) - held o c) ->
  wp (forward_command client line)
    (fun r s' t' => wp (match r with Ok _ => ret true | Err _ => unavailable client end)
                      (line_wp client line c t) s' t') s (l ++ t).
Proof.
  intros Hv Hd Hc Hs Hl Hsent Hbal. apply (wp_forward_command client b); [by rewrite Hs| |].
  - intros l' response Hp Hr Hne. rewrite helo_line_no_data by done. cbn [andb]. apply wp_ret.
    exists (l' ++ l). split; [by rewrite <- app_assoc|].
    destruct (plain_io_silent l' Hp) as [Hl' Hb'].
    change (ss_connection (on_connection (fun c => c) s)) with (ss_connection s).
    split; [by rewrite lines_read_app, Hl, Hl'|]. split.
    { intros o. rewrite balance_app, Hbal, Hb'. lia. }
    intros _. exists line, response. rewrite Hs. split; [by eapply spec_helo|]. cbn [sc_backend].
    intros Hcl. destruct Hr as [Hu Hdown]; [congruence|]. rewrite !sent_app, !Hsent. by split.
  - intros l' e Hp. destruct (plain_io_silent l' Hp) as [Hl' Hb']. rewrite app_assoc.
    apply wp_unavailable; [by rewrite lines_read_app, Hl, Hl'|].
    intros o. rewrite balance_app, Hbal, Hb'. lia.
Qed.

Lemma wp_helo_line config client line s t :
  sc_state (ss_connection s) = Command -> command_token line ∈ helo_verbs ->
  wp (r <- attempt (handle_helo config client line) ;;
      match r with Ok _ => ret true | Err _ => unavailable client end)
    (line_wp client line (ss_connection s) t) s t.
Proof.
  intros Hc Hv. wp_step. wp_step. unfold handle_helo.
  destruct (parse_helo_domain line) as [domain|] eqn:Ed.
  2: { apply wp_reply. intros l r Hp Hs Ho.
       destruct (plain_same l (ss_connection s) (ss_connection s) Hp eq_refl) as [Hl Hb].
       destruct r as [[]|e]; [|by apply wp_unavailable].
       apply wp_ret. exists l. split; [done|]. split; [done|]. split; [done|].
       intros _. exists [], ERROR_SYNTAX. split; [by apply spec_no_domain|]. intros Hcl.
       split; [done|]. destruct (sc_backend (ss_connection s)); [|done]. apply Ho. congruence. }
  wp_step. wp_step. set (s1 := on_connection _ s). wp_step. wp_step. wp_step.
  eapply wp_mono; [apply emits_wp, emits_route|].
  intros r r' t' (l1 & -> & Hl1).
  assert (Hq : Forall quiet_io l1) by (eapply Forall_impl; [exact Hl1|apply routing_quiet]).
  apply quiet_io_silent in Hq as [Hp1 Hs1].
  set (s2 := ss_set_routing r' s1).
  assert (Hb2 : sc_backend (ss_connection s2) = sc_backend (ss_connection s)) by done.
  destruct (plain_same l1 (ss_connection s) (ss_connection s2) Hp1 Hb2) as [Hl1' Hbal1].
  destruct r as [routed|e]; cbn [map_err]; [|by apply wp_unavailable].
  wp_step. apply wp_connect_to_backend. intros l2 r2 Hl2 Hs2 Hbal2. rewrite app_assoc.
  destruct r2 as [b|e].
  2: { apply wp_unavailable; [by rewrite lines_read_app, Hl1', Hl2|].
       intros o. rewrite balance_app, Hbal1, Hbal2. lia. }
  wp_step. apply wp_replace_backend. intros l3 Hl3 Hs3 Hbal3. rewrite app_assoc.
  apply (wp_helo_relay client line domain b); [done..| | | |].
  - cbn. unfold set_backend, set_domain. cbn. by rewrite Hc.
  - by rewrite !lines_read_app, Hl1', Hl2, Hl3.
  - intros o. by rewrite !sent_app, Hs1, Hs2, Hs3.
  - intros o. rewrite !balance_app, Hbal1, Hbal2, Hbal3.
    change (ss_connection (on_connection (set_backend b) s2)) with (set_backend b (ss_connection s2)).
    rewrite held_set_backend. lia.
Qed.

Lemma wp_handle_line config client line s t :
  wp (handle_line config client line) (line_wp client line (ss_connection s) t) s t.
Proof.
  unfold handle_line. wp_step. wp_step. destruct (_ <? _).
  { apply (wp_unavailable _ _ _ _ _ []); [done|]. intros b. cbn. by rewrite held_same. }
  unfold is_data. case_bool_decide as Hd; [by apply wp_data_line|].
  assert (Hc : sc_state (ss_connection s) = Command) by by destruct (sc_state (ss_connection s)).
  cbv zeta. case_bool_decide as Hh; [by apply wp_helo_line|].
  case_bool_decide as Hf; [by apply wp_command_line|].
  wp_step. apply wp_reply. intros l r Hp Hs Ho.
  destruct (plain_same l (ss_connection s) (ss_connection s) Hp eq_refl) as [Hl Hb].
  destruct r as [[]|e]; [|by exists l].
  apply wp_ret. exists l. split; [done|]. split; [done|]. split; [done|].
  intros _. exists [], ERROR_UNKNOWN_COMMAND. split; [by apply spec_unknown|]. intros Hcl.
  split; [done|]. destruct (sc_backend (ss_connection s)); [|done]. apply Ho. congruence.
Qed.

(** ** Whole sessions *)

Inductive smtp_run : SmtpConnection -> list bytes -> bytes -> SmtpConnection -> Prop :=
| run_nil c : smtp_run c [] [] c
| run_cons c c1 c' line up down lines downs :
    smtp_spec c line up down c1 -> smtp_run c1 lines downs c' ->
    smtp_run c (line :: lines) (down ++ downs) c'.

(** No dialling returned the client's own descriptor, which is open. *)
Definition client_distinct (client : sock) (l : trace) : Prop :=
  forall h p, EvConnect h p (Done (Ok client)) ∉ l.

Lemma client_distinct_app client l l' :
  client_distinct client (l ++ l') -> client_distinct client l /\ client_distinct client l'.
Proof. unfold client_distinct. intros Hd. split; intros h p Hin; apply (Hd h p), elem_of_app; auto. Qed.

Lemma balance_distinct client l : client_distinct client l -> balance client l <= 0.
Proof.
  induction l as [|ev l IH]; intros Hd; [done|].
  apply (client_distinct_app client [ev] l) in Hd as [Hev Hl%IH].
  destruct ev as [| | | |h p [[s'|]|]| | | | | | | | | | | | | | | | | | |s']; cbn; try lia.
  - destruct (Z.eqb_spec s' client) as [->|]; [|lia]. exfalso. apply (Hev h p). by left.
  - destruct (s' =? client); lia.
Qed.

Lemma held_distinct client c c' l :
  client_distinct client l -> (forall b, balance b l = held b c' - held b c) ->
  sc_backend c <> Some client -> sc_backend c' <> Some client.
Proof.
  intros Hd%balance_distinct Hb Hc Hc'. specialize (Hb client). unfold held in Hb.
  rewrite bool_decide_eq_true_2, bool_decide_eq_false_2 in Hb by done. lia.
Qed.

Definition loop_post client c (r : result smtp_stop unit) c' fuel (l : trace) : Prop :=
  exists lines last down tail c1,
    lines_read l = lines ++ last /\ (List.length last <= 1)%nat /\ (last = [] -> tail = [])
    /\ smtp_run c lines down c1
    /\ (client_distinct client l -> sc_backend c <> Some client -> sent client l = down ++ tail)
    /\ (forall b, balance b l = held b c' - held b c)
    /\ (r = Err SmtpRunning -> (fuel < List.length lines)%nat).

Definition loop_wp client c fuel t (r : result smtp_stop unit) (s' : Session CD CR) t' : Prop :=
  exists l, t' = l ++ t /\ loop_post client c r (ss_connection s') fuel l.

(** A loop that stops here, having read no further line. *)
Lemma loop_stop client s fuel t ev r :
  r <> Err SmtpRunning -> lines_read [ev] = [] -> sent client [ev] = [] -> (forall b, balance b [ev] = 0) ->
  loop_wp client (ss_connection s) fuel t r s (ev :: t).
Proof.
  intros Hr Hl Hs Hb. exists [ev]. split; [done|].
  exists [], [], [], [], (ss_connection s). rewrite Hl, Hs. split; [done|]. split; [cbn; lia|].
  split; [done|]. split; [constructor|]. split; [done|]. split; [|done].
  intros b. by rewrite Hb, held_same.
Qed.

(** One more line before the loop. *)
Lemma loop_more client line up down c c1 c' (r : result smtp_stop unit) fuel l1 l2 rl :
  line <> [] -> rl = EvReadLine client (Ok line) ->
  line_post client line c (Ok true) c1 l1 -> smtp_spec c line up down c1 ->
  (sc_backend c1 <> Some client -> sent client l1 = down) ->
  loop_post client c1 r c' fuel l2 -> loop_post client c r c' (Datatypes.S fuel) (l2 ++ l1 ++ [rl]).
Proof.
  intros Hne -> (Hl1 & Hb1 & _) Hspec Hdown
    (lines & last & downs & tail & c2 & Hl2 & Hlast & Htail & Hrun & Hsent & Hb2 & Hr).
  exists (line :: lines), last, (down ++ downs), tail, c2.
  assert (Hline : lines_read [EvReadLine client (Ok line)] = [line]) by by destruct line.
  split; [by rewrite !lines_read_app, Hl1, Hl2, Hline|]. split; [done|]. split; [done|].
  split; [by eapply run_cons|]. split.
  - intros [Hd2 [Hd1 _]%client_distinct_app]%client_distinct_app Hc.
    assert (Hc1 : sc_backend c1 <> Some client) by by eapply held_distinct.
    rewrite !sent_app, (Hdown Hc1), (Hsent Hd2 Hc1). cbn. by rewrite app_assoc.
  - split; [|intros E; specialize (Hr E); cbn; lia].
    intros b. rewrite !balance_app, Hb1, Hb2. cbn. lia.
Qed.

Lemma wp_session_loop fuel config client s t :
  wp (session_loop fuel config client) (loop_wp client (ss_connection s) fuel t) s t.
Proof.
  revert s t. induction fuel as [|fuel IH]; intros s t; cbn [session_loop]; wp_step; wp_step;
    (destruct (env_read_line t client) as [[|x line]|e];
     [apply wp_ret; by apply loop_stop| |apply wp_fail; by apply loop_stop]);
    wp_step; wp_step; set (rl := EvReadLine client (Ok (x :: line)));
    (eapply wp_mono; [apply wp_handle_line|]); intros r s1 t1 (l1 & -> & Hpost);
    (destruct r as [[|]|e]; cbn [map_err]).
  all: try (destruct Hpost as (Hl1 & Hb1 & _); first [apply wp_ret|idtac]; exists (l1 ++ [rl]);
    rewrite <- app_assoc; split; [done|]; exists [], [x :: line], [], (sent client l1), (ss_connection s);
    split; [by rewrite lines_read_app, Hl1|]; split; [done|]; split; [done|]; split; [constructor|];
    split; [intros _ _; by rewrite sent_app|]; split; [|done];
    intros b; rewrite balance_app, Hb1; cbn; lia).
  - apply wp_fail. exists (l1 ++ [rl]). rewrite <- app_assoc. split; [done|].
    destruct (proj2 (proj2 Hpost) eq_refl) as (up & down & Hspec & Hsent).
    destruct Hpost as (Hl1 & Hb1 & _).
    exists [x :: line], [], down, [], (ss_connection s1).
    split; [by rewrite lines_read_app, Hl1|]. split; [cbn; lia|]. split; [done|].
    split; [rewrite <- (app_nil_r down); eapply run_cons; [exact Hspec|constructor]|]. split.
    + intros [Hd _]%client_distinct_app Hc. rewrite sent_app, app_nil_r.
      by rewrite (proj1 (Hsent (held_distinct _ _ _ _ Hd Hb1 Hc))).
    + split; [|intros _; cbn; lia]. intros b. rewrite balance_app, Hb1. cbn. lia.
  - eapply wp_mono; [apply IH|]. intros r s2 t2 (l2 & -> & Hloop).
    destruct (proj2 (proj2 Hpost) eq_refl) as (up & down & Hspec & Hsent).
    exists (l2 ++ l1 ++ [rl]). split; [by rewrite <- !app_assoc|].
    eapply loop_more; [|reflexivity|exact Hpost|exact Hspec| |exact Hloop]; [done|].
    intros Hc. by destruct (Hsent Hc).
Qed.

(** What a whole session leaves: see [smtp_session_refines]. *)
Definition session_post fuel client (r : result smtp_stop unit) (l : trace) : Prop :=
  exists lines last down tail c,
    lines_read l = lines ++ last /\ (List.length last <= 1)%nat /\ (last = [] -> tail = [])
    /\ smtp_run smtp_connection_new lines down c
    /\ (client_distinct client l -> sent client l = GREETING ++ down ++ tail)
    /\ match r with
       | Err SmtpRunning => (fuel < List.length lines)%nat
       | _ => forall b, balance b l = if client =? b then -1 else 0
       end.

(** The end of a session closes what it holds. *)
Lemma wp_end_session {E} client (Q : result E unit -> Session CD CR -> trace -> Prop) s t :
  (forall l, lines_read l = [] -> sent client l = [] ->
     (forall b, balance b l = - held b (ss_connection s) - (if client =? b then 1 else 0)) ->
     Q (Ok tt) s (l ++ t)) ->
  wp (end_session client) Q s t.
Proof.
  intros HQ. unfold end_session. wp_step. wp_step. wp_step.
  destruct (sc_backend (ss_connection s)) as [b|] eqn:Eb; wp_steps.
  - apply (HQ [_; _]); [done..|]. intros o. cbn. unfold held. rewrite Eb.
    destruct (Z.eqb_spec b o) as [->|Hne]; [rewrite bool_decide_eq_true_2 by done; lia|].
    rewrite bool_decide_eq_false_2 by congruence. lia.
  - apply (HQ [_]); [done..|]. intros o. cbn. unfold held. rewrite Eb.
    rewrite bool_decide_eq_false_2 by done. lia.
Qed.

Lemma wp_close_session fuel client lines last down tail c (r : result smtp_stop unit) s t l :
  lines_read l = lines ++ last -> (List.length last <= 1)%nat -> (last = [] -> tail = []) ->
  smtp_run smtp_connection_new lines down c ->
  (client_distinct client l -> sent client l = GREETING ++ down ++ tail) ->
  (forall b, balance b l = held b (ss_connection s)) -> r <> Err SmtpRunning ->
  wp (end_session client ;; lift r)
    (fun r s' t' => exists l, t' = l ++ t /\ session_post fuel client r l) s (l ++ t).
Proof.
  intros Hl Hlast Htail Hrun Hsent Hbal Hr. wp_step. apply wp_end_session.
  intros l' Hl' Hs' Hb'. apply wp_lift. exists (l' ++ l). split; [by rewrite app_assoc|].
  exists lines, last, down, tail, c. split; [by rewrite lines_read_app, Hl', app_nil_r|].
  repeat (split; [done|]). split.
  - intros [_ Hd]%client_distinct_app. by rewrite sent_app, Hs', app_nil_r, Hsent.
  - assert (Hend : forall b, balance b (l' ++ l) = if client =? b then -1 else 0).
    { intros b. rewrite balance_app, Hbal, Hb'. destruct (client =? b); lia. }
    destruct r as [?|[]]; [done..|done].
Qed.

Lemma wp_smtp_session fuel config client s t :
  wp (handle_client fuel config client)
    (fun r s' t' => exists l, t' = l ++ t /\ session_post fuel client r l) s t.
Proof.
  unfold handle_client. wp_step. wp_step. wp_step. wp_step. wp_step. wp_step.
  apply wp_reply. intros l0 r0 Hp0 Hs0 _. apply plain_io_silent in Hp0 as [Hl0 Hb0].
  assert (Hnone : forall b, held b smtp_connection_new = 0) by done.
  destruct r0 as [[]|e]; cbn [map_err].
  2: { eapply (wp_close_session fuel client [] [] [] []);
         [by rewrite Hl0|cbn; lia|done|constructor|by rewrite Hs0, !app_nil_r|done|done]. }
  eapply wp_mono; [apply wp_session_loop|].
  intros r s1 t1 (l & -> & lines & last & down & tail & c & Hl & Hlast & Htail & Hrun & Hsent & Hbal & Hfuel).
  assert (Hl' : lines_read (l ++ l0) = lines ++ last) by (by rewrite lines_read_app, Hl0, Hl).
  assert (Hs' : client_distinct client (l ++ l0) -> sent client (l ++ l0) = GREETING ++ down ++ tail).
  { intros [Hd _]%client_distinct_app. by rewrite sent_app, Hs0, Hsent. }
  assert (Hbal' : forall b, balance b (l ++ l0) = held b (ss_connection s1)).
  { intros b. rewrite balance_app, Hb0, Hbal.
    enough (held b (ss_connection (ss_set_connection smtp_connection_new s)) = 0) by lia. done. }
  rewrite app_assoc. destruct r as [[]|[|e]]; [by eapply wp_close_session| |by eapply wp_close_session].
  apply wp_fail. exists (l ++ l0). split; [done|]. exists lines, last, down, tail, c. auto 10.
Qed.
End Relay.

(** ** Properties *)
Section Properties.
Context `{Env} {CD CR : Type} `{TtlCacheLaws bytes IpAddr CD} `{TtlCacheLaws bytes CacheEntry CR}.

(** SSRF safety of the SMTP proxy.  Whatever clients send, whatever the
    resolver, the callback, the DNS and the backends answer, a server whose
    adapter validates never dials a host that is the literal of a blocked
    address. *)
Theorem smtp_never_dials_blocked fuel config listener resolver (r : Routing CD CR) t host port res :
  smc_skip_validation config = false ->
  rtc (smtp_server_step fuel config listener) (mkRouting (build_adapter resolver config) dns_initial, []) (r, t) ->
  EvConnect host port res ∈ t ->
  forall ip, parse_ipaddr host = Some ip -> is_blocked_ip ip = false.
Proof.
  intros Hskip Hr Hin.
  assert (Hi : dial_inv (mkRouting (build_adapter (CR := CR) resolver config) dns_initial : Routing CD CR) []).
  { split; [|constructor]. split; [apply dns_inv_initial|]. unfold build_adapter. rewrite Hskip.
    split; [|done]. intros k e n Hh. by apply cache_new_empty in Hh. }
  assert (Hend : dial_inv r t).
  { remember (_, []) as st0 eqn:E0 in Hr. remember (r, t) as st1 eqn:E1 in Hr.
    assert (H0' : dial_inv st0.1 st0.2) by by subst. clear Hi E0.
    revert E1. induction Hr as [x|x y z Hxy _ IH]; intros ->; [done|].
    apply IH; [by eapply dial_inv_server_step|done]. }
  destruct Hend as [_ Ht]. rewrite Forall_forall in Ht. exact (Ht _ Hin).
Qed.


(** A single line is relayed faithfully.  If the session goes on after a
    line, the connection made a step of the state machine on it, the bytes the
    step relays are exactly the bytes written to the backend the connection now
    has, and the bytes of its answer are exactly what the client was sent. *)
Theorem smtp_line_relayed config client line (s s' : Session CD CR) t t' :
  handle_line config client line s t = (Ok true, s', t') ->
  sc_backend (ss_connection s') <> Some client ->
  exists l up down,
    t' = l ++ t /\ smtp_spec (ss_connection s) line up down (ss_connection s')
    /\ sent client l = down
    /\ match sc_backend (ss_connection s') with Some b => sent b l = up | None => up = [] end.
Proof.
  intros Hr Hc. pose proof (wp_handle_line config client line s t) as W.
  apply (wp_run _ _ _ _ _ _ _ W) in Hr as (l & -> & _ & _ & Hgo).
  destruct (Hgo eq_refl) as (up & down & Hspec & Hsent). destruct (Hsent Hc) as [Hdown Hup].
  by exists l, up, down.
Qed.

(** A body line that is a dot surrounded by blanks, which is ordinary text
    for SMTP (only a lone dot ends the body), is taken for the end of the body:
    the proxy waits for a reply the backend has no reason to send, and the
    session dies with a 421 in the middle of the message. *)
Theorem padded_dot_breaks_body config client b (s : Session CD CR) t :
  sc_state (ss_connection s) = Data -> sc_backend (ss_connection s) = Some b ->
  (forall t', env_read t' b RECV_BUFFER = Elapsed) ->
  exists s' t' r, handle_line config client (B " ." ++ CRLF) s t
                  = (Ok false, s', EvWrite client ERROR_UNAVAILABLE r :: t').
Proof.
  intros Hd Hb Hread.
  assert (W : wp (handle_line config client (B " ." ++ CRLF)) (fun r s' t' =>
    exists t0 res, r = Ok false /\ t' = EvWrite client ERROR_UNAVAILABLE res :: t0) s t).
  2: { unfold wp in W. destruct (handle_line _ _ _ s t) as [[r s'] t'].
       destruct W as (t0 & res & -> & ->). by exists s', t0, res. }
  unfold handle_line. wp_step. wp_step. change (PACKAGE_MAX_LENGTH <? _) with false. cbv iota.
  unfold is_data. rewrite bool_decide_eq_true_2 by done.
  wp_step. wp_step. unfold forward_data. wp_step. apply wp_the_backend. rewrite Hb.
  wp_step. apply wp_send_line. intros l [[]|e] _ _ _.
  2: { unfold unavailable. wp_steps. by eexists _, _. }
  rewrite bool_decide_eq_true_2 by done. wp_step. unfold read_reply. wp_step. wp_step.
  rewrite Hread. apply wp_lift. unfold unavailable. wp_steps. by eexists _, _.
Qed.
End Properties.

(** ** Witnesses *)

Definition count_events (p : event -> bool) (t : trace) : nat := List.length (List.filter p t).

(** A client that sends three lines, the last one padded, and a backend that
    greets, accepts EHLO and DATA, and then waits for the body. *)
Definition smtp_example_lines : list bytes :=
  [B "EHLO example.com" ++ CRLF; B "DATA" ++ CRLF; B " ." ++ CRLF].
Definition smtp_example_replies : list bytes :=
  [B "220 mail" ++ CRLF; B "250 hello" ++ CRLF; B "354 go" ++ CRLF].
Definition smtp_example_env : Env :=
  scripted_env (fun _ => Elapsed)
    (fun _ _ _ => Done (Ok 9))
    (fun t _ _ => match nth_error smtp_example_replies
                          (count_events (fun ev => match ev with EvRead _ _ _ => true | _ => false end) t) with
                  | Some data => Done (Ok data)
                  | None => Elapsed
                  end)
    (fun t _ => Ok (nth (count_events (fun ev => match ev with EvReadLine _ _ => true | _ => false end) t)
                      smtp_example_lines []))
    (fun _ => true).
#[local] Existing Instance smtp_example_env.

Definition smtp_example_resolver : Resolve :=
  fun _ _ => Ok (resolver_result_new (B "93.184.216.34:25")).
Definition smtp_example_config : SmtpConfig := smtp_config_default None.
Definition smtp_example_routing : Routing (AssocCache bytes IpAddr) (AssocCache bytes CacheEntry) :=
  mkRouting (build_adapter smtp_example_resolver smtp_example_config) dns_initial.
Definition smtp_example_run := accept_once 10 smtp_example_config 3 smtp_example_routing [].

Lemma smtp_never_dials_blocked_witness :
  EvConnect (B "93.184.216.34") 25 (Done (Ok 9)) ∈ smtp_example_run.2
  /\ forall ip, parse_ipaddr (B "93.184.216.34") = Some ip -> is_blocked_ip ip = false.
Proof.
  assert (Hin : EvConnect (B "93.184.216.34") 25 (Done (Ok 9)) ∈ smtp_example_run.2).
  { vm_compute. repeat constructor. }
  split; [exact Hin|].
  refine (smtp_never_dials_blocked 10 smtp_example_config 3 smtp_example_resolver
            smtp_example_run.1.2 smtp_example_run.2 _ _ _ eq_refl _ Hin).
  apply rtc_once. apply (smstep_accept _ _ _ _ _ smtp_example_run.1.1). vm_compute. reflexivity.
Defined.

(** The session up to a line. *)
Definition smtp_example_session : Session (AssocCache bytes IpAddr) (AssocCache bytes CacheEntry) :=
  mkSession smtp_example_routing smtp_connection_new.
Definition smtp_example_helo := handle_line smtp_example_config 5 (B "EHLO example.com" ++ CRLF)
                                  smtp_example_session [].

Lemma smtp_line_relayed_witness :
  exists l up down, smtp_example_helo.2 = l ++ []
  /\ smtp_spec smtp_connection_new (B "EHLO example.com" ++ CRLF) up down
       (mkSmtpConnection Command (Some (B "example.com")) (Some 9))
  /\ sent 5 l = down /\ sent 9 l = up.
Proof.
  refine (smtp_line_relayed smtp_example_config 5 (B "EHLO example.com" ++ CRLF) smtp_example_session
            smtp_example_helo.1.2 [] smtp_example_helo.2 _ _).
  - vm_compute. reflexivity.
  - vm_compute. discriminate.
Defined.

(** A backend that waits for the body. *)
Definition smtp_waiting_env : Env :=
  scripted_env (fun _ => Elapsed) (fun _ _ _ => Elapsed) (fun _ _ _ => Elapsed)
    (fun _ _ => Ok []) (fun _ => true).

Lemma padded_dot_breaks_body_witness :
  exists s' t' r, @handle_line smtp_waiting_env _ _ _ _ smtp_example_config 5 (B " ." ++ CRLF)
    (mkSession smtp_example_routing (mkSmtpConnection Data (Some (B "example.com")) (Some 9))) []
  = (Ok false, s', EvWrite 5 ERROR_UNAVAILABLE r :: t').
Proof. by apply (@padded_dot_breaks_body smtp_waiting_env _ _ _ _ smtp_example_config 5 9). Defined.

(** The whole session of the example: it ends after the padded line. *)
Definition smtp_example_whole := handle_client 10 smtp_example_config 5 smtp_example_session [].

