(* ===== verification/SmtpConcurrency.v ===== *)
(** * SmtpConcurrency: many SMTP sessions at once.

    The sessions of the server share its adapter and the DNS cache; each has a
    connection record of its own.  The programs below are those of Smtp cut at
    every access to shared state and every I/O operation, and what they do under
    every interleaving is proved here: which hosts are dialled, and between
    whom lines and replies travel. *)

From S2P Require Import Prelude Text Net Protocol Resolver World Stores Dns Adapter Ssrf Routing.
From S2P Require Import Interleave RoutingConcurrency.
From S2P Require Import TcpAdapter TcpConfig Smtp SmtpGuarantees.
Open Scope Z_scope.
Open Scope prog_scope.

(** ** The session's program, cut at its steps *)
Section Progs.
Context `{Env} {CD CR : Type} `{TtlCache bytes IpAddr CD} `{TtlCache bytes CacheEntry CR}.

Definition PS (E A : Type) : Type := prog (Session CD CR) E A.

Definition reply_prog (client : sock) (data : bytes) : PS io_error unit :=
  r <~ atom (io_write client data) ;;
  pure (settle r) ~;;
  r <~ atom (io_flush client) ;;
  pure (settle r).

Definition send_line_prog (backend : sock) (line : bytes) : PS io_error unit :=
  r <~ atom (io_write backend line) ;;
  pure (timed (B "backend write timeout") r) ~;;
  r <~ atom (io_flush backend) ;;
  pure (timed (B "backend flush timeout") r).

Definition read_reply_prog (backend : sock) : PS io_error bytes :=
  r <~ atom (io_read backend RECV_BUFFER) ;;
  pure (timed (B "backend read timeout") r).

Definition the_backend_prog : PS io_error sock :=
  backend <~ read_field (fun s : Session CD CR => sc_backend (ss_connection s)) ;;
  pure (ok_or (io_other (B "no backend connection")) backend).

Definition forward_command_prog (client : sock) (line : bytes) : PS io_error unit :=
  backend <~ the_backend_prog ;;
  let is_data_command := is_data_only_line line in
  send_line_prog backend line ~;;
  response <~ read_reply_prog backend ;;
  match response with
  | [] => pure (Err (mkIoError UnexpectedEof (B "backend closed unexpectedly")))
  | _ :: _ =>
      reply_prog client response ~;;
      if is_data_command && starts_with response DATA_READY_CODE
      then atom (modify (on_connection (set_state Data)))
      else pure (Ok tt)
  end.

Definition forward_data_prog (client : sock) (line : bytes) : PS io_error unit :=
  backend <~ the_backend_prog ;;
  send_line_prog backend line ~;;
  if bool_decide (trim_ascii line = DATA_TERMINATOR) then
    response <~ read_reply_prog backend ;;
    atom (modify (on_connection (set_state Command))) ~;;
    match response with
    | [] => pure (Ok tt)
    | _ :: _ => reply_prog client response
    end
  else pure (Ok tt).

Definition connect_to_backend_prog (config : SmtpConfig) (endpoint : bytes) : PS io_error sock :=
  let '(host, port) := parse_endpoint endpoint SMTP_DEFAULT_PORT in
  r <~ atom (io_connect host port (smc_connect_timeout config)) ;;
  stream <~ pure (timed (B "backend connect timeout") r) ;;
  atom (io_nodelay stream) ~;;
  r <~ atom (io_read stream RECV_BUFFER) ;;
  match timed (B "backend greeting timeout") r with
  | Err e => atom (io_close stream) ~;; pure (Err e)
  | Ok [] =>
      atom (io_close stream) ~;;
      pure (Err (mkIoError UnexpectedEof (B "backend closed before greeting")))
  | Ok ((_ :: _) as data) =>
      let greeting := trim_ascii data in
      if starts_with greeting GREETING_CODE then pure (Ok stream)
      else
        atom (io_close stream) ~;;
        pure (Err (io_other (B "backend SMTP greeting failed: " ++ from_utf8_lossy greeting)))
  end.

Definition replace_backend_prog (backend : sock) : PS io_error unit :=
  old <~ read_field (fun s : Session CD CR => sc_backend (ss_connection s)) ;;
  atom (modify (on_connection (set_backend backend))) ~;;
  match old with
  | Some old => atom (io_close old)
  | None => pure (Ok tt)
  end.

Definition handle_helo_prog (config : SmtpConfig) (client : sock) (line : bytes) : PS io_error unit :=
  match parse_helo_domain line with
  | None => reply_prog client ERROR_SYNTAX
  | Some domain =>
      atom (modify (on_connection (set_domain domain))) ~;;
      routed <~ pwith_err (fun e => io_other (B "resolver error: " ++ display_resolver_error e))
                  (pzoom ss_routing ss_set_routing (route_prog domain)) ;;
      backend <~ connect_to_backend_prog config (cr_endpoint routed) ;;
      replace_backend_prog backend ~;;
      forward_command_prog client line
  end.

Definition unavailable_prog (client : sock) : PS io_error bool :=
  atom (io_write client ERROR_UNAVAILABLE) ~;; pure (Ok false).

Definition handle_line_prog (config : SmtpConfig) (client : sock) (line : bytes) : PS io_error bool :=
  in_data <~ read_field (fun s : Session CD CR => is_data (ss_connection s)) ;;
  if PACKAGE_MAX_LENGTH <? Z.of_nat (List.length line) then unavailable_prog client
  else if in_data : bool then
    r <~ pattempt (E := io_error) (forward_data_prog client line) ;;
    match r with
    | Ok _ => pure (Ok true)
    | Err _ => unavailable_prog client
    end
  else
    let command := command_token line in
    if bool_decide (command ∈ helo_verbs) then
      r <~ pattempt (E := io_error) (handle_helo_prog config client line) ;;
      match r with
      | Ok _ => pure (Ok true)
      | Err _ => unavailable_prog client
      end
    else if bool_decide (command ∈ forwarded_verbs) then
      r <~ pattempt (E := io_error) (forward_command_prog client line) ;;
      match r with
      | Ok _ => pure (Ok (negb (bool_decide (command = B "QUIT"))))
      | Err _ => unavailable_prog client
      end
    else
      reply_prog client ERROR_UNKNOWN_COMMAND ~;;
      pure (Ok true).

Fixpoint session_loop_prog (fuel : nat) (config : SmtpConfig) (client : sock) : PS smtp_stop unit :=
  r <~ atom (io_read_line client) ;;
  match r with
  | Err e => pure (Err (SmtpError e))
  | Ok [] => pure (Ok tt)
  | Ok ((_ :: _) as line) =>
      go_on <~ pwith_err SmtpError (handle_line_prog config client line) ;;
      if go_on : bool then
        match fuel with
        | O => pure (Err SmtpRunning)
        | Datatypes.S fuel' => session_loop_prog fuel' config client
        end
      else pure (Ok tt)
  end.

Definition end_session_prog {E} (client : sock) : PS E unit :=
  backend <~ read_field (fun s : Session CD CR => sc_backend (ss_connection s)) ;;
  (match backend with
   | Some backend => atom (io_close backend)
   | None => pure (Ok tt)
   end) ~;;
  atom (io_close client).

Definition handle_client_prog (fuel : nat) (config : SmtpConfig) (client : sock) : PS smtp_stop unit :=
  atom (modify (ss_set_connection smtp_connection_new)) ~;;
  r <~ pattempt (pwith_err SmtpError (reply_prog client GREETING) ~;; session_loop_prog fuel config client) ;;
  match r with
  | Err SmtpRunning => pure (Err SmtpRunning)
  | r => end_session_prog client ~;; pure r
  end.

(** A program whose connection record is its own: others see its effects on the
    routing state only.  Sessions are not dropped. *)
Definition step_owned {E A} (c : SmtpConnection) (m : M (Session CD CR) E A)
  : M (Routing CD CR) E (A * SmtpConnection) := fun r t =>
  let '(res, s, t') := m (mkSession r c) t in
  (match res with Ok a => Ok (a, ss_connection s) | Err e => Err e end, ss_routing s, t').
Fixpoint owning {E A} (c : SmtpConnection) (q : PS E A) : prog (Routing CD CR) E A :=
  match q with
  | PDone r => PDone r
  | PStep m _ k => PStep (step_owned c m) [] (fun '(b, c') => owning c' (k b))
  end.

(** A round of the accept loop: a client is accepted, and its session runs. *)
Definition accept_once_prog (fuel : nat) (config : SmtpConfig) (listener : sock)
  : prog (Routing CD CR) ProxyError unit :=
  r <~ atom (io_call (Accept listener)) ;;
  match r with
  | Err _ => pure (Ok tt)
  | Ok client =>
      atom (io_nodelay client) ~;;
      pattempt (owning smtp_connection_new (handle_client_prog fuel config client)) ~;;
      pure (Ok tt)
  end.
End Progs.

(** ** Alone, the cut programs are the sequential ones *)
Section Alone.
Context `{Env} {CD CR : Type} `{TtlCache bytes IpAddr CD} `{TtlCache bytes CacheEntry CR}.

Lemma run_reply_prog client data : run (reply_prog (CD := CD) (CR := CR) client data) ≗ reply client data.
Proof. unfold reply_prog, reply. by repeat run_step. Qed.
Lemma run_send_line_prog b line : run (send_line_prog (CD := CD) (CR := CR) b line) ≗ send_line b line.
Proof. unfold send_line_prog, send_line. by repeat run_step. Qed.
Lemma run_read_reply_prog b : run (read_reply_prog (CD := CD) (CR := CR) b) ≗ read_reply b.
Proof. unfold read_reply_prog, read_reply. by repeat run_step. Qed.
Lemma run_the_backend_prog : run (the_backend_prog (CD := CD) (CR := CR)) ≗ the_backend.
Proof. by apply run_read_bind. Qed.

Lemma run_forward_command_prog client line :
  run (forward_command_prog (CD := CD) (CR := CR) client line) ≗ forward_command client line.
Proof.
  apply run_call; [apply run_the_backend_prog|intros backend]. cbv zeta.
  apply run_call; [apply run_send_line_prog|intros _].
  apply run_call; [apply run_read_reply_prog|intros [|c response]]; [done|].
  apply run_call; [apply run_reply_prog|intros _]. by repeat run_step.
Qed.

Lemma run_forward_data_prog client line :
  run (forward_data_prog (CD := CD) (CR := CR) client line) ≗ forward_data client line.
Proof.
  apply run_call; [apply run_the_backend_prog|intros backend].
  apply run_call; [apply run_send_line_prog|intros _]. case_bool_decide; [|done].
  apply run_call; [apply run_read_reply_prog|intros response]. run_step.
  destruct response; [done|apply run_reply_prog].
Qed.

Lemma run_connect_to_backend_prog config endpoint :
  run (connect_to_backend_prog (CD := CD) (CR := CR) config endpoint) ≗ connect_to_backend config endpoint.
Proof.
  unfold connect_to_backend_prog, connect_to_backend. destruct (parse_endpoint _ _) as [host port].
  do 4 run_step. destruct (timed _ _) as [[|c data]|e]; repeat run_step; done.
Qed.

Lemma run_replace_backend_prog b :
  run (replace_backend_prog (CD := CD) (CR := CR) b) ≗ replace_backend b.
Proof.
  intros s t. unfold replace_backend_prog, replace_backend, read_field. cbn. unfold bind. cbn.
  by destruct (sc_backend _).
Qed.

Lemma session_routing_lens : lens (ss_routing (CD := CD) (CR := CR)) ss_set_routing.
Proof. split; [done|done|done|by intros []]. Qed.

Lemma run_handle_helo_prog config client line :
  run (handle_helo_prog (CD := CD) (CR := CR) config client line) ≗ handle_helo config client line.
Proof.
  unfold handle_helo_prog, handle_helo. destruct (parse_helo_domain line) as [domain|]; [|apply run_reply_prog].
  run_step. apply run_call.
  { by rewrite run_pwith_err, (run_pzoom _ _ _ session_routing_lens), run_route_prog. }
  intros routed. apply run_call; [apply run_connect_to_backend_prog|intros b].
  apply run_call; [apply run_replace_backend_prog|intros _]. apply run_forward_command_prog.
Qed.

Lemma run_unavailable_prog client : run (unavailable_prog (CD := CD) (CR := CR) client) ≗ unavailable client.
Proof. unfold unavailable_prog, unavailable. by repeat run_step. Qed.

Lemma run_handle_line_prog config client line :
  run (handle_line_prog (CD := CD) (CR := CR) config client line) ≗ handle_line config client line.
Proof.
  apply run_read_bind. intros s t. pointwise. case_match; [apply run_unavailable_prog|].
  destruct (is_data _).
  { apply run_call; [by rewrite run_pattempt, run_forward_data_prog|].
    intros []; [done|apply run_unavailable_prog]. }
  cbv zeta. case_bool_decide.
  { apply run_call; [by rewrite run_pattempt, run_handle_helo_prog|].
    intros []; [done|apply run_unavailable_prog]. }
  case_bool_decide.
  { apply run_call; [by rewrite run_pattempt, run_forward_command_prog|].
    intros []; [done|apply run_unavailable_prog]. }
  by apply run_call; [apply run_reply_prog|].
Qed.

Lemma run_session_loop_prog fuel config client :
  run (session_loop_prog (CD := CD) (CR := CR) fuel config client) ≗ session_loop fuel config client.
Proof.
  induction fuel as [|fuel IH]; cbn [session_loop_prog session_loop];
    (run_step; destruct a as [[|c line]|e]; [done| |done]);
    (apply run_call; [by rewrite run_pwith_err, run_handle_line_prog|]); by intros [|].
Qed.

Lemma run_end_session_prog {E} client :
  run (end_session_prog (CD := CD) (CR := CR) (E := E) client) ≗ end_session client.
Proof.
  apply run_read_bind. intros s t. pointwise.
  apply run_call; [by repeat run_step|intros _; apply run_atom].
Qed.

Lemma run_smtp_client_prog fuel config client :
  run (handle_client_prog (CD := CD) (CR := CR) fuel config client) ≗ Smtp.handle_client fuel config client.
Proof.
  unfold handle_client_prog, Smtp.handle_client. run_step. apply run_call.
  { rewrite run_pattempt. apply attempt_proper.
    apply run_call; [by rewrite run_pwith_err, run_reply_prog|intros _; apply run_session_loop_prog]. }
  intros [u|[|e]]; [|done|]; (apply run_call; [apply run_end_session_prog|done]).
Qed.

Lemma run_owning {E A} c (q : PS (CD := CD) (CR := CR) E A) :
  run (owning c q) ≗ zoom (fun r => mkSession r c) (fun s _ => ss_routing s) (run q).
Proof.
  revert c. induction q as [r|B m d k IH]; intros c; [done|]. intros r t. cbn.
  unfold step_owned, zoom, bind. destruct (m (mkSession r c) t) as [[[b|e] [r' c']] t']; [|done].
  apply IH.
Qed.

Lemma run_accept_once_prog fuel config listener :
  run (accept_once_prog (CD := CD) (CR := CR) fuel config listener) ≗ accept_once fuel config listener.
Proof.
  unfold accept_once_prog, accept_once. run_step. destruct a as [client|e]; [|done]. run_step.
  apply run_call; [by rewrite run_pattempt, run_owning, run_smtp_client_prog|done].
Qed.
End Alone.

(** ** Where lines and replies go *)
Section Confinement.
Context `{Env} (may_skip : bool).
Implicit Types (t : trace).

(** [to] is a client the server accepted; it introduced itself with
    [domain]. *)
Definition accepted (client : sock) t : Prop := exists listener, EvCall (Accept listener) (Ok client) ∈ t.
Definition introduced (client : sock) (domain : bytes) t : Prop :=
  exists line, EvReadLine client (Ok line) ∈ t /\ parse_helo_domain line = Some domain.

(** [host]:[port] is what dialling the endpoint routed for a domain the client
    gave means; [backend] was dialled for one. *)
Definition mail_host (client : sock) (host : bytes) (port : Z) t : Prop :=
  exists domain endpoint, introduced client domain t /\ routed_from may_skip t domain endpoint
    /\ parse_endpoint endpoint SMTP_DEFAULT_PORT = (host, port).
Definition mail_backend (client backend : sock) t : Prop :=
  exists host port, mail_host client host port t /\ EvConnect host port (Done (Ok backend)) ∈ t.

(** What may be written: the proxy's own lines to a client, a client's line to
    its backend, the reply of its backend to the client. *)
Definition own_lines : list bytes := [GREETING; ERROR_UNKNOWN_COMMAND; ERROR_SYNTAX; ERROR_UNAVAILABLE].
Definition may_write (to : sock) (data : bytes) t : Prop :=
  (accepted to t /\ data ∈ own_lines)
  \/ exists client backend, accepted client t /\ mail_backend client backend t
     /\ (to = backend /\ EvReadLine client (Ok data) ∈ t \/ to = client /\ chunk_from backend data t).

Definition mail_confined t (ev : event) : Prop :=
  match ev with
  | EvConnect host port _ => exists client, accepted client t /\ mail_host client host port t
  | EvWrite to data _ => may_write to data t
  | EvCopy _ _ | EvHttpSend _ _ _ _ | EvHttpRequest _ _ | EvHttpReply _ _ => False
  | _ => True
  end.

Lemma accepted_later client t t' : t `suffix_of` t' -> accepted client t -> accepted client t'.
Proof. intros Ht [l Hin]. exists l. by eapply event_later. Qed.

Lemma mail_host_later client host port t t' :
  t `suffix_of` t' -> mail_host client host port t -> mail_host client host port t'.
Proof.
  intros Ht (domain & out & (line & Hin & Hp) & Hr & Ho). exists domain, out.
  split; [exists line; split; [by eapply event_later|done]|]. split; [by eapply routed_from_later|done].
Qed.

Lemma mail_backend_later client backend t t' :
  t `suffix_of` t' -> mail_backend client backend t -> mail_backend client backend t'.
Proof.
  intros Ht (host & port & Hm & Hin). exists host, port.
  split; [by eapply mail_host_later|by eapply event_later].
Qed.

Lemma may_write_later to data t t' : t `suffix_of` t' -> may_write to data t -> may_write to data t'.
Proof.
  intros Ht [[Ha Hd]|(client & backend & Ha & Hb & Hd)]; [left; split; [by eapply accepted_later|done]|].
  right. exists client, backend. split; [by eapply accepted_later|]. split; [by eapply mail_backend_later|].
  destruct Hd as [[-> Hin]|[-> Hc]]; [left|right]; (split; [done|]);
    [by eapply event_later|by eapply chunk_from_later].
Qed.

Lemma mail_confined_later ev t t' : t `suffix_of` t' -> mail_confined t ev -> mail_confined t' ev.
Proof.
  intros Ht. destruct ev; cbn; try done; [|by apply may_write_later].
  intros (client & Ha & Hm). exists client. split; [by eapply accepted_later|by eapply mail_host_later].
Qed.

Lemma mails_confined_cons ev t :
  mail_confined (ev :: t) ev -> Forall (mail_confined t) t -> Forall (mail_confined (ev :: t)) (ev :: t).
Proof.
  intros Hev Ht. constructor; [done|]. eapply Forall_impl; [exact Ht|].
  intros e. apply mail_confined_later. by exists [ev].
Qed.

Lemma mails_confined_quiet t t' :
  extends routing_event t t' -> Forall (mail_confined t) t -> Forall (mail_confined t') t'.
Proof.
  intros (l & -> & Hl) Ht. induction Hl as [|ev l Hev _ IH]; [done|].
  cbn. apply mails_confined_cons; [by destruct ev|done].
Qed.
End Confinement.

(** ** The steps keep it *)
Section Sessions.
Context `{Env} {CD CR : Type} `{TtlCacheLaws bytes IpAddr CD} `{TtlCacheLaws bytes CacheEntry CR}.
Context (may_skip : bool).

(** What the sessions share, and what a session knows of its own record. *)
Definition smtp_inv (r : Routing CD CR) (t : trace) : Prop :=
  shared_inv may_skip r t /\ Forall (mail_confined may_skip t) t.
Definition own_backend (client : sock) (c : SmtpConnection) (t : trace) : Prop :=
  match sc_backend c with Some backend => mail_backend may_skip client backend t | None => True end.
Definition session_inv (client : sock) (s : Session CD CR) (t : trace) : Prop :=
  smtp_inv (ss_routing s) t /\ own_backend client (ss_connection s) t.

Lemma own_backend_later client c t t' :
  t `suffix_of` t' -> own_backend client c t -> own_backend client c t'.
Proof. unfold own_backend. destruct (sc_backend c); [apply mail_backend_later|done]. Qed.

Lemma smtp_admits : admits (mail_confined may_skip) smtp_inv.
Proof. intros r t ev Hev [Hr Ht]. split; [by apply shared_inv_cons|by apply mails_confined_cons]. Qed.

Lemma session_admits client : admits (mail_confined may_skip) (session_inv client).
Proof.
  intros s t ev Hev [Hs Hc]. split; [by apply smtp_admits|].
  eapply own_backend_later; [|exact Hc]. by exists [ev].
Qed.

(** A session's own knowledge survives what the others do. *)
Lemma sound_owning {E A} client c (Q : trace -> result E A -> Prop) (q : PS E A) t0 :
  sound (session_inv client) Q t0 q -> own_backend client c t0 -> sound smtp_inv Q t0 (owning c q).
Proof.
  revert c t0. induction q as [r|B m d k IH]; intros c t0 Hq Hc; cbn in *; [done|].
  destruct Hq as [_ Hq]. split; [constructor|].
  intros r t Ht HI. specialize (Hq (mkSession r c) t Ht). unfold wp, step_owned in *.
  assert (Hs : session_inv client (mkSession r c) t) by (split; [done|by eapply own_backend_later]).
  specialize (Hq Hs). destruct (m (mkSession r c) t) as [[[b|e] s'] t'];
    destruct Hq as ([HI' Hc'] & Ht' & Hr); (split; [done|]); (split; [done|]); [by apply IH|done].
Qed.

Section Session.
Context (client : sock).
Abbreviation Inv := (session_inv client).

Lemma sound_session_quiet {E A C} (f : trace -> A) ev (Q : trace -> result E C -> Prop) (k : A -> PS E C) t0 :
  (forall t a, mail_confined may_skip t (ev a)) ->
  (forall a t, t0 `suffix_of` t -> ev a ∈ t -> sound Inv Q t (k a)) ->
  sound Inv Q t0 (pbind (atom (io_event f ev)) k).
Proof. apply sound_quiet, session_admits. Qed.

Lemma sound_session_close {E} s (Q : trace -> result E unit -> Prop) t0 :
  (forall t, Q t (Ok tt)) -> sound (E := E) Inv Q t0 (atom (io_close s)).
Proof. intros HQ. eapply sound_admitted; [apply session_admits|done|]. intros t _. apply HQ. Qed.

(** Changes of the record that keep the backend. *)
Lemma sound_record {E} (f : SmtpConnection -> SmtpConnection) t0 :
  (forall c, sc_backend (f c) = sc_backend c) ->
  sound (E := E) Inv (fun _ _ => True) t0 (atom (modify (on_connection f))).
Proof.
  intros Hf. apply sound_atom. intros s t _ [HI Hc]. unfold wp, modify. split; [|done].
  split; [done|]. unfold own_backend. cbn. by rewrite Hf.
Qed.

Lemma sound_session_write {E C} to data (Q : trace -> result E C -> Prop) (k : outcome unit -> PS E C) t0 :
  may_write may_skip to data t0 -> (forall r t, t0 `suffix_of` t -> sound Inv Q t (k r)) ->
  sound Inv Q t0 (pbind (atom (io_write to data)) k).
Proof.
  intros Hw Hk. apply (sound_bind _ _ (fun _ r => is_ok r = true)); [|by intros r t Ht _; apply Hk|done].
  eapply sound_admitted; [apply session_admits| |done]. intros t Ht. eapply may_write_later; [|exact Hw].
  by apply suffix_cons_r.
Qed.

Lemma sound_smtp_reply data t0 :
  may_write may_skip client data t0 -> sound Inv (fun _ _ => True) t0 (reply_prog client data).
Proof.
  intros Hw. apply sound_session_write; [done|]. intros r t Ht.
  destruct (settle r); [|done].
  apply (sound_session_quiet (fun t => env_flush t client) (EvFlush client)); [done|].
  intros r' t' _ _. by destruct (settle r').
Qed.

Lemma sound_send_line backend line t0 :
  may_write may_skip backend line t0 -> sound Inv (fun _ _ => True) t0 (send_line_prog backend line).
Proof.
  intros Hw. apply sound_session_write; [done|]. intros r t Ht.
  destruct (timed _ r); [|done].
  apply (sound_session_quiet (fun t => env_flush t backend) (EvFlush backend)); [done|].
  intros r' t' _ _. by destruct (timed _ r').
Qed.

Lemma sound_read_reply backend t0 :
  sound Inv (fun t r => match r with Ok data => chunk_from backend data t | Err _ => True end) t0
    (read_reply_prog backend).
Proof.
  apply (sound_session_quiet (fun t => env_read t backend RECV_BUFFER) (EvRead backend RECV_BUFFER)); [done|].
  intros [[data|e]|] t _ Hin; [by exists RECV_BUFFER|done..].
Qed.

Lemma sound_the_backend t0 :
  sound Inv (fun t r => match r with Ok backend => mail_backend may_skip client backend t | Err _ => True end)
    t0 the_backend_prog.
Proof.
  apply (sound_bind _ _ (fun t r => match r with
    | Ok (Some backend) => mail_backend may_skip client backend t | _ => True end)); [|by intros [b|] t _ Hb|done].
  apply sound_read. intros s t _ [_ Hc]. exact Hc.
Qed.

(** For a line read from the accepted client. *)
Section Line.
Context (line : bytes).
Abbreviation given := (fun t => accepted client t /\ EvReadLine client (Ok line) ∈ t).

Lemma given_later t t' : t `suffix_of` t' -> given t -> given t'.
Proof. intros Ht [Ha Hin]. split; [by eapply accepted_later|by eapply event_later]. Qed.

Lemma own_line_allowed data t : data ∈ own_lines -> given t -> may_write may_skip client data t.
Proof. intros Hd [Ha _]. by left. Qed.

Lemma sound_forward_command t0 :
  given t0 -> sound Inv (fun _ _ => True) t0 (forward_command_prog client line).
Proof.
  intros Hg. eapply sound_bind; [apply sound_the_backend| |done]. intros backend t Ht Hb. cbv zeta.
  destruct (given_later _ _ Ht Hg) as [Ha Hin].
  apply sound_then; [apply sound_send_line; right; exists client, backend; auto| |done]. intros _ t1 Ht1.
  eapply sound_bind; [apply sound_read_reply| |done]. intros [|c data] t2 Ht2 Hc; [done|].
  apply sound_then; [|intros _ t3 _; destruct (_ && _); [by apply sound_record|done]|done].
  apply sound_smtp_reply. right. exists client, backend. assert (Hl : t `suffix_of` t2) by by etrans.
  split; [by eapply accepted_later|]. split; [by eapply mail_backend_later|by right].
Qed.

Lemma sound_forward_data t0 :
  given t0 -> sound Inv (fun _ _ => True) t0 (forward_data_prog client line).
Proof.
  intros Hg. eapply sound_bind; [apply sound_the_backend| |done]. intros backend t Ht Hb.
  destruct (given_later _ _ Ht Hg) as [Ha Hin].
  apply sound_then; [apply sound_send_line; right; exists client, backend; auto| |done]. intros _ t1 Ht1.
  case_bool_decide; [|done].
  eapply sound_bind; [apply sound_read_reply| |done]. intros data t2 Ht2 Hc.
  apply sound_then; [by apply sound_record| |done]. intros _ t3 Ht3.
  destruct data as [|c data]; [done|].
  apply sound_smtp_reply. right. exists client, backend. assert (Hl : t `suffix_of` t3) by (etrans; [|done]; by etrans).
  split; [by eapply accepted_later|]. split; [by eapply mail_backend_later|]. right. split; [done|].
  eapply chunk_from_later; [exact Ht3|exact Hc].
Qed.

Lemma sound_connect_to_backend config domain endpoint t0 :
  given t0 -> parse_helo_domain line = Some domain -> routed_from may_skip t0 domain endpoint ->
  sound Inv (fun t r => match r with Ok b => mail_backend may_skip client b t | Err _ => True end) t0
    (connect_to_backend_prog config endpoint).
Proof.
  intros [Ha Hin] Hd Hr. unfold connect_to_backend_prog.
  destruct (parse_endpoint endpoint _) as [host port] eqn:Ep.
  assert (Hm : mail_host may_skip client host port t0).
  { exists domain, endpoint. split; [by exists line|by split]. }
  apply (sound_bind _ _ (fun t r => match r with Ok o => EvConnect host port o ∈ t | Err _ => False end)); [| |done].
  { eapply sound_admitted; [apply session_admits| |intros; set_solver].
    intros t Ht. exists client.
    split; [eapply accepted_later; [|exact Ha]|eapply mail_host_later; [|exact Hm]]; by apply suffix_cons_r. }
  intros [[s|e]|] t Ht Hin'; [|done..]. unfold timed at 1, pure at 1. cbn [pbind].
  assert (Hb : forall t', t `suffix_of` t' -> mail_backend may_skip client s t').
  { intros t' Ht'. exists host, port. split; [|by eapply event_later].
    eapply mail_host_later; [|exact Hm]. by etrans. }
  apply (sound_session_quiet (fun t => env_nodelay t s) (EvNodelay s)); [done|]. intros _ t1 Ht1 _.
  apply (sound_session_quiet (fun t => env_read t s RECV_BUFFER) (EvRead s RECV_BUFFER)); [done|].
  intros r t2 Ht2 _.
  assert (Hclose : forall e, sound Inv (fun t (r : result io_error sock) =>
            match r with Ok b => mail_backend may_skip client b t | Err _ => True end) t2
            (atom (io_close s) ~;; pure (Err e))).
  { intros e. apply sound_then; [by apply sound_session_close|done|done]. }
  destruct (timed _ r) as [[|c data]|e]; [apply Hclose| |apply Hclose]. cbv zeta.
  destruct (starts_with _ _); [|apply Hclose]. apply Hb. by etrans.
Qed.

Lemma sound_replace_backend b t0 :
  mail_backend may_skip client b t0 -> sound Inv (fun _ _ => True) t0 (replace_backend_prog b).
Proof.
  intros Hb. apply sound_reading. intros old t Ht. apply sound_then; [| |done].
  - apply sound_atom. intros s t1 Ht1 [HI Hc]. unfold wp, modify. split; [|done]. split; [done|].
    unfold own_backend. cbn. eapply mail_backend_later; [|exact Hb]. by etrans.
  - intros _ t1 _. destruct old as [o|]; [by apply sound_session_close|done].
Qed.

Lemma sound_session_route domain t0 :
  sound Inv (fun t r => match r with Ok cr => routed_from may_skip t domain (cr_endpoint cr) | Err _ => True end)
    t0 (pzoom ss_routing ss_set_routing (route_prog domain)).
Proof.
  apply (sound_zoom _ (shared_inv may_skip) routing_event).
  - by intros s t [[]].
  - intros s t x t' [[_ Ht] Hc] Hx He.
    split; [split; [done|by eapply mails_confined_quiet]|].
    eapply own_backend_later; [|exact Hc]. destruct He as (l & -> & _). by exists l.
  - apply pemits_route.
  - eapply sound_mono; [|apply sound_route]. by intros t [cr|e].
Qed.

Lemma sound_handle_helo config t0 :
  given t0 -> sound Inv (fun _ _ => True) t0 (handle_helo_prog config client line).
Proof.
  intros Hg. unfold handle_helo_prog. destruct (parse_helo_domain line) as [domain|] eqn:Ed.
  2: { apply sound_smtp_reply, own_line_allowed; [set_solver|done]. }
  apply sound_then; [by apply sound_record| |done]. intros _ t Ht.
  eapply (sound_bind _ _ (fun t r => match r with Ok cr => routed_from may_skip t domain (cr_endpoint cr)
                                       | Err _ => True end)); [| |done].
  { apply sound_with_err. eapply sound_mono; [|apply sound_session_route]. by intros t1 [cr|e]. }
  intros cr t1 Ht1 Hr.
  assert (Hg1 : given t1) by (eapply given_later; [|exact Hg]; by etrans).
  eapply sound_bind; [by eapply sound_connect_to_backend| |done]. intros b t2 Ht2 Hb.
  apply sound_then; [by apply sound_replace_backend| |done]. intros _ t3 Ht3.
  apply sound_forward_command. eapply given_later; [|exact Hg1]. by etrans.
Qed.

Lemma sound_unavailable t0 : given t0 -> sound Inv (fun _ _ => True) t0 (unavailable_prog client).
Proof. intros Hg. apply sound_session_write; [|done]. apply own_line_allowed; [set_solver|done]. Qed.

(** A command, and what is answered to its failure. *)
Lemma sound_or_unavailable {A} (p : PS io_error A) (b : bool) t0 :
  given t0 -> sound Inv (fun _ _ => True) t0 p ->
  sound Inv (fun _ _ => True) t0
    (r <~ pattempt (F := io_error) p ;;
     match r with Ok _ => pure (Ok b) | Err _ => unavailable_prog client end).
Proof.
  intros Hg Hp. apply sound_then; [by apply sound_attempt| |done]. intros [a|e] t Ht; [done|].
  apply sound_unavailable. by eapply given_later.
Qed.

Lemma sound_handle_line config t0 :
  given t0 -> sound Inv (fun _ _ => True) t0 (handle_line_prog config client line).
Proof.
  intros Hg. apply sound_reading. intros in_data t Ht. pose proof (given_later _ _ Ht Hg) as Hgt.
  destruct (_ <? _); [by apply sound_unavailable|].
  destruct in_data; [by apply sound_or_unavailable, sound_forward_data|]. cbv zeta.
  case_bool_decide; [by apply sound_or_unavailable, sound_handle_helo|].
  case_bool_decide; [by apply sound_or_unavailable, sound_forward_command|].
  apply sound_then; [|done|done]. apply sound_smtp_reply, own_line_allowed; [set_solver|done].
Qed.
End Line.

Lemma sound_session_loop fuel config t0 :
  accepted client t0 -> sound Inv (fun _ _ => True) t0 (session_loop_prog fuel config client).
Proof.
  revert t0. induction fuel as [|fuel IH]; intros t0 Ha; cbn [session_loop_prog];
    (apply (sound_session_quiet (fun t => env_read_line t client) (EvReadLine client)); [done|]);
    (intros [[|c line]|e] t Ht Hin; [done| |done]);
    (pose proof (accepted_later _ _ _ Ht Ha) as Hat);
    (apply sound_then; [by apply sound_with_err, sound_handle_line| |done]);
    (intros [|] t1 Ht1; [|done]); [done|].
  apply IH. by eapply accepted_later.
Qed.

Lemma sound_end_session {E} t0 : sound (E := E) Inv (fun _ _ => True) t0 (end_session_prog client).
Proof.
  apply sound_reading. intros b t _. apply sound_then; [|by intros; apply sound_session_close|done].
  destruct b; [by apply sound_session_close|done].
Qed.

Lemma sound_smtp_client fuel config t0 :
  accepted client t0 -> sound Inv (fun _ _ => True) t0 (handle_client_prog fuel config client).
Proof.
  intros Ha. apply sound_then; [| |done].
  { apply sound_atom. intros s t _ [HI _]. unfold wp, modify. by split. }
  intros _ t Ht. pose proof (accepted_later _ _ _ Ht Ha) as Hat. apply sound_then; [| |done].
  - apply sound_attempt, sound_then; [| |done].
    + apply sound_with_err, sound_smtp_reply. left. split; [done|set_solver].
    + intros _ t1 Ht1. apply sound_session_loop. by eapply accepted_later.
  - intros r t1 _.
    assert (Hend : sound Inv (fun _ _ => True) t1 (end_session_prog client ~;; pure r)).
    { by apply sound_then; [apply sound_end_session| |]. }
    by destruct r as [|[]].
Qed.
End Session.

Lemma sound_accept_once fuel config listener t0 :
  sound smtp_inv (fun _ _ => True) t0 (accept_once_prog fuel config listener).
Proof.
  unfold accept_once_prog.
  apply (sound_quiet _ (mail_confined may_skip) (fun t => env_call t (Accept listener)) (EvCall (Accept listener)));
    [apply smtp_admits|done|].
  intros [client|e] t Ht Hin; [|done].
  apply (sound_quiet _ (mail_confined may_skip) (fun t => env_nodelay t client) (EvNodelay client));
    [apply smtp_admits|done|].
  intros _ t1 Ht1 _. apply sound_then; [|done|done].
  apply sound_attempt, (sound_owning client); [|done]. apply sound_smtp_client.
  exists listener. by eapply event_later.
Qed.
End Sessions.

(** ** Properties *)
Section Properties.
Context `{Env} {CD CR : Type} `{TtlCacheLaws bytes IpAddr CD} `{TtlCacheLaws bytes CacheEntry CR}.

(** I/O that is no mail traffic. *)
Definition no_mail (ev : event) : Prop :=
  match ev with
  | EvConnect _ _ _ | EvWrite _ _ _ | EvCopy _ _ | EvHttpSend _ _ _ _ | EvHttpRequest _ _ | EvHttpReply _ _ => False
  | _ => True
  end.

(** What else happens: other I/O; the adapter reconfigured. *)
Inductive smtp_meanwhile (may_skip : bool) : Routing CD CR * trace -> Routing CD CR * trace -> Prop :=
| meanwhile_other ev r t : no_mail ev -> smtp_meanwhile may_skip (r, t) (r, ev :: t)
| meanwhile_adapter r r' t :
    reconfigured may_skip (r, t) (r', t) -> smtp_meanwhile may_skip (r, t) (r', t).

Lemma smtp_inv_meanwhile may_skip r t r' t' :
  smtp_inv may_skip r t -> smtp_meanwhile may_skip (r, t) (r', t') ->
  smtp_inv may_skip r' t' /\ t `suffix_of` t'.
Proof.
  intros HI Hm. inversion Hm as [ev ? ? Hev|? ? ? Hr]; subst.
  - split; [|by exists [ev]]. apply smtp_admits; [by destruct ev|done].
  - split; [|done]. destruct HI as [Hs Ht]. by destruct (shared_inv_rely _ _ _ _ _ Hs Hr).
Qed.

(** The server while it serves: rounds of its accept loop (a client accepted,
    its session) are spawned, any number at a time, and interleave with each
    other and with the rest of the process. *)
Abbreviation serving := (config (K := sock) (S := Routing CD CR) (E := ProxyError) (A := unit)).
Definition sessions_step (fuel : nat) (may_skip : bool) (config : SmtpConfig) : serving -> serving -> Prop :=
  sched_step (accept_once_prog fuel config) (smtp_meanwhile may_skip).

(** [SmtpServer::start], for a process whose DNS cache is new. *)
Definition started (resolver : Resolve) (config : SmtpConfig) (r : Routing CD CR) (t : trace) : Prop :=
  exists a listener, Smtp.start resolver config (mkRouting a dns_initial) [] = (Ok listener, r, t).

Lemma started_inv resolver config may_skip r t :
  (smc_skip_validation config = true -> may_skip = true) -> started resolver config r t ->
  smtp_inv may_skip r t.
Proof.
  intros Hs (a & listener & E). unfold Smtp.start, bind in E. cbn in E. unfold lift, modify, ret in E.
  destruct (env_call [] _) as [l|e]; [|done]. injection E as _ <- <-.
  split; [|by repeat constructor]. apply shared_inv_cons. split; [apply dns_inv_initial|].
  unfold build_adapter. split; cbn.
  - intros k e n Hh. destruct (smc_skip_validation config); by apply cache_new_empty in Hh.
  - by destruct (smc_skip_validation config); [auto|].
Qed.

Lemma sessions_inv fuel resolver config may_skip r t (c : serving) :
  (smc_skip_validation config = true -> may_skip = true) -> started resolver config r t ->
  rtc (sessions_step fuel may_skip config) (mkConfig [] r t) c ->
  Forall (mail_confined may_skip (history c)) (history c).
Proof.
  intros Hs Hr Hc. assert (HI : smtp_inv may_skip (shared c) (history c)); [|apply HI].
  eapply (sched_inv_reachable _ _ (smtp_inv may_skip) (fun _ _ _ => True)); [..|exact Hc].
  - intros r1 t1 r2 t2. apply smtp_inv_meanwhile.
  - done.
  - intros l t1. apply sound_accept_once.
  - split; [by eapply started_inv|constructor].
Qed.

(** C3: SSRF safety of the concurrent SMTP server.  From the moment it has
    started, with validation on (and kept on), under every interleaving of its
    sessions, whatever clients, backends, resolver, DNS and caches do: every
    host it dials comes from the validated form of an answer about a domain
    that an accepted client introduced itself with, and if it is an IP literal
    it is outside the blocked ranges. *)
Theorem concurrent_smtp_never_dials_blocked fuel resolver config (r : Routing CD CR) t (c : serving) host port o :
  smc_skip_validation config = false -> started resolver config r t ->
  rtc (sessions_step fuel false config) (mkConfig [] r t) c ->
  EvConnect host port o ∈ history c ->
  (exists client domain res out,
     accepted client (history c) /\ introduced client domain (history c)
     /\ answer (history c) domain res /\ validated_from (history c) (rr_endpoint res) out
     /\ parse_endpoint out SMTP_DEFAULT_PORT = (host, port))
  /\ forall ip, parse_ipaddr host = Some ip -> is_blocked_ip ip = false.
Proof.
  intros Hskip Hst Hr Hin.
  assert (Hs : smc_skip_validation config = true -> false = true) by congruence.
  pose proof (sessions_inv _ _ _ false _ _ _ Hs Hst Hr) as Ht.
  apply (proj1 (Forall_forall _ _) Ht) in Hin as (client & Ha & domain & out & Hi & (res & Hres & Hv) & Hp).
  destruct Hv as [Hv|[? _]]; [|done]. split; [by exists client, domain, res, out|].
  destruct Hv as (ip' & p & Hv & _). intros ip Hip.
  apply (vetted_dial _ _ _ SMTP_DEFAULT_PORT ip Hv). by rewrite Hp.
Qed.


(** Refinement: a round that runs while nothing else happens does exactly
    what [accept_once] does, from any routing state and with any other sessions
    suspended in the middle of theirs. *)
Theorem session_alone_is_a_schedule fuel may_skip config
    (ts : list (sock * prog (Routing CD CR) ProxyError unit)) i listener (r r' : Routing CD CR) t t' res :
  ts !! i = Some (listener, accept_once_prog fuel config listener) ->
  accept_once fuel config listener r t = (res, r', t') ->
  rtc (sessions_step fuel may_skip config) (mkConfig ts r t)
    (mkConfig (<[i := (listener, PDone res)]> ts) r' t').
Proof. intros Hi Hr. eapply run_sched; [exact Hi|]. by rewrite run_accept_once_prog. Qed.
End Properties.

(** ** Witnesses *)

(** Two clients, accepted on descriptors 1 and 2, introduce themselves with
    different domains, interleaved step by step; their backends, 17 and 18,
    greet and answer. *)
Definition smtp_concurrency_env : Env :=
  scripted_env (fun _ => Elapsed)
    (fun _ host _ => Done (Ok (if bool_decide (host = B "8.8.8.8") then 17 else 18)))
    (fun t s _ => Done (Ok (if bool_decide (received s t = []) then B "220 mail" ++ CRLF
                            else if s =? 17 then B "250 one" ++ CRLF else B "250 two" ++ CRLF)))
    (fun t s => Ok (if existsb (fun ev => match ev with EvReadLine s' _ => s =? s' | _ => false end) t then []
                    else if s =? 1 then B "EHLO one.example" ++ CRLF else B "EHLO two.example" ++ CRLF))
    (fun _ => true).
#[local] Existing Instance smtp_concurrency_env.

Definition smtp_concurrency_resolver : Resolve :=
  fun _ domain => Ok (resolver_result_new
    (if bool_decide (domain = B "one.example") then B "8.8.8.8:25" else B "1.1.1.1:25")).
Abbreviation ExRouting := (Routing (AssocCache bytes IpAddr) (AssocCache bytes CacheEntry)).
Definition smtp_concurrency_start :=
  Smtp.start smtp_concurrency_resolver smtp_example_config
    (mkRouting (adapter_new None Smtp) dns_initial : ExRouting) [].
Definition smtp_concurrency_body (listener : sock) : prog ExRouting ProxyError unit :=
  accept_once_prog 3 smtp_example_config listener.
Definition smtp_concurrency_tasks := [(0, smtp_concurrency_body 0); (0, smtp_concurrency_body 0)].
Definition smtp_concurrency_run :=
  schedule (concat (repeat [0; 1]%nat 60))
    (mkConfig smtp_concurrency_tasks smtp_concurrency_start.1.2 smtp_concurrency_start.2).

Lemma smtp_concurrency_started :
  started smtp_concurrency_resolver smtp_example_config smtp_concurrency_start.1.2 smtp_concurrency_start.2.
Proof. exists (adapter_new None Smtp), 0. vm_compute. reflexivity. Qed.

Lemma smtp_concurrency_reachable may_skip :
  rtc (sessions_step 3 may_skip smtp_example_config)
    (mkConfig [] smtp_concurrency_start.1.2 smtp_concurrency_start.2) smtp_concurrency_run.
Proof.
  eapply rtc_l; [apply (sched_spawn _ _ 0)|]. eapply rtc_l; [apply (sched_spawn _ _ 0)|].
  apply schedule_sched.
Qed.

Lemma concurrent_smtp_never_dials_blocked_witness :
  EvConnect (B "8.8.8.8") 25 (Done (Ok 17)) ∈ history smtp_concurrency_run
  /\ is_blocked_ip (V4 (mkIpv4 (chr 8) (chr 8) (chr 8) (chr 8))) = false.
Proof.
  assert (Hin : EvConnect (B "8.8.8.8") 25 (Done (Ok 17)) ∈ history smtp_concurrency_run).
  { apply (list_elem_of_lookup_2 _ 21). vm_compute. reflexivity. }
  split; [exact Hin|].
  refine (proj2 (concurrent_smtp_never_dials_blocked 3 smtp_concurrency_resolver smtp_example_config
            smtp_concurrency_start.1.2 smtp_concurrency_start.2 smtp_concurrency_run
            (B "8.8.8.8") 25 (Done (Ok 17)) eq_refl smtp_concurrency_started
            (smtp_concurrency_reachable false) Hin) _ _).
  vm_compute. reflexivity.
Defined.


Lemma session_alone_is_a_schedule_witness :
  let '(res, r', t') := accept_once 3 smtp_example_config 0 smtp_concurrency_start.1.2 smtp_concurrency_start.2 in
  res = Ok tt
  /\ rtc (sessions_step 3 false smtp_example_config)
       (mkConfig smtp_concurrency_tasks smtp_concurrency_start.1.2 smtp_concurrency_start.2)
       (mkConfig (<[0%nat := (0, PDone res)]> smtp_concurrency_tasks) r' t').
Proof.
  assert (Hr : (accept_once 3 smtp_example_config 0 smtp_concurrency_start.1.2 smtp_concurrency_start.2).1.1
               = Ok tt) by (vm_compute; reflexivity).
  destruct (accept_once _ _ _ _ _) as [[res r'] t'] eqn:E. split; [exact Hr|].
  exact (session_alone_is_a_schedule 3 false smtp_example_config smtp_concurrency_tasks 0%nat 0 _ _ _ _ _ eq_refl E).
Defined.
