(* ===== verification/SmtpExclusive.v ===== *)
(** * SmtpExclusive: what a mail session's connections carry.

    SmtpConcurrency shows between whom lines and replies travel.  Here it is
    shown what travels on one session's connections while any number of others
    run: a task owns the connection it accepted, its backend's and its
    connection record, so that the lines of its client take the record along
    steps of the machine of SmtpGuarantees, and the two connections carry what
    those steps say, nothing else. *)

From S2P Require Import Prelude Text Net Protocol Resolver World Stores Dns Adapter Ssrf Routing.
From S2P Require Import Interleave Ownership Talks RoutingConcurrency.
From S2P Require Import TcpAdapter TcpConfig Smtp SmtpGuarantees SmtpConcurrency.
Open Scope Z_scope.
Open Scope prog_scope.

(** ** The dialogue of a session

    [smtp_dialogue lines down up got c]: on [lines], the machine went from a new
    connection to [c]; it sent the client [down] (after the greeting), and its
    current backend was sent [up] and said [got]. *)
Definition introduces (c : SmtpConnection) (line : bytes) : Prop :=
  sc_state c = Command /\ command_token line ∈ helo_verbs.

Inductive smtp_dialogue : list bytes -> bytes -> bytes -> bytes -> SmtpConnection -> Prop :=
| dialogue_new : smtp_dialogue [] [] [] [] smtp_connection_new
| dialogue_proxy lines down up got c line answer c' :
    smtp_dialogue lines down up got c -> smtp_spec c line [] answer c' -> sc_backend c' = sc_backend c ->
    smtp_dialogue (lines ++ [line]) (down ++ answer) up got c'
| dialogue_relay lines down up got c line answer c' :
    smtp_dialogue lines down up got c -> ~ introduces c line ->
    smtp_spec c line line answer c' -> sc_backend c' = sc_backend c ->
    smtp_dialogue (lines ++ [line]) (down ++ answer) (up ++ line) (got ++ answer) c'
| dialogue_introduction lines down up got c line greeting answer c' :
    smtp_dialogue lines down up got c -> introduces c line ->
    starts_with (trim_ascii greeting) GREETING_CODE = true ->
    smtp_spec c line line answer c' ->
    smtp_dialogue (lines ++ [line]) (down ++ answer) line (greeting ++ answer) c'.

(** What the record's backend was dialled as: the endpoint routed for its domain. *)
Definition dialled_as_routed (may_skip : bool) (c : SmtpConnection) (d : option (bytes * Z)) (t : trace) : Prop :=
  exists domain endpoint, sc_domain c = Some domain /\ routed_from may_skip t domain endpoint
    /\ d = Some (parse_endpoint endpoint SMTP_DEFAULT_PORT).

Lemma dialled_as_routed_later may_skip c d t t' :
  t `suffix_of` t' -> dialled_as_routed may_skip c d t -> dialled_as_routed may_skip c d t'.
Proof.
  intros Ht (domain & endpoint & Hc & Hr & Hd). exists domain, endpoint.
  split; [done|]. split; [by eapply routed_from_later|done].
Qed.

(** Whenever the proxy turns to a client for its next line, the client's
    connection and that of its backend carried what the dialogue says. *)
Definition dialogue_so_far (may_skip : bool) (client : sock) (t : trace) : Prop :=
  exists lines down up got c,
    smtp_dialogue lines down up got c
    /\ talk_on client t = mkTalk None lines (GREETING ++ down) []
    /\ forall b, sc_backend c = Some b ->
         b <> client /\ is_open b t = true
         /\ exists d, dialled_as_routed may_skip c d t /\ talk_on b t = mkTalk d [] up got.
Definition line_in_dialogue (may_skip : bool) (ev : event) (t : trace) : Prop :=
  match ev with EvReadLine client _ => dialogue_so_far may_skip client t | _ => True end.

(** ** Programs that own their connection record

    [holds Q t0 h c q]: the session [q], with the record [c] and the tokens [h],
    keeps what the server shares, and ends in [Q].  It is [owns], for programs
    whose record others do not see. *)
Section Holds.
Context `{Env} {CD CR : Type} `{TtlCacheLaws bytes IpAddr CD} `{TtlCacheLaws bytes CacheEntry CR}.
Context (may_skip : bool).

(** Nothing is idle: a connection is a session's, or closed.  The routing state
    is that of RoutingConcurrency. *)
Abbreviation connections_own :=
  (own_inv (S := Routing CD CR) (N := unit) (fun _ _ => []) (line_in_dialogue may_skip)).
Definition sessions_own (w : sock -> Prop) (r : Routing CD CR) t (G : list (sock * trace)) : Prop :=
  connections_own w r t G /\ shared_inv may_skip r t.
Implicit Types (h : list (sock * trace)) (t : trace) (c : SmtpConnection).

Fixpoint holds {E A} (Q : trace -> list (sock * trace) -> SmtpConnection -> result E A -> Prop)
    (t0 : trace) h c (q : PS (CD := CD) (CR := CR) E A) : Prop :=
  match q with
  | PDone r => Q t0 h c r
  | PStep m _ k =>
      forall w F r t, t0 `suffix_of` t -> sessions_own w r t (h ++ F) ->
        wp m (fun x s' t' => exists h', sessions_own w (ss_routing s') t' (h' ++ F) /\ t `suffix_of` t'
                /\ match x with
                   | Ok b => holds Q t' h' (ss_connection s') (k b)
                   | Err e => Q t' h' (ss_connection s') (Err e)
                   end) (mkSession r c) t
  end.

Lemma owns_owning {E A} (Q : trace -> list (sock * trace) -> result E A -> Prop) t0 h c (q : PS E A) :
  holds (fun t h' _ r => Q t h' r) t0 h c q -> owns sessions_own Q t0 h (owning c q).
Proof.
  revert t0 h c. induction q as [r|B m d k IH]; intros t0 h c Hq; cbn in *; [done|].
  split; [done|]. intros w F r t Ht HI. specialize (Hq w F r t Ht HI). unfold wp, step_owned in *.
  destruct (m (mkSession r c) t) as [[[b|e] s'] t']; destruct Hq as (h' & ? & ? & Hr); exists h'; auto.
Qed.

Lemma holds_bind {E A C} R1 Q t0 h c (q : PS E A) (f : A -> PS E C) :
  holds R1 t0 h c q ->
  (forall a t h' c', t0 `suffix_of` t -> R1 t h' c' (Ok a) -> holds Q t h' c' (f a)) ->
  (forall e t h' c', t0 `suffix_of` t -> R1 t h' c' (Err e) -> Q t h' c' (Err e)) ->
  holds Q t0 h c (pbind q f).
Proof.
  revert t0 h c. induction q as [[a|e]|B m d k IH]; intros t0 h c Hp Hf He; cbn in *; [by apply Hf|by apply He|].
  intros w F r t Ht HI. eapply wp_mono; [by eapply Hp|].
  intros x s' t' (h' & HI' & Ht' & Hr). exists h'. split; [done|]. split; [done|].
  assert (Hl : t0 `suffix_of` t') by by etrans.
  destruct x as [b|e]; [|by apply He]. apply IH; [done|..].
  - intros a t1 h1 c1 Ht1. apply Hf. by etrans.
  - intros e t1 h1 c1 Ht1. apply He. by etrans.
Qed.

Lemma holds_mono {E A} (Q Q' : trace -> list (sock * trace) -> SmtpConnection -> result E A -> Prop) t0 h c q :
  (forall t h' c' r, t0 `suffix_of` t -> Q t h' c' r -> Q' t h' c' r) ->
  holds Q t0 h c q -> holds Q' t0 h c q.
Proof.
  revert t0 h c. induction q as [r|B m d k IH]; intros t0 h c HQ Hp; cbn in *; [by apply HQ|].
  intros w F r t Ht HI. eapply wp_mono; [by eapply Hp|].
  intros x s' t' (h' & HI' & Ht' & Hr). exists h'. split; [done|]. split; [done|].
  assert (Hl : t0 `suffix_of` t') by by etrans.
  destruct x as [b|e]; [|by apply HQ]. apply IH; [|done]. intros t1 h1 c1 r1 Ht1. apply HQ. by etrans.
Qed.

Lemma holds_attempt {E F A} (Q : trace -> list (sock * trace) -> SmtpConnection -> result F (result E A) -> Prop)
    t0 h c (q : PS E A) :
  holds (fun t h' c' r => Q t h' c' (Ok r)) t0 h c q -> holds Q t0 h c (pattempt q).
Proof.
  revert t0 h c. induction q as [r|B m d k IH]; intros t0 h c Hq; cbn in *; [done|].
  intros w G r t Ht HI. apply wp_attempt. eapply wp_mono; [by eapply Hq|].
  intros [b|e] s' t' (h' & ? & ? & Hr); exists h'; (split; [done|]); (split; [done|]); [by apply IH|exact Hr].
Qed.

Lemma holds_with_err {E F A} (f : E -> F)
    (Q : trace -> list (sock * trace) -> SmtpConnection -> result F A -> Prop) t0 h c (q : PS E A) :
  holds (fun t h' c' r => Q t h' c' (map_err f r)) t0 h c q -> holds Q t0 h c (pwith_err f q).
Proof.
  revert t0 h c. induction q as [r|B m d k IH]; intros t0 h c Hq; cbn in *; [done|].
  intros w G r t Ht HI. apply wp_with_err. eapply wp_mono; [by eapply Hq|].
  intros [b|e] s' t' (h' & ? & ? & Hr); exists h'; (split; [done|]); (split; [done|]); [by apply IH|exact Hr].
Qed.

(** The record is read and written by its owner only. *)
Lemma holds_reading {E A C} (f : SmtpConnection -> A) Q t0 h c (k : A -> PS E C) :
  (forall t, t0 `suffix_of` t -> holds Q t h c (k (f c))) ->
  holds Q t0 h c (pbind (read_field (fun s => f (ss_connection s))) k).
Proof. intros Hk w F r t Ht HI. exists h. split; [exact HI|]. split; [done|]. by apply Hk. Qed.
Lemma holds_modify {E C} (f : SmtpConnection -> SmtpConnection) Q t0 h c (k : unit -> PS E C) :
  (forall t, t0 `suffix_of` t -> holds Q t h (f c) (k tt)) ->
  holds Q t0 h c (pbind (atom (modify (on_connection f))) k).
Proof. intros Hk w F r t Ht HI. exists h. split; [exact HI|]. split; [done|]. by apply Hk. Qed.

(** I/O is what it is for the connections alone. *)
Lemma owns_io {E A C} (f : trace -> A) ev Q t0 h (k : A -> prog (Routing CD CR) E C) :
  tidy (E := E) connections_own (fun _ => True)
    (fun t h' r => match r with Ok a => owns sessions_own Q t h' (k a) | Err _ => False end) t0 h
    (pbind (atom (io_event f ev)) (fun a => pure (Ok a))) ->
  owns sessions_own Q t0 h (pbind (atom (io_event f ev)) k).
Proof.
  intros [_ Ho]. split; [done|]. intros w F r t Ht [HI Hr]. destruct (Ho w F r t Ht HI) as (h' & HI' & Hs).
  exists h'. split; [split; [exact HI'|by apply shared_inv_cons]|exact Hs].
Qed.
Lemma holds_io {E A C} (f : trace -> A) ev Q t0 h c (k : A -> PS E C) :
  tidy (E := E) connections_own (fun _ => True)
    (fun t h' r => match r with Ok a => holds Q t h' c (k a) | Err _ => False end) t0 h
    (pbind (atom (io_event f ev)) (fun a => pure (Ok a))) ->
  holds Q t0 h c (pbind (atom (io_event f ev)) k).
Proof.
  intros [_ Ho]. intros w F r t Ht [HI Hr]. destruct (Ho w F r t Ht HI) as (h' & HI' & Hs).
  exists h'. split; [split; [exact HI'|by apply shared_inv_cons]|exact Hs].
Qed.

(** A program that works on the routing state and touches nothing that a session
    owns; what it answers is what RoutingConcurrency says. *)
Lemma holds_routing {E A} (R : trace -> result E A -> Prop) (q : prog (Routing CD CR) E A) t0 h c :
  sound (shared_inv may_skip) R t0 q -> pemits routing_event q ->
  holds (fun t h' c' r => h' = h /\ c' = c /\ R t r) t0 h c (pzoom ss_routing ss_set_routing q).
Proof.
  revert t0. induction q as [r|B m d k IH]; intros t0 Hs He; cbn in *; [done|]. destruct He as (Hm & _ & Hk), Hs as [_ Hs].
  intros w F r t Ht [HI Hr]. apply wp_zoom. specialize (Hs r t Ht Hr). unfold wp in *. specialize (Hm r t). cbn in *.
  destruct (m r t) as [[x r'] t']. cbn in Hm. destruct Hm as (l & -> & Hl). destruct Hs as (Hr' & Ht' & Hx).
  exists h. split; [|split; [done|destruct x; [by apply IH|done]]]. split; [|done].
  clear -HI Hl. destruct HI as [HI Ha]. induction Hl as [|ev l Hev _ IH]; [by split|].
  by apply (own_inv_silent (S := Routing CD CR) _ _ w r); [destruct ev..|].
Qed.

Lemma holds_route {E} (g : ResolverError -> E) data t0 h c :
  holds (fun t h' c' r => h' = h /\ c' = c
      /\ match r with Ok cr => routed_from may_skip t data (cr_endpoint cr) | Err _ => True end) t0 h c
    (pwith_err g (pzoom ss_routing ss_set_routing (route_prog data))).
Proof.
  apply holds_with_err. eapply holds_mono; [|apply holds_routing; [apply sound_route|apply pemits_route]].
  intros t h' c' [cr|e] _ (-> & -> & Hr); [by split_and!|done].
Qed.
End Holds.

(** ** Rules for I/O, by what the connections carry *)
Section Talks.
Context `{Env} {CD CR : Type} `{TtlCacheLaws bytes IpAddr CD} `{TtlCacheLaws bytes CacheEntry CR}.
Context (may_skip : bool) (Hfresh : fresh_descriptors).
Abbreviation holds := (holds (CD := CD) (CR := CR) may_skip).
Implicit Types (h : list (sock * trace)) (t : trace) (c : SmtpConnection) (x y : talk).
Implicit Types (toks rest : list (sock * talk)).

Lemma holds_on {E A C} (f : trace -> A) ev Q t0 h c (k : A -> PS E C) s x rest :
  talks h ≡ₚ (s, x) :: rest ->
  (forall a, socks_of (ev a) = [s]) -> (forall a, ev a <> EvClose s) -> (forall a, opens s (ev a) = false) ->
  (forall t a, t0 `suffix_of` t -> knows h t -> line_in_dialogue may_skip (ev a) t) ->
  (forall a t h', t0 `suffix_of` t -> talks h' ≡ₚ (s, talk_step (ev a) x) :: rest -> holds Q t h' c (k a)) ->
  holds Q t0 h c (pbind (atom (io_event f ev)) k).
Proof.
  intros Hh Hev Hc Ho Hok Hk. apply holds_io.
  eapply owns_talk_on; [exact Hh|done..|]. intros a t h' Ht Hh'. by apply Hk.
Qed.

Lemma holds_close {E C} Q t0 h c (k : unit -> PS E C) s x rest :
  talks h ≡ₚ (s, x) :: rest ->
  (forall t h', talks h' ≡ₚ rest -> holds Q t h' c (k tt)) ->
  holds Q t0 h c (pbind (atom (io_close s)) k).
Proof.
  intros Hh Hk. apply (holds_io _ (fun _ => tt) (fun _ => EvClose s)).
  apply (owns_talk_close _ _ _ _ _ (fun a => pure (Ok a)) s x rest); [done..|]. intros t h' _. apply Hk.
Qed.

Lemma holds_connect {E C} host port lim Q t0 h c (k : outcome sock -> PS E C) :
  (forall fd t h', talks h' ≡ₚ (fd, silence (Some (host, port))) :: talks h -> holds Q t h' c (k (Done (Ok fd)))) ->
  (forall o t, (forall fd, o <> Done (Ok fd)) -> holds Q t h c (k o)) ->
  holds Q t0 h c (pbind (atom (io_connect host port lim)) k).
Proof.
  intros Hok He. apply (holds_io _ (fun t => env_connect t host port lim)).
  apply owns_talk_connect; [done..|by intros; apply Hok|by intros; apply He].
Qed.

(** ** The operations of a session *)

(** One connection carried something, which [f] gives if all went well. *)
Definition speaks {E A} s rest c (f : A -> talk) : trace -> list (sock * trace) -> SmtpConnection -> result E A -> Prop :=
  fun _ h c' r => c' = c /\ exists x, talks h ≡ₚ (s, x) :: rest
    /\ match r with Ok a => x = f a | Err _ => True end.

Lemma holds_reply s data t0 h c x rest :
  talks h ≡ₚ (s, x) :: rest ->
  holds (speaks s rest c (fun _ => talk_say data x)) t0 h c (reply_prog s data).
Proof.
  intros Hh. eapply (holds_on (fun t => env_write t s data) (EvWrite s data)); [exact Hh|done..|].
  intros r t h1 _ Hh1. destruct (settle r); [|by split; [|eexists]].
  eapply (holds_on (fun t => env_flush t s) (EvFlush s)); [exact Hh1|done..|].
  intros r' t1 h2 _ Hh2. by destruct (settle r'); split; try eexists.
Qed.

Lemma holds_send_line s line t0 h c x rest :
  talks h ≡ₚ (s, x) :: rest ->
  holds (speaks s rest c (fun _ => talk_say line x)) t0 h c (send_line_prog s line).
Proof.
  intros Hh. eapply (holds_on (fun t => env_write t s line) (EvWrite s line)); [exact Hh|done..|].
  intros r t h1 _ Hh1. destruct (timed _ r); [|by split; [|eexists]].
  eapply (holds_on (fun t => env_flush t s) (EvFlush s)); [exact Hh1|done..|].
  intros r' t1 h2 _ Hh2. by destruct (timed _ r'); split; try eexists.
Qed.

Lemma holds_read_reply s t0 h c x rest :
  talks h ≡ₚ (s, x) :: rest ->
  holds (speaks s rest c (fun data => talk_hear data x)) t0 h c (read_reply_prog s).
Proof.
  intros Hh. eapply (holds_on (fun t => env_read t s RECV_BUFFER) (EvRead s RECV_BUFFER)); [exact Hh|done..|].
  intros [[data|e]|] t1 h1 _ Hh1; by split; try eexists.
Qed.

Lemma holds_the_backend t0 h c :
  holds
    (fun _ h' c' r => h' = h /\ c' = c /\ match r with Ok b => sc_backend c = Some b | Err _ => True end)
    t0 h c the_backend_prog.
Proof. apply (holds_reading _ sc_backend). intros t _. by destruct (sc_backend c). Qed.
(** A session owns its client's connection, which carried [x], and its backend's,
    which carried [y]. *)
Section Session.
Context (client : sock).

Definition owned_talks (backend : option sock) x y : list (sock * talk) :=
  (client, x) :: match backend with Some b => [(b, y)] | None => [] end.
Definition session_owns c h : Prop := exists x y, talks h ≡ₚ owned_talks (sc_backend c) x y.

Lemma owned_backend b x y : owned_talks (Some b) x y ≡ₚ [(b, y); (client, x)].
Proof. apply Permutation_swap. Qed.
Lemma holds_forward_command line t0 h c x y :
  talks h ≡ₚ owned_talks (sc_backend c) x y ->
  holds
    (fun _ h' c' r => match r with
      | Ok _ => exists b response, sc_backend c = Some b /\ response <> []
          /\ c' = (if is_data_only_line line && starts_with response DATA_READY_CODE then set_state Data c else c)
          /\ talks h' ≡ₚ owned_talks (Some b) (talk_say response x) (talk_hear response (talk_say line y))
      | Err _ => session_owns c' h' end) t0 h c (forward_command_prog client line).
Proof.
  intros Hh. eapply holds_bind; [apply holds_the_backend| |].
  2: { intros e t h' c' _ (-> & -> & _). by exists x, y. }
  intros b t h' c' _ (-> & -> & Hb). cbv zeta. unfold session_owns. rewrite Hb in Hh.
  rewrite owned_backend in Hh.
  eapply holds_bind; [by apply holds_send_line| |].
  2: { intros e t1 h1 c1 _ (-> & y1 & Hy & _). exists x, y1. by rewrite Hb, owned_backend. }
  intros _ t1 h1 c1 _ (-> & y1 & Hh1 & ->).
  eapply holds_bind; [by apply holds_read_reply| |].
  2: { intros e t2 h2 c2 _ (-> & y2 & Hy & _). exists x, y2. by rewrite Hb, owned_backend. }
  intros response t2 h2 c2 _ (-> & y2 & Hh2 & ->). rewrite <- owned_backend in Hh2.
  destruct response as [|a response]; [eexists _, _; rewrite Hb; exact Hh2|].
  eapply holds_bind; [by apply holds_reply| |].
  2: { intros e t3 h3 c3 _ (-> & x3 & Hy & _). eexists x3, _. rewrite Hb. exact Hy. }
  intros _ t3 h3 c3 _ (-> & x3 & Hh3 & ->). destruct (_ && _) eqn:Ed.
  - apply (holds_modify _ _ _ _ _ _ (fun a => pure (Ok a))). intros t4 _.
    exists b, (a :: response). by rewrite Ed.
  - exists b, (a :: response). by rewrite Ed.
Qed.
Lemma holds_forward_data line t0 h c x y :
  talks h ≡ₚ owned_talks (sc_backend c) x y ->
  holds
    (fun _ h' c' r => match r with
      | Ok _ => exists b response c1, sc_backend c = Some b
          /\ (trim_ascii line <> DATA_TERMINATOR /\ response = [] /\ c1 = c
              \/ trim_ascii line = DATA_TERMINATOR /\ c1 = set_state Command c)
          /\ c' = c1
          /\ talks h' ≡ₚ owned_talks (Some b) (talk_say response x) (talk_hear response (talk_say line y))
      | Err _ => session_owns c' h' end) t0 h c (forward_data_prog client line).
Proof.
  intros Hh. eapply holds_bind; [apply holds_the_backend| |].
  2: { intros e t h' c' _ (-> & -> & _). by exists x, y. }
  intros b t h' c' _ (-> & -> & Hb). unfold session_owns. rewrite Hb in Hh. rewrite owned_backend in Hh.
  assert (Hquiet : forall z, talk_say [] z = z) by (intros []; unfold talk_say; cbn; by rewrite app_nil_r).
  eapply holds_bind; [by apply holds_send_line| |].
  2: { intros e t1 h1 c1 _ (-> & y1 & Hy & _). exists x, y1. by rewrite Hb, owned_backend. }
  intros _ t1 h1 c1 _ (-> & y1 & Hh1 & ->). case_bool_decide as Hdot.
  2: { exists b, [], c. split; [done|]. split; [by left|]. split; [done|]. rewrite Hquiet, owned_backend.
       unfold talk_hear. cbn. by rewrite app_nil_r. }
  eapply holds_bind; [by apply holds_read_reply| |].
  2: { intros e t2 h2 c2 _ (-> & y2 & Hy & _). exists x, y2. by rewrite Hb, owned_backend. }
  intros response t2 h2 c2 _ (-> & y2 & Hh2 & ->). rewrite <- owned_backend in Hh2.
  apply holds_modify. intros t3 _. destruct response as [|a response].
  { exists b, [], (set_state Command c). rewrite Hquiet. split; [done|]. split; [by right|done]. }
  eapply holds_mono; [|by apply holds_reply]. intros t4 h4 c4 r _ (-> & x4 & Hh4 & Hr).
  destruct r as [[]|e]; [subst x4|eexists x4, _; cbn; rewrite Hb; exact Hh4].
  exists b, (a :: response), (set_state Command c). split; [done|]. split; [by right|done].
Qed.

(** A new backend is one that greets. *)
Lemma holds_connect_to_backend config endpoint t0 h c :
  holds
    (fun _ h' c' r => c' = c /\ match r with
      | Ok b => exists greeting, starts_with (trim_ascii greeting) GREETING_CODE = true
          /\ talks h' ≡ₚ (b, talk_hear greeting (silence (Some (parse_endpoint endpoint SMTP_DEFAULT_PORT)))) :: talks h
      | Err _ => talks h' ≡ₚ talks h end) t0 h c (connect_to_backend_prog config endpoint).
Proof.
  unfold connect_to_backend_prog. destruct (parse_endpoint _ _) as [host port].
  apply holds_connect; [|intros [[fd|e]|] t Ho; [by destruct (Ho fd)|by split..]].
  intros b t h1 Hh1. unfold timed at 1, pure at 1. cbn [pbind].
  eapply (holds_on (fun t => env_nodelay t b) (EvNodelay b)); [exact Hh1|done..|]. intros r t1 h2 _ Hh2.
  eapply (holds_on (fun t => env_read t b RECV_BUFFER) (EvRead b RECV_BUFFER)); [exact Hh2|done..|].
  cbn [talk_step]. intros o t2 h3 _ Hh3. destruct (timed _ o) as [data|e] eqn:Eo.
  2: { eapply holds_close; [exact Hh3|]. intros t3 h4 Hh4. by split. }
  set (x0 := silence _) in *. assert (Ht : talk_step (EvRead b RECV_BUFFER o) x0 = talk_hear data x0)
    by (destruct o as [[d|e]|]; cbn in Eo; try done; injection Eo as ->; done).
  destruct data as [|a data]; [eapply holds_close; [exact Hh3|]; intros t3 h4 Hh4; by split|]. cbv zeta.
  destruct (starts_with _ _) eqn:Eg.
  - split; [done|]. exists (a :: data). split; [done|]. rewrite <- Ht. exact Hh3.
  - eapply holds_close; [exact Hh3|]. intros t3 h4 Hh4. by split.
Qed.

(** The old backend's connection is closed. *)
Lemma holds_replace_backend b t0 h c x y z :
  talks h ≡ₚ (b, z) :: owned_talks (sc_backend c) x y ->
  holds
    (fun _ h' c' (r : result io_error unit) => is_ok r = true /\ c' = set_backend b c
       /\ talks h' ≡ₚ owned_talks (Some b) x z) t0 h c (replace_backend_prog b).
Proof.
  intros Hh. unfold replace_backend_prog. apply (holds_reading _ sc_backend). intros t _.
  apply holds_modify. intros t1 _.
  destruct (sc_backend c) as [old|].
  - apply (holds_close _ _ _ _ (fun a => pure (Ok a)) old y [(b, z); (client, x)]).
    + rewrite Hh. unfold owned_talks. solve_Permutation.
    + intros t2 h2 Hh2. split; [done|]. split; [done|]. by rewrite owned_backend.
  - split; [done|]. split; [done|]. by rewrite Hh, owned_backend.
Qed.

Lemma holds_handle_helo config line t0 h c x y :
  talks h ≡ₚ owned_talks (sc_backend c) x y ->
  holds
    (fun t h' c' r => match r with
      | Ok _ => (parse_helo_domain line = None /\ c' = c
                 /\ talks h' ≡ₚ owned_talks (sc_backend c) (talk_say ERROR_SYNTAX x) y)
          \/ exists domain b d greeting response,
               parse_helo_domain line = Some domain /\ response <> []
               /\ starts_with (trim_ascii greeting) GREETING_CODE = true
               /\ c' = (let c1 := set_backend b (set_domain domain c) in
                        if is_data_only_line line && starts_with response DATA_READY_CODE then set_state Data c1 else c1)
               /\ dialled_as_routed may_skip c' d t
               /\ talks h' ≡ₚ owned_talks (Some b) (talk_say response x)
                    (talk_hear response (talk_say line (talk_hear greeting (silence d))))
      | Err _ => session_owns c' h' end) t0 h c (handle_helo_prog config client line).
Proof.
  intros Hh. unfold handle_helo_prog. destruct (parse_helo_domain line) as [domain|] eqn:Ed.
  2: { eapply holds_mono; [|by apply holds_reply]. intros t h1 c1 [[]|e] _ (-> & x1 & Hh1 & Hr).
       - subst. by left.
       - by exists x1, y. }
  apply holds_modify. intros t _.
  assert (Hsame : forall h', talks h' ≡ₚ talks h -> session_owns (set_domain domain c) h')
    by (intros h' Hh'; exists x, y; by rewrite Hh').
  eapply holds_bind; [apply holds_route| |by intros e t1 h1 c1 _ (-> & -> & _); apply Hsame].
  intros routed t1 h1 c1 _ (-> & -> & Hrouted).
  eapply holds_bind; [apply holds_connect_to_backend| |by intros e t2 h2 c2 _ [-> Hh2]; apply Hsame].
  intros b t2 h2 c2 Ht2 (-> & greeting & Hg & Hh2). rewrite Hh in Hh2.
  eapply holds_bind; [by eapply holds_replace_backend| |by intros e t3 h3 c3 _ (Hr & _)].
  intros [] t3 h3 c3 Ht3 (_ & -> & Hh3).
  eapply holds_mono; [|by apply (holds_forward_command line _ _ (set_backend b (set_domain domain c)))].
  intros t4 h4 c4 [[]|e] Ht4; [|done]. intros (b' & response & [= <-] & Hr & -> & Hh4).
  right. eexists domain, b, _, greeting, response. split_and!; try done.
  exists domain, (cr_endpoint routed). split; [by destruct (_ && _)|]. split; [|done].
  eapply routed_from_later; [|exact Hrouted]. etrans; [exact Ht2|]. by etrans.
Qed.

(** ** A line, and the dialogue *)
Definition backend_for (c : SmtpConnection) d t : Prop :=
  match sc_backend c with Some _ => dialled_as_routed may_skip c d t | None => True end.
Lemma backend_for_later c c' d t t' :
  t `suffix_of` t' -> sc_backend c' = sc_backend c -> sc_domain c' = sc_domain c ->
  backend_for c d t -> backend_for c' d t'.
Proof.
  unfold backend_for, dialled_as_routed. intros Ht -> ->. destruct (sc_backend c); [|done].
  by apply (dialled_as_routed_later may_skip c).
Qed.

Definition in_dialogue lines down up got d c t h : Prop :=
  smtp_dialogue lines down up got c /\ backend_for c d t
  /\ talks h ≡ₚ owned_talks (sc_backend c) (mkTalk None lines (GREETING ++ down) []) (mkTalk d [] up got).

Lemma in_dialogue_owns lines down up got d c t h : in_dialogue lines down up got d c t h -> session_owns c h.
Proof. intros (_ & _ & Hh). by eexists _, _. Qed.

Lemma in_dialogue_known lines down up got d c t0 h t :
  in_dialogue lines down up got d c t0 h -> t0 `suffix_of` t -> knows h t -> dialogue_so_far may_skip client t.
Proof.
  intros (Hd & Hb & Hh) Ht Hk. exists lines, down, up, got, c. split; [done|].
  assert (Hin : forall s x,
            (s, x) ∈ owned_talks (sc_backend c) (mkTalk None lines (GREETING ++ down) []) (mkTalk d [] up got) ->
            is_open s t = true /\ talk_on s t = x).
  { intros s x Hin. apply (talks_known _ _ _ _ Hk). by rewrite Hh. }
  split; [by apply Hin; left|]. intros b Eb. unfold backend_for in Hb. rewrite Eb in Hin, Hh, Hb.
  destruct (Hin b (mkTalk d [] up got)) as [Ho Hx]; [by right; left|].
  split; [|split; [done|exists d; split; [by eapply dialled_as_routed_later|done]]].
  pose proof (knows_nodup _ _ Hk) as Hn. rewrite <- talks_socks, Hh in Hn.
  cbn in Hn. apply NoDup_cons in Hn as [Hn _]. set_solver.
Qed.

(** What a session is after a line: it goes on with the dialogue, or is over. *)
Definition line_done {E} lines : trace -> list (sock * trace) -> SmtpConnection -> result E bool -> Prop :=
  fun t h c r => match r with
    | Ok true => exists down up got d, in_dialogue lines down up got d c t h
    | _ => session_owns c h
    end.

Lemma holds_unavailable lines t0 h c :
  session_owns c h -> holds (line_done lines) t0 h c (unavailable_prog client).
Proof.
  intros (x & y & Hh). unfold unavailable_prog.
  eapply (holds_on (fun t => env_write t client ERROR_UNAVAILABLE) (EvWrite client ERROR_UNAVAILABLE)); [exact Hh|done..|].
  intros r t h1 _ Hh1. by eexists _, _.
Qed.

(** A command, and what is answered to its failure. *)
Lemma holds_or_unavailable {A} lines (q : PS io_error A) (go_on : bool) t0 h c :
  holds
    (fun t h' c' r => match r with
      | Ok _ => line_done (E := io_error) lines t h' c' (Ok go_on)
      | Err _ => session_owns c' h' end) t0 h c q ->
  holds (line_done lines) t0 h c
    (r <~ pattempt (F := io_error) q ;;
     match r with Ok _ => pure (Ok go_on) | Err _ => unavailable_prog client end).
Proof.
  intros Hq. eapply (holds_bind _ (fun t h' c' r => match r with
    | Ok (Ok a) => line_done (E := io_error) lines t h' c' (Ok go_on)
    | Ok (Err _) => session_owns c' h' | Err _ => False end));
    [by apply holds_attempt| |done].
  intros [a|e] t1 h1 c1 _ Hr; [done|]. by apply holds_unavailable.
Qed.

(** The three kinds of lines, in a dialogue that has come to [c]. *)
Section Line.
Context (config : SmtpConfig) (line : bytes) (lines : list bytes) (down up got : bytes).
Context (d : option (bytes * Z)) (c : SmtpConnection) (t0 : trace) (h : list (sock * trace)).
Context (Hd : smtp_dialogue lines down up got c) (Hb : backend_for c d t0).
Context (Hh : talks h ≡ₚ owned_talks (sc_backend c)
                (mkTalk None (lines ++ [line]) (GREETING ++ down) []) (mkTalk d [] up got)).

(** An answer of the proxy's own; an exchange with the backend. *)
Lemma proxy_in_dialogue t h' answer c' :
  t0 `suffix_of` t -> smtp_spec c line [] answer c' -> sc_backend c' = sc_backend c -> sc_domain c' = sc_domain c ->
  talks h' ≡ₚ owned_talks (sc_backend c)
    (talk_say answer (mkTalk None (lines ++ [line]) (GREETING ++ down) [])) (mkTalk d [] up got) ->
  in_dialogue (lines ++ [line]) (down ++ answer) up got d c' t h'.
Proof.
  intros Ht Hs Hb' Hd' Hh'. split; [by eapply dialogue_proxy|]. split; [by eapply backend_for_later|].
  rewrite Hb', Hh'. unfold talk_say. cbn. by rewrite app_assoc.
Qed.
Lemma relay_in_dialogue t h' b answer c' :
  t0 `suffix_of` t -> ~ introduces c line -> smtp_spec c line line answer c' ->
  sc_backend c = Some b -> sc_backend c' = sc_backend c -> sc_domain c' = sc_domain c ->
  talks h' ≡ₚ owned_talks (Some b)
    (talk_say answer (mkTalk None (lines ++ [line]) (GREETING ++ down) []))
    (talk_hear answer (talk_say line (mkTalk d [] up got))) ->
  in_dialogue (lines ++ [line]) (down ++ answer) (up ++ line) (got ++ answer) d c' t h'.
Proof.
  intros Ht Hi Hs Hbb Hb' Hd' Hh'. split; [by eapply dialogue_relay|]. split; [by eapply backend_for_later|].
  rewrite Hb', Hbb, Hh'. unfold talk_say, talk_hear. cbn. by rewrite app_assoc.
Qed.

Lemma holds_body_line :
  sc_state c = Data -> holds (line_done (lines ++ [line])) t0 h c
    (r <~ pattempt (F := io_error) (forward_data_prog client line) ;;
     match r with Ok _ => pure (Ok true) | Err _ => unavailable_prog client end).
Proof.
  intros Hs. apply holds_or_unavailable. eapply holds_mono; [|by apply holds_forward_data].
  intros t1 h1 c1 [[]|e] Ht1; [|done]. intros (b & response & c2 & Hbb & Hcase & -> & Hh1).
  eexists (down ++ response), (up ++ line), (got ++ response), d.
  eapply relay_in_dialogue; [done|intros [Hc _]; congruence| |exact Hbb|..|exact Hh1];
    destruct Hcase as [(Hdot & -> & ->)|(Hdot & ->)]; try done; [by eapply spec_body|by eapply spec_end_of_body].
Qed.

Lemma holds_helo_line :
  sc_state c = Command -> command_token line ∈ helo_verbs ->
  holds (line_done (lines ++ [line])) t0 h c
    (r <~ pattempt (F := io_error) (handle_helo_prog config client line) ;;
     match r with Ok _ => pure (Ok true) | Err _ => unavailable_prog client end).
Proof.
  intros Hcmd Hhelo. apply holds_or_unavailable. eapply holds_mono; [|by apply holds_handle_helo].
  intros t1 h1 c1 [[]|e] Ht1; [|done].
  intros [(Hdom & -> & Hh1)|(domain & b & d' & greeting & response & Hdom & Hr & Hg & -> & Hd' & Hh1)].
  - eexists (down ++ ERROR_SYNTAX), up, got, d. apply proxy_in_dialogue; [done| |done..|exact Hh1].
    by apply spec_no_domain.
  - rewrite (helo_line_no_data line Hhelo) in *. cbn [andb] in *.
    eexists (down ++ response), line, (greeting ++ response), d'. split.
    + eapply dialogue_introduction; [exact Hd|by split|exact Hg|].
      unfold set_backend, set_domain. cbn. rewrite Hcmd. by apply spec_helo.
    + split; [exact Hd'|]. rewrite Hh1. unfold talk_say, talk_hear. cbn. by rewrite app_assoc.
Qed.

Lemma holds_command_line :
  sc_state c = Command -> command_token line ∉ helo_verbs -> command_token line ∈ forwarded_verbs ->
  holds (line_done (lines ++ [line])) t0 h c
    (r <~ pattempt (F := io_error) (forward_command_prog client line) ;;
     match r with
     | Ok _ => pure (Ok (negb (bool_decide (command_token line = B "QUIT"))))
     | Err _ => unavailable_prog client
     end).
Proof.
  intros Hcmd Hhelo Hfwd. apply holds_or_unavailable. eapply holds_mono; [|by apply holds_forward_command].
  intros t1 h1 c1 [[]|e] Ht1; [|done]. intros (b & response & Hbb & Hr & Hc1 & Hh1).
  assert (Hc : sc_backend c1 = sc_backend c /\ sc_domain c1 = sc_domain c) by (rewrite Hc1; by destruct (_ && _)).
  destruct Hc as [Hb1 Hd1].
  destruct (decide (command_token line = B "QUIT")) as [Hq|Hq].
  { rewrite bool_decide_eq_true_2 by done. eexists _, _. rewrite Hb1, Hbb. exact Hh1. }
  rewrite bool_decide_eq_false_2 by done. eexists (down ++ response), (up ++ line), (got ++ response), d.
  eapply relay_in_dialogue; [done|by intros [_ ?]| |exact Hbb|done|done|exact Hh1].
  rewrite Hc1. by eapply spec_command.
Qed.

End Line.

Lemma holds_handle_line config line lines down up got d c t0 h :
  smtp_dialogue lines down up got c -> backend_for c d t0 ->
  talks h ≡ₚ owned_talks (sc_backend c)
    (mkTalk None (lines ++ [line]) (GREETING ++ down) []) (mkTalk d [] up got) ->
  holds (line_done (lines ++ [line])) t0 h c (handle_line_prog config client line).
Proof.
  intros Hd Hb Hh. assert (Ho : session_owns c h) by by eexists _, _.
  apply (holds_reading _ is_data). intros t Ht.
  assert (Hbt : backend_for c d t) by by eapply backend_for_later.
  destruct (_ <? _); [by apply holds_unavailable|]. unfold is_data.
  case_bool_decide as Hs; [by eapply holds_body_line|].
  assert (Hcmd : sc_state c = Command) by by destruct (sc_state c).
  cbv zeta. case_bool_decide as Hhelo; [by eapply holds_helo_line|].
  case_bool_decide as Hfwd; [by eapply holds_command_line|].
  eapply holds_bind; [by apply holds_reply| |].
  2: { intros e t1 h1 c1 _ (-> & x & Hh1 & _). by eexists _, _. }
  intros [] t1 h1 c1 Ht1 (-> & x & Hh1 & ->).
  eexists (down ++ ERROR_UNKNOWN_COMMAND), up, got, d.
  eapply proxy_in_dialogue; [exact Hd|exact Hbt|done| |done..|exact Hh1]. by apply spec_unknown.
Qed.

Lemma holds_session_loop fuel config lines down up got d c t0 h :
  in_dialogue lines down up got d c t0 h ->
  holds (fun _ h c _ => session_owns c h) t0 h c (session_loop_prog fuel config client).
Proof.
  revert lines down up got d c t0 h.
  induction fuel as [|fuel IH]; intros lines down up got d c t0 h Hin; cbn [session_loop_prog];
    (eapply (holds_on (fun t => env_read_line t client) (EvReadLine client));
      [apply Hin|done..|by intros t r Ht Hk; eapply in_dialogue_known|]);
    cbn [talk_step]; (intros [[|a line]|e] t1 h1 Ht1 Hh1; [by eexists _, _| |by eexists _, _]);
    destruct Hin as (Hd & Hb & _);
    (eapply (holds_bind _ (line_done (lines ++ [a :: line])));
      [|intros [|] t2 h2 c2 _ Hl|by intros e t2 h2 c2 _ Hl]);
    try (apply holds_with_err; eapply holds_mono;
         [|eapply holds_handle_line; [exact Hd|by eapply backend_for_later|exact Hh1]];
         by intros t2 h2 c2 [[]|e] _); try exact Hl;
    destruct Hl as (down' & up' & got' & d' & Hl); [by eapply in_dialogue_owns|by eapply IH].
Qed.

Lemma holds_end_session {E} c t0 h :
  session_owns c h ->
  holds (fun _ h _ (r : result E unit) => is_ok r = true /\ h = []) t0 h c (end_session_prog client).
Proof.
  intros (x & y & Hh). unfold end_session_prog. apply (holds_reading _ sc_backend). intros t _.
  assert (Hnil : forall h', talks h' ≡ₚ [] -> h' = []).
  { intros h' Hn. symmetry in Hn. apply Permutation_nil in Hn. by destruct h'. }
  assert (Hend : forall h t, talks h ≡ₚ [(client, x)] ->
    holds (fun _ h _ (r : result E unit) => is_ok r = true /\ h = []) t h c (atom (io_close client))).
  { intros h1 t1 Hh1. eapply (holds_close _ _ _ _ (fun a => pure (Ok a))); [exact Hh1|].
    intros t2 h2 Hh2. split; [done|]. by apply Hnil. }
  destruct (sc_backend c) as [b|]; [|by apply Hend].
  eapply (holds_close _ _ _ _ (fun _ => atom (io_close client))); [by rewrite Hh, owned_backend|].
  intros t1 h1 Hh1. by apply Hend.
Qed.

Lemma holds_handle_client fuel config c t0 h :
  talks h ≡ₚ [(client, silence None)] ->
  holds (fun _ _ _ _ => True) t0 h c (handle_client_prog fuel config client).
Proof.
  intros Hh. unfold handle_client_prog.
  apply (holds_modify _ (fun _ => smtp_connection_new)). intros t _.
  eapply (holds_bind _ (fun _ h c r => is_ok r = true /\ session_owns c h)); [| |done].
  - apply holds_attempt.
    eapply (holds_bind _ (speaks client [] smtp_connection_new (fun _ => talk_say GREETING (silence None)))).
    + apply holds_with_err. eapply holds_mono; [|by apply holds_reply].
      intros t1 h1 c1 [[]|e] _ (Hc & x & Hh1 & Hr); by split; [|exists x].
    + intros [] t1 h1 c1 _ (-> & x & Hh1 & ->). eapply holds_mono; [|eapply (holds_session_loop _ _ _ _ _ _ None)].
      2: { split; [apply dialogue_new|]. split; [done|exact Hh1]. }
      by intros.
    + intros e t1 h1 c1 _ (-> & x & Hh1 & _). split; [done|]. by exists x, (silence None).
  - intros r t1 h1 c1 _ [_ Ho].
    assert (Hend : holds (fun _ _ _ _ => True) t1 h1 c1
              (end_session_prog client ~;; pure r)).
    { eapply holds_bind; [by apply holds_end_session|done|done]. }
    by destruct r as [|[]].
Qed.
End Session.
End Talks.

(** ** The server *)
Section Server.
Context `{Env} {CD CR : Type} `{TtlCacheLaws bytes IpAddr CD} `{TtlCacheLaws bytes CacheEntry CR}.
Context (may_skip : bool) (Hfresh : fresh_descriptors).

Abbreviation sessions_own := (sessions_own (CD := CD) (CR := CR) may_skip).

(** A round of the accept loop begins with nothing. *)
Lemma owns_accept_once fuel config listener t0 :
  owns sessions_own (fun _ _ _ => True) t0 [] (accept_once_prog fuel config listener).
Proof.
  unfold accept_once_prog. apply (owns_io _ (fun t => env_call t (Accept listener))).
  apply owns_accept; [done..| |done]. intros client t _.
  apply (owns_io _ (fun t => env_nodelay t client)).
  eapply (owns_on _ _ (fun t => env_nodelay t client) (EvNodelay client)); [done..|]. intros u t1 _ _.
  apply (owns_bind _ (fun _ _ _ => True)); [|done|done]. apply owns_attempt, owns_owning.
  apply (holds_handle_client may_skip Hfresh client). cbn.
  rewrite talk_on_cons by done. by rewrite talk_on_opened by (cbn; apply Z.eqb_refl).
Qed.

(** The rest of the process, as in SmtpConcurrency, reads no client's lines and
    touches no connection that is open. *)
Definition no_line (ev : event) : Prop := match ev with EvReadLine _ _ => False | _ => True end.
Definition smtp_apart (x y : Routing CD CR * trace) : Prop :=
  smtp_meanwhile may_skip x y /\ leaves_connections no_line x.2 y.2.

Lemma shared_inv_meanwhile (r r' : Routing CD CR) t t' :
  shared_inv may_skip r t -> smtp_meanwhile may_skip (r, t) (r', t') -> shared_inv may_skip r' t'.
Proof.
  intros Hs Hm. inversion Hm as [ev ? ? Hev|? ? ? Hr]; subst; [by apply shared_inv_cons|].
  by destruct (shared_inv_rely _ _ _ _ _ Hs Hr).
Qed.

Lemma sessions_own_perm w (r : Routing CD CR) t G G' : G ≡ₚ G' -> sessions_own w r t G -> sessions_own w r t G'.
Proof. intros HG [HI Hr]. split; [by eapply own_inv_perm|done]. Qed.

Lemma sessions_own_apart w (r r' : Routing CD CR) t t' G :
  sessions_own w r t G -> smtp_apart (r, t) (r', t') -> sessions_own w r' t' G /\ t `suffix_of` t'.
Proof.
  intros [HI Hr] [Hm Hl]. split; [|by eapply leaves_suffix]. split; [|by eapply shared_inv_meanwhile].
  apply (own_inv_leaves _ _ w r r' t t' G no_line); [by intros []|done|exact Hl|exact HI].
Qed.

Lemma sessions_own_started resolver config (r : Routing CD CR) t :
  (smc_skip_validation config = true -> may_skip = true) ->
  started resolver config r t -> sessions_own (fun _ => False) r t [].
Proof.
  intros Hs Hst. split; [|by apply (started_inv resolver config)].
  destruct Hst as (a & listener & E). unfold Smtp.start, bind in E. cbn in E. unfold lift, modify, ret in E.
  destruct (env_call [] _) as [l|e]; [|done]. injection E as _ _ <-.
  apply own_inv_silent; [done|done|]. split; [apply exclusive_nothing|done].
Qed.
End Server.

(** ** Properties *)
Section Properties.
Context `{Env} {CD CR : Type} `{TtlCacheLaws bytes IpAddr CD} `{TtlCacheLaws bytes CacheEntry CR}.
Abbreviation serving := (config (K := sock) (S := Routing CD CR) (E := ProxyError) (A := unit)).

(** The server of SmtpConcurrency. *)
Definition apart_sessions_step (fuel : nat) (may_skip : bool) (config : SmtpConfig) : serving -> serving -> Prop :=
  sched_step (accept_once_prog fuel config) (smtp_apart may_skip).

(** C8: concurrent mail sessions refine the SMTP machine, each on connections of
    its own.  Under every interleaving of any number of sessions, with caches
    shared and the adapter reconfigured, provided the kernel gives no connection
    a descriptor that is open and no other code touches open connections:
    whenever the proxy asks a client for its next line, there is a dialogue of
    the state machine [smtp_spec] from a new connection record, such that since
    the client was accepted exactly the dialogue's lines were read from it, and
    exactly the greeting and the dialogue's answers were written to it; and if a
    backend was introduced, its connection is open, another one than the
    client's, was dialled as the endpoint routed for the client's domain says,
    and since then exactly what the dialogue relays was written to it, and
    exactly its own greeting and the answers of the dialogue's relayed lines
    were read from it. *)
Theorem concurrent_sessions_refine fuel may_skip resolver config (r : Routing CD CR) t0 (c : serving)
    client line later t :
  fresh_descriptors -> (smc_skip_validation config = true -> may_skip = true) ->
  started resolver config r t0 ->
  rtc (apart_sessions_step fuel may_skip config) (mkConfig [] r t0) c ->
  history c = later ++ EvReadLine client line :: t ->
  exists lines down up got conn,
    smtp_dialogue lines down up got conn
    /\ talk_on client t = mkTalk None lines (GREETING ++ down) []
    /\ forall backend, sc_backend conn = Some backend ->
         backend <> client /\ is_open backend t = true
         /\ exists d, dialled_as_routed may_skip conn d t /\ talk_on backend t = mkTalk d [] up got.
Proof.
  intros Hf Hskip Hst Hr Ht.
  assert (HI : owned_inv (sessions_own (CD := CD) (CR := CR) may_skip) (fun _ => False) (fun _ => True) c).
  { eapply (owned_inv_reachable _ (smtp_apart may_skip) _ _ (fun _ => True)); [..|by apply rtc_drop].
    - intros s t1 G G'. apply sessions_own_perm.
    - intros s t1 G s' t'. apply sessions_own_apart.
    - intros l t1. by apply owns_accept_once.
    - by eapply sessions_own_started. }
  destruct HI as (hs & [[_ Ha] _] & _). rewrite Ht in Ha. by apply always_at in Ha.
Qed.
End Properties.

(** ** Witness *)

(** Clients that send a mail each, and backends that say what they were sent. *)
Definition mail_script (client : sock) : list bytes :=
  [B "EHLO " ++ print_dec client ++ B ".example" ++ CRLF; B "DATA" ++ CRLF;
   B "from " ++ print_dec client ++ CRLF; B "." ++ CRLF].
Fixpoint last_written (l : trace) : bytes :=
  match l with
  | EvWrite _ data _ :: _ => data
  | _ :: l' => last_written l'
  | [] => []
  end.
Definition mail_env : Env :=
  numbered (scripted_env (fun _ => Elapsed) (fun _ _ _ => Elapsed)
    (fun t s _ =>
       let said := last_written (since_opened s t) in
       Done (Ok (if bool_decide (said = []) then B "220 mail" ++ CRLF
                 else if is_data_only_line said then B "354 go" ++ CRLF else B "250 " ++ said)))
    (fun t s => Ok (nth (length (tk_lines (talk_on s t))) (mail_script s) []))
    (fun _ => true)).
#[local] Existing Instance mail_env.

Abbreviation ExRouting := (Routing (AssocCache bytes IpAddr) (AssocCache bytes CacheEntry)).
Definition mail_resolver : Resolve := fun _ _ => Ok (resolver_result_new (B "8.8.8.8:25")).
Definition mail_start :=
  Smtp.start mail_resolver smtp_example_config (mkRouting (adapter_new None Smtp) dns_initial : ExRouting) [].
Definition mail_body (listener : sock) : prog ExRouting ProxyError unit :=
  accept_once_prog 10 smtp_example_config listener.
(** Two sessions, step by step in turn. *)
Definition mail_run :=
  schedule (concat (repeat [0; 1]%nat 80))
    (mkConfig [(1, mail_body 1); (1, mail_body 1)] mail_start.1.2 mail_start.2).

Lemma mail_started : started mail_resolver smtp_example_config mail_start.1.2 mail_start.2.
Proof. exists (adapter_new None Smtp), 1. vm_compute. reflexivity. Qed.
Lemma mail_reachable :
  rtc (apart_sessions_step 10 false smtp_example_config) (mkConfig [] mail_start.1.2 mail_start.2) mail_run.
Proof.
  eapply rtc_l; [apply (sched_spawn _ _ 1)|]. eapply rtc_l; [apply (sched_spawn _ _ 1)|].
  apply schedule_sched.
Qed.

(** The history before the second client's last line, and what its connection
    and its backend's have carried by then. *)
Definition mail_so_far : trace := drop 5 (history mail_run).
Example mail_talks :
  (talk_on 2 mail_so_far, talk_on 4 mail_so_far)
  = (mkTalk None (mail_script 2)
       (GREETING ++ (B "250 EHLO 2.example" ++ CRLF) ++ (B "354 go" ++ CRLF) ++ B "250 ." ++ CRLF) [],
     mkTalk (Some (B "8.8.8.8", 25)) [] (concat (mail_script 2))
       ((B "220 mail" ++ CRLF) ++ (B "250 EHLO 2.example" ++ CRLF) ++ (B "354 go" ++ CRLF) ++ B "250 ." ++ CRLF)).
Proof. vm_compute. reflexivity. Qed.

Lemma concurrent_sessions_refine_witness :
  history mail_run = take 4 (history mail_run) ++ EvReadLine 2 (Ok []) :: mail_so_far
  /\ exists lines down up got conn,
       smtp_dialogue lines down up got conn
       /\ talk_on 2 mail_so_far = mkTalk None lines (GREETING ++ down) []
       /\ forall backend, sc_backend conn = Some backend ->
            backend <> 2 /\ is_open backend mail_so_far = true
            /\ exists d, dialled_as_routed false conn d mail_so_far /\ talk_on backend mail_so_far = mkTalk d [] up got.
Proof.
  assert (Ht : history mail_run = take 4 (history mail_run) ++ EvReadLine 2 (Ok []) :: mail_so_far).
  { symmetry. apply take_drop_middle. vm_compute. reflexivity. }
  split; [exact Ht|].
  exact (concurrent_sessions_refine 10 false mail_resolver smtp_example_config mail_start.1.2 mail_start.2 mail_run 2
           (Ok []) _ _ (numbered_fresh _) (fun E => E) mail_started mail_reachable Ht).
Defined.
