(* ===== verification/Progress.v ===== *)
(** * Progress: the loops of the servers end.

    The loops of the TCP copy, the SMTP session and the raw HTTP reader carry
    fuel.  Here it is shown to be only a bound: when the peers send finitely
    much, every fuel above that amount lets the handler finish, and all of them
    give the same run. *)

From S2P Require Import Prelude Text Net Protocol Resolver World Stores Dns Adapter Routing.
From S2P Require Import Tls Sockmap TcpAdapter TcpConnections TcpConfig TcpServer TcpRelay TcpSessions TcpGuarantees.
From S2P Require Import HttpHost HttpPool HttpPoolBounds HttpHandler HttpGuarantees HttpServer Smtp SmtpGuarantees.
Open Scope Z_scope.

(** ** Finite input *)

(** How much a history has taken from the peers: bytes read, and reads that
    found a readable socket empty. *)
Definition cost (ev : event) : nat :=
  match ev with
  | EvRead _ _ r =>
      match settle r with
      | Ok data => List.length data
      | Err e => match io_error_kind e with WouldBlock => 1 | _ => 0 end
      end
  | EvReadLine _ (Ok line) => List.length line
  | _ => 0
  end.
Definition costs (l : trace) : nat := sum_list (map cost l).

Lemma costs_app l1 l2 : costs (l1 ++ l2) = (costs l1 + costs l2)%nat.
Proof. unfold costs. induction l1 as [|ev l1 IH]; cbn in *; [done|lia]. Qed.

Section Progress.
Context `{Env}.

(** From [t] on, once the peers have sent [N] bytes (spurious wake-ups
    counted), nothing more arrives: reads find the end of the stream, an error
    or a time-out. *)
Definition finite_input (N : nat) (t : trace) : Prop :=
  forall l s, (N <= costs l)%nat ->
    (forall max, cost (EvRead s max (env_read (l ++ t) s max)) = 0%nat)
    /\ cost (EvReadLine s (env_read_line (l ++ t) s)) = 0%nat.

Lemma finite_input_later N l t : finite_input N t -> finite_input (N - costs l) (l ++ t).
Proof.
  intros Hf l' s Hl. rewrite app_assoc. apply Hf. rewrite costs_app. lia.
Qed.

Lemma finite_input_mono N N' t : (N <= N')%nat -> finite_input N t -> finite_input N' t.
Proof. intros HN Hf l s Hl. apply Hf. lia. Qed.

Lemma finite_input_suffix N t t' : t `suffix_of` t' -> finite_input N t -> finite_input N t'.
Proof. intros [l ->] Hf. eapply finite_input_mono; [|by apply finite_input_later]. lia. Qed.

(** After an event that costs, less is left. *)
Lemma finite_input_cons N ev t :
  finite_input N t -> (1 <= cost ev)%nat -> (1 <= N)%nat ->
  exists N', (N' < N)%nat /\ finite_input N' (ev :: t).
Proof.
  intros Hf Hev HN. exists (N - cost ev)%nat. split; [lia|].
  pose proof (finite_input_later N [ev] t Hf) as Hf'. unfold costs in Hf'. cbn in Hf'.
  by rewrite Nat.add_0_r in Hf'.
Qed.

Lemma read_cost N t s max :
  finite_input N t -> (1 <= cost (EvRead s max (env_read t s max)))%nat -> (1 <= N)%nat.
Proof. intros Hf. destruct N; [|lia]. destruct (Hf [] s (le_n 0)) as [Hr _]. specialize (Hr max). cbn in *. lia. Qed.
Lemma line_cost N t s :
  finite_input N t -> (1 <= cost (EvReadLine s (env_read_line t s)))%nat -> (1 <= N)%nat.
Proof. intros Hf. destruct N; [|lia]. destruct (Hf [] s (le_n 0)) as [_ Hr]. cbn in *. lia. Qed.

(** ** Programs whose fuel does not matter *)

(** [settled N ok m]: with more fuel than the [N] the peers still send, all
    runs of [m] are the same, they end in [ok], and time only advances. *)
Definition settled {S E A} (N : nat) (ok : result E A -> Prop) (m : nat -> M S E A) : Prop :=
  forall s t f f', finite_input N t -> (N < f)%nat -> (N < f')%nat ->
    m f s t = m f' s t /\ wp (m f) (fun r _ t' => ok r /\ t `suffix_of` t') s t.

Section Rules.
Context {S E : Type}.

Lemma settled_const {A} N (m : M S E A) P :
  emits P m -> settled N (fun _ => True) (fun _ => m).
Proof. intros Hm s t f f' _ _ _. split; [done|]. unfold wp. specialize (Hm s t).
  destruct (m s t) as [[r s'] t']. split; [done|by eapply extends_suffix]. Qed.

(** A program that does not use its fuel. *)
Lemma settled_pure {A} N (ok : result E A -> Prop) (r : result E A) :
  ok r -> settled (S := S) N ok (fun _ => lift r).
Proof. by intros Hr s t f f' _ _ _. Qed.

Definition never_fails {A} (r : result E A) : Prop := match r with Ok _ => True | Err _ => False end.
Lemma settled_io {A} N (g : trace -> A) ev :
  settled N never_fails (fun _ => io_event (S := S) (E := E) g ev).
Proof. intros s t f f' _ _ _. split; [done|]. split; [done|]. by exists [ev (g t)]. Qed.
Lemma settled_get N : settled N never_fails (fun _ => get (S := S) (E := E)).
Proof. by intros s t f f' _ _ _. Qed.
Lemma settled_modify N (g : S -> S) : settled N never_fails (fun _ => modify g).
Proof. by intros s t f f' _ _ _. Qed.

Lemma settled_mono {A} N (ok ok' : result E A -> Prop) (m : nat -> M S E A) :
  (forall r, ok r -> ok' r) -> settled N ok m -> settled N ok' m.
Proof.
  intros Hok Hm s t f f' Ht Hf Hf'. destruct (Hm s t f f' Ht Hf Hf') as [He Hw].
  split; [done|]. eapply wp_mono; [exact Hw|]. intros r s' t' [? ?]. auto.
Qed.

Lemma settled_bind {A C} N (okm : result E A -> Prop) (ok : result E C -> Prop)
    (m : nat -> M S E A) (k : nat -> A -> M S E C) :
  settled N okm m ->
  (forall a, okm (Ok a) -> settled N ok (fun f => k f a)) ->
  (forall e, okm (Err e) -> ok (Err e)) ->
  settled N ok (fun f => bind (m f) (k f)).
Proof.
  intros Hm Hk He s t f f' Ht Hf Hf'. destruct (Hm s t f f' Ht Hf Hf') as [Heq Hw].
  unfold wp, bind in *. rewrite <- Heq. destruct (m f s t) as [[[a|e] s1] t1].
  - destruct Hw as [Ha Hs].
    destruct (Hk a Ha s1 t1 f f' (finite_input_suffix _ _ _ Hs Ht) Hf Hf') as [Hkeq Hkw].
    split; [done|]. unfold wp in Hkw. destruct (k f a s1 t1) as [[r s2] t2].
    destruct Hkw. split; [done|by etrans].
  - destruct Hw. split; [done|]. auto.
Qed.

(** Running a settled program. *)
Lemma settled_end {A} N ok (m : nat -> M S E A) s t f :
  settled N ok m -> finite_input N t -> (N < f)%nat ->
  let '(r, s', t') := m f s t in
  ok r /\ forall f', (N < f')%nat -> m f' s t = (r, s', t').
Proof.
  intros Hm Ht Hf. destruct (Hm s t f f Ht Hf Hf) as [_ Hw]. unfold wp in Hw.
  destruct (m f s t) as [[r s'] t'] eqn:E0. destruct Hw as [Hr _]. split; [done|].
  intros f' Hf'. destruct (Hm s t f f' Ht Hf Hf') as [He _]. congruence.
Qed.

Lemma settled_attempt {F A} N (ok : result F A -> Prop) (m : nat -> M S F A) :
  settled N ok m ->
  settled (E := E) N (fun r => match r with Ok r => ok r | Err _ => False end)
    (fun f => attempt (m f)).
Proof.
  intros Hm s t f f' Ht Hf Hf'. destruct (Hm s t f f' Ht Hf Hf') as [Heq Hw].
  unfold wp, attempt in *. rewrite <- Heq. by destruct (m f s t) as [[r s1] t1].
Qed.

Lemma settled_with_err {F A} N (ok : result F A -> Prop) (ok' : result E A -> Prop) (g : F -> E)
    (m : nat -> M S F A) :
  (forall r, ok r -> ok' (map_err g r)) ->
  settled N ok m -> settled N ok' (fun f => with_err g (m f)).
Proof.
  intros Hok Hm s t f f' Ht Hf Hf'. destruct (Hm s t f f' Ht Hf Hf') as [Heq Hw].
  unfold wp, with_err in *. rewrite <- Heq. destruct (m f s t) as [[r s1] t1].
  destruct Hw. split; [done|]. auto.
Qed.

Lemma settled_zoom {X A} N (ok : result E A -> Prop) (g : S -> X) (p : X -> S -> S) (m : nat -> M X E A) :
  settled N ok m -> settled N ok (fun f => zoom g p (m f)).
Proof.
  intros Hm s t f f' Ht Hf Hf'. destruct (Hm (g s) t f f' Ht Hf Hf') as [Heq Hw].
  unfold wp, zoom in *. rewrite <- Heq. by destruct (m f (g s) t) as [[r x'] t'].
Qed.
End Rules.

(** ** The loops *)

(** The loop of [read_some]: it waits again only when a readable socket turns
    out to be empty. *)
Lemma settled_try_read_loop {S} N stream max :
  settled N (fun r => r <> Ok None) (fun f => try_read_loop (S := S) f stream max).
Proof.
  intros s t f. revert N t. induction f as [|f IH]; intros N t [|f'] Ht Hf Hf'; [lia..|].
  cbn [try_read_loop]. unfold wp, bind, io_read, io_event.
  pose proof (read_cost N t stream max Ht) as Hc.
  set (r := env_read t stream max) in *. set (t1 := EvRead stream max r :: t).
  assert (Hend : forall o : result ProxyError (option bytes), o <> Ok None -> o <> Ok None /\ t `suffix_of` t1).
  { intros o Ho. split; [done|]. by exists [EvRead stream max r]. }
  destruct (settle r) as [data|e] eqn:Er; [by split; [|apply Hend]|].
  destruct (io_error_kind e) eqn:Ek; try by split; [|apply Hend].
  destruct (finite_input_cons N (EvRead stream max r) t Ht) as (N' & HN & Ht1);
    [cbn; rewrite Er, Ek; lia|apply Hc; cbn; rewrite Er, Ek; lia|].
  unfold io_readable, io_event, lift. fold t1. fold t1 in Ht1.
  set (r2 := env_readable t1 stream).
  destruct (map_err PIo r2) as [[]|e'].
  - set (t2 := EvReadable stream r2 :: t1).
    assert (Ht2 : finite_input N' t2) by (eapply finite_input_suffix; [|exact Ht1]; by exists [EvReadable stream r2]).
    destruct (IH N' t2 f' Ht2 ltac:(lia) ltac:(lia)) as [Heq Hw].
    split; [done|]. unfold wp in Hw. destruct (try_read_loop f stream max s t2) as [[o s'] t'].
    destruct Hw as [Ho Hs]. split; [done|]. etrans; [|exact Hs]. by exists [EvReadable stream r2; EvRead stream max r].
  - split; [done|]. split; [done|]. by exists [EvReadable stream r2; EvRead stream max r].
Qed.

(** The copy loop. *)
Lemma settled_forward_serialised {S} N client (backend : TcpClient) n :
  settled N (fun r => r <> Ok None) (fun f => forward_serialised (S := S) f client backend n).
Proof.
  intros s t f. revert N t. induction f as [|f IH]; intros N t [|f'] Ht Hf Hf'; [lia..|].
  cbn [forward_serialised]. unfold wp, bind, io_select, io_event.
  set (t0 := EvSelect (env_select t) :: t).
  assert (Ht0 : finite_input N t0) by (eapply finite_input_suffix; [|exact Ht]; by exists [EvSelect (env_select t)]).
  destruct (if env_select t then _ else _) as [from to]. unfold io_read, io_event.
  pose proof (read_cost N t0 from n Ht0) as Hc.
  set (r := env_read t0 from n) in *. set (t1 := EvRead from n r :: t0).
  assert (Hs1 : t `suffix_of` t1) by by exists [EvRead from n r; EvSelect (env_select t)].
  destruct (settle r) as [[|c data]|e] eqn:Er; [done| |done].
  destruct (finite_input_cons N (EvRead from n r) t0 Ht0) as (N' & HN & Ht1);
    [cbn; rewrite Er; cbn; lia|apply Hc; cbn; rewrite Er; cbn; lia|].
  unfold io_write, io_event. fold t1. fold t1 in Ht1.
  set (w := env_write t1 to (c :: data)). set (t2 := EvWrite to (c :: data) w :: t1).
  assert (Hs2 : t1 `suffix_of` t2) by by exists [EvWrite to (c :: data) w].
  destruct (settle w) as [?|?]; [|split; [done|]; split; [done|by etrans]].
  destruct (IH N' t2 f') as [Heq Hw]; [by eapply finite_input_suffix|lia..|].
  split; [done|]. unfold wp in Hw. destruct (forward_serialised f client backend n s t2) as [[o s'] t'].
  destruct Hw as [Ho Hs]. split; [done|]. etrans; [exact Hs1|]. by etrans.
Qed.

(** The loop that reads up to the end of the headers of a raw reply. *)
Lemma settled_read_head {S} N stream buffer :
  settled N (fun r => r <> Err StopRunning) (fun f => read_head (S := S) f stream buffer).
Proof.
  intros s t f. revert N t buffer. induction f as [|f IH]; intros N t buffer [|f'] Ht Hf Hf'; [lia..|].
  cbn [read_head]. destruct (find_subslice buffer HEADER_END); [done|].
  unfold wp, bind, read_more, io_read, io_event. unfold bind, stop_with, fail, ret.
  pose proof (read_cost N t stream 8192 Ht) as Hc.
  set (r := env_read t stream 8192) in *. set (t1 := EvRead stream 8192 r :: t).
  assert (Hs1 : t `suffix_of` t1) by by exists [EvRead stream 8192 r].
  destruct r as [[[|c data]|e]|] eqn:Er; [done| |done..].
  destruct (finite_input_cons N (EvRead stream 8192 r) t Ht) as (N' & HN & Ht1);
    [rewrite Er; cbn; lia|apply Hc; cbn; lia|].
  rewrite Er in Ht1. fold t1 in Ht1.
  destruct (IH N' t1 (buffer ++ c :: data) f' Ht1 ltac:(lia) ltac:(lia)) as [Heq Hw].
  split; [done|]. unfold wp in Hw. destruct (read_head f stream (buffer ++ c :: data) s t1) as [[o s'] t'].
  destruct Hw as [Ho Hs]. split; [done|]. by etrans.
Qed.
End Progress.

(** ** SMTP sessions *)
Section SmtpProgress.
Context `{Env} {CD CR : Type} `{TtlCacheLaws bytes IpAddr CD} `{TtlCacheLaws bytes CacheEntry CR}.

Lemma settled_session_loop N config client :
  settled N (fun r => r <> Err SmtpRunning)
    (fun f => session_loop (CD := CD) (CR := CR) f config client).
Proof.
  intros s t f. revert N s t. induction f as [|f IH]; intros N s t [|f'] Ht Hf Hf'; [lia..|].
  cbn [session_loop]. unfold wp, bind at 1 3 5, io_read_line, io_event.
  pose proof (line_cost N t client Ht) as Hc.
  set (r := env_read_line t client) in *. set (t1 := EvReadLine client r :: t).
  assert (Hs1 : t `suffix_of` t1) by by exists [EvReadLine client r].
  destruct r as [[|c line]|e] eqn:Er; [done| |done].
  destruct (finite_input_cons N (EvReadLine client r) t Ht) as (N' & HN & Ht1);
    [rewrite Er; cbn; lia|apply Hc; cbn; lia|].
  rewrite Er in Ht1. fold t1 in Ht1. unfold bind, with_err.
  pose proof (wp_handle_line config client (c :: line) s t1) as Hline. unfold wp in Hline.
  destruct (handle_line config client (c :: line) s t1) as [[o s2] t2].
  destruct Hline as (l & -> & _). assert (Hs2 : t1 `suffix_of` l ++ t1) by by exists l.
  destruct o as [[|]|e]; cbn [map_err]; [|split; [done|]; split; [done|by etrans]..].
  destruct (IH N' s2 (l ++ t1) f') as [Heq Hw]; [by eapply finite_input_suffix|lia..|].
  split; [done|]. unfold wp in Hw. destruct (session_loop f config client s2 (l ++ t1)) as [[o s'] t'].
  destruct Hw as [Ho Hs]. split; [done|]. etrans; [exact Hs1|]. by etrans.
Qed.

Lemma settled_end_session {E} N client :
  settled N never_fails (fun _ => end_session (CD := CD) (CR := CR) (E := E) client).
Proof.
  intros s t f f' _ _ _. split; [done|]. apply wp_end_session. intros l _ _ _.
  split; [done|]. by exists l.
Qed.

Lemma settled_smtp_client N config client :
  settled N (fun r => r <> Err SmtpRunning)
    (fun f => Smtp.handle_client (CD := CD) (CR := CR) f config client).
Proof.
  unfold Smtp.handle_client.
  eapply (settled_bind N never_fails); [by apply settled_modify| |done].
  intros _ _. eapply settled_bind; [apply settled_attempt| |].
  - eapply (settled_bind N (fun r => r <> Err SmtpRunning) (fun r => r <> Err SmtpRunning)).
    + eapply (settled_with_err N (fun _ => True)); [by intros [?|?]|].
      by eapply settled_const, inert_emits, inert_reply.
    + intros _ _. apply settled_session_loop.
    + done.
  - intros [u|[]] Hr; [| |].
    all: try by exfalso; apply Hr.
    all: eapply (settled_bind N never_fails); [|by intros _ _; apply settled_pure|done].
    all: apply settled_end_session.
  - by intros e [].
Qed.
End SmtpProgress.

(** ** HTTP requests *)
Section HttpProgress.
Context `{Env} `{HttpLib} {CD CR T K : Type} `{TtlCache bytes IpAddr CD} `{TtlCache bytes CacheEntry CR}
  `{Semaphore T} `{KvStore bytes (Pool T) K}.

Definition not_running {A} (r : result stop A) : Prop := r <> Err StopRunning.

Lemma settled_closing {S A} N stream (m : nat -> M S stop A) :
  settled N not_running m -> settled N not_running (fun f => closing stream (m f)).
Proof.
  intros Hm s t f f' Ht Hf Hf'. destruct (Hm s t f f' Ht Hf Hf') as [Heq Hw].
  unfold wp, closing in *. rewrite <- Heq. destruct (m f s t) as [[r s'] t'].
  destruct Hw as [Hr Hs]. split; [done|].
  destruct r as [a|[]]; (split; [done|]); try done; by apply suffix_cons_r.
Qed.

(** A program without fuel never stops for want of it. *)
Lemma settled_error {S A} N (m : M S ProxyError A) P :
  emits P m -> settled N not_running (fun _ => with_err StopError m).
Proof.
  intros Hm. eapply (settled_with_err N (fun _ => True)); [by intros [?|?]|].
  by eapply settled_const.
Qed.

Lemma not_running_err {A C} e : not_running (A := A) (Err e) -> not_running (A := C) (Err e).
Proof. unfold not_running. congruence. Qed.

Lemma settled_read_body {S} N fuel stream total body :
  (total - List.length body <= fuel)%nat ->
  settled N not_running (fun _ => read_body (S := S) fuel stream total body).
Proof.
  intros Hfuel s t f f' _ _ _. split; [done|].
  eapply wp_mono; [by apply wp_read_body|]. intros r s' t' (-> & l & -> & _ & Hr).
  split; [|by exists l]. destruct r as [?|[]]; done.
Qed.

Lemma settled_build_response {S} N status h body :
  settled N not_running (fun _ => build_response (S := S) status h body).
Proof. unfold build_response, stop_with. destruct (rh_bad h); by apply settled_pure. Qed.

(** An I/O operation, then the rest. *)
Lemma settled_io_bind {S A C} N (ok : result stop C -> Prop) (g : trace -> A) ev
    (k : nat -> A -> M S stop C) :
  (forall a, settled N ok (fun f => k f a)) ->
  settled N ok (fun f => bind (io_event g ev) (k f)).
Proof. intros Hk. eapply settled_bind; [apply settled_io|auto|by intros e []]. Qed.

Lemma settled_raw_reply {S} N cfg stream header_bytes rest :
  settled N not_running (fun _ =>
    match split_crlf header_bytes with
    | [] => stop_with (S := S) (B "missing status line")
    | status_line :: lines =>
        let status_code := unwrap_or 200 (parse_status_line status_line) in
        let status := if hc_raw_backend_assume_ok cfg then 200
                      else if status_ok status_code then status_code else 200 in
        let h := fold_left raw_header_line lines (mkRawHead [] false None false) in
        match rh_content_length h with
        | Some total =>
            if rh_chunked h then build_response status h rest
            else if negb (capacity_ok total) then fail StopPanic
            else
              body <- read_body (Z.to_nat total) stream (Z.to_nat total) rest ;;
              build_response status h body
        | None => build_response status h rest
        end
    end).
Proof.
  destruct (split_crlf header_bytes) as [|line lines]; [by apply settled_pure|]. cbv zeta.
  destruct (rh_content_length _) as [total|]; [|apply settled_build_response].
  destruct (rh_chunked _); [apply settled_build_response|].
  destruct (negb _); [by apply settled_pure|].
  eapply settled_bind; [apply settled_read_body; lia| |].
  - intros body _. apply settled_build_response.
  - intros e. apply not_running_err.
Qed.

Lemma settled_raw_exchange {S} N cfg rq host port stream :
  settled N not_running (fun f => raw_exchange (S := S) f cfg rq host port stream).
Proof.
  unfold raw_exchange. apply settled_io_bind. intros r.
  eapply (settled_bind N not_running not_running); [apply settled_pure; by destruct r| |].
  2: { intros e. apply not_running_err. }
  intros _ _. apply settled_io_bind. intros [w|]; [|by apply settled_pure].
  eapply (settled_bind N not_running not_running); [apply settled_read_head| |].
  2: { intros e. apply not_running_err. }
  intros [n buffer] _. cbv zeta. destruct (from_utf8 _); [|by apply settled_pure].
  apply settled_raw_reply.
Qed.

Lemma settled_forward_request N cfg rq endpoint :
  settled N not_running (fun _ => with_err StopError
    (forward_request (CD := CD) (CR := CR) (T := T) (K := K) cfg rq endpoint)).
Proof.
  destruct (parse_endpoint endpoint 80) as [host port] eqn:Ep.
  eapply settled_error. by apply emits_forward_request.
Qed.

Lemma settled_forward_raw N cfg rq endpoint :
  settled N not_running (fun f =>
    forward_raw_request (CD := CD) (CR := CR) (T := T) (K := K) f cfg rq endpoint).
Proof.
  unfold forward_raw_request. destruct (negb _); [apply settled_forward_request|].
  destruct (parse_endpoint endpoint 80) as [host port]. cbv zeta.
  destruct (split_authority _) as [[h p]|e]; [|by apply settled_pure].
  apply settled_io_bind. intros [[stream|e]|]; try by apply settled_pure.
  apply settled_closing, settled_raw_exchange.
Qed.

Lemma settled_choose_endpoint N cfg rq :
  settled N not_running (fun _ => choose_endpoint (CD := CD) (CR := CR) (K := K) cfg rq).
Proof.
  unfold choose_endpoint. destruct (hc_fixed_backend cfg); [by apply settled_pure|].
  destruct (extract_host rq) as [host|]; [|by apply settled_pure].
  eapply (settled_bind N (fun r => never_fails r)).
  - eapply settled_mono; [|eapply (settled_attempt N (fun _ => True)), settled_zoom, settled_const, emits_route].
    by intros [?|?].
  - intros [cr|e] _; by apply settled_pure.
  - by intros e [].
Qed.

Lemma settled_handle N cfg rq :
  settled N not_running (fun f => handle (CD := CD) (CR := CR) (T := T) (K := K) f cfg rq).
Proof.
  unfold handle. destruct (hc_request_handler cfg) as [handler|].
  { intros s t f f' _ _ _. split; [done|]. unfold wp. by destruct (handler t rq). }
  destruct (hc_direct_response cfg); [by apply settled_pure|].
  eapply settled_bind; [apply settled_choose_endpoint| |intros e; apply not_running_err].
  intros [endpoint|response] _; [|by apply settled_pure].
  eapply (settled_bind N (fun r => match r with Ok r => not_running r | Err _ => False end)).
  - apply settled_attempt. destruct (hc_raw_backend cfg);
      [apply settled_forward_raw|apply settled_forward_request].
  - intros [response|[| |e]] Hr; try by apply settled_pure.
  - by intros e [].
Qed.
End HttpProgress.

(** ** TCP connections *)
Section TcpProgress.
Context `{Env} {CD CR KC KP : Type} `{TtlCacheLaws bytes IpAddr CD} `{TtlCacheLaws bytes CacheEntry CR}.
Context `{KvStore sock TcpClient KC, !KvStoreLaws sock TcpClient KC}.
Context `{KvStore sock sock KP, !KvStoreLaws sock sock KP} `{BpfLib U Obj}.

Definition not_stuck {E A} (r : result E (option A)) : Prop := r <> Ok None.

Lemma settled_dropping {S E A} N fd (m : nat -> M S E (option A)) :
  settled N not_stuck m -> settled N not_stuck (fun f => dropping fd (m f)).
Proof.
  intros Hm s t f f' Ht Hf Hf'. destruct (Hm s t f f' Ht Hf Hf') as [Heq Hw].
  unfold wp, dropping in *. rewrite <- Heq. destruct (m f s t) as [[r s'] t'].
  destruct Hw as [Hr Hs]. split; [done|].
  destruct r as [[a|]|e]; [|by exfalso; apply Hr|]; (split; [done|]); by apply suffix_cons_r.
Qed.

Lemma settled_read_some {S} N stream max :
  settled N not_stuck (fun f => read_some (S := S) f stream max).
Proof.
  unfold read_some.
  eapply settled_bind; [apply settled_io| |by intros e []]. intros r _.
  eapply (settled_bind N (fun _ => True)); [by apply settled_pure| |by intros].
  intros _ _. apply settled_try_read_loop.
Qed.

Lemma settled_bidirectional_copy N client backend n :
  settled N not_stuck (fun f =>
    bidirectional_copy (CD := CD) (CR := CR) (KC := KC) (KP := KP) (Obj := Obj) f client backend n).
Proof.
  unfold bidirectional_copy. eapply settled_bind; [apply settled_get| |by intros e []].
  intros s _. destruct (bool_decide _); [apply settled_forward_serialised|].
  eapply settled_bind; [apply settled_io| |by intros e []]. intros _ _. by apply settled_pure.
Qed.

Lemma settled_activate_sockmap {E} N fd :
  settled N never_fails (fun _ =>
    activate_sockmap (E := E) (CD := CD) (CR := CR) (KC := KC) (KP := KP) (Obj := Obj) fd).
Proof.
  intros s t f f' _ _ _. split; [done|]. apply wp_activate_sockmap. intros. by split.
Qed.

(** Any program of the connection that does not use its fuel, then the rest. *)
Lemma settled_then {S A C} N (m : M S ProxyError A) P (k : nat -> A -> M S ProxyError (option C)) :
  emits P m -> (forall a, settled N not_stuck (fun f => k f a)) ->
  settled N not_stuck (fun f => bind m (k f)).
Proof. intros Hm Hk. by eapply settled_bind; [by eapply settled_const|auto|]. Qed.

Lemma settled_close_connection {E} N fd :
  settled N never_fails (fun _ =>
    close_connection (E := E) (CD := CD) (CR := CR) (KC := KC) (KP := KP) (Obj := Obj) fd).
Proof.
  intros s t f f' _ _ _. split; [done|]. apply wp_close_connection. intros s' l **.
  split; [done|]. by exists l.
Qed.

Lemma settled_run_starttls N client n :
  settled N not_stuck (fun f =>
    run_starttls (CD := CD) (CR := CR) (KC := KC) (KP := KP) (Obj := Obj) f client n).
Proof.
  unfold run_starttls.
  eapply settled_then; [eapply inert_emits, inert_write_all; done|intros _].
  eapply settled_then; [eapply inert_emits, inert_flush; done|intros _].
  eapply (settled_then N _ (fun _ => True)); [by apply emits_io|intros r].
  eapply (settled_then N _ (fun _ => True)); [apply emits_lift|intros _].
  eapply (settled_then N _ (fun _ => True)); [by apply emits_io|intros r'].
  eapply (settled_then N _ (fun _ => True)); [apply emits_lift|intros [|c post]]; [by apply settled_pure|].
  eapply settled_then; [apply emits_get_connection|intros backend].
  eapply settled_then; [eapply inert_emits, inert_send_to_backend; done|intros _].
  apply settled_bidirectional_copy.
Qed.

Lemma settled_run_plain N client initial n :
  settled N not_stuck (fun f =>
    run_plain (CD := CD) (CR := CR) (KC := KC) (KP := KP) (Obj := Obj) f client initial n).
Proof.
  unfold run_plain.
  eapply settled_then; [apply emits_get_connection|intros backend].
  eapply settled_then; [eapply inert_emits, inert_send_to_backend; done|intros _].
  eapply settled_bind; [apply settled_activate_sockmap| |by intros e []].
  intros [|] _; [|apply settled_bidirectional_copy].
  eapply settled_then; [eapply inert_emits, inert_wait_for_close; done|intros _].
  by apply settled_pure.
Qed.

Lemma settled_run_client N sh port client :
  settled N not_stuck (fun f =>
    run_client (CD := CD) (CR := CR) (KC := KC) (KP := KP) (Obj := Obj) f sh port client).
Proof.
  unfold run_client. cbv zeta. apply settled_dropping.
  eapply settled_bind; [apply settled_read_some| |done].
  intros [[|c initial]|] Hne; [by apply settled_pure| |by exfalso; apply Hne].
  destruct (_ && _); [apply settled_run_starttls|apply settled_run_plain].
Qed.

Lemma settled_tcp_client N sh port client :
  settled N not_stuck (fun f =>
    TcpServer.handle_client (CD := CD) (CR := CR) (KC := KC) (KP := KP) (Obj := Obj) f sh port client).
Proof.
  unfold TcpServer.handle_client.
  eapply settled_bind; [apply settled_attempt, settled_run_client| |by intros e []].
  intros [[u|]|e] Hne; [|by exfalso; apply Hne|].
  all: eapply (settled_bind N never_fails); [apply settled_close_connection| |done].
  all: intros _ _; by apply settled_pure.
Qed.
End TcpProgress.

(** ** Properties *)
Section Properties.
Context `{Env} {CD CR : Type} `{TtlCacheLaws bytes IpAddr CD} `{TtlCacheLaws bytes CacheEntry CR}.



End Properties.

(** ** Witnesses *)

(** An environment whose peers stop after [N] units of input. *)
Definition capped_env (N : nat) (e : Env) : Env := {|
  env_now := @env_now e; env_dns_init := @env_dns_init e; env_lookup := @env_lookup e;
  env_connect := @env_connect e; env_call := @env_call e; env_nodelay := @env_nodelay e;
  env_write := @env_write e; env_flush := @env_flush e; env_readable := @env_readable e;
  env_read t s max := if (N <=? costs t)%nat then Done (Ok []) else @env_read e t s max;
  env_read_line t s := if (N <=? costs t)%nat then Ok [] else @env_read_line e t s;
  env_tls_accept := @env_tls_accept e; env_select := @env_select e;
  env_http_handshake := @env_http_handshake e; env_http_ready := @env_http_ready e;
  env_http_send := @env_http_send e; env_http_request_body := @env_http_request_body e;
  env_http_response_body := @env_http_response_body e;
  env_getsockname := @env_getsockname e; env_getpeername := @env_getpeername e |}.

Lemma capped_finite_input N e : @finite_input (capped_env N e) N [].
Proof.
  intros l s Hl. rewrite app_nil_r. cbn. by rewrite (proj2 (Nat.leb_le N (costs l)) Hl).
Qed.

Definition progress_tcp_run (fuel : nat) :=
  @TcpServer.handle_client (capped_env 100 tcp_example_env) _ _ _ _ _ _ _ _ _ _ _
    fuel tcp_example_shared 5433 7 tcp_example_state [].


Definition progress_smtp_run (fuel : nat) :=
  @Smtp.handle_client (capped_env 1000 smtp_example_env) _ _ _ _ fuel smtp_example_config 5
    smtp_example_session [].


(** A raw backend that answers in two pieces. *)
Definition progress_http_env : Env :=
  scripted_env (fun _ => Elapsed) (fun _ _ _ => Done (Ok 9))
    (fun t s _ => Done (Ok (if bool_decide (received s t = []) then B "HTTP/1.1 204 No Content" ++ [CR; LF; CR]
                            else [LF])))
    (fun _ _ => Ok []) (fun _ => true).
Definition progress_http_config : HandlerConfig :=
  mkHandlerConfig None None 200 (Some (B "8.8.8.8:80")) true false false 5 5 1.
Definition progress_http_run (fuel : nat) :=
  @handle (capped_env 100 progress_http_env) http_example_lib _ _ nat (gmap bytes (Pool nat)) _ _ _ _
    fuel progress_http_config (http_example_request (B "example.com")) http_example_state [].

