(* ===== verification/Cli.v ===== *)
(** * Cli: the command line program ([src/rust/bins/proxy/src/main.rs]): the
    environment variables, and the server they describe. *)

From S2P Require Import Prelude Text Net Protocol Resolver World Stores Dns Adapter Ssrf Routing.
From S2P Require Import Tls Sockmap TcpAdapter TcpConfig TcpServer HttpPool HttpHandler HttpServer Smtp.
Open Scope Z_scope.

(** [f64]: parsing a text, whole numbers, and
    [Duration::from_secs_f64(x.max(0.0))] in nanoseconds, which panics on what
    does not fit. *)
Class Seconds : Type := {
  f64 : Type;
  parse_f64 : bytes -> option f64;
  f64_of : Z -> f64;
  duration_of : f64 -> option Z }.

(** [env::var]: the variables that are set, to Unicode texts. *)
Definition Environment : Type := bytes -> option bytes.

Definition DEFAULT_TCP_ENDPOINT : bytes := B "127.0.0.1:5432".
Definition DEFAULT_HTTP_ENDPOINT : bytes := B "127.0.0.1:5678".
Definition DEFAULT_SMTP_ENDPOINT : bytes := B "127.0.0.1:1025".
Definition DEFAULT_RESOLVER_PATH : bytes := B "/etc/utopia-proxy/resolver.php".

(** [enum Command] and the program's own [enum Protocol]. *)
Inductive Command : Type := CommandTcp | CommandHttp | CommandSmtp.
Inductive CliProtocol : Type := CliTcp | CliHttp | CliSmtp.
#[export] Instance CliProtocol_eq_dec : EqDecision CliProtocol.
Proof. solve_decision. Defined.

Definition from_command (command : option Command) : option CliProtocol :=
  match command with
  | Some CommandTcp => Some CliTcp
  | Some CommandHttp => Some CliHttp
  | Some CommandSmtp => Some CliSmtp
  | None => None
  end.

Definition parse_name (name : bytes) : option CliProtocol :=
  let lower := bytes_lower name in
  if bool_decide (lower = B "tcp") then Some CliTcp
  else if bool_decide (lower = B "http") then Some CliHttp
  else if bool_decide (lower = B "smtp") then Some CliSmtp
  else None.

Definition endpoint_env (p : CliProtocol) : bytes :=
  match p with
  | CliTcp => B "TCP_BACKEND_ENDPOINT"
  | CliHttp => B "HTTP_BACKEND_ENDPOINT"
  | CliSmtp => B "SMTP_BACKEND_ENDPOINT"
  end.

Definition endpoint_default (p : CliProtocol) : bytes :=
  match p with
  | CliTcp => DEFAULT_TCP_ENDPOINT
  | CliHttp => DEFAULT_HTTP_ENDPOINT
  | CliSmtp => DEFAULT_SMTP_ENDPOINT
  end.

Definition label (p : CliProtocol) : bytes :=
  match p with
  | CliTcp => B "TCP"
  | CliHttp => B "HTTP"
  | CliSmtp => B "SMTP"
  end.

(** ** Reading variables *)

Definition env_truthy : list bytes := [B "1"; B "true"; B "yes"; B "on"].
Definition env_falsy : list bytes := [B "0"; B "false"; B "no"; B "off"; []].

Definition env_bool (env : Environment) (key : bytes) (default : bool) : bool :=
  match env key with
  | Some value =>
      let lower := bytes_lower (trim_str value) in
      if bool_decide (lower ∈ env_truthy) then true
      else if bool_decide (lower ∈ env_falsy) then false
      else default
  | None => default
  end.

Definition env_number (parse : bytes -> option Z) (env : Environment) (key : bytes) (default : Z) : Z :=
  match env key with
  | Some value => unwrap_or default (parse (trim_str value))
  | None => default
  end.
Definition env_usize : Environment -> bytes -> Z -> Z := env_number parse_usize.
Definition env_u16 : Environment -> bytes -> Z -> Z := env_number parse_u16.
Definition env_u64 : Environment -> bytes -> Z -> Z := env_number parse_u64.

Definition env_f64 `{Seconds} (env : Environment) (key : bytes) (default : f64) : f64 :=
  match env key with
  | Some value => unwrap_or default (parse_f64 (trim_str value))
  | None => default
  end.

Definition env_string (env : Environment) (key default : bytes) : bytes :=
  match env key with
  | Some [] => default
  | Some value => value
  | None => default
  end.

(** [env::var(key).unwrap_or_default()]. *)
Definition env_or_empty (env : Environment) (key : bytes) : bytes := unwrap_or [] (env key).

(** ** The plan of a run *)

Definition resolve_protocol (env : Environment) (command : option Command)
  : result bytes CliProtocol :=
  match from_command command with
  | Some protocol => Ok protocol
  | None =>
      match env (B "PROXY_PROTOCOL") with
      | Some ((_ :: _) as from_env) =>
          ok_or (B "Unknown protocol in PROXY_PROTOCOL: " ++ from_env
                 ++ B " (expected tcp, http, or smtp)") (parse_name from_env)
      | _ => Ok CliTcp
      end
  end.

(** [build_resolver]: the resolver and its description. *)
Definition build_resolver (env : Environment) (protocol : CliProtocol) : Fixed * bytes :=
  let endpoint := env_string env (endpoint_env protocol) (endpoint_default protocol) in
  (fixed_new endpoint, B "fixed (" ++ endpoint ++ B ")").

(** [build_tls]. *)
Definition build_tls (env : Environment) : result bytes (option Tls) :=
  if negb (env_bool env (B "PROXY_TLS_ENABLED") false) then Ok None
  else
    let certificate := env_or_empty env (B "PROXY_TLS_CERT") in
    let key := env_or_empty env (B "PROXY_TLS_KEY") in
    if bool_decide (certificate = []) || bool_decide (key = []) then
      Err (B "PROXY_TLS_ENABLED=true but PROXY_TLS_CERT and PROXY_TLS_KEY are required")
    else
      let ca := env_or_empty env (B "PROXY_TLS_CA") in
      let require_client_cert := env_bool env (B "PROXY_TLS_REQUIRE_CLIENT_CERT") false in
      let tls := tls_new certificate key in
      let tls := if bool_decide (ca <> []) then with_ca ca tls else tls in
      Ok (Some (with_client_cert_required require_client_cert tls)).

(** How a run may fail before its server starts. *)
Inductive cli_error : Type :=
| CliMessage (message : bytes)
| CliPanic.

Section Plan.
Context `{Seconds} {A CD CR : Type} `{TtlCache bytes IpAddr CD} `{TtlCache bytes CacheEntry CR}.

(** What [available_parallelism] answers. *)
Context (available : option Z).
Definition cpus : Z := unwrap_or 1 available.

Definition tcp_ports (env : Environment) : list Z :=
  let ports := List.filter (fun port => 0 <? port)
                 [env_u16 env (B "TCP_POSTGRES_PORT") 5432; env_u16 env (B "TCP_MYSQL_PORT") 3306] in
  if bool_decide (ports = []) then [5432; 3306] else ports.

(** The configuration of [run_tcp]. *)
Definition tcp_config_of (env : Environment) : result cli_error (TcpConfig A) :=
  let ports := tcp_ports env in
  let workers := env_usize env (B "TCP_WORKERS") cpus in
  let skip_validation := env_bool env (B "TCP_SKIP_VALIDATION") false in
  let sockmap_enabled := env_bool env (B "TCP_SOCKMAP_ENABLED") false in
  let sockmap_path := env_or_empty env (B "TCP_SOCKMAP_BPF_OBJECT") in
  let? timeout := ok_or CliPanic (duration_of (env_f64 env (B "TCP_TIMEOUT") (f64_of 30))) in
  let? connect_timeout := ok_or CliPanic (duration_of (env_f64 env (B "TCP_CONNECT_TIMEOUT") (f64_of 5))) in
  let? tls := map_err CliMessage (build_tls env) in
  let config := tcp_with_connect_timeout connect_timeout
                  (tcp_with_timeout timeout
                     (tcp_with_skip_validation skip_validation
                        (tcp_with_workers workers (tcp_config_new available ports)))) in
  let config := if sockmap_enabled && bool_decide (sockmap_path <> [])
                then tcp_with_sockmap sockmap_path config else config in
  Ok (match tls with Some tls => tcp_with_tls tls config | None => config end).

(** The configuration of [run_http]. *)
Definition http_config_of (env : Environment) : HttpConfig CD CR :=
  let port := env_u16 env (B "HTTP_PORT") 8080 in
  let workers := env_usize env (B "HTTP_WORKERS") (cpus * 2) in
  let pool_size := env_usize env (B "HTTP_BACKEND_POOL_SIZE") 2048 in
  let keepalive_timeout := env_u64 env (B "HTTP_KEEPALIVE_TIMEOUT") 60 in
  let http2_enabled := env_bool env (B "HTTP_OPEN_HTTP2") false in
  let skip_validation := env_bool env (B "HTTP_SKIP_VALIDATION") false in
  let fast_path := env_bool env (B "HTTP_FAST_PATH") true in
  let raw_backend := env_bool env (B "HTTP_RAW_BACKEND") false in
  http_with_fast_path fast_path
    (http_with_keepalive_timeout keepalive_timeout
       (http_with_raw_backend raw_backend
          (http_with_skip_validation skip_validation
             (http_with_http2 http2_enabled
                (http_with_pool_size pool_size
                   (http_with_workers workers
                      (http_with_port port (http_config_default available)))))))).

(** The configuration of [run_smtp]. *)
Definition smtp_config_of (env : Environment) : SmtpConfig :=
  let d := smtp_config_default available in
  mkSmtpConfig (smc_host d) (env_u16 env (B "SMTP_PORT") 25)
    (env_usize env (B "SMTP_WORKERS") (cpus * 2)) (smc_max_connections d) (smc_max_coroutine d)
    (smc_socket_buffer_size d) (smc_buffer_output_size d) (smc_enable_coroutine d)
    (smc_max_wait_time d) (smc_timeout d) (smc_connect_timeout d)
    (env_bool env (B "SMTP_SKIP_VALIDATION") false) (smc_cache_ttl d).

(** The server [main] starts. *)
Inductive Plan : Type :=
| PlanTcp (resolver : Fixed) (config : TcpConfig A)
| PlanHttp (resolver : Fixed) (config : HttpConfig CD CR)
| PlanSmtp (resolver : Fixed) (config : SmtpConfig).

(** [main], up to the start of the server. *)
Definition main_plan (env : Environment) (command : option Command) : result cli_error Plan :=
  let? protocol := map_err CliMessage (resolve_protocol env command) in
  let resolver := fst (build_resolver env protocol) in
  match protocol with
  | CliTcp => let? config := tcp_config_of env in Ok (PlanTcp resolver config)
  | CliHttp => Ok (PlanHttp resolver (http_config_of env))
  | CliSmtp => Ok (PlanSmtp resolver (smtp_config_of env))
  end.
End Plan.
Arguments Plan A CD CR : clear implicits.

(** ** What the planned server does *)
Section Adapters.
Context `{Env} `{Seconds} {CD CR KC KP : Type}
  `{TtlCache bytes IpAddr CD} `{TtlCacheLaws bytes CacheEntry CR}
  `{KvStore Z TcpClient KC} `{KvStore Z Z KP}.

(** The resolver of a plan as the adapters call it. *)
Definition resolver_of (f : Fixed) : Resolve := fun _ data => fixed_resolve f data.

(** The adapters the planned server routes with. *)
Definition plan_adapters (sockmap : bool) (p : Plan (TcpAdapter CR KC KP) CD CR) : list (Adapter CR) :=
  match p with
  | PlanTcp f c => map (fun port => ta_base (TcpServer.build_adapter (resolver_of f) c sockmap port)) (tc_ports c)
  | PlanHttp f c => [worker_adapter (Some (resolver_of f)) c]
  | PlanSmtp f c => [Smtp.build_adapter (resolver_of f) c]
  end.

(** An adapter that validates, with nothing cached and a fixed endpoint. *)
Definition fixed_validating (endpoint : bytes) (a : Adapter CR) : Prop :=
  a_resolver a = Some (resolver_of (fixed_new endpoint)) /\ a_on_resolve a = None
  /\ a_skip_validation a = false /\ forall now k, cache_get (a_cache a) now k = None.

Lemma cache_get_new cap ttl now (k : bytes) : cache_get (V := CacheEntry) (C := CR) (cache_new cap ttl) now k = None.
Proof.
  destruct (cache_get _ _ _) eqn:E; [|done]. apply cache_get_held in E as (t & Hh & _).
  by apply cache_new_empty in Hh.
Qed.

Lemma route_fixed_refused endpoint data (s : Routing CD CR) t m :
  fixed_validating endpoint (r_adapter s) -> endpoint <> [] ->
  (forall t', (validate endpoint s t').1.1 = Err m) ->
  (route data s t).1.1 = Err m.
Proof.
  intros (Hr & Ho & Hs & Hc) Hne Hv.
  assert (W : wp (route data) (fun r _ _ => r = Err m) s t).
  2: { unfold wp in W. by destruct (route data s t) as [[r s'] t']. }
  apply (wp_route_miss _ (resolver_of (fixed_new endpoint))); [done..|].
  cbn [resolver_of fixed_resolve fixed_endpoint fixed_new rr_endpoint resolver_result_new].
  rewrite bool_decide_eq_false_2 by done. wp_step. wp_step. rewrite Hs. wp_step.
  unfold wp at 1. set (t1 := EvResolve _ _ :: t). specialize (Hv t1).
  destruct (validate endpoint s t1) as [[r s'] t']. cbn in Hv. by subst r.
Qed.

Definition loopback_refusal : ResolverError :=
  forbidden (B "Access to private/reserved IP address is forbidden: 127.0.0.1").

Lemma default_endpoint_refused p (s : Routing CD CR) t :
  (validate (endpoint_default p) s t).1.1 = Err loopback_refusal.
Proof. destruct p; vm_compute; reflexivity. Qed.

(** A variable that is not set has its default. *)
Lemma env_bool_unset env key d : env key = None -> env_bool env key d = d.
Proof. unfold env_bool. by intros ->. Qed.

Definition skip_env (p : CliProtocol) : bytes :=
  match p with
  | CliTcp => B "TCP_SKIP_VALIDATION"
  | CliHttp => B "HTTP_SKIP_VALIDATION"
  | CliSmtp => B "SMTP_SKIP_VALIDATION"
  end.

(** Every adapter of a plan validates and has nothing cached, if the plan's
    variable for skipping is not set. *)
Lemma plan_adapters_validating available env command sockmap p
    (plan : Plan (TcpAdapter CR KC KP) CD CR) a :
  resolve_protocol env command = Ok p -> env (skip_env p) = None ->
  main_plan available env command = Ok plan -> a ∈ plan_adapters sockmap plan ->
  fixed_validating (env_string env (endpoint_env p) (endpoint_default p)) a.
Proof.
  intros Hp Hskip. unfold main_plan. rewrite Hp. cbn [map_err result_bind].
  pose proof (env_bool_unset env _ false Hskip) as Eskip.
  destruct p; cbn [skip_env] in Eskip.
  - unfold tcp_config_of. rewrite Eskip.
    destruct (duration_of _) as [timeout|]; [|done].
    destruct (duration_of _) as [connect_timeout|]; [|done].
    destruct (build_tls env) as [tls|]; [|done]. cbn [ok_or map_err result_bind].
    intros [= <-] Ha. cbn [plan_adapters] in Ha. apply list_elem_of_fmap in Ha as (port & -> & _).
    destruct tls, (env_bool env (B "TCP_SOCKMAP_ENABLED") false && _);
      (split; [done|]; split; [done|]; split; [done|]; intros; apply cache_get_new).
  - intros [= <-] Ha. cbn [plan_adapters] in Ha. apply list_elem_of_singleton in Ha as ->.
    unfold worker_adapter, http_config_of. cbn. rewrite Eskip.
    split; [done|]; split; [done|]; split; [done|]; intros; apply cache_get_new.
  - intros [= <-] Ha. cbn [plan_adapters] in Ha. apply list_elem_of_singleton in Ha as ->.
    unfold Smtp.build_adapter, smtp_config_of. cbn. rewrite Eskip.
    split; [done|]; split; [done|]; split; [done|]; intros; apply cache_get_new.
Qed.
End Adapters.

(** The ports of the TCP server. *)
Lemma env_u16_range env key d : 0 <= d <= 65535 -> 0 <= env_u16 env key d <= 65535.
Proof.
  intros Hd. unfold env_u16, env_number. destruct (env key) as [v|]; [|done].
  destruct (parse_u16 _) as [n|] eqn:E; [|done]. by apply parse_uint_range in E.
Qed.

Lemma tcp_ports_valid env :
  (1 <= List.length (tcp_ports env) <= 2)%nat /\ Forall valid_port (tcp_ports env).
Proof.
  unfold tcp_ports. set (ps := [_; _]).
  assert (Hps : Forall (fun p => 0 <= p <= 65535) ps).
  { repeat constructor; apply env_u16_range; lia. }
  assert (Hlen : (List.length (List.filter (fun port => (0 <? port)%Z) ps) <= 2)%nat).
  { unfold ps. cbn [List.filter]. repeat case_match; cbn; lia. }
  case_bool_decide as Hnil.
  { split; [cbn; lia|]. repeat constructor; unfold valid_port; lia. }
  split; [destruct (List.filter _ _); [done|cbn in *; lia]|].
  apply Forall_forall. intros p [Hin Hpos]%list_elem_of_In%filter_In.
  rewrite Forall_forall in Hps. apply list_elem_of_In, Hps in Hin. bool_to_prop.
  unfold valid_port. lia.
Qed.

Lemma build_tls_files env tls :
  build_tls env = Ok (Some tls) -> tls_certificate tls <> [] /\ tls_key tls <> [].
Proof.
  unfold build_tls. destruct (negb _); [done|]. cbv zeta.
  case_bool_decide as Hc; [done|]. case_bool_decide as Hk; [done|]. cbn [orb].
  intros [= <-]. by case_bool_decide.
Qed.

(** ** Properties *)
Section Properties.
Context `{Env} `{Seconds} {CD CR KC KP : Type}
  `{TtlCache bytes IpAddr CD} `{TtlCacheLaws bytes CacheEntry CR}
  `{KvStore Z TcpClient KC} `{KvStore Z Z KP}.

(** C38: started without configuration the program serves nothing: whichever
    server is chosen, if neither its backend endpoint nor its skip-validation
    variable is set, every adapter it starts with answers every request with a
    403, because the default endpoint is a loopback address and validation is
    on by default. *)
Theorem default_deployment_refuses available env command sockmap p
    (plan : Plan (TcpAdapter CR KC KP) CD CR) data (s : Routing CD CR) t :
  resolve_protocol env command = Ok p ->
  env (endpoint_env p) = None -> env (skip_env p) = None ->
  main_plan available env command = Ok plan ->
  r_adapter s ∈ plan_adapters sockmap plan ->
  (route data s t).1.1 = Err loopback_refusal /\ error_code loopback_refusal = 403.
Proof.
  intros Hp Hend Hskip Hplan Ha. split; [|done].
  pose proof (plan_adapters_validating _ _ _ _ _ _ _ Hp Hskip Hplan Ha) as Hv.
  unfold env_string in Hv. rewrite Hend in Hv.
  eapply route_fixed_refused; [exact Hv|by destruct p|]. intros t'. apply default_endpoint_refused.
Qed.

(** C39: the planned TCP server is well formed: whatever the environment says,
    if a plan is made at all its ports are one or two, all in 1..=65535 (an
    empty or zero choice falls back to the defaults), its TLS settings name a
    certificate and a key, and eBPF offload is only asked for with an object
    file. *)
Theorem tcp_plan_well_formed {A} available env (config : TcpConfig A) :
  tcp_config_of available env = Ok config ->
  (1 <= List.length (tc_ports config) <= 2)%nat
  /\ Forall valid_port (tc_ports config)
  /\ match tc_tls config with
     | Some tls => tls_certificate tls <> [] /\ tls_key tls <> []
     | None => True
     end
  /\ (tc_sockmap_enabled config = true -> tc_sockmap_bpf_object config <> []).
Proof.
  unfold tcp_config_of.
  destruct (duration_of _) as [timeout|]; [|done].
  destruct (duration_of _) as [connect_timeout|]; [|done].
  destruct (build_tls env) as [tls|] eqn:Etls; [|done]. cbn [ok_or map_err result_bind].
  pose proof (tcp_ports_valid env) as [Hlen Hports].
  assert (Ht : match tls with
               | Some tls => tls_certificate tls <> [] /\ tls_key tls <> []
               | None => True
               end) by (destruct tls; [by eapply build_tls_files|done]).
  destruct (env_bool env (B "TCP_SOCKMAP_ENABLED") false);
    [case_bool_decide as Hpath|]; destruct tls; intros [= <-];
    (split; [exact Hlen|split; [exact Hports|split; [exact Ht|done]]]).
Qed.

(** Which server runs: a subcommand decides; without one, PROXY_PROTOCOL does
    (in any case), an unknown name being an error; without either it is TCP. *)
Theorem resolve_protocol_order env command :
  resolve_protocol env command =
  match command, env (B "PROXY_PROTOCOL") with
  | Some CommandTcp, _ => Ok CliTcp
  | Some CommandHttp, _ => Ok CliHttp
  | Some CommandSmtp, _ => Ok CliSmtp
  | None, Some ((_ :: _) as name) =>
      match parse_name name with
      | Some p => Ok p
      | None => Err (B "Unknown protocol in PROXY_PROTOCOL: " ++ name
                     ++ B " (expected tcp, http, or smtp)")
      end
  | None, _ => Ok CliTcp
  end.
Proof. unfold resolve_protocol. destruct command as [[]|], (env _) as [[]|]; done. Qed.
End Properties.

(** A boolean variable with an unrecognised value has its default, which may be
    true. *)
Lemma env_bool_unrecognised env key default value :
  env key = Some value -> bytes_lower (trim_str value) ∉ env_truthy ++ env_falsy ->
  env_bool env key default = default.
Proof.
  unfold env_bool. intros ->. rewrite not_elem_of_app. intros [H1 H2].
  by rewrite !bool_decide_eq_false_2.
Qed.

(** ** Witnesses *)

#[local] Existing Instance dns_example_env.
#[local] Instance whole_seconds : Seconds := {|
  f64 := Z;
  parse_f64 := parse_u64;
  f64_of n := n;
  duration_of n := Some (from_secs n) |}.

Definition empty_environment : Environment := fun _ => None.
Abbreviation example_plan := (Plan (TcpAdapter (AssocCache bytes CacheEntry) (gmap Z TcpClient) (gmap Z Z))
                            dns_example_cache (AssocCache bytes CacheEntry)).

Lemma default_deployment_refuses_witness :
  exists plan : example_plan, main_plan (Some 4) empty_environment (Some CommandHttp) = Ok plan
  /\ forall a data t, a ∈ plan_adapters true plan ->
     (route data (mkRouting a dns_initial) t).1.1 = Err loopback_refusal.
Proof.
  eexists. split; [reflexivity|]. intros a data t Ha.
  exact (proj1 (default_deployment_refuses (Some 4) empty_environment (Some CommandHttp) true CliHttp _
                  data (mkRouting a dns_initial) t eq_refl eq_refl eq_refl eq_refl Ha)).
Defined.

Lemma tcp_plan_well_formed_witness :
  exists config : TcpConfig unit, tcp_config_of (Some 4) empty_environment = Ok config
  /\ tc_ports config = [5432; 3306] /\ Forall valid_port (tc_ports config).
Proof.
  eexists. split; [reflexivity|]. split; [reflexivity|].
  exact (proj1 (proj2 (tcp_plan_well_formed (Some 4) empty_environment _ eq_refl))).
Defined.
