(* ===== verification/CliMain.v ===== *)
(** * CliMain: the rest of the command line program
    ([src/rust/bins/proxy/src/main.rs]): what it prints, how it ends and with
    which exit code. *)

From S2P Require Import Prelude Text Net Protocol Resolver World Stores Dns Adapter.
From S2P Require Import Tls TcpAdapter TcpConfig HttpServer Smtp Cli.
Open Scope Z_scope.

(** [{:.2?}] of a [Duration]. *)
Class DurationText : Type := { debug_2 : Z -> bytes }.

(** A line printed by [println!], by [eprintln!], or logged by [info!] (with
    the variable it names, if any). *)
Inductive output : Type :=
| Stdout (line : bytes)
| Stderr (line : bytes)
| Info (env : option bytes) (message : bytes).

(** How the [select!] of a [run_*] function ended: the server returned (an
    error as its text), or Ctrl-C was pressed. *)
Inductive server_exit : Type :=
| ServerReturned (r : result bytes unit)
| ShutdownSignal.

(** [log_accepted_but_ignored] and [warn_if_set]. *)
Definition log_accepted_but_ignored (env : Environment) (key reason : bytes) : list output :=
  match env key with Some _ => [Info (Some key) reason] | None => [] end.
Definition warn_if_set (env : Environment) (key : bytes) : list output :=
  match env key with
  | Some _ => [Info (Some key) (B "environment variable accepted but ignored in the Rust runtime")]
  | None => []
  end.

(** [{:<9}]. *)
Definition pad_9 (s : bytes) : bytes := s ++ repeat (chr 32) (9 - List.length s).

Definition RULE : bytes := B "────────────────────────────────────────".

(** [banner]. *)
Definition banner (protocol : CliProtocol) (resolver_description : bytes)
    (details : list (bytes * bytes)) : list output :=
  [Stdout RULE; Stdout (B " Utopia Proxy (Rust)"); Stdout RULE;
   Stdout (B " Protocol : " ++ label protocol);
   Stdout (B " Resolver : " ++ resolver_description)]
  ++ map (fun kv => Stdout (B " " ++ pad_9 (fst kv) ++ B ": " ++ snd kv)) details
  ++ [Stdout RULE].

Definition show_bool (b : bool) : bytes := if b then B "true" else B "false".
Fixpoint join (sep : bytes) (parts : list bytes) : bytes :=
  match parts with
  | [] => []
  | [p] => p
  | p :: rest => p ++ sep ++ join sep rest
  end.

(** The end of the [run_*] functions. *)
Definition server_outcome (name : bytes) (exit : server_exit) : list output * result bytes unit :=
  match exit with
  | ServerReturned r => ([], map_err (fun e => name ++ B " server exited: " ++ e) r)
  | ShutdownSignal => ([Info None (B "shutdown signal received")], Ok tt)
  end.

Section Main.
Context `{Seconds} `{DurationText} {A CD CR : Type}.
Context `{TtlCache bytes IpAddr CD} `{TtlCache bytes CacheEntry CR}.
Context (available : option Z).

Abbreviation Plan := (Plan A CD CR).

(** The lines [run_tcp] shows of its configuration. *)
Definition tcp_details (env : Environment) (config : TcpConfig A) : list (bytes * bytes) :=
  let sockmap_path := env_or_empty env (B "TCP_SOCKMAP_BPF_OBJECT") in
  [(B "Ports", join (B ", ") (map print_dec (tcp_ports env)));
   (B "Workers", print_dec (env_usize env (B "TCP_WORKERS") (cpus available)));
   (B "Timeout", debug_2 (tc_timeout config));
   (B "Connect", debug_2 (tc_connect_timeout config))]
  ++ match tc_tls config with Some _ => [(B "TLS", B "enabled")] | None => [] end
  ++ if env_bool env (B "TCP_SOCKMAP_ENABLED") false
     then [(B "Sockmap", match sockmap_path with
                         | [] => B "enabled (no object)"
                         | _ :: _ => B "enabled (" ++ sockmap_path ++ B ")"
                         end)]
     else [].

(** [run_tcp]. *)
Definition run_tcp (env : Environment) (resolver_description : bytes) (exit : server_exit)
  : list output * result cli_error unit :=
  let logs :=
    log_accepted_but_ignored env (B "TCP_SERVER_IMPL")
      (B "Rust has a single async TCP server implementation — value accepted and ignored")
    ++ warn_if_set env (B "TCP_REACTOR_NUM") ++ warn_if_set env (B "TCP_SERVER_MODE") in
  match tcp_config_of (A := A) available env with
  | Err e => (logs, Err e)
  | Ok config =>
      let '(last, r) := server_outcome (B "TCP") exit in
      (logs ++ banner CliTcp resolver_description (tcp_details env config) ++ last, map_err CliMessage r)
  end.

(** [run_http]. *)
Definition run_http (env : Environment) (resolver_description : bytes) (exit : server_exit)
  : list output * result cli_error unit :=
  let config := http_config_of (CD := CD) (CR := CR) available env in
  let details :=
    [(B "Port", print_dec (hp_port config));
     (B "Workers", print_dec (hp_workers config));
     (B "Pool", print_dec (hp_pool_size config));
     (B "Keepalive", print_dec (hp_keepalive_timeout config) ++ B "s");
     (B "HTTP/2", show_bool (hp_http2_protocol config));
     (B "FastPath", show_bool (hp_fast_path config));
     (B "RawBackend", show_bool (hp_raw_backend config))] in
  let '(last, r) := server_outcome (B "HTTP") exit in
  (log_accepted_but_ignored env (B "HTTP_SERVER_IMPL")
     (B "Rust has a single async HTTP server implementation — value accepted and ignored")
   ++ warn_if_set env (B "HTTP_REACTOR_NUM") ++ warn_if_set env (B "HTTP_SERVER_MODE")
   ++ banner CliHttp resolver_description details ++ last,
   map_err CliMessage r).

(** [run_smtp]. *)
Definition run_smtp (env : Environment) (resolver_description : bytes) (exit : server_exit)
  : list output * result cli_error unit :=
  let config := smtp_config_of available env in
  let details :=
    [(B "Port", print_dec (smc_port config));
     (B "Workers", print_dec (smc_workers config));
     (B "SkipValid", show_bool (smc_skip_validation config))] in
  let '(last, r) := server_outcome (B "SMTP") exit in
  (banner CliSmtp resolver_description details ++ last, map_err CliMessage r).

(** A process ends with this code; a panic of the main thread ends it with
    101. *)
Definition EXIT_PANIC : Z := 101.

(** [main], given what the selected server does. *)
Definition main (env : Environment) (command : option Command) (exit : server_exit)
  : list output * Z :=
  match resolve_protocol env command with
  | Err message => ([Stderr message], 1)
  | Ok protocol =>
      let description := snd (build_resolver env protocol) in
      let '(out, r) :=
        match protocol with
        | CliTcp => run_tcp env description exit
        | CliHttp => run_http env description exit
        | CliSmtp => run_smtp env description exit
        end in
      match r with
      | Ok _ => (out, 0)
      | Err (CliMessage message) => (out ++ [Stderr (B "ERROR: " ++ message)], 1)
      | Err CliPanic => (out, EXIT_PANIC)
      end
  end.

(** ** Properties *)

(** What the planned server's protocol is called. *)
Definition plan_name (p : Plan) : bytes :=
  match p with PlanTcp _ _ => B "TCP" | PlanHttp _ _ => B "HTTP" | PlanSmtp _ _ => B "SMTP" end.

(** Lines that are not errors. *)
Definition no_error (o : output) : Prop := match o with Stderr _ => False | _ => True end.

Lemma no_error_banner protocol description details : Forall no_error (banner protocol description details).
Proof.
  unfold banner. repeat (apply Forall_cons; split; [done|]).
  apply Forall_app; split; [|by repeat constructor]. by apply Forall_fmap, Forall_true.
Qed.
Lemma no_error_logs env key reason : Forall no_error (log_accepted_but_ignored env key reason).
Proof. unfold log_accepted_but_ignored. destruct (env key); by repeat constructor. Qed.
Lemma no_error_warn env key : Forall no_error (warn_if_set env key).
Proof. unfold warn_if_set. destruct (env key); by repeat constructor. Qed.
Lemma no_error_outcome name exit : Forall no_error (server_outcome name exit).1.
Proof. destruct exit; by repeat constructor. Qed.
#[local] Hint Resolve no_error_banner no_error_logs no_error_warn no_error_outcome : core.
Lemma no_error_app l1 l2 : Forall no_error l1 -> Forall no_error l2 -> Forall no_error (l1 ++ l2).
Proof. intros. by apply Forall_app. Qed.
#[local] Hint Resolve no_error_app : core.

(** What a [run_*] function makes of its server. *)
Definition ran (name : bytes) (exit : server_exit) (o : list output * result cli_error unit) : Prop :=
  Forall no_error o.1 /\ o.2 = map_err CliMessage (server_outcome name exit).2.

Lemma run_tcp_ran env description exit :
  match tcp_config_of (A := A) available env with
  | Ok _ => ran (B "TCP") exit (run_tcp env description exit)
  | Err e => Forall no_error (run_tcp env description exit).1 /\ (run_tcp env description exit).2 = Err e
  end.
Proof.
  unfold run_tcp. destruct (tcp_config_of available env) as [config|e].
  - pose proof (no_error_outcome (B "TCP") exit) as Ho. unfold ran.
    destruct (server_outcome (B "TCP") exit) as [last r]. cbn in Ho. split; [|done].
    cbn [fst]. auto 7.
  - split; [|done]. cbn [fst]. auto 7.
Qed.

Lemma run_http_ran env description exit : ran (B "HTTP") exit (run_http env description exit).
Proof.
  unfold run_http, ran. pose proof (no_error_outcome (B "HTTP") exit) as Ho.
  destruct (server_outcome (B "HTTP") exit) as [last r]. cbn in Ho. split; [|done].
  cbn [fst]. auto 7.
Qed.

Lemma run_smtp_ran env description exit : ran (B "SMTP") exit (run_smtp env description exit).
Proof.
  unfold run_smtp, ran. pose proof (no_error_outcome (B "SMTP") exit) as Ho.
  destruct (server_outcome (B "SMTP") exit) as [last r]. cbn in Ho. split; [|done].
  cbn [fst]. auto 7.
Qed.

(** How [main] ends, by what became of the server. *)
Definition exit_post (name : bytes) (exit : server_exit) (o : list output * Z) : Prop :=
  match exit with
  | ServerReturned (Err e) =>
      o.2 = 1 /\ exists lines, Forall no_error lines
                 /\ o.1 = lines ++ [Stderr (B "ERROR: " ++ name ++ B " server exited: " ++ e)]
  | _ => o.2 = 0 /\ Forall no_error o.1
  end.

Lemma ran_exit name exit (o : list output * result cli_error unit) :
  ran name exit o ->
  exit_post name exit
    (let '(out, r) := o in
     match r with
     | Ok _ => (out, 0)
     | Err (CliMessage message) => (out ++ [Stderr (B "ERROR: " ++ message)], 1)
     | Err CliPanic => (out, EXIT_PANIC)
     end).
Proof.
  destruct o as [out r]. intros [Hn Hr]. cbn in *. subst r.
  destruct exit as [[[]|e]|]; cbn; [done| |done]. split; [done|]. by exists out.
Qed.


(** What the banner shows is read from the variables the configuration was
    built from. *)
Lemma tcp_config_fields env (config : TcpConfig A) :
  tcp_config_of available env = Ok config ->
  tc_ports config = tcp_ports env /\ tc_workers config = env_usize env (B "TCP_WORKERS") (cpus available)
  /\ build_tls env = Ok (tc_tls config).
Proof.
  unfold tcp_config_of. destruct (duration_of _) as [timeout|]; [|done].
  destruct (duration_of _) as [connect_timeout|]; [|done].
  destruct (build_tls env) as [tls|]; [|done]. cbn [ok_or map_err result_bind]. intros [= <-].
  by destruct tls, (env_bool env (B "TCP_SOCKMAP_ENABLED") false && _).
Qed.

(** The banner tells the truth: the ports, the number of workers and the
    resolver it shows are those of the configuration the TCP server is started
    with, and it says that TLS is enabled exactly when the server has it. *)
Theorem banner_matches_config env command exit f (config : TcpConfig A) :
  main_plan (CD := CD) (CR := CR) available env command = Ok (PlanTcp f config) ->
  let out := (main env command exit).1 in
  Stdout (B " Ports    : " ++ join (B ", ") (map print_dec (tc_ports config))) ∈ out
  /\ Stdout (B " Workers  : " ++ print_dec (tc_workers config)) ∈ out
  /\ Stdout (B " Resolver : fixed (" ++ fixed_endpoint f ++ B ")") ∈ out
  /\ (Stdout (B " TLS      : enabled") ∈ out <-> is_Some (tc_tls config)).
Proof.
  unfold main_plan, main. destruct (resolve_protocol env command) as [[| |]|m]; try done.
  cbn [map_err result_bind]. unfold run_tcp.
  destruct (tcp_config_of available env) as [config'|e] eqn:Ec; [|done]. intros [= <- <-].
  pose proof (tcp_config_fields env config' Ec) as (Eports & Eworkers & _).
  destruct (server_outcome (B "TCP") exit) as [last r] eqn:Eo.
  assert (Hlast : forall line, Stdout line ∉ last).
  { intros line. destruct exit; cbn in Eo; injection Eo as <- _; set_solver. }
  set (logs := log_accepted_but_ignored _ _ _ ++ _ ++ _).
  assert (Hlogs : forall line, Stdout line ∉ logs).
  { intros line. unfold logs, log_accepted_but_ignored, warn_if_set.
    destruct (env _), (env _), (env _); set_solver. }
  set (description := snd (build_resolver env CliTcp)).
  assert (Hout : forall line,
    Stdout line ∈ (let '(out, r0) := (logs ++ banner CliTcp description (tcp_details env config') ++ last,
                                      map_err CliMessage r) in
                   match r0 with
                   | Ok _ => (out, 0)
                   | Err (CliMessage message) => (out ++ [Stderr (B "ERROR: " ++ message)], 1)
                   | Err CliPanic => (out, EXIT_PANIC)
                   end).1
    <-> Stdout line ∈ banner CliTcp description (tcp_details env config')).
  { intros line. destruct r as [[]|e]; cbn [map_err fst]; rewrite ?elem_of_app, ?list_elem_of_singleton;
      specialize (Hlogs line); specialize (Hlast line); naive_solver. }
  cbn zeta in Hout |- *. rewrite !Hout. clear Hout. unfold banner. split_and!.
  - apply elem_of_app; right; apply elem_of_app; left; apply list_elem_of_fmap.
    eexists (B "Ports", _). split; [done|unfold tcp_details; rewrite <- Eports; by left].
  - apply elem_of_app; right; apply elem_of_app; left; apply list_elem_of_fmap.
    eexists (B "Workers", _). split; [done|unfold tcp_details; rewrite <- Eworkers; right; by left].
  - apply elem_of_app; left. do 4 right. left.
  - rewrite elem_of_app. split.
    + intros [Hin|Hin].
      { by repeat (apply elem_of_cons in Hin as [Hin|Hin]; [discriminate|]); apply not_elem_of_nil in Hin. }
      apply elem_of_app in Hin as [Hin|Hin]; [|by apply list_elem_of_singleton in Hin].
      apply list_elem_of_fmap in Hin as ([k v] & Hkv & Hin). unfold tcp_details in Hin.
      destruct (tc_tls config'); [done|].
      destruct (env_bool env (B "TCP_SOCKMAP_ENABLED") false); cbn [app] in Hin;
        repeat (apply elem_of_cons in Hin as [[= -> ->]|Hin]; [discriminate|]);
        by apply not_elem_of_nil in Hin.
    + intros [tls Htls]. right. apply elem_of_app; left. apply list_elem_of_fmap.
      exists (B "TLS", B "enabled"). split; [done|]. unfold tcp_details. rewrite Htls.
      rewrite !elem_of_app. right. left. by left.
Qed.
End Main.

(** ** Witness *)

Definition cli_example_text : DurationText := {| debug_2 d := print_dec (d / 1000000000) ++ B ".00s" |}.
#[local] Existing Instances whole_seconds cli_example_text.

Abbreviation ExPlan := (Plan unit (AssocCache bytes IpAddr) (AssocCache bytes CacheEntry)).
Definition cli_example_plan : result cli_error ExPlan := main_plan (Some 8) empty_environment None.
Definition cli_example_output : list output * Z :=
  main (A := unit) (CD := AssocCache bytes IpAddr) (CR := AssocCache bytes CacheEntry)
    (Some 8) empty_environment None ShutdownSignal.

Example cli_example_banner :
  cli_example_output.1 = map Stdout
    [RULE; B " Utopia Proxy (Rust)"; RULE; B " Protocol : TCP";
     B " Resolver : fixed (127.0.0.1:5432)"; B " Ports    : 5432, 3306"; B " Workers  : 8";
     B " Timeout  : 30.00s"; B " Connect  : 5.00s"; RULE]
  ++ [Info None (B "shutdown signal received")].
Proof. vm_compute. reflexivity. Qed.

Lemma banner_matches_config_witness :
  exists f config, cli_example_plan = Ok (PlanTcp f config)
  /\ tc_ports config = [5432; 3306]
  /\ Stdout (B " Ports    : 5432, 3306") ∈ cli_example_output.1
  /\ Stdout (B " TLS      : enabled") ∉ cli_example_output.1.
Proof.
  destruct cli_example_plan as [[f config|f config|f config]|e] eqn:E; try discriminate E.
  pose proof (banner_matches_config (A := unit) (CD := AssocCache bytes IpAddr) (CR := AssocCache bytes CacheEntry)
                (Some 8) empty_environment None ShutdownSignal f config E) as (Hp & _ & _ & Htls).
  injection E as <- <-. eexists _, _. split; [reflexivity|]. split; [reflexivity|]. split; [exact Hp|].
  intros Hin. apply Htls in Hin as [tls Hin]. discriminate Hin.
Defined.
