(* ===== verification/Examples.v ===== *)
(** * Examples: the example programs of the crate
    ([examples/tcp.rs], [http.rs], [http_proxy.rs], [smtp.rs]): the
    configurations they build, what they print, and their resolvers. *)

From S2P Require Import Prelude Text Net Protocol Resolver World Stores Dns Adapter Ssrf Routing.
From S2P Require Import Interleave RoutingConcurrency.
From S2P Require Import Tls TcpAdapter TcpConfig HttpServer Smtp Cli CliMain.
Open Scope Z_scope.

(** How an example ends: its [main] returns the server's error, or not. *)
Definition example_end (exit : server_exit) : list output * result bytes unit :=
  match exit with
  | ServerReturned r => ([], r)
  | ShutdownSignal => ([Stdout []; Stdout (B "shutdown signal received")], Ok tt)
  end.

(** [env::var(key).unwrap_or_else(..)]: a variable set to the empty text
    counts. *)
Definition example_endpoint (env : Environment) (key default : bytes) : bytes :=
  unwrap_or default (env key).

Module TcpExample.
Definition env_bool (env : Environment) (key : bytes) (default : bool) : bool :=
  match env key with
  | Some value => bool_decide (bytes_lower (trim_str value) ∈ env_truthy)
  | None => default
  end.
Definition env_u16 : Environment -> bytes -> Z -> Z := env_number parse_u16.
Definition env_usize : Environment -> bytes -> Z -> Z := env_number parse_usize.
Definition cpus (available : option Z) : Z := unwrap_or 1 available.

Definition tls_of (env : Environment) : result bytes (option Tls) :=
  if env_bool env (B "PROXY_TLS_ENABLED") false then
    let certificate := env_or_empty env (B "PROXY_TLS_CERT") in
    let key := env_or_empty env (B "PROXY_TLS_KEY") in
    if bool_decide (certificate = []) || bool_decide (key = []) then
      Err (B "PROXY_TLS_ENABLED=true but PROXY_TLS_CERT and PROXY_TLS_KEY are required")
    else
      let tls := tls_new certificate key in
      let ca := env_or_empty env (B "PROXY_TLS_CA") in
      let tls := if bool_decide (ca <> []) then with_ca ca tls else tls in
      Ok (Some (with_client_cert_required
                  (env_bool env (B "PROXY_TLS_REQUIRE_CLIENT_CERT") false) tls))
  else Ok None.

Definition ports_of (env : Environment) : list Z :=
  let ports := List.filter (fun port => 0 <? port)
                 [env_u16 env (B "TCP_POSTGRES_PORT") 5432; env_u16 env (B "TCP_MYSQL_PORT") 3306] in
  if bool_decide (ports = []) then [5432; 3306] else ports.

Definition config_of {A} (available : option Z) (env : Environment) : result bytes (TcpConfig A) :=
  let workers := env_usize env (B "TCP_WORKERS") (cpus available) in
  let skip_validation := env_bool env (B "TCP_SKIP_VALIDATION") false in
  let sockmap_enabled := env_bool env (B "TCP_SOCKMAP_ENABLED") false in
  let sockmap_path := env_or_empty env (B "TCP_SOCKMAP_BPF_OBJECT") in
  let? tls := tls_of env in
  let config := tcp_with_skip_validation skip_validation
                  (tcp_with_workers workers (tcp_config_new available (ports_of env))) in
  let config := if sockmap_enabled && bool_decide (sockmap_path <> [])
                then tcp_with_sockmap sockmap_path config else config in
  Ok (match tls with Some tls => tcp_with_tls tls config | None => config end).

Definition banner_of {A} (env : Environment) (backend_endpoint : bytes) (config : TcpConfig A)
  : list output :=
  [Stdout (B "Starting TCP Proxy Server...");
   Stdout (B "Host: " ++ tc_host config);
   Stdout (B "Ports: " ++ join (B ", ") (map print_dec (ports_of env)));
   Stdout (B "Workers: " ++ print_dec (tc_workers config));
   Stdout (B "Max connections: " ++ print_dec (tc_max_connections config));
   Stdout (B "Backend: " ++ backend_endpoint)]
  ++ match tc_tls config with
     | Some tls =>
         Stdout (B "TLS: enabled (certificate: " ++ tls_certificate tls ++ B ")")
         :: (if is_mutual tls then [Stdout (B "mTLS: enabled (ca: " ++ tls_ca tls ++ B ")")] else [])
     | None => []
     end
  ++ [Stdout []].

Definition main {A} (available : option Z) (env : Environment) (exit : server_exit)
  : list output * result bytes unit :=
  let backend_endpoint := example_endpoint env (B "TCP_BACKEND_ENDPOINT") (B "tcp-backend:15432") in
  match config_of (A := A) available env with
  | Err message => ([], Err message)
  | Ok config =>
      let '(last, r) := example_end exit in (banner_of env backend_endpoint config ++ last, r)
  end.
End TcpExample.

Module HttpExample.
Definition env_bool (env : Environment) (key : bytes) (default : bool) : bool :=
  match env key with
  | Some value =>
      let lower := bytes_lower (trim_str value) in
      if bool_decide (lower ∈ env_truthy) then true
      else if bool_decide (lower ∈ env_falsy) then false
      else default
  | None => default
  end.
Definition env_u16 : Environment -> bytes -> Z -> Z := env_number parse_u16.
Definition env_u64 : Environment -> bytes -> Z -> Z := env_number parse_u64.
Definition env_usize : Environment -> bytes -> Z -> Z := env_number parse_usize.
Definition cpus (available : option Z) : Z := unwrap_or 1 available.

Definition config_of {CD CR} (available : option Z) (env : Environment) : HttpConfig CD CR :=
  let port := env_u16 env (B "HTTP_PORT") 8080 in
  let workers := env_usize env (B "HTTP_WORKERS") (cpus available * 2) in
  let pool_size := env_usize env (B "HTTP_BACKEND_POOL_SIZE") 2048 in
  let keepalive_timeout := env_u64 env (B "HTTP_KEEPALIVE_TIMEOUT") 60 in
  let http2_enabled := env_bool env (B "HTTP_OPEN_HTTP2") false in
  let skip_validation := env_bool env (B "HTTP_SKIP_VALIDATION") false in
  let fast_path := env_bool env (B "HTTP_FAST_PATH") true in
  let raw_backend := env_bool env (B "HTTP_RAW_BACKEND") false in
  http_with_fast_path fast_path
    (http_with_keepalive_timeout keepalive_timeout
       (http_with_raw_backend raw_backend
          (http_with_skip_validation skip_validation
             (http_with_http2 http2_enabled
                (http_with_pool_size pool_size
                   (http_with_workers workers
                      (http_with_port port (http_config_default available)))))))).

Definition main {CD CR} (available : option Z) (env : Environment) (exit : server_exit)
  : list output * result bytes unit :=
  let backend_endpoint := example_endpoint env (B "HTTP_BACKEND_ENDPOINT") (B "http-backend:5678") in
  let config : HttpConfig CD CR := config_of available env in
  let '(last, r) := example_end exit in
  ([Stdout (B "Starting HTTP Proxy Server...");
    Stdout (B "Port: " ++ print_dec (hp_port config));
    Stdout (B "Workers: " ++ print_dec (hp_workers config));
    Stdout (B "Backend: " ++ backend_endpoint);
    Stdout []] ++ last, r).
End HttpExample.

Module SmtpExample.
Definition env_bool (env : Environment) (key : bytes) (default : bool) : bool :=
  match env key with
  | Some value => bool_decide (bytes_lower (trim_str value) ∈ env_truthy)
  | None => default
  end.
Definition env_u16 : Environment -> bytes -> Z -> Z := env_number parse_u16.
Definition env_usize : Environment -> bytes -> Z -> Z := env_number parse_usize.
Definition cpus (available : option Z) : Z := unwrap_or 1 available.

Definition config_of (available : option Z) (env : Environment) : SmtpConfig :=
  let d := smtp_config_default available in
  mkSmtpConfig (smc_host d) (env_u16 env (B "SMTP_PORT") 25)
    (env_usize env (B "SMTP_WORKERS") (cpus available * 2)) (smc_max_connections d)
    (smc_max_coroutine d) (smc_socket_buffer_size d) (smc_buffer_output_size d)
    (smc_enable_coroutine d) (smc_max_wait_time d) (smc_timeout d) (smc_connect_timeout d)
    (env_bool env (B "SMTP_SKIP_VALIDATION") false) (smc_cache_ttl d).

Definition main (available : option Z) (env : Environment) (exit : server_exit)
  : list output * result bytes unit :=
  let backend_endpoint := example_endpoint env (B "SMTP_BACKEND_ENDPOINT") (B "smtp-backend:1025") in
  let config := config_of available env in
  let '(last, r) := example_end exit in
  ([Stdout (B "Starting SMTP Proxy Server...");
    Stdout (B "Port: " ++ print_dec (smc_port config));
    Stdout (B "Workers: " ++ print_dec (smc_workers config));
    Stdout (B "Backend: " ++ backend_endpoint);
    Stdout []] ++ last, r).
End SmtpExample.

Module HttpProxyExample.
(** [struct HostMapResolver]. *)
Record HostMapResolver : Type := mkHostMapResolver { backends : gmap bytes bytes }.
Definition host_map_new (m : list (bytes * bytes)) : HostMapResolver :=
  mkHostMapResolver (list_to_map m).

(** [<HostMapResolver as Resolver>::resolve]. *)
Definition host_map_resolve (h : HostMapResolver) : Resolve := fun _ data =>
  match from_utf8 data with
  | None => Err (not_found (B "non-utf8 hostname"))
  | Some _ =>
      match backends h !! data with
      | Some endpoint => Ok (resolver_result_new endpoint)
      | None => Err (not_found (B "No backend configured for hostname: " ++ data))
      end
  end.

Definition example_backends : list (bytes * bytes) :=
  [(B "api.example.com", B "localhost:3000"); (B "app.example.com", B "localhost:3001");
   (B "admin.example.com", B "localhost:3002")].

Definition config_of {CD CR} (available : option Z) : HttpConfig CD CR :=
  http_with_workers (unwrap_or 1 available * 2) (http_with_port 8080 (http_config_default available)).

(** The backends are listed in the order the map yields them. *)
Definition main (listed : list (bytes * bytes)) (exit : server_exit)
  : list output * result bytes unit :=
  let '(last, r) := example_end exit in
  ([Stdout (B "HTTP Proxy Server"); Stdout (B "Listening on: http://0.0.0.0:8080"); Stdout [];
    Stdout (B "Configured backends:")]
   ++ map (fun he => Stdout (B "  " ++ fst he ++ B " -> " ++ snd he)) listed
   ++ [Stdout []] ++ last, r).

(** The resolver the example's server uses. *)
Definition example_resolver : Resolve := host_map_resolve (host_map_new example_backends).
End HttpProxyExample.

(** ** The examples against the program *)

(** The two readings of a boolean agree when the default is false. *)
Lemma env_bool_default_false env key :
  TcpExample.env_bool env key false = env_bool env key false
  /\ SmtpExample.env_bool env key false = env_bool env key false.
Proof.
  unfold TcpExample.env_bool, SmtpExample.env_bool, env_bool.
  destruct (env key) as [value|]; [|done]. cbv zeta.
  repeat case_bool_decide; done.
Qed.

Lemma example_tls_agrees env : TcpExample.tls_of env = build_tls env.
Proof.
  unfold TcpExample.tls_of, build_tls.
  destruct (env_bool_default_false env (B "PROXY_TLS_ENABLED")) as [-> _].
  destruct (env_bool env (B "PROXY_TLS_ENABLED") false); [|done]. cbn [negb].
  destruct (bool_decide _ || bool_decide _); [done|].
  by destruct (env_bool_default_false env (B "PROXY_TLS_REQUIRE_CLIENT_CERT")) as [-> _].
Qed.

(** The examples configure their servers as the program does: for every
    environment the HTTP and SMTP examples build exactly the configurations of
    the program, and so does the TCP example where the program's two time-out
    variables are not set, although it reads its booleans by another rule. *)
Theorem examples_configure_like_program `{Seconds} {A CD CR} available env :
  HttpExample.config_of (CD := CD) (CR := CR) available env = http_config_of available env
  /\ SmtpExample.config_of available env = smtp_config_of available env
  /\ (env (B "TCP_TIMEOUT") = None -> env (B "TCP_CONNECT_TIMEOUT") = None ->
      duration_of (f64_of 30) = Some (from_secs 30) -> duration_of (f64_of 5) = Some (from_secs 5) ->
      tcp_config_of (A := A) available env = map_err CliMessage (TcpExample.config_of available env)).
Proof.
  split; [done|]. split.
  - unfold SmtpExample.config_of, smtp_config_of.
    by destruct (env_bool_default_false env (B "SMTP_SKIP_VALIDATION")) as [_ ->].
  - intros H1 H2 H30 H5. unfold tcp_config_of, TcpExample.config_of, env_f64. rewrite H1, H2, H30, H5.
    cbn [ok_or result_bind]. rewrite example_tls_agrees.
    destruct (env_bool_default_false env (B "TCP_SKIP_VALIDATION")) as [-> _].
    destruct (env_bool_default_false env (B "TCP_SOCKMAP_ENABLED")) as [-> _].
    destruct (build_tls env) as [tls|]; [|done]. cbn [map_err result_bind].
    by destruct (env_bool env (B "TCP_SOCKMAP_ENABLED") false && _), tls.
Qed.

(** An endpoint variable that is set but empty makes the examples refuse every
    request, where the program falls back to its default. *)
Lemma empty_endpoint_differs env key default :
  env key = Some [] ->
  example_endpoint env key default = [] /\ env_string env key default = default.
Proof. unfold example_endpoint, env_string. by intros ->. Qed.

(** ** The host map *)
Section HostMap.
Context `{Env} {CD CR : Type} `{TtlCacheLaws bytes IpAddr CD} `{TtlCacheLaws bytes CacheEntry CR}.

Lemma host_map_endpoints h t data res :
  HttpProxyExample.host_map_resolve h t data = Ok res ->
  HttpProxyExample.backends h !! data = Some (rr_endpoint res).
Proof.
  unfold HttpProxyExample.host_map_resolve. destruct (from_utf8 data); [|done].
  destruct (HttpProxyExample.backends h !! data) as [endpoint|]; [|done]. by intros [= <-].
Qed.

(** Every backend of the example is on localhost. *)
Lemma example_backends_local data endpoint :
  HttpProxyExample.backends (HttpProxyExample.host_map_new HttpProxyExample.example_backends) !! data
    = Some endpoint ->
  endpoint <> [] /\ endpoint_host endpoint = B "localhost".
Proof.
  cbn [HttpProxyExample.host_map_new HttpProxyExample.backends]. intros Hl.
  apply elem_of_list_to_map_2 in Hl. unfold HttpProxyExample.example_backends in Hl.
  repeat (apply elem_of_cons in Hl as [[= _ ->]|Hl]; [by split; [|vm_compute; reflexivity]|]).
  by apply not_elem_of_nil in Hl.
Qed.

(** The name server knows localhost as a loopback address. *)
Definition localhost_is_local (t : trace) : Prop :=
  forall ips ip, EvLookup (B "localhost") (Done (Ok ips)) ∈ t -> pick_ip ips = Some ip -> is_blocked_ip ip = true.

Lemma local_host_blocked t ip :
  localhost_is_local t -> host_address t (B "localhost") ip -> is_blocked_ip ip = true.
Proof.
  intros Hl [Hlit|(ips & Hin & Hpick)]; [by vm_compute in Hlit|]. by eapply Hl.
Qed.

(** The adapter of the example's server, before anything is cached. *)
Definition host_map_validating (a : Adapter CR) : Prop :=
  a_resolver a = Some HttpProxyExample.example_resolver /\ a_on_resolve a = None
  /\ a_skip_validation a = false /\ forall now k, cache_get (a_cache a) now k = None.

(** The host-map example never forwards: its backends are all on
    localhost, and its server validates, so as long as localhost is looked up
    as a loopback IPv4 address every request is refused with 404 (unknown
    host), 403 (blocked address) or 500 (no answer), and what is cached stays
    nothing. *)
Theorem http_proxy_example_refuses data (s : Routing CD CR) t :
  host_map_validating (r_adapter s) -> dns_inv (r_dns s) t ->
  let '(r, s', t') := route data s t in
  localhost_is_local t' ->
  r_adapter s' = r_adapter s /\ exists e, r = Err e /\ error_code e ∈ [404; 403; 500].
Proof.
  intros (Hr & Ho & Hs & Hc) Hi.
  assert (W : wp (route data) (fun r s' t' => localhost_is_local t' ->
    r_adapter s' = r_adapter s /\ exists e, r = Err e /\ error_code e ∈ [404; 403; 500]) s t).
  2: { unfold wp in W. by destruct (route data s t) as [[r s'] t']. }
  apply (wp_route_miss _ HttpProxyExample.example_resolver); [done..|].
  destruct (HttpProxyExample.example_resolver t data) as [res|e] eqn:Eres.
  2: { intros _. split; [done|]. exists e. split; [done|]. revert Eres.
       unfold HttpProxyExample.example_resolver, HttpProxyExample.host_map_resolve.
       destruct (from_utf8 data); [|intros [= <-]; by left].
       destruct (_ !! data); [done|]. intros [= <-]. by left. }
  pose proof (example_backends_local _ _ (host_map_endpoints _ _ _ _ Eres)) as [Hne Hhost].
  rewrite bool_decide_eq_false_2 by done. wp_step. wp_step. rewrite Hs. wp_step.
  eapply wp_mono; [apply wp_validate; by apply dns_inv_cons|].
  intros [out|e] s1 t2 (Ha & _ & Hv).
  - destruct Hv as (ip & port & (_ & Hb & _) & Hh & _). rewrite Hhost in Hh.
    assert (Hno : localhost_is_local t2 -> False).
    { intros Hl. rewrite (local_host_blocked _ _ Hl Hh) in Hb. done. }
    wp_step. eapply wp_mono.
    { apply (emits_wp (fun _ => True)). destruct (_ =? 0); emits_steps; try done. by intros s2 t3. }
    intros r s2 t3 (l & -> & _).
    assert (Hno' : localhost_is_local (l ++ t2) -> False).
    { intros Hl. apply Hno. intros ips ip' Hin. apply Hl. set_solver. }
    destruct r; [apply wp_ret|]; intros Hl; by destruct (Hno' Hl).
  - intros _. split; [done|]. exists e. split; [done|]. destruct Hv as [-> | ->]; set_solver.
Qed.
End HostMap.

(** ** Witnesses *)

#[local] Existing Instance whole_seconds.

Lemma examples_configure_like_program_witness :
  exists config : TcpConfig unit, TcpExample.config_of (Some 4) empty_environment = Ok config
  /\ tcp_config_of (Some 4) empty_environment = Ok config.
Proof.
  eexists. split; [reflexivity|].
  exact (proj2 (proj2 (examples_configure_like_program (A := unit) (CD := unit) (CR := unit)
                         (Some 4) empty_environment)) eq_refl eq_refl eq_refl eq_refl).
Defined.

(** A machine where localhost is 127.0.0.1. *)
Definition localhost_env : Env :=
  one_host_env (B "localhost") [V4 (mkIpv4 (chr 127) (chr 0) (chr 0) (chr 1))].
#[local] Existing Instance localhost_env.

Definition host_map_example_state : Routing dns_example_cache (AssocCache bytes CacheEntry) :=
  mkRouting (worker_adapter (Some HttpProxyExample.example_resolver)
               (HttpProxyExample.config_of (CD := dns_example_cache) (Some 4))) dns_initial.
Definition host_map_example_run := route (B "api.example.com") host_map_example_state [].

Lemma http_proxy_example_refuses_witness :
  exists e, host_map_example_run.1.1 = Err e /\ error_code e ∈ [404; 403; 500].
Proof.
  pose proof (http_proxy_example_refuses (B "api.example.com") host_map_example_state []
                (conj eq_refl (conj eq_refl (conj eq_refl (fun _ _ => eq_refl)))) (dns_inv_initial [])) as W.
  fold host_map_example_run in W.
  assert (Hl : localhost_is_local host_map_example_run.2).
  { intros ips ip Hin Hpick.
    assert (Hips : ips = [V4 (mkIpv4 (chr 127) (chr 0) (chr 0) (chr 1))]).
    { apply list_elem_of_In in Hin. vm_compute in Hin.
      repeat (destruct Hin as [Hin|Hin]; [first [discriminate Hin|by injection Hin as <-]|]); destruct Hin. }
    subst ips. injection Hpick as <-. vm_compute. reflexivity. }
  destruct host_map_example_run as [[r s'] t']. exact (proj2 (W Hl)).
Defined.
